(* ===== verification/_CoqProject ===== *)
-Q . S2P
Prelude.v
Float64.v
Types.v
Reducers.v
KVStore.v
FileSys.v
ColdStore.v
Paging.v
RingBuffer.v
PointStore.v
Counters.v
Tiering.v
TierManager.v
TieredColumn.v
Engine.v
EngineQuery.v
EngineSpec.v
EngineTiering.v
EngineLoad.v
EngineCorrect.v
EngineJoin.v
EngineDerived.v
EngineStrings.v
Parser.v
Text.v
MultiQuery.v
ColumnIO.v
CsvIngest.v
EngineSnapshot.v
Server.v
ServerTcp.v
Client.v
ConcurrentServer.v
Pipeline.v
Daemon.v
Listener.v
Cli.v
Entry.v
GpuModel.v
GpuKernels.v
GpuGroup.v
GpuAtomics.v
GpuColumn.v
GpuPages.v
GpuEngine.v
Driver.v
DriverRun.v
Handoff.v
AnalyticsDemo.v
