(* ===== verification/Prelude.v ===== *)
(** * MatrixDB: a verification library for the prototype analytical database

    MatrixDB (src/) is an in-process analytical database with a durable
    key-value side, a small query dialect, a shell, a network server and a CUDA
    back end.  This library models its C++ sources and proves what each part
    promises.  Definitions keep the names of the sources; a property is a
    theorem whose comment starts with its claim id.

    ** The parts, and the files that model them

    Foundations.
    - Prelude (this file): machine words, little-endian bytes, the [outcome]
      monad, counted loops, and the list lemmas the components share.
    - Float64: C++ [double] as its 64-bit pattern.
    - Types: types.hpp and the query structures of compute.hpp.
    - FileSys: the files and the crashes the durable parts face.

    The key-value side.
    - KVStore (kv_store.hpp): the open-addressing table; it refines a finite map.
    - ColdStore (cold_store.hpp): the write-ahead log, its record format, CRC and
      replay, torn and damaged tails included.
    - Paging (compute.hpp): [matrix_bin_by_page] and the codec of a scan query.
    - PointStore (compute_mock.cpp): batches, transactions, checkpoint, recovery.
      Counters: what its counters count.
    - RingBuffer (ring_buffer.hpp), Pipeline and Driver (main.cpp): the queue
      between threads, the batching consumer, and the whole run with its oracles;
      DriverRun proves the run.  Handoff and AnalyticsDemo (main.cpp): the
      measurement before it and the demonstration after it.

    The analytical side.
    - Reducers (compute.hpp): every CPU aggregate; the reference for the rest.
    - Tiering (memory_model.hpp, tier_model.hpp, cost_model.hpp, router.hpp),
      TierManager (tier_manager.hpp), TieredColumn (tiered_column.hpp,
      migration_executor.hpp): where columns live and how they move.
    - Engine, EngineQuery, EngineLoad, EngineJoin, EngineDerived, EngineStrings,
      EngineSnapshot (compute_mock.cpp): catalog, queries, loading, joins, derived
      aggregates, dictionaries, snapshots.  EngineSpec is the specification, the
      catalog as a client sees it; EngineTiering and EngineCorrect prove that the
      engine refines it.
    - Parser, MultiQuery, Text (compute_mock.cpp, matrix_cli.hpp): the dialect.
    - ColumnIO (column_io.hpp), CsvIngest (csv_ingest.hpp): files of columns.

    The outside.
    - Server (server.hpp, version.hpp), ServerTcp (server_tcp.hpp), Client
      (client.hpp), ConcurrentServer (concurrent_server.hpp), Daemon
      (matrixdbd.cpp), Listener (server_tcp.hpp): protocol, framing, threads,
      who is let in, and all connections together.
    - Cli (matrix_cli.hpp): the shell.  Entry (matrixdb_cli.cpp, logging.hpp):
      its [main], and the logger.

    The GPU (compute_cuda.cuh, and the device paths of compute_mock.cpp).
    - GpuModel: a grid of threads with barriers and atomics, and when all its
      interleavings agree.  GpuKernels, GpuGroup: every reduction kernel.
      GpuAtomics: the atomics of doubles.  GpuPages, GpuEngine: the page kernel
      and [CUDAGPUEngine].  GpuColumn: a column with device memory, and the scans
      and groupings of the CUDA build.

    The engine calls the reducers over a [store] of columns (TieredColumn) that
    the tier manager plans for; the server, the shell and the daemon call the
    engine and the point store; the router sends a batch or a scan to either
    engine through the class [ComputeInterface] (Tiering), which the pipeline's
    theorems use.  The threads of the concurrent server are proved against an
    interface of their own, the classes [Shared] (requests under the two modes of
    a mutex) and [Serial] (what they mean one after the other), which the server
    discharges; Listener's connections are proved to be such threads.

    ** State and operations

    A component's state is a record with the fields of its class; an operation is
    a function from a state to [outcome] of the next, through the monads of this
    file: [Ret], or [Crash] with the reason the process stops (a failed assert,
    [abort], an uncaught exception, or undefined behaviour, which includes reads
    outside an array and signed overflow).  The program is modelled with its
    asserts on.  Integers are [Z] with [u32], [u64] or [i64] written where the
    machine wraps; doubles are their bit patterns, computed by the standard
    library's IEEE 754 specification.  Threads are step relations: one step is
    one access to shared memory (RingBuffer, the GPU files) or one lock operation
    with what it protects (ConcurrentServer), and one frame received or sent
    (Listener); theorems quantify over all runs.
    A crash of the machine keeps of every file any prefix that contains what was
    synced ([fs_crash]).  Where calls replace files, what a power cut may leave is
    weaker ([FileSys.power_cut]): no directory is synced, so a rename or a
    truncation may be undone, path by path, until the path itself is synced.
    Iteration over [std::unordered_map] follows an arbitrary order given by the
    class [HashOrder]; [std::partial_sort] is the class [PartialSort], which takes
    the comparator and leaves the order of equal elements open.  [strtod] and the
    printing of a double are parameters, and so are clock readings and the largest
    vector that can be allocated.

    ** What the theorems show

    - Meaning: [execute_query] answers [query_ref] of the logical columns,
      wherever they are (EngineCorrect); the shared path agrees; joins, dictionaries, top groups and the shell's lines are what
      they should be.
    - Durability: commits are atomic, recovery finds the map, a power cut during a
      checkpoint loses nothing until the log is emptied and from then on at most
      the rename of the new snapshot, which no directory sync makes durable;
      a damaged record ends replay behind the whole ones; snapshots round-trip
      (PointStore, ColdStore, EngineSnapshot).
    - Order and interleaving: batches, pipeline and ring lose and reorder
      nothing; the run of the driver comes to its end with the totals its oracles
      ask for, however its four threads take turns; concurrent serving equals
      serial serving, from the mutex up to the bytes on every connection; nothing
      deadlocks, and the daemon closes every connection it was given unless a
      request stops the process.
    - Boundaries: the bytes that are a request are characterised, and every string
      is tokenised and parsed or refused; principals see what they were granted,
      frames arrive whole however they are cut.
    - Tiering: plans fit their books, the executor carries them out, migration
      keeps the bytes.
    - GPU: every kernel of u32 and int64 gives the CPU's answer in every
      interleaving, as long as no sum of int64 can overflow, and so do MIN and MAX
      of doubles, up to the sign of a zero and NaN; all end; the store after a
      batch mirrors the CPU's table.

    ** Loops, fuel and bounds

    Structural recursion or counted loops are used wherever the code has a
    bound.  Fuel appears where it does not: the probe loops run for as many turns
    as the table has slots, the CRC for eight bits a byte, replay and the file
    readers for the length of the file, [recv_all] and [send_all] for the number
    of bytes, the rebalancing loops for the number of columns, tokenising for
    the length of the string; in each case the measure falls with every turn, and
    the theorems state results, not only partial correctness.  Runs of step
    relations are bounded by measures: four steps a request for the server, three
    steps and two a byte of input for a connection, four accesses a thread and one
    a row for a kernel.

    ** Not modelled

    The kernel's side of sockets (what [socket], [bind], [listen], [accept] and
    [recv] answer is an input), signals, pinning of threads, the rates that
    main.cpp prints and the timing of its benchmarks, messages of progress, the
    release-build behaviour of failed asserts, buffering inside stdio, relaxed
    memory orders beyond the two the ring relies on, CUDA calls that fail (they abort), and equality of double
    sums on the GPU, which does not hold.  That [analytical_query_demo] passes is
    evaluated on fewer rows than it has.  Tests, spikes, notebooks and build
    scripts are not part of the program. *)

From Stdlib Require Export ZArith Lia.
From stdpp Require Export base gmap strings list pretty.
From coqutil Require Export Byte Word.LittleEndianList.
#[export] Set Default Goal Selector "!".
#[global] Open Scope Z_scope.

(** ** Machine words

    A [w]-bit unsigned integer is a [Z] kept in range by an explicit wrap; a
    signed 64-bit integer is a [Z] in [[INT64_MIN, INT64_MAX]]. *)

Definition UINT32_MAX : Z := 2 ^ 32 - 1.
Definition UINT64_MAX : Z := 2 ^ 64 - 1.
Definition INT64_MIN : Z := - 2 ^ 63.
Definition INT64_MAX : Z := 2 ^ 63 - 1.

Definition u32 (z : Z) : Z := z `mod` 2 ^ 32.
Definition u64 (z : Z) : Z := z `mod` 2 ^ 64.

(** Conversion of a 64-bit pattern to the signed value it denotes in two's
    complement ([static_cast<int64_t>]), and back ([static_cast<uint64_t>] is
    [u64]). *)
Definition i64 (z : Z) : Z :=
  let m := u64 z in if m <? 2 ^ 63 then m else m - 2 ^ 64.

Definition in_u32 (z : Z) : Prop := 0 <= z < 2 ^ 32.
Definition in_u64 (z : Z) : Prop := 0 <= z < 2 ^ 64.
Definition in_i64 (z : Z) : Prop := INT64_MIN <= z <= INT64_MAX.

Ltac unfold_words :=
  unfold u32, u64, i64, in_u32, in_u64, in_i64,
    UINT32_MAX, UINT64_MAX, INT64_MIN, INT64_MAX in *.

Lemma u64_range z : in_u64 (u64 z).
Proof. unfold in_u64, u64. apply Z.mod_pos_bound. lia. Qed.

Lemma u32_range z : in_u32 (u32 z).
Proof. unfold in_u32, u32. apply Z.mod_pos_bound. lia. Qed.

Lemma u64_small z : in_u64 z → u64 z = z.
Proof. unfold in_u64, u64. intros. by apply Z.mod_small. Qed.

Lemma u32_small z : in_u32 z → u32 z = z.
Proof. unfold in_u32, u32. intros. by apply Z.mod_small. Qed.

Lemma u64_add_l a b : u64 (u64 a + b) = u64 (a + b).
Proof. unfold u64. by rewrite Zplus_mod_idemp_l. Qed.

Lemma u64_add_r a b : u64 (a + u64 b) = u64 (a + b).
Proof. unfold u64. by rewrite Zplus_mod_idemp_r. Qed.

Lemma i64_range z : in_i64 (i64 z).
Proof.
  unfold i64. pose proof (u64_range z) as H. unfold_words.
  destruct (Z.ltb_spec (z `mod` 2 ^ 64) (2 ^ 63)); lia.
Qed.

Lemma u64_idem z : u64 (u64 z) = u64 z.
Proof. apply u64_small, u64_range. Qed.

Lemma i64_u64 z : in_i64 z → i64 (u64 z) = z.
Proof.
  unfold i64. rewrite u64_idem. cbv zeta. unfold_words. intros Hz.
  destruct (decide (0 ≤ z)).
  - rewrite Z.mod_small by lia. destruct (Z.ltb_spec z (2 ^ 63)); lia.
  - replace (z `mod` 2 ^ 64) with (z + 2 ^ 64).
    + destruct (Z.ltb_spec (z + 2 ^ 64) (2 ^ 63)); lia.
    + apply (Z.mod_unique_pos _ _ (-1)); lia.
Qed.

Lemma u64_i64 z : u64 (i64 z) = u64 z.
Proof.
  unfold i64. cbv zeta. destruct (u64 z <? 2 ^ 63); [apply u64_idem|].
  unfold u64. rewrite Zminus_mod, Z.mod_same, Z.sub_0_r, !Z.mod_mod; lia.
Qed.

(** ** Bytes and little-endian encodings

    Files, sockets and column buffers hold lists of bytes.  The program copies
    integers to and from them with [memcpy], [fread] and [fwrite]; both of its
    targets are little-endian machines. *)

#[export] Instance byte_eq_dec : EqDecision Init.Byte.byte := Byte.byte_eq_dec.

Definition le_u32 (z : Z) : list byte := le_split 4 z.
Definition le_u64 (z : Z) : list byte := le_split 8 z.
#[global] Arguments le_u32 _ : simpl never.
#[global] Arguments le_u64 _ : simpl never.

Lemma length_le_u32 z : length (le_u32 z) = 4%nat.
Proof. apply length_le_split. Qed.

Lemma length_le_u64 z : length (le_u64 z) = 8%nat.
Proof. apply length_le_split. Qed.

Lemma le_combine_u32 z : le_combine (le_u32 z) = u32 z.
Proof. unfold le_u32. by rewrite le_combine_split. Qed.

Lemma le_combine_u64 z : le_combine (le_u64 z) = u64 z.
Proof. unfold le_u64. by rewrite le_combine_split. Qed.

(** ** Outcomes

    A C++ function either returns, or the process stops.  [Crash] records why:
    a call to [std::abort], a failed [assert], an exception that nothing
    catches, or behaviour the language leaves undefined (an out-of-bounds
    read, a signed overflow). *)

Inductive fault : Type :=
  | Aborted
  | AssertFailed
  | Uncaught
  | Undefined.

#[export] Instance fault_eq_dec : EqDecision fault.
Proof. solve_decision. Defined.

Inductive outcome (A : Type) : Type :=
  | Ret (a : A)
  | Crash (f : fault).
Arguments Ret {A} _.
Arguments Crash {A} _.

#[export] Instance outcome_eq_dec {A} `{EqDecision A} : EqDecision (outcome A).
Proof. solve_decision. Defined.

#[export] Instance outcome_ret : MRet outcome := λ A a, Ret a.
#[export] Instance outcome_bind : MBind outcome := λ A B k m,
  match m with Ret a => k a | Crash f => Crash f end.

Definition assert_ (b : bool) : outcome unit :=
  if b then Ret tt else Crash AssertFailed.

Definition of_option {A} (f : fault) (o : option A) : outcome A :=
  match o with Some a => Ret a | None => Crash f end.

(** [a[i]]: reading outside the array is undefined. *)
Definition rd {T} (a : list T) (i : nat) : outcome T := of_option Undefined (a !! i).

Lemma rd_lookup {T} (a : list T) i x : a !! i = Some x → rd a i = Ret x.
Proof. unfold rd. by intros ->. Qed.

Lemma rd_Ret {T} (a : list T) i x : rd a i = Ret x → a !! i = Some x.
Proof. unfold rd. destruct (a !! i); [by intros [= ->]|done]. Qed.

Lemma rd_total {T} (d : T) (a : list T) i :
  (i < length a)%nat → rd a i = Ret (nth i a d).
Proof.
  intros H. apply rd_lookup. destruct (lookup_lt_is_Some_2 a i H) as [x Hx].
  rewrite Hx. f_equal. symmetry. by apply nth_lookup_Some.
Qed.

Lemma rd_oob {T} (a : list T) i : (length a ≤ i)%nat → rd a i = Crash Undefined.
Proof. intros H. unfold rd. by rewrite lookup_ge_None_2. Qed.

Lemma bind_Ret {A B} (m : outcome A) (k : A → outcome B) b :
  (m ≫= k) = Ret b → ∃ a, m = Ret a ∧ k a = Ret b.
Proof. destruct m; cbn; [eauto | done]. Qed.

Lemma Ret_inj {A} (a b : A) : Ret a = Ret b → a = b.
Proof. by injection 1. Qed.

Lemma Some_pair_inj {A B} (a c : A) (b d : B) : Some (a, b) = Some (c, d) → a = c ∧ b = d.
Proof. by injection 1. Qed.

(** [inv_bind] takes apart a computation known to have returned. *)
Ltac inv_bind :=
  repeat match goal with
  | H : (_ ≫= _) = Ret _ |- _ =>
      let x := fresh "x" in let H1 := fresh "Hx" in let H2 := fresh "Hk" in
      apply bind_Ret in H as (x & H1 & H2); cbn in H2
  | H : Ret _ = Ret _ |- _ => apply Ret_inj in H; subst
  | H : mret _ = Ret _ |- _ => apply Ret_inj in H; subst
  | H : Crash _ = Ret _ |- _ => discriminate H
  | H : assert_ ?b = Ret _ |- _ =>
      let E := fresh "Eassert" in destruct b eqn:E; [clear H | discriminate H]
  end.

(** ** Stateful computations

    An operation of an object with state [S]: it returns a value and the next
    state, or the process stops. *)

Definition stM (S A : Type) : Type := S → outcome (A * S).

#[export] Instance stM_ret S : MRet (stM S) := λ A a s, Ret (a, s).
#[export] Instance stM_bind S : MBind (stM S) := λ A B k m s,
  match m s with Ret (a, s') => k a s' | Crash f => Crash f end.

Definition lift {S A} (m : outcome A) : stM S A := λ s, a ← m; Ret (a, s).
Definition gets {S A} (f : S → A) : stM S A := λ s, Ret (f s, s).
Definition modify {S} (f : S → S) : stM S unit := λ s, Ret (tt, f s).

Lemma stM_bind_run {S A B} (m : stM S A) (k : A → stM S B) s a s1 :
  m s = Ret (a, s1) → (m ≫= k) s = k a s1.
Proof. unfold mbind, stM_bind. by intros ->. Qed.

(** Replace the local definitions a constructor's [let]s leave in the context. *)
Ltac clear_lets := repeat match goal with x := _ |- _ => subst x end.

(** ** Counted loops

    [for_loop i n body a] is [for (k = i; k < i + n; ++k) a = body(k, a)]. *)

Fixpoint for_loop {A} (i n : nat) (body : nat → A → outcome A) (a : A) : outcome A :=
  match n with
  | O => Ret a
  | S n' => a' ← body i a; for_loop (S i) n' body a'
  end.

Lemma for_loop_fold {A} (f : A → nat → A) (body : nat → A → outcome A) n : ∀ i a,
  (∀ k a, (i ≤ k < i + n)%nat → body k a = Ret (f a k)) →
  for_loop i n body a = Ret (fold_left f (seq i n) a).
Proof.
  induction n as [|n IH]; intros i a H; [done|].
  cbn. rewrite H by lia. cbn. apply IH. intros k a' Hk. apply H. lia.
Qed.

Lemma for_loop_S_r {A} (body : nat → A → outcome A) n : ∀ i a,
  for_loop i (S n) body a = (a' ← for_loop i n body a; body (i + n)%nat a').
Proof.
  induction n as [|n IH]; intros i a; cbn; [rewrite Nat.add_0_r; by destruct (body i a)|].
  cbn in IH. destruct (body i a); cbn; [|done]. rewrite IH. by rewrite Nat.add_succ_r.
Qed.

(** The same for a body that may crash: the loop is the monadic fold. *)
Fixpoint fold_outcome {A B} (f : A → B → outcome A) (l : list B) (a : A) : outcome A :=
  match l with
  | [] => Ret a
  | x :: l' => a' ← f a x; fold_outcome f l' a'
  end.

Lemma for_loop_fold_outcome {A B} (row : nat → B) (f : A → B → outcome A)
    (body : nat → A → outcome A) n : ∀ i a,
  (∀ k a, (i ≤ k < i + n)%nat → body k a = f a (row k)) →
  for_loop i n body a = fold_outcome f (map row (seq i n)) a.
Proof.
  induction n as [|n IH]; intros i a H; [done|].
  cbn. rewrite H by lia. destruct (f a (row i)); cbn; [|done].
  apply IH. intros k a' Hk. apply H. lia.
Qed.

Lemma fold_outcome_pure {A B} (g : A → B → A) (f : A → B → outcome A) l : ∀ a,
  (∀ a x, x ∈ l → f a x = Ret (g a x)) →
  fold_outcome f l a = Ret (fold_left g l a).
Proof.
  induction l as [|x l IH]; intros a H; [done|].
  cbn. rewrite H by set_solver. cbn. apply IH. set_solver.
Qed.

Lemma fold_outcome_app {A B} (f : A → B → outcome A) l1 l2 a :
  fold_outcome f (l1 ++ l2) a = (fold_outcome f l1 a ≫= fold_outcome f l2).
Proof.
  revert a. induction l1 as [|x l1 IH]; intros a; [done|].
  cbn. destruct (f a x); cbn; [apply IH | done].
Qed.

(** Folding a conditional step is folding the step over the kept rows. *)
Lemma fold_outcome_filter {A B} (keep : B → bool) (f : A → B → outcome A) l : ∀ a,
  fold_outcome (λ a x, if keep x then f a x else Ret a) l a
  = fold_outcome f (List.filter keep l) a.
Proof.
  induction l as [|x l IH]; intros a; [done|].
  cbn. destruct (keep x); cbn; [destruct (f a x); cbn; auto | apply IH].
Qed.

Lemma fold_outcome_map {A B C} (g : B → C) (f : A → C → outcome A) l : ∀ a,
  fold_outcome f (map g l) a = fold_outcome (λ a x, f a (g x)) l a.
Proof.
  induction l as [|x l IH]; intros a; [done|].
  cbn. destruct (f a (g x)); cbn; auto.
Qed.

Lemma fold_outcome_ext {A B} (f g : A → B → outcome A) l : ∀ a,
  (∀ a x, x ∈ l → f a x = g a x) → fold_outcome f l a = fold_outcome g l a.
Proof.
  induction l as [|x l IH]; intros a H; [done|].
  cbn. rewrite H by set_solver. destruct (g a x); cbn; [|done].
  apply IH. set_solver.
Qed.

Lemma map_nth_seq {T} (d : T) (l : list T) :
  map (λ i, nth i l d) (seq 0 (length l)) = l.
Proof.
  induction l as [|x l IH]; [done|]. cbn. f_equal.
  rewrite <- seq_shift, map_map. apply IH.
Qed.

(** ** Hash containers

    [std::unordered_map] leaves its iteration order unspecified.  [HashOrder]
    is that order, as a function of the keys present; everything proved holds
    for every instance. *)

Class HashOrder (K : Type) `{Countable K} := {
  hash_order : gset K → list K;
  hash_order_perm X : hash_order X ≡ₚ elements X
}.

(** [for (auto& kv : m)] *)
Definition hash_iter {K A} `{HashOrder K} (m : gmap K A) : list (K * A) :=
  omap (λ k, pair k <$> m !! k) (hash_order (dom m)).

Lemma omap_lookup_map_to_list {K A} `{Countable K} (m : gmap K A) l :
  (∀ k x, (k, x) ∈ l → m !! k = Some x) →
  omap (λ k, pair k <$> m !! k) (l.*1) = l.
Proof.
  induction l as [|[k x] l IH]; intros Hl; [done|]. cbn.
  rewrite (Hl k x) by set_solver. cbn. f_equal. apply IH. set_solver.
Qed.

Lemma hash_iter_perm {K A} `{HashOrder K} (m : gmap K A) : hash_iter m ≡ₚ map_to_list m.
Proof.
  unfold hash_iter. rewrite hash_order_perm.
  replace (dom m) with (list_to_set (C:=gset K) (map_to_list m).*1)
    by (rewrite <- (dom_list_to_map_L (M:=gmap K)); by rewrite list_to_map_to_list).
  rewrite elements_list_to_set by apply NoDup_fst_map_to_list.
  rewrite omap_lookup_map_to_list; [done|]. intros k x. by rewrite elem_of_map_to_list.
Qed.

Lemma elem_of_hash_iter {K A} `{HashOrder K} (m : gmap K A) k x :
  (k, x) ∈ hash_iter m ↔ m !! k = Some x.
Proof. by rewrite hash_iter_perm, elem_of_map_to_list. Qed.

(** Inserting every entry of a map, in iteration order. *)
Lemma foldl_hash_iter {K A B} `{HashOrder K} (f : A → B) (m : gmap K A) :
  foldl (λ acc kv, <[kv.1 := f kv.2]> acc) ∅ (hash_iter m) = f <$> m.
Proof.
  assert (∀ (l : list (K * A)) (acc : gmap K B),
    NoDup l.*1 → foldl (λ acc kv, <[kv.1 := f kv.2]> acc) acc l = (f <$> list_to_map l) ∪ acc) as Hl.
  { induction l as [|[k x] l IH]; intros acc Hnd; cbn; [by rewrite fmap_empty, (left_id_L ∅ (∪))|].
    apply NoDup_cons in Hnd as [Hk Hnd]. rewrite IH by done. rewrite fmap_insert.
    rewrite <- insert_union_r, insert_union_l; [done|]. rewrite lookup_fmap. by rewrite not_elem_of_list_to_map_1. }
  assert (NoDup (hash_iter m).*1) as Hnd by (rewrite hash_iter_perm; apply NoDup_fst_map_to_list).
  rewrite Hl by done. rewrite (right_id_L ∅ (∪)). f_equal.
  rewrite (list_to_map_proper _ (map_to_list m) Hnd (hash_iter_perm m)). apply list_to_map_to_list.
Qed.

Lemma length_hash_iter {K A} `{HashOrder K} (m : gmap K A) : length (hash_iter m) = size m.
Proof. by rewrite hash_iter_perm, length_map_to_list. Qed.

(** An order for the witnesses. *)
Definition elements_order {K} `{Countable K} : HashOrder K :=
  {| hash_order := elements; hash_order_perm := λ X, reflexivity _ |}.

(** ** Sums over maps *)

Definition map_sum {K A} `{Countable K} (w : A → Z) (m : gmap K A) : Z :=
  foldr (λ kv sum, w kv.2 + sum) 0 (map_to_list m).

#[export] Instance foldr_sum_proper {A} (w : A → Z) :
  Proper ((≡ₚ) ==> (=)) (foldr (λ x sum, w x + sum) 0).
Proof. intros l1 l2 Hl. apply (foldr_permutation (=)); [apply _|intros; lia|done]. Qed.

Lemma map_sum_insert {K A} `{Countable K} (w : A → Z) (m : gmap K A) k x :
  m !! k = None → map_sum w (<[k := x]> m) = w x + map_sum w m.
Proof.
  intros Hk. unfold map_sum.
  by rewrite (foldr_sum_proper (λ kv, w kv.2) _ _ (map_to_list_insert m k x Hk)).
Qed.

Lemma map_sum_update {K A} `{Countable K} (w : A → Z) (m : gmap K A) k x x' :
  m !! k = Some x → map_sum w (<[k := x']> m) = map_sum w m - w x + w x'.
Proof.
  intros Hk. rewrite <- insert_delete_eq, map_sum_insert by apply lookup_delete_eq.
  rewrite <- (insert_delete_id m k x Hk) at 2. rewrite map_sum_insert by apply lookup_delete_eq. lia.
Qed.

Lemma map_sum_nonneg {K A} `{Countable K} (w : A → Z) (m : gmap K A) :
  (∀ k x, m !! k = Some x → 0 ≤ w x) → 0 ≤ map_sum w m.
Proof.
  intros Hw. unfold map_sum.
  assert (∀ kv, kv ∈ map_to_list m → 0 ≤ w kv.2) as Hl.
  { intros [k x] Hkv%elem_of_map_to_list. eauto. }
  induction (map_to_list m) as [|kv l IH]; cbn; [lia|].
  pose proof (Hl kv ltac:(set_solver)). specialize (IH ltac:(set_solver)). lia.
Qed.

Lemma map_sum_le {K A} `{Countable K} (w w' : A → Z) (m : gmap K A) :
  (∀ k x, m !! k = Some x → w x ≤ w' x) → map_sum w m ≤ map_sum w' m.
Proof.
  intros Hw. unfold map_sum.
  assert (∀ kv, kv ∈ map_to_list m → w kv.2 ≤ w' kv.2) as Hl.
  { intros [k x] Hkv%elem_of_map_to_list. eauto. }
  induction (map_to_list m) as [|kv l IH]; cbn; [lia|].
  pose proof (Hl kv ltac:(set_solver)). specialize (IH ltac:(set_solver)). lia.
Qed.

Lemma map_sum_lookup_le {K A} `{Countable K} (w : A → Z) (m : gmap K A) k x :
  (∀ k x, m !! k = Some x → 0 ≤ w x) → m !! k = Some x → w x ≤ map_sum w m.
Proof.
  intros Hw Hk. rewrite <- (insert_delete_id m k x Hk), map_sum_insert by apply lookup_delete_eq.
  assert (0 ≤ map_sum w (delete k m)) by (apply map_sum_nonneg; intros k' y [_ ?]%lookup_delete_Some; eauto).
  lia.
Qed.

(** ** Strings *)

Lemma string_length_app x y : String.length (x +:+ y) = (String.length x + String.length y)%nat.
Proof. induction x as [|c x IH]; [done|]. exact (f_equal S IH). Qed.

Lemma string_app_nil_r x : x +:+ EmptyString = x.
Proof. induction x as [|c x IH]; [done|]. exact (f_equal (String c) IH). Qed.

Lemma string_app_assoc x y z : (x +:+ y) +:+ z = x +:+ (y +:+ z).
Proof. induction x as [|c x IH]; [done|]. exact (f_equal (String c) IH). Qed.

Lemma string_app_inj_r s x y : x +:+ s = y +:+ s → x = y.
Proof.
  revert y. induction x as [|c x IH]; intros [|d y] H; [done|..].
  - apply (f_equal String.length) in H. rewrite !string_length_app in H. cbn in H. lia.
  - apply (f_equal String.length) in H. rewrite !string_length_app in H. cbn in H. lia.
  - injection H as -> H. f_equal. by apply IH.
Qed.

(** The bytes of a string, and back. *)
Definition bytes_of_text (s : string) : list byte := String.list_byte_of_string s.
Definition text_of (bs : list byte) : string := String.string_of_list_byte bs.

Lemma text_of_bytes s : text_of (bytes_of_text s) = s.
Proof. apply String.string_of_list_byte_of_string. Qed.

Lemma length_bytes_of_text s : length (bytes_of_text s) = String.length s.
Proof.
  unfold bytes_of_text, String.list_byte_of_string. rewrite List.length_map.
  induction s as [|c s IH]; [done|]. cbn. by rewrite IH.
Qed.

Create HintDb matrix.
Create Rewrite HintDb matrix.
#[export] Hint Resolve u64_range u32_range i64_range : matrix.
#[export] Hint Rewrite length_le_u32 length_le_u64 le_combine_u32 le_combine_u64 : matrix.

(** ** Counting over the threads of a machine

    [total f ts] sums a count over a list; replacing one element changes the
    sum by the difference. *)

Definition total {A} (f : A → nat) (ts : list A) : nat := sum_list_with f ts.

Lemma total_cons {A} (f : A → nat) x ts : total f (x :: ts) = (f x + total f ts)%nat.
Proof. done. Qed.

Lemma total_update {A} (f : A → nat) ts t' : ∀ i t,
  ts !! i = Some t → (total f (<[i := t']> ts) + f t = total f ts + f t')%nat.
Proof.
  induction ts as [|x ts IH]; intros [|i] t H; [done|done| |].
  - injection H as ->. cbn [insert list_insert]. rewrite !total_cons. lia.
  - specialize (IH i t H).
    change (<[Datatypes.S i := t']> (x :: ts)) with (x :: <[i := t']> ts). rewrite !total_cons. lia.
Qed.

Lemma total_pos {A} (f : A → nat) ts : ∀ i t, ts !! i = Some t → (f t ≤ total f ts)%nat.
Proof.
  induction ts as [|x ts IH]; intros [|i] t H; [done|done| |]; rewrite total_cons.
  - injection H as ->. lia.
  - specialize (IH i t H). lia.
Qed.

Lemma total_zero {A} (f : A → nat) ts i t : total f ts = 0%nat → ts !! i = Some t → f t = 0%nat.
Proof. intros H Hi. pose proof (total_pos f ts i t Hi). lia. Qed.

Lemma total_exists {A} (f : A → nat) ts : (0 < total f ts)%nat → ∃ i t, ts !! i = Some t ∧ (0 < f t)%nat.
Proof.
  induction ts as [|x ts IH]; [cbn; lia|]. rewrite total_cons. intros H. destruct (decide (0 < f x)%nat).
  - exists 0%nat, x. done.
  - destruct IH as (i & t & ? & ?); [lia|]. by exists (Datatypes.S i), t.
Qed.

(** ** Buckets *)

(** Sorting items into the buckets of a key that only takes the listed values. *)
Lemma buckets_perm {A} (cls : A → nat) ks l :
  NoDup ks → (∀ j, j ∈ l → cls j ∈ ks) →
  concat (map (λ s, List.filter (λ j, (cls j =? s)%nat) l) ks) ≡ₚ l.
Proof.
  intros Hks. induction l as [|j l IH]; intros Hl.
  { clear. by induction ks. }
  specialize (IH (λ i Hi, Hl i (list_elem_of_further _ _ _ Hi))).
  destruct (list_elem_of_split ks (cls j)) as (k1 & k2 & ->); [apply Hl; by left|].
  assert ((cls j ∉ k1) ∧ (cls j ∉ k2)) as [H1 H2].
  { apply NoDup_app in Hks as (_ & Hd & Hk2). apply NoDup_cons in Hk2 as [Hk2 _]. split; [|done].
    intros Hk1. apply (Hd _ Hk1). by left. }
  assert (∀ ks', cls j ∉ ks' →
    map (λ s, List.filter (λ i, (cls i =? s)%nat) (j :: l)) ks'
    = map (λ s, List.filter (λ i, (cls i =? s)%nat) l) ks') as Hsame.
  { intros ks' Hn. apply map_ext_in. intros s Hs. cbn.
    destruct (Nat.eqb_spec (cls j) s) as [E|]; [|done]. destruct Hn. rewrite E. by apply list_elem_of_In. }
  rewrite map_app, concat_app in IH |- *. cbn [map concat] in IH |- *.
  rewrite !Hsame by done. cbn [List.filter]. rewrite Nat.eqb_refl. cbn [app].
  rewrite <- Permutation_middle. by apply Permutation_skip.
Qed.

Lemma length_filter_perm {A} (f : A → bool) l1 l2 : l1 ≡ₚ l2 → length (List.filter f l1) = length (List.filter f l2).
Proof.
  induction 1 as [|x ?? _ IH|x y l|??? _ IH1 _ IH2]; cbn; [done| | |congruence].
  - destruct (f x); cbn; by rewrite IH.
  - by destruct (f x), (f y).
Qed.

Lemma length_filter_map {A B} (f : B → bool) (g : A → B) l :
  length (List.filter f (map g l)) = length (List.filter (λ x, f (g x)) l).
Proof. induction l as [|x l IH]; [done|]. cbn. destruct (f (g x)); cbn; by rewrite IH. Qed.
