(* ===== verification/Float64.v ===== *)
(** * Float64: C++ [double] as its 64-bit pattern

    A [double] is modelled by the [Z] in [[0, 2^64)] that [matrix_bit_cast]
    makes of it, so a column, a wire field and a result slot hold the same
    value and bit casts are the identity.  Arithmetic and comparison decode
    the pattern into the standard library's specification of IEEE 754
    ([SpecFloat], precision 53, exponent bound 1024, round to nearest even) and
    encode the result.  The payload of a NaN result, which the standard leaves
    to the machine, is always the default quiet NaN here. *)

From Stdlib Require Export SpecFloat.
From S2P Require Export Prelude.

Definition f64_decode (b : Z) : spec_float :=
  let s := 2 ^ 63 <=? b in
  let e := (b / 2 ^ 52) `mod` 2 ^ 11 in
  let m := b `mod` 2 ^ 52 in
  if e =? 0 then
    match m with Z.pos p => S754_finite s p (-1074) | _ => S754_zero s end
  else if e =? 2047 then
    match m with Z.pos _ => S754_nan | _ => S754_infinity s end
  else
    match m + 2 ^ 52 with
    | Z.pos p => S754_finite s p (e - 1075)
    | _ => S754_nan
    end.

Definition sign_bit (s : bool) : Z := if s then 2 ^ 63 else 0.

Definition F64_QNAN : Z := 2047 * 2 ^ 52 + 2 ^ 51.

Definition f64_encode (x : spec_float) : Z :=
  match x with
  | S754_zero s => sign_bit s
  | S754_infinity s => sign_bit s + 2047 * 2 ^ 52
  | S754_nan => F64_QNAN
  | S754_finite s m e =>
      if Z.pos m <? 2 ^ 52 then sign_bit s + Z.pos m
      else sign_bit s + (e + 1075) * 2 ^ 52 + (Z.pos m - 2 ^ 52)
  end.

Definition f64_is_nan (b : Z) : bool :=
  match f64_decode b with S754_nan => true | _ => false end.

Definition lift2 (op : Z → Z → spec_float → spec_float → spec_float) (a b : Z) : Z :=
  f64_encode (op 53 1024 (f64_decode a) (f64_decode b)).

Definition f64_add : Z → Z → Z := lift2 SFadd.
Definition f64_sub : Z → Z → Z := lift2 SFsub.
Definition f64_mul : Z → Z → Z := lift2 SFmul.
Definition f64_div : Z → Z → Z := lift2 SFdiv.

Definition f64_ltb (a b : Z) : bool := SFltb (f64_decode a) (f64_decode b).
Definition f64_leb (a b : Z) : bool := SFleb (f64_decode a) (f64_decode b).
Definition f64_eqb (a b : Z) : bool := SFeqb (f64_decode a) (f64_decode b).

(** [static_cast<double>(n)] for an integer [n]. *)
Definition f64_of_Z (n : Z) : Z := f64_encode (binary_normalize 53 1024 n 0 false).

(** The integer a finite [double] truncates to; [None] for NaN and infinities. *)
Definition f64_trunc (b : Z) : option Z :=
  match f64_decode b with
  | S754_zero _ => Some 0
  | S754_finite s m e =>
      let q := if 0 <=? e then Z.pos m * 2 ^ e else Z.pos m / 2 ^ (- e) in
      Some (if s then - q else q)
  | _ => None
  end.

Definition F64_ZERO : Z := 0.
Definition F64_ONE : Z := 0x3FF0000000000000.
Definition F64_INF : Z := 0x7FF0000000000000.
Definition F64_NEG_INF : Z := 0xFFF0000000000000.

(** Every pattern that is not a NaN survives decoding and encoding. *)
Lemma f64_encode_decode b :
  in_u64 b → f64_is_nan b = false → f64_encode (f64_decode b) = b.
Proof.
  unfold f64_is_nan, f64_decode, in_u64. intros Hb.
  set (e := (b / 2 ^ 52) `mod` 2 ^ 11). set (m := b `mod` 2 ^ 52).
  assert (b = sign_bit (2 ^ 63 <=? b) + e * 2 ^ 52 + m) as Hsplit.
  { pose proof (Z.div_mod b (2 ^ 52) ltac:(lia)) as Hq.
    unfold e, m, sign_bit. destruct (Z.leb_spec (2 ^ 63) b) as [Hs|Hs].
    - replace ((b / 2 ^ 52) `mod` 2 ^ 11) with (b / 2 ^ 52 - 2 ^ 11); [lia|].
      apply (Z.mod_unique_pos _ _ 1); [|lia].
      assert (2 ^ 11 ≤ b / 2 ^ 52 < 2 ^ 12) as ?; [|lia]. split.
      + apply Z.div_le_lower_bound; lia.
      + apply Z.div_lt_upper_bound; lia.
    - rewrite Z.mod_small; [lia|]. split; [apply Z.div_pos; lia|].
      apply Z.div_lt_upper_bound; lia. }
  assert (0 ≤ m < 2 ^ 52) as Hm by (apply Z.mod_pos_bound; lia). clearbody e m.
  destruct (Z.eqb_spec e 0) as [->|He0].
  { destruct m as [|p|p]; cbn [f64_encode]; [lia| |lia].
    destruct (Z.ltb_spec (Z.pos p) (2 ^ 52)); lia. }
  destruct (Z.eqb_spec e 2047) as [->|He1].
  { destruct m as [|p|p]; cbn [f64_encode]; [lia|done|lia]. }
  intros _. destruct (m + 2 ^ 52) as [|p|p] eqn:Hp; cbn [f64_encode]; [lia| |lia].
  destruct (Z.ltb_spec (Z.pos p) (2 ^ 52)); lia.
Qed.

Lemma f64_encode_range x :
  valid_binary 53 1024 x = true → in_u64 (f64_encode x).
Proof.
  destruct x as [s|s| |s m e]; cbn; unfold F64_QNAN, sign_bit;
    try (destruct s; unfold in_u64; lia).
  { unfold in_u64; lia. }
  unfold bounded, canonical_mantissa, fexp, emin.
  intros [Hc He]%andb_true_iff. apply Z.eqb_eq in Hc. apply Z.leb_le in He.
  assert (2 ^ (Z.pos (digits2_pos m) - 1) ≤ Z.pos m < 2 ^ Z.pos (digits2_pos m)) as Hd.
  { clear. induction m as [m IH|m IH|]; cbn [digits2_pos]; [| |cbn; lia];
      rewrite Pos2Z.inj_succ;
      replace (Z.succ (Z.pos (digits2_pos m)) - 1)
        with (Z.succ (Z.pos (digits2_pos m) - 1)) by lia;
      rewrite !Z.pow_succ_r by lia; lia. }
  assert (Z.pos m < 2 ^ 53).
  { eapply Z.lt_le_trans; [apply Hd|]. apply Z.pow_le_mono_r; lia. }
  destruct (Z.ltb_spec (Z.pos m) (2 ^ 52)); destruct s; unfold in_u64; lia.
Qed.

Example f64_one_plus_half :
  f64_add F64_ONE 0x3FE0000000000000 = 0x3FF8000000000000.
Proof. vm_compute. reflexivity. Qed.

Example f64_of_Z_7 : f64_trunc (f64_of_Z 7) = Some 7.
Proof. vm_compute. reflexivity. Qed.

(** ** The order of the patterns

    Numbers compare as the patterns do once negative ones are reflected; the
    two zeroes get the same rank. *)

Definition f64_rank (b : Z) : Z := if 2 ^ 63 <=? b then 2 ^ 63 - b else b.

Definition f64_number (b : Z) : Prop := in_u64 b ∧ f64_is_nan b = false.

(** A sign and a magnitude [g], which is the pattern without its sign bit. *)
Inductive decoded (s : bool) (g : Z) : spec_float → Prop :=
  | decoded_zero : g = 0 → decoded s g (S754_zero s)
  | decoded_infinity : g = 2047 * 2 ^ 52 → decoded s g (S754_infinity s)
  | decoded_finite m e :
      g = (e + 1074) * 2 ^ 52 + Z.pos m → Z.pos m < 2 ^ 53 → -1074 ≤ e ≤ 971 →
      (e = -1074 ∨ 2 ^ 52 ≤ Z.pos m) → decoded s g (S754_finite s m e).

Lemma decode_spec b : f64_number b →
  decoded (2 ^ 63 <=? b) (b - sign_bit (2 ^ 63 <=? b)) (f64_decode b).
Proof.
  intros [Hb Hn]. unfold f64_is_nan, f64_decode, in_u64 in *.
  set (e := (b / 2 ^ 52) `mod` 2 ^ 11) in *. set (m := b `mod` 2 ^ 52) in *. set (s := 2 ^ 63 <=? b) in *.
  assert (b - sign_bit s = e * 2 ^ 52 + m) as ->.
  { unfold sign_bit, s, e, m. pose proof (Z.div_mod b (2 ^ 52) ltac:(lia)).
    pose proof (Z.mod_pos_bound b (2 ^ 52)). destruct (Z.leb_spec (2 ^ 63) b).
    - replace ((b / 2 ^ 52) `mod` 2 ^ 11) with (b / 2 ^ 52 - 2 ^ 11); [lia|].
      apply (Z.mod_unique_pos _ _ 1); lia.
    - rewrite (Z.mod_small (b / 2 ^ 52)); lia. }
  assert (0 ≤ m < 2 ^ 52) as Hm by (apply Z.mod_pos_bound; lia).
  assert (0 ≤ e < 2048) as He by (apply Z.mod_pos_bound; lia). clearbody s e m.
  destruct (Z.eqb_spec e 0) as [->|He0].
  { destruct m as [|p|p]; [by constructor|constructor; lia|lia]. }
  destruct (Z.eqb_spec e 2047) as [->|He1].
  { destruct m as [|p|p]; [constructor; lia|done|lia]. }
  destruct (m + 2 ^ 52) as [|p|p] eqn:Hp; [lia|constructor; lia|lia].
Qed.

Lemma decoded_compare s1 g1 x1 s2 g2 x2 : decoded s1 g1 x1 → decoded s2 g2 x2 →
  SFcompare x1 x2 = Some (Z.compare (if s1 then - g1 else g1) (if s2 then - g2 else g2)).
Proof.
  intros H1 H2. symmetry.
  assert (∀ m1 e1 m2 e2, Z.pos m1 < 2 ^ 53 → Z.pos m2 < 2 ^ 53 →
    (-1074 ≤ e1) → (-1074 ≤ e2) → (e1 = -1074 ∨ 2 ^ 52 ≤ Z.pos m1) → (e2 = -1074 ∨ 2 ^ 52 ≤ Z.pos m2) →
    ((e1 + 1074) * 2 ^ 52 + Z.pos m1 ?= (e2 + 1074) * 2 ^ 52 + Z.pos m2)
    = match e1 ?= e2 with Eq => Pos.compare_cont Eq m1 m2 | c => c end) as Hfin.
  { intros m1 e1 m2 e2 ??????. change (Pos.compare_cont Eq m1 m2) with (Z.pos m1 ?= Z.pos m2).
    destruct (Z.compare_spec e1 e2) as [<-|?|?].
    - apply Zcompare_plus_compat.
    - apply Z.compare_lt_iff. lia.
    - apply Z.compare_gt_iff. lia. }
  destruct H1 as [-> | -> | m1 e1 -> Hm1 He1 Hn1], H2 as [-> | -> | m2 e2 -> Hm2 He2 Hn2], s1, s2; cbn [SFcompare]; f_equal;
    try reflexivity; try (apply Z.compare_lt_iff; lia); try (apply Z.compare_gt_iff; lia);
    try (apply Z.compare_eq_iff; lia).
  - rewrite Z.compare_opp, Z.compare_antisym, Hfin by tauto || lia.
    destruct (e1 ?= e2); [done|done|done].
  - rewrite Hfin by tauto || lia. by destruct (e1 ?= e2).
Qed.

Lemma f64_compare_rank a b : f64_number a → f64_number b →
  SFcompare (f64_decode a) (f64_decode b) = Some (f64_rank a ?= f64_rank b).
Proof.
  intros Ha Hb. rewrite (decoded_compare _ _ _ _ _ _ (decode_spec a Ha) (decode_spec b Hb)).
  unfold f64_rank, sign_bit. do 2 f_equal; destruct (Z.leb_spec (2 ^ 63) a), (Z.leb_spec (2 ^ 63) b); lia.
Qed.

Lemma f64_leb_rank a b : f64_number a → f64_number b → f64_leb a b = (f64_rank a <=? f64_rank b).
Proof. intros. unfold f64_leb, SFleb. rewrite f64_compare_rank by done. unfold Z.leb. by destruct (_ ?= _). Qed.

Lemma f64_ltb_rank a b : f64_number a → f64_number b → f64_ltb a b = (f64_rank a <? f64_rank b).
Proof. intros. unfold f64_ltb, SFltb. rewrite f64_compare_rank by done. unfold Z.ltb. by destruct (_ ?= _). Qed.

Lemma f64_eqb_rank a b : f64_number a → f64_number b → f64_eqb a b = (f64_rank a =? f64_rank b).
Proof.
  intros. unfold f64_eqb, SFeqb. rewrite f64_compare_rank by done.
  destruct (Z.compare_spec (f64_rank a) (f64_rank b)), (Z.eqb_spec (f64_rank a) (f64_rank b)); done || lia.
Qed.

(** A NaN compares with nothing. *)
Lemma f64_nan_l a b : f64_is_nan a = true → f64_ltb a b = false ∧ f64_leb a b = false.
Proof. unfold f64_is_nan, f64_ltb, f64_leb, SFltb, SFleb. by destruct (f64_decode a). Qed.

Lemma f64_nan_r a b : f64_is_nan b = true → f64_ltb a b = false ∧ f64_leb a b = false.
Proof. unfold f64_is_nan, f64_ltb, f64_leb, SFltb, SFleb. by destruct (f64_decode a), (f64_decode b). Qed.

Lemma f64_inf_number : f64_number F64_INF ∧ f64_number F64_NEG_INF.
Proof. split; split; unfold in_u64, F64_INF, F64_NEG_INF; done || lia. Qed.

Lemma f64_rank_bounds b : f64_number b → f64_rank F64_NEG_INF ≤ f64_rank b ≤ f64_rank F64_INF.
Proof.
  intros Hb. pose proof (decode_spec b Hb) as Hd.
  change (f64_rank F64_INF) with (2047 * 2 ^ 52). change (f64_rank F64_NEG_INF) with (- (2047 * 2 ^ 52)).
  unfold f64_rank, sign_bit in *. destruct (Z.leb_spec (2 ^ 63) b); inversion Hd; lia.
Qed.
