(* ===== verification/Types.v ===== *)
(** * Types: the shared data of the engine

    The opcodes, aggregate and comparison codes, element types, predicates and
    query structures of [types.hpp] and [compute.hpp]. *)

From S2P Require Export Prelude Float64.

(** ** Constants of [types.hpp] *)

Definition MATRIX_STORE_SLOTS : Z := 65536.
Definition MATRIX_STORE_MASK : Z := MATRIX_STORE_SLOTS - 1.
Definition MATRIX_PAGE_COUNT : Z := 1024.
Definition MATRIX_PAGE_SIZE : Z := MATRIX_STORE_SLOTS / MATRIX_PAGE_COUNT.
Definition MATRIX_BATCH_MAX : Z := 65536.
Definition MATRIX_SCAN_COLUMN_SIZE : Z := Z.shiftl 1 24.

(** [MatrixOpcode]: an unscoped enumeration with a fixed 32-bit base. *)
Definition OP_READ : Z := 1.
Definition OP_WRITE : Z := 2.
Definition OP_SCAN : Z := 3.
Definition OP_TXN_WRITE : Z := 4.

(** [DatabaseQuery], without its cache-line padding. *)
Record DatabaseQuery := mkQuery {
  query_id : Z;
  timestamp_us : Z;
  transaction_id : Z;
  opcode : Z;
  payload_size : Z;
  payload : list byte
}.

(** ** [MatrixAggOp]

    The enumeration has a fixed 32-bit base and crosses the wire unchecked, so
    an unnamed value can reach the reducers, whose [default] label treats it
    as a count. *)
Inductive MatrixAggOp : Type :=
  | AGG_COUNT
  | AGG_SUM
  | AGG_MIN
  | AGG_MAX
  | AGG_UNNAMED (raw : Z).

Definition agg_to_u32 (op : MatrixAggOp) : Z :=
  match op with
  | AGG_COUNT => 0
  | AGG_SUM => 1
  | AGG_MIN => 2
  | AGG_MAX => 3
  | AGG_UNNAMED raw => raw
  end.

Definition agg_of_u32 (z : Z) : MatrixAggOp :=
  if z =? 0 then AGG_COUNT
  else if z =? 1 then AGG_SUM
  else if z =? 2 then AGG_MIN
  else if z =? 3 then AGG_MAX
  else AGG_UNNAMED z.

(** The representation is canonical when an unnamed code is none of the named ones. *)
Definition agg_wf (op : MatrixAggOp) : Prop :=
  match op with AGG_UNNAMED raw => in_u32 raw ∧ 3 < raw | _ => True end.

Lemma agg_of_to_u32 op : agg_wf op → agg_of_u32 (agg_to_u32 op) = op.
Proof.
  destruct op as [| | | |raw]; cbn; try done. intros [_ Hraw].
  unfold agg_of_u32.
  repeat match goal with |- context [?a =? ?b] => destruct (Z.eqb_spec a b); [lia|] end.
  done.
Qed.

Lemma agg_of_u32_wf z : in_u32 z → agg_wf (agg_of_u32 z).
Proof.
  intros Hz. unfold agg_of_u32.
  repeat case_match; cbn; try done. split; [done|].
  rewrite !Z.eqb_neq in *. unfold in_u32 in Hz. lia.
Qed.

Lemma agg_to_of_u32 z : agg_to_u32 (agg_of_u32 z) = z.
Proof.
  unfold agg_of_u32.
  repeat (case_match; rewrite ?Z.eqb_eq in *; cbn; [done|]). done.
Qed.

Lemma agg_to_u32_range op : agg_wf op → in_u32 (agg_to_u32 op).
Proof. destruct op; cbn; unfold in_u32; [lia..|]. by intros [? _]. Qed.

(** ** [MatrixType] and [MatrixCmp] *)

Inductive MatrixType : Type := U32 | I64 | F64.

#[export] Instance MatrixType_eq_dec : EqDecision MatrixType.
Proof. solve_decision. Defined.

Definition type_to_u32 (t : MatrixType) : Z :=
  match t with U32 => 0 | I64 => 1 | F64 => 2 end.

(** The width in bytes of an element. *)
Definition type_width (t : MatrixType) : nat :=
  match t with U32 => 4 | I64 | F64 => 8 end%nat.

Inductive MatrixCmp : Type := GT | GE | LT | LE | EQ | NE | BETWEEN.

#[export] Instance MatrixCmp_eq_dec : EqDecision MatrixCmp.
Proof. solve_decision. Defined.

Definition cmp_to_u32 (c : MatrixCmp) : Z :=
  match c with GT => 0 | GE => 1 | LT => 2 | LE => 3 | EQ => 4 | NE => 5 | BETWEEN => 6 end.

(** [None] for a code above [BETWEEN]. *)
Definition cmp_of_u32 (z : Z) : option MatrixCmp :=
  if z =? 0 then Some GT else if z =? 1 then Some GE else if z =? 2 then Some LT
  else if z =? 3 then Some LE else if z =? 4 then Some EQ else if z =? 5 then Some NE
  else if z =? 6 then Some BETWEEN else None.

Lemma cmp_of_to_u32 c : cmp_of_u32 (cmp_to_u32 c) = Some c.
Proof. by destruct c. Qed.

Lemma cmp_to_u32_range c : in_u32 (cmp_to_u32 c).
Proof. destruct c; cbn; unfold in_u32; lia. Qed.

(** ** Predicates *)

Record MatrixPredicate := mkPred { p_cmp : MatrixCmp; p_a : Z; p_b : Z }.

(** The switch shared by the typed predicates: [ltb], [leb] and [eqb] are the
    element type's comparisons. *)
Definition cmp_match (ltb leb eqb : Z → Z → bool) (v : Z) (p : MatrixPredicate) : bool :=
  match p.(p_cmp) with
  | GE => leb p.(p_a) v
  | LT => ltb v p.(p_a)
  | LE => leb v p.(p_a)
  | EQ => eqb v p.(p_a)
  | NE => negb (eqb v p.(p_a))
  | BETWEEN => leb p.(p_a) v && leb v p.(p_b)
  | GT => ltb p.(p_a) v
  end.

Definition matrix_pred_match : Z → MatrixPredicate → bool := cmp_match Z.ltb Z.leb Z.eqb.
Definition matrix_pred_match_i64 : Z → MatrixPredicate → bool := cmp_match Z.ltb Z.leb Z.eqb.
Definition matrix_pred_match_f64 : Z → MatrixPredicate → bool :=
  cmp_match f64_ltb f64_leb f64_eqb.

(** ** [MatrixQuery] and its status *)

Record MatrixQuery := mkMQ {
  value_col : Z;
  agg : MatrixAggOp;
  has_filter : bool;
  threshold : Z;
  cmp : MatrixCmp;
  upper : Z;
  lo_i64 : Z;
  hi_i64 : Z;
  lo_f64 : Z;
  hi_f64 : Z;
  grouped : bool;
  key_col : Z;
  num_groups : Z;
  limit : Z;
  filter_col : Z
}.

(** The default member initialisers. *)
Definition default_query : MatrixQuery :=
  {| value_col := 0; agg := AGG_COUNT; has_filter := false; threshold := 0; cmp := GT;
     upper := 0; lo_i64 := 0; hi_i64 := 0; lo_f64 := F64_ZERO; hi_f64 := F64_ZERO;
     grouped := false; key_col := 0; num_groups := 0; limit := 0; filter_col := 0 |}.

Inductive MatrixQueryStatus : Type :=
  | OK
  | ERR_UNKNOWN_COLUMN
  | ERR_INVALID_GROUP
  | ERR_TOO_MANY_GROUPS
  | ERR_UNSUPPORTED_TYPE
  | ERR_PARSE.

#[export] Instance MatrixQueryStatus_eq_dec : EqDecision MatrixQueryStatus.
Proof. solve_decision. Defined.

Definition status_to_u32 (s : MatrixQueryStatus) : Z :=
  match s with
  | OK => 0
  | ERR_UNKNOWN_COLUMN => 1
  | ERR_INVALID_GROUP => 2
  | ERR_TOO_MANY_GROUPS => 3
  | ERR_UNSUPPORTED_TYPE => 4
  | ERR_PARSE => 5
  end.

(** The three predicates [execute_query] builds from a query's bounds. *)
Definition pred_u32_of (q : MatrixQuery) : MatrixPredicate := mkPred (cmp q) (threshold q) (upper q).
Definition pred_i64_of (q : MatrixQuery) : MatrixPredicate := mkPred (cmp q) (lo_i64 q) (hi_i64 q).
Definition pred_f64_of (q : MatrixQuery) : MatrixPredicate := mkPred (cmp q) (lo_f64 q) (hi_f64 q).
