(* ===== verification/Reducers.v ===== *)
(** * Reducers: the CPU reducers of [compute.hpp]

    The reducers are the semantics of record for every aggregate.  Each is a
    [switch] on the aggregate code with one loop per case; the loops differ
    only in the accumulator's arithmetic and in which rows they keep.  The
    model makes both explicit: an [accumulator] gives the arithmetic of
    [uint64_t], [int64_t] or [double], and a reducer passes the loop the test
    and the value of row [i] as reads of its arrays, so that an index past the
    end of a column or of a null mask is undefined behaviour. *)

From S2P Require Export Types.

(** ** Accumulators *)

Record accumulator := mkAcc {
  acc_zero : Z;
  acc_one : Z;
  acc_min_init : Z;                     (* the sentinel of an empty MIN *)
  acc_max_init : Z;                     (* the sentinel of an empty MAX *)
  acc_add : Z → Z → outcome Z;
  acc_ltb : Z → Z → bool;
  acc_of_size : Z → Z                   (* the conversion of a row count *)
}.

Definition u64_acc : accumulator :=
  mkAcc 0 1 UINT64_MAX 0 (λ a b, Ret (u64 (a + b))) Z.ltb id.

(** Signed overflow is undefined. *)
Definition i64_add (a b : Z) : outcome Z :=
  if (INT64_MIN <=? a + b) && (a + b <=? INT64_MAX) then Ret (a + b) else Crash Undefined.

Definition i64_acc : accumulator := mkAcc 0 1 INT64_MAX INT64_MIN i64_add Z.ltb i64.

Definition f64_acc : accumulator :=
  mkAcc F64_ZERO F64_ONE F64_INF F64_NEG_INF (λ a b, Ret (f64_add a b)) f64_ltb f64_of_Z.

(** ** The scalar loops *)

Definition acc_init (A : accumulator) (op : MatrixAggOp) : Z :=
  match op with
  | AGG_MIN => acc_min_init A
  | AGG_MAX => acc_max_init A
  | _ => acc_zero A
  end.

(** The loop body's update once the row's test has passed: [x] is the row's value. *)
Definition acc_step (A : accumulator) (op : MatrixAggOp) (s x : Z) : outcome Z :=
  match op with
  | AGG_SUM => acc_add A s x
  | AGG_MIN => Ret (if acc_ltb A x s then x else s)
  | AGG_MAX => Ret (if acc_ltb A s x then x else s)
  | _ => acc_add A s (acc_one A)
  end.

(** COUNT evaluates the test only; the other loops read the value of a row
    that passes it. *)
Definition reads_value (op : MatrixAggOp) : bool :=
  match op with AGG_SUM | AGG_MIN | AGG_MAX => true | _ => false end.

Definition reduce_loop (A : accumulator) (n : nat) (keep : nat → outcome bool)
    (val : nat → outcome Z) (op : MatrixAggOp) : outcome Z :=
  for_loop 0 n (λ i s,
    b ← keep i;
    if (b : bool) then
      if reads_value op then x ← val i; acc_step A op s x
      else acc_add A s (acc_one A)
    else Ret s) (acc_init A op).

(** [nulls && nulls[i]]: the mask is absent or read at the row. *)
Definition null_at (nulls : option (list Z)) (i : nat) : outcome bool :=
  match nulls with
  | None => Ret false
  | Some m => x ← rd m i; Ret (negb (x =? 0))
  end.

Definition keep_all (i : nat) : outcome bool := Ret true.

Definition keep_value (test : Z → bool) (v : list Z) (i : nat) : outcome bool :=
  x ← rd v i; Ret (test x).

Definition keep_not_null (nulls : list Z) (i : nat) : outcome bool :=
  x ← rd nulls i; Ret (x =? 0).

(** [(!nulls || !nulls[i]) && test(v[i])] *)
Definition keep_pred (nulls : option (list Z)) (test : Z → bool) (v : list Z) (i : nat) : outcome bool :=
  b ← null_at nulls i;
  if (b : bool) then Ret false else keep_value test v i.

Definition matrix_cpu_reduce (v : list Z) (n : nat) (threshold : Z) (op : MatrixAggOp) : outcome Z :=
  reduce_loop u64_acc n (keep_value (λ x, threshold <? x) v) (rd v) op.

Definition matrix_cpu_reduce_all (v : list Z) (n : nat) (op : MatrixAggOp) : outcome Z :=
  if reads_value op then reduce_loop u64_acc n keep_all (rd v) op
  else Ret (acc_of_size u64_acc (Z.of_nat n)).

Definition matrix_cpu_reduce_all_nullable (v : list Z) (n : nat) (op : MatrixAggOp)
    (nulls : list Z) : outcome Z :=
  reduce_loop u64_acc n (keep_not_null nulls) (rd v) op.

Definition matrix_cpu_reduce_all_i64 (v : list Z) (n : nat) (op : MatrixAggOp) : outcome Z :=
  if reads_value op then reduce_loop i64_acc n keep_all (rd v) op
  else Ret (acc_of_size i64_acc (Z.of_nat n)).

Definition matrix_cpu_reduce_all_i64_nullable (v : list Z) (n : nat) (op : MatrixAggOp)
    (nulls : list Z) : outcome Z :=
  reduce_loop i64_acc n (keep_not_null nulls) (rd v) op.

Definition matrix_cpu_reduce_pred (v : list Z) (n : nat) (p : MatrixPredicate)
    (op : MatrixAggOp) (nulls : option (list Z)) : outcome Z :=
  reduce_loop u64_acc n (keep_pred nulls (λ x, matrix_pred_match x p) v) (rd v) op.

Definition matrix_cpu_reduce_pred_i64 (v : list Z) (n : nat) (p : MatrixPredicate)
    (op : MatrixAggOp) (nulls : option (list Z)) : outcome Z :=
  reduce_loop i64_acc n (keep_pred nulls (λ x, matrix_pred_match_i64 x p) v) (rd v) op.

Definition matrix_cpu_reduce_all_f64 (v : list Z) (n : nat) (op : MatrixAggOp) : outcome Z :=
  if reads_value op then reduce_loop f64_acc n keep_all (rd v) op
  else Ret (acc_of_size f64_acc (Z.of_nat n)).

Definition matrix_cpu_reduce_all_f64_nullable (v : list Z) (n : nat) (op : MatrixAggOp)
    (nulls : list Z) : outcome Z :=
  reduce_loop f64_acc n (keep_not_null nulls) (rd v) op.

Definition matrix_cpu_reduce_pred_f64 (v : list Z) (n : nat) (p : MatrixPredicate)
    (op : MatrixAggOp) (nulls : option (list Z)) : outcome Z :=
  reduce_loop f64_acc n (keep_pred nulls (λ x, matrix_pred_match_f64 x p) v) (rd v) op.

(** Cross-column reducers: the test reads [f], the value reads [a]. *)
Definition matrix_cpu_reduce_filtered_by (f : list Z) (p : MatrixPredicate) (a : list Z)
    (n : nat) (op : MatrixAggOp) : outcome Z :=
  reduce_loop u64_acc n (keep_value (λ x, matrix_pred_match x p) f) (rd a) op.

Definition matrix_cpu_reduce_filtered_by_i64 (f : list Z) (p : MatrixPredicate) (a : list Z)
    (n : nat) (op : MatrixAggOp) : outcome Z :=
  reduce_loop i64_acc n (keep_value (λ x, matrix_pred_match x p) f) (rd a) op.

Definition matrix_cpu_reduce_filtered_by_f64 (f : list Z) (p : MatrixPredicate) (a : list Z)
    (n : nat) (op : MatrixAggOp) : outcome Z :=
  reduce_loop f64_acc n (keep_value (λ x, matrix_pred_match x p) f) (rd a) op.

(** ** The grouped loops

    [skip] is the null test, made before the key is read; [keep] is the WHERE
    test, made after the key is known to be in range. *)

Definition group_loop (A : accumulator) (n : nat) (G : Z) (skip : nat → outcome bool)
    (keys : list Z) (keep : nat → outcome bool) (val : nat → outcome Z)
    (op : MatrixAggOp) : outcome (list Z) :=
  for_loop 0 n (λ i out,
    sk ← skip i;
    if (sk : bool) then Ret out else
    k ← rd keys i;
    if G <=? k then Ret out else
    b ← keep i;
    if (b : bool) then
      x ← val i;
      s ← rd out (Z.to_nat k);
      s' ← acc_step A op s x;
      Ret (<[Z.to_nat k := s']> out)
    else Ret out) (replicate (Z.to_nat G) (acc_init A op)).

(** [matrix_group_reduce_impl<Filtered>]: [pred] is [Some] when [Filtered]. *)
Definition keep_group (test : option (Z → bool)) (v : list Z) (i : nat) : outcome bool :=
  match test with None => Ret true | Some t => keep_value t v i end.

Definition matrix_group_reduce_impl (filtered : bool) (keys values : list Z) (n : nat)
    (G : Z) (op : MatrixAggOp) (pred : MatrixPredicate) (nulls : option (list Z)) : outcome (list Z) :=
  group_loop u64_acc n G (null_at nulls) keys
    (keep_group (if filtered then Some (λ x, matrix_pred_match x pred) else None) values)
    (rd values) op.

Definition matrix_cpu_group_reduce keys values n G op nulls : outcome (list Z) :=
  matrix_group_reduce_impl false keys values n G op (mkPred GT 0 0) nulls.

Definition matrix_cpu_group_reduce_where keys values n G op threshold : outcome (list Z) :=
  matrix_group_reduce_impl true keys values n G op (mkPred GT threshold 0) None.

Definition matrix_cpu_group_reduce_pred keys values n G op pred nulls : outcome (list Z) :=
  matrix_group_reduce_impl true keys values n G op pred nulls.

Definition matrix_group_reduce_i64_impl (filtered : bool) (keys values : list Z) (n : nat)
    (G : Z) (op : MatrixAggOp) (pred : MatrixPredicate) (nulls : option (list Z)) : outcome (list Z) :=
  group_loop i64_acc n G (null_at nulls) keys
    (keep_group (if filtered then Some (λ x, matrix_pred_match_i64 x pred) else None) values)
    (rd values) op.

Definition matrix_cpu_group_reduce_i64 keys values n G op nulls : outcome (list Z) :=
  matrix_group_reduce_i64_impl false keys values n G op (mkPred GT 0 0) nulls.

Definition matrix_cpu_group_reduce_i64_pred keys values n G op pred nulls : outcome (list Z) :=
  matrix_group_reduce_i64_impl true keys values n G op pred nulls.

Definition matrix_group_reduce_f64_impl (filtered : bool) (keys values : list Z) (n : nat)
    (G : Z) (op : MatrixAggOp) (pred : MatrixPredicate) (nulls : option (list Z)) : outcome (list Z) :=
  group_loop f64_acc n G (null_at nulls) keys
    (keep_group (if filtered then Some (λ x, matrix_pred_match_f64 x pred) else None) values)
    (rd values) op.

Definition matrix_cpu_group_reduce_f64 keys values n G op nulls : outcome (list Z) :=
  matrix_group_reduce_f64_impl false keys values n G op (mkPred GT F64_ZERO F64_ZERO) nulls.

Definition matrix_cpu_group_reduce_f64_pred keys values n G op pred nulls : outcome (list Z) :=
  matrix_group_reduce_f64_impl true keys values n G op pred nulls.

Definition never_skip (i : nat) : outcome bool := Ret false.

Definition matrix_cpu_group_reduce_filtered_by keys f fp values n G op : outcome (list Z) :=
  group_loop u64_acc n G never_skip keys (keep_value (λ x, matrix_pred_match x fp) f) (rd values) op.

Definition matrix_cpu_group_reduce_filtered_by_i64 keys f fp values n G op : outcome (list Z) :=
  group_loop i64_acc n G never_skip keys (keep_value (λ x, matrix_pred_match x fp) f) (rd values) op.

Definition matrix_cpu_group_reduce_filtered_by_f64 keys f fp values n G op : outcome (list Z) :=
  group_loop f64_acc n G never_skip keys (keep_value (λ x, matrix_pred_match x fp) f) (rd values) op.

(** ** The reference semantics

    An aggregate over a list of selected values is the monadic fold of the
    accumulator's step. *)

Definition agg_fold (A : accumulator) (op : MatrixAggOp) (vals : list Z) : outcome Z :=
  fold_outcome (acc_step A op) vals (acc_init A op).

(** The values of [v] at the rows [i < n] that [keep] selects, in row order. *)
Definition select (keep : nat → bool) (v : list Z) (n : nat) : list Z :=
  map (λ i, nth i v 0) (List.filter keep (seq 0 n)).

Definition sum_list_Z (l : list Z) : Z := foldr Z.add 0 l.

Lemma acc_step_count A op s x :
  reads_value op = false → acc_step A op s x = acc_add A s (acc_one A).
Proof. by destruct op. Qed.

Lemma reduce_loop_select A n keep (v : list Z) op kb :
  (∀ i, (i < n)%nat → keep i = Ret (kb i)) → (n ≤ length v)%nat →
  reduce_loop A n keep (rd v) op = agg_fold A op (select kb v n).
Proof.
  intros Hk Hv. unfold reduce_loop, agg_fold, select.
  rewrite fold_outcome_map, <- fold_outcome_filter, <- (map_id (seq 0 n)).
  apply for_loop_fold_outcome. intros k a Hlt.
  rewrite Hk by lia. cbn. destruct (kb k); [|done].
  destruct (reads_value op) eqn:Hr; [|by rewrite acc_step_count].
  rewrite (rd_total 0) by lia. done.
Qed.

(** The tests, as functions of the row, when the arrays are long enough. *)
Definition mask_ok (nulls : option (list Z)) (n : nat) : Prop :=
  match nulls with None => True | Some m => (n ≤ length m)%nat end.

Definition is_null (nulls : option (list Z)) (i : nat) : bool :=
  match nulls with None => false | Some m => negb (nth i m 0 =? 0) end.

Lemma null_at_total nulls n i :
  mask_ok nulls n → (i < n)%nat → null_at nulls i = Ret (is_null nulls i).
Proof.
  destruct nulls as [m|]; cbn; [|done]. intros Hm Hi.
  by rewrite (rd_total 0) by lia.
Qed.

Lemma keep_value_total test v i :
  (i < length v)%nat → keep_value test v i = Ret (test (nth i v 0)).
Proof. intros. unfold keep_value. by rewrite (rd_total 0). Qed.

Lemma keep_pred_total nulls test v n i :
  mask_ok nulls n → (n ≤ length v)%nat → (i < n)%nat →
  keep_pred nulls test v i = Ret (negb (is_null nulls i) && test (nth i v 0)).
Proof.
  intros Hm Hv Hi. unfold keep_pred. rewrite (null_at_total nulls n) by done. cbn.
  destruct (is_null nulls i); cbn; [done|]. by rewrite keep_value_total by lia.
Qed.

(** *** What each fold computes *)

Lemma agg_fold_count_u64 op vals :
  reads_value op = false → agg_fold u64_acc op vals = Ret (u64 (Z.of_nat (length vals))).
Proof.
  intros Hr. unfold agg_fold.
  assert (∀ s, fold_outcome (acc_step u64_acc op) vals (u64 s)
               = Ret (u64 (s + Z.of_nat (length vals)))) as H.
  { induction vals as [|x vals IH]; intros s; cbn [fold_outcome length].
    { by rewrite Z.add_0_r. }
    rewrite acc_step_count by done. cbn. rewrite u64_add_l, IH. do 2 f_equal. lia. }
  specialize (H 0). by destruct op.
Qed.

Lemma agg_fold_sum_u64 vals : agg_fold u64_acc AGG_SUM vals = Ret (u64 (sum_list_Z vals)).
Proof.
  unfold agg_fold. cbn [acc_init acc_zero u64_acc].
  assert (∀ s, fold_outcome (acc_step u64_acc AGG_SUM) vals (u64 s)
               = Ret (u64 (s + sum_list_Z vals))) as H.
  { induction vals as [|x vals IH]; intros s; cbn.
    { by rewrite Z.add_0_r. }
    rewrite u64_add_l, IH. do 2 f_equal. unfold sum_list_Z. lia. }
  apply (H 0).
Qed.

Lemma foldr_min_init x s vals : foldr Z.min (Z.min x s) vals = Z.min x (foldr Z.min s vals).
Proof. induction vals as [|y vals IH]; cbn; lia. Qed.

Lemma foldr_max_init x s vals : foldr Z.max (Z.max x s) vals = Z.max x (foldr Z.max s vals).
Proof. induction vals as [|y vals IH]; cbn; lia. Qed.

(** The MIN and MAX loops over an integer type are the fold of [Z.min] and [Z.max]. *)
Lemma agg_fold_min A vals : acc_ltb A = Z.ltb →
  agg_fold A AGG_MIN vals = Ret (foldr Z.min (acc_min_init A) vals).
Proof.
  intros HA. unfold agg_fold. cbn [acc_init]. generalize (acc_min_init A).
  induction vals as [|x vals IH]; intros s; cbn; [done|].
  rewrite HA, IH, <- foldr_min_init. do 2 f_equal. destruct (Z.ltb_spec x s); lia.
Qed.

Lemma agg_fold_max A vals : acc_ltb A = Z.ltb →
  agg_fold A AGG_MAX vals = Ret (foldr Z.max (acc_max_init A) vals).
Proof.
  intros HA. unfold agg_fold. cbn [acc_init]. generalize (acc_max_init A).
  induction vals as [|x vals IH]; intros s; cbn; [done|].
  rewrite HA, IH, <- foldr_max_init. do 2 f_equal. destruct (Z.ltb_spec s x); lia.
Qed.

(** The closed form of an unsigned aggregate. *)
Definition agg_ref (op : MatrixAggOp) (vals : list Z) : Z :=
  match op with
  | AGG_SUM => u64 (sum_list_Z vals)
  | AGG_MIN => foldr Z.min UINT64_MAX vals
  | AGG_MAX => foldr Z.max 0 vals
  | _ => u64 (Z.of_nat (length vals))
  end.

Lemma agg_fold_u64 op vals : agg_fold u64_acc op vals = Ret (agg_ref op vals).
Proof.
  destruct op; cbn [agg_ref].
  - by apply agg_fold_count_u64.
  - apply agg_fold_sum_u64.
  - by rewrite agg_fold_min.
  - by rewrite agg_fold_max.
  - by apply agg_fold_count_u64.
Qed.

(** The closed form of a signed aggregate, where it is defined. *)
Definition agg_ref_i64 (op : MatrixAggOp) (vals : list Z) : Z :=
  match op with
  | AGG_SUM => sum_list_Z vals
  | AGG_MIN => foldr Z.min INT64_MAX vals
  | AGG_MAX => foldr Z.max INT64_MIN vals
  | _ => Z.of_nat (length vals)
  end.

Lemma i64_add_Ret a b r : i64_add a b = Ret r → r = a + b ∧ in_i64 (a + b).
Proof.
  unfold i64_add, in_i64. destruct (_ && _) eqn:E; [|done]. intros [= <-].
  apply andb_true_iff in E. rewrite !Z.leb_le in E. done.
Qed.

Lemma i64_add_in a b : in_i64 (a + b) → i64_add a b = Ret (a + b).
Proof.
  unfold in_i64, i64_add. intros [H1 H2].
  by rewrite (proj2 (Z.leb_le _ _) H1), (proj2 (Z.leb_le _ _) H2).
Qed.

Lemma agg_fold_i64 op vals r : agg_fold i64_acc op vals = Ret r → r = agg_ref_i64 op vals.
Proof.
  assert (∀ (d : Z → Z) vals s r,
    fold_outcome (λ s x, i64_add s (d x)) vals s = Ret r → r = s + sum_list_Z (map d vals)) as H.
  { clear. intros d vals. induction vals as [|x vals IH]; cbn; intros s r.
    { intros [= <-]. lia. }
    intros. inv_bind. apply i64_add_Ret in Hx as [-> _].
    apply IH in Hk as ->. unfold sum_list_Z. lia. }
  assert (∀ s, fold_outcome (λ s x, i64_add s 1) vals s = Ret r →
               r = s + Z.of_nat (length vals)) as Hc.
  { intros s Hs. rewrite (H (λ _, 1) _ _ _ Hs). f_equal. clear.
    induction vals as [|x vals IH]; [done|]. cbn [map length]. unfold sum_list_Z in *. cbn. lia. }
  destruct op; unfold agg_fold; cbn [agg_ref_i64].
  - intros Hr. apply Hc in Hr. done.
  - intros Hr. apply (H id) in Hr. rewrite map_id in Hr. done.
  - intros Hr. fold (agg_fold i64_acc AGG_MIN vals) in Hr. rewrite agg_fold_min in Hr by done. by simplify_eq.
  - intros Hr. fold (agg_fold i64_acc AGG_MAX vals) in Hr. rewrite agg_fold_max in Hr by done. by simplify_eq.
  - intros Hr. apply Hc in Hr. done.
Qed.

(** A signed sum whose running magnitude stays in range is defined. *)
Lemma fold_i64_sum_defined vals : ∀ s B,
  - B ≤ s ≤ B → B + sum_list_Z (map Z.abs vals) ≤ INT64_MAX →
  fold_outcome i64_add vals s = Ret (s + sum_list_Z vals).
Proof.
  unfold sum_list_Z. induction vals as [|x vals IH]; cbn; intros s B Hs HB.
  { f_equal. lia. }
  assert (0 ≤ foldr Z.add 0 (map Z.abs vals)) by (clear; induction vals; cbn; lia).
  rewrite i64_add_in by (unfold in_i64, INT64_MIN, INT64_MAX in *; lia).
  cbn. rewrite (IH _ (B + Z.abs x)) by lia. f_equal. lia.
Qed.

(** *** The grouped loops *)

Section group.
Context (A : accumulator) (n : nat) (G : Z) (op : MatrixAggOp).
Context (keys values : list Z) (skip keep : nat → outcome bool) (kb : nat → bool).
Context (skipb : nat → bool).
Hypothesis Hskip : ∀ i, (i < n)%nat → skip i = Ret (skipb i).
Hypothesis Hkeep : ∀ i, (i < n)%nat → keep i = Ret (kb i).
Hypothesis Hkeys : (n ≤ length keys)%nat.
Hypothesis Hkpos : ∀ i, (i < n)%nat → 0 ≤ nth i keys 0.
Hypothesis Hvals : (n ≤ length values)%nat.

Definition row_in_group (g : Z) (i : nat) : bool :=
  negb (skipb i) && kb i && (nth i keys 0 =? g).

(** The loop body on a row whose reads succeed. *)
Definition group_step (out : list Z) (i : nat) : outcome (list Z) :=
  if negb (skipb i) && kb i && (nth i keys 0 <? G) then
    s ← rd out (Z.to_nat (nth i keys 0));
    s' ← acc_step A op s (nth i values 0);
    Ret (<[Z.to_nat (nth i keys 0) := s']> out)
  else Ret out.

Lemma group_loop_steps :
  group_loop A n G skip keys keep (rd values) op
  = fold_outcome group_step (seq 0 n) (replicate (Z.to_nat G) (acc_init A op)).
Proof using All.
  unfold group_loop. rewrite <- (map_id (seq 0 n)). apply for_loop_fold_outcome.
  intros k out Hk. rewrite Hskip by lia. unfold group_step. cbn.
  destruct (skipb k); cbn; [done|].
  rewrite (rd_total 0 keys) by lia. cbn. rewrite Hkeep by lia. cbn.
  destruct (Z.leb_spec G (nth k keys 0)) as [Hge|Hlt].
  { destruct (Z.ltb_spec (nth k keys 0) G); [lia|]. by rewrite andb_false_r. }
  destruct (Z.ltb_spec (nth k keys 0) G); [|lia].
  destruct (kb k); cbn; [|done]. by rewrite (rd_total 0 values) by lia.
Qed.

Lemma group_steps_slot l : Forall (λ i, (i < n)%nat) l → ∀ out out',
  fold_outcome group_step l out = Ret out' → length out' = length out ∧
  ∀ g s, 0 ≤ g → out !! Z.to_nat g = Some s → g < G → ∃ s', out' !! Z.to_nat g = Some s' ∧
    fold_outcome (acc_step A op) (map (λ i, nth i values 0)
      (List.filter (row_in_group g) l)) s = Ret s'.
Proof using All.
  induction 1 as [|i l Hi _ IH]; intros out out' H.
  { simplify_eq/=. split; [done|]. eauto. }
  cbn [fold_outcome] in H. apply bind_Ret in H as (out1 & Hs & H).
  apply IH in H as [Hlen Hg]. unfold group_step in Hs.
  destruct (_ && _) eqn:E in Hs.
  - inv_bind. apply andb_true_iff in E as [Er Ek]. apply Z.ltb_lt in Ek.
    rewrite length_insert in Hlen. split; [done|]. intros g s Hg0 Hout HgG.
    unfold row_in_group at 1. cbn. rewrite Er. cbn.
    destruct (Z.eqb_spec (nth i keys 0) g) as [Heq|Hne].
    + rewrite Heq in *. unfold rd in Hx. rewrite Hout in Hx. simplify_eq/=.
      rewrite Hx0. cbn. apply Hg; [done| |done].
      rewrite list_lookup_insert_eq; [done|]. by eapply lookup_lt_Some.
    + apply Hg; [done| |done]. rewrite list_lookup_insert_ne; [done|].
      specialize (Hkpos i Hi). lia.
  - simplify_eq/=. split; [done|]. intros g s Hg0 Hout HgG.
    replace (row_in_group g i) with false; [by apply Hg|].
    symmetry. unfold row_in_group.
    destruct (Z.eqb_spec (nth i keys 0) g) as [<-|]; [|by rewrite andb_false_r].
    apply Z.ltb_lt in HgG. rewrite HgG in E. by rewrite E.
Qed.

(** Slot [g] of a grouped result is the aggregate of the rows of group [g]. *)
Lemma group_loop_slot out g : 0 ≤ g < G →
  group_loop A n G skip keys keep (rd values) op = Ret out →
  length out = Z.to_nat G ∧
  ∃ s, out !! Z.to_nat g = Some s ∧
       agg_fold A op (select (row_in_group g) values n) = Ret s.
Proof using All.
  intros Hg. rewrite group_loop_steps. intros H.
  apply group_steps_slot in H as [Hlen Hslot].
  2:{ apply Forall_forall. intros i Hi. apply elem_of_seq in Hi. lia. }
  rewrite length_replicate in Hlen. split; [done|].
  apply (Hslot g (acc_init A op)); [lia| |lia].
  apply lookup_replicate_2. lia.
Qed.

Lemma group_loop_length out : group_loop A n G skip keys keep (rd values) op = Ret out → length out = Z.to_nat G.
Proof using All.
  rewrite group_loop_steps. intros H. apply group_steps_slot in H as [Hlen _].
  { by rewrite length_replicate in Hlen. }
  apply Forall_forall. intros i Hi. apply elem_of_seq in Hi. lia.
Qed.

Lemma group_steps_defined l : Forall (λ i, (i < n)%nat) l → ∀ out, length out = Z.to_nat G →
  (∀ g s, 0 ≤ g < G → out !! Z.to_nat g = Some s → ∃ s', fold_outcome (acc_step A op)
    (map (λ i, nth i values 0) (List.filter (row_in_group g) l)) s = Ret s') →
  ∃ out', fold_outcome group_step l out = Ret out'.
Proof using All.
  induction 1 as [|i l Hi _ IH]; intros out Hlen Hdef; cbn [fold_outcome]; [eauto|].
  pose proof (eq_refl (group_step out i)) as Hstep. unfold group_step in Hstep at 2. rewrite Hstep. clear Hstep.
  destruct (negb (skipb i) && kb i && (nth i keys 0 <? G)) eqn:E.
  - apply andb_true_iff in E as [Er Ek]. apply Z.ltb_lt in Ek. specialize (Hkpos i Hi).
    set (k := nth i keys 0) in *. destruct (lookup_lt_is_Some_2 out (Z.to_nat k) ltac:(lia)) as [s Hs].
    assert (row_in_group k i = true) as Hrow by (unfold row_in_group; by rewrite Er, Z.eqb_refl).
    destruct (Hdef k s ltac:(lia) Hs) as (s' & Hf). cbn [List.filter map] in Hf. rewrite Hrow in Hf.
    cbn [map fold_outcome] in Hf. apply bind_Ret in Hf as (s1 & Hs1 & Hf).
    rewrite (rd_lookup _ _ _ Hs). cbn [mbind outcome_bind]. rewrite Hs1. cbn [mbind outcome_bind].
    apply IH; [by rewrite length_insert|]. intros g s2 Hg Hs2. destruct (decide (g = k)) as [->|Hne].
    + rewrite list_lookup_insert_eq in Hs2 by lia. simplify_eq. eauto.
    + rewrite list_lookup_insert_ne in Hs2 by lia. destruct (Hdef g s2 Hg Hs2) as (s3 & Hf3).
      exists s3. cbn [List.filter] in Hf3. unfold row_in_group in Hf3 at 1. fold k in Hf3.
      destruct (Z.eqb_spec k g); [congruence|]. by rewrite andb_false_r in Hf3.
  - cbn [mbind outcome_bind]. apply IH; [done|]. intros g s Hg Hs. destruct (Hdef g s Hg Hs) as (s' & Hf).
    exists s'. cbn [List.filter] in Hf. destruct (row_in_group g i) eqn:Er; [|done]. exfalso.
    unfold row_in_group in Er. apply andb_true_iff in Er as [Er Ek%Z.eqb_eq]. rewrite Er, Ek in E.
    apply Z.ltb_ge in E. lia.
Qed.

(** The loop returns when the aggregate of every group is defined. *)
Lemma group_loop_defined :
  (∀ g, 0 ≤ g < G → ∃ s, agg_fold A op (select (row_in_group g) values n) = Ret s) →
  ∃ out, group_loop A n G skip keys keep (rd values) op = Ret out.
Proof using All.
  intros Hdef. rewrite group_loop_steps. apply group_steps_defined; [|apply length_replicate|].
  - apply Forall_forall. intros i Hi. apply elem_of_seq in Hi. lia.
  - intros g s Hg Hs. apply lookup_replicate in Hs as [-> _]. by apply Hdef.
Qed.

(** With an accumulator that never overflows the loop returns. *)
Lemma group_loop_total :
  (∀ s x, ∃ s', acc_step A op s x = Ret s') →
  ∃ out, group_loop A n G skip keys keep (rd values) op = Ret out.
Proof using All.
  intros Htot. apply group_loop_defined. intros g _. unfold agg_fold. generalize (acc_init A op).
  generalize (select (row_in_group g) values n). intros vals. induction vals as [|x vals IH]; intros s; cbn; [eauto|].
  destruct (Htot s x) as [s' ->]. apply IH.
Qed.
End group.

Lemma acc_step_u64_total op s x : ∃ s', acc_step u64_acc op s x = Ret s'.
Proof. destruct op; cbn; eauto. Qed.

Lemma acc_step_f64_total op s x : ∃ s', acc_step f64_acc op s x = Ret s'.
Proof. destruct op; cbn; eauto. Qed.

Lemma select_ext k1 k2 v n :
  (∀ i, (i < n)%nat → k1 i = k2 i) → select k1 v n = select k2 v n.
Proof.
  intros H. unfold select. f_equal. apply List.filter_ext_in.
  intros i Hi. apply in_seq in Hi. apply H. lia.
Qed.

(** ** Theorems *)

(** Which rows a WHERE clause over the column itself keeps. *)
Definition where_rows (nulls : option (list Z)) (test : Z → bool) (v : list Z) (i : nat) : bool :=
  negb (is_null nulls i) && test (nth i v 0).

Lemma reduce_pred_loop A test v op nulls :
  mask_ok nulls (length v) →
  reduce_loop A (length v) (keep_pred nulls test v) (rd v) op
  = agg_fold A op (select (where_rows nulls test v) v (length v)).
Proof.
  intros Hm. apply reduce_loop_select; [|done].
  intros i Hi. by apply (keep_pred_total nulls test v (length v)).
Qed.

(** The filtered, null-aware u32 reducer returns the aggregate of exactly
    the non-null rows that satisfy the predicate: their number, their sum
    modulo 2^64, their minimum (UINT64_MAX when there is none) and their
    maximum (0 when there is none). *)
Theorem reduce_pred_correct v p op nulls :
  mask_ok nulls (length v) →
  matrix_cpu_reduce_pred v (length v) p op nulls
  = Ret (agg_ref op (select (where_rows nulls (λ x, matrix_pred_match x p) v) v (length v))).
Proof. intros Hm. unfold matrix_cpu_reduce_pred. by rewrite reduce_pred_loop, agg_fold_u64. Qed.

Lemma reduce_pred_correct_witness :
  mask_ok (Some [0; 1; 0; 0]) 4 ∧
  matrix_cpu_reduce_pred [5; 7; 9; 2] 4 (mkPred GE 5 0) AGG_SUM (Some [0; 1; 0; 0]) = Ret 14.
Proof.
  split; [cbn; lia|].
  exact (reduce_pred_correct [5; 7; 9; 2] (mkPred GE 5 0) AGG_SUM (Some [0; 1; 0; 0]) ltac:(cbn; lia)).
Defined.

(** The signed reducer is exact whenever it returns. *)
Theorem reduce_pred_i64_correct v p op nulls r :
  mask_ok nulls (length v) →
  matrix_cpu_reduce_pred_i64 v (length v) p op nulls = Ret r →
  r = agg_ref_i64 op (select (where_rows nulls (λ x, matrix_pred_match_i64 x p) v) v (length v)).
Proof.
  intros Hm. unfold matrix_cpu_reduce_pred_i64. rewrite reduce_pred_loop by done.
  apply agg_fold_i64.
Qed.

Lemma reduce_pred_i64_correct_witness :
  matrix_cpu_reduce_pred_i64 [-5; 7; -9] 3 (mkPred LT 0 0) AGG_MIN None = Ret (-9) ∧
  -9 = agg_ref_i64 AGG_MIN [-5; -9].
Proof.
  split; [reflexivity|].
  exact (reduce_pred_i64_correct [-5; 7; -9] (mkPred LT 0 0) AGG_MIN None (-9) I eq_refl).
Defined.

(** A u32 column of fewer than 2^32 rows never wraps the 64-bit accumulator. *)
Lemma sum_u32_bound vals :
  Forall in_u32 vals → 0 ≤ sum_list_Z vals ≤ Z.of_nat (length vals) * UINT32_MAX.
Proof.
  unfold sum_list_Z. induction 1 as [|x l Hx _ IH]; cbn [foldr length]; [unfold UINT32_MAX; lia|].
  unfold in_u32, UINT32_MAX in *. lia.
Qed.

Lemma length_select keep v n : (length (select keep v n) ≤ n)%nat.
Proof.
  unfold select. rewrite length_map. etrans; [apply filter_length_le|]. by rewrite length_seq.
Qed.

Lemma select_Forall (P : Z → Prop) keep v n :
  (n ≤ length v)%nat → Forall P v → Forall P (select keep v n).
Proof.
  intros Hn HP. unfold select. apply Forall_forall. intros x Hx.
  apply list_elem_of_In, in_map_iff in Hx as (i & <- & Hi).
  apply filter_In in Hi as [Hi _]. apply in_seq in Hi.
  eapply Forall_forall in HP; [exact HP|]. apply list_elem_of_In, nth_In. lia.
Qed.

Theorem sum_u32_exact v p nulls :
  mask_ok nulls (length v) → Forall in_u32 v → Z.of_nat (length v) < 2 ^ 32 →
  matrix_cpu_reduce_pred v (length v) p AGG_SUM nulls
  = Ret (sum_list_Z (select (where_rows nulls (λ x, matrix_pred_match x p) v) v (length v))).
Proof.
  intros Hm Hv Hn. unfold matrix_cpu_reduce_pred. rewrite reduce_pred_loop, agg_fold_u64 by done.
  cbn [agg_ref]. rewrite u64_small; [done|].
  set (l := select _ _ _).
  pose proof (sum_u32_bound l (select_Forall _ _ _ _ (le_n _) Hv)) as [H0 H1].
  pose proof (length_select (where_rows nulls (λ x, matrix_pred_match x p) v) v (length v)) as Hl.
  fold l in Hl. unfold in_u64, UINT32_MAX in *. nia.
Qed.

Lemma sum_u32_exact_witness :
  Forall in_u32 [UINT32_MAX; UINT32_MAX] ∧
  matrix_cpu_reduce_pred [UINT32_MAX; UINT32_MAX] 2 (mkPred GT 0 0) AGG_SUM None
  = Ret (2 * UINT32_MAX).
Proof.
  split; [repeat constructor; unfold in_u32, UINT32_MAX; lia|].
  apply (sum_u32_exact [UINT32_MAX; UINT32_MAX] (mkPred GT 0 0) None).
  - exact I.
  - repeat constructor; unfold in_u32, UINT32_MAX; lia.
  - cbn. lia.
Defined.

Lemma foldr_max_pos l : 0 ≤ foldr Z.max 0 l.
Proof. induction l; cbn; lia. Qed.

Lemma reduce_threshold v T op :
  matrix_cpu_reduce v (length v) T op
  = Ret (agg_ref op (select (λ i, T <? nth i v 0) v (length v))).
Proof.
  unfold matrix_cpu_reduce.
  rewrite (reduce_loop_select _ _ _ _ _ (λ i, T <? nth i v 0));
    [apply agg_fold_u64|intros; by rewrite keep_value_total|done].
Qed.

(** The threshold scan's sentinels are unambiguous: MAX is 0, and MIN is
    UINT64_MAX, exactly when no value exceeds the threshold. *)
Theorem reduce_sentinels v T :
  Forall in_u32 v → 0 ≤ T →
  (matrix_cpu_reduce v (length v) T AGG_MAX = Ret 0 ↔ Forall (λ x, x ≤ T) v) ∧
  (matrix_cpu_reduce v (length v) T AGG_MIN = Ret UINT64_MAX ↔ Forall (λ x, x ≤ T) v).
Proof.
  intros Hv HT. rewrite !reduce_threshold. cbn [agg_ref].
  set (l := select _ v (length v)).
  assert (Forall (λ x, in_u32 x ∧ T < x) l) as Hl.
  { apply Forall_forall. intros x Hx. unfold l, select in Hx.
    apply list_elem_of_In, in_map_iff in Hx as (i & <- & Hi).
    apply filter_In in Hi as [Hi Hgt]. apply in_seq in Hi. split; [|by apply Z.ltb_lt].
    eapply Forall_forall in Hv; [exact Hv|]. apply list_elem_of_In, nth_In. lia. }
  assert (Forall (λ x, x ≤ T) v ↔ l = []) as ->.
  { unfold l, select. split.
    - intros Hle. rewrite Forall_forall in Hle.
      destruct (List.filter _ _) as [|i r] eqn:E; [done|].
      assert (In i (List.filter (λ i, T <? nth i v 0) (seq 0 (length v)))) as Hi
        by (rewrite E; by left).
      apply filter_In in Hi as [Hi Hgt]. apply in_seq in Hi. apply Z.ltb_lt in Hgt.
      specialize (Hle (nth i v 0)). ospecialize (Hle _); [apply list_elem_of_In, nth_In; lia|lia].
    - intros Hnil. apply map_eq_nil in Hnil. apply Forall_forall. intros x Hx.
      apply list_elem_of_In, (In_nth _ _ 0) in Hx as (i & Hi & <-).
      destruct (Z.le_gt_cases (nth i v 0) T) as [|Hgt]; [done|]. exfalso.
      assert (In i (List.filter (λ i, T <? nth i v 0) (seq 0 (length v)))) as Hin.
      { apply filter_In. split; [apply in_seq; lia|by apply Z.ltb_lt]. }
      by rewrite Hnil in Hin. }
  clearbody l. split; (split; [|by intros ->]); intros [= H];
    (destruct l as [|x l]; [done|]); apply Forall_cons in Hl as [[Hx HTx] _]; cbn in H.
  - lia.
  - unfold in_u32, UINT64_MAX in *. lia.
Qed.

Lemma reduce_sentinels_witness :
  Forall in_u32 [3; 9] ∧ 0 ≤ 9 ∧ matrix_cpu_reduce [3; 9] 2 9 AGG_MAX = Ret 0.
Proof.
  assert (Forall in_u32 [3; 9]) as H by (repeat constructor; unfold in_u32; lia).
  split; [exact H|]. split; [lia|].
  apply (proj1 (reduce_sentinels [3; 9] 9 H ltac:(lia))). repeat constructor; lia.
Defined.

(** ** Grouped against scalar *)

Lemma Forall_nth_nonneg (l : list Z) n i :
  Forall (λ x, 0 ≤ x) l → (n ≤ length l)%nat → (i < n)%nat → 0 ≤ nth i l 0.
Proof.
  intros H Hn Hi. eapply Forall_forall in H; [exact H|]. apply list_elem_of_In, nth_In. lia.
Qed.

Lemma keep_group_total filtered test v n i :
  (n ≤ length v)%nat → (i < n)%nat →
  keep_group (if (filtered : bool) then Some test else None) v i
  = Ret (negb filtered || test (nth i v 0)).
Proof. intros Hv Hi. destruct filtered; cbn; [|done]. by rewrite keep_value_total by lia. Qed.

(** Which rows reach slot [g] of a grouped query. *)
Definition group_rows (filtered : bool) (nulls : option (list Z)) (test : Z → bool)
    (keys values : list Z) (g : Z) : nat → bool :=
  row_in_group keys (λ i, negb filtered || test (nth i values 0)) (is_null nulls) g.

Lemma group_reduce_slot A filtered test keys values G op nulls out g :
  length keys = length values → mask_ok nulls (length values) →
  Forall (λ k, 0 ≤ k) keys → 0 ≤ g < G →
  group_loop A (length values) G (null_at nulls) keys
    (keep_group (if (filtered : bool) then Some test else None) values) (rd values) op = Ret out →
  length out = Z.to_nat G ∧ ∃ s, out !! Z.to_nat g = Some s ∧
    agg_fold A op (select (group_rows filtered nulls test keys values g) values (length values)) = Ret s.
Proof.
  intros Hlen Hm Hk Hg H.
  eapply (group_loop_slot A (length values) G op keys values) in H; [exact H|..|exact Hg].
  - intros i Hi. by apply (null_at_total nulls (length values)).
  - intros i Hi. by apply (keep_group_total filtered test values (length values)).
  - lia.
  - intros i Hi. eapply Forall_nth_nonneg; [done| |exact Hi]. lia.
  - done.
Qed.

(** C28: GROUP BY over u32 values never fails, and slot [g] of its result is
    the scalar reference aggregate of the non-null rows whose key is [g] and
    whose value satisfies the WHERE predicate.  Rows whose key is outside
    [[0, num_groups)] reach no slot. *)
Theorem group_reduce_pred_correct keys values G op pred nulls :
  length keys = length values → mask_ok nulls (length values) → Forall (λ k, 0 ≤ k) keys →
  ∃ out, matrix_cpu_group_reduce_pred keys values (length values) G op pred nulls = Ret out ∧
  ∀ g, 0 ≤ g < G → out !! Z.to_nat g = Some (agg_ref op
    (select (group_rows true nulls (λ x, matrix_pred_match x pred) keys values g)
       values (length values))).
Proof.
  intros Hlen Hm Hk.
  destruct (group_loop_total u64_acc (length values) G op keys values (null_at nulls)
    (keep_group (Some (λ x, matrix_pred_match x pred)) values)
    (λ i, negb true || matrix_pred_match (nth i values 0) pred) (is_null nulls)) as [out Hout].
  - intros i Hi. by apply (null_at_total nulls (length values)).
  - intros i Hi. by apply (keep_group_total true (λ x, matrix_pred_match x pred) values (length values)).
  - lia.
  - intros i Hi. eapply Forall_nth_nonneg; [done| |exact Hi]. lia.
  - done.
  - apply acc_step_u64_total.
  - exists out. split; [exact Hout|]. intros g Hg.
    eapply (group_reduce_slot u64_acc true (λ x, matrix_pred_match x pred)) in Hout
      as (_ & s & Hs & Hf); [|done..].
    rewrite Hs. rewrite agg_fold_u64 in Hf. by simplify_eq.
Qed.

Lemma group_reduce_pred_correct_witness :
  ∃ out, matrix_cpu_group_reduce_pred [0; 1; 0; 7] [5; 6; 7; 8] 4 2 AGG_SUM (mkPred GT 4 0) None = Ret out ∧
  out !! 0%nat = Some 12.
Proof.
  destruct (group_reduce_pred_correct [0; 1; 0; 7] [5; 6; 7; 8] 2 AGG_SUM (mkPred GT 4 0) None)
    as (out & H1 & H2); [reflexivity|exact I|repeat constructor; lia|].
  exists out. split; [exact H1|]. exact (H2 0 ltac:(lia)).
Defined.

(** The two query surfaces agree: slot [g] of an unfiltered GROUP BY is
    the scalar cross-column aggregate [WHERE key = g], for u32 values. *)
Theorem group_is_cross_filter keys values G op g :
  length keys = length values → Forall (λ k, 0 ≤ k) keys → 0 ≤ g < G →
  ∃ out s, matrix_cpu_group_reduce keys values (length values) G op None = Ret out ∧
    out !! Z.to_nat g = Some s ∧
    matrix_cpu_reduce_filtered_by keys (mkPred EQ g 0) values (length values) op = Ret s.
Proof.
  intros Hlen Hk Hg.
  destruct (group_loop_total u64_acc (length values) G op keys values (null_at None)
    (keep_group None values) (λ i, true) (is_null None)) as [out Hout];
    [done|done|lia| |done|apply acc_step_u64_total|].
  { intros i Hi. eapply Forall_nth_nonneg; [done| |exact Hi]. lia. }
  exists out. pose proof Hout as Hslot.
  eapply (group_reduce_slot u64_acc false (λ _, true) keys values G op None) in Hslot
    as (_ & s & Hs & Hf); [|done..].
  exists s. split; [exact Hout|]. split; [done|].
  unfold matrix_cpu_reduce_filtered_by.
  rewrite (reduce_loop_select _ _ _ _ _ (λ i, nth i keys 0 =? g));
    [|intros; by rewrite keep_value_total by lia|done].
  rewrite <- Hf. f_equal.
Qed.

Lemma group_is_cross_filter_witness :
  ∃ out s, matrix_cpu_group_reduce [0; 1; 0] [5; 6; 7] 3 2 AGG_MAX None = Ret out ∧
    out !! 0%nat = Some s ∧
    matrix_cpu_reduce_filtered_by [0; 1; 0] (mkPred EQ 0 0) [5; 6; 7] 3 AGG_MAX = Ret s.
Proof.
  apply (group_is_cross_filter [0; 1; 0] [5; 6; 7] 2 AGG_MAX 0);
    [reflexivity|repeat constructor; lia|lia].
Defined.

(** A grouped signed aggregate is exact in every slot whenever it returns. *)
Theorem group_reduce_i64_exact keys values G op pred nulls out g :
  length keys = length values → mask_ok nulls (length values) →
  Forall (λ k, 0 ≤ k) keys → 0 ≤ g < G →
  matrix_cpu_group_reduce_i64_pred keys values (length values) G op pred nulls = Ret out →
  out !! Z.to_nat g = Some (agg_ref_i64 op
    (select (group_rows true nulls (λ x, matrix_pred_match_i64 x pred) keys values g)
       values (length values))).
Proof.
  intros Hlen Hm Hk Hg H.
  eapply (group_reduce_slot i64_acc true (λ x, matrix_pred_match_i64 x pred)) in H
    as (_ & s & Hs & Hf); [|done..].
  apply agg_fold_i64 in Hf as ->. done.
Qed.

Lemma group_reduce_i64_exact_witness :
  matrix_cpu_group_reduce_i64_pred [0; 1; 0] [-5; 6; -7] 3 2 AGG_SUM (mkPred LT 0 0) None = Ret [-12; 0] ∧
  [-12; 0] !! 0%nat = Some (-12).
Proof.
  split; [reflexivity|].
  exact (group_reduce_i64_exact [0; 1; 0] [-5; 6; -7] 2 AGG_SUM (mkPred LT 0 0) None [-12; 0] 0
    eq_refl I ltac:(repeat constructor; lia) ltac:(lia) eq_refl).
Defined.

(** ** Short null masks *)

Lemma for_loop_add {A} (body : nat → A → outcome A) n1 n2 : ∀ i a,
  for_loop i (n1 + n2) body a = (for_loop i n1 body a ≫= for_loop (i + n1) n2 body).
Proof.
  induction n1 as [|n1 IH]; intros i a; cbn; [by rewrite Nat.add_0_r|].
  destruct (body i a); cbn; [|done]. rewrite IH. by rewrite Nat.add_succ_comm.
Qed.

Lemma short_mask_crash v op m :
  (length m < length v)%nat →
  matrix_cpu_reduce_all_nullable v (length v) op m = Crash Undefined.
Proof.
  intros Hlt. unfold matrix_cpu_reduce_all_nullable, reduce_loop.
  replace (length v) with (length m + (length v - length m))%nat by lia.
  rewrite for_loop_add. fold (reduce_loop u64_acc (length m) (keep_not_null m) (rd v) op).
  rewrite (reduce_loop_select _ _ _ _ _ (λ i, nth i m 0 =? 0));
    [|intros; unfold keep_not_null; by rewrite (rd_total 0)|lia].
  rewrite agg_fold_u64. cbn.
  destruct (length v - length m)%nat eqn:E; [lia|]. cbn.
  unfold keep_not_null. by rewrite (rd_oob m) by lia.
Qed.

(** A null-aware scalar aggregate over a column longer than its mask reads
    past the mask. *)
Theorem nullable_short_mask_undefined v op m :
  (length m < length v)%nat →
  matrix_cpu_reduce_all_nullable v (length v) op m = Crash Undefined.
Proof. exact (short_mask_crash v op m). Qed.

Lemma nullable_short_mask_undefined_witness :
  (1 < 2)%nat ∧ matrix_cpu_reduce_all_nullable [4; 5] 2 AGG_SUM [0] = Crash Undefined.
Proof. split; [lia|]. apply (nullable_short_mask_undefined [4; 5] AGG_SUM [0]). cbn. lia. Defined.
