(* ===== verification/KVStore.v ===== *)
(** * KVStore: the open-addressing point-op store of [kv_store.hpp]

    A fixed-capacity hash table with linear probing.  The module models the
    slot array and the probe loops; the theorems show that the store refines a
    finite map until it is full, and that a full store refuses new keys
    without losing one. *)

From S2P Require Export Prelude.

(** ** State *)

Record Slot := mkSlot { s_key : Z; s_value : Z; s_occupied : bool }.

Definition empty_slot : Slot := mkSlot 0 0 false.

Record KVStore := mkKV { mask_ : Z; size_ : Z; slots_ : list Slot }.

(** ** Operations *)

(** [while (p < n) p <<= 1], run for at most [fuel] iterations; [None] when it
    has not ended by then. *)
Fixpoint round_up_loop (fuel : nat) (p n : Z) : option Z :=
  if p <? n then
    match fuel with
    | O => None
    | S f => round_up_loop f (u64 (Z.shiftl p 1)) n
    end
  else Some p.

Definition round_up_pow2 (fuel : nat) (n : Z) : option Z :=
  p ← round_up_loop fuel 1 n; Some (if p <? 2 then 2 else p).

Definition kv_make (fuel : nat) (capacity : Z) : option KVStore :=
  c ← round_up_pow2 fuel capacity;
  Some (mkKV (c - 1) 0 (replicate (Z.to_nat c) empty_slot)).

Fixpoint put_loop (fuel : nat) (i : Z) (kv : KVStore) (key value : Z) : outcome (bool * KVStore) :=
  match fuel with
  | O => Ret (false, kv)
  | S f =>
      s ← rd (slots_ kv) (Z.to_nat i);
      if negb (s_occupied s) then
        Ret (true, mkKV (mask_ kv) (size_ kv + 1)
                     (<[Z.to_nat i := mkSlot key value true]> (slots_ kv)))
      else if s_key s =? key then
        Ret (true, mkKV (mask_ kv) (size_ kv)
                     (<[Z.to_nat i := mkSlot (s_key s) value (s_occupied s)]> (slots_ kv)))
      else put_loop f (Z.land (i + 1) (mask_ kv)) kv key value
  end.

Definition kv_put (kv : KVStore) (key value : Z) : outcome (bool * KVStore) :=
  put_loop (Z.to_nat (mask_ kv + 1)) (Z.land key (mask_ kv)) kv key value.

Fixpoint get_loop (fuel : nat) (i : Z) (kv : KVStore) (key : Z) : outcome (option Z) :=
  match fuel with
  | O => Ret None
  | S f =>
      s ← rd (slots_ kv) (Z.to_nat i);
      if negb (s_occupied s) then Ret None
      else if s_key s =? key then Ret (Some (s_value s))
      else get_loop f (Z.land (i + 1) (mask_ kv)) kv key
  end.

Definition kv_get (kv : KVStore) (key : Z) : outcome (option Z) :=
  get_loop (Z.to_nat (mask_ kv + 1)) (Z.land key (mask_ kv)) kv key.

Definition kv_size (kv : KVStore) : Z := size_ kv.
Definition kv_capacity (kv : KVStore) : Z := mask_ kv + 1.

(** The entries [for_each] visits, in slot order. *)
Definition kv_entries (kv : KVStore) : list (Z * Z) :=
  omap (λ s, if s_occupied s then Some (s_key s, s_value s) else None) (slots_ kv).

Definition kv_for_each {A} (f : A → Z → Z → A) (kv : KVStore) (a : A) : A :=
  fold_left (λ a '(k, v), f a k v) (kv_entries kv) a.

Definition kv_checksum (kv : KVStore) : Z :=
  fold_left (λ sum s, if s_occupied s then u64 (sum + s_value s) else sum) (slots_ kv) 0.

(** ** The map the store denotes *)

Definition kv_map (kv : KVStore) : gmap Z Z := list_to_map (kv_entries kv).

(** ** Invariant *)

Definition slot_at (kv : KVStore) (i : Z) : Slot := nth (Z.to_nat i) (slots_ kv) empty_slot.

Definition occ (kv : KVStore) (i : Z) : bool := s_occupied (slot_at kv i).

Definition cap (kv : KVStore) : Z := mask_ kv + 1.

(** How far slot [i] is from the home slot of [key] along the probe path. *)
Definition probe_dist (kv : KVStore) (key i : Z) : Z := (i - key) `mod` cap kv.

Record kv_wf (kv : KVStore) : Prop := {
  wf_pow : ∃ e, 1 ≤ e ∧ mask_ kv = 2 ^ e - 1;
  wf_len : Z.of_nat (length (slots_ kv)) = cap kv;
  wf_size : size_ kv = Z.of_nat (length (kv_entries kv));
  wf_unique : ∀ i j, 0 ≤ i < cap kv → 0 ≤ j < cap kv → occ kv i = true → occ kv j = true →
    s_key (slot_at kv i) = s_key (slot_at kv j) → i = j;
  wf_chain : ∀ i d, 0 ≤ i < cap kv → occ kv i = true →
    0 ≤ d < probe_dist kv (s_key (slot_at kv i)) i →
    occ kv ((s_key (slot_at kv i) + d) `mod` cap kv) = true
}.

(** ** Lemmas *)

Lemma wf_cap_ge2 kv : kv_wf kv → 2 ≤ cap kv.
Proof.
  intros [(e & He & Hm) _ _ _ _]. unfold cap. rewrite Hm.
  assert (2 ^ 1 ≤ 2 ^ e) by (apply Z.pow_le_mono_r; lia). lia.
Qed.

Lemma land_mask kv x : kv_wf kv → Z.land x (mask_ kv) = x `mod` cap kv.
Proof.
  intros [(e & He & Hm) _ _ _ _]. unfold cap. rewrite Hm.
  replace (2 ^ e - 1) with (Z.ones e) by (rewrite Z.ones_equiv; lia).
  rewrite Z.land_ones by lia. f_equal. rewrite Z.ones_equiv. lia.
Qed.

Lemma rd_slot kv i : kv_wf kv → 0 ≤ i < cap kv → rd (slots_ kv) (Z.to_nat i) = Ret (slot_at kv i).
Proof. intros Hwf Hi. apply rd_total. pose proof (wf_len _ Hwf). lia. Qed.

Lemma elem_of_entries kv k v : kv_wf kv →
  (k, v) ∈ kv_entries kv ↔
  ∃ i, 0 ≤ i < cap kv ∧ occ kv i = true ∧ s_key (slot_at kv i) = k ∧ s_value (slot_at kv i) = v.
Proof.
  intros Hwf. unfold kv_entries. rewrite list_elem_of_omap. split.
  - intros (s & Hs & Hsome). apply list_elem_of_lookup in Hs as [i Hi].
    pose proof (lookup_lt_Some _ _ _ Hi). pose proof (wf_len _ Hwf).
    assert (slot_at kv (Z.of_nat i) = s) as Heq.
    { unfold slot_at. rewrite Nat2Z.id. by apply nth_lookup_Some. }
    exists (Z.of_nat i). unfold occ. rewrite Heq.
    destruct (s_occupied s); simplify_eq. split; [lia|done].
  - intros (i & Hi & Ho & <- & <-). exists (slot_at kv i). unfold occ in Ho. rewrite Ho.
    split; [|done]. apply list_elem_of_In, nth_In. pose proof (wf_len _ Hwf). lia.
Qed.

(** Two occupied slots in a list hold different keys, so the entries have no
    duplicate key. *)
Lemma entries_nodup kv : kv_wf kv → NoDup (kv_entries kv).*1.
Proof.
  intros Hwf. pose proof (wf_len _ Hwf) as Hlen. pose proof (wf_unique _ Hwf) as Hu.
  assert (∀ i j s t, slots_ kv !! i = Some s → slots_ kv !! j = Some t →
    s_occupied s = true → s_occupied t = true → s_key s = s_key t → i = j) as Hinj.
  { intros i j s t Hi Hj Hs Ht Hk.
    pose proof (lookup_lt_Some _ _ _ Hi). pose proof (lookup_lt_Some _ _ _ Hj).
    assert (slot_at kv (Z.of_nat i) = s) as Es
      by (unfold slot_at; rewrite Nat2Z.id; by apply nth_lookup_Some).
    assert (slot_at kv (Z.of_nat j) = t) as Et
      by (unfold slot_at; rewrite Nat2Z.id; by apply nth_lookup_Some).
    apply Nat2Z.inj, Hu; unfold occ; rewrite ?Es, ?Et; [lia|lia|done..]. }
  clear Hlen Hu Hwf. unfold kv_entries. induction (slots_ kv) as [|s l IH]; [constructor|].
  cbn. assert (NoDup (omap (λ s, if s_occupied s then Some (s_key s, s_value s) else None) l).*1).
  { apply IH. intros i j s1 t Hi Hj ???. apply (Hinj (S i) (S j) s1 t) in Hi; [lia|done..]. }
  destruct (s_occupied s) eqn:Es; [|done]. cbn. constructor; [|done].
  intros Hin. apply list_elem_of_fmap in Hin as ([k v] & Hk & Hin).
  apply list_elem_of_omap in Hin as (t & Ht & Hsome).
  destruct (s_occupied t) eqn:Eo; [|done]. injection Hsome as <- <-. cbn in Hk.
  apply list_elem_of_lookup in Ht as [j Hj].
  by specialize (Hinj 0%nat (S j) s t eq_refl Hj Es Eo Hk).
Qed.

Lemma kv_map_lookup kv k v : kv_wf kv →
  kv_map kv !! k = Some v ↔
  ∃ i, 0 ≤ i < cap kv ∧ occ kv i = true ∧ s_key (slot_at kv i) = k ∧ s_value (slot_at kv i) = v.
Proof.
  intros Hwf. unfold kv_map. rewrite <- elem_of_entries by done.
  symmetry. apply elem_of_list_to_map. by apply entries_nodup.
Qed.

Lemma kv_map_None kv k : kv_wf kv →
  (∀ i, 0 ≤ i < cap kv → occ kv i = true → s_key (slot_at kv i) ≠ k) → kv_map kv !! k = None.
Proof.
  intros Hwf H. destruct (kv_map kv !! k) as [v|] eqn:E; [|done].
  apply kv_map_lookup in E as (i & Hi & Ho & Hk & _); [|done]. by destruct (H i Hi Ho).
Qed.

(** *** The probe path *)

(** The first [d] slots of [key]'s probe path are occupied by other keys. *)
Definition probed (kv : KVStore) (key d : Z) : Prop :=
  ∀ d', 0 ≤ d' < d → occ kv ((key + d') `mod` cap kv) = true ∧
    s_key (slot_at kv ((key + d') `mod` cap kv)) ≠ key.

Lemma probe_at_dist kv key i : 0 < cap kv → 0 ≤ i < cap kv →
  (key + probe_dist kv key i) `mod` cap kv = i.
Proof.
  intros Hc Hi. unfold probe_dist. rewrite Z.add_mod_idemp_r by lia.
  replace (key + (i - key)) with i by lia. by apply Z.mod_small.
Qed.

(** After probing the whole table, or up to an empty slot, [key] is absent. *)
Lemma probed_absent kv key d : kv_wf kv → probed kv key d →
  (cap kv ≤ d ∨ 0 ≤ d ∧ occ kv ((key + d) `mod` cap kv) = false) →
  ∀ i, 0 ≤ i < cap kv → occ kv i = true → s_key (slot_at kv i) ≠ key.
Proof.
  intros Hwf Hp Hd i Hi Ho Hk. pose proof (wf_cap_ge2 _ Hwf).
  set (di := probe_dist kv key i).
  assert (0 ≤ di < cap kv) as Hdi by (apply Z.mod_pos_bound; lia).
  pose proof (probe_at_dist kv key i ltac:(lia) Hi) as Hat. fold di in Hat.
  destruct (Z.lt_trichotomy di d) as [Hlt|[Heq|Hgt]].
  - destruct (Hp di ltac:(lia)) as [_ Hne]. rewrite Hat in Hne. done.
  - destruct Hd as [?|[_ Hd]]; [lia|]. subst d. rewrite Hat in Hd. congruence.
  - destruct Hd as [?|[Hd0 Hd]]; [lia|].
    pose proof (wf_chain _ Hwf i d Hi Ho) as Hc. rewrite Hk in Hc.
    ospecialize (Hc _); [fold di; lia|]. congruence.
Qed.

Lemma next_index kv key d : kv_wf kv →
  Z.land ((key + d) `mod` cap kv + 1) (mask_ kv) = (key + (d + 1)) `mod` cap kv.
Proof.
  intros Hwf. pose proof (wf_cap_ge2 _ Hwf). rewrite land_mask by done.
  rewrite Z.add_mod_idemp_l by lia. f_equal. lia.
Qed.

Lemma probed_next kv key d : probed kv key d → 0 ≤ d →
  occ kv ((key + d) `mod` cap kv) = true →
  s_key (slot_at kv ((key + d) `mod` cap kv)) ≠ key → probed kv key (d + 1).
Proof.
  intros Hp Hd Ho Hk d' Hd'. destruct (decide (d' = d)) as [->|]; [done|].
  apply Hp. lia.
Qed.

(** *** [get] *)

Lemma get_loop_spec kv key fuel : kv_wf kv → ∀ d, 0 ≤ d → d + Z.of_nat fuel = cap kv →
  probed kv key d →
  get_loop fuel ((key + d) `mod` cap kv) kv key = Ret (kv_map kv !! key).
Proof.
  intros Hwf. pose proof (wf_cap_ge2 _ Hwf) as Hc.
  induction fuel as [|fuel IH]; intros d Hd Hf Hp.
  { cbn. f_equal. symmetry. apply kv_map_None; [done|].
    apply (probed_absent kv key d); auto with lia. }
  cbn [get_loop]. set (i := (key + d) `mod` cap kv).
  assert (0 ≤ i < cap kv) as Hi by (apply Z.mod_pos_bound; lia).
  rewrite rd_slot by done. cbn. fold (occ kv i).
  destruct (occ kv i) eqn:Ho; cbn.
  - destruct (Z.eqb_spec (s_key (slot_at kv i)) key) as [Hk|Hk].
    + f_equal. symmetry. apply kv_map_lookup; [done|]. eauto.
    + unfold i. rewrite next_index by done. apply IH; [lia|lia|].
      by apply probed_next.
  - f_equal. symmetry. apply kv_map_None; [done|].
    apply (probed_absent kv key d); auto.
Qed.

Lemma probed_0 kv key : probed kv key 0.
Proof. intros d' Hd'. lia. Qed.

(** A lookup always returns, and returns what the map holds. *)
Lemma kv_get_spec kv key : kv_wf kv → kv_get kv key = Ret (kv_map kv !! key).
Proof.
  intros Hwf. unfold kv_get. pose proof (wf_cap_ge2 _ Hwf) as Hc. fold (cap kv).
  rewrite land_mask by done.
  pose proof (get_loop_spec kv key (Z.to_nat (cap kv)) Hwf 0) as H.
  rewrite Z.add_0_r in H. apply H; [lia|lia|apply probed_0].
Qed.

(** *** [put] *)

Lemma slot_at_update kv sz i s j : kv_wf kv → 0 ≤ i < cap kv → 0 ≤ j →
  slot_at (mkKV (mask_ kv) sz (<[Z.to_nat i := s]> (slots_ kv))) j
  = if decide (j = i) then s else slot_at kv j.
Proof.
  intros Hwf Hi Hj. pose proof (wf_len _ Hwf) as Hlen. unfold slot_at. cbn [slots_].
  case_decide as E.
  - subst. apply nth_lookup_Some. rewrite list_lookup_insert_eq; [done|lia].
  - rewrite !nth_lookup, list_lookup_insert_ne by lia. done.
Qed.

Lemma entries_length_update (l : list Slot) (i : nat) s s' :
  l !! i = Some s → s_occupied s' = true →
  let f := λ s, if s_occupied s then Some (s_key s, s_value s) else None in
  Z.of_nat (length (omap f (<[i := s']> l)))
  = Z.of_nat (length (omap f l)) + (if s_occupied s then 0 else 1).
Proof.
  intros Hs Ho f. pose proof (lookup_lt_Some _ _ _ Hs).
  rewrite insert_take_drop by done. rewrite <- (take_drop_middle l i s) at 3 by done.
  unfold f. rewrite !omap_app, !length_app. cbn. rewrite Ho.
  destruct (s_occupied s); cbn; lia.
Qed.

(** Storing [key] in the slot its probe path has reached preserves the
    invariant and updates the map. *)
Lemma wf_update kv key value d sz :
  let i := (key + d) `mod` cap kv in
  let kv' := mkKV (mask_ kv) sz (<[Z.to_nat i := mkSlot key value true]> (slots_ kv)) in
  kv_wf kv → 0 ≤ d < cap kv → probed kv key d →
  (occ kv i = true → s_key (slot_at kv i) = key) →
  sz = size_ kv + (if occ kv i then 0 else 1) →
  kv_wf kv' ∧ kv_map kv' = <[key := value]> (kv_map kv).
Proof.
  intros i kv' Hwf Hd Hp Hk Hsz. pose proof (wf_cap_ge2 _ Hwf) as Hc.
  assert (0 ≤ i < cap kv) as Hi by (apply Z.mod_pos_bound; lia).
  assert (∀ j, 0 ≤ j → slot_at kv' j = if decide (j = i) then mkSlot key value true else slot_at kv j)
    as Hslot by (intros; by apply slot_at_update).
  assert (∀ j, 0 ≤ j → occ kv j = true → occ kv' j = true) as Hmono.
  { intros j Hj. unfold occ. rewrite Hslot by done. by case_decide. }
  (* the key is stored nowhere else *)
  assert (∀ j, 0 ≤ j < cap kv → occ kv j = true → j ≠ i → s_key (slot_at kv j) ≠ key) as Hother.
  { intros j Hj Ho Hne. destruct (occ kv i) eqn:Hoi.
    - intros Hkj. apply Hne. apply (wf_unique _ Hwf); try done. rewrite Hkj. symmetry. by apply Hk.
    - apply (probed_absent kv key d); auto with lia. }
  assert (kv_wf kv') as Hwf'.
  { split.
    - apply Hwf.
    - cbn. rewrite length_insert. apply Hwf.
    - cbn [size_ kv']. rewrite Hsz, (wf_size _ Hwf). unfold kv_entries, kv'. cbn [slots_].
      rewrite (entries_length_update _ _ (slot_at kv i)); [done| |done].
      pose proof (wf_len _ Hwf). unfold slot_at.
      destruct (lookup_lt_is_Some_2 (slots_ kv) (Z.to_nat i)) as [s Hs]; [lia|].
      rewrite Hs. f_equal. symmetry. by apply nth_lookup_Some.
    - change (cap kv') with (cap kv). unfold occ. intros j1 j2 H1 H2.
      rewrite !Hslot by lia. do 2 case_decide; cbn; subst; try done.
      + intros _ Ho Heq. by destruct (Hother j2 H2 Ho).
      + intros Ho _ Heq. by destruct (Hother j1 H1 Ho).
      + intros. by apply (wf_unique _ Hwf).
    - change (cap kv') with (cap kv). unfold probe_dist. change (cap kv') with (cap kv).
      intros j d' Hj. unfold occ at 1. rewrite (Hslot j) by lia. case_decide as E; cbn.
      + intros _ Hd'. apply Hmono; [apply Z.mod_pos_bound; lia|].
        subst j. unfold i in Hd'. rewrite Zminus_mod_idemp_l in Hd'.
        replace (key + d - key) with d in Hd' by lia. rewrite Z.mod_small in Hd' by lia.
        by apply Hp.
      + intros Ho Hd'. apply Hmono; [apply Z.mod_pos_bound; lia|].
        by apply (wf_chain _ Hwf). }
  split; [done|]. apply map_eq. intros k. apply option_eq. intros v.
  rewrite kv_map_lookup by done. change (cap kv') with (cap kv). rewrite lookup_insert.
  case_decide as E.
  - subst k. split.
    + intros (j & Hj & Ho & Hkj & Hv). unfold occ in Ho. rewrite (Hslot j) in * by lia.
      case_decide; [by cbn in Hv; subst|]. by destruct (Hother j Hj Ho).
    + intros [= <-]. exists i. unfold occ. rewrite Hslot by lia.
      by rewrite decide_True by done.
  - rewrite kv_map_lookup by done. split.
    + intros (j & Hj & Ho & Hkj & Hv). unfold occ in Ho. rewrite (Hslot j) in * by lia.
      case_decide; [by cbn in Hkj|]. exists j. by unfold occ.
    + intros (j & Hj & Ho & Hkj & Hv). exists j. unfold occ. rewrite (Hslot j) by lia.
      case_decide as Hji; [|done]. subst j. by rewrite (Hk Ho) in Hkj.
Qed.

(** What [put] promises. *)
Definition put_post (kv : KVStore) (key value : Z) (b : bool) (kv' : KVStore) : Prop :=
  if b then kv_wf kv' ∧ mask_ kv' = mask_ kv ∧ kv_map kv' = <[key := value]> (kv_map kv)
  else kv' = kv ∧ kv_map kv !! key = None ∧ size_ kv = cap kv.

(** A store every one of whose slots was probed is full. *)
Lemma probed_all_full kv key : kv_wf kv → probed kv key (cap kv) → size_ kv = cap kv.
Proof.
  intros Hwf Hp. pose proof (wf_cap_ge2 _ Hwf) as Hc. pose proof (wf_len _ Hwf) as Hlen.
  rewrite (wf_size _ Hwf), <- Hlen. f_equal. unfold kv_entries.
  assert (Forall (λ s, s_occupied s = true) (slots_ kv)) as Hall.
  { apply Forall_lookup. intros j s Hs. pose proof (lookup_lt_Some _ _ _ Hs).
    assert (slot_at kv (Z.of_nat j) = s) as <-
      by (unfold slot_at; rewrite Nat2Z.id; by apply nth_lookup_Some).
    rewrite <- (probe_at_dist kv key (Z.of_nat j)) by lia.
    apply Hp. apply Z.mod_pos_bound. lia. }
  clear -Hall. induction Hall as [|s l Hs _ IH]; [done|]. cbn. rewrite Hs. cbn. by rewrite IH.
Qed.

Lemma put_loop_spec kv key value fuel : kv_wf kv → ∀ d, 0 ≤ d → d + Z.of_nat fuel = cap kv →
  probed kv key d →
  ∃ b kv', put_loop fuel ((key + d) `mod` cap kv) kv key value = Ret (b, kv') ∧
    put_post kv key value b kv'.
Proof.
  intros Hwf. pose proof (wf_cap_ge2 _ Hwf) as Hc.
  induction fuel as [|fuel IH]; intros d Hd Hf Hp.
  { replace d with (cap kv) in Hp by lia. exists false, kv. split; [done|]. split; [done|]. split.
    - apply kv_map_None; [done|]. apply (probed_absent kv key (cap kv)); auto with lia.
    - by apply (probed_all_full kv key). }
  cbn [put_loop]. set (i := (key + d) `mod` cap kv).
  assert (0 ≤ i < cap kv) as Hi by (apply Z.mod_pos_bound; lia).
  rewrite rd_slot by done. cbn. fold (occ kv i). destruct (occ kv i) eqn:Ho; cbn.
  - destruct (Z.eqb_spec (s_key (slot_at kv i)) key) as [Hk|Hk].
    + rewrite Hk. eexists true, _. split; [done|].
      destruct (wf_update kv key value d (size_ kv) Hwf) as [? ?];
        [lia|done|done|fold i; rewrite Ho; lia|done].
    + unfold i. rewrite next_index by done. apply IH; [lia|lia|]. by apply probed_next.
  - eexists true, _. split; [done|].
    destruct (wf_update kv key value d (size_ kv + 1) Hwf) as [? ?];
      [lia|done|fold i; by rewrite Ho|fold i; by rewrite Ho|done].
Qed.

Lemma kv_put_spec kv key value : kv_wf kv →
  ∃ b kv', kv_put kv key value = Ret (b, kv') ∧ put_post kv key value b kv'.
Proof.
  intros Hwf. unfold kv_put. pose proof (wf_cap_ge2 _ Hwf) as Hc. fold (cap kv).
  rewrite land_mask by done.
  pose proof (put_loop_spec kv key value (Z.to_nat (cap kv)) Hwf 0) as H.
  rewrite Z.add_0_r in H. apply H; [lia|lia|apply probed_0].
Qed.

(** *** Construction *)

Lemma round_up_loop_spec e k n : 0 ≤ k → Z.of_nat e + k ≤ 63 → n ≤ 2 ^ (k + Z.of_nat e) →
  ∃ j, k ≤ j ≤ k + Z.of_nat e ∧ round_up_loop e (2 ^ k) n = Some (2 ^ j) ∧ n ≤ 2 ^ j ∧
       (j = k ∨ 2 ^ (j - 1) < n).
Proof.
  revert k. induction e as [|e IH]; intros k Hk Hle Hn; cbn [round_up_loop].
  { rewrite Z.add_0_r in Hn. destruct (Z.ltb_spec (2 ^ k) n); [lia|].
    exists k. split; [lia|]. split; [done|]. auto. }
  destruct (Z.ltb_spec (2 ^ k) n) as [Hlt|Hge].
  2:{ exists k. split; [lia|]. split; [done|]. split; [done|]. by left. }
  assert (u64 (Z.shiftl (2 ^ k) 1) = 2 ^ (k + 1)) as ->.
  { rewrite Z.shiftl_mul_pow2 by lia. rewrite Z.pow_add_r by lia. apply u64_small.
    assert (2 ^ k ≤ 2 ^ 62) by (apply Z.pow_le_mono_r; lia).
    assert (0 < 2 ^ k) by (apply Z.pow_pos_nonneg; lia). unfold in_u64. lia. }
  destruct (IH (k + 1)) as (j & Hj & -> & Hnj & Hmin); [lia|lia| |].
  { by replace (k + 1 + Z.of_nat e) with (k + Z.of_nat (S e)) by lia. }
  exists j. split; [lia|]. split; [done|]. split; [done|]. right.
  destruct Hmin as [->|]; [by replace (k + 1 - 1) with k by lia|done].
Qed.

Lemma entries_empty mask sz m : kv_entries (mkKV mask sz (replicate m empty_slot)) = [].
Proof. unfold kv_entries. cbn. by induction m. Qed.

Lemma make_wf e : 1 ≤ e → kv_wf (mkKV (2 ^ e - 1) 0 (replicate (Z.to_nat (2 ^ e)) empty_slot)).
Proof.
  intros He. assert (0 < 2 ^ e) by (apply Z.pow_pos_nonneg; lia).
  assert (∀ i, occ (mkKV (2 ^ e - 1) 0 (replicate (Z.to_nat (2 ^ e)) empty_slot)) i = false) as Ho.
  { intros i. unfold occ, slot_at. cbn. rewrite nth_lookup.
    destruct (_ !! _) as [s|] eqn:E; [|done].
    apply lookup_replicate in E as [-> _]. done. }
  split.
  - eauto.
  - cbn. rewrite length_replicate. unfold cap. cbn. lia.
  - by rewrite entries_empty.
  - intros i j _ _ Hi. by rewrite Ho in Hi.
  - intros i d _ Hi. by rewrite Ho in Hi.
Qed.

Lemma kv_map_make e : 1 ≤ e →
  kv_map (mkKV (2 ^ e - 1) 0 (replicate (Z.to_nat (2 ^ e)) empty_slot)) = ∅.
Proof.
  intros He. unfold kv_map. by rewrite entries_empty.
Qed.

(** ** Theorems *)

(** Capacities up to 2^63 are rounded up to the next power of two, at least 2,
    and the new store is well formed and empty. *)
Theorem kv_make_correct capacity :
  0 ≤ capacity ≤ 2 ^ 63 →
  ∃ kv, kv_make 63 capacity = Some kv ∧ kv_wf kv ∧ kv_map kv = ∅ ∧ capacity ≤ kv_capacity kv ∧
    (kv_capacity kv = 2 ∨ kv_capacity kv < 2 * capacity).
Proof.
  intros Hc. destruct (round_up_loop_spec 63 0 capacity) as (j & Hj & Hr & Hn & Hmin);
    [lia|lia|cbn; lia|].
  change (2 ^ 0) with 1 in Hr. unfold kv_make, round_up_pow2. rewrite Hr. cbn -[Z.pow Z.to_nat].
  destruct (Z.ltb_spec (2 ^ j) 2) as [Hlt|Hge].
  - eexists. split; [done|]. split; [apply (make_wf 1); lia|].
    split; [apply (kv_map_make 1); lia|]. unfold kv_capacity. cbn. lia.
  - assert (1 ≤ j).
    { destruct (Z.eq_dec j 0) as [->|]; [cbn in Hge; lia|lia]. }
    eexists. split; [done|]. split; [apply (make_wf j); lia|].
    split; [apply (kv_map_make j); lia|]. unfold kv_capacity. cbn. split; [lia|].
    destruct Hmin as [->|Hmin]; [lia|]. right.
    replace (2 ^ j) with (2 * 2 ^ (j - 1)); [lia|].
    rewrite <- Z.pow_succ_r by lia. f_equal. lia.
Qed.

Lemma kv_make_correct_witness : 0 ≤ 3 ≤ 2 ^ 63 ∧ ∃ kv, kv_make 63 3 = Some kv ∧ 3 ≤ kv_capacity kv.
Proof.
  split; [lia|]. destruct (kv_make_correct 3 ltac:(lia)) as (kv & H & _ & _ & Hle & _).
  exists kv. split; [exact H|exact Hle].
Defined.

(** C12: the store refines a finite map.  A lookup returns exactly what the
    map holds; a put either updates the map at its key alone or, when every
    slot holds some other key, reports failure and changes nothing; and both
    keep the probing invariant. *)
Theorem kvstore_refines_map kv key value :
  kv_wf kv →
  kv_get kv key = Ret (kv_map kv !! key) ∧
  ∃ b kv', kv_put kv key value = Ret (b, kv') ∧ kv_wf kv' ∧
    kv_map kv' = (if b then <[key := value]> (kv_map kv) else kv_map kv) ∧
    (b = false ↔ kv_map kv !! key = None ∧ size_ kv = kv_capacity kv).
Proof.
  intros Hwf. split; [by apply kv_get_spec|].
  destruct (kv_put_spec kv key value Hwf) as (b & kv' & Hput & Hpost).
  exists b, kv'. split; [done|]. destruct b; cbn in Hpost.
  - destruct Hpost as (Hwf' & Hmask & Hmap). split; [done|]. split; [done|]. split; [done|].
    intros [Hnone Hfull]. exfalso.
    (* a full store with one more key would have more entries than slots *)
    assert (size (kv_map kv') = S (size (kv_map kv))) as Hsz
      by (rewrite Hmap; by apply map_size_insert_None).
    assert (∀ kv, kv_wf kv → size (kv_map kv) = length (kv_entries kv)) as Hent.
    { intros kv0 H0. unfold kv_map. rewrite map_size_list_to_map;
        [done|by apply entries_nodup]. }
    rewrite !Hent in Hsz by done.
    pose proof (wf_size _ Hwf) as H1. pose proof (wf_len _ Hwf') as H2.
    unfold kv_capacity in Hfull. unfold cap in H2. rewrite Hmask in H2.
    assert (length (kv_entries kv') ≤ length (slots_ kv'))%nat; [|lia].
    unfold kv_entries. clear. induction (slots_ kv') as [|s l IH]; cbn; [lia|].
    destruct (s_occupied s); cbn; lia.
  - destruct Hpost as (-> & Hnone & Hfull). split; [done|]. split; [done|]. split; [|done].
    intros _. done.
Qed.

Lemma kvstore_refines_map_witness :
  let kv := mkKV 1 0 [empty_slot; empty_slot] in
  kv_wf kv ∧ kv_get kv 5 = Ret None ∧ ∃ b kv', kv_put kv 5 9 = Ret (b, kv') ∧ kv_wf kv'.
Proof.
  intros kv. assert (kv_wf kv) as Hwf by exact (make_wf 1 ltac:(lia)).
  split; [exact Hwf|].
  destruct (kvstore_refines_map kv 5 9 Hwf) as (Hget & b & kv' & Hput & Hwf' & _).
  split; [exact Hget|]. exists b, kv'. split; [exact Hput|exact Hwf'].
Defined.

(** *** The checksum *)

Definition sum_values (l : list (Z * Z)) : Z := foldr (λ '(_, v) acc, v + acc) 0 l.

Lemma checksum_entries kv : kv_checksum kv = u64 (sum_values (kv_entries kv)).
Proof.
  unfold kv_checksum, kv_entries.
  assert (∀ l s, fold_left (λ sum s, if s_occupied s then u64 (sum + s_value s) else sum) l (u64 s)
    = u64 (s + sum_values (omap (λ s, if s_occupied s then Some (s_key s, s_value s) else None) l)))
    as H.
  { induction l as [|x l IH]; intros s; cbn; [by rewrite Z.add_0_r|].
    destruct (s_occupied x); cbn; [|done]. rewrite u64_add_l, IH. f_equal. unfold sum_values. cbn. lia. }
  apply (H _ 0).
Qed.

Lemma sum_values_perm l1 l2 : l1 ≡ₚ l2 → sum_values l1 = sum_values l2.
Proof.
  unfold sum_values. induction 1 as [|[k v] l1 l2 _ IH|[k1 v1] [k2 v2] l|l1 l2 l3 _ IH1 _ IH2];
    cbn; lia.
Qed.

(** The fingerprint depends only on the contents: two stores that hold the
    same map have the same checksum, whatever their capacities and the order
    of the insertions that built them. *)
Theorem checksum_by_contents kv1 kv2 :
  kv_wf kv1 → kv_wf kv2 → kv_map kv1 = kv_map kv2 → kv_checksum kv1 = kv_checksum kv2.
Proof.
  intros H1 H2 Heq. rewrite !checksum_entries. f_equal. apply sum_values_perm.
  rewrite <- (map_to_list_to_map (M := gmap Z) (kv_entries kv1)) by (by apply entries_nodup).
  rewrite <- (map_to_list_to_map (M := gmap Z) (kv_entries kv2)) by (by apply entries_nodup).
  unfold kv_map in Heq. by rewrite Heq.
Qed.

Lemma checksum_by_contents_witness :
  let kv := mkKV 1 0 [empty_slot; empty_slot] in
  kv_wf kv ∧ kv_checksum kv = kv_checksum kv.
Proof.
  intros kv. assert (kv_wf kv) as Hwf by exact (make_wf 1 ltac:(lia)).
  split; [exact Hwf|]. exact (checksum_by_contents kv kv Hwf Hwf eq_refl).
Defined.
