(* ===== verification/FileSys.v ===== *)
(** * FileSys: the files the engine reads and writes

    A small model of the part of [stdio] and POSIX the program uses: files are
    byte strings with a durable prefix, [fsync] makes a file durable, [rename]
    replaces its target in one step for those that read it, and writes stop when
    the device is full.  A path in [fs_denied] cannot be opened for writing.
    Buffering inside [stdio] is not modelled: a write that returns has reached
    the file.

    What a power cut leaves is another matter.  No directory is ever synced, so
    a cut may undo a rename or a truncation; [disk] keeps, for every path, the
    states it went through since it was last synced, and [power_cut] keeps any of
    them, path by path, and of an unsynced file any prefix with its durable part. *)

From S2P Require Export Prelude.

Record file := mkFile { f_data : list byte; f_synced : nat }.

Record filesys := mkFS {
  fs_files : gmap string file;
  fs_room : nat;                         (* free bytes on the device *)
  fs_denied : gset string
}.

(** [fopen(p, "rb")] and reading it to the end. *)
Definition fs_read (fs : filesys) (p : string) : option (list byte) := f_data <$> fs_files fs !! p.

Definition fs_set (fs : filesys) (p : string) (f : file) (room : nat) : filesys :=
  mkFS (<[p := f]> (fs_files fs)) room (fs_denied fs).

Definition fs_size (fs : filesys) (p : string) : nat :=
  match fs_files fs !! p with Some f => length (f_data f) | None => 0 end.

(** [fopen(p, "ab")]: [None] is the null [FILE*]. *)
Definition fs_open_append (fs : filesys) (p : string) : option filesys :=
  if decide (p ∈ fs_denied fs) then None
  else match fs_files fs !! p with
       | Some _ => Some fs
       | None => Some (fs_set fs p (mkFile [] 0) (fs_room fs))
       end.

(** [fopen(p, "wb")]: truncates, giving the old bytes back to the device. *)
Definition fs_open_write (fs : filesys) (p : string) : option filesys :=
  if decide (p ∈ fs_denied fs) then None
  else Some (fs_set fs p (mkFile [] 0) (fs_room fs + fs_size fs p)).

(** [fwrite] at the end of an open file: how many bytes it took, and the state. *)
Definition fs_write (fs : filesys) (p : string) (bs : list byte) : nat * filesys :=
  match fs_files fs !! p with
  | None => (0%nat, fs)
  | Some f =>
      let n := Nat.min (length bs) (fs_room fs) in
      (n, fs_set fs p (mkFile (f_data f ++ take n bs) (f_synced f)) (fs_room fs - n))
  end.

Definition fs_sync (fs : filesys) (p : string) : filesys :=
  match fs_files fs !! p with
  | None => fs
  | Some f => fs_set fs p (mkFile (f_data f) (length (f_data f))) (fs_room fs)
  end.

Definition fs_remove (fs : filesys) (p : string) : filesys :=
  mkFS (delete p (fs_files fs)) (fs_room fs + fs_size fs p) (fs_denied fs).

(** [rename(a, b)]: fails when [a] is missing or [b] cannot be written. *)
Definition fs_rename (fs : filesys) (a b : string) : option filesys :=
  if decide (b ∈ fs_denied fs) then None
  else match fs_files fs !! a with
       | None => None
       | Some f => Some (mkFS (<[b := f]> (delete a (fs_files fs)))
                              (fs_room fs + fs_size fs b) (fs_denied fs))
       end.

(** What a crash leaves of a file. *)
Definition crash_of (f : file) (bs : list byte) : Prop :=
  ∃ k, (f_synced f ≤ k ≤ length (f_data f))%nat ∧ bs = take k (f_data f).

(** ** Sequences of calls, and what a power cut leaves of them *)

Inductive disk_call : Type :=
  | COpenWrite (p : string)                   (* fopen(p, wb) *)
  | COpenAppend (p : string)                  (* fopen(p, ab) *)
  | CWrite (p : string) (bs : list byte)      (* fwrite of one item *)
  | CSync (p : string)                        (* fsync *)
  | CRename (a b : string).

(** One call; [None] is a null [FILE*], a short write or a failed rename. *)
Definition disk_do (fs : filesys) (c : disk_call) : option filesys :=
  match c with
  | COpenWrite p => fs_open_write fs p
  | COpenAppend p => fs_open_append fs p
  | CWrite p bs => let '(n, fs') := fs_write fs p bs in if (n =? length bs)%nat then Some fs' else None
  | CSync p => Some (fs_sync fs p)
  | CRename a b => fs_rename fs a b
  end.

Fixpoint disk_run (fs : filesys) (cs : list disk_call) : option filesys :=
  match cs with
  | [] => Some fs
  | c :: cs' => fs1 ← disk_do fs c; disk_run fs1 cs'
  end.

(** The disk as a power cut sees it: the files now, and what was under each path
    in the states since its last [fsync]. *)
Record disk := mkDisk { d_now : filesys; d_past : string → list (option file) }.

Definition settled (fs : filesys) : disk := mkDisk fs (λ _, []).

Definition syncs (p : string) (c : disk_call) : bool :=
  match c with CSync q => String.eqb p q | _ => false end.

Definition disk_step (d : disk) (c : disk_call) : option disk :=
  fs' ← disk_do (d_now d) c;
  Some (mkDisk fs' (λ p, if syncs p c then [] else (fs_files (d_now d) !! p) :: d_past d p)).

Fixpoint disk_steps (d : disk) (cs : list disk_call) : option disk :=
  match cs with
  | [] => Some d
  | c :: cs' => d1 ← disk_step d c; disk_steps d1 cs'
  end.

(** What may be found under a path. *)
Definition may_hold (d : disk) (p : string) : list (option file) := (fs_files (d_now d) !! p) :: d_past d p.

Definition power_cut (d : disk) (fs' : filesys) : Prop :=
  fs_denied fs' = fs_denied (d_now d) ∧
  ∀ p, ∃ o, o ∈ may_hold d p ∧
    match o with
    | None => fs_files fs' !! p = None
    | Some f => ∃ f', fs_files fs' !! p = Some f' ∧ crash_of f (f_data f')
    end.

(** [fread] of [n] bytes in one item: the bytes and the rest of the stream,
    or [None] for a short read. *)
Definition fread (n : nat) (r : list byte) : option (list byte * list byte) :=
  if (length r <? n)%nat then None else Some (take n r, drop n r).

Definition fread_u32 (r : list byte) : option (Z * list byte) :=
  '(b, r') ← fread 4 r; Some (le_combine b, r').

Definition fread_u64 (r : list byte) : option (Z * list byte) :=
  '(b, r') ← fread 8 r; Some (le_combine b, r').

(** ** Lemmas *)

Lemma fread_app n a r : length a = n → fread n (a ++ r) = Some (a, r).
Proof.
  intros <-. unfold fread. rewrite length_app.
  destruct (Nat.ltb_spec (length a + length r) (length a)); [lia|].
  by rewrite take_app_length, drop_app_length.
Qed.

Lemma fread_short n r : (length r < n)%nat → fread n r = None.
Proof. intros H. unfold fread. apply Nat.ltb_lt in H. by rewrite H. Qed.

Lemma fread_u32_app z r : fread_u32 (le_u32 z ++ r) = Some (u32 z, r).
Proof.
  unfold fread_u32. rewrite fread_app by apply length_le_u32. cbn.
  by rewrite le_combine_u32.
Qed.

Lemma fread_u64_app z r : fread_u64 (le_u64 z ++ r) = Some (u64 z, r).
Proof.
  unfold fread_u64. rewrite fread_app by apply length_le_u64. cbn.
  by rewrite le_combine_u64.
Qed.

Lemma fread_Some n r b r' : fread n r = Some (b, r') → r = b ++ r' ∧ length b = n.
Proof.
  unfold fread. destruct (Nat.ltb_spec (length r) n); [done|].
  intros [= <- <-]. split; [by rewrite take_drop|]. rewrite length_take. lia.
Qed.

Lemma fread_u32_Some r z r' :
  fread_u32 r = Some (z, r') → ∃ b, r = b ++ r' ∧ length b = 4%nat ∧ z = le_combine b.
Proof.
  unfold fread_u32. destruct (fread 4 r) as [[b r1]|] eqn:E; cbn; [|done].
  intros [= <- <-]. apply fread_Some in E as [-> Hb]. eauto.
Qed.

Lemma fread_u32_short r : (length r < 4)%nat → fread_u32 r = None.
Proof. intros H. unfold fread_u32. by rewrite fread_short. Qed.

Lemma fread_u64_short r : (length r < 8)%nat → fread_u64 r = None.
Proof. intros H. unfold fread_u64. by rewrite fread_short. Qed.

Lemma fs_write_fits fs p f bs :
  fs_files fs !! p = Some f → (length bs ≤ fs_room fs)%nat →
  fs_write fs p bs = (length bs, fs_set fs p (mkFile (f_data f ++ bs) (f_synced f))
                                   (fs_room fs - length bs)).
Proof.
  intros Hf Hroom. unfold fs_write. rewrite Hf. rewrite Nat.min_l by done.
  by rewrite take_ge by done.
Qed.

Lemma fs_set_read fs p f room : fs_read (fs_set fs p f room) p = Some (f_data f).
Proof. unfold fs_read, fs_set. cbn. by rewrite lookup_insert_eq. Qed.

Lemma fs_set_read_ne fs p q f room : p ≠ q → fs_read (fs_set fs p f room) q = fs_read fs q.
Proof. intros H. unfold fs_read, fs_set. cbn. by rewrite lookup_insert_ne. Qed.

Lemma fs_write_read_ne fs p q bs : p ≠ q → fs_read (snd (fs_write fs p bs)) q = fs_read fs q.
Proof. intros H. unfold fs_write. destruct (_ !! p); [|done]. by apply fs_set_read_ne. Qed.

(** ** Lemmas: sequences of calls *)

Lemma disk_run_app fs cs1 cs2 : disk_run fs (cs1 ++ cs2) = (fs1 ← disk_run fs cs1; disk_run fs1 cs2).
Proof. revert fs. induction cs1 as [|c cs1 IH]; intros fs; [done|]. cbn. destruct (disk_do fs c); [apply IH|done]. Qed.

Lemma disk_steps_app d cs1 cs2 : disk_steps d (cs1 ++ cs2) = (d1 ← disk_steps d cs1; disk_steps d1 cs2).
Proof. revert d. induction cs1 as [|c cs1 IH]; intros d; [done|]. cbn. destruct (disk_step d c); [apply IH|done]. Qed.

(** The files of [disk_steps] are those of [disk_run]. *)
Lemma disk_steps_run cs : ∀ d fs', disk_run (d_now d) cs = Some fs' →
  ∃ d', disk_steps d cs = Some d' ∧ d_now d' = fs'.
Proof.
  induction cs as [|c cs IH]; intros d fs'; cbn; [intros [= <-]; eauto|].
  unfold disk_step. destruct (disk_do (d_now d) c) as [fs1|]; cbn; [|done]. intros H.
  by apply (IH (mkDisk fs1 _)).
Qed.

Lemma disk_run_prefix fs cs fs' k : disk_run fs cs = Some fs' → is_Some (disk_run fs (take k cs)).
Proof.
  rewrite <- (take_drop k cs) at 1. rewrite disk_run_app. by destruct (disk_run fs (take k cs)).
Qed.

(** The paths a call may change. *)
Definition touches (c : disk_call) : list string :=
  match c with
  | COpenWrite p | COpenAppend p | CWrite p _ | CSync p => [p]
  | CRename a b => [a; b]
  end.

Lemma disk_do_other fs c fs' p : disk_do fs c = Some fs' → p ∉ touches c → fs_files fs' !! p = fs_files fs !! p.
Proof.
  destruct c as [q|q|q bs|q|a b]; cbn; intros H Hp.
  - unfold fs_open_write in H. case_decide; [done|]. injection H as <-. cbn. apply lookup_insert_ne. set_solver.
  - unfold fs_open_append in H. case_decide; [done|]. destruct (_ !! q); injection H as <-; [done|].
    cbn. apply lookup_insert_ne. set_solver.
  - unfold fs_write in H. destruct (_ !! q); [destruct (_ =? _)%nat; [|done]|destruct (_ =? _)%nat; [|done]];
      injection H as <-; [|done]. cbn. apply lookup_insert_ne. set_solver.
  - injection H as <-. unfold fs_sync. destruct (_ !! q); [|done]. cbn. apply lookup_insert_ne. set_solver.
  - unfold fs_rename in H. case_decide; [done|]. destruct (_ !! a); [|done]. injection H as <-. cbn.
    rewrite lookup_insert_ne by set_solver. apply lookup_delete_ne. set_solver.
Qed.

Lemma disk_do_denied fs c fs' : disk_do fs c = Some fs' → fs_denied fs' = fs_denied fs.
Proof.
  destruct c as [q|q|q bs|q|a b]; cbn; intros H.
  - unfold fs_open_write in H. case_decide; [done|]. by injection H as <-.
  - unfold fs_open_append in H. case_decide; [done|]. destruct (_ !! q); by injection H as <-.
  - unfold fs_write in H. destruct (_ !! q); destruct (_ =? _)%nat; by try injection H as <-.
  - injection H as <-. unfold fs_sync. by destruct (_ !! q).
  - unfold fs_rename in H. case_decide; [done|]. destruct (_ !! a); [|done]. by injection H as <-.
Qed.

Lemma disk_steps_denied cs : ∀ d d', disk_steps d cs = Some d' → fs_denied (d_now d') = fs_denied (d_now d).
Proof.
  induction cs as [|c cs IH]; intros d d'; cbn; [by intros [= <-]|]. unfold disk_step at 1.
  destruct (disk_do (d_now d) c) as [fs1|] eqn:E; cbn; [|done]. intros ->%IH. cbn. by apply disk_do_denied in E.
Qed.

(** What may be found under a path after a call: what is there now, or what might
    have been found before, unless the call synced it. *)
Lemma disk_step_may d c d' p o :
  disk_step d c = Some d' → o ∈ may_hold d' p →
  o = fs_files (d_now d') !! p ∨ (syncs p c = false ∧ o ∈ may_hold d p).
Proof.
  unfold disk_step. destruct (disk_do (d_now d) c) as [fs1|]; cbn; [|done]. intros [= <-].
  unfold may_hold. cbn. rewrite elem_of_cons. intros [->|H]; [by left|]. destruct (syncs p c); [set_solver|by right].
Qed.

Lemma disk_step_now d c d' : disk_step d c = Some d' → disk_do (d_now d) c = Some (d_now d').
Proof. unfold disk_step. destruct (disk_do (d_now d) c); cbn; [|done]. by intros [= <-]. Qed.

Lemma disk_steps_now cs : ∀ d d', disk_steps d cs = Some d' → disk_run (d_now d) cs = Some (d_now d').
Proof.
  induction cs as [|c cs IH]; intros d d'; cbn; [by intros [= <-]|].
  destruct (disk_step d c) as [d1|] eqn:E; cbn; [|done]. rewrite (disk_step_now _ _ _ E). cbn. apply IH.
Qed.

(** A property of a path that every call keeps holds of all that may be found there. *)
Lemma disk_steps_inv p (P : option file → Prop) cs :
  (∀ c fs fs', c ∈ cs → disk_do fs c = Some fs' → P (fs_files fs !! p) → P (fs_files fs' !! p)) →
  ∀ d d', disk_steps d cs = Some d' → (∀ o, o ∈ may_hold d p → P o) → ∀ o, o ∈ may_hold d' p → P o.
Proof.
  induction cs as [|c cs IH]; intros Hcs d d'; cbn; [by intros [= <-]|].
  destruct (disk_step d c) as [d1|] eqn:E; cbn; [|done]. intros Hs HP.
  apply (IH (λ c' fs fs' Hc, Hcs c' fs fs' (list_elem_of_further _ _ _ Hc)) d1 d'); [done|].
  intros o Ho. destruct (disk_step_may _ _ _ _ _ E Ho) as [->|[_ Ho']]; [|by apply HP].
  apply (Hcs c (d_now d)); [apply list_elem_of_here|by apply disk_step_now|apply HP; apply list_elem_of_here].
Qed.

(** A path the calls leave alone keeps what might be found under it. *)
Lemma disk_steps_other p (P : option file → Prop) cs d d' :
  disk_steps d cs = Some d' → Forall (λ c, p ∉ touches c) cs →
  (∀ o, o ∈ may_hold d p → P o) → ∀ o, o ∈ may_hold d' p → P o.
Proof.
  intros Hs Hcs HP. rewrite Forall_forall in Hcs. apply (disk_steps_inv p P cs) with (d := d); [|done..].
  intros c fs fs' Hc Hdo. by rewrite (disk_do_other _ _ _ _ Hdo (Hcs c Hc)).
Qed.

(** What may be found under a path stays possible until the path is synced. *)
Lemma disk_steps_keep p o cs : ∀ d d',
  disk_steps d cs = Some d' → Forall (λ c, syncs p c = false) cs → o ∈ may_hold d p → o ∈ may_hold d' p.
Proof.
  induction cs as [|c cs IH]; intros d d'; cbn; [by intros [= <-]|].
  destruct (disk_step d c) as [d1|] eqn:E; cbn; [|done]. intros Hs [Hc Hcs]%Forall_cons Ho.
  apply (IH d1 d'); [done..|]. unfold disk_step in E. destruct (disk_do (d_now d) c); cbn in E; [|done].
  injection E as <-. unfold may_hold. cbn. rewrite Hc. by apply list_elem_of_further.
Qed.
