(* ===== verification/ColdStore.v ===== *)
(** * ColdStore: the write-ahead log of [cold_store.hpp]

    Records are [[u32 length][u32 crc32(payload)][payload]]; replay applies the
    put records in order, buffers transactional puts until a commit marker,
    and stops at the first short or corrupt record. *)

From S2P Require Export FileSys Types.

(** ** State and constants *)

Inductive SyncPolicy : Type := SYNC_EACH | SYNC_OFF.

#[export] Instance SyncPolicy_eq_dec : EqDecision SyncPolicy.
Proof. solve_decision. Defined.

Definition MATRIX_WAL_PAYLOAD_BYTES : Z := 20.
Definition MATRIX_WAL_MAX_RECORD : Z := 4096.
Definition MATRIX_WAL_COMMIT_BYTES : Z := 4.
Definition MATRIX_WAL_COMMIT : Z := 0x434F4D4D.

Record ColdStore := mkCS { cs_path : string; cs_policy : SyncPolicy; cs_records_written : Z }.

(** ** CRC-32 *)

Definition CRC_POLY : Z := 0xEDB88320.

Definition crc_bit (crc : Z) : Z :=
  if negb (Z.land crc 1 =? 0) then Z.lxor (Z.shiftr crc 1) CRC_POLY else Z.shiftr crc 1.

Definition crc_byte (crc : Z) (b : byte) : Z := Nat.iter 8 crc_bit (Z.lxor crc (byte.unsigned b)).

Definition matrix_crc32 (data : list byte) : Z :=
  Z.lxor (fold_left crc_byte data 0xFFFFFFFF) 0xFFFFFFFF.

(** ** Writing *)

(** The bytes of one record. *)
Definition record_bytes (body : list byte) : list byte :=
  le_u32 (Z.of_nat (length body)) ++ le_u32 (matrix_crc32 body) ++ body.

Definition put_payload (opcode key value : Z) : list byte :=
  le_u64 key ++ le_u64 value ++ le_u32 opcode.

Definition fs_append (fs : filesys) (p : string) (bs : list byte) : filesys :=
  snd (fs_write fs p bs).

Definition sync_if (fs : filesys) (cs : ColdStore) : filesys :=
  match cs_policy cs with SYNC_EACH => fs_sync fs (cs_path cs) | SYNC_OFF => fs end.

Definition cs_open (fs : filesys) (path : string) (policy : SyncPolicy) :
    outcome (ColdStore * filesys) :=
  match fs_open_append fs path with
  | None => Crash Aborted
  | Some fs' => Ret (mkCS path policy 0, fs')
  end.

(** Three writes whose results are not examined, then the sync the policy asks for. *)
Definition write_record (fs : filesys) (cs : ColdStore) (body : list byte) : ColdStore * filesys :=
  let fs1 := fs_append fs (cs_path cs) (le_u32 (Z.of_nat (length body))) in
  let fs2 := fs_append fs1 (cs_path cs) (le_u32 (matrix_crc32 body)) in
  let fs3 := fs_append fs2 (cs_path cs) body in
  (mkCS (cs_path cs) (cs_policy cs) (cs_records_written cs + 1), sync_if fs3 cs).

Definition append_record (fs : filesys) (cs : ColdStore) (opcode key value : Z) : ColdStore * filesys :=
  write_record fs cs (put_payload opcode key value).

Definition append_put (fs : filesys) (cs : ColdStore) (key value : Z) : ColdStore * filesys :=
  append_record fs cs OP_WRITE key value.

Definition append_txn_put (fs : filesys) (cs : ColdStore) (key value : Z) : ColdStore * filesys :=
  append_record fs cs OP_TXN_WRITE key value.

Definition append_commit (fs : filesys) (cs : ColdStore) : ColdStore * filesys :=
  write_record fs cs (le_u32 MATRIX_WAL_COMMIT).

(** The calls of [truncate] on the disk, in order, and the log they leave. *)
Definition truncate_calls (cs : ColdStore) : list disk_call :=
  COpenWrite (cs_path cs) ::
  match cs_policy cs with SYNC_EACH => [CSync (cs_path cs)] | SYNC_OFF => [] end ++
  [COpenAppend (cs_path cs)].

Definition truncated (cs : ColdStore) : ColdStore := mkCS (cs_path cs) (cs_policy cs) 0.

(** ** Replay *)

(** What a record with an intact checksum does: the puts it applies and the
    transaction buffer it leaves. *)
Definition replay_record (buf : list byte) (txn : list (Z * Z)) : list (Z * Z) * list (Z * Z) :=
  if Z.of_nat (length buf) =? MATRIX_WAL_PAYLOAD_BYTES then
    let opcode := le_combine (take 4 (drop 16 buf)) in
    let key := le_combine (take 8 buf) in
    let value := le_combine (take 8 (drop 8 buf)) in
    if opcode =? OP_WRITE then ([(key, value)], txn)
    else if opcode =? OP_TXN_WRITE then ([], txn ++ [(key, value)])
    else ([], txn)
  else if Z.of_nat (length buf) =? MATRIX_WAL_COMMIT_BYTES then
    if le_combine (take 4 buf) =? MATRIX_WAL_COMMIT then (txn, []) else ([], txn)
  else ([], txn).

(** The [for (;;)] loop over the stream [r]; every iteration that does not
    break consumes at least nine bytes, so [length r] iterations are enough. *)
Fixpoint replay_loop (fuel : nat) (r : list byte) (txn : list (Z * Z)) : list (Z * Z) :=
  match fuel with
  | O => []
  | S fuel' =>
      match fread_u32 r with
      | None => []
      | Some (len, r1) =>
          if (len =? 0) || (MATRIX_WAL_MAX_RECORD <? len) then [] else
          match fread_u32 r1 with
          | None => []
          | Some (crc, r2) =>
              match fread (Z.to_nat len) r2 with
              | None => []
              | Some (buf, r3) =>
                  if negb (matrix_crc32 buf =? crc) then [] else
                  let '(applied, txn') := replay_record buf txn in
                  applied ++ replay_loop fuel' r3 txn'
              end
          end
      end
  end.

Definition replay_bytes (r : list byte) : list (Z * Z) := replay_loop (S (length r)) r [].

(** The calls [replay] makes to its callback, in order. *)
Definition replay (fs : filesys) (cs : ColdStore) : list (Z * Z) :=
  match fs_read fs (cs_path cs) with None => [] | Some r => replay_bytes r end.

(** ** Abstract log *)

Inductive wal_op : Type :=
  | WPut (key value : Z)
  | WTxnPut (key value : Z)
  | WCommit.

Definition wal_wf (op : wal_op) : Prop :=
  match op with WPut k v | WTxnPut k v => in_u64 k ∧ in_u64 v | WCommit => True end.

Definition op_body (op : wal_op) : list byte :=
  match op with
  | WPut k v => put_payload OP_WRITE k v
  | WTxnPut k v => put_payload OP_TXN_WRITE k v
  | WCommit => le_u32 MATRIX_WAL_COMMIT
  end.

Definition log_bytes (ops : list wal_op) : list byte := concat (map (λ op, record_bytes (op_body op)) ops).

(** What a log means: auto-commit puts apply at once, transactional puts when
    their commit marker arrives.  The state is the puts applied so far and the
    transactional puts still waiting. *)
Definition log_step (s : list (Z * Z) * list (Z * Z)) (op : wal_op) : list (Z * Z) * list (Z * Z) :=
  let '(applied, txn) := s in
  match op with
  | WPut k v => (applied ++ [(k, v)], txn)
  | WTxnPut k v => (applied, txn ++ [(k, v)])
  | WCommit => (applied ++ txn, [])
  end.

Definition log_run (ops : list wal_op) (txn : list (Z * Z)) : list (Z * Z) * list (Z * Z) :=
  fold_left log_step ops ([], txn).

Definition log_puts (ops : list wal_op) : list (Z * Z) := fst (log_run ops []).

(** How many whole records the first [n] bytes of a log hold. *)
Fixpoint complete_records (n : nat) (ops : list wal_op) : nat :=
  match ops with
  | [] => 0
  | op :: ops' =>
      let len := length (record_bytes (op_body op)) in
      if (len <=? n)%nat then S (complete_records (n - len) ops') else 0
  end.

(** ** Lemmas: CRC-32 *)

Lemma lxor_u32 a b : in_u32 a → in_u32 b → in_u32 (Z.lxor a b).
Proof.
  unfold in_u32. intros Ha Hb. split; [apply Z.lxor_nonneg; lia|].
  assert (Z.lxor a b = Z.lxor a b `mod` 2 ^ 32) as ->; [|apply Z.mod_pos_bound; lia].
  symmetry. rewrite <- Z.land_ones by lia. apply Z.bits_inj'. intros i Hi.
  rewrite Z.land_spec, Z.lxor_spec. destruct (Z.lt_ge_cases i 32).
  - rewrite Z.ones_spec_low by lia. by rewrite andb_true_r.
  - rewrite Z.ones_spec_high by lia. rewrite andb_false_r.
    rewrite <- (Z.mod_small a (2 ^ 32)), <- (Z.mod_small b (2 ^ 32)) by lia.
    by rewrite !Z.mod_pow2_bits_high by lia.
Qed.

Lemma crc_bit_u32 x : in_u32 x → in_u32 (crc_bit x).
Proof.
  intros Hx. assert (in_u32 (Z.shiftr x 1)).
  { unfold in_u32 in *. rewrite Z.shiftr_div_pow2 by lia. change (2 ^ 1) with 2.
    split; [apply Z.div_pos; lia|]. apply Z.div_lt_upper_bound; lia. }
  unfold crc_bit. destruct (negb _); [|done]. apply lxor_u32; [done|].
  unfold in_u32, CRC_POLY. lia.
Qed.

Lemma land_1 x : Z.land x 1 = if Z.odd x then 1 else 0.
Proof. change 1 with (Z.ones 1). rewrite Z.land_ones by lia. apply Zmod_odd. Qed.

(** The top bit of a step's result tells whether the polynomial was applied,
    so the step can be undone. *)
Lemma crc_bit_inj x y : in_u32 x → in_u32 y → crc_bit x = crc_bit y → x = y.
Proof.
  assert (∀ z, in_u32 z → Z.testbit (Z.shiftr z 1) 31 = false) as Htop.
  { intros z Hz. rewrite Z.shiftr_spec by lia.
    rewrite <- (Z.mod_small z (2 ^ 32)) by (unfold in_u32 in Hz; lia).
    by rewrite Z.mod_pow2_bits_high by lia. }
  intros Hx Hy. unfold crc_bit. rewrite !land_1.
  assert (∀ z, z = Z.b2z (Z.odd z) + 2 * Z.shiftr z 1) as Hsplit.
  { intros z. rewrite Z.shiftr_div_pow2 by lia. change (2 ^ 1) with 2.
    pose proof (Z.div_mod z 2 ltac:(lia)) as Hd. rewrite Zmod_odd in Hd.
    destruct (Z.odd z); cbn [Z.b2z]; lia. }
  intros Heq. rewrite (Hsplit x), (Hsplit y).
  destruct (Z.odd x), (Z.odd y); cbn [Z.eqb negb Z.b2z] in *.
  - apply (f_equal (λ z, Z.lxor z CRC_POLY)) in Heq.
    by rewrite !Z.lxor_assoc, !Z.lxor_nilpotent, !Z.lxor_0_r in Heq; rewrite Heq.
  - exfalso. apply (f_equal (λ z, Z.testbit z 31)) in Heq.
    by rewrite Z.lxor_spec, !Htop in Heq by done.
  - exfalso. apply (f_equal (λ z, Z.testbit z 31)) in Heq.
    by rewrite Z.lxor_spec, !Htop in Heq by done.
  - by rewrite Heq.
Qed.

Lemma iter_crc_bit n x y : in_u32 x → in_u32 y →
  in_u32 (Nat.iter n crc_bit x) ∧ (Nat.iter n crc_bit x = Nat.iter n crc_bit y → x = y).
Proof.
  intros Hx Hy. assert (∀ z, in_u32 z → in_u32 (Nat.iter n crc_bit z)) as Hr.
  { intros z Hz. induction n; cbn; [done|]. by apply crc_bit_u32. }
  split; [by apply Hr|]. clear Hr.
  assert (∀ z, in_u32 z → ∀ n, in_u32 (Nat.iter n crc_bit z)) as Hr.
  { intros z Hz m. induction m; cbn; [done|]. by apply crc_bit_u32. }
  induction n as [|n IH]; cbn; [done|]. intros H. apply IH, crc_bit_inj; auto.
Qed.

Lemma byte_u32 b : in_u32 (byte.unsigned b).
Proof. pose proof (byte.unsigned_range b). unfold in_u32. lia. Qed.

Lemma lxor_cancel_l a b c : Z.lxor a b = Z.lxor a c → b = c.
Proof.
  intros H. apply (f_equal (Z.lxor a)) in H.
  by rewrite <- !Z.lxor_assoc, Z.lxor_nilpotent, !Z.lxor_0_l in H.
Qed.

Lemma crc_byte_u32 s b : in_u32 s → in_u32 (crc_byte s b).
Proof. intros Hs. apply (iter_crc_bit 8 _ 0); [apply lxor_u32; [done|apply byte_u32]|by unfold in_u32]. Qed.

Lemma crc_byte_inj_state s1 s2 b : in_u32 s1 → in_u32 s2 → crc_byte s1 b = crc_byte s2 b → s1 = s2.
Proof.
  intros H1 H2 H. apply iter_crc_bit in H; [|by apply lxor_u32; [|apply byte_u32]..].
  rewrite (Z.lxor_comm s1), (Z.lxor_comm s2) in H. by apply lxor_cancel_l in H.
Qed.

Lemma crc_byte_inj_byte s b1 b2 : in_u32 s → crc_byte s b1 = crc_byte s b2 → b1 = b2.
Proof.
  intros Hs H. apply iter_crc_bit in H; [|by apply lxor_u32; [|apply byte_u32]..].
  apply lxor_cancel_l in H. by apply byte.unsigned_inj.
Qed.

Lemma crc_fold_u32 l : ∀ s, in_u32 s → in_u32 (fold_left crc_byte l s).
Proof. induction l as [|b l IH]; cbn; intros s Hs; [done|]. by apply IH, crc_byte_u32. Qed.

Lemma crc_fold_inj l : ∀ s1 s2, in_u32 s1 → in_u32 s2 →
  fold_left crc_byte l s1 = fold_left crc_byte l s2 → s1 = s2.
Proof.
  induction l as [|b l IH]; cbn; intros s1 s2 H1 H2 H; [done|].
  apply IH in H; [|by apply crc_byte_u32..]. by apply crc_byte_inj_state in H.
Qed.

Lemma crc_init_u32 : in_u32 0xFFFFFFFF.
Proof. unfold in_u32. lia. Qed.

Lemma matrix_crc32_u32 data : in_u32 (matrix_crc32 data).
Proof. apply lxor_u32; [by apply crc_fold_u32, crc_init_u32|apply crc_init_u32]. Qed.

Lemma crc_detects_byte pre b1 b2 post :
  b1 ≠ b2 → matrix_crc32 (pre ++ b1 :: post) ≠ matrix_crc32 (pre ++ b2 :: post).
Proof.
  intros Hne H. unfold matrix_crc32 in H. rewrite !(Z.lxor_comm _ 0xFFFFFFFF) in H.
  apply lxor_cancel_l in H. rewrite !fold_left_app in H. cbn in H.
  apply crc_fold_inj in H; [|by apply crc_byte_u32, crc_fold_u32, crc_init_u32..].
  apply crc_byte_inj_byte in H; [done|by apply crc_fold_u32, crc_init_u32].
Qed.

(** ** Lemmas: replay *)

Lemma length_put_payload o k v : length (put_payload o k v) = 20%nat.
Proof. unfold put_payload. by rewrite !length_app, !length_le_u64, length_le_u32. Qed.

Lemma length_op_body op : length (op_body op) = 20%nat ∨ length (op_body op) = 4%nat.
Proof. destruct op; cbn [op_body]; rewrite ?length_put_payload, ?length_le_u32; auto. Qed.

Lemma length_record body : length (record_bytes body) = (8 + length body)%nat.
Proof. unfold record_bytes. rewrite !length_app, !length_le_u32. lia. Qed.

(** The rest of the stream is shorter, so any two sufficient amounts of fuel agree. *)
Lemma replay_loop_fuel n : ∀ r txn f1 f2, (length r ≤ n)%nat → (length r < f1)%nat → (length r < f2)%nat →
  replay_loop f1 r txn = replay_loop f2 r txn.
Proof.
  induction n as [|n IH]; intros r txn f1 f2 Hn H1 H2;
    (destruct f1 as [|f1]; [lia|]); (destruct f2 as [|f2]; [lia|]); cbn [replay_loop].
  { destruct r; [done|cbn in Hn; lia]. }
  destruct (fread_u32 r) as [[len r1]|] eqn:E1; [|done].
  apply fread_u32_Some in E1 as (b1 & -> & Hb1 & _). rewrite length_app in *.
  destruct ((len =? 0) || _); [done|].
  destruct (fread_u32 r1) as [[crc r2]|] eqn:E2; [|done].
  apply fread_u32_Some in E2 as (b2 & -> & Hb2 & _). rewrite length_app in *.
  destruct (fread (Z.to_nat len) r2) as [[buf r3]|] eqn:E3; [|done].
  apply fread_Some in E3 as [-> Hb3]. rewrite length_app in *.
  destruct (negb _); [done|]. destruct (replay_record buf txn) as [a t].
  f_equal. apply IH; lia.
Qed.

Definition replay_from (r : list byte) (txn : list (Z * Z)) : list (Z * Z) :=
  replay_loop (S (length r)) r txn.

Lemma replay_from_record body r txn :
  (0 < length body ≤ 4096)%nat →
  replay_from (record_bytes body ++ r) txn
  = (let '(a, t) := replay_record body txn in a ++ replay_from r t).
Proof.
  intros Hb. unfold replay_from at 1.
  assert (length r < length (record_bytes body ++ r))%nat as Hf
    by (rewrite length_app, length_record; lia).
  revert Hf. generalize (length (record_bytes body ++ r)). intros f Hf. cbn [replay_loop].
  unfold record_bytes. rewrite <- !app_assoc, fread_u32_app.
  rewrite u32_small by (unfold in_u32; lia).
  destruct (Z.eqb_spec (Z.of_nat (length body)) 0); [lia|].
  destruct (Z.ltb_spec MATRIX_WAL_MAX_RECORD (Z.of_nat (length body)));
    [unfold MATRIX_WAL_MAX_RECORD in *; lia|]. cbn [orb].
  rewrite fread_u32_app, (u32_small (matrix_crc32 body)) by apply matrix_crc32_u32.
  rewrite Nat2Z.id, fread_app by done. rewrite Z.eqb_refl. cbn [negb].
  destruct (replay_record body txn) as [a t]. f_equal.
  apply (replay_loop_fuel (length r)); lia.
Qed.

(** A record cut short stops replay at once. *)
Lemma replay_from_torn body k txn :
  (0 < length body ≤ 4096)%nat → (k < length (record_bytes body))%nat →
  replay_from (take k (record_bytes body)) txn = [].
Proof.
  intros Hb Hk. rewrite length_record in Hk. unfold replay_from. cbn [replay_loop].
  assert (length (take k (record_bytes body)) = k) as Hlen
    by (rewrite length_take, length_record; lia).
  destruct (fread_u32 _) as [[len r1]|] eqn:E1; [|done].
  destruct (decide (k < 4)%nat); [rewrite fread_u32_short in E1 by lia; done|].
  unfold record_bytes in E1. rewrite take_app_ge in E1 by (rewrite length_le_u32; lia).
  rewrite fread_u32_app, length_le_u32 in E1. apply Some_pair_inj in E1 as [<- <-].
  rewrite u32_small by (unfold in_u32; lia).
  destruct (_ || _); [done|].
  destruct (fread_u32 _) as [[crc r2]|] eqn:E2; [|done].
  destruct (decide (k < 8)%nat);
    [rewrite fread_u32_short in E2 by (rewrite length_take; lia); done|].
  rewrite take_app_ge in E2 by (rewrite length_le_u32; lia).
  rewrite fread_u32_app, length_le_u32 in E2. apply Some_pair_inj in E2 as [<- <-].
  by rewrite Nat2Z.id, fread_short by (rewrite length_take; lia).
Qed.

Lemma payload_key o k v : le_combine (take 8 (put_payload o k v)) = u64 k.
Proof.
  unfold put_payload. by rewrite (take_app_length' (le_u64 k)), le_combine_u64
    by (by rewrite length_le_u64).
Qed.

Lemma payload_value o k v : le_combine (take 8 (drop 8 (put_payload o k v))) = u64 v.
Proof.
  unfold put_payload. rewrite (drop_app_length' (le_u64 k)) by (by rewrite length_le_u64).
  by rewrite (take_app_length' (le_u64 v)), le_combine_u64 by (by rewrite length_le_u64).
Qed.

Lemma payload_opcode o k v : le_combine (take 4 (drop 16 (put_payload o k v))) = u32 o.
Proof.
  unfold put_payload. rewrite app_assoc, (drop_app_length' (le_u64 k ++ le_u64 v))
    by (by rewrite length_app, !length_le_u64).
  by rewrite take_ge, le_combine_u32 by (rewrite length_le_u32; lia).
Qed.

Lemma replay_record_op op txn : wal_wf op →
  replay_record (op_body op) txn = log_step ([], txn) op.
Proof.
  assert (∀ o k v, in_u32 o → in_u64 k → in_u64 v →
    replay_record (put_payload o k v) txn
    = if o =? OP_WRITE then ([(k, v)], txn)
      else if o =? OP_TXN_WRITE then ([], txn ++ [(k, v)]) else ([], txn)) as Hput.
  { intros o k v Ho Hk Hv. unfold replay_record. rewrite length_put_payload.
    change (Z.of_nat 20 =? MATRIX_WAL_PAYLOAD_BYTES) with true. cbv iota.
    rewrite payload_key, payload_value, payload_opcode.
    by rewrite !u64_small, u32_small by done. }
  destruct op as [k v|k v|]; cbn [op_body wal_wf].
  - intros [Hk Hv]. rewrite Hput; [done|unfold in_u32, OP_WRITE; lia|done..].
  - intros [Hk Hv]. rewrite Hput; [done|unfold in_u32, OP_TXN_WRITE; lia|done..].
  - intros _. reflexivity.
Qed.

Lemma log_step_applied a txn op :
  log_step (a, txn) op = (a ++ fst (log_step ([], txn) op), snd (log_step ([], txn) op)).
Proof. destruct op; cbn; by rewrite ?app_nil_r. Qed.

Lemma log_run_applied ops : ∀ a txn,
  fold_left log_step ops (a, txn) = (a ++ fst (log_run ops txn), snd (log_run ops txn)).
Proof.
  induction ops as [|op ops IH]; intros a txn; [cbn; by rewrite app_nil_r|].
  unfold log_run. cbn [fold_left]. rewrite (log_step_applied a).
  destruct (log_step ([], txn) op) as [b t]. cbn [fst snd].
  rewrite IH, (IH b). cbn. by rewrite app_assoc.
Qed.

Lemma replay_from_log ops r : Forall wal_wf ops → ∀ txn,
  replay_from (log_bytes ops ++ r) txn
  = fst (log_run ops txn) ++ replay_from r (snd (log_run ops txn)).
Proof.
  induction 1 as [|op ops Hop _ IH]; intros txn; [done|].
  unfold log_bytes. cbn [map concat]. rewrite <- app_assoc, replay_from_record
    by (destruct (length_op_body op); lia).
  rewrite replay_record_op by done. fold (log_bytes ops).
  unfold log_run. cbn [fold_left]. destruct (log_step ([], txn) op) as [a t].
  rewrite IH, log_run_applied. cbn. by rewrite app_assoc.
Qed.

Lemma replay_from_nil txn : replay_from [] txn = [].
Proof. done. Qed.

Lemma replay_from_prefix ops : Forall wal_wf ops → ∀ n txn,
  replay_from (take n (log_bytes ops)) txn = fst (log_run (take (complete_records n ops) ops) txn).
Proof.
  induction 1 as [|op ops Hop _ IH]; intros n txn.
  { cbn. by rewrite take_nil. }
  unfold log_bytes. cbn [map concat complete_records]. fold (log_bytes ops).
  set (rec := record_bytes (op_body op)).
  destruct (Nat.leb_spec (length rec) n) as [Hle|Hgt].
  - rewrite take_app_ge by done. unfold rec at 1. rewrite replay_from_record
      by (destruct (length_op_body op); lia).
    rewrite replay_record_op by done. cbn [take]. unfold log_run. cbn [fold_left].
    destruct (log_step ([], txn) op) as [a t]. rewrite IH, log_run_applied. done.
  - rewrite take_app_le by lia. apply replay_from_torn; [|done].
    destruct (length_op_body op); lia.
Qed.

(** ** Theorems *)

Lemma replay_log_bytes ops :
  Forall wal_wf ops → replay_bytes (log_bytes ops) = log_puts ops.
Proof.
  intros H. unfold replay_bytes. fold (replay_from (log_bytes ops) []).
  rewrite <- (app_nil_r (log_bytes ops)), replay_from_log, replay_from_nil by done.
  apply app_nil_r.
Qed.

(** Replaying an intact log makes exactly the calls its records mean, in
    order: auto-commit puts immediately, the puts of a transaction together at
    its commit marker, and the puts of an unfinished transaction never. *)
Theorem replay_roundtrip ops :
  Forall wal_wf ops → replay_bytes (log_bytes ops) = log_puts ops.
Proof. exact (replay_log_bytes ops). Qed.

Lemma replay_roundtrip_witness :
  let ops := [WPut 1 10; WTxnPut 2 20; WCommit; WTxnPut 3 30] in
  Forall wal_wf ops ∧ replay_bytes (log_bytes ops) = [(1, 10); (2, 20)].
Proof.
  intros ops. assert (Forall wal_wf ops) as H
    by (repeat constructor; unfold in_u64; lia).
  split; [exact H|]. exact (replay_roundtrip ops H).
Defined.

Lemma replay_log_prefix ops n :
  Forall wal_wf ops →
  replay_bytes (take n (log_bytes ops)) = log_puts (take (complete_records n ops) ops).
Proof. intros H. by apply replay_from_prefix. Qed.

(** C23: a crash that leaves any byte prefix of a log recovers exactly the
    operations whose records are whole; a torn last record contributes
    nothing and hides nothing before it. *)
Theorem replay_torn_tail ops n :
  Forall wal_wf ops →
  replay_bytes (take n (log_bytes ops)) = log_puts (take (complete_records n ops) ops).
Proof. exact (replay_log_prefix ops n). Qed.

Lemma replay_torn_tail_witness :
  let ops := [WPut 1 10; WPut 2 20] in
  Forall wal_wf ops ∧ replay_bytes (take 40 (log_bytes ops)) = [(1, 10)].
Proof.
  intros ops. assert (Forall wal_wf ops) as H
    by (repeat constructor; unfold in_u64; lia).
  split; [exact H|]. exact (replay_torn_tail ops 40 H).
Defined.

(** A record whose length cannot be, or whose checksum is not that of its payload,
    ends the replay. *)
Lemma replay_from_bad L C P rest txn :
  length L = 4%nat → length C = 4%nat →
  MATRIX_WAL_MAX_RECORD < le_combine L ∨
    (length P = Z.to_nat (le_combine L) ∧ matrix_crc32 P ≠ le_combine C) →
  replay_from (L ++ C ++ P ++ rest) txn = [].
Proof.
  intros HL HC Hbad. unfold replay_from. cbn [replay_loop]. unfold fread_u32.
  rewrite fread_app by done. cbn [mbind option_bind].
  destruct (le_combine L =? 0); [done|]. cbn [orb].
  destruct (Z.ltb_spec MATRIX_WAL_MAX_RECORD (le_combine L)); [done|].
  destruct Hbad as [|[HP Hcrc]]; [lia|]. rewrite fread_app by done. cbn [mbind option_bind].
  rewrite fread_app by done. by rewrite (proj2 (Z.eqb_neq _ _) Hcrc).
Qed.

(** A record length has nothing in its upper two bytes. *)
Lemma length_high_bytes z i : 0 ≤ z ≤ MATRIX_WAL_MAX_RECORD → (2 ≤ i < 4)%nat → le_u32 z !! i = Some Byte.x00.
Proof.
  intros Hz Hi. unfold MATRIX_WAL_MAX_RECORD in Hz.
  assert (Z.shiftr (Z.shiftr z 8) 8 = 0) as H0.
  { rewrite Z.shiftr_shiftr by lia. rewrite Z.shiftr_div_pow2 by lia. apply Z.div_small. lia. }
  change (le_u32 z) with [byte.of_Z z; byte.of_Z (Z.shiftr z 8); byte.of_Z (Z.shiftr (Z.shiftr z 8) 8);
    byte.of_Z (Z.shiftr (Z.shiftr (Z.shiftr z 8) 8) 8)].
  rewrite H0. destruct i as [|[|[|[|i]]]]; [lia|lia|reflexivity|reflexivity|lia].
Qed.

Lemma damaged_length z i b :
  0 ≤ z ≤ MATRIX_WAL_MAX_RECORD → (2 ≤ i < 4)%nat → le_u32 z !! i ≠ Some b →
  MATRIX_WAL_MAX_RECORD < le_combine (<[i:=b]> (le_u32 z)).
Proof.
  intros Hz Hi Hb. set (L := <[i:=b]> (le_u32 z)).
  assert (length L = 4%nat) as HL by (unfold L; by rewrite length_insert, length_le_u32).
  destruct (Z.le_gt_cases (le_combine L) MATRIX_WAL_MAX_RECORD) as [Hle|]; [exfalso|lia].
  apply Hb. rewrite (length_high_bytes z i Hz Hi).
  rewrite <- (length_high_bytes (le_combine L) i) by (pose proof (le_combine_bound L); lia).
  unfold le_u32. rewrite (split_le_combine' L 4 HL). unfold L.
  apply list_lookup_insert_eq. rewrite length_le_u32. lia.
Qed.

Lemma damaged_crc body i b :
  le_u32 (matrix_crc32 body) !! i ≠ Some b → (i < 4)%nat →
  matrix_crc32 body ≠ le_combine (<[i:=b]> (le_u32 (matrix_crc32 body))).
Proof.
  intros Hb Hi He. apply Hb. rewrite He at 1. unfold le_u32 at 1.
  rewrite (split_le_combine' _ 4) by (by rewrite length_insert, length_le_u32).
  apply list_lookup_insert_eq. rewrite length_le_u32. lia.
Qed.

Lemma damaged_payload body i b :
  body !! i ≠ Some b → (i < length body)%nat → matrix_crc32 (<[i:=b]> body) ≠ matrix_crc32 body.
Proof.
  intros Hb Hi. destruct (lookup_lt_is_Some_2 body i Hi) as [b0 H0].
  rewrite <- (take_drop_middle body i b0 H0) at 2. rewrite insert_take_drop by done.
  apply crc_detects_byte. congruence.
Qed.

(** One damaged byte from the third on ends the replay. *)
Lemma replay_from_damaged body i b rest txn :
  (0 < length body ≤ 4096)%nat → (2 ≤ i < length (record_bytes body))%nat → record_bytes body !! i ≠ Some b →
  replay_from (<[i:=b]> (record_bytes body) ++ rest) txn = [].
Proof.
  intros Hlen Hi Hb. rewrite length_record in Hi. unfold record_bytes in *.
  set (L := le_u32 (Z.of_nat (length body))) in *. set (C := le_u32 (matrix_crc32 body)) in *.
  assert (length L = 4%nat ∧ length C = 4%nat) as [HL HC] by (unfold L, C; by rewrite !length_le_u32).
  assert (le_combine L = Z.of_nat (length body)) as Hl
    by (unfold L; rewrite le_combine_u32; apply u32_small; unfold in_u32; lia).
  assert (le_combine C = matrix_crc32 body) as Hc
    by (unfold C; rewrite le_combine_u32; apply u32_small, matrix_crc32_u32).
  destruct (decide (i < 4)%nat) as [H4|H4]; [|destruct (decide (i < 8)%nat) as [H8|H8]].
  - rewrite insert_app_l by lia. rewrite <- !app_assoc. apply replay_from_bad; [by rewrite length_insert|done|left].
    rewrite lookup_app_l in Hb by lia. apply damaged_length; [unfold MATRIX_WAL_MAX_RECORD; lia|lia|done].
  - replace i with (length L + (i - 4))%nat in * by lia.
    rewrite insert_app_r, insert_app_l by lia. rewrite <- !app_assoc.
    apply replay_from_bad; [done|by rewrite length_insert|right]. split; [by rewrite Hl, Nat2Z.id|].
    rewrite lookup_app_r, lookup_app_l in Hb by lia.
    replace (length L + (i - 4) - length L)%nat with (i - 4)%nat in Hb by lia. apply damaged_crc; [done|lia].
  - replace i with (length L + (length C + (i - 8)))%nat in * by lia.
    rewrite !insert_app_r. rewrite <- !app_assoc.
    apply replay_from_bad; [done|done|right]. split; [by rewrite length_insert, Hl, Nat2Z.id|].
    rewrite !lookup_app_r in Hb by lia.
    replace (length L + (length C + (i - 8)) - length L - length C)%nat with (i - 8)%nat in Hb by lia.
    rewrite Hc. apply damaged_payload; [done|lia].
Qed.

(** C38: One damaged byte in a record, at any place but the two low bytes of its
    length, is detected: replay stops there, whatever follows, and makes exactly
    the puts of the records before it.  A damaged length is not under the checksum;
    whatever becomes of the record then, the puts of the records before it are
    still made first. *)
Theorem replay_detects_corruption ops body i b rest :
  Forall wal_wf ops → (0 < length body ≤ 4096)%nat → (i < length (record_bytes body))%nat →
  record_bytes body !! i ≠ Some b →
  let log := log_bytes ops ++ <[i := b]> (record_bytes body) ++ rest in
  ((2 ≤ i)%nat → replay_bytes log = log_puts ops) ∧ ∃ more, replay_bytes log = log_puts ops ++ more.
Proof.
  intros Hops Hlen Hi Hb log. unfold replay_bytes, log.
  match goal with |- context [replay_loop _ ?r _] => fold (replay_from r []) end.
  rewrite replay_from_log by done. split; [|by eexists].
  intros H2. rewrite replay_from_damaged by (done || lia). apply app_nil_r.
Qed.

(** Damage to a checksum and to a payload. *)
Lemma replay_detects_corruption_witness :
  let r := record_bytes (op_body (WPut 2 20)) in
  replay_bytes (log_bytes [WPut 1 10] ++ <[5%nat := Byte.xff]> r ++ log_bytes [WPut 3 30]) = [(1, 10)] ∧
  replay_bytes (log_bytes [WPut 1 10] ++ <[16%nat := Byte.xff]> r ++ log_bytes [WPut 3 30]) = [(1, 10)].
Proof.
  assert (Forall wal_wf [WPut 1 10]) as H by (repeat constructor; unfold in_u64; lia).
  assert (length (op_body (WPut 2 20)) = 20%nat) as Hl by reflexivity.
  split.
  - apply (replay_detects_corruption [WPut 1 10] (op_body (WPut 2 20)) 5 Byte.xff (log_bytes [WPut 3 30]) H);
      [rewrite Hl; lia|rewrite length_record, Hl; lia|vm_compute; discriminate|lia].
  - apply (replay_detects_corruption [WPut 1 10] (op_body (WPut 2 20)) 16 Byte.xff (log_bytes [WPut 3 30]) H);
      [rewrite Hl; lia|rewrite length_record, Hl; lia|vm_compute; discriminate|lia].
Defined.

(** ** The log as a file *)

Lemma sync_if_file fs cs f :
  fs_files fs !! cs_path cs = Some f →
  fs_files (sync_if fs cs) !! cs_path cs
  = Some (match cs_policy cs with
          | SYNC_EACH => mkFile (f_data f) (length (f_data f))
          | SYNC_OFF => f
          end).
Proof.
  intros Hf. unfold sync_if. destruct (cs_policy cs); [|done].
  unfold fs_sync. rewrite Hf. cbn. by rewrite lookup_insert_eq.
Qed.

Lemma fs_append_file fs p f bs :
  fs_files fs !! p = Some f → (length bs ≤ fs_room fs)%nat →
  fs_files (fs_append fs p bs) !! p = Some (mkFile (f_data f ++ bs) (f_synced f)) ∧
  fs_room (fs_append fs p bs) = (fs_room fs - length bs)%nat.
Proof.
  intros Hf Hr. unfold fs_append. erewrite fs_write_fits by done. cbn.
  by rewrite lookup_insert_eq.
Qed.

(** With room on the device, a record is appended whole, and durable under [SYNC_EACH]. *)
Lemma write_record_file fs cs f body :
  fs_files fs !! cs_path cs = Some f → (length (record_bytes body) ≤ fs_room fs)%nat →
  let data := f_data f ++ record_bytes body in
  fs_files (snd (write_record fs cs body)) !! cs_path cs
  = Some (mkFile data (match cs_policy cs with SYNC_EACH => length data | SYNC_OFF => f_synced f end)).
Proof.
  intros Hf Hr data. rewrite length_record in Hr. unfold write_record. cbn [snd].
  destruct (fs_append_file fs (cs_path cs) f (le_u32 (Z.of_nat (length body)))) as [H1 R1];
    [done|rewrite length_le_u32; lia|].
  rewrite length_le_u32 in R1.
  destruct (fs_append_file _ (cs_path cs) _ (le_u32 (matrix_crc32 body)) H1) as [H2 R2];
    [rewrite length_le_u32; lia|].
  rewrite length_le_u32 in R2.
  destruct (fs_append_file _ (cs_path cs) _ body H2) as [H3 R3]; [lia|].
  rewrite (sync_if_file _ _ _ H3). cbn [f_data f_synced].
  unfold data, record_bytes. rewrite <- !app_assoc. by destruct (cs_policy cs).
Qed.

(** When the device has no room the writes put nothing in the file, and the
    calls still return. *)
Lemma fs_append_full fs p bs : fs_room fs = 0%nat →
  fs_read (fs_append fs p bs) p = fs_read fs p ∧ fs_room (fs_append fs p bs) = 0%nat.
Proof.
  intros Hr. unfold fs_append, fs_write. destruct (fs_files fs !! p) as [f|] eqn:E; [|done].
  cbn [snd]. rewrite Hr, Nat.min_0_r, fs_set_read. unfold fs_read. rewrite E. cbn.
  by rewrite app_nil_r.
Qed.

Lemma sync_if_read fs cs : fs_read (sync_if fs cs) (cs_path cs) = fs_read fs (cs_path cs).
Proof.
  unfold sync_if, fs_sync. destruct (cs_policy cs); [|done].
  destruct (fs_files fs !! cs_path cs) as [f|] eqn:E; [|done].
  rewrite fs_set_read. unfold fs_read. by rewrite E.
Qed.

Lemma log_bytes_app ops1 ops2 : log_bytes (ops1 ++ ops2) = log_bytes ops1 ++ log_bytes ops2.
Proof. unfold log_bytes. by rewrite map_app, concat_app. Qed.

Lemma log_bytes_one op : log_bytes [op] = record_bytes (op_body op).
Proof. unfold log_bytes. cbn [map concat]. apply app_nil_r. Qed.

(** Under [SYNC_EACH], once [append_put] has returned on a device with
    room for the record, every crash recovers that put, after everything the
    log already held. *)
Theorem append_put_durable fs cs f ops key value bs f' :
  fs_files fs !! cs_path cs = Some f → f_data f = log_bytes ops → cs_policy cs = SYNC_EACH →
  (28 ≤ fs_room fs)%nat → Forall wal_wf ops → in_u64 key → in_u64 value →
  fs_files (snd (append_put fs cs key value)) !! cs_path cs = Some f' →
  crash_of f' bs →
  replay_bytes bs = log_puts (ops ++ [WPut key value]).
Proof.
  intros Hf Hd Hp Hr Hops Hk Hv Hf' (n & Hn & ->).
  unfold append_put, append_record in Hf'.
  rewrite (write_record_file _ _ f) in Hf' by (rewrite ?length_record, ?length_put_payload; done).
  rewrite Hp in Hf'. simplify_eq. cbn [f_data f_synced] in *.
  rewrite take_ge by lia. rewrite Hd.
  change (put_payload OP_WRITE key value) with (op_body (WPut key value)).
  rewrite <- log_bytes_one, <- log_bytes_app.
  apply replay_log_bytes. apply Forall_app. split; [done|]. by apply Forall_singleton.
Qed.

Lemma append_put_durable_witness :
  let fs := mkFS {["wal" := mkFile [] 0]} 100 ∅ in
  let cs := mkCS "wal" SYNC_EACH 0 in
  (28 ≤ fs_room fs)%nat ∧ in_u64 7 ∧
  ∃ f', fs_files (snd (append_put fs cs 7 9)) !! "wal" = Some f' ∧
    crash_of f' (f_data f') ∧ replay_bytes (f_data f') = [(7, 9)].
Proof.
  intros fs cs. split; [cbn; lia|]. split; [unfold in_u64; lia|].
  eexists. split; [vm_compute; reflexivity|].
  assert (crash_of (mkFile (log_bytes [WPut 7 9]) 28) (log_bytes [WPut 7 9])) as Hc.
  { exists 28%nat. split; [vm_compute; lia|vm_compute; reflexivity]. }
  split; [vm_compute in Hc |- *; exact Hc|].
  refine (append_put_durable fs cs (mkFile [] 0) [] 7 9 _ (mkFile (log_bytes [WPut 7 9]) 28)
    eq_refl eq_refl eq_refl _ _ _ _ _ Hc).
  - cbn; lia.
  - constructor.
  - unfold in_u64; lia.
  - unfold in_u64; lia.
  - vm_compute. reflexivity.
Defined.

(** A full device loses the record without any error: the results of the
    three writes are not examined, so [append_put] returns, counts the record,
    and leaves the log as it was. *)
Theorem append_put_full_device fs cs key value :
  fs_room fs = 0%nat →
  fs_read (snd (append_put fs cs key value)) (cs_path cs) = fs_read fs (cs_path cs) ∧
  cs_records_written (fst (append_put fs cs key value)) = cs_records_written cs + 1.
Proof.
  intros Hr. split; [|done]. unfold append_put, append_record, write_record. cbn [snd].
  rewrite sync_if_read.
  destruct (fs_append_full fs (cs_path cs) (le_u32 (Z.of_nat (length (put_payload OP_WRITE key value)))) Hr)
    as [E1 R1].
  destruct (fs_append_full _ (cs_path cs) (le_u32 (matrix_crc32 (put_payload OP_WRITE key value))) R1)
    as [E2 R2].
  destruct (fs_append_full _ (cs_path cs) (put_payload OP_WRITE key value) R2) as [E3 _].
  by rewrite E3, E2, E1.
Qed.

Lemma append_put_full_device_witness :
  let fs := mkFS {["wal" := mkFile [] 0]} 0 ∅ in
  fs_room fs = 0%nat ∧
  fs_read (snd (append_put fs (mkCS "wal" SYNC_EACH 0) 7 9)) "wal" = Some [].
Proof.
  intros fs. split; [reflexivity|].
  exact (proj1 (append_put_full_device fs (mkCS "wal" SYNC_EACH 0) 7 9 eq_refl)).
Defined.

(** A log reopened behind a torn tail keeps appending after it, so a put that
    was made durable after the recovery is lost at the next one: the reader
    stops at the torn record. *)
Theorem append_behind_torn_tail_is_lost :
  replay_bytes (take 40 (log_bytes [WPut 1 10; WPut 2 20])) = [(1, 10)] ∧
  replay_bytes (take 40 (log_bytes [WPut 1 10; WPut 2 20]) ++ log_bytes [WPut 3 30]) = [(1, 10)].
Proof. split; vm_compute; reflexivity. Qed.

(** The puts of a transaction that a crash cut off before its commit marker
    stay in the log, and the next transaction's marker commits them. *)
Theorem orphaned_puts_are_committed_later k1 v1 k2 v2 :
  in_u64 k1 → in_u64 v1 → in_u64 k2 → in_u64 v2 →
  replay_bytes (log_bytes [WTxnPut k1 v1]) = [] ∧
  replay_bytes (log_bytes [WTxnPut k1 v1] ++ log_bytes [WTxnPut k2 v2; WCommit])
  = [(k1, v1); (k2, v2)].
Proof.
  intros. rewrite <- log_bytes_app, !replay_log_bytes; [done|by repeat (apply Forall_cons; split)..].
Qed.

Lemma orphaned_puts_are_committed_later_witness :
  in_u64 1 ∧
  replay_bytes (log_bytes [WTxnPut 1 1] ++ log_bytes [WTxnPut 2 2; WCommit]) = [(1, 1); (2, 2)].
Proof.
  split; [unfold in_u64; lia|].
  apply (orphaned_puts_are_committed_later 1 1 2 2); unfold in_u64; lia.
Defined.
