(* ===== verification/Paging.v ===== *)
(** * Paging: page ownership, the batch binning and the scan codec of [compute.hpp]

    A key belongs to one page; [matrix_bin_by_page] groups a batch by page with
    a stable counting sort.  The theorem is the contract the page-ownership
    model relies on: page [p] finds its own queries, all of them and only
    them, in batch order, between [offsets[p]] and [offsets[p + 1]]. *)

From S2P Require Export Types.

Definition matrix_page_of (key : Z) : Z := Z.land key MATRIX_STORE_MASK / MATRIX_PAGE_SIZE.

(** ** The counting sort *)

Section counting_sort.
Context {A : Type} (pages : nat) (page : A → nat).

(** [counts[page(q)]++] over the batch, from zeroes. *)
Definition count_step (counts : list Z) (q : A) : outcome (list Z) :=
  c ← rd counts (page q);
  Ret (<[page q := u32 (c + 1)]> counts).

(** [offsets[p + 1] = offsets[p] + counts[p]], from [offsets[0] = 0]. *)
Definition offset_step (counts offsets : list Z) (p : nat) : outcome (list Z) :=
  o ← rd offsets p;
  c ← rd counts p;
  Ret (<[S p := u32 (o + c)]> offsets).

(** [binned[cursor[p]++] = q] *)
Definition place_step (s : list A * list Z) (q : A) : outcome (list A * list Z) :=
  let '(binned, cursor) := s in
  c ← rd cursor (page q);
  if Z.of_nat (length binned) <=? c then Crash Undefined
  else Ret (<[Z.to_nat c := q]> binned, <[page q := u32 (c + 1)]> cursor).

(** The caller's buffers [binned] and [offsets] are overwritten. *)
Definition bin_by_page (batch binned : list A) (offsets : list Z) : outcome (list A * list Z) :=
  counts ← fold_outcome count_step batch (replicate pages 0);
  offsets ← fold_outcome (offset_step counts) (seq 0 pages) (<[0%nat := 0]> offsets);
  '(binned, _) ← fold_outcome place_step batch (binned, take pages offsets);
  Ret (binned, offsets).

(** The queries of page [p], and how many belong to an earlier page. *)
Definition of_page (p : nat) (batch : list A) : list A := List.filter (λ q, page q =? p)%nat batch.

Fixpoint before_page (p : nat) (batch : list A) : nat :=
  match p with O => 0 | S p' => before_page p' batch + length (of_page p' batch) end.

Lemma of_page_app p b1 b2 : of_page p (b1 ++ b2) = of_page p b1 ++ of_page p b2.
Proof. apply List.filter_app. Qed.

Lemma of_page_snoc p b q :
  of_page p (b ++ [q]) = of_page p b ++ (if (page q =? p)%nat then [q] else []).
Proof. rewrite of_page_app. cbn. by destruct (page q =? p)%nat. Qed.

Lemma before_page_le p p' batch : (p ≤ p')%nat → (before_page p batch ≤ before_page p' batch)%nat.
Proof. induction 1; cbn; lia. Qed.

Lemma before_page_count p batch : before_page p batch = length (List.filter (λ q, page q <? p)%nat batch).
Proof.
  induction p as [|p IH]; cbn.
  - by induction batch.
  - rewrite IH. unfold of_page. clear IH. induction batch as [|q b IHb]; [done|]. cbn [List.filter].
    destruct (Nat.ltb_spec (page q) p), (Nat.eqb_spec (page q) p), (Nat.leb_spec (page q) p);
      cbn [length]; lia.
Qed.

Lemma before_page_total p batch : (before_page p batch ≤ length batch)%nat.
Proof. rewrite before_page_count. apply List.filter_length_le. Qed.

Hypothesis Hpage : ∀ q, (page q < pages)%nat.

Lemma count_pass batch :
  Z.of_nat (length batch) < 2 ^ 32 →
  fold_outcome count_step batch (replicate pages 0)
  = Ret (map (λ p, Z.of_nat (length (of_page p batch))) (seq 0 pages)).
Proof using Hpage.
  induction batch as [|q batch IH] using rev_ind; intros Hlen.
  { cbn. f_equal. induction pages as [|n IHn] in |- *; [done|]. rewrite seq_S, map_app, <- IHn.
    cbn. by rewrite <- replicate_cons_app. }
  rewrite length_app in Hlen. cbn in Hlen.
  rewrite fold_outcome_app, IH by lia. cbn. unfold count_step.
  set (f := λ p, Z.of_nat (length (of_page p batch))).
  assert (map f (seq 0 pages) !! page q = Some (f (page q))) as Hq.
  { rewrite list_lookup_fmap, lookup_seq_lt by done. done. }
  rewrite (rd_lookup _ _ _ Hq). cbn. f_equal. apply list_eq. intros p.
  destruct (decide (p < pages)%nat) as [Hp|Hp].
  - rewrite list_lookup_fmap, lookup_seq_lt by done. cbn.
    rewrite of_page_snoc, length_app. destruct (Nat.eqb_spec (page q) p) as [E|E].
    + rewrite E, list_lookup_insert_eq by (by rewrite length_map, length_seq).
      f_equal. cbn. unfold f.
      pose proof (List.filter_length_le (λ q, page q =? p)%nat batch).
      rewrite u32_small by (unfold in_u32, of_page in *; lia). lia.
    + rewrite list_lookup_insert_ne by done. rewrite list_lookup_fmap, lookup_seq_lt by done.
      cbn. unfold f. f_equal. lia.
  - rewrite !lookup_ge_None_2; [done| |]; rewrite ?length_insert, length_map, length_seq; lia.
Qed.

Lemma offset_pass batch offsets n :
  (n ≤ pages)%nat → length offsets = S pages → Z.of_nat (length batch) < 2 ^ 32 →
  ∃ out, fold_outcome (offset_step (map (λ p, Z.of_nat (length (of_page p batch))) (seq 0 pages)))
    (seq 0 n) (<[0%nat := 0]> offsets) = Ret out ∧ length out = S pages ∧
  ∀ p, (p ≤ n)%nat → out !! p = Some (Z.of_nat (before_page p batch)).
Proof.
  intros Hn Hlen Hb. induction n as [|n IH].
  { eexists. split; [done|]. rewrite length_insert. split; [done|].
    intros p Hp. replace p with 0%nat by lia. rewrite list_lookup_insert_eq by lia. done. }
  destruct IH as (out & Hout & Hl & Hp); [lia|].
  rewrite seq_S, fold_outcome_app, Hout. cbn. unfold offset_step.
  rewrite (rd_lookup out n _ (Hp n (le_n n))). cbn.
  erewrite rd_lookup by (rewrite list_lookup_fmap, lookup_seq_lt by lia; done). cbn.
  eexists. split; [done|]. rewrite length_insert. split; [done|]. intros p Hpn.
  destruct (decide (p = S n)) as [->|].
  - rewrite list_lookup_insert_eq by lia. f_equal. cbn [before_page].
    pose proof (before_page_total (S n) batch) as Ht. cbn in Ht.
    rewrite u32_small by (unfold in_u32; lia). lia.
  - rewrite list_lookup_insert_ne by lia. apply Hp. lia.
Qed.

(** After placing [done_], page [p] holds its first queries and its cursor
    points behind them. *)
Definition placed (batch done_ binned : list A) (cursor : list Z) : Prop :=
  ∀ p, (p < pages)%nat →
    cursor !! p = Some (Z.of_nat (before_page p batch + length (of_page p done_))) ∧
    ∀ j x, of_page p done_ !! j = Some x → binned !! (before_page p batch + j)%nat = Some x.

Lemma place_pass batch rest : ∀ done_ binned cursor,
  batch = done_ ++ rest → (length batch ≤ length binned)%nat → length cursor = pages →
  Z.of_nat (length batch) < 2 ^ 32 →
  placed batch done_ binned cursor →
  ∃ binned' cursor', fold_outcome place_step rest (binned, cursor) = Ret (binned', cursor') ∧
    length binned' = length binned ∧ placed batch batch binned' cursor'.
Proof using Hpage.
  induction rest as [|q rest IH]; intros done_ binned cursor Hsplit Hbin Hcur Hlen Hpl.
  { rewrite app_nil_r in Hsplit. subst. eauto. }
  cbn. destruct (Hpl (page q) (Hpage q)) as [Hc _].
  rewrite (rd_lookup _ _ _ Hc). cbn.
  set (at_ := (before_page (page q) batch + length (of_page (page q) done_))%nat).
  assert (at_ < before_page (S (page q)) batch)%nat as Hat.
  { cbn. unfold at_. rewrite Hsplit, of_page_app, length_app. cbn. rewrite Nat.eqb_refl. cbn. lia. }
  pose proof (before_page_total (S (page q)) batch) as Htot.
  destruct (Z.leb_spec (Z.of_nat (length binned)) (Z.of_nat at_)); [lia|]. cbn.
  rewrite Nat2Z.id, u32_small by (unfold in_u32; lia).
  destruct (IH (done_ ++ [q]) (<[at_ := q]> binned)
    (<[page q := Z.of_nat at_ + 1]> cursor)) as (b' & c' & Hr & Hlb & Hp').
  - by rewrite <- app_assoc.
  - by rewrite length_insert.
  - by rewrite length_insert.
  - done.
  - intros p Hp. destruct (Hpl p Hp) as [Hcp Hjp]. rewrite of_page_snoc.
    destruct (Nat.eqb_spec (page q) p) as [<-|Hne].
    + rewrite list_lookup_insert_eq by lia. split.
      { f_equal. unfold at_. rewrite length_app. cbn. lia. }
      intros j x Hx. destruct (decide (j = length (of_page (page q) done_))) as [->|Hj].
      * rewrite list_lookup_middle in Hx by done. simplify_eq.
        fold at_. by rewrite list_lookup_insert_eq by lia.
      * pose proof (lookup_lt_Some _ _ _ Hx) as Hlt. rewrite length_app in Hlt. cbn in Hlt.
        rewrite lookup_app_l in Hx by lia.
        rewrite list_lookup_insert_ne by (unfold at_; lia). by apply Hjp.
    + rewrite list_lookup_insert_ne by done. rewrite app_nil_r. split; [done|].
      intros j x Hx. pose proof (lookup_lt_Some _ _ _ Hx) as Hlt.
      rewrite list_lookup_insert_ne; [by apply Hjp|].
      assert (length (of_page p done_) ≤ length (of_page p batch))%nat
        by (rewrite Hsplit, of_page_app, length_app; lia).
      assert (before_page p batch + j < before_page (S p) batch)%nat by (cbn; lia).
      destruct (Nat.lt_trichotomy p (page q)) as [Hpq|[?|Hpq]]; [|done|].
      * pose proof (before_page_le (S p) (page q) batch Hpq). unfold at_. lia.
      * pose proof (before_page_le (S (page q)) p batch Hpq). lia.
  - exists b', c'. rewrite length_insert in Hlb. done.
Qed.

Lemma bin_by_page_spec batch binned offsets :
  (length batch ≤ length binned)%nat → length offsets = S pages →
  Z.of_nat (length batch) < 2 ^ 32 →
  ∃ binned' offsets', bin_by_page batch binned offsets = Ret (binned', offsets') ∧
  length binned' = length binned ∧ length offsets' = length offsets ∧
  ∀ p, (p < pages)%nat →
    offsets' !! p = Some (Z.of_nat (before_page p batch)) ∧
    offsets' !! S p = Some (Z.of_nat (before_page p batch + length (of_page p batch))) ∧
    take (length (of_page p batch)) (drop (before_page p batch) binned') = of_page p batch.
Proof using Hpage.
  intros Hbin Hoff Hlen. unfold bin_by_page. rewrite count_pass by done. cbn.
  destruct (offset_pass batch offsets pages) as (out & -> & Hlo & Hout); [done..|]. cbn.
  destruct (place_pass batch batch [] binned (take pages out)) as (b' & c' & -> & Hlb & Hpl);
    [done|done|rewrite length_take; lia|done| |].
  { intros p Hp. split; [|intros j x Hx; by destruct j].
    rewrite lookup_take_lt by done. cbn. rewrite Nat.add_0_r. apply Hout. lia. }
  cbn. eexists _, _. split; [done|]. split; [done|]. split; [congruence|]. intros p Hp.
  split; [apply Hout; lia|]. split; [apply Hout; lia|].
  destruct (Hpl p Hp) as [_ Hj]. pose proof (before_page_total (S p) batch) as Ht. cbn in Ht.
  apply list_eq. intros j. destruct (decide (j < length (of_page p batch))%nat) as [Hlt|Hge].
  - rewrite lookup_take_lt, lookup_drop by done.
    destruct (lookup_lt_is_Some_2 _ _ Hlt) as [x Hx]. rewrite Hx. by apply Hj.
  - rewrite !lookup_ge_None_2; [done|lia|]. rewrite length_take. lia.
Qed.
End counting_sort.

Definition matrix_bin_by_page (batch binned : list DatabaseQuery) (offsets : list Z) :
    outcome (list DatabaseQuery * list Z) :=
  bin_by_page (Z.to_nat MATRIX_PAGE_COUNT) (λ q, Z.to_nat (matrix_page_of (query_id q)))
    batch binned offsets.

(** ** The scan codec: fields of an OP_SCAN payload *)

(** A [memcpy]-like store into the payload; past its end is undefined. *)
Definition poke (p : list byte) (off : nat) (bs : list byte) : outcome (list byte) :=
  if (length p <? off + length bs)%nat then Crash Undefined
  else Ret (take off p ++ bs ++ drop (off + length bs) p).

Definition peek (p : list byte) (off n : nat) : outcome Z :=
  if (length p <? off + n)%nat then Crash Undefined
  else Ret (le_combine (take n (drop off p))).

Definition with_payload (q : DatabaseQuery) (op : Z) (p : list byte) : DatabaseQuery :=
  mkQuery (query_id q) (timestamp_us q) (transaction_id q) op (payload_size q) p.

Definition matrix_set_scan_target (q : DatabaseQuery) (threshold column_id : Z) : outcome DatabaseQuery :=
  p1 ← poke (payload q) 0 (le_u32 threshold);
  p2 ← poke p1 8 (le_u64 column_id);
  Ret (with_payload q OP_SCAN p2).

Definition matrix_get_scan_column_id (q : DatabaseQuery) : outcome Z := peek (payload q) 8 8.

Definition matrix_set_scan_threshold (q : DatabaseQuery) (threshold : Z) : outcome DatabaseQuery :=
  matrix_set_scan_target q threshold 0.

Definition matrix_get_scan_threshold (q : DatabaseQuery) : outcome Z := peek (payload q) 0 4.

Definition matrix_set_scan_agg_op (q : DatabaseQuery) (op : MatrixAggOp) : outcome DatabaseQuery :=
  p ← poke (payload q) 16 (le_u32 (agg_to_u32 op));
  Ret (with_payload q (opcode q) p).

Definition matrix_get_scan_agg_op (q : DatabaseQuery) : outcome MatrixAggOp :=
  z ← peek (payload q) 16 4; Ret (agg_of_u32 z).

Lemma matrix_page_of_range key : 0 ≤ matrix_page_of key < MATRIX_PAGE_COUNT.
Proof.
  unfold matrix_page_of, MATRIX_PAGE_SIZE, MATRIX_PAGE_COUNT, MATRIX_STORE_MASK, MATRIX_STORE_SLOTS.
  replace (65536 - 1) with (Z.ones 16) by done. rewrite Z.land_ones by lia.
  change (65536 / 1024) with 64. pose proof (Z.mod_pos_bound key (2 ^ 16) ltac:(lia)).
  split; [apply Z.div_pos; lia|]. apply Z.div_lt_upper_bound; lia.
Qed.

Lemma length_poke p off bs p' : poke p off bs = Ret p' → length p' = length p.
Proof.
  unfold poke. destruct (Nat.ltb_spec (length p) (off + length bs)); [done|].
  intros [= <-]. rewrite !length_app, length_take, length_drop. lia.
Qed.

(** Reading where a write landed, and where it did not. *)
Lemma peek_poke p off bs p' :
  poke p off bs = Ret p' → peek p' off (length bs) = Ret (le_combine bs).
Proof.
  intros H. pose proof (length_poke _ _ _ _ H) as Hlen. unfold poke in H.
  destruct (Nat.ltb_spec (length p) (off + length bs)); [done|]. injection H as <-.
  unfold peek. rewrite Hlen. destruct (Nat.ltb_spec (length p) (off + length bs)); [lia|].
  rewrite drop_app_length' by (rewrite length_take; lia). by rewrite take_app_length.
Qed.

Lemma peek_poke_other p off bs p' off2 n :
  poke p off bs = Ret p' → (off2 + n ≤ off ∨ off + length bs ≤ off2)%nat →
  peek p' off2 n = peek p off2 n.
Proof.
  intros H Hdis. pose proof (length_poke _ _ _ _ H) as Hlen. unfold poke in H.
  destruct (Nat.ltb_spec (length p) (off + length bs)); [done|]. injection H as <-.
  unfold peek. rewrite Hlen. destruct (Nat.ltb_spec (length p) (off2 + n)); [done|].
  do 2 f_equal. apply list_eq. intros j. destruct (decide (j < n)%nat) as [Hj|Hj].
  - rewrite !lookup_take_lt, !lookup_drop by done. destruct Hdis.
    + rewrite lookup_app_l by (rewrite length_take; lia). rewrite lookup_take_lt by lia. done.
    + rewrite app_assoc, lookup_app_r by (rewrite length_app, length_take; lia).
      rewrite lookup_drop, length_app, length_take. f_equal. lia.
  - by rewrite !lookup_take_ge by lia.
Qed.

(** ** Theorems *)

(** C36: Binning a batch is a stable partition by owning page.  [offsets[p]] is the
    number of queries whose page is below [p], for every [p] up to the number of
    pages, and the slice of the buffer that begins there is exactly the batch's
    queries for page [p], in batch order; both buffers keep their lengths. *)
Theorem bin_by_page_correct batch binned offsets :
  Z.of_nat (length batch) ≤ MATRIX_BATCH_MAX → (length batch ≤ length binned)%nat →
  length offsets = S (Z.to_nat MATRIX_PAGE_COUNT) →
  let page q := Z.to_nat (matrix_page_of (query_id q)) in
  let below p := length (List.filter (λ q, page q <? p)%nat batch) in
  ∃ binned' offsets', matrix_bin_by_page batch binned offsets = Ret (binned', offsets') ∧
    length binned' = length binned ∧ length offsets' = length offsets ∧
    (∀ p, (p ≤ Z.to_nat MATRIX_PAGE_COUNT)%nat → offsets' !! p = Some (Z.of_nat (below p))) ∧
    (∀ p, (p < Z.to_nat MATRIX_PAGE_COUNT)%nat →
       take (below (S p) - below p) (drop (below p) binned') = List.filter (λ q, page q =? p)%nat batch).
Proof.
  intros Hmax Hbin Hoff page below.
  destruct (bin_by_page_spec (Z.to_nat MATRIX_PAGE_COUNT) page) with batch binned offsets
    as (b' & o' & H & Hlb & Hlo & Hp); [|done|done|unfold MATRIX_BATCH_MAX in *; lia|].
  { intros q. unfold page. pose proof (matrix_page_of_range (query_id q)). lia. }
  assert (∀ p, before_page page p batch = below p) as Hb by (intros p; apply before_page_count).
  exists b', o'. split; [done|]. split; [done|]. split; [done|]. split.
  - intros p Hle. destruct p as [|p].
    + destruct (Hp 0%nat) as (H1 & _ & _); [vm_compute; lia|]. by rewrite <- Hb.
    + destruct (Hp p) as (_ & H2 & _); [lia|]. rewrite H2, <- Hb. done.
  - intros p Hlt. destruct (Hp p Hlt) as (_ & _ & H3). rewrite <- !Hb. cbn [before_page].
    rewrite Nat.add_comm, Nat.add_sub. exact H3.
Qed.

Lemma bin_by_page_correct_witness :
  let q k := mkQuery k 0 0 OP_WRITE 0 [] in
  ∃ b o, matrix_bin_by_page [q 70; q 3; q 7] [q 0; q 0; q 0] (replicate 1025 0) = Ret (b, o) ∧
    o !! 1%nat = Some 2 ∧ o !! 1024%nat = Some 3 ∧ take 2 (drop 0 b) = [q 3; q 7].
Proof.
  intros q. destruct (bin_by_page_correct [q 70; q 3; q 7] [q 0; q 0; q 0] (replicate 1025 0)) as (b & o & H & _ & _ & Ho & Hs).
  - unfold MATRIX_BATCH_MAX. cbn. lia.
  - cbn. lia.
  - vm_compute. reflexivity.
  - exists b, o. split; [exact H|]. split; [exact (Ho 1%nat ltac:(vm_compute; lia))|].
    split; [exact (Ho 1024%nat ltac:(vm_compute; lia))|]. exact (Hs 0%nat ltac:(vm_compute; lia)).
Defined.

(** The scan fields do not overlap: each reads back what was last stored in
    it, and setting the aggregate leaves the target as it was. *)
Theorem scan_codec_roundtrip q T col op q1 q2 :
  in_u32 T → in_u64 col → agg_wf op →
  matrix_set_scan_target q T col = Ret q1 → matrix_set_scan_agg_op q1 op = Ret q2 →
  opcode q2 = OP_SCAN ∧ matrix_get_scan_threshold q2 = Ret T ∧
  matrix_get_scan_column_id q2 = Ret col ∧ matrix_get_scan_agg_op q2 = Ret op.
Proof.
  intros HT Hcol Hop H1 H2. unfold matrix_set_scan_target in H1. unfold matrix_set_scan_agg_op in H2.
  inv_bind. unfold matrix_get_scan_threshold, matrix_get_scan_column_id, matrix_get_scan_agg_op.
  cbn in *. split; [done|].
  rewrite !(peek_poke_other _ _ _ _ _ _ Hx) by (rewrite length_le_u32; lia).
  pose proof (peek_poke _ _ _ _ Hx) as E3. rewrite length_le_u32, le_combine_u32 in E3.
  pose proof (peek_poke _ _ _ _ Hx1) as E2. rewrite length_le_u64, le_combine_u64 in E2.
  pose proof (peek_poke _ _ _ _ Hx0) as E1. rewrite length_le_u32, le_combine_u32 in E1.
  rewrite (peek_poke_other _ _ _ _ _ _ Hx1) by (rewrite length_le_u64; lia).
  rewrite E3, E2, E1, !u32_small, u64_small by (done || by apply agg_to_u32_range). cbn.
  by rewrite agg_of_to_u32.
Qed.

Lemma scan_codec_roundtrip_witness :
  let q := mkQuery 0 0 0 0 0 (replicate 32 Byte.x00) in
  ∃ q1 q2, matrix_set_scan_target q 7 3 = Ret q1 ∧ matrix_set_scan_agg_op q1 AGG_MIN = Ret q2 ∧
    matrix_get_scan_column_id q2 = Ret 3.
Proof.
  intros q. do 2 eexists. split; [vm_compute; reflexivity|]. split; [vm_compute; reflexivity|].
  refine (proj1 (proj2 (proj2 (scan_codec_roundtrip q 7 3 AGG_MIN _ _ _ _ _ _ _)))).
  - unfold in_u32; lia.
  - unfold in_u64; lia.
  - exact I.
  - vm_compute; reflexivity.
  - vm_compute; reflexivity.
Defined.
