(* ===== verification/RingBuffer.v ===== *)
(** * RingBuffer: the single-producer single-consumer queue of [ring_buffer.hpp]

    One producer thread calls [try_emplace], one consumer thread [try_pop];
    they share the buffer and two cursors, and each keeps a private copy of
    the other's cursor.  The module has the two calls as functions, for one
    thread alone, and as a step relation in which every access to a shared
    variable is one step, for two threads interleaved.  Loads and stores of the
    cursors are sequentially consistent here; the acquire and release orders of
    the source give the two orderings the proof uses, buffer write before the
    tail is published and buffer read before the head is released. *)

From S2P Require Export Prelude.

Record ring (T : Type) := mkRing {
  buffer_ : list T;
  head_ : Z;
  tail_ : Z;
  cached_head_ : Z;
  cached_tail_ : Z
}.
Arguments mkRing {T}.
Arguments buffer_ {T}.
Arguments head_ {T}.
Arguments tail_ {T}.
Arguments cached_head_ {T}.
Arguments cached_tail_ {T}.

Section ring_buffer.
Context {T : Type} (Capacity : Z).

Definition MASK : Z := Capacity - 1.

Definition ring_init (zero : T) : ring T := mkRing (replicate (Z.to_nat Capacity) zero) 0 0 0 0.

(** [size_t] subtraction: the producer's fullness test. *)
Definition looks_full (t cached_head : Z) : bool := Capacity <=? u64 (t - cached_head).

Definition looks_empty (h cached_tail : Z) : bool := cached_tail <=? h.

(** ** The calls, run without interference *)

Definition try_emplace (r : ring T) (x : T) : outcome (bool * ring T) :=
  let t := tail_ r in
  let ch := if looks_full t (cached_head_ r) then head_ r else cached_head_ r in
  if looks_full t ch then Ret (false, mkRing (buffer_ r) (head_ r) t ch (cached_tail_ r))
  else
    _ ← rd (buffer_ r) (Z.to_nat (Z.land t MASK));
    Ret (true, mkRing (<[Z.to_nat (Z.land t MASK) := x]> (buffer_ r)) (head_ r) (u64 (t + 1)) ch
                      (cached_tail_ r)).

Definition try_pop (r : ring T) : outcome (option T * ring T) :=
  let h := head_ r in
  let ct := if looks_empty h (cached_tail_ r) then tail_ r else cached_tail_ r in
  if looks_empty h ct then Ret (None, mkRing (buffer_ r) h (tail_ r) (cached_head_ r) ct)
  else
    v ← rd (buffer_ r) (Z.to_nat (Z.land h MASK));
    Ret (Some v, mkRing (buffer_ r) (u64 (h + 1)) (tail_ r) (cached_head_ r) ct).

Definition ring_empty (r : ring T) : bool := head_ r =? tail_ r.

Definition ring_size (r : ring T) : Z :=
  if head_ r <=? tail_ r then tail_ r - head_ r else 0.

(** ** Two threads *)

Inductive producer_pc : Type :=
  | PIdle
  | PRefresh (x : T) (t : Z)          (* about to reload head_ *)
  | PWrite (x : T) (t : Z)            (* about to write the slot *)
  | PPublish (x : T) (t : Z).         (* about to store tail_ *)

Inductive consumer_pc : Type :=
  | CIdle
  | CRefresh (h : Z)                  (* about to reload tail_ *)
  | CRead (h : Z)                     (* about to read the slot *)
  | CRelease (h : Z) (v : T).         (* about to store head_ *)

Record threads := mkThreads {
  th_ring : ring T;
  th_p : producer_pc;
  th_c : consumer_pc;
  th_pushed : list T;                 (* items whose try_emplace published them *)
  th_popped : list T                  (* items whose try_pop released their slot *)
}.

Definition set_ring (s : threads) (r : ring T) (p : producer_pc) (c : consumer_pc) : threads :=
  mkThreads r p c (th_pushed s) (th_popped s).

(** The accesses of [try_emplace]. *)
Inductive p_step : threads → threads → Prop :=
  | step_p_start s x :
      th_p s = PIdle →
      let r := th_ring s in
      let t := tail_ r in
      p_step s (set_ring s r (if looks_full t (cached_head_ r) then PRefresh x t else PWrite x t) (th_c s))
  | step_p_refresh s x t :
      th_p s = PRefresh x t →
      let r := th_ring s in
      let r' := mkRing (buffer_ r) (head_ r) (tail_ r) (head_ r) (cached_tail_ r) in
      p_step s (set_ring s r' (if looks_full t (head_ r) then PIdle else PWrite x t) (th_c s))
  | step_p_write s x t :
      th_p s = PWrite x t →
      let r := th_ring s in
      let r' := mkRing (<[Z.to_nat (Z.land t MASK) := x]> (buffer_ r))
                  (head_ r) (tail_ r) (cached_head_ r) (cached_tail_ r) in
      p_step s (set_ring s r' (PPublish x t) (th_c s))
  | step_p_publish s x t :
      th_p s = PPublish x t →
      let r := th_ring s in
      let r' := mkRing (buffer_ r) (head_ r) (u64 (t + 1)) (cached_head_ r) (cached_tail_ r) in
      p_step s (mkThreads r' PIdle (th_c s) (th_pushed s ++ [x]) (th_popped s)).

(** The accesses of [try_pop]. *)
Inductive c_step : threads → threads → Prop :=
  | step_c_start s :
      th_c s = CIdle →
      let r := th_ring s in
      let h := head_ r in
      c_step s (set_ring s r (th_p s) (if looks_empty h (cached_tail_ r) then CRefresh h else CRead h))
  | step_c_refresh s h :
      th_c s = CRefresh h →
      let r := th_ring s in
      let r' := mkRing (buffer_ r) (head_ r) (tail_ r) (cached_head_ r) (tail_ r) in
      c_step s (set_ring s r' (th_p s) (if looks_empty h (tail_ r) then CIdle else CRead h))
  | step_c_read s h v :
      th_c s = CRead h →
      buffer_ (th_ring s) !! Z.to_nat (Z.land h MASK) = Some v →
      c_step s (set_ring s (th_ring s) (th_p s) (CRelease h v))
  | step_c_release s h v :
      th_c s = CRelease h v →
      let r := th_ring s in
      let r' := mkRing (buffer_ r) (u64 (h + 1)) (tail_ r) (cached_head_ r) (cached_tail_ r) in
      c_step s (mkThreads r' (th_p s) CIdle (th_pushed s) (th_popped s ++ [v])).

Definition step (s s' : threads) : Prop := p_step s s' ∨ c_step s s'.

Inductive reachable (zero : T) : threads → Prop :=
  | reach_init : reachable zero (mkThreads (ring_init zero) PIdle CIdle [] [])
  | reach_step s s' : reachable zero s → step s s' → reachable zero s'.

(** ** The invariant *)

Definition npushed (s : threads) : Z := Z.of_nat (length (th_pushed s)).
Definition npopped (s : threads) : Z := Z.of_nat (length (th_popped s)).

Definition slot_of (i : Z) : nat := Z.to_nat (i `mod` Capacity).

Record ring_inv (s : threads) : Prop := {
  inv_len : Z.of_nat (length (buffer_ (th_ring s))) = Capacity;
  inv_tail : tail_ (th_ring s) = npushed s;
  inv_head : head_ (th_ring s) = npopped s;
  inv_order : npopped s ≤ npushed s;
  inv_cached_head : 0 ≤ cached_head_ (th_ring s) ≤ npopped s;
  inv_room : npushed s - cached_head_ (th_ring s) ≤ Capacity;
  inv_cached_tail : 0 ≤ cached_tail_ (th_ring s) ≤ npushed s;
  inv_fifo : th_popped s = take (length (th_popped s)) (th_pushed s);
  inv_slots : ∀ i, npopped s ≤ i < npushed s →
    buffer_ (th_ring s) !! slot_of i = th_pushed s !! Z.to_nat i;
  inv_p : match th_p s with
          | PIdle => True
          | PRefresh x t => t = npushed s
          | PWrite x t => t = npushed s ∧ npushed s - cached_head_ (th_ring s) < Capacity
          | PPublish x t => t = npushed s ∧ npushed s - cached_head_ (th_ring s) < Capacity ∧
              buffer_ (th_ring s) !! slot_of t = Some x
          end;
  inv_c : match th_c s with
          | CIdle => True
          | CRefresh h => h = npopped s
          | CRead h => h = npopped s ∧ npopped s < npushed s
          | CRelease h v => h = npopped s ∧ npopped s < npushed s ∧
              th_pushed s !! Z.to_nat h = Some v
          end
}.

Hypothesis Hcap : ∃ k, 1 ≤ k ≤ 63 ∧ Capacity = 2 ^ k.

Lemma capacity_bounds : 2 ≤ Capacity < 2 ^ 64.
Proof using Hcap.
  destruct Hcap as (k & Hk & ->). split.
  - change 2 with (2 ^ 1) at 1. apply Z.pow_le_mono_r; lia.
  - apply Z.pow_lt_mono_r; lia.
Qed.

Lemma land_MASK i : Z.to_nat (Z.land i MASK) = slot_of i.
Proof using Hcap.
  destruct Hcap as (k & Hk & HC). unfold MASK, slot_of. rewrite HC.
  replace (2 ^ k - 1) with (Z.ones k) by (rewrite Z.ones_equiv; lia).
  by rewrite Z.land_ones by lia.
Qed.

(** Two indices less than a capacity apart use different slots. *)
Lemma slot_of_ne i j : 0 ≤ i < j → j - i < Capacity → slot_of i ≠ slot_of j.
Proof using Hcap.
  pose proof capacity_bounds as Hb. intros Hij Hd. unfold slot_of. intros Heq.
  apply Z2Nat.inj in Heq; [|apply Z.mod_pos_bound; lia..].
  assert ((j - i) `mod` Capacity = 0) as H.
  { rewrite Zminus_mod, Heq, Z.sub_diag. apply Z.mod_0_l. lia. }
  rewrite Z.mod_small in H; lia.
Qed.

Lemma slot_of_lt s i : ring_inv s → (slot_of i < length (buffer_ (th_ring s)))%nat.
Proof using Hcap.
  intros H. pose proof (inv_len _ H). pose proof capacity_bounds.
  pose proof (Z.mod_pos_bound i Capacity ltac:(lia)). unfold slot_of. lia.
Qed.

Lemma looks_full_spec t ch : 0 ≤ ch ≤ t → t < 2 ^ 64 → looks_full t ch = (Capacity <=? t - ch).
Proof. intros. unfold looks_full. rewrite u64_small; [done|unfold in_u64; lia]. Qed.

Lemma init_inv zero : ring_inv (mkThreads (ring_init zero) PIdle CIdle [] []).
Proof using Hcap.
  pose proof capacity_bounds.
  split; cbn; unfold npushed, npopped; cbn; try done; try lia.
  rewrite length_replicate. lia.
Qed.

Lemma step_pushed s s' : step s s' → npushed s ≤ npushed s'.
Proof. destruct 1 as [[]|[]]; unfold npushed; cbn; rewrite ?length_app; lia. Qed.

(** *** Preservation, thread by thread *)

Lemma p_step_inv s s' : ring_inv s → p_step s s' → npushed s' < 2 ^ 64 → ring_inv s'.
Proof using Hcap.
  intros Hinv Hstep. pose proof capacity_bounds as Hcb. pose proof (slot_of_lt s) as Hsl.
  pose proof Hinv as [Hlen Ht Hh Ho Hch Hr Hct Hf Hsl' Hp Hc].
  destruct Hstep as [s x E|s x t E|s x t E|s x t E]; clear_lets; unfold set_ring; cbn;
    intros Hmax; rewrite E in Hp.
  - rewrite looks_full_spec by (unfold npushed in *; cbn in *; lia).
    split; cbn; try done. destruct (Z.leb_spec Capacity (tail_ (th_ring s) - cached_head_ (th_ring s)));
      unfold npushed in *; cbn in *; [done|split; lia].
  - subst t. rewrite looks_full_spec by (rewrite ?Hh; unfold npushed, npopped in *; cbn in *; lia).
    split; cbn; try done; try (rewrite ?Hh; unfold npushed, npopped in *; cbn in *; lia).
    destruct (Z.leb_spec Capacity (npushed s - head_ (th_ring s))); [done|].
    split; [done|]. unfold npushed in *; cbn in *; lia.
  - destruct Hp as [-> Hroom]. rewrite land_MASK. split; cbn; try done.
    + by rewrite length_insert.
    + intros i Hi. rewrite list_lookup_insert_ne; [by apply Hsl'|].
      unfold npushed, npopped in *; cbn in *. apply not_eq_sym, slot_of_ne; lia.
    + split; [done|]. split; [done|]. apply list_lookup_insert_eq. by apply Hsl.
  - destruct Hp as (-> & Hroom & Hx).
    assert (npushed (mkThreads (mkRing (buffer_ (th_ring s)) (head_ (th_ring s))
      (u64 (npushed s + 1)) (cached_head_ (th_ring s)) (cached_tail_ (th_ring s))) PIdle
      (th_c s) (th_pushed s ++ [x]) (th_popped s)) = npushed s + 1) as Hn.
    { unfold npushed. cbn. rewrite length_app. cbn. lia. }
    split; cbn; rewrite ?Hn; change (npopped _) with (npopped s); try done; try lia.
    + rewrite u64_small; [done|]. rewrite Hn in Hmax. unfold in_u64, npushed in *. cbn in *. lia.
    + rewrite take_app_le; [done|]. unfold npushed, npopped in *. cbn in *. lia.
    + intros i Hi. destruct (decide (i = npushed s)) as [->|].
      * rewrite Hx. unfold npushed. by rewrite Nat2Z.id, list_lookup_middle.
      * rewrite lookup_app_l by (unfold npushed, npopped in *; cbn in *; lia).
        apply Hsl'. change (npopped _) with (npopped s) in Hi. lia.
    + destruct (th_c s) as [|h|h|h v]; try done; [intuition lia|].
      destruct Hc as (-> & ? & Hv). split; [done|]. split; [lia|].
      by apply lookup_app_l_Some.
Qed.
Lemma c_step_inv s s' : ring_inv s → c_step s s' → npushed s' < 2 ^ 64 → ring_inv s'.
Proof using Hcap.
  intros Hinv Hstep.
  pose proof Hinv as [Hlen Ht Hh Ho Hch Hr Hct Hf Hsl' Hp Hc].
  destruct Hstep as [s E|s h E|s h v E Hv|s h v E]; clear_lets; unfold set_ring; cbn;
    intros Hmax; rewrite E in Hc.
  - split; cbn; try done. unfold looks_empty.
    destruct (Z.leb_spec (cached_tail_ (th_ring s)) (head_ (th_ring s))); [done|].
    split; [done|]. unfold npushed, npopped in *; cbn in *; lia.
  - subst h. split; cbn; try done; try (rewrite ?Ht; unfold npushed, npopped in *; cbn in *; lia).
    unfold looks_empty. destruct (Z.leb_spec (tail_ (th_ring s)) (npopped s)); [done|].
    split; [done|]. unfold npushed, npopped in *; cbn in *; lia.
  - destruct Hc as [-> Hlt]. split; cbn; try done. split; [done|]. split; [done|].
    rewrite land_MASK in Hv. rewrite <- Hv. symmetry. apply Hsl'. lia.
  - destruct Hc as (-> & Hlt & Hv). set (s' := mkThreads _ _ _ _ _).
    assert (npopped s' = npopped s + 1) as Hn
      by (unfold npopped, s'; cbn; rewrite length_app; cbn; lia).
    change (npushed s) with (npushed s') in *.
    split; cbn; rewrite ?Hn; try done; try lia.
    + rewrite u64_small; [done|]. unfold in_u64, npushed, npopped in *. cbn in *. lia.
    + rewrite length_app. cbn. rewrite Nat.add_1_r. unfold npopped in Hv.
      rewrite Nat2Z.id in Hv. rewrite (take_S_r _ _ v) by done. by rewrite <- Hf.
    + intros i Hi. apply Hsl'. lia.
Qed.

Lemma reachable_inv zero s : reachable zero s → npushed s < 2 ^ 64 → ring_inv s.
Proof using Hcap.
  induction 1 as [|s s' Hr IH Hs]; intros Hmax; [apply init_inv|].
  pose proof (step_pushed _ _ Hs). ospecialize (IH _); [lia|].
  destruct Hs; [by eapply p_step_inv|by eapply c_step_inv].
Qed.
(** Run without interference, the calls are runs of their threads' steps. *)
Lemma try_emplace_steps s x : ring_inv s → th_p s = PIdle →
  ∃ b r' s', try_emplace (th_ring s) x = Ret (b, r') ∧ rtc p_step s s' ∧ th_ring s' = r' ∧
    th_p s' = PIdle ∧ th_popped s' = th_popped s ∧
    th_pushed s' = (if b then th_pushed s ++ [x] else th_pushed s).
Proof using Hcap.
  intros Hinv Hidle. unfold try_emplace. set (r := th_ring s). set (t := tail_ r).
  assert (∀ s1 : threads, buffer_ (th_ring s1) = buffer_ r → tail_ (th_ring s1) = t →
    head_ (th_ring s1) = head_ r → cached_tail_ (th_ring s1) = cached_tail_ r →
    th_p s1 = PWrite x t → th_c s1 = th_c s → th_pushed s1 = th_pushed s →
    th_popped s1 = th_popped s →
    ∃ s', rtc p_step s1 s' ∧
      th_ring s' = mkRing (<[Z.to_nat (Z.land t MASK) := x]> (buffer_ r)) (head_ r) (u64 (t + 1))
                     (cached_head_ (th_ring s1)) (cached_tail_ r) ∧
      th_p s' = PIdle ∧ th_popped s' = th_popped s ∧ th_pushed s' = th_pushed s ++ [x]) as Hfin.
  { intros s1 Hb Ht Hh Hct Hp Hc Hpu Hpo. eexists. split.
    - eapply rtc_l; [by apply step_p_write|]. eapply rtc_once. by apply (step_p_publish _ x t).
    - cbn. by rewrite Hb, Hh, Hct, Hpu. }
  assert (∀ ch, (_ ← rd (buffer_ r) (Z.to_nat (Z.land t MASK));
    Ret (true, mkRing (<[Z.to_nat (Z.land t MASK) := x]> (buffer_ r)) (head_ r) (u64 (t + 1)) ch
                      (cached_tail_ r)))
    = Ret (true, mkRing (<[Z.to_nat (Z.land t MASK) := x]> (buffer_ r)) (head_ r) (u64 (t + 1)) ch
                      (cached_tail_ r))) as Hrd.
  { intros ch. rewrite (rd_total x); [done|]. rewrite land_MASK. by apply slot_of_lt. }
  pose proof (step_p_start s x Hidle) as H1. cbn in H1. fold r t in H1.
  destruct (looks_full t (cached_head_ r)) eqn:E1.
  - pose proof (step_p_refresh _ x t (eq_refl : th_p (set_ring s r (PRefresh x t) (th_c s)) = _)) as H2.
    cbn in H2. destruct (looks_full t (head_ r)) eqn:E2.
    + eexists _, _, _. split; [done|]. split; [eapply rtc_l; [exact H1|]; by eapply rtc_once|done].
    + rewrite Hrd.
      destruct (Hfin (set_ring (set_ring s r (PRefresh x t) (th_c s))
          (mkRing (buffer_ r) (head_ r) t (head_ r) (cached_tail_ r)) (PWrite x t) (th_c s)))
        as (s' & Hs & Hr & Hrest); [done..|].
      eexists _, _, s'. split; [done|]. split; [|done].
      eapply rtc_l; [exact H1|]. by eapply rtc_l.
  - rewrite E1, Hrd. destruct (Hfin (set_ring s r (PWrite x t) (th_c s))) as (s' & Hs & Hr & Hrest);
      [done..|].
    eexists _, _, s'. split; [done|]. split; [by eapply rtc_l|done].
Qed.
(** ** A ring and the queue it holds *)

(** What the ring holds between two calls, oldest first. *)
Record ring_holds (r : ring T) (l : list T) : Prop := {
  rh_len : Z.of_nat (length (buffer_ r)) = Capacity;
  rh_head : 0 ≤ cached_head_ r ≤ head_ r;
  rh_tail : tail_ r = head_ r + Z.of_nat (length l);
  rh_room : tail_ r - cached_head_ r ≤ Capacity;
  rh_cached_tail : cached_tail_ r ≤ tail_ r;
  rh_slots : ∀ i x, l !! i = Some x → buffer_ r !! slot_of (head_ r + Z.of_nat i) = Some x
}.

Lemma init_holds zero : ring_holds (ring_init zero) [].
Proof using Hcap.
  pose proof capacity_bounds. split; cbn; try lia; [|done]. rewrite length_replicate. lia.
Qed.

Lemma slot_of_in (b : list T) i : Z.of_nat (length b) = Capacity → (slot_of i < length b)%nat.
Proof using Hcap.
  intros Hb. pose proof capacity_bounds. unfold slot_of. pose proof (Z.mod_pos_bound i Capacity). lia.
Qed.

(** [try_emplace] alone appends, unless the ring is full. *)
Lemma emplace_holds r l x : ring_holds r l → tail_ r + 1 < 2 ^ 64 →
  let room := Z.of_nat (length l) <? Capacity in
  ∃ r', try_emplace r x = Ret (room, r') ∧ ring_holds r' (if room then l ++ [x] else l) ∧
    tail_ r' = tail_ r + Z.b2z room.
Proof using Hcap.
  intros [Hlen Hh Ht Hroom Hct Hsl] Hmax room. pose proof capacity_bounds as Hc. unfold try_emplace.
  set (ch := if looks_full (tail_ r) (cached_head_ r) then head_ r else cached_head_ r).
  assert (0 ≤ ch ≤ head_ r ∧ tail_ r - ch ≤ Capacity) as [Hch Hchr] by (unfold ch; destruct (looks_full _ _); lia).
  assert (looks_full (tail_ r) ch = negb room) as ->.
  { rewrite looks_full_spec by lia. unfold ch, room.
    destruct (looks_full (tail_ r) (cached_head_ r)) eqn:E; rewrite looks_full_spec in E by lia;
      [|apply Z.leb_gt in E]; destruct (Z.leb_spec Capacity (tail_ r - head_ r)), (Z.ltb_spec (Z.of_nat (length l)) Capacity);
      cbn; try lia; try (rewrite (proj2 (Z.leb_gt _ _)) by lia; done). }
  destruct (Z.ltb_spec (Z.of_nat (length l)) Capacity) as [Hl|Hl]; unfold room; cbn [negb].
  - rewrite land_MASK, (rd_total x) by by apply slot_of_in. cbn [mbind outcome_bind].
    eexists. split; [done|]. rewrite u64_small by (unfold in_u64; lia). split; [|cbn; lia].
    assert (tail_ r - ch < Capacity) as Hlt.
    { assert (looks_full (tail_ r) ch = false) as Hf; [|rewrite looks_full_spec in Hf by lia; by apply Z.leb_gt in Hf].
      rewrite looks_full_spec by lia. apply Z.leb_gt. unfold ch.
      destruct (looks_full (tail_ r) (cached_head_ r)) eqn:E; [lia|].
      rewrite looks_full_spec in E by lia. by apply Z.leb_gt in E. }
    split; cbn; rewrite ?length_insert, ?length_app; cbn; try lia.
    intros i y Hi. destruct (decide (i = length l)) as [->|Hne].
    + rewrite list_lookup_middle in Hi by done. injection Hi as <-. rewrite Ht. apply list_lookup_insert_eq.
      by apply slot_of_in.
    + pose proof (lookup_lt_Some _ _ _ Hi) as Hlti. rewrite length_app in Hlti. cbn in Hlti.
      rewrite lookup_app_l in Hi by lia. rewrite list_lookup_insert_ne; [by apply Hsl|].
      intros E. apply (slot_of_ne (head_ r + Z.of_nat i) (tail_ r)); [lia|lia|done].
  - eexists. split; [done|]. split; [|cbn; lia]. split; cbn; try lia. exact Hsl.
Qed.

(** [try_pop] alone takes the oldest, if there is one. *)
Lemma pop_holds r l : ring_holds r l → tail_ r < 2 ^ 64 →
  ∃ r', try_pop r = Ret (list.head l, r') ∧ ring_holds r' (list.tail l) ∧ tail_ r' = tail_ r.
Proof using Hcap.
  intros [Hlen Hh Ht Hroom Hct Hsl] Hmax. pose proof capacity_bounds as Hc. unfold try_pop.
  set (ct := if looks_empty (head_ r) (cached_tail_ r) then tail_ r else cached_tail_ r).
  assert (ct ≤ tail_ r) as Hctle by (unfold ct; destruct (looks_empty _ _); lia).
  destruct l as [|x l].
  - assert (looks_empty (head_ r) ct = true) as -> by (apply Z.leb_le; cbn in Ht; lia).
    eexists. split; [done|]. split; [|done]. split; cbn; try done; lia.
  - assert (looks_empty (head_ r) ct = false) as ->.
    { apply Z.leb_gt. unfold ct, looks_empty. cbn in Ht. destruct (Z.leb_spec (cached_tail_ r) (head_ r)); lia. }
    pose proof (Hsl 0%nat x eq_refl) as Hx. rewrite Z.add_0_r in Hx.
    rewrite land_MASK, (rd_lookup _ _ _ Hx). cbn [mbind outcome_bind length] in *.
    eexists. split; [done|]. split; [|done]. rewrite u64_small by (unfold in_u64; lia).
    split; cbn; try lia. intros i y Hi. replace (head_ r + 1 + Z.of_nat i) with (head_ r + Z.of_nat (S i)) by lia.
    by apply Hsl.
Qed.
End ring_buffer.

(** ** Theorems *)

(** C17: in every interleaving of the two threads, and as long as fewer than
    2^64 items have been published, the consumer has received a prefix of what
    the producer published, in order, nothing lost or repeated; at most
    [Capacity] items are in flight, and each of them still sits in its slot. *)
Theorem ring_fifo {T} (Capacity k : Z) (zero : T) s :
  Capacity = 2 ^ k → 1 ≤ k ≤ 63 → reachable Capacity zero s → npushed s < 2 ^ 64 →
  th_popped s = take (length (th_popped s)) (th_pushed s) ∧
  0 ≤ npushed s - npopped s ≤ Capacity ∧
  ∀ i, npopped s ≤ i < npushed s →
    buffer_ (th_ring s) !! slot_of Capacity i = th_pushed s !! Z.to_nat i.
Proof.
  intros HC Hk Hr Hmax.
  destruct (reachable_inv Capacity (ex_intro _ k (conj Hk HC)) zero s Hr Hmax)
    as [_ _ _ Ho Hch Hroom _ Hf Hs _ _].
  split; [done|]. split; [lia|done].
Qed.

(** A call fails only for a genuine reason: when the producer's reload
    still looks full the ring holds [Capacity] items at that moment, and when
    the consumer's reload still looks empty it holds none; and a consumer that
    is about to read finds an item. *)
Theorem ring_fails_only_when_full_or_empty {T} (Capacity k : Z) (zero : T) s :
  Capacity = 2 ^ k → 1 ≤ k ≤ 63 → reachable Capacity zero s → npushed s < 2 ^ 64 →
  (∀ x t, th_p s = PRefresh x t → looks_full Capacity t (head_ (th_ring s)) = true →
     npushed s - npopped s = Capacity) ∧
  (∀ h, th_c s = CRefresh h → looks_empty h (tail_ (th_ring s)) = true → npushed s = npopped s) ∧
  (∀ h, th_c s = CRead h → ∃ s', c_step Capacity s s').
Proof.
  intros HC Hk Hr Hmax. assert (∃ k, 1 ≤ k ≤ 63 ∧ Capacity = 2 ^ k) as Hcap by eauto.
  pose proof (reachable_inv Capacity Hcap zero s Hr Hmax) as Hinv.
  pose proof Hinv as [Hlen Ht Hh Ho Hch Hroom _ _ _ Hp Hc].
  split; [|split].
  - intros x t E Hf. rewrite E in Hp. subst t. rewrite Hh in Hf.
    rewrite looks_full_spec in Hf by (unfold npushed, npopped in *; lia).
    apply Z.leb_le in Hf. lia.
  - intros h E Hf. rewrite E in Hc. subst h. unfold looks_empty in Hf. apply Z.leb_le in Hf. lia.
  - intros h E. destruct (lookup_lt_is_Some_2 (buffer_ (th_ring s)) (Z.to_nat (Z.land h (MASK Capacity))))
      as [v Hv]; [rewrite (land_MASK Capacity Hcap); by apply slot_of_lt|].
    eexists. by eapply step_c_read.
Qed.

(** A reachable state for the witnesses: one item pushed, none popped. *)
Lemma ring_example : reachable 2 0
  (mkThreads (mkRing [7; 0] 0 1 0 0) PIdle CIdle [7] []).
Proof.
  pose (s0 := mkThreads (ring_init 2 0) PIdle CIdle [] []).
  pose (s1 := mkThreads (ring_init 2 0) (PWrite 7 0) CIdle [] []).
  pose (s2 := mkThreads (mkRing [7; 0] 0 0 0 0) (PPublish 7 0) CIdle [] []).
  apply (reach_step 2 0 s2).
  - apply (reach_step 2 0 s1).
    + apply (reach_step 2 0 s0); [apply reach_init|]. left. exact (step_p_start 2 s0 7 eq_refl).
    + left. exact (step_p_write 2 s1 7 0 eq_refl).
  - left. exact (step_p_publish 2 s2 7 0 eq_refl).
Defined.

Lemma ring_fifo_witness :
  2 = 2 ^ 1 ∧ 1 ≤ 1 ≤ 63 ∧
  let s := mkThreads (mkRing [7; 0] 0 1 0 0) PIdle CIdle [7] [] in
  0 ≤ npushed s - npopped s ≤ 2.
Proof.
  split; [reflexivity|]. split; [lia|]. intros s.
  exact (proj1 (proj2 (ring_fifo 2 1 0 s eq_refl ltac:(lia) ring_example (eq_refl : npushed s < 2 ^ 64)))).
Defined.

Lemma ring_fails_only_when_full_or_empty_witness :
  2 = 2 ^ 1 ∧
  let s := mkThreads (mkRing [7; 0] 0 1 0 0) PIdle CIdle [7] [] in
  ∀ h, th_c s = CRead h → ∃ s', c_step 2 s s'.
Proof.
  split; [reflexivity|]. intros s.
  exact (proj2 (proj2 (ring_fails_only_when_full_or_empty 2 1 0 s eq_refl ltac:(lia) ring_example
    (eq_refl : npushed s < 2 ^ 64)))).
Defined.
