(* ===== verification/PointStore.v ===== *)
(** * PointStore: the engine's durable key-value side

    The part of [CPUMockEngine] (compute_mock.cpp) that serves point
    operations: the hash table, its ordered mirror, the write-ahead log, the
    checkpoint file, transactions and batches.  The state is a record with the
    file system in it; every operation returns the next state or a crash. *)

From Stdlib Require Import Sorting.Sorted.
From S2P Require Export KVStore ColdStore Paging.

Definition MATRIX_CKPT_MAGIC : Z := 0x4D434B50.

Record PointStore := mkPS {
  kv_ : KVStore;
  key_index_ : gmap Z Z;                     (* std::map: iterated in key order *)
  cold_store_ : option ColdStore;
  checkpoint_path_ : string;
  checkpoints_ : Z;
  txn_buf_ : list (Z * Z);
  in_txn_ : bool;
  transactions_committed_ : Z;
  transactions_rolled_back_ : Z;
  reads_ : Z;
  writes_ : Z;
  commits_ : Z;
  store_overflows_ : Z;
  binned_ : list DatabaseQuery;
  offsets_ : list Z;
  ps_fs : filesys
}.

Definition with_kv (kv : KVStore) (index : gmap Z Z) (commits : Z) (ps : PointStore) : PointStore :=
  mkPS kv index (cold_store_ ps) (checkpoint_path_ ps) (checkpoints_ ps) (txn_buf_ ps) (in_txn_ ps)
    (transactions_committed_ ps) (transactions_rolled_back_ ps) (reads_ ps) (u64 (writes_ ps + 1)) commits
    (store_overflows_ ps) (binned_ ps) (offsets_ ps) (ps_fs ps).

Definition with_txn (buf : list (Z * Z)) (open : bool) (committed rolled : Z) (ps : PointStore) : PointStore :=
  mkPS (kv_ ps) (key_index_ ps) (cold_store_ ps) (checkpoint_path_ ps) (checkpoints_ ps) buf open
    committed rolled (reads_ ps) (writes_ ps) (commits_ ps) (store_overflows_ ps) (binned_ ps) (offsets_ ps)
    (ps_fs ps).

Definition with_disk (wal : option ColdStore) (fs : filesys) (checkpoints : Z) (ps : PointStore) : PointStore :=
  mkPS (kv_ ps) (key_index_ ps) wal (checkpoint_path_ ps) checkpoints (txn_buf_ ps) (in_txn_ ps)
    (transactions_committed_ ps) (transactions_rolled_back_ ps) (reads_ ps) (writes_ ps) (commits_ ps)
    (store_overflows_ ps) (binned_ ps) (offsets_ ps) fs.

Definition with_batch (binned : list DatabaseQuery) (offsets : list Z) (reads : Z) (ps : PointStore) : PointStore :=
  mkPS (kv_ ps) (key_index_ ps) (cold_store_ ps) (checkpoint_path_ ps) (checkpoints_ ps) (txn_buf_ ps)
    (in_txn_ ps) (transactions_committed_ ps) (transactions_rolled_back_ ps) reads (writes_ ps) (commits_ ps)
    (store_overflows_ ps) binned offsets (ps_fs ps).

(** ** Committed writes *)

(** A full table counts an overflow and then fails the assertion. *)
Definition apply_committed_write (ps : PointStore) (key value : Z) : outcome PointStore :=
  '(ok, kv') ← kv_put (kv_ ps) key value;
  if (ok : bool) then Ret (with_kv kv' (<[key := value]> (key_index_ ps)) (u64 (commits_ ps + 1)) ps)
  else Crash AssertFailed.

(** A call on the log, if there is one. *)
Definition wal_call (f : filesys → ColdStore → ColdStore * filesys) (ps : PointStore) : PointStore :=
  match cold_store_ ps with
  | None => ps
  | Some cs => let '(cs', fs') := f (ps_fs ps) cs in with_disk (Some cs') fs' (checkpoints_ ps) ps
  end.

(** ** Transactions *)

Definition begin_ (ps : PointStore) : outcome PointStore :=
  _ ← assert_ (negb (in_txn_ ps));
  Ret (with_txn [] true (transactions_committed_ ps) (transactions_rolled_back_ ps) ps).

Definition txn_put (key value : Z) (ps : PointStore) : outcome PointStore :=
  _ ← assert_ (in_txn_ ps);
  Ret (with_txn (txn_buf_ ps ++ [(key, value)]) true (transactions_committed_ ps) (transactions_rolled_back_ ps) ps).

(** The log part of [commit]: the buffered puts, then the commit marker. *)
Definition log_transaction (ps : PointStore) : PointStore :=
  match cold_store_ ps with
  | None => ps
  | Some _ =>
      wal_call append_commit
        (fold_left (λ ps kv, wal_call (λ fs cs, append_txn_put fs cs kv.1 kv.2) ps) (txn_buf_ ps) ps)
  end.

Definition commit (ps : PointStore) : outcome PointStore :=
  _ ← assert_ (in_txn_ ps);
  ps1 ← fold_outcome (λ ps kv, apply_committed_write ps kv.1 kv.2) (txn_buf_ ps) (log_transaction ps);
  Ret (with_txn [] false (u64 (transactions_committed_ ps1 + 1)) (transactions_rolled_back_ ps1) ps1).

Definition rollback (ps : PointStore) : outcome PointStore :=
  _ ← assert_ (in_txn_ ps);
  Ret (with_txn [] false (transactions_committed_ ps) (u64 (transactions_rolled_back_ ps + 1)) ps).

(** ** Checkpoints *)

Definition entry_bytes (kv : Z * Z) : list byte := le_u64 kv.1 ++ le_u64 kv.2.

(** Each [fwrite] of the writer, in order: the magic, the count, and a key and a
    value per entry. *)
Definition ckpt_writes (kv : KVStore) : list (list byte) :=
  le_u32 MATRIX_CKPT_MAGIC :: le_u64 (kv_size kv) ::
  concat (map (λ e, [le_u64 e.1; le_u64 e.2]) (kv_entries kv)).

(** The calls of [save_checkpoint] on the disk, in order; one that fails aborts,
    a short write after the sync that still follows it. *)
Definition save_calls (path : string) (kv : KVStore) : list disk_call :=
  let tmp := path +:+ ".tmp" in
  COpenWrite tmp :: map (CWrite tmp) (ckpt_writes kv) ++ [CSync tmp; CRename tmp path].

Definition save_checkpoint (path : string) (kv : KVStore) (fs : filesys) : outcome filesys :=
  of_option Aborted (disk_run fs (save_calls path kv)).

(** The loop of [load_checkpoint] over the rest [r] of the file.  A turn consumes
    sixteen bytes, so [length r] turns are enough; [false] is a short file. *)
Fixpoint load_entries (fuel : nat) (n : Z) (r : list byte) (kv : KVStore) : outcome (bool * KVStore) :=
  if n <=? 0 then Ret (true, kv)
  else
    match fuel with
    | O => Ret (false, kv)
    | S fuel' =>
        match fread_u64 r with
        | None => Ret (false, kv)
        | Some (k, r1) =>
            match fread_u64 r1 with
            | None => Ret (false, kv)
            | Some (v, r2) => '(_, kv') ← kv_put kv k v; load_entries fuel' (n - 1) r2 kv'
            end
        end
    end.

Definition load_checkpoint (path : string) (fs : filesys) (kv : KVStore) : outcome (bool * KVStore) :=
  match fs_read fs path with
  | None => Ret (false, kv)
  | Some r =>
      match fread_u32 r with
      | None => Crash Aborted
      | Some (magic, r1) =>
          if negb (magic =? MATRIX_CKPT_MAGIC) then Crash Aborted
          else match fread_u64 r1 with
               | None => Crash Aborted
               | Some (count, r2) =>
                   '(ok, kv') ← load_entries (length r2) count r2 kv;
                   if (ok : bool) then Ret (true, kv') else Crash Aborted
               end
      end
  end.

(** [save_checkpoint(checkpoint_path_)], then [cold_store_->truncate()]. *)
Definition checkpoint_calls (ps : PointStore) (cs : ColdStore) : list disk_call :=
  save_calls (checkpoint_path_ ps) (kv_ ps) ++ truncate_calls cs.

Definition checkpoint (ps : PointStore) : outcome PointStore :=
  _ ← assert_ (negb (in_txn_ ps));
  match cold_store_ ps with
  | None => Ret ps
  | Some cs =>
      fs' ← of_option Aborted (disk_run (ps_fs ps) (checkpoint_calls ps cs));
      Ret (with_disk (Some (truncated cs)) fs' (u64 (checkpoints_ ps + 1)) ps)
  end.

Definition shutdown (ps : PointStore) : outcome PointStore :=
  ps ← (if in_txn_ ps then rollback ps else Ret ps);
  match cold_store_ ps with Some _ => checkpoint ps | None => Ret ps end.

(** ** Construction and recovery *)

Definition fresh_kv : KVStore :=
  mkKV MATRIX_STORE_MASK 0 (replicate (Z.to_nat MATRIX_STORE_SLOTS) empty_slot).

Definition zero_query : DatabaseQuery := mkQuery 0 0 0 0 0 [].

Definition fresh_ps (fs : filesys) (kv : KVStore) (wal : option ColdStore) (ckpt : string) (index : gmap Z Z) :
    PointStore :=
  mkPS kv index wal ckpt 0 [] false 0 0 0 0 0 0
    (replicate (Z.to_nat MATRIX_BATCH_MAX) zero_query) (replicate (S (Z.to_nat MATRIX_PAGE_COUNT)) 0) fs.

(** [kv_.put(k, v)] with its result ignored. *)
Definition put_quietly (kv : KVStore) (e : Z * Z) : outcome KVStore :=
  '(_, kv') ← kv_put kv e.1 e.2; Ret kv'.

Definition puts_map (m : gmap Z Z) (l : list (Z * Z)) : gmap Z Z :=
  fold_left (λ m e, <[e.1 := e.2]> m) l m.

(** The constructor: the last checkpoint, then the log on top, then the index. *)
Definition open_engine (wal_path : string) (sync : SyncPolicy) (fs : filesys) : outcome PointStore :=
  if String.eqb wal_path EmptyString then Ret (fresh_ps fs fresh_kv None EmptyString ∅)
  else
    let ckpt := wal_path +:+ ".ckpt" in
    '(_, kv1) ← load_checkpoint ckpt fs fresh_kv;
    '(cs, fs1) ← cs_open fs wal_path sync;
    kv2 ← fold_outcome put_quietly (replay fs1 cs) kv1;
    Ret (fresh_ps fs1 kv2 (Some cs) ckpt (kv_for_each (λ m k v, <[k := v]> m) kv2 ∅)).

(** [restore] of the point-op half: the table is filled, the index is not. *)
Definition restore_kv (path : string) (ps : PointStore) : outcome PointStore :=
  '(_, kv') ← load_checkpoint path (ps_fs ps) (kv_ ps);
  Ret (mkPS kv' (key_index_ ps) (cold_store_ ps) (checkpoint_path_ ps) (checkpoints_ ps) (txn_buf_ ps)
    (in_txn_ ps) (transactions_committed_ ps) (transactions_rolled_back_ ps) (reads_ ps) (writes_ ps)
    (commits_ ps) (store_overflows_ ps) (binned_ ps) (offsets_ ps) (ps_fs ps)).

(** ** Range reads *)

Definition in_range (lo hi : Z) (e : Z * Z) : bool := (lo <=? e.1) && (e.1 <=? hi).

Definition kv_range (lo hi : Z) (ps : PointStore) : list (Z * Z) :=
  List.filter (in_range lo hi) (kv_entries (kv_ ps)).

(** [lower_bound(lo)] and the walk while [first <= hi], over the entries in key order. *)
Fixpoint insert_sorted (e : Z * Z) (l : list (Z * Z)) : list (Z * Z) :=
  match l with
  | [] => [e]
  | x :: l' => if e.1 <=? x.1 then e :: l else x :: insert_sorted e l'
  end.

Definition ordered_entries (m : gmap Z Z) : list (Z * Z) := foldr insert_sorted [] (map_to_list m).

Fixpoint walk_to (hi : Z) (l : list (Z * Z)) : list (Z * Z) :=
  match l with
  | [] => []
  | e :: l' => if e.1 <=? hi then e :: walk_to hi l' else []
  end.

Fixpoint lower_bound (lo : Z) (l : list (Z * Z)) : list (Z * Z) :=
  match l with
  | [] => []
  | e :: l' => if e.1 <? lo then lower_bound lo l' else l
  end.

Definition kv_range_sorted (lo hi : Z) (ps : PointStore) : list (Z * Z) :=
  walk_to hi (lower_bound lo (ordered_entries (key_index_ ps))).

(** ** Batches *)

Definition set_transaction_id (v : Z) (q : DatabaseQuery) : DatabaseQuery :=
  mkQuery (query_id q) (timestamp_us q) v (opcode q) (payload_size q) (payload q).

Definition exec_one (j : nat) (ps : PointStore) : outcome PointStore :=
  q ← rd (binned_ ps) j;
  if opcode q =? OP_READ then
    r ← kv_get (kv_ ps) (query_id q);
    Ret (with_batch (<[j := set_transaction_id (default 0 r) q]> (binned_ ps)) (offsets_ ps)
           (u64 (reads_ ps + 1)) ps)
  else if opcode q =? OP_WRITE then
    apply_committed_write (wal_call (λ fs cs, append_put fs cs (query_id q) (query_id q)) ps)
      (query_id q) (query_id q)
  else Ret ps.

Definition exec_page (page : nat) (ps : PointStore) : outcome PointStore :=
  begin ← rd (offsets_ ps) page;
  end_ ← rd (offsets_ ps) (S page);
  for_loop (Z.to_nat begin) (Z.to_nat (end_ - begin)) exec_one ps.

Definition execute_batch (batch : list DatabaseQuery) (ps : PointStore) : outcome PointStore :=
  let batch := take (Z.to_nat MATRIX_BATCH_MAX) batch in
  if (length batch =? 0)%nat then Ret ps
  else
    '(binned, offsets) ← matrix_bin_by_page batch (binned_ ps) (offsets_ ps);
    for_loop 0 (Z.to_nat MATRIX_PAGE_COUNT) exec_page (with_batch binned offsets (reads_ ps) ps).

(** ** Lemmas: maps built by puts *)

Lemma puts_map_union m l : puts_map m l = list_to_map (reverse l) ∪ m.
Proof.
  unfold puts_map. revert m. induction l as [|[k v] l IH]; intros m; cbn [fold_left];
    [cbn; by rewrite map_empty_union|].
  rewrite IH, reverse_cons, list_to_map_app. cbn [list_to_map foldr fst snd].
  rewrite insert_empty, (insert_union_singleton_l m). by rewrite (assoc_L (∪)).
Qed.

(** Replaying a log over a state that already contains it changes nothing. *)
Lemma puts_map_idemp m l : puts_map (puts_map m l) l = puts_map m l.
Proof. rewrite !puts_map_union. by rewrite (assoc_L (∪)), (idemp_L (∪)). Qed.

Lemma puts_map_cons m e l : puts_map m (e :: l) = puts_map (<[e.1 := e.2]> m) l.
Proof. done. Qed.

Lemma puts_map_app m l1 l2 : puts_map m (l1 ++ l2) = puts_map (puts_map m l1) l2.
Proof. unfold puts_map. apply fold_left_app. Qed.

Lemma puts_map_dom m l : dom m ⊆ dom (puts_map m l).
Proof. rewrite puts_map_union, dom_union_L. set_solver. Qed.

Lemma puts_map_size m l : (size m ≤ size (puts_map m l))%nat.
Proof. rewrite <- !(size_dom (D:=gset Z)). apply subseteq_size, puts_map_dom. Qed.

Lemma puts_map_entries kv : kv_wf kv → puts_map ∅ (kv_entries kv) = kv_map kv.
Proof.
  intros Hwf. rewrite puts_map_union, map_union_empty. unfold kv_map. symmetry.
  apply list_to_map_proper; [by apply entries_nodup|]. symmetry. apply reverse_Permutation.
Qed.

Lemma kv_size_map kv : kv_wf kv → size_ kv = Z.of_nat (size (kv_map kv)).
Proof.
  intros Hwf. rewrite (wf_size _ Hwf). f_equal. unfold kv_map. rewrite <- length_map_to_list.
  by rewrite map_to_list_to_map by (by apply entries_nodup).
Qed.

Definition u64_map (m : gmap Z Z) : Prop := map_Forall (λ k v, in_u64 k ∧ in_u64 v) m.
Definition u64_puts (l : list (Z * Z)) : Prop := Forall (λ e, in_u64 e.1 ∧ in_u64 e.2) l.

Lemma u64_map_puts m l : u64_map m → u64_puts l → u64_map (puts_map m l).
Proof.
  intros Hm Hl. revert m Hm. induction Hl as [|[k v] l Hkv _ IH]; intros m Hm; [done|]. cbn.
  apply IH. by apply map_Forall_insert_2.
Qed.

Definition fits (m : gmap Z Z) : Prop := Z.of_nat (size m) ≤ MATRIX_STORE_SLOTS.

(** A table of the engine's size: well formed, with its capacity. *)
Definition engine_kv (kv : KVStore) : Prop := kv_wf kv ∧ kv_capacity kv = MATRIX_STORE_SLOTS.

Lemma fresh_kv_ok : engine_kv fresh_kv ∧ kv_map fresh_kv = ∅.
Proof.
  unfold fresh_kv, MATRIX_STORE_MASK, MATRIX_STORE_SLOTS.
  change 65536 with (2 ^ 16). split; [split|]; [apply make_wf; lia|done|apply kv_map_make; lia].
Qed.

#[global] Opaque fresh_kv.

(** A put into a table that has room for its key succeeds. *)
Lemma kv_put_fits kv k v :
  engine_kv kv → fits (<[k := v]> (kv_map kv)) →
  ∃ kv', kv_put kv k v = Ret (true, kv') ∧ engine_kv kv' ∧ kv_map kv' = <[k := v]> (kv_map kv).
Proof.
  intros [Hwf Hcap] Hfit. destruct (kv_put_spec kv k v Hwf) as (b & kv' & Hput & Hpost).
  unfold put_post in Hpost. destruct b.
  - destruct Hpost as (Hwf' & Hm & Hmap). exists kv'. split; [done|]. split; [|done]. split; [done|].
    unfold kv_capacity in *. by rewrite Hm.
  - exfalso. destruct Hpost as (-> & Hnone & Hfull). unfold fits in Hfit.
    rewrite map_size_insert_None in Hfit by done. rewrite kv_size_map in Hfull by done.
    unfold cap, kv_capacity in *. lia.
Qed.

Lemma put_quietly_all l kv :
  engine_kv kv → fits (puts_map (kv_map kv) l) →
  ∃ kv', fold_outcome put_quietly l kv = Ret kv' ∧ engine_kv kv' ∧ kv_map kv' = puts_map (kv_map kv) l.
Proof.
  revert kv. induction l as [|e l IH]; intros kv Hkv Hfit; cbn [fold_outcome]; [eauto|].
  destruct (kv_put_fits kv e.1 e.2 Hkv) as (kv1 & Hput & Hkv1 & Hm1).
  { unfold fits in *. pose proof (puts_map_size (<[e.1 := e.2]> (kv_map kv)) l) as Hle.
    rewrite puts_map_cons in Hfit. lia. }
  assert (put_quietly kv e = Ret kv1) as -> by (unfold put_quietly; by rewrite Hput). cbn [mbind outcome_bind].
  destruct (IH kv1 Hkv1) as (kv' & -> & Hkv' & Hm'); [by rewrite Hm1|].
  exists kv'. split; [done|]. split; [done|]. by rewrite Hm', Hm1.
Qed.

(** ** Lemmas: the checkpoint file *)

Definition ckpt_bytes (es : list (Z * Z)) : list byte :=
  le_u32 MATRIX_CKPT_MAGIC ++ le_u64 (Z.of_nat (length es)) ++ concat (map entry_bytes es).

Lemma length_entries es : length (concat (map entry_bytes es)) = (16 * length es)%nat.
Proof.
  induction es as [|e es IH]; [done|]. cbn [map concat]. unfold entry_bytes at 1.
  rewrite !length_app, !length_le_u64, IH. cbn [length]. lia.
Qed.

Lemma load_entries_spec es fuel kv :
  (length es ≤ fuel)%nat → u64_puts es → engine_kv kv → fits (puts_map (kv_map kv) es) →
  ∃ kv', load_entries fuel (Z.of_nat (length es)) (concat (map entry_bytes es)) kv = Ret (true, kv') ∧
    engine_kv kv' ∧ kv_map kv' = puts_map (kv_map kv) es.
Proof.
  revert fuel kv. induction es as [|e es IH]; intros fuel kv Hfuel Hes Hkv Hfit.
  { exists kv. destruct fuel; done. }
  destruct fuel as [|fuel]; [cbn in Hfuel; lia|]. apply Forall_cons in Hes as [[Hk Hv] Hes].
  cbn [load_entries map concat length]. destruct (Z.leb_spec (Z.of_nat (S (length es))) 0); [lia|].
  unfold entry_bytes at 1. rewrite <- !app_assoc. rewrite !fread_u64_app, !u64_small by done.
  destruct (kv_put_fits kv e.1 e.2 Hkv) as (kv1 & -> & Hkv1 & Hm1).
  { unfold fits in *. pose proof (puts_map_size (<[e.1 := e.2]> (kv_map kv)) es) as Hle.
    rewrite puts_map_cons in Hfit. lia. }
  cbn [mbind outcome_bind].
  replace (Z.of_nat (S (length es)) - 1) with (Z.of_nat (length es)) by lia.
  destruct (IH fuel kv1) as (kv' & -> & Hkv' & Hm'); [cbn in Hfuel; lia|done|done|by rewrite Hm1|].
  exists kv'. split; [done|]. split; [done|]. by rewrite Hm', Hm1.
Qed.

Lemma load_checkpoint_spec path fs es kv :
  fs_read fs path = Some (ckpt_bytes es) → Z.of_nat (length es) < 2 ^ 64 →
  u64_puts es → engine_kv kv → fits (puts_map (kv_map kv) es) →
  ∃ kv', load_checkpoint path fs kv = Ret (true, kv') ∧ engine_kv kv' ∧ kv_map kv' = puts_map (kv_map kv) es.
Proof.
  intros Hread Hlen Hes Hkv Hfit. unfold load_checkpoint. rewrite Hread. unfold ckpt_bytes.
  rewrite fread_u32_app. rewrite (u32_small MATRIX_CKPT_MAGIC), Z.eqb_refl by (unfold in_u32, MATRIX_CKPT_MAGIC; lia).
  cbn [negb]. rewrite fread_u64_app, u64_small by (unfold in_u64; lia).
  destruct (load_entries_spec es (length (concat (map entry_bytes es))) kv) as (kv' & -> & ?);
    [rewrite length_entries; lia|done..|].
  cbn. eauto.
Qed.

(** Writes that fit all succeed and append their bytes. *)
Lemma writes_fit p bss fs f :
  fs_files fs !! p = Some f → (length (concat bss) ≤ fs_room fs)%nat →
  disk_run fs (map (CWrite p) bss) =
    Some (fs_set fs p (mkFile (f_data f ++ concat bss) (f_synced f)) (fs_room fs - length (concat bss))).
Proof.
  revert fs f. induction bss as [|bs bss IH]; intros fs f Hf Hr; cbn [map disk_run concat].
  { rewrite app_nil_r, Nat.sub_0_r. f_equal. unfold fs_set. destruct f; cbn.
    rewrite insert_id by done. by destruct fs. }
  cbn in Hr. rewrite length_app in Hr. cbn [disk_do].
  rewrite (fs_write_fits _ _ f) by (done || lia). rewrite Nat.eqb_refl. cbn [mbind option_bind].
  rewrite (IH _ (mkFile (f_data f ++ bs) (f_synced f))); [|cbn; by rewrite lookup_insert_eq|cbn; lia].
  f_equal. unfold fs_set. cbn. rewrite insert_insert_eq, <- app_assoc, length_app. f_equal. lia.
Qed.

Lemma ckpt_writes_bytes kv : kv_wf kv → concat (ckpt_writes kv) = ckpt_bytes (kv_entries kv).
Proof.
  intros Hwf. unfold ckpt_writes, ckpt_bytes. cbn [concat]. rewrite <- (wf_size _ Hwf). do 2 f_equal.
  induction (kv_entries kv) as [|e l IH]; [done|]. cbn [map concat app]. rewrite IH.
  unfold entry_bytes at 2. by rewrite <- app_assoc.
Qed.

(** ** Lemmas: what the disk holds *)

Lemma fs_set_set fs p f r f' r' : fs_set (fs_set fs p f r) p f' r' = fs_set fs p f' r'.
Proof. unfold fs_set. cbn. by rewrite insert_insert_eq. Qed.

Lemma fs_append_set fs p f bs :
  fs_files fs !! p = Some f → (length bs ≤ fs_room fs)%nat →
  fs_append fs p bs = fs_set fs p (mkFile (f_data f ++ bs) (f_synced f)) (fs_room fs - length bs).
Proof. intros Hf Hr. unfold fs_append. by rewrite (fs_write_fits _ _ f). Qed.

Lemma fs_set_file fs p f r : fs_files (fs_set fs p f r) !! p = Some f.
Proof. cbn. apply lookup_insert_eq. Qed.

Lemma write_record_set fs cs f body :
  fs_files fs !! cs_path cs = Some f → (length (record_bytes body) ≤ fs_room fs)%nat →
  cs_policy cs = SYNC_EACH →
  let data := f_data f ++ record_bytes body in
  write_record fs cs body =
    (mkCS (cs_path cs) SYNC_EACH (cs_records_written cs + 1),
     fs_set fs (cs_path cs) (mkFile data (length data)) (fs_room fs - length (record_bytes body))).
Proof.
  intros Hf Hr Hp data. rewrite length_record in Hr. unfold write_record.
  rewrite (fs_append_set fs _ f) by (rewrite ?length_le_u32; done || lia).
  rewrite length_le_u32.
  erewrite (fs_append_set (fs_set _ _ _ _)); [|apply fs_set_file|rewrite length_le_u32; cbn; lia].
  rewrite fs_set_set, length_le_u32.
  erewrite fs_append_set; [|apply fs_set_file|cbn; lia]. rewrite fs_set_set.
  unfold sync_if. rewrite Hp. unfold fs_sync. rewrite fs_set_file, fs_set_set. f_equal. cbn.
  unfold data, record_bytes. rewrite <- !app_assoc. f_equal. rewrite !length_app, !length_le_u32. lia.
Qed.

Definition wal_holds (fs : filesys) (p : string) (ops : list wal_op) : Prop :=
  fs_files fs !! p = Some (mkFile (log_bytes ops) (length (log_bytes ops))).

Definition ckpt_holds (fs : filesys) (p : string) (es : list (Z * Z)) : Prop :=
  (fs_files fs !! p = None ∧ es = []) ∨
  fs_files fs !! p = Some (mkFile (ckpt_bytes es) (length (ckpt_bytes es))).

(** The files of a durable engine hold the map [m], durably: a checkpoint of
    [es] and, behind it, the log of [ops], with no transaction left open. *)
Record disk_holds (fs : filesys) (wal : string) (es : list (Z * Z)) (ops : list wal_op) (m : gmap Z Z) :
    Prop := {
  dh_wal : wal_holds fs wal ops;
  dh_ckpt : ckpt_holds fs (wal +:+ ".ckpt") es;
  dh_es : u64_puts es;
  dh_len : Z.of_nat (length es) < 2 ^ 64;
  dh_ops : Forall wal_wf ops;
  dh_closed : snd (log_run ops []) = [];
  dh_map : puts_map (puts_map ∅ es) (log_puts ops) = m
}.

(** What a power cut leaves: of every file, a prefix with its durable part. *)
Definition fs_crash (fs fs' : filesys) : Prop :=
  fs_denied fs' = fs_denied fs ∧
  ∀ p, match fs_files fs !! p with
       | None => fs_files fs' !! p = None
       | Some f => ∃ f', fs_files fs' !! p = Some f' ∧ crash_of f (f_data f')
       end.

Lemma fs_crash_synced fs fs' p data :
  fs_crash fs fs' → fs_files fs !! p = Some (mkFile data (length data)) →
  ∃ n, fs_files fs' !! p = Some (mkFile data n).
Proof.
  intros [_ H] Hf. specialize (H p). rewrite Hf in H. destruct H as ([d n] & Hf' & k & Hk & Hd).
  cbn in *. rewrite take_ge in Hd by lia. subst. eauto.
Qed.

(** ** Invariants of the store *)

(** The table is the engine's size, the ordered index mirrors it, and every
    key and value is a 64-bit word. *)
Record ps_inv (ps : PointStore) : Prop := {
  pv_kv : engine_kv (kv_ ps);
  pv_index : key_index_ ps = kv_map (kv_ ps);
  pv_u64 : u64_map (kv_map (kv_ ps))
}.

(** A store with a log under [SYNC_EACH] whose disk holds what the table holds. *)
Record ps_durable (wal : string) (ps : PointStore) : Prop := {
  pd_inv : ps_inv ps;
  pd_wal : ∃ n, cold_store_ ps = Some (mkCS wal SYNC_EACH n);
  pd_ckpt : checkpoint_path_ ps = wal +:+ ".ckpt";
  pd_disk : ∃ es ops, disk_holds (ps_fs ps) wal es ops (kv_map (kv_ ps));
  pd_allowed : ∀ suffix, wal +:+ suffix ∉ fs_denied (ps_fs ps)
}.

Lemma log_puts_snoc ops op :
  snd (log_run ops []) = [] →
  log_puts (ops ++ [op]) = log_puts ops ++ match op with WPut k v => [(k, v)] | _ => [] end.
Proof.
  unfold log_puts, log_run. rewrite fold_left_app. cbn [fold_left].
  destruct (fold_left log_step ops ([], [])) as [a t]. cbn. intros ->. destruct op; cbn; by rewrite ?app_nil_r.
Qed.

Lemma wal_path_ne_ckpt (wal s : string) : s ≠ EmptyString → wal ≠ wal +:+ s.
Proof.
  intros Hs H. apply (f_equal String.length) in H. rewrite string_length_app in H.
  destruct s; [done|]. cbn in H. lia.
Qed.

(** What the constructor makes of a checkpoint of [es] and a log of [ops]. *)
Lemma reopen wal fs es ops m :
  wal ≠ EmptyString → wal ∉ fs_denied fs → fs_read fs wal = Some (log_bytes ops) →
  (fs_read fs (wal +:+ ".ckpt") = None ∧ es = []) ∨ fs_read fs (wal +:+ ".ckpt") = Some (ckpt_bytes es) →
  u64_puts es → Z.of_nat (length es) < 2 ^ 64 → Forall wal_wf ops →
  puts_map (puts_map ∅ es) (log_puts ops) = m → fits m → u64_map m →
  ∃ ps, open_engine wal SYNC_EACH fs = Ret ps ∧
    kv_map (kv_ ps) = m ∧ ps_inv ps ∧ ps_fs ps = fs ∧ in_txn_ ps = false ∧
    (∀ k, kv_get (kv_ ps) k = Ret (m !! k)).
Proof.
  intros Hne Hden Hwal Hck Hes Hlen Hops Hm Hfit Hu.
  unfold open_engine. destruct (String.eqb_spec wal EmptyString) as [|_]; [done|].
  generalize (proj1 fresh_kv_ok) (proj2 fresh_kv_ok). generalize fresh_kv. intros kv0 Hf0 Hm0.
  assert (∃ b kv1, load_checkpoint (wal +:+ ".ckpt") fs kv0 = Ret (b, kv1) ∧
    engine_kv kv1 ∧ kv_map kv1 = puts_map ∅ es) as (b & kv1 & Hload & Hkv1 & Hm1).
  { destruct Hck as [[Hnone ->]|Hsome].
    - exists false, kv0. unfold load_checkpoint. rewrite Hnone.
      split; [reflexivity|]. split; [exact Hf0|exact Hm0].
    - assert (fits (puts_map ∅ es)) as Hfit1.
      { unfold fits in *. pose proof (puts_map_size (puts_map ∅ es) (log_puts ops)). rewrite Hm in *. lia. }
      destruct (load_checkpoint_spec (wal +:+ ".ckpt") fs es kv0) as (kv1 & H1 & H2 & H3);
        [done..|by rewrite Hm0|].
      exists true, kv1. split; [exact H1|]. split; [exact H2|]. by rewrite H3, Hm0. }
  rewrite Hload. cbn [mbind outcome_bind].
  assert (cs_open fs wal SYNC_EACH = Ret (mkCS wal SYNC_EACH 0, fs)) as ->.
  { unfold cs_open, fs_open_append. rewrite decide_False by done.
    unfold fs_read in Hwal. by destruct (fs_files fs !! wal). }
  cbn [mbind outcome_bind].
  assert (replay fs (mkCS wal SYNC_EACH 0) = log_puts ops) as ->.
  { unfold replay. cbn [cs_path]. rewrite Hwal. by apply replay_log_bytes. }
  destruct (put_quietly_all (log_puts ops) kv1 Hkv1) as (kv2 & -> & Hkv2 & Hm2); [by rewrite Hm1, Hm|].
  cbn [mbind outcome_bind]. rewrite Hm1, Hm in Hm2.
  eexists. split; [done|]. cbn. split; [done|]. split; [|split; [done|split; [done|]]].
  - split; cbn; [done| |by rewrite Hm2].
    rewrite <- (puts_map_entries kv2) by apply Hkv2. unfold kv_for_each, puts_map.
    generalize (∅ : gmap Z Z). induction (kv_entries kv2) as [|[k v] l IH]; intros m0; [done|]. cbn. apply IH.
  - intros k. rewrite kv_get_spec by apply Hkv2. by rewrite Hm2.
Qed.

(** C6: Reopening: a durable disk gives its map back, after any crash. *)
Theorem crash_recovery wal fs fs' es ops m :
  wal ≠ EmptyString → disk_holds fs wal es ops m → fits m → u64_map m →
  fs_crash fs fs' → wal ∉ fs_denied fs →
  ∃ ps, open_engine wal SYNC_EACH fs' = Ret ps ∧
    kv_map (kv_ ps) = m ∧ ps_inv ps ∧ ps_fs ps = fs' ∧ in_txn_ ps = false ∧
    (∀ k, kv_get (kv_ ps) k = Ret (m !! k)).
Proof.
  intros Hne [Hwal Hck Hes Hlen Hops Hcl Hm] Hfit Hu Hcrash Hden.
  apply (reopen wal fs' es ops m); [done| | | |done..].
  - by rewrite (proj1 Hcrash).
  - destruct (fs_crash_synced _ _ _ _ Hcrash Hwal) as [n Hn]. unfold fs_read. by rewrite Hn.
  - destruct Hck as [[Hnone ->]|Hsome].
    + left. split; [|done]. pose proof (proj2 Hcrash (wal +:+ ".ckpt")) as Hc. rewrite Hnone in Hc.
      unfold fs_read. by rewrite Hc.
    + right. destruct (fs_crash_synced _ _ _ _ Hcrash Hsome) as [n Hn]. unfold fs_read. by rewrite Hn.
Qed.

(** ** Lemmas: appending to the log *)

Definition log_call (op : wal_op) (ps : PointStore) : PointStore :=
  wal_call (λ fs cs, write_record fs cs (op_body op)) ps.

Lemma with_disk_id ps : with_disk (cold_store_ ps) (ps_fs ps) (checkpoints_ ps) ps = ps.
Proof. by destruct ps. Qed.

Lemma fs_set_id fs p f : fs_files fs !! p = Some f → fs_set fs p f (fs_room fs) = fs.
Proof. intros Hf. unfold fs_set. rewrite insert_id by done. by destruct fs. Qed.

Definition logged (wal : string) (n : Z) (ops new : list wal_op) (ps : PointStore) : PointStore :=
  with_disk (Some (mkCS wal SYNC_EACH (n + Z.of_nat (length new))))
    (fs_set (ps_fs ps) wal (mkFile (log_bytes (ops ++ new)) (length (log_bytes (ops ++ new))))
       (fs_room (ps_fs ps) - length (log_bytes new))) (checkpoints_ ps) ps.

Lemma log_calls wal new : ∀ n ops ps,
  cold_store_ ps = Some (mkCS wal SYNC_EACH n) → wal_holds (ps_fs ps) wal ops →
  (length (log_bytes new) ≤ fs_room (ps_fs ps))%nat →
  fold_left (λ ps op, log_call op ps) new ps = logged wal n ops new ps.
Proof.
  induction new as [|op new IH]; intros n ops ps Hcs Hw Hr; cbn [fold_left].
  - unfold logged. cbn [length]. rewrite app_nil_r, Z.add_0_r, Nat.sub_0_r, fs_set_id by done.
    rewrite <- Hcs. symmetry. apply with_disk_id.
  - change (op :: new) with ([op] ++ new) in *. rewrite log_bytes_app, length_app in Hr.
    assert (log_call op ps = logged wal n ops [op] ps) as ->.
    { unfold log_call, wal_call, logged. rewrite Hcs.
      rewrite (write_record_set _ (mkCS wal SYNC_EACH n) _ (op_body op) Hw)
        by (rewrite <- ?log_bytes_one; done || lia).
      cbn [f_data cs_path cs_records_written length]. rewrite log_bytes_app, log_bytes_one. done. }
    rewrite (IH (n + 1) (ops ++ [op])).
    + unfold logged. cbn [checkpoints_ with_disk ps_fs length]. rewrite fs_set_set, <- app_assoc.
      rewrite (log_bytes_app [op] new), length_app. unfold with_disk. cbn. f_equal.
      * do 2 f_equal. lia.
      * f_equal. rewrite !length_app. lia.
    + done.
    + apply fs_set_file.
    + unfold logged. cbn [ps_fs with_disk fs_set fs_room]. lia.
Qed.

Lemma log_transaction_calls ps :
  cold_store_ ps ≠ None →
  log_transaction ps = fold_left (λ ps op, log_call op ps) (map (λ e, WTxnPut e.1 e.2) (txn_buf_ ps) ++ [WCommit]) ps.
Proof.
  intros Hcs. unfold log_transaction. destruct (cold_store_ ps) as [cs|]; [|done].
  rewrite fold_left_app. cbn [fold_left].
  assert (∀ l ps', fold_left (λ ps kv, wal_call (λ fs cs, append_txn_put fs cs kv.1 kv.2) ps) l ps'
    = fold_left (λ ps op, log_call op ps) (map (λ e : Z * Z, WTxnPut e.1 e.2) l) ps') as ->; [|done].
  intros l. induction l as [|e l IH]; intros ps'; [done|]. cbn [fold_left map]. by rewrite IH.
Qed.

(** ** Lemmas: applying committed writes *)

(** What [apply_committed_write] leaves alone. *)
Record same_rest (ps ps' : PointStore) : Prop := {
  sr_cs : cold_store_ ps' = cold_store_ ps;
  sr_path : checkpoint_path_ ps' = checkpoint_path_ ps;
  sr_fs : ps_fs ps' = ps_fs ps;
  sr_binned : binned_ ps' = binned_ ps;
  sr_offsets : offsets_ ps' = offsets_ ps;
  sr_reads : reads_ ps' = reads_ ps;
  sr_txn : txn_buf_ ps' = txn_buf_ ps ∧ in_txn_ ps' = in_txn_ ps
}.

Lemma apply_committed_write_spec ps k v :
  ps_inv ps → in_u64 k → in_u64 v → fits (<[k := v]> (kv_map (kv_ ps))) →
  ∃ ps', apply_committed_write ps k v = Ret ps' ∧ ps_inv ps' ∧ same_rest ps ps' ∧
    kv_map (kv_ ps') = <[k := v]> (kv_map (kv_ ps)) ∧ writes_ ps' = u64 (writes_ ps + 1).
Proof.
  intros [Hkv Hidx Hu] Hk Hv Hfit. unfold apply_committed_write.
  destruct (kv_put_fits (kv_ ps) k v Hkv Hfit) as (kv' & -> & Hkv' & Hm). cbn [mbind outcome_bind].
  eexists. split; [done|]. split; [|split; [by split|done]].
  split; cbn; [done|by rewrite Hidx, Hm|]. rewrite Hm. by apply map_Forall_insert_2.
Qed.

Lemma apply_writes_spec l : ∀ ps,
  ps_inv ps → u64_puts l → fits (puts_map (kv_map (kv_ ps)) l) →
  ∃ ps', fold_outcome (λ ps kv, apply_committed_write ps kv.1 kv.2) l ps = Ret ps' ∧ ps_inv ps' ∧
    same_rest ps ps' ∧ kv_map (kv_ ps') = puts_map (kv_map (kv_ ps)) l.
Proof.
  induction l as [|e l IH]; intros ps Hinv Hl Hfit; cbn [fold_outcome].
  { exists ps. split; [done|]. split; [done|]. by split. }
  apply Forall_cons in Hl as [[Hk Hv] Hl]. rewrite puts_map_cons in Hfit.
  destruct (apply_committed_write_spec ps e.1 e.2 Hinv Hk Hv) as (ps1 & -> & Hinv1 & Hs1 & Hm1 & _).
  { unfold fits in *. pose proof (puts_map_size (<[e.1 := e.2]> (kv_map (kv_ ps))) l). lia. }
  cbn [mbind outcome_bind]. destruct (IH ps1 Hinv1 Hl) as (ps' & -> & Hinv' & Hs' & Hm'); [by rewrite Hm1|].
  exists ps'. split; [done|]. split; [done|]. split; [|by rewrite Hm', Hm1, puts_map_cons].
  destruct Hs1 as [? ? ? ? ? ? [? ?]], Hs' as [? ? ? ? ? ? [? ?]].
  split; try congruence. split; congruence.
Qed.

(** The log of a transaction: what a cut at any byte of it recovers. *)
Definition txn_ops (buf : list (Z * Z)) : list wal_op := map (λ e, WTxnPut e.1 e.2) buf ++ [WCommit].

Lemma log_run_txn ops buf a :
  log_run ops [] = (a, []) →
  ∀ j, fst (log_run (ops ++ take j (txn_ops buf)) []) = if decide (length buf < j)%nat then a ++ buf else a.
Proof.
  intros Ha j. unfold log_run in *. rewrite fold_left_app, Ha. unfold txn_ops.
  assert (∀ l t, fold_left log_step (map (λ e : Z * Z, WTxnPut e.1 e.2) l) (a, t) = (a, t ++ l)) as Hput.
  { clear. induction l as [|[k v] l IH]; intros t; cbn; [by rewrite app_nil_r|]. by rewrite IH, <- app_assoc. }
  destruct (decide (length buf < j)%nat) as [Hj|Hj].
  - rewrite take_ge by (rewrite length_app, length_map; cbn; lia).
    rewrite fold_left_app, Hput. done.
  - rewrite take_app_le by (rewrite length_map; lia). rewrite firstn_map, Hput. done.
Qed.

Lemma txn_ops_wf buf : u64_puts buf → Forall wal_wf (txn_ops buf).
Proof.
  intros Hb. unfold txn_ops. apply Forall_app. split; [|by repeat constructor].
  apply Forall_map. by eapply Forall_impl; [exact Hb|].
Qed.

Lemma complete_records_le n ops : (complete_records n ops ≤ length ops)%nat.
Proof.
  revert n. induction ops as [|op ops IH]; intros n; cbn; [lia|]. destruct (_ <=? _)%nat; [|lia].
  specialize (IH (n - length (record_bytes (op_body op)))%nat). lia.
Qed.

Lemma complete_records_app n ops1 ops2 :
  (length (log_bytes ops1) ≤ n)%nat →
  complete_records n (ops1 ++ ops2) = (length ops1 + complete_records (n - length (log_bytes ops1)) ops2)%nat.
Proof.
  revert n. induction ops1 as [|op ops1 IH]; intros n Hn; cbn; [by rewrite Nat.sub_0_r|].
  change (op :: ops1) with ([op] ++ ops1) in *.
  rewrite log_bytes_app, log_bytes_one, length_app in *.
  destruct (Nat.leb_spec (length (record_bytes (op_body op))) n); [|lia]. rewrite IH by lia.
  rewrite Nat.sub_add_distr. reflexivity.
Qed.

Lemma complete_records_short n ops :
  (n < length (log_bytes ops))%nat → (complete_records n ops < length ops)%nat.
Proof.
  revert n. induction ops as [|op ops IH]; intros n Hn; [cbn in Hn; lia|].
  cbn [complete_records length].
  change (op :: ops) with ([op] ++ ops) in Hn.
  rewrite log_bytes_app, log_bytes_one, length_app in Hn.
  destruct (Nat.leb_spec (length (record_bytes (op_body op))) n); [|lia].
  apply -> Nat.succ_lt_mono. apply IH. lia.
Qed.

Lemma length_txn_bytes buf : length (log_bytes (txn_ops buf)) = (28 * length buf + 12)%nat.
Proof.
  unfold txn_ops. rewrite log_bytes_app, length_app, log_bytes_one, length_record.
  change (length (op_body WCommit)) with 4%nat.
  assert (length (log_bytes (map (λ e : Z * Z, WTxnPut e.1 e.2) buf)) = 28 * length buf)%nat as ->; [|lia].
  induction buf as [|e buf IH]; [done|]. cbn [map].
  change (?x :: ?l) with ([x] ++ l). rewrite log_bytes_app, length_app, log_bytes_one, length_record, IH.
  change (length (op_body _)) with 20%nat. cbn [length app]. lia.
Qed.

(** The disk after more of the log was written. *)
Lemma disk_holds_logged fs wal es ops m new n :
  disk_holds fs wal es ops m → Forall wal_wf new → snd (log_run (ops ++ new) []) = [] →
  disk_holds (fs_set fs wal (mkFile (log_bytes (ops ++ new)) (length (log_bytes (ops ++ new)))) n) wal es (ops ++ new)
    (puts_map (puts_map ∅ es) (log_puts (ops ++ new))).
Proof.
  intros [Hw Hc He Hl Ho Hcl Hm] Hnew Hclosed. split; try done.
  - apply fs_set_file.
  - unfold ckpt_holds in *. cbn. rewrite lookup_insert_ne by (by apply wal_path_ne_ckpt). done.
  - by apply Forall_app.
Qed.

Lemma log_run_closed ops : snd (log_run ops []) = [] → log_run ops [] = (log_puts ops, []).
Proof. unfold log_puts. destruct (log_run ops []) as [a t]. cbn. by intros ->. Qed.

Lemma txn_closed ops buf : snd (log_run ops []) = [] →
  log_puts (ops ++ txn_ops buf) = log_puts ops ++ buf ∧ snd (log_run (ops ++ txn_ops buf) []) = [].
Proof.
  intros Hc. apply log_run_closed in Hc. split.
  - pose proof (log_run_txn ops buf _ Hc (length (txn_ops buf))) as H. rewrite firstn_all in H.
    unfold log_puts at 1. rewrite H. rewrite decide_True; [done|]. unfold txn_ops. rewrite length_app, length_map. cbn. lia.
  - unfold txn_ops. rewrite app_assoc. unfold log_run. rewrite fold_left_app. cbn.
    by destruct (fold_left _ _ _) as [a t].
Qed.

Lemma commit_run wal ps :
  ps_durable wal ps → in_txn_ ps = true → u64_puts (txn_buf_ ps) →
  fits (puts_map (kv_map (kv_ ps)) (txn_buf_ ps)) →
  (28 * length (txn_buf_ ps) + 12 ≤ fs_room (ps_fs ps))%nat →
  ∃ ps', commit ps = Ret ps' ∧ ps_durable wal ps' ∧ in_txn_ ps' = false ∧
    kv_map (kv_ ps') = puts_map (kv_map (kv_ ps)) (txn_buf_ ps) ∧
    fs_read (ps_fs ps') (wal +:+ ".ckpt") = fs_read (ps_fs ps) (wal +:+ ".ckpt") ∧
    ∃ old new, fs_read (ps_fs ps) wal = Some old ∧ fs_read (ps_fs ps') wal = Some (old ++ new) ∧
      ∀ n, replay_bytes (old ++ take n new) =
             replay_bytes old ++ (if (n <? length new)%nat then [] else txn_buf_ ps).
Proof.
  intros [Hinv [n Hcs] Hpath (es & ops & Hdisk) Hallow] Hin Hu Hfit Hroom.
  pose proof Hdisk as [Hw Hck Hes Hlen Hops Hcl Hm].
  destruct (txn_closed ops (txn_buf_ ps) Hcl) as [Hputs Hclosed].
  unfold commit. rewrite Hin. cbn [assert_ mbind outcome_bind].
  rewrite log_transaction_calls by (by rewrite Hcs). fold (txn_ops (txn_buf_ ps)).
  rewrite (log_calls wal _ n ops) by (rewrite ?length_txn_bytes; done).
  set (ps1 := logged wal n ops (txn_ops (txn_buf_ ps)) ps).
  destruct (apply_writes_spec (txn_buf_ ps) ps1) as (ps2 & -> & Hinv2 & Hs2 & Hm2); [by destruct Hinv|done|done|].
  cbn [mbind outcome_bind]. destruct Hs2 as [Hcs2 Hp2 Hfs2 _ _ _ _].
  eexists. split; [done|]. split; [|split; [done|split; [done|]]].
  - split; [by destruct Hinv2| | | |]; cbn.
    + rewrite Hcs2. eexists. reflexivity.
    + by rewrite Hp2.
    + exists es, (ops ++ txn_ops (txn_buf_ ps)). rewrite Hfs2, Hm2. cbn.
      replace (puts_map (kv_map (kv_ ps)) (txn_buf_ ps))
        with (puts_map (puts_map ∅ es) (log_puts (ops ++ txn_ops (txn_buf_ ps))))
        by (by rewrite Hputs, puts_map_app, Hm).
      eapply disk_holds_logged; [done|by apply txn_ops_wf|done].
    + intros s. rewrite Hfs2. cbn. apply Hallow.
  - cbn [ps_fs with_txn]. rewrite Hfs2. unfold ps1, logged. cbn [ps_fs with_disk].
    split; [by apply fs_set_read_ne, wal_path_ne_ckpt|].
    exists (log_bytes ops), (log_bytes (txn_ops (txn_buf_ ps))).
    split; [unfold fs_read; by rewrite Hw|]. split; [by rewrite fs_set_read, log_bytes_app|].
    intros k. rewrite replay_log_bytes by done.
    replace (log_bytes ops ++ take k (log_bytes (txn_ops (txn_buf_ ps))))
      with (take (length (log_bytes ops) + k) (log_bytes (ops ++ txn_ops (txn_buf_ ps))))
      by (rewrite log_bytes_app; apply take_app_add).
    rewrite replay_log_prefix by (apply Forall_app; split; [done|by apply txn_ops_wf]).
    rewrite complete_records_app by lia. rewrite take_app_add.
    replace (length (log_bytes ops) + k - length (log_bytes ops))%nat with k by lia.
    unfold log_puts at 1. rewrite (log_run_txn ops _ _ (log_run_closed _ Hcl)).
    assert (length (txn_ops (txn_buf_ ps)) = S (length (txn_buf_ ps))) as Hlt
      by (unfold txn_ops; rewrite length_app, length_map; cbn; lia).
    destruct (Nat.ltb_spec k (length (log_bytes (txn_ops (txn_buf_ ps))))) as [Hk|Hk].
    + pose proof (complete_records_short _ _ Hk). rewrite decide_False by lia. by rewrite app_nil_r.
    + rewrite decide_True; [done|].
      assert (∀ l m, (length (log_bytes l) ≤ m)%nat → complete_records m l = length l) as Hall.
      { clear. intros l m Hl. pose proof (complete_records_app m l [] Hl) as H. rewrite app_nil_r in H. rewrite H. cbn. lia. }
      rewrite Hall by done. lia.
Qed.

(** C3: A commit is durable and atomic.  It returns with the buffered writes in
    the table, the index and the log, all of it durable; and a crash that
    leaves only part of what it wrote to the log recovers none of the
    transaction: the writes appear together with the last byte of the marker. *)
Theorem commit_atomic_durable wal ps :
  ps_durable wal ps → in_txn_ ps = true → u64_puts (txn_buf_ ps) →
  fits (puts_map (kv_map (kv_ ps)) (txn_buf_ ps)) →
  (28 * length (txn_buf_ ps) + 12 ≤ fs_room (ps_fs ps))%nat →
  ∃ ps', commit ps = Ret ps' ∧ ps_durable wal ps' ∧ in_txn_ ps' = false ∧
    kv_map (kv_ ps') = puts_map (kv_map (kv_ ps)) (txn_buf_ ps) ∧
    fs_read (ps_fs ps') (wal +:+ ".ckpt") = fs_read (ps_fs ps) (wal +:+ ".ckpt") ∧
    ∃ old new, fs_read (ps_fs ps) wal = Some old ∧ fs_read (ps_fs ps') wal = Some (old ++ new) ∧
      ∀ n, replay_bytes (old ++ take n new) =
             replay_bytes old ++ (if (n <? length new)%nat then [] else txn_buf_ ps).
Proof. exact (commit_run wal ps). Qed.

(** ** Checkpoints *)

Lemma length_ckpt_bytes es : length (ckpt_bytes es) = (12 + 16 * length es)%nat.
Proof. unfold ckpt_bytes. rewrite !length_app, length_le_u32, length_le_u64, length_entries. lia. Qed.

Lemma save_calls_run path kv fs :
  kv_wf kv → path ∉ fs_denied fs → path +:+ ".tmp" ∉ fs_denied fs →
  (12 + 16 * length (kv_entries kv) ≤ fs_room fs)%nat →
  ∃ fs1, disk_run fs (save_calls path kv) = Some fs1 ∧
    fs_files fs1 !! path = Some (mkFile (ckpt_bytes (kv_entries kv)) (length (ckpt_bytes (kv_entries kv)))) ∧
    (path ≠ path +:+ ".tmp" → fs_files fs1 !! (path +:+ ".tmp") = None) ∧
    fs_denied fs1 = fs_denied fs ∧
    ∀ p, p ≠ path → p ≠ path +:+ ".tmp" → fs_files fs1 !! p = fs_files fs !! p.
Proof.
  intros Hwf Hd1 Hd2 Hroom. unfold save_calls. set (tmp := path +:+ ".tmp") in *.
  cbn [disk_run disk_do]. unfold fs_open_write. rewrite decide_False by done. cbn [mbind option_bind].
  rewrite disk_run_app, (writes_fit tmp _ _ (mkFile [] 0)); [|apply fs_set_file|
    rewrite ckpt_writes_bytes, length_ckpt_bytes by done; cbn; lia].
  rewrite ckpt_writes_bytes by done. cbn [f_data f_synced app mbind option_bind disk_run disk_do].
  rewrite fs_set_set. unfold fs_sync. rewrite fs_set_file, fs_set_set. cbn [f_data].
  unfold fs_rename, fs_set. cbn. rewrite decide_False by done. rewrite lookup_insert_eq. cbn.
  eexists. split; [done|]. cbn. split; [apply lookup_insert_eq|].
  split; [intros H; rewrite lookup_insert_ne by done; apply lookup_delete_eq|]. split; [done|].
  intros p H1 H2. by rewrite lookup_insert_ne, lookup_delete_ne, lookup_insert_ne.
Qed.

(** Under [SYNC_EACH] a truncation leaves an empty, durable log. *)
Lemma truncate_calls_run fs wal n :
  wal ∉ fs_denied fs →
  ∃ r, disk_run fs (truncate_calls (mkCS wal SYNC_EACH n)) = Some (fs_set fs wal (mkFile [] 0) r).
Proof.
  intros Hd. unfold truncate_calls. cbn [cs_path cs_policy app disk_run disk_do].
  unfold fs_open_write. rewrite decide_False by done. cbn [mbind option_bind].
  unfold fs_sync. rewrite fs_set_file, fs_set_set. cbn [f_data length].
  unfold fs_open_append. cbn [fs_denied fs_set fs_files]. rewrite decide_False by done.
  rewrite lookup_insert_eq. eauto.
Qed.

Lemma save_calls_split path kv :
  save_calls path kv =
  (COpenWrite (path +:+ ".tmp") :: map (CWrite (path +:+ ".tmp")) (ckpt_writes kv) ++ [CSync (path +:+ ".tmp")])
    ++ [CRename (path +:+ ".tmp") path].
Proof. unfold save_calls. cbn [app]. by rewrite <- app_assoc. Qed.

Lemma save_calls_other path kv p :
  p ≠ path → p ≠ path +:+ ".tmp" → Forall (λ c, p ∉ touches c) (save_calls path kv).
Proof.
  intros H1 H2. rewrite save_calls_split. apply Forall_app. split; [constructor|].
  - cbn. set_solver.
  - apply Forall_app. split; [|repeat constructor; cbn; set_solver].
    apply Forall_map, Forall_true. intros bs. cbn. set_solver.
  - repeat constructor. cbn. set_solver.
Qed.

Lemma save_calls_syncs path kv :
  path ≠ path +:+ ".tmp" → Forall (λ c, syncs path c = false) (save_calls path kv).
Proof.
  intros H. rewrite save_calls_split. apply Forall_app. split; [constructor; [done|]|by repeat constructor].
  apply Forall_app. split; [by apply Forall_map, Forall_true|]. repeat constructor. cbn. by apply String.eqb_neq.
Qed.

(** While the new snapshot is written, its path has what it had or, after the
    rename, the whole snapshot. *)
Lemma save_calls_cut path kv fs f1 fs1 j d o :
  path ≠ path +:+ ".tmp" →
  disk_run fs (save_calls path kv) = Some fs1 → fs_files fs1 !! path = Some f1 →
  disk_steps (settled fs) (take j (save_calls path kv)) = Some d →
  o ∈ may_hold d path → o = fs_files fs !! path ∨ o = Some f1.
Proof.
  intros Hne Hrun Hf1. rewrite save_calls_split in *. set (pre := _ ++ [CSync _]) in *.
  assert (Forall (λ c, path ∉ touches c) (COpenWrite (path +:+ ".tmp") :: pre)) as Hpre.
  { constructor; [cbn; set_solver|]. apply Forall_app. split; [|repeat constructor; cbn; set_solver].
    apply Forall_map, Forall_true. intros bs. cbn. set_solver. }
  assert (∀ o, o ∈ may_hold (settled fs) path → o = fs_files fs !! path) as H0.
  { intros o0 Ho. unfold may_hold in Ho. cbn in Ho. set_solver. }
  destruct (Nat.le_gt_cases j (length (COpenWrite (path +:+ ".tmp") :: pre))) as [Hj|Hj].
  - rewrite take_app_le by done. intros Hd Ho. left. revert o Ho.
    apply (disk_steps_other path (λ o, o = fs_files fs !! path) _ _ _ Hd); [by apply Forall_take|exact H0].
  - rewrite (take_ge (_ ++ [_])) by (rewrite length_app; cbn [length] in *; lia). rewrite disk_steps_app.
    destruct (disk_steps (settled fs) (COpenWrite _ :: pre)) as [d1|] eqn:E1; cbn [mbind option_bind]; [|done].
    intros Hd Ho. pose proof Hd as Hd2. cbn [disk_steps] in Hd.
    destruct (disk_step d1 (CRename (path +:+ ".tmp") path)) as [d2|] eqn:E2; [|done].
    injection Hd as ->. destruct (disk_step_may _ _ _ _ _ E2 Ho) as [->|[_ Ho1]].
    + right. rewrite disk_run_app in Hrun. rewrite (disk_steps_now _ _ _ E1 : disk_run fs _ = _) in Hrun.
      cbn [mbind option_bind] in Hrun. rewrite (disk_steps_now _ _ _ Hd2) in Hrun. by injection Hrun as ->.
    + left. clear Ho. revert o Ho1.
      by apply (disk_steps_other path (λ o, o = fs_files fs !! path) _ _ _ E1).
Qed.

(** While the log is emptied it has what it had, or nothing. *)
Lemma truncate_calls_cut wal n d d' data i :
  (∀ o, o ∈ may_hold d wal → o = Some (mkFile data (length data))) →
  disk_steps d (take i (truncate_calls (mkCS wal SYNC_EACH n))) = Some d' →
  ∀ o, o ∈ may_hold d' wal → o = Some (mkFile data (length data)) ∨ o = Some (mkFile [] 0).
Proof.
  intros H0 Hd.
  apply (disk_steps_inv wal (λ o, o = Some (mkFile data (length data)) ∨ o = Some (mkFile [] 0))
    (take i (truncate_calls (mkCS wal SYNC_EACH n)))) with (d := d); [|done|by auto].
  intros c fs fs' Hc. apply (subseteq_take i) in Hc.
  unfold truncate_calls in Hc. cbn in Hc. repeat (apply elem_of_cons in Hc as [->|Hc]); [..|set_solver]; cbn.
  - unfold fs_open_write. case_decide; [done|]. intros [= <-] _. right. cbn. apply lookup_insert_eq.
  - intros [= <-] Hf. unfold fs_sync. destruct Hf as [Hf|Hf]; rewrite Hf; [left|right]; apply fs_set_file.
  - unfold fs_open_append. case_decide; [done|]. intros Ho Hf.
    destruct Hf as [Hf|Hf]; rewrite Hf in Ho; injection Ho as <-; auto.
Qed.

(** The state of a power cut after the first [k] calls of a checkpoint. *)
Lemma checkpoint_cut wal ps n data f1 fs1 k d :
  cold_store_ ps = Some (mkCS wal SYNC_EACH n) → checkpoint_path_ ps = wal +:+ ".ckpt" →
  fs_files (ps_fs ps) !! wal = Some (mkFile data (length data)) →
  disk_run (ps_fs ps) (save_calls (wal +:+ ".ckpt") (kv_ ps)) = Some fs1 →
  fs_files fs1 !! (wal +:+ ".ckpt") = Some f1 →
  disk_steps (settled (ps_fs ps)) (take k (checkpoint_calls ps (mkCS wal SYNC_EACH n))) = Some d →
  (∀ o, o ∈ may_hold d wal → o = Some (mkFile data (length data)) ∨
     (length (save_calls (checkpoint_path_ ps) (kv_ ps)) < k)%nat ∧ o = Some (mkFile [] 0)) ∧
  (∀ o, o ∈ may_hold d (wal +:+ ".ckpt") → o = fs_files (ps_fs ps) !! (wal +:+ ".ckpt") ∨ o = Some f1).
Proof.
  intros Hcs Hpath Hw Hrun Hf1 Hd. unfold checkpoint_calls in Hd. rewrite Hpath in *.
  set (ckpt := wal +:+ ".ckpt") in *. set (calls := save_calls ckpt (kv_ ps)) in *.
  assert (wal ≠ ckpt) as Hne1 by (by apply wal_path_ne_ckpt).
  assert (wal ≠ ckpt +:+ ".tmp") as Hne2 by (unfold ckpt; rewrite string_app_assoc; by apply wal_path_ne_ckpt).
  assert (ckpt ≠ ckpt +:+ ".tmp") as Hne3 by (by apply wal_path_ne_ckpt).
  assert (∀ j d o, disk_steps (settled (ps_fs ps)) (take j calls) = Some d →
    o ∈ may_hold d wal → o = Some (mkFile data (length data))) as Hwal.
  { intros j d1 o Hd1 Ho. revert o Ho. apply (disk_steps_other wal _ _ _ _ Hd1).
    - apply Forall_take. by apply save_calls_other.
    - unfold may_hold. cbn. intros o Ho. rewrite Hw in Ho. set_solver. }
  destruct (Nat.le_gt_cases k (length calls)) as [Hk|Hk].
  - rewrite take_app_le in Hd by done. split; [intros o Ho; left; by apply (Hwal k d)|].
    intros o. by apply (save_calls_cut ckpt (kv_ ps) (ps_fs ps) f1 fs1 k d).
  - rewrite take_app_ge, disk_steps_app in Hd by lia.
    destruct (disk_steps (settled (ps_fs ps)) calls) as [d1|] eqn:E1; cbn [mbind option_bind] in Hd; [|done].
    rewrite <- (take_ge calls (length calls)) in E1 by done. split.
    + intros o Ho. destruct (truncate_calls_cut wal n d1 d data _ (λ o, Hwal _ d1 o E1) Hd o Ho) as [-> | ->]; auto.
    + apply (disk_steps_other ckpt _ _ _ _ Hd).
      * apply Forall_take. unfold truncate_calls. cbn. repeat constructor; cbn; set_solver.
      * intros o. by apply (save_calls_cut ckpt (kv_ ps) (ps_fs ps) f1 fs1 (length calls) d1).
Qed.

Lemma power_cut_read d fs' p data (P : Prop) :
  power_cut d fs' →
  (∀ o, o ∈ may_hold d p → o = Some (mkFile data (length data)) ∨ P ∧ o = Some (mkFile [] 0)) →
  fs_read fs' p = Some data ∨ P ∧ fs_read fs' p = Some [].
Proof.
  intros [_ Hc] Hp. destruct (Hc p) as (o & Ho & Hf). unfold fs_read.
  destruct (Hp o Ho) as [-> | [HP ->]]; destruct Hf as (f' & -> & k & Hk & Hd); cbn in *; rewrite Hd.
  - left. by rewrite take_ge by lia.
  - right. split; [done|]. by rewrite take_nil.
Qed.

Lemma power_cut_ckpt d fs' fs p es es' :
  power_cut d fs' → ckpt_holds fs p es →
  (∀ o, o ∈ may_hold d p → o = fs_files fs !! p ∨ o = Some (mkFile (ckpt_bytes es') (length (ckpt_bytes es')))) →
  fs_read fs' p = fs_read fs p ∨ fs_read fs' p = Some (ckpt_bytes es').
Proof.
  intros [_ Hc] Hes Hp. destruct (Hc p) as (o & Ho & Hf). unfold fs_read.
  destruct (Hp o Ho) as [-> | ->].
  - left. destruct Hes as [[Hn _]|Hs]; [rewrite Hn in *; by rewrite Hf|]. rewrite Hs in *.
    destruct Hf as (f' & -> & k & Hk & Hd). cbn in *. rewrite Hd. by rewrite take_ge by lia.
  - right. destruct Hf as (f' & -> & k & Hk & Hd). cbn in *. rewrite Hd. by rewrite take_ge by lia.
Qed.

Lemma ckpt_holds_read fs fs' p es :
  ckpt_holds fs p es → fs_read fs' p = fs_read fs p →
  (fs_read fs' p = None ∧ es = []) ∨ fs_read fs' p = Some (ckpt_bytes es).
Proof. intros [[H ->]|H] ->; unfold fs_read; rewrite H; auto. Qed.

(** The disk after a power cut has an empty log and the checkpoint of before. *)
Definition checkpoint_undone (wal : string) (ps : PointStore) (fs' : filesys) : Prop :=
  fs_read fs' wal = Some [] ∧ fs_read fs' (wal +:+ ".ckpt") = fs_read (ps_fs ps) (wal +:+ ".ckpt").

Lemma fits_le (m m' : gmap Z Z) : (size m ≤ size m')%nat → fits m' → fits m.
Proof. unfold fits. lia. Qed.

(** What is recovered after a power cut that finds one of the two logs and one of
    the two checkpoints. *)
Lemma cut_recovers wal ps es ops fs' (late : Prop) :
  wal ≠ EmptyString → ps_inv ps → disk_holds (ps_fs ps) wal es ops (kv_map (kv_ ps)) → fits (kv_map (kv_ ps)) →
  wal ∉ fs_denied fs' →
  fs_read fs' wal = Some (log_bytes ops) ∨ late ∧ fs_read fs' wal = Some [] →
  fs_read fs' (wal +:+ ".ckpt") = fs_read (ps_fs ps) (wal +:+ ".ckpt") ∨
    fs_read fs' (wal +:+ ".ckpt") = Some (ckpt_bytes (kv_entries (kv_ ps))) →
  ∃ q, open_engine wal SYNC_EACH fs' = Ret q ∧ ps_inv q ∧
    (kv_map (kv_ q) = kv_map (kv_ ps) ∨ late ∧ checkpoint_undone wal ps fs') ∧
    (checkpoint_undone wal ps fs' → kv_map (kv_ q) = puts_map ∅ es).
Proof.
  intros Hne Hinv [Hw Hck Hes Hlen Hops Hcl Hm] Hfit Hd Hwal Hckpt.
  pose proof Hinv as [[Hwf Hcap] _ Hu].
  assert (fits (puts_map ∅ es)) as Hfit0.
  { apply (fits_le _ (kv_map (kv_ ps))); [|done]. rewrite <- Hm. apply puts_map_size. }
  assert (u64_map (puts_map ∅ es)) as Hu0 by (apply u64_map_puts; [apply map_Forall_empty|done]).
  assert (checkpoint_undone wal ps fs' →
    ∃ q, open_engine wal SYNC_EACH fs' = Ret q ∧ kv_map (kv_ q) = puts_map ∅ es ∧ ps_inv q) as Hundone.
  { intros [H1 H2]. destruct (reopen wal fs' es [] (puts_map ∅ es)) as (q & Hq & Hmq & Hiq & _);
      [done|done|done|by apply (ckpt_holds_read (ps_fs ps))|done|done|constructor|done|done|done|]. eauto. }
  assert (u64_puts (kv_entries (kv_ ps))) as Hentries.
  { apply Forall_forall. intros [k v] Hkv. apply (Hu k v). unfold kv_map.
    apply elem_of_list_to_map_1; [by apply entries_nodup|done]. }
  assert (Z.of_nat (length (kv_entries (kv_ ps))) < 2 ^ 64) as Hlen'.
  { rewrite <- (wf_size _ Hwf), kv_size_map by done. unfold fits, MATRIX_STORE_SLOTS in Hfit. lia. }
  assert (∃ q, open_engine wal SYNC_EACH fs' = Ret q ∧ ps_inv q ∧
    (kv_map (kv_ q) = kv_map (kv_ ps) ∨ late ∧ checkpoint_undone wal ps fs')) as (q & Hq & Hiq & Hmq).
  { destruct Hckpt as [Hc|Hc], Hwal as [Hl|[Hlate Hl]].
    - destruct (reopen wal fs' es ops (kv_map (kv_ ps))) as (q & Hq & Hmq & Hiq & _);
        [done|done|done|by apply (ckpt_holds_read (ps_fs ps))|done|done|done|done|done|done|]. eauto 6.
    - destruct Hundone as (q & Hq & _ & Hiq); [done|]. exists q. split; [done|]. split; [done|]. by right.
    - destruct (reopen wal fs' (kv_entries (kv_ ps)) ops (kv_map (kv_ ps))) as (q & Hq & Hmq & Hiq & _);
        [done|done|done|by right|exact Hentries|exact Hlen'|exact Hops|idtac|done|done|eauto 6].
      rewrite puts_map_entries by done. rewrite <- Hm. apply puts_map_idemp.
    - destruct (reopen wal fs' (kv_entries (kv_ ps)) [] (kv_map (kv_ ps))) as (q & Hq & Hmq & Hiq & _);
        [done|done|done|by right|exact Hentries|exact Hlen'|constructor|idtac|done|done|eauto 6]. by apply puts_map_entries. }
  exists q. split; [done|]. split; [done|]. split; [done|].
  intros Hun. destruct (Hundone Hun) as (q' & Hq' & Hm' & _). rewrite Hq in Hq'. by injection Hq' as ->.
Qed.
(** No file claims to be durable beyond its end. *)
Definition fs_sound (fs : filesys) : Prop := ∀ p f, fs_files fs !! p = Some f → (f_synced f ≤ length (f_data f))%nat.

(** A cut after the calls that finds the files as they are, but for one path that
    was never synced and has what it had before. *)
Lemma power_cut_back fs fs' cs p :
  disk_run fs cs = Some fs' → Forall (λ c, syncs p c = false) cs → fs_sound fs →
  (∀ q f, q ≠ p → fs_files fs' !! q = Some f → (f_synced f ≤ length (f_data f))%nat) →
  ∃ d, disk_steps (settled fs) cs = Some d ∧
    power_cut d (mkFS (partial_alter (λ _, fs_files fs !! p) p (fs_files fs')) (fs_room fs') (fs_denied fs')).
Proof.
  intros Hrun Hcs Hs Hs'. destruct (disk_steps_run cs (settled fs) fs' Hrun) as (d & Hd & Hnow).
  exists d. split; [done|]. split; [by rewrite Hnow|]. intros q. cbn [fs_files].
  destruct (decide (q = p)) as [->|Hq].
  - exists (fs_files fs !! p). split; [apply (disk_steps_keep p _ _ _ _ Hd Hcs), list_elem_of_here|].
    rewrite lookup_partial_alter_eq. destruct (fs_files fs !! p) as [f|] eqn:E; [|done].
    exists f. split; [done|]. exists (length (f_data f)). split; [split; [by apply (Hs p)|lia]|by rewrite take_ge].
  - exists (fs_files fs' !! q). split; [rewrite <- Hnow; apply list_elem_of_here|].
    rewrite lookup_partial_alter_ne by done. destruct (fs_files fs' !! q) as [f|] eqn:E; [|done].
    exists f. split; [done|]. exists (length (f_data f)). split; [split; [by apply (Hs' q)|lia]|by rewrite take_ge].
Qed.

(** What a checkpoint leaves when no power cut comes. *)
Lemma checkpoint_run wal ps n es ops :
  ps_durable wal ps → in_txn_ ps = false → fits (kv_map (kv_ ps)) →
  (12 + 16 * length (kv_entries (kv_ ps)) ≤ fs_room (ps_fs ps))%nat →
  cold_store_ ps = Some (mkCS wal SYNC_EACH n) → disk_holds (ps_fs ps) wal es ops (kv_map (kv_ ps)) →
  ∃ fs1 ps', disk_run (ps_fs ps) (save_calls (wal +:+ ".ckpt") (kv_ ps)) = Some fs1 ∧
    fs_files fs1 !! (wal +:+ ".ckpt") =
      Some (mkFile (ckpt_bytes (kv_entries (kv_ ps))) (length (ckpt_bytes (kv_entries (kv_ ps))))) ∧
    checkpoint ps = Ret ps' ∧ disk_run (ps_fs ps) (checkpoint_calls ps (mkCS wal SYNC_EACH n)) = Some (ps_fs ps') ∧
    ps_durable wal ps' ∧ kv_map (kv_ ps') = kv_map (kv_ ps) ∧
    fs_read (ps_fs ps') wal = Some [] ∧ checkpoints_ ps' = u64 (checkpoints_ ps + 1) ∧
    (∀ p f, fs_sound (ps_fs ps) → p ≠ wal +:+ ".ckpt" →
       fs_files (ps_fs ps') !! p = Some f → (f_synced f ≤ length (f_data f))%nat).
Proof.
  intros [Hinv _ Hpath _ Hallow] Hin Hfit Hroom Hcs [Hw Hck Hes Hlen Hops Hcl Hm].
  pose proof Hinv as [[Hwf Hcap] Hidx Hu].
  assert (wal ≠ wal +:+ ".ckpt") as Hne1 by (by apply wal_path_ne_ckpt).
  assert (wal +:+ ".ckpt" ≠ (wal +:+ ".ckpt") +:+ ".tmp") as Hne3 by (by apply wal_path_ne_ckpt).
  destruct (save_calls_run (wal +:+ ".ckpt") (kv_ ps) (ps_fs ps)) as (fs1 & Hsave & Hf1 & Hnone & Hd1 & Hfr);
    [done|apply Hallow|rewrite string_app_assoc; apply Hallow|done|].
  assert (u64_puts (kv_entries (kv_ ps))) as Hentries.
  { apply Forall_forall. intros [k v] Hkv. apply (Hu k v). unfold kv_map.
    apply elem_of_list_to_map_1; [by apply entries_nodup|done]. }
  assert (Z.of_nat (length (kv_entries (kv_ ps))) < 2 ^ 64) as Hlen'.
  { rewrite <- (wf_size _ Hwf), kv_size_map by done. unfold fits, MATRIX_STORE_SLOTS in Hfit. lia. }
  destruct (truncate_calls_run fs1 wal n) as [r Htr].
  { rewrite Hd1. pose proof (Hallow EmptyString) as H. by rewrite string_app_nil_r in H. }
  assert (disk_run (ps_fs ps) (checkpoint_calls ps (mkCS wal SYNC_EACH n)) = Some (fs_set fs1 wal (mkFile [] 0) r))
    as Hrun by (unfold checkpoint_calls; rewrite Hpath, disk_run_app, Hsave; exact Htr).
  exists fs1. unfold checkpoint. rewrite Hin, Hcs, Hrun. cbn [assert_ negb mbind outcome_bind of_option].
  eexists. split; [done|]. split; [done|]. split; [done|]. split; [done|].
  split; [|split; [done|split; [apply fs_set_read|split; [done|]]]].
  - split; cbn; [by destruct Hinv|by eexists|done| |].
    + exists (kv_entries (kv_ ps)), []. split; try done.
      * apply fs_set_file.
      * right. cbn. by rewrite lookup_insert_ne.
      * cbn. by apply puts_map_entries.
    + intros s. rewrite Hd1. apply Hallow.
  - cbn. intros p f Hs Hp. destruct (decide (p = wal)) as [->|Hpw];
      [rewrite lookup_insert_eq; intros [= <-]; cbn; lia|rewrite lookup_insert_ne by done].
    destruct (decide (p = (wal +:+ ".ckpt") +:+ ".tmp")) as [->|Hpt]; [by rewrite Hnone|].
    rewrite Hfr by done. apply Hs.
Qed.

(** C5: A checkpoint returns with the same map, on a disk that holds it with an
    empty log.  Let the power be cut after any number [k] of the calls it makes on
    the disk: on whatever that leaves, the constructor comes up, and with the map
    the engine had, as long as the log has not been emptied.  From then on there
    is one exception, which cannot be told apart from success when it happens: no
    directory is synced, so the cut may undo the rename of the new snapshot while
    the emptied log stays empty, and then the map of the snapshot before comes up.
    That can happen even after the checkpoint has returned.  The disk the
    checkpoint starts from is taken as settled: what was renamed before stays. *)
Theorem checkpoint_safe wal ps :
  wal ≠ EmptyString → ps_durable wal ps → in_txn_ ps = false → fits (kv_map (kv_ ps)) →
  (12 + 16 * length (kv_entries (kv_ ps)) ≤ fs_room (ps_fs ps))%nat →
  ∃ cs es ps', cold_store_ ps = Some cs ∧ ckpt_holds (ps_fs ps) (wal +:+ ".ckpt") es ∧
    checkpoint ps = Ret ps' ∧ ps_durable wal ps' ∧ kv_map (kv_ ps') = kv_map (kv_ ps) ∧
    fs_read (ps_fs ps') wal = Some [] ∧ checkpoints_ ps' = u64 (checkpoints_ ps + 1) ∧
    disk_run (ps_fs ps) (checkpoint_calls ps cs) = Some (ps_fs ps') ∧
    (∀ k, ∃ d, disk_steps (settled (ps_fs ps)) (take k (checkpoint_calls ps cs)) = Some d ∧
       ∀ fs', power_cut d fs' → ∃ q, open_engine wal SYNC_EACH fs' = Ret q ∧ ps_inv q ∧
         (kv_map (kv_ q) = kv_map (kv_ ps) ∨
           (length (save_calls (checkpoint_path_ ps) (kv_ ps)) < k)%nat ∧ checkpoint_undone wal ps fs') ∧
         (checkpoint_undone wal ps fs' → kv_map (kv_ q) = puts_map ∅ es)) ∧
    (fs_sound (ps_fs ps) → ∃ d fs', disk_steps (settled (ps_fs ps)) (checkpoint_calls ps cs) = Some d ∧
       power_cut d fs' ∧ checkpoint_undone wal ps fs').
Proof.
  intros Hne Hdur Hin Hfit Hroom. pose proof Hdur as [Hinv [n Hcs] Hpath (es & ops & Hdisk) Hallow].
  destruct (checkpoint_run wal ps n es ops) as (fs1 & ps' & Hsave & Hf1 & Hck & Hrun & Hdur' & Hm' & Hw' & Hc' & Hs');
    [done..|].
  exists (mkCS wal SYNC_EACH n), es, ps'. do 2 (split; [done || apply Hdisk|]). do 6 (split; [done|]). split.
  - intros k. destruct (disk_run_prefix _ _ _ k Hrun) as [fsk Hk].
    destruct (disk_steps_run _ (settled (ps_fs ps)) fsk Hk) as (d & Hd & _). exists d. split; [done|].
    destruct (checkpoint_cut wal ps n _ _ fs1 k d Hcs Hpath (dh_wal _ _ _ _ _ Hdisk) Hsave Hf1 Hd) as [Hwal Hckpt].
    intros fs' Hcut. apply (cut_recovers wal ps es ops); [done..| | |].
    + rewrite (proj1 Hcut), (disk_steps_denied _ _ _ Hd). cbn.
      pose proof (Hallow EmptyString) as H. by rewrite string_app_nil_r in H.
    + by apply (power_cut_read d).
    + apply (power_cut_ckpt d _ _ _ es); [done|apply Hdisk|done].
  - intros Hs. assert (wal ≠ wal +:+ ".ckpt") as Hne1 by (by apply wal_path_ne_ckpt).
    destruct (power_cut_back _ _ _ (wal +:+ ".ckpt") Hrun) as (d & Hd & Hcut); [|done|by eauto|].
    { unfold checkpoint_calls. rewrite Hpath. apply Forall_app. split; [by apply save_calls_syncs, wal_path_ne_ckpt|].
      unfold truncate_calls. cbn. repeat constructor. cbn. by apply String.eqb_neq. }
    eexists d, _. split; [done|]. split; [done|]. unfold checkpoint_undone, fs_read. cbn [fs_files].
    rewrite lookup_partial_alter_ne, lookup_partial_alter_eq by done. split; [exact Hw'|done].
Qed.
(** ** Range reads *)

Lemma insert_sorted_perm e l : insert_sorted e l ≡ₚ e :: l.
Proof.
  induction l as [|x l IH]; [done|]. cbn. destruct (e.1 <=? x.1); [done|]. rewrite IH. apply Permutation_swap.
Qed.

Definition ascending : list (Z * Z) → Prop := StronglySorted (λ a b, a.1 ≤ b.1).

Lemma insert_sorted_ascending e l : ascending l → ascending (insert_sorted e l).
Proof.
  induction 1 as [|x l Hl IH Hx]; cbn; [by repeat constructor|].
  destruct (Z.leb_spec e.1 x.1) as [Hle|Hgt].
  - constructor; [by constructor|]. constructor; [done|]. eapply Forall_impl; [exact Hx|]. cbn. lia.
  - constructor; [done|]. rewrite insert_sorted_perm. constructor; [lia|done].
Qed.

Lemma ordered_entries_spec m : ordered_entries m ≡ₚ map_to_list m ∧ ascending (ordered_entries m).
Proof.
  unfold ordered_entries. induction (map_to_list m) as [|e l [IH1 IH2]]; [by repeat constructor|]. cbn. split.
  - by rewrite insert_sorted_perm, IH1.
  - by apply insert_sorted_ascending.
Qed.

Lemma filter_none {A} (f : A → bool) l : Forall (λ x, f x = false) l → List.filter f l = [].
Proof. induction 1 as [|x l Hx _ IH]; [done|]. cbn. by rewrite Hx. Qed.

Lemma filter_all {A} (f : A → bool) l : Forall (λ x, f x = true) l → List.filter f l = l.
Proof. induction 1 as [|x l Hx _ IH]; [done|]. cbn. by rewrite Hx, IH. Qed.

Lemma walk_to_spec hi l : ascending l → walk_to hi l = List.filter (λ e, e.1 <=? hi) l.
Proof.
  induction 1 as [|x l Hl IH Hx]; [done|]. cbn. destruct (Z.leb_spec x.1 hi); [by rewrite IH|].
  symmetry. apply filter_none. eapply Forall_impl; [exact Hx|]. cbn. intros y Hy. apply Z.leb_gt. lia.
Qed.

Lemma map_lower_bound_spec lo l : ascending l → lower_bound lo l = List.filter (λ e, lo <=? e.1) l.
Proof.
  induction 1 as [|x l Hl IH Hx]; [done|]. cbn.
  destruct (Z.ltb_spec x.1 lo), (Z.leb_spec lo x.1); try lia; [done|]. f_equal. symmetry.
  apply filter_all. eapply Forall_impl; [exact Hx|]. cbn. intros y Hy. apply Z.leb_le. lia.
Qed.

Lemma filter_ascending (f : Z * Z → bool) l : ascending l → ascending (List.filter f l).
Proof.
  induction 1 as [|x l Hl IH Hx]; [constructor|]. cbn. destruct (f x); [|done].
  constructor; [done|]. apply Forall_forall. intros y Hy. rewrite Forall_forall in Hx. apply Hx.
  apply list_elem_of_In, List.filter_In in Hy. apply list_elem_of_In, Hy.
Qed.

Lemma filter_filter {A} (f g : A → bool) l : List.filter f (List.filter g l) = List.filter (λ x, g x && f x) l.
Proof. induction l as [|x l IH]; [done|]. cbn. destruct (g x); cbn; [destruct (f x)|]; by rewrite ?IH. Qed.

Lemma filter_perm {A} (f : A → bool) l1 l2 : l1 ≡ₚ l2 → List.filter f l1 ≡ₚ List.filter f l2.
Proof.
  induction 1 as [|x l1 l2 _ IH|x y l|l1 l2 l3 _ IH1 _ IH2]; cbn; [done| | |by rewrite IH1].
  - destruct (f x); [by apply perm_skip|done].
  - destruct (f x), (f y); try done. apply Permutation_swap.
Qed.

(** The two range scans agree: the index walk returns the entries of the table
    with a key in the range, each once, in ascending key order; the full scan
    returns the same entries in hash order. *)
Theorem kv_range_sorted_correct lo hi ps :
  ps_inv ps →
  kv_range_sorted lo hi ps ≡ₚ kv_range lo hi ps ∧
  StronglySorted (λ a b, a.1 ≤ b.1) (kv_range_sorted lo hi ps) ∧
  NoDup (kv_range_sorted lo hi ps).*1 ∧
  ∀ k v, (k, v) ∈ kv_range_sorted lo hi ps ↔ lo ≤ k ≤ hi ∧ kv_map (kv_ ps) !! k = Some v.
Proof.
  intros [[Hwf _] Hidx _]. destruct (ordered_entries_spec (key_index_ ps)) as [Hperm Hasc].
  assert (kv_range_sorted lo hi ps = List.filter (in_range lo hi) (ordered_entries (key_index_ ps))) as Heq.
  { unfold kv_range_sorted. rewrite map_lower_bound_spec by done.
    rewrite walk_to_spec by (by apply filter_ascending). apply filter_filter. }
  assert (kv_range_sorted lo hi ps ≡ₚ kv_range lo hi ps) as HP.
  { rewrite Heq. unfold kv_range. apply filter_perm. rewrite Hperm, Hidx. unfold kv_map.
    by rewrite map_to_list_to_map by (by apply entries_nodup). }
  split; [done|]. split; [rewrite Heq; by apply filter_ascending|].
  assert (∀ k v, (k, v) ∈ kv_range_sorted lo hi ps ↔ lo ≤ k ≤ hi ∧ kv_map (kv_ ps) !! k = Some v) as Helem.
  { intros k v. rewrite Heq, list_elem_of_In, List.filter_In, <- list_elem_of_In, Hperm, elem_of_map_to_list, Hidx.
    unfold in_range. cbn. rewrite andb_true_iff, !Z.leb_le. tauto. }
  split; [|done]. rewrite HP. unfold kv_range.
  assert (∀ l : list (Z * Z), NoDup l.*1 → NoDup (List.filter (in_range lo hi) l).*1) as Hnd.
  { clear. induction l as [|e l IH]; [done|]. cbn [fmap list_fmap List.filter]. intros [Hn Hl]%NoDup_cons.
    destruct (in_range lo hi e); [|by apply IH]. cbn. apply NoDup_cons. split; [|by apply IH].
    intros (x & Hx & Hin)%list_elem_of_fmap. apply Hn. apply list_elem_of_fmap. exists x. split; [done|].
    apply list_elem_of_In, List.filter_In in Hin. apply list_elem_of_In, Hin. }
  apply Hnd. by apply entries_nodup.
Qed.

(** ** Batches *)

(** One query against a map: reads report the value (0 on a miss), writes store
    the key under itself. *)
Definition exec_query (m : gmap Z Z) (q : DatabaseQuery) : gmap Z Z * DatabaseQuery :=
  if opcode q =? OP_READ then (m, set_transaction_id (default 0 (m !! query_id q)) q)
  else if opcode q =? OP_WRITE then (<[query_id q := query_id q]> m, q)
  else (m, q).

Fixpoint exec_queries (m : gmap Z Z) (l : list DatabaseQuery) : gmap Z Z * list DatabaseQuery :=
  match l with
  | [] => (m, [])
  | q :: l' =>
      let '(m1, q1) := exec_query m q in
      let '(m2, l2) := exec_queries m1 l' in
      (m2, q1 :: l2)
  end.

Definition qpage (q : DatabaseQuery) : nat := Z.to_nat (matrix_page_of (query_id q)).
Definition on_page (p : nat) (q : DatabaseQuery) : bool := (qpage q =? p)%nat.

(** Two maps that agree on the keys of page [p]. *)
Definition agree (p : nat) (m1 m2 : gmap Z Z) : Prop :=
  ∀ k, Z.to_nat (matrix_page_of k) = p → m1 !! k = m2 !! k.

Lemma exec_query_id m q : query_id (exec_query m q).2 = query_id q.
Proof. unfold exec_query. by repeat case_match. Qed.

Lemma exec_query_agree p m1 m2 q :
  agree p m1 m2 → qpage q = p →
  (exec_query m1 q).2 = (exec_query m2 q).2 ∧ agree p (exec_query m1 q).1 (exec_query m2 q).1.
Proof.
  intros Ha Hq. unfold exec_query. destruct (_ =? _); [split; [by rewrite (Ha _ Hq)|done]|].
  destruct (_ =? _); [|done]. split; [done|]. intros k Hk. cbn. rewrite !lookup_insert. by rewrite (Ha k Hk).
Qed.

Lemma exec_query_other p m q : qpage q ≠ p → agree p (exec_query m q).1 m.
Proof.
  intros Hq. unfold exec_query. destruct (_ =? _); [done|]. destruct (_ =? _); [|done].
  intros k Hk. cbn. rewrite lookup_insert_ne; [done|]. intros <-. done.
Qed.

Lemma exec_queries_agree p l : ∀ m1 m2,
  agree p m1 m2 → Forall (λ q, qpage q = p) l →
  (exec_queries m1 l).2 = (exec_queries m2 l).2 ∧ agree p (exec_queries m1 l).1 (exec_queries m2 l).1.
Proof.
  induction l as [|q l IH]; intros m1 m2 Ha Hl; [done|]. apply Forall_cons in Hl as [Hq Hl]. cbn.
  destruct (exec_query_agree p m1 m2 q Ha Hq) as [He Hm].
  destruct (exec_query m1 q) as [a1 q1], (exec_query m2 q) as [a2 q2]. cbn in *. subst q2.
  destruct (IH a1 a2 Hm Hl) as [He2 Hm2].
  destruct (exec_queries a1 l) as [b1 l1], (exec_queries a2 l) as [b2 l2]. cbn in *. by subst.
Qed.

(** What a batch does on one page is what its queries for that page do. *)
Lemma exec_queries_page p l : ∀ m,
  List.filter (on_page p) (exec_queries m l).2 = (exec_queries m (List.filter (on_page p) l)).2 ∧
  agree p (exec_queries m l).1 (exec_queries m (List.filter (on_page p) l)).1.
Proof.
  induction l as [|q l IH]; intros m; [done|]. cbn.
  assert (on_page p (exec_query m q).2 = on_page p q) as Hop
    by (unfold on_page, qpage; by rewrite exec_query_id).
  destruct (on_page p q) eqn:Hq.
  - cbn. destruct (exec_query m q) as [m1 q1]. cbn in Hop. destruct (IH m1) as [H1 H2].
    destruct (exec_queries m1 l) as [m2 l2], (exec_queries m1 (List.filter (on_page p) l)) as [m3 l3].
    cbn in *. rewrite Hop, H1. done.
  - apply Nat.eqb_neq in Hq. pose proof (exec_query_other p m q Hq) as Ha.
    destruct (exec_query m q) as [m1 q1]. cbn in *. destruct (IH m1) as [H1 H2].
    destruct (exec_queries m1 l) as [m2 l2]. cbn in *. rewrite Hop.
    assert (Forall (λ q, qpage q = p) (List.filter (on_page p) l)) as Hl.
    { apply Forall_forall. intros x Hx. apply list_elem_of_In, List.filter_In in Hx as [_ Hx]. by apply Nat.eqb_eq. }
    destruct (exec_queries_agree p _ m1 m Ha Hl) as [H3 H4]. split; [congruence|].
    intros k Hk. rewrite (H2 k Hk). by apply H4.
Qed.

(** The store can take [n] more logged writes. *)
Definition ready (wal : string) (n : nat) (ps : PointStore) : Prop :=
  ps_inv ps ∧ (cold_store_ ps = None ∨ (ps_durable wal ps ∧ (28 * n ≤ fs_room (ps_fs ps))%nat)).

Lemma ready_mono wal n n' ps : (n' ≤ n)%nat → ready wal n ps → ready wal n' ps.
Proof. intros Hn [? [?|[? ?]]]; (split; [done|]); [by left|right; split; [done|lia]]. Qed.

Lemma disk_holds_put fs wal es ops m k v n :
  disk_holds fs wal es ops m → in_u64 k → in_u64 v →
  disk_holds (fs_set fs wal (mkFile (log_bytes (ops ++ [WPut k v])) (length (log_bytes (ops ++ [WPut k v])))) n)
    wal es (ops ++ [WPut k v]) (<[k := v]> m).
Proof.
  intros Hd Hk Hv. pose proof Hd as [_ _ _ _ _ Hcl Hm].
  replace (<[k := v]> m) with (puts_map (puts_map ∅ es) (log_puts (ops ++ [WPut k v]))).
  - eapply disk_holds_logged; [done|by apply Forall_singleton|].
    unfold log_run. rewrite fold_left_app. apply log_run_closed in Hcl. unfold log_run in Hcl. by rewrite Hcl.
  - rewrite log_puts_snoc, puts_map_app, Hm by done. done.
Qed.

Lemma write_one_spec wal n ps k :
  ready wal (S n) ps → in_u64 k → fits (<[k := k]> (kv_map (kv_ ps))) →
  ∃ ps', apply_committed_write (wal_call (λ fs cs, append_put fs cs k k) ps) k k = Ret ps' ∧
    ready wal n ps' ∧ kv_map (kv_ ps') = <[k := k]> (kv_map (kv_ ps)) ∧
    binned_ ps' = binned_ ps ∧ offsets_ ps' = offsets_ ps.
Proof.
  intros [Hinv [Hnone|[Hd Hroom]]] Hk Hfit.
  - unfold wal_call. rewrite Hnone.
    destruct (apply_committed_write_spec ps k k Hinv Hk Hk Hfit) as (ps' & -> & Hinv' & Hs & Hm & _).
    exists ps'. destruct Hs as [Hcs ? ? ? ? ? ?]. split; [done|]. split; [|done]. split; [done|]. left. by rewrite Hcs.
  - destruct Hd as [_ [m Hcs] Hpath (es & ops & Hdisk) Hallow].
    change (wal_call (λ fs cs, append_put fs cs k k) ps) with (fold_left (λ ps op, log_call op ps) [WPut k k] ps).
    assert (length (log_bytes [WPut k k]) = 28)%nat as H28 by (by rewrite log_bytes_one, length_record).
    rewrite (log_calls wal [WPut k k] m ops) by (apply Hdisk || done || lia).
    set (ps1 := logged wal m ops [WPut k k] ps).
    destruct (apply_committed_write_spec ps1 k k) as (ps' & -> & Hinv' & Hs & Hm & _); [by destruct Hinv|done..|].
    exists ps'. destruct Hs as [Hcs' Hp' Hfs' Hb' Ho' _ _]. split; [done|]. split; [|done]. split; [done|]. right.
    split; [split; [done| | | |]|].
    + rewrite Hcs'. eexists. reflexivity.
    + by rewrite Hp'.
    + exists es, (ops ++ [WPut k k]). rewrite Hfs', Hm. by apply disk_holds_put.
    + intros s. rewrite Hfs'. apply Hallow.
    + rewrite Hfs'. unfold ps1, logged. cbn [ps_fs with_disk fs_set fs_room].
      lia.
Qed.

Lemma exec_one_spec wal n ps j q :
  ready wal (S n) ps → binned_ ps !! j = Some q → in_u64 (query_id q) →
  fits (exec_query (kv_map (kv_ ps)) q).1 →
  ∃ ps', exec_one j ps = Ret ps' ∧ ready wal n ps' ∧
    kv_map (kv_ ps') = (exec_query (kv_map (kv_ ps)) q).1 ∧
    binned_ ps' = <[j := (exec_query (kv_map (kv_ ps)) q).2]> (binned_ ps) ∧ offsets_ ps' = offsets_ ps.
Proof.
  intros Hr Hq Hu Hfit. unfold exec_one. rewrite (rd_lookup _ _ _ Hq). cbn [mbind outcome_bind].
  assert (ready wal n ps) as Hr'.
  { eapply ready_mono; [|exact Hr]. lia. }
  unfold exec_query in *. destruct (opcode q =? OP_READ).
  - rewrite kv_get_spec by apply Hr. cbn. eexists. split; [done|]. cbn. split; [|done].
    destruct Hr' as [[? ? ?] Hcase]. split; [by split|]. destruct Hcase as [?|[[[? ? ?] ? ? ? ?] ?]]; [by left|].
    right. split; [|done]. split; try done.
  - destruct (opcode q =? OP_WRITE).
    + destruct (write_one_spec wal n ps (query_id q) Hr Hu Hfit) as (ps' & -> & ? & ? & Hb & ?).
      exists ps'. rewrite Hb, list_insert_id by done. done.
    + exists ps. cbn. by rewrite list_insert_id.
Qed.

Lemma exec_query_grows m q : (size m ≤ size (exec_query m q).1)%nat.
Proof.
  unfold exec_query. repeat case_match; cbn; try done. rewrite <- !(size_dom (D:=gset Z)), dom_insert_L.
  apply subseteq_size. set_solver.
Qed.

Lemma exec_queries_grows l : ∀ m, (size m ≤ size (exec_queries m l).1)%nat.
Proof.
  induction l as [|q l IH]; intros m; [done|]. cbn. pose proof (exec_query_grows m q) as H1.
  destruct (exec_query m q) as [m1 q1]. pose proof (IH m1) as H2.
  destruct (exec_queries m1 l) as [m2 l2]. cbn in *. lia.
Qed.

Lemma length_exec_queries l : ∀ m, length (exec_queries m l).2 = length l.
Proof.
  induction l as [|q l IH]; intros m; [done|]. cbn. destruct (exec_query m q) as [m1 q1].
  specialize (IH m1). destruct (exec_queries m1 l). cbn in *. by rewrite IH.
Qed.

Lemma exec_slice wal qs : ∀ start n ps,
  ready wal (n + length qs) ps → take (length qs) (drop start (binned_ ps)) = qs →
  Forall (λ q, in_u64 (query_id q)) qs → fits (exec_queries (kv_map (kv_ ps)) qs).1 →
  ∃ ps', for_loop start (length qs) exec_one ps = Ret ps' ∧ ready wal n ps' ∧
    kv_map (kv_ ps') = (exec_queries (kv_map (kv_ ps)) qs).1 ∧ offsets_ ps' = offsets_ ps ∧
    binned_ ps' = take start (binned_ ps) ++ (exec_queries (kv_map (kv_ ps)) qs).2
                    ++ drop (start + length qs) (binned_ ps).
Proof.
  induction qs as [|q qs IH]; intros start n ps Hr Hsl Hu Hfit.
  { exists ps. cbn. rewrite Nat.add_0_r in *. rewrite take_drop. done. }
  apply Forall_cons in Hu as [Hq Hu]. cbn [length for_loop] in *.
  assert (binned_ ps !! start = Some q) as Hlk.
  { apply (f_equal (λ l, l !! 0%nat)) in Hsl. rewrite lookup_take_lt, lookup_drop, Nat.add_0_r in Hsl by lia. done. }
  assert (take (length qs) (drop (S start) (binned_ ps)) = qs) as Htl.
  { rewrite (drop_S _ _ _ Hlk) in Hsl. cbn in Hsl. by injection Hsl. }
  cbn [exec_queries] in *. destruct (exec_query (kv_map (kv_ ps)) q) as [m1 q1] eqn:E.
  destruct (exec_queries m1 qs) as [m2 l2] eqn:E2. cbn [fst snd] in *.
  assert (fits m1) as Hfit1.
  { unfold fits in *. pose proof (exec_queries_grows qs m1) as Hg. rewrite E2 in Hg. cbn in Hg. lia. }
  destruct (exec_one_spec wal (n + length qs) ps start q) as (ps1 & -> & Hr1 & Hm1 & Hb1 & Ho1);
    [by rewrite <- Nat.add_succ_r|done|done|by rewrite E|].
  rewrite E in Hm1, Hb1. cbn [fst snd] in *. cbn [mbind outcome_bind].
  assert (start < length (binned_ ps))%nat as Hlt by (by apply lookup_lt_Some in Hlk).
  destruct (IH (S start) n ps1 Hr1) as (ps' & -> & Hr' & Hm' & Ho' & Hb').
  - rewrite Hb1, drop_insert_lt by lia. done.
  - done.
  - by rewrite Hm1, E2.
  - exists ps'. rewrite Hm1, E2 in Hm'. rewrite Hm1, E2 in Hb'. cbn [fst snd] in *.
    split; [done|]. split; [done|]. split; [done|]. split; [congruence|].
    rewrite Hb', Hb1. rewrite drop_insert_lt by lia.
    rewrite (take_S_r _ _ q1) by (by rewrite list_lookup_insert_eq).
    rewrite take_insert_ge by lia. rewrite <- app_assoc. cbn. by rewrite Nat.add_succ_r.
Qed.

Definition slice {A} (start len : nat) (l : list A) : list A := take len (drop start l).

Lemma slice_splice {A} (b res : list A) s s' l' :
  (s + length res ≤ length b)%nat → (s' + l' ≤ s ∨ s + length res ≤ s')%nat →
  slice s' l' (take s b ++ res ++ drop (s + length res) b) = slice s' l' b.
Proof.
  intros Hs Hd. unfold slice. apply list_eq. intros j.
  destruct (decide (j < l')%nat) as [Hj|Hj]; [|by rewrite !lookup_take_ge by lia].
  rewrite !lookup_take_lt, !lookup_drop by lia. destruct Hd.
  - rewrite lookup_app_l by (rewrite length_take; lia). by rewrite lookup_take_lt by lia.
  - rewrite lookup_app_r by (rewrite length_take; lia). rewrite length_take, Nat.min_l by lia.
    rewrite lookup_app_r by lia. rewrite lookup_drop. f_equal. lia.
Qed.

Lemma slice_spliced {A} (b res : list A) s :
  (s + length res ≤ length b)%nat →
  slice s (length res) (take s b ++ res ++ drop (s + length res) b) = res.
Proof.
  intros Hs. unfold slice. rewrite drop_app_length' by (rewrite length_take; lia). apply take_app_length.
Qed.

Lemma exec_queries_other p l m k :
  Forall (λ q, qpage q = p) l → Z.to_nat (matrix_page_of k) ≠ p → (exec_queries m l).1 !! k = m !! k.
Proof.
  intros Hl Hk. revert m. induction Hl as [|q l Hq _ IH]; intros m; [done|]. cbn.
  assert ((exec_query m q).1 !! k = m !! k) as H1.
  { unfold exec_query. repeat case_match; cbn; try done. rewrite lookup_insert_ne; [done|]. intros <-. by apply Hk. }
  destruct (exec_query m q) as [m1 q1]. specialize (IH m1). destruct (exec_queries m1 l). cbn in *. congruence.
Qed.

Lemma exec_queries_dom l : ∀ m, dom m ⊆ dom (exec_queries m l).1.
Proof.
  induction l as [|q l IH]; intros m; [done|]. cbn.
  assert (dom m ⊆ dom (exec_query m q).1) as H1.
  { unfold exec_query. repeat case_match; cbn; try done. rewrite dom_insert_L. set_solver. }
  destruct (exec_query m q) as [m1 q1]. specialize (IH m1). destruct (exec_queries m1 l). cbn in *. set_solver.
Qed.

Section batch.
Variables (wal : string) (spare : nat) (batch : list DatabaseQuery) (m0 : gmap Z Z) (offs : list Z).

Definition pages : nat := Z.to_nat MATRIX_PAGE_COUNT.
Definition qs (p : nat) : list DatabaseQuery := List.filter (on_page p) batch.
Definition st (p : nat) : nat := before_page qpage p batch.
Definition final_map : gmap Z Z := (exec_queries m0 batch).1.
Definition results (p : nat) : list DatabaseQuery := (exec_queries m0 (qs p)).2.

(** After the pages before [p] have run; the log has room for [spare] writes more. *)
Record page_inv (L p : nat) (ps : PointStore) : Prop := {
  pg_ready : ready wal (spare + (length batch - st p)) ps;
  pg_offs : offsets_ ps = offs;
  pg_len : length (binned_ ps) = L;
  pg_slices : ∀ p', (p' < pages)%nat →
    slice (st p') (length (qs p')) (binned_ ps) = if (p' <? p)%nat then results p' else qs p';
  pg_map : ∀ k, kv_map (kv_ ps) !! k =
    if (Z.to_nat (matrix_page_of k) <? p)%nat then final_map !! k else m0 !! k
}.

Hypothesis Hoffs : ∀ p, (p < pages)%nat →
  offs !! p = Some (Z.of_nat (st p)) ∧ offs !! S p = Some (Z.of_nat (st p + length (qs p))).
Hypothesis Hu : Forall (λ q, in_u64 (query_id q)) batch.
Hypothesis Hfit : fits final_map.

Lemma st_S p : st (S p) = (st p + length (qs p))%nat.
Proof. reflexivity. Qed.

Lemma st_mono p p' : (p < p')%nat → (st p + length (qs p) ≤ st p')%nat.
Proof. intros H. rewrite <- st_S. apply before_page_le. lia. Qed.

Lemma qs_page p : Forall (λ q, qpage q = p) (qs p).
Proof.
  apply Forall_forall. intros x Hx. apply list_elem_of_In, List.filter_In in Hx as [_ Hx]. by apply Nat.eqb_eq.
Qed.

Lemma length_results p : length (results p) = length (qs p).
Proof. apply length_exec_queries. Qed.

Lemma final_map_page k p : Z.to_nat (matrix_page_of k) = p → final_map !! k = (exec_queries m0 (qs p)).1 !! k.
Proof. intros Hk. by apply (exec_queries_page p batch m0). Qed.

Lemma page_step L p ps :
  (length batch ≤ L)%nat → (p < pages)%nat → page_inv L p ps →
  ∃ ps', exec_page p ps = Ret ps' ∧ page_inv L (S p) ps'.
Proof using Hoffs Hu Hfit.
  intros HL Hp [Hr Ho Hlen Hsl Hmap]. destruct (Hoffs p Hp) as [Ho1 Ho2].
  unfold exec_page. rewrite Ho, (rd_lookup _ _ _ Ho1). cbn [mbind outcome_bind].
  rewrite (rd_lookup _ _ _ Ho2). cbn [mbind outcome_bind].
  replace (Z.to_nat (Z.of_nat (st p + length (qs p)) - Z.of_nat (st p))) with (length (qs p)) by lia.
  rewrite Nat2Z.id.
  assert (st (S p) ≤ length batch)%nat as Htot by apply before_page_total. rewrite st_S in Htot.
  assert (agree p (kv_map (kv_ ps)) m0) as Hag.
  { intros k Hk. rewrite Hmap. destruct (Nat.ltb_spec (Z.to_nat (matrix_page_of k)) p); [lia|done]. }
  destruct (exec_queries_agree p (qs p) _ _ Hag (qs_page p)) as [Hres Hag'].
  assert (∀ k, (exec_queries (kv_map (kv_ ps)) (qs p)).1 !! k =
    if (Z.to_nat (matrix_page_of k) <? S p)%nat then final_map !! k else m0 !! k) as Hmap'.
  { intros k. destruct (decide (Z.to_nat (matrix_page_of k) = p)) as [Hk|Hk].
    - rewrite (Hag' k Hk), <- (final_map_page k p Hk). destruct (Nat.ltb_spec (Z.to_nat (matrix_page_of k)) (S p)); [done|lia].
    - rewrite (exec_queries_other p) by (done || apply qs_page). rewrite Hmap.
      destruct (Nat.ltb_spec (Z.to_nat (matrix_page_of k)) p), (Nat.ltb_spec (Z.to_nat (matrix_page_of k)) (S p)); lia || done. }
  destruct (exec_slice wal (qs p) (st p) (spare + (length batch - st (S p))) ps) as (ps' & -> & Hr' & Hm' & Ho' & Hb').
  - rewrite st_S. replace (spare + (length batch - (st p + length (qs p))) + length (qs p))%nat
      with (spare + (length batch - st p))%nat by lia. done.
  - specialize (Hsl p Hp). rewrite Nat.ltb_irrefl in Hsl. exact Hsl.
  - apply Forall_forall. intros x Hx. apply list_elem_of_In, List.filter_In in Hx as [Hx _].
    rewrite Forall_forall in Hu. by apply Hu, list_elem_of_In.
  - unfold fits in *. enough (size (exec_queries (kv_map (kv_ ps)) (qs p)).1 ≤ size final_map)%nat by lia.
    rewrite <- !(size_dom (D:=gset Z)). apply subseteq_size. intros k [v Hk]%elem_of_dom. rewrite Hmap' in Hk.
    destruct (_ <? _)%nat; [apply elem_of_dom; eauto|]. apply exec_queries_dom. apply elem_of_dom. eauto.
  - exists ps'. split; [done|]. rewrite Hres in Hb'. fold (results p) in Hb'. rewrite <- (length_results p) in Hb'.
    split; [done|congruence| | |intros k; by rewrite Hm'].
    + rewrite Hb', !length_app, length_take, length_drop, length_results. lia.
    + intros p' Hp'. rewrite Hb'. destruct (decide (p' = p)) as [->|Hne].
      * rewrite <- (length_results p), slice_spliced by (rewrite length_results; lia).
        destruct (Nat.ltb_spec p (S p)); [done|lia].
      * rewrite slice_splice; [|rewrite length_results; lia|].
        -- rewrite Hsl by done. destruct (Nat.ltb_spec p' p), (Nat.ltb_spec p' (S p)); lia || done.
        -- rewrite length_results. destruct (decide (p' < p)%nat); [left; by apply st_mono|right].
           etrans; [apply (st_mono p p'); lia|lia].
Qed.

Lemma page_loop L n : ∀ p ps,
  (length batch ≤ L)%nat → (p + n = pages)%nat → page_inv L p ps →
  ∃ ps', for_loop p n exec_page ps = Ret ps' ∧ page_inv L pages ps'.
Proof using Hoffs Hu Hfit.
  induction n as [|n IH]; intros p ps HL Hn Hinv; cbn [for_loop].
  { exists ps. split; [done|]. by replace pages with p by lia. }
  destruct (page_step L p ps HL ltac:(lia) Hinv) as (ps1 & -> & Hinv1). cbn [mbind outcome_bind].
  apply IH; [done|lia|done].
Qed.
End batch.

Lemma execute_batch_run wal spare batch ps :
  ready wal (spare + length batch) ps → batch ≠ [] → Z.of_nat (length batch) ≤ MATRIX_BATCH_MAX →
  Z.of_nat (length (binned_ ps)) = MATRIX_BATCH_MAX → length (offsets_ ps) = S (Z.to_nat MATRIX_PAGE_COUNT) →
  Forall (λ q, in_u64 (query_id q)) batch → fits (exec_queries (kv_map (kv_ ps)) batch).1 →
  ∃ ps', execute_batch batch ps = Ret ps' ∧ ready wal spare ps' ∧
    Z.of_nat (length (binned_ ps')) = MATRIX_BATCH_MAX ∧ length (offsets_ ps') = S (Z.to_nat MATRIX_PAGE_COUNT) ∧
    kv_map (kv_ ps') = (exec_queries (kv_map (kv_ ps)) batch).1 ∧
    ∀ p, (p < Z.to_nat MATRIX_PAGE_COUNT)%nat → ∃ start,
      offsets_ ps' !! p = Some (Z.of_nat start) ∧
      let served := List.filter (on_page p) (exec_queries (kv_map (kv_ ps)) batch).2 in
      take (length served) (drop start (binned_ ps')) = served.
Proof.
  intros Hr Hne Hmax Hbin Hoff Hu Hfit. unfold execute_batch. rewrite take_ge by lia.
  destruct (Nat.eqb_spec (length batch) 0); [by destruct batch|].
  destruct (bin_by_page_spec pages qpage) with batch (binned_ ps) (offsets_ ps) as (b' & o' & Hb & Hlb & Hlo & Hp).
  { intros q. unfold qpage, pages. pose proof (matrix_page_of_range (query_id q)). lia. }
  { lia. }
  { done. }
  { unfold MATRIX_BATCH_MAX in *. lia. }
  unfold matrix_bin_by_page. fold pages. change (λ q, Z.to_nat (matrix_page_of (query_id q))) with qpage.
  rewrite Hb. cbn [mbind outcome_bind].
  assert (page_inv wal spare batch (kv_map (kv_ ps)) o' (length b') 0 (with_batch b' o' (reads_ ps) ps)) as H0.
  { split; cbn; [|done|done| |done].
    - change (st batch 0) with 0%nat. rewrite Nat.sub_0_r. destruct Hr as [[? ? ?] [?|[[[? ? ?] ? ? ? ?] ?]]];
        (split; [by split|]); [by left|right]. split; [|done]. split; done.
    - intros p' Hp'. apply (Hp p' Hp'). }
  destruct (page_loop wal spare batch (kv_map (kv_ ps)) o') with (length b') pages 0%nat
    (with_batch b' o' (reads_ ps) ps) as (ps' & -> & [Hr' Ho' Hbl Hsl Hmap]); [|done|done| |done|done|].
  - intros p Hlt. destruct (Hp p Hlt) as (H1 & H2 & _). done.
  - lia.
  - exists ps'. split; [done|]. split; [|split; [|split; [|split]]].
    + eapply ready_mono; [|exact Hr']. lia.
    + lia.
    + rewrite Ho', Hlo. exact Hoff.
    + apply map_eq. intros k. rewrite Hmap. pose proof (matrix_page_of_range k).
      destruct (Nat.ltb_spec (Z.to_nat (matrix_page_of k)) pages); [done|unfold pages in *; lia].
    + intros p Hlt. exists (st batch p). rewrite Ho'. split; [apply Hp; done|].
      rewrite (proj1 (exec_queries_page p batch (kv_map (kv_ ps)))).
      specialize (Hsl p Hlt). destruct (Nat.ltb_spec p pages); [|lia].
      rewrite length_exec_queries. exact Hsl.
Qed.

(** C15: Page ownership is invisible.  Running a batch page by page leaves the map
    that running the queries one by one in batch order leaves, durable write
    for durable write, and every query finds in the page's slice of the buffer
    the result it would have had in batch order. *)
Theorem execute_batch_page_order wal batch ps :
  ready wal (length batch) ps → batch ≠ [] → Z.of_nat (length batch) ≤ MATRIX_BATCH_MAX →
  Z.of_nat (length (binned_ ps)) = MATRIX_BATCH_MAX → length (offsets_ ps) = S (Z.to_nat MATRIX_PAGE_COUNT) →
  Forall (λ q, in_u64 (query_id q)) batch → fits (exec_queries (kv_map (kv_ ps)) batch).1 →
  ∃ ps', execute_batch batch ps = Ret ps' ∧ ready wal 0 ps' ∧
    kv_map (kv_ ps') = (exec_queries (kv_map (kv_ ps)) batch).1 ∧
    ∀ p, (p < Z.to_nat MATRIX_PAGE_COUNT)%nat → ∃ start,
      offsets_ ps' !! p = Some (Z.of_nat start) ∧
      let served := List.filter (on_page p) (exec_queries (kv_map (kv_ ps)) batch).2 in
      take (length served) (drop start (binned_ ps')) = served.
Proof.
  intros Hr Hne Hmax Hbin Hoff Hu Hfit.
  destruct (execute_batch_run wal 0 batch ps Hr Hne Hmax Hbin Hoff Hu Hfit) as (ps' & ? & ? & _ & _ & ? & ?).
  by exists ps'.
Qed.

(** [restore] fills the table from a backup and leaves the ordered index as it
    was, so the sorted range scan does not see what was restored. *)
Theorem restore_leaves_index_stale path es ps :
  ps_inv ps → fs_read (ps_fs ps) path = Some (ckpt_bytes es) → Z.of_nat (length es) < 2 ^ 64 →
  u64_puts es → fits (puts_map (kv_map (kv_ ps)) es) →
  ∃ ps', restore_kv path ps = Ret ps' ∧
    kv_map (kv_ ps') = puts_map (kv_map (kv_ ps)) es ∧
    ∀ lo hi, kv_range_sorted lo hi ps' = kv_range_sorted lo hi ps.
Proof.
  intros [Hkv _ _] Hread Hlen Hes Hfit. unfold restore_kv.
  destruct (load_checkpoint_spec path (ps_fs ps) es (kv_ ps) Hread Hlen Hes Hkv Hfit) as (kv' & -> & _ & Hm).
  eexists. split; [reflexivity|]. split; [exact Hm|done].
Qed.

(** ** Witnesses *)

Definition empty_wal_fs : filesys := mkFS {[ "wal" := mkFile [] 0 ]} 1000 ∅.

Definition open_txn (buf : list (Z * Z)) (open : bool) : PointStore :=
  with_txn buf open 0 0 (fresh_ps empty_wal_fs fresh_kv (Some (mkCS "wal" SYNC_EACH 0)) "wal.ckpt" ∅).

Lemma open_txn_durable buf open : ps_durable "wal" (open_txn buf open).
Proof.
  destruct fresh_kv_ok as [Hf0 Hm0]. unfold open_txn. revert Hf0 Hm0. generalize fresh_kv. intros kv Hf0 Hm0. split.
  - split; cbn; [exact Hf0|by rewrite Hm0|]. rewrite Hm0. apply map_Forall_empty.
  - cbn. eexists. reflexivity.
  - reflexivity.
  - exists [], []. cbn. rewrite Hm0. split; try done; [by left|constructor..].
  - intros s. cbn. set_solver.
Qed.

Lemma open_txn_map buf open : kv_map (kv_ (open_txn buf open)) = ∅.
Proof. exact (proj2 fresh_kv_ok). Qed.

Lemma crash_recovery_witness :
  let ops := [WPut 1 10; WTxnPut 2 20; WCommit] in
  let fs := mkFS {[ "wal" := mkFile (log_bytes ops) (length (log_bytes ops)) ]} 1000 ∅ in
  ∃ ps, open_engine "wal" SYNC_EACH fs = Ret ps ∧ kv_get (kv_ ps) 2 = Ret (Some 20).
Proof.
  intros ops fs.
  assert (disk_holds fs "wal" [] ops (puts_map ∅ [(1, 10); (2, 20)])) as Hd.
  { split; try done; [by left|constructor|].
    repeat constructor; unfold in_u64; lia. }
  destruct (crash_recovery "wal" fs fs [] ops (puts_map ∅ [(1, 10); (2, 20)])) as (ps & Ho & _ & _ & _ & _ & Hget).
  - discriminate.
  - exact Hd.
  - vm_compute. discriminate.
  - apply u64_map_puts; [apply map_Forall_empty|]. repeat constructor; unfold in_u64; cbn; lia.
  - split; [done|]. intros p. unfold fs. cbn [fs_files].
    destruct (decide (p = "wal")) as [->|Hp].
    + rewrite lookup_singleton_eq. eexists. split; [reflexivity|]. exists (length (log_bytes ops)).
      cbn [f_synced f_data]. split; [lia|]. by rewrite take_ge.
    + by rewrite lookup_singleton_ne.
  - cbn. set_solver.
  - exists ps. split; [exact Ho|]. rewrite Hget. vm_compute. reflexivity.
Defined.

Lemma commit_atomic_durable_witness :
  let ps := open_txn [(1, 10); (2, 20)] true in
  in_txn_ ps = true ∧
  ∃ ps', commit ps = Ret ps' ∧ kv_map (kv_ ps') = puts_map ∅ [(1, 10); (2, 20)].
Proof.
  intros ps. split; [reflexivity|].
  destruct (commit_atomic_durable "wal" ps) as (ps' & Hc & _ & _ & Hm & _).
  - apply open_txn_durable.
  - reflexivity.
  - repeat constructor; unfold in_u64; cbn; lia.
  - unfold ps. rewrite open_txn_map. vm_compute. discriminate.
  - cbn. lia.
  - exists ps'. split; [exact Hc|]. rewrite Hm. unfold ps. by rewrite open_txn_map.
Defined.

(** With a cut before the first call. *)
Lemma checkpoint_safe_witness :
  let ps := open_txn [] false in
  in_txn_ ps = false ∧ (∃ ps', checkpoint ps = Ret ps' ∧ fs_read (ps_fs ps') "wal" = Some []) ∧
  ∀ fs', power_cut (settled (ps_fs ps)) fs' →
    ∃ q, open_engine "wal" SYNC_EACH fs' = Ret q ∧ kv_map (kv_ q) = ∅.
Proof.
  intros ps. split; [reflexivity|].
  pose proof (open_txn_durable [] false) as Hd. fold ps in Hd.
  destruct (checkpoint_safe "wal" ps) as (cs & es & ps' & _ & _ & Hc & _ & _ & Hw & _ & _ & Hcut & _).
  - discriminate.
  - exact Hd.
  - reflexivity.
  - unfold ps. rewrite open_txn_map. vm_compute. discriminate.
  - pose proof (pv_kv _ (pd_inv _ _ Hd)) as [Hwf _]. apply Nat2Z.inj_le.
    assert (length (kv_entries (kv_ ps)) = 0)%nat as ->; [|cbn; lia].
    apply Nat2Z.inj. rewrite <- (wf_size _ Hwf), kv_size_map by exact Hwf. unfold ps. by rewrite open_txn_map.
  - split; [exists ps'; split; [exact Hc|exact Hw]|].
    intros fs' Hpc. destruct (Hcut 0%nat) as (d & Hd0 & Hall). cbn [take disk_steps] in Hd0. injection Hd0 as <-.
    destruct (Hall fs' Hpc) as (q & Hq & _ & Hm & _). exists q. split; [exact Hq|].
    destruct Hm as [Hm|[Hk _]]; [|lia]. rewrite Hm. exact (open_txn_map [] false).
Defined.

Lemma kv_range_sorted_correct_witness :
  let ps := open_txn [] false in ps_inv ps ∧ kv_range_sorted 0 9 ps ≡ₚ kv_range 0 9 ps.
Proof.
  intros ps. pose proof (pd_inv _ _ (open_txn_durable [] false)) as Hinv.
  split; [exact Hinv|]. exact (proj1 (kv_range_sorted_correct 0 9 ps Hinv)).
Defined.

Lemma restore_leaves_index_stale_witness :
  let ps := with_disk None (mkFS {[ "b.kv" := mkFile (ckpt_bytes [(5, 50)]) 0 ]} 0 ∅) 0 (open_txn [] false) in
  ∃ ps', restore_kv "b.kv" ps = Ret ps' ∧ kv_map (kv_ ps') = {[ 5 := 50 ]} ∧ kv_range_sorted 0 9 ps' = [].
Proof.
  intros ps. assert (kv_map (kv_ ps) = ∅) as Hm0 by exact (open_txn_map [] false).
  destruct (restore_leaves_index_stale "b.kv" [(5, 50)] ps) as (ps' & Hr & Hm & Hs).
  - pose proof (pd_inv _ _ (open_txn_durable [] false)) as [? ? ?]. split; assumption.
  - vm_compute. reflexivity.
  - cbn. lia.
  - repeat constructor; unfold in_u64; cbn; lia.
  - rewrite Hm0. vm_compute. discriminate.
  - exists ps'. split; [exact Hr|]. split; [rewrite Hm, Hm0; reflexivity|]. rewrite Hs. vm_compute. reflexivity.
Defined.

Lemma execute_batch_page_order_witness :
  let batch := [mkQuery 70 0 0 OP_WRITE 0 []; mkQuery 3 0 0 OP_READ 0 []; mkQuery 70 0 0 OP_READ 0 []] in
  ∃ ps', execute_batch batch (open_txn [] false) = Ret ps' ∧ kv_map (kv_ ps') = {[ 70 := 70 ]}.
Proof.
  intros batch. destruct (execute_batch_page_order "wal" batch (open_txn [] false)) as (ps' & He & _ & Hm & _).
  - split; [exact (pd_inv _ _ (open_txn_durable [] false))|]. right. split; [apply open_txn_durable|]. cbn. lia.
  - discriminate.
  - vm_compute. discriminate.
  - cbn [open_txn with_txn fresh_ps binned_]. rewrite length_replicate. reflexivity.
  - cbn [open_txn with_txn fresh_ps offsets_]. rewrite length_replicate. reflexivity.
  - repeat constructor; unfold in_u64; cbn; lia.
  - rewrite open_txn_map. vm_compute. discriminate.
  - exists ps'. split; [exact He|]. rewrite Hm, open_txn_map. reflexivity.
Defined.
