(* ===== verification/Counters.v ===== *)
(** * Counters: what a batch adds to the counters of the point engine

    [reads_], [writes_] and [commits_] of [compute_mock.cpp] after
    [execute_batch]: each query of the batch is counted once, whatever page it
    falls on, and every write that returns has been committed. *)

From S2P Require Export PointStore.

Definition count_ops (o : Z) (batch : list DatabaseQuery) : Z :=
  Z.of_nat (length (List.filter (λ q, opcode q =? o) batch)).

Lemma nth_rows_take {A} (d : A) l n : (n ≤ length l)%nat → map (λ j, nth j l d) (seq 0 n) = take n l.
Proof.
  intros Hn. apply list_eq. intros j. rewrite list_lookup_fmap. destruct (decide (j < n)%nat).
  - rewrite lookup_seq_lt, lookup_take_lt by done. cbn.
    destruct (lookup_lt_is_Some_2 l j) as [x Hx]; [lia|]. by rewrite Hx, (nth_lookup_Some _ _ _ _ Hx).
  - rewrite lookup_seq_ge by lia. by rewrite lookup_take_ge by lia.
Qed.

(** The pages of a batch, one after the other, are the batch again. *)
Lemma before_pages {A} (page : A → nat) (batch binned : list A) m :
  (∀ p, (p < m)%nat → take (length (of_page page p batch)) (drop (before_page page p batch) binned) = of_page page p batch) →
  take (before_page page m batch) binned = concat (map (λ p, of_page page p batch) (seq 0 m)).
Proof.
  induction m as [|m IH]; intros Hp; [done|]. rewrite seq_S, map_app, concat_app, <- IH by (intros; apply Hp; lia).
  cbn [before_page map concat Nat.add]. by rewrite app_nil_r, <- take_take_drop, Hp by lia.
Qed.

Lemma qpage_lt q : (qpage q < Z.to_nat MATRIX_PAGE_COUNT)%nat.
Proof. unfold qpage. pose proof (matrix_page_of_range (query_id q)). lia. Qed.

(** What binning leaves on the device: the batch, page by page. *)
Lemma binned_batch batch binned offsets :
  (length batch ≤ length binned)%nat → length offsets = S (Z.to_nat MATRIX_PAGE_COUNT) →
  Z.of_nat (length batch) ≤ MATRIX_BATCH_MAX →
  ∃ binned' offsets', matrix_bin_by_page batch binned offsets = Ret (binned', offsets') ∧
    length binned' = length binned ∧ length offsets' = length offsets ∧
    take (length batch) binned' ≡ₚ batch ∧
    before_page qpage (Z.to_nat MATRIX_PAGE_COUNT) batch = length batch ∧
    ∀ p, (p ≤ Z.to_nat MATRIX_PAGE_COUNT)%nat → offsets' !! p = Some (Z.of_nat (before_page qpage p batch)).
Proof.
  intros Hb Ho Hmax.
  destruct (bin_by_page_spec (Z.to_nat MATRIX_PAGE_COUNT) qpage qpage_lt batch binned offsets) as (b' & o' & H & Hlb & Hlo & Hp);
    [done|done|unfold MATRIX_BATCH_MAX in *; lia|].
  exists b', o'. split; [exact H|]. split; [done|]. split; [done|].
  assert (take (before_page qpage (Z.to_nat MATRIX_PAGE_COUNT) batch) b' ≡ₚ batch) as Hperm.
  { rewrite before_pages by (intros p Hpp; by apply Hp). apply buckets_perm; [apply NoDup_seq|].
    intros q _. apply elem_of_seq. pose proof (qpage_lt q). lia. }
  assert (before_page qpage (Z.to_nat MATRIX_PAGE_COUNT) batch = length batch) as Hall.
  { rewrite <- (Permutation_length Hperm), length_take.
    pose proof (before_page_total qpage (Z.to_nat MATRIX_PAGE_COUNT) batch). lia. }
  rewrite Hall in Hperm. split; [done|]. split; [done|].
  intros p Hle. destruct (decide (p < Z.to_nat MATRIX_PAGE_COUNT)%nat) as [Hlt|]; [by apply Hp|].
  assert (p = S (pred (Z.to_nat MATRIX_PAGE_COUNT))) as -> by (unfold MATRIX_PAGE_COUNT in *; lia).
  by apply Hp; unfold MATRIX_PAGE_COUNT in *; lia.
Qed.

(** ** One query, one count *)

Definition counters (ps : PointStore) : Z * Z * Z := (reads_ ps, writes_ ps, commits_ ps).

Definition bump (c : Z * Z * Z) (o : Z) : Z * Z * Z :=
  let '(r, w, k) := c in
  if o =? OP_READ then (u64 (r + 1), w, k) else if o =? OP_WRITE then (r, u64 (w + 1), u64 (k + 1)) else c.

Definition opcodes (ps : PointStore) : list Z := map opcode (binned_ ps).

(** The counters of a store are machine words. *)
Definition counters_ok (ps : PointStore) : Prop := in_u64 (reads_ ps) ∧ in_u64 (writes_ ps) ∧ in_u64 (commits_ ps).

Definition count_of_op (o : Z) (ops : list Z) : Z := Z.of_nat (length (List.filter (Z.eqb o) ops)).

Lemma count_of_op_cons o x ops : count_of_op o (x :: ops) = Z.b2z (o =? x) + count_of_op o ops.
Proof. unfold count_of_op. cbn [List.filter]. destruct (o =? x); cbn [length Z.b2z]; lia. Qed.

Definition counted (ops : list Z) (c : Z * Z * Z) : Z * Z * Z :=
  let '(r, w, k) := c in
  (u64 (r + count_of_op OP_READ ops), u64 (w + count_of_op OP_WRITE ops), u64 (k + count_of_op OP_WRITE ops)).

Lemma fold_bump ops : ∀ r w k, fold_left bump ops (u64 r, u64 w, u64 k) = counted ops (r, w, k).
Proof.
  induction ops as [|o ops IH]; intros r w k; cbn [fold_left bump].
  { unfold counted, count_of_op. cbn. by rewrite !Z.add_0_r. }
  unfold counted. rewrite !count_of_op_cons, !(Z.eqb_sym _ o), !Z.add_assoc.
  destruct (Z.eqb_spec o OP_READ) as [->|Hr]; [|destruct (Z.eqb_spec o OP_WRITE) as [->|Hw]].
  - rewrite u64_add_l, IH. unfold counted. cbn [OP_READ OP_WRITE Z.eqb Z.b2z]. by rewrite !Z.add_0_r.
  - rewrite !u64_add_l, IH. unfold counted. cbn [Z.b2z]. by rewrite !Z.add_0_r.
  - rewrite IH. unfold counted. cbn [Z.b2z]. by rewrite !Z.add_0_r.
Qed.

Lemma wal_call_counters f ps :
  counters (wal_call f ps) = counters ps ∧ binned_ (wal_call f ps) = binned_ ps ∧ offsets_ (wal_call f ps) = offsets_ ps.
Proof. unfold wal_call. destruct (cold_store_ ps) as [cs|]; [|done]. by destruct (f (ps_fs ps) cs). Qed.

Lemma exec_one_counts j ps ps' : exec_one j ps = Ret ps' →
  opcodes ps' = opcodes ps ∧ offsets_ ps' = offsets_ ps ∧
  ∃ o, opcodes ps !! j = Some o ∧ counters ps' = bump (counters ps) o.
Proof.
  unfold exec_one. intros (q & Hq%rd_Ret & H)%bind_Ret.
  assert (opcodes ps !! j = Some (opcode q)) as Ho by (unfold opcodes; by rewrite list_lookup_fmap, Hq).
  unfold counters, bump. destruct (Z.eqb_spec (opcode q) OP_READ) as [E|].
  - apply bind_Ret in H as (r & _ & [= <-]). cbn. split; [|split; [done|]].
    + unfold opcodes. cbn. etrans; [apply list_fmap_insert|]. by apply list_insert_id.
    + exists (opcode q). split; [done|]. by rewrite E.
  - destruct (Z.eqb_spec (opcode q) OP_WRITE) as [E|].
    + destruct (wal_call_counters (λ fs cs, append_put fs cs (query_id q) (query_id q)) ps) as (Hc & Hb & Hof).
      unfold apply_committed_write in H. apply bind_Ret in H as ([ok kv] & _ & H). destruct ok; [|done]. injection H as <-.
      unfold opcodes. cbn. rewrite Hb, Hof. injection Hc as Hr Hw Hk. rewrite Hr, Hw, Hk.
      split; [done|]. split; [done|]. exists (opcode q). split; [done|]. by rewrite E.
    + injection H as <-. split; [done|]. split; [done|]. exists (opcode q). split; [done|].
      rewrite (proj2 (Z.eqb_neq _ _)), (proj2 (Z.eqb_neq _ _)) by done. done.
Qed.

Lemma exec_slots_counts n : ∀ i ps ps', for_loop i n exec_one ps = Ret ps' →
  opcodes ps' = opcodes ps ∧ offsets_ ps' = offsets_ ps ∧
  counters ps' = fold_left bump (take n (drop i (opcodes ps))) (counters ps).
Proof.
  induction n as [|n IH]; intros i ps ps'; cbn [for_loop]; [by intros [= <-]|].
  intros (ps1 & (Ho1 & Hf1 & o & Ho & Hc1)%exec_one_counts & (Ho2 & Hf2 & Hc2)%IH)%bind_Ret.
  rewrite Ho2, Hf2, Hc2, Ho1, Hc1, Hf1, (drop_S _ _ _ Ho). done.
Qed.

Lemma exec_pages_counts (at_ : nat → nat) n ps : ∀ ps',
  (∀ p, (p ≤ n)%nat → offsets_ ps !! p = Some (Z.of_nat (at_ p))) → (∀ p, (p < n)%nat → (at_ p ≤ at_ (S p))%nat) → at_ 0%nat = 0%nat →
  for_loop 0 n exec_page ps = Ret ps' →
  opcodes ps' = opcodes ps ∧ offsets_ ps' = offsets_ ps ∧
  counters ps' = fold_left bump (take (at_ n) (opcodes ps)) (counters ps).
Proof.
  induction n as [|n IH]; intros ps' Hat Hmono H0; [intros [= <-]; by rewrite H0|].
  rewrite for_loop_S_r. intros (ps1 & H1 & H)%bind_Ret.
  destruct (IH ps1) as (Ho1 & Hf1 & Hc1); [intros p Hp; apply Hat; lia|intros p Hp; apply Hmono; lia|done|done|].
  cbn [Nat.add] in H. unfold exec_page in H. rewrite Hf1 in H.
  rewrite (rd_lookup _ _ _ (Hat n ltac:(lia))), (rd_lookup _ _ _ (Hat (S n) ltac:(lia))) in H. cbn [mbind outcome_bind] in H.
  apply exec_slots_counts in H as (Ho2 & Hf2 & Hc2). rewrite Ho2, Hf2, Hc2, Ho1, Hc1, Hf1. split; [done|]. split; [done|].
  rewrite <- fold_left_app, Nat2Z.id. f_equal. pose proof (Hmono n ltac:(lia)).
  replace (Z.to_nat (Z.of_nat (at_ (S n)) - Z.of_nat (at_ n))) with (at_ (S n) - at_ n)%nat by lia.
  rewrite take_take_drop. f_equal. lia.
Qed.

Lemma counted_app a b c : counted (a ++ b) c = counted b (counted a c).
Proof.
  destruct c as [[r w] k]. unfold counted, count_of_op. rewrite !List.filter_app, !length_app, !Nat2Z.inj_add, !Z.add_assoc.
  by rewrite !u64_add_l.
Qed.

Definition words3 (c : Z * Z * Z) : Prop := let '(r, w, k) := c in in_u64 r ∧ in_u64 w ∧ in_u64 k.

Lemma counted_nil c : words3 c → counted [] c = c.
Proof. destruct c as [[r w] k]. intros (? & ? & ?). unfold counted, count_of_op. cbn. by rewrite !Z.add_0_r, !u64_small. Qed.

Lemma counted_words ops c : words3 (counted ops c).
Proof. destruct c as [[r w] k]. split_and!; apply u64_range. Qed.

Lemma count_of_op_perm o l l' : l ≡ₚ l' → count_of_op o l = count_of_op o l'.
Proof. intros H. unfold count_of_op. by rewrite (length_filter_perm _ _ _ H). Qed.

Lemma counted_perm l l' c : l ≡ₚ l' → counted l c = counted l' c.
Proof. intros H. destruct c as [[r w] k]. unfold counted. by rewrite !(count_of_op_perm _ _ _ H). Qed.

Lemma fold_bump_words ops c : words3 c → fold_left bump ops c = counted ops c.
Proof. destruct c as [[r w] k]. intros (? & ? & ?). rewrite <- fold_bump. by rewrite !u64_small. Qed.

(** What a batch leaves of the counters. *)
Lemma execute_batch_counters batch ps ps' : counters_ok ps →
  Z.of_nat (length batch) ≤ MATRIX_BATCH_MAX → Z.of_nat (length (binned_ ps)) = MATRIX_BATCH_MAX →
  length (offsets_ ps) = S (Z.to_nat MATRIX_PAGE_COUNT) → execute_batch batch ps = Ret ps' →
  counters ps' = counted (map opcode batch) (counters ps).
Proof.
  intros Hok Hmax Hb Ho. unfold execute_batch. rewrite take_ge by lia.
  destruct (Nat.eqb_spec (length batch) 0) as [H0|H0].
  { intros [= <-]. apply nil_length_inv in H0 as ->. symmetry. by apply counted_nil. }
  destruct (binned_batch batch (binned_ ps) (offsets_ ps)) as (b & o & Hbin & Hlb & Hlo & Hperm & Hall & Hoff);
    [lia|done|done|].
  rewrite Hbin. cbn [mbind outcome_bind]. intros H.
  apply (exec_pages_counts (λ p, before_page qpage p batch)) in H as (_ & _ & Hc);
    [|exact Hoff|intros p _; apply before_page_le; lia|done].
  rewrite Hc, Hall, fold_bump_words by exact Hok. unfold opcodes. cbn [binned_ with_batch].
  rewrite firstn_map. by apply counted_perm, Permutation_map.
Qed.

Lemma count_of_opcodes o batch : count_of_op o (map opcode batch) = count_ops o batch.
Proof.
  unfold count_of_op, count_ops. rewrite length_filter_map. do 2 f_equal. apply List.filter_ext. intros q. apply Z.eqb_sym.
Qed.

Lemma execute_batch_counts batch ps ps' : counters_ok ps →
  Z.of_nat (length batch) ≤ MATRIX_BATCH_MAX → Z.of_nat (length (binned_ ps)) = MATRIX_BATCH_MAX →
  length (offsets_ ps) = S (Z.to_nat MATRIX_PAGE_COUNT) → execute_batch batch ps = Ret ps' →
  reads_ ps' = u64 (reads_ ps + count_ops OP_READ batch) ∧ writes_ ps' = u64 (writes_ ps + count_ops OP_WRITE batch) ∧
  commits_ ps' = u64 (commits_ ps + count_ops OP_WRITE batch) ∧ counters_ok ps'.
Proof.
  intros Hok Hmax Hb Ho He. pose proof (execute_batch_counters batch ps ps' Hok Hmax Hb Ho He) as Hc.
  unfold counters, counted in Hc. rewrite !count_of_opcodes in Hc. unfold counters_ok.
  injection Hc as -> -> ->. split_and!; try done; apply u64_range.
Qed.
