(* ===== verification/Tiering.v ===== *)
(** * Tiering: memory spaces, tier physics, the cost model and the router

    [memory_model.hpp], [tier_model.hpp], [cost_model.hpp] and [router.hpp].
    Predicted times are [double]s, modelled bit for bit by [Float64]. *)

From S2P Require Export Types.

(** ** [MemorySpace] and [MemoryModel] *)

Inductive MemorySpace : Type := HOST | DEVICE | COLD | UNIFIED.

#[export] Instance MemorySpace_eq_dec : EqDecision MemorySpace.
Proof. solve_decision. Defined.

Inductive Kind : Type := KIND_DISCRETE | KIND_UNIFIED.

Record MemoryModel := mkMM { kind : Kind }.

Definition detect (gpu_available : bool) : MemoryModel := mkMM KIND_DISCRETE.

Definition is_unified (m : MemoryModel) : bool :=
  match kind m with KIND_UNIFIED => true | KIND_DISCRETE => false end.

(** ** [TierPhysics] *)

Record TierPhysics := mkPhysics {
  scan_bytes_per_us : Z;      (* double *)
  access_latency_us : Z;      (* double *)
  capacity_bytes : Z;
  concern : string
}.

(** The [double] nearest 0.1. *)
Definition F64_TENTH : Z := 0x3FB999999999999A.

Definition tier_physics (s : MemorySpace) : TierPhysics :=
  match s with
  | DEVICE => mkPhysics (f64_of_Z 240000) (f64_of_Z 5) (16 * 1024 * 1024 * 1024)
                "scarce capacity; PCIe to reach"
  | HOST => mkPhysics (f64_of_Z 10000) F64_TENTH (256 * 1024 * 1024 * 1024) "medium capacity"
  | COLD => mkPhysics (f64_of_Z 3000) (f64_of_Z 100) 0 "high latency; write wear; append-only"
  | UNIFIED => mkPhysics (f64_of_Z 240000) F64_TENTH 0 "unified pool (future hardware)"
  end.

(** ** [CostModel] *)

Record CostModel := mkCostModel { mm_ : MemoryModel; gpu_available_ : bool }.

Definition CPU_SCAN_BPus : Z := f64_of_Z 10000.
Definition GPU_SCAN_BPus : Z := f64_of_Z 240000.
Definition LAUNCH_US : Z := f64_of_Z 30.

Definition place_point (cm : CostModel) : MemorySpace := HOST.

Definition host_scan_us (bytes : Z) : Z := f64_div (f64_of_Z bytes) CPU_SCAN_BPus.

Definition device_scan_us (cm : CostModel) (bytes : Z) : Z :=
  let transfer := if is_unified (mm_ cm) then F64_ZERO else F64_ZERO in
  f64_add (f64_add LAUNCH_US transfer) (f64_div (f64_of_Z bytes) GPU_SCAN_BPus).

Definition place_scan (cm : CostModel) (bytes : Z) : MemorySpace :=
  if negb (gpu_available_ cm) then HOST
  else if f64_ltb (device_scan_us cm bytes) (host_scan_us bytes) then DEVICE else HOST.

Definition scan_us (s : MemorySpace) (bytes : Z) : Z :=
  let p := tier_physics s in
  let launch := if decide (s = DEVICE) then LAUNCH_US else F64_ZERO in
  f64_add launch (f64_div (f64_of_Z bytes) (scan_bytes_per_us p)).

Definition migration_us (cm : CostModel) (from to : MemorySpace) (bytes : Z) : Z :=
  if decide (from = to) then F64_ZERO
  else if is_unified (mm_ cm) then F64_ZERO
  else
    let read_bw := scan_bytes_per_us (tier_physics from) in
    let write_bw := scan_bytes_per_us (tier_physics to) in
    let slower := if f64_ltb read_bw write_bw then read_bw else write_bw in
    f64_div (f64_of_Z bytes) slower.

(** The break-even point of the two processors: a scan of 312 KB stays in RAM,
    one of 314 KB goes to the GPU. *)
Example place_scan_break_even :
  let cm := mkCostModel (detect true) true in
  place_scan cm 312000 = HOST ∧ place_scan cm 314000 = DEVICE.
Proof. vm_compute. done. Qed.

(** ** [Router]

    The router sees its engines only through [ComputeInterface]: a state and
    the two operations it dispatches. *)

Class ComputeInterface (E : Type) := {
  ci_execute_batch : list DatabaseQuery → E → outcome E;
  ci_execute_scan : DatabaseQuery → E → outcome (DatabaseQuery * E)
}.

Section router.
Context {C G : Type} `{!ComputeInterface C, !ComputeInterface G}.

(** [gpu_] is the engine behind a pointer that may be null. *)
Record Router := mkRouter {
  cpu_ : C;
  gpu_ : option G;
  cm_ : CostModel;
  placement_ : list MemorySpace
}.

(** Which engine a home denotes. *)
Definition goes_to_gpu (home : MemorySpace) (r : Router) : bool :=
  bool_decide (home = DEVICE) && match gpu_ r with Some _ => true | None => false end.

Definition on_cpu {A} (f : C → outcome (A * C)) (r : Router) : outcome (A * Router) :=
  '(a, c) ← f (cpu_ r); Ret (a, mkRouter c (gpu_ r) (cm_ r) (placement_ r)).

Definition on_gpu {A} (f : G → outcome (A * G)) (r : Router) : outcome (A * Router) :=
  match gpu_ r with
  | None => Crash Undefined
  | Some g => '(a, g') ← f g; Ret (a, mkRouter (cpu_ r) (Some g') (cm_ r) (placement_ r))
  end.

Definition dispatch {A} (home : MemorySpace) (f : C → outcome (A * C)) (g : G → outcome (A * G))
    (r : Router) : outcome (A * Router) :=
  if goes_to_gpu home r then on_gpu g r else on_cpu f r.

Definition route_batch (batch : list DatabaseQuery) (r : Router) : outcome (unit * Router) :=
  dispatch (place_point (cm_ r)) (λ c, c' ← ci_execute_batch batch c; Ret (tt, c'))
    (λ g, g' ← ci_execute_batch batch g; Ret (tt, g')) r.

Definition place_scan_column (bytes : Z) (r : Router) : Z * Router :=
  let home := match gpu_ r with Some _ => place_scan (cm_ r) bytes | None => HOST end in
  (Z.of_nat (length (placement_ r)),
   mkRouter (cpu_ r) (gpu_ r) (cm_ r) (placement_ r ++ [home])).

Definition home_of (dataset_id : Z) (r : Router) : outcome MemorySpace :=
  of_option AssertFailed (placement_ r !! Z.to_nat dataset_id).

Definition route_scan (q : DatabaseQuery) (dataset_id : Z) (r : Router) :
    outcome (DatabaseQuery * Router) :=
  home ← home_of dataset_id r;
  dispatch home (ci_execute_scan q) (ci_execute_scan q) r.

(** What one call may do to the router: the batch and scan calls touch only the
    engine they dispatch to, and no call ever changes a recorded home. *)
Lemma dispatch_placement {A} home f g r (a : A) r' :
  dispatch home f g r = Ret (a, r') → placement_ r' = placement_ r ∧ cm_ r' = cm_ r.
Proof.
  unfold dispatch, on_gpu, on_cpu. intros H.
  destruct (goes_to_gpu home r); [destruct (gpu_ r); [|done]|]; inv_bind;
    by destruct x; simplify_eq/=.
Qed.

(** A dataset keeps the home it was given: after any later placement and any
    scan or batch, its scans run on that home's engine and leave the other
    engine untouched, and without a GPU every scan runs on the CPU. *)
Theorem router_one_home bytes r id r1 d r2 q q' r3 :
  place_scan_column bytes r = (id, r1) →
  placement_ r2 = placement_ r1 ++ d → cm_ r2 = cm_ r1 →
  route_scan q id r2 = Ret (q', r3) →
  home_of id r3 = home_of id r1 ∧
  (gpu_ r = None → home_of id r1 = Ret HOST) ∧
  (home_of id r1 = Ret HOST →
     gpu_ r3 = gpu_ r2 ∧ ci_execute_scan q (cpu_ r2) = Ret (q', cpu_ r3)) ∧
  (home_of id r1 = Ret DEVICE → ∀ g, gpu_ r2 = Some g →
     cpu_ r3 = cpu_ r2 ∧ ∃ g', gpu_ r3 = Some g' ∧ ci_execute_scan q g = Ret (q', g')).
Proof.
  intros Hp Hd Hcm Hr. unfold place_scan_column in Hp.
  remember (match gpu_ r with Some _ => place_scan (cm_ r) bytes | None => HOST end) as home eqn:Hh.
  assert (gpu_ r = None → home = HOST) as Hnone by (intros Hg; by rewrite Hh, Hg). clear Hh.
  injection Hp as <- <-. cbn in Hd, Hcm.
  unfold route_scan in Hr. inv_bind. rename Hk into Hr.
  apply dispatch_placement in Hr as Hpl. destruct Hpl as [Hpl _].
  unfold home_of in *. cbn. rewrite Nat2Z.id in *. rewrite Hpl, Hd in *.
  rewrite <- (assoc_L (++)), lookup_app_r, Nat.sub_diag in * by done. cbn in *.
  rewrite lookup_app_r, Nat.sub_diag by done. cbn. inv_bind.
  split; [done|]. split; [intros Hg; by rewrite Hnone|].
  unfold dispatch, goes_to_gpu, on_cpu, on_gpu in Hr.
  split; intros [= ->]; cbn in Hr; [|intros g Hg; rewrite Hg in Hr]; apply bind_Ret in Hr as ([] & Hx & Hr);
    simplify_eq/=; eauto.
Qed.
End router.
Arguments Router : clear implicits.

(** Two engines that count their scans, for the witness. *)
Definition counting_engine : ComputeInterface Z :=
  {| ci_execute_batch := λ _ n, Ret n; ci_execute_scan := λ q n, Ret (q, n + 1) |}.

Lemma router_one_home_witness :
  let q := mkQuery 0 0 0 OP_SCAN 0 [] in
  let r := mkRouter 0 (Some 0) (mkCostModel (detect true) true) [HOST] in
  let r1 := mkRouter 0 (Some 0) (mkCostModel (detect true) true) [HOST; DEVICE] in
  let r3 := mkRouter 0 (Some 1) (mkCostModel (detect true) true) [HOST; DEVICE] in
  home_of 1 r3 = home_of 1 r1.
Proof.
  intros q r r1 r3.
  assert (place_scan_column 1000000 r = (1, r1)) as E1 by (vm_compute; reflexivity).
  assert (route_scan (ComputeInterface0:=counting_engine) (ComputeInterface1:=counting_engine) q 1 r1 = Ret (q, r3)) as E2
    by (vm_compute; reflexivity).
  exact (proj1 (router_one_home (ComputeInterface0:=counting_engine) (ComputeInterface1:=counting_engine)
    1000000 r 1 r1 [] r1 q q r3 E1 eq_refl eq_refl E2)).
Defined.
