(* ===== verification/TierManager.v ===== *)
(** * TierManager: the auto-tiering brain of [tier_manager.hpp]

    The manager keeps a size, a tier and an access heat per column.
    [rebalance] ages the heat, approves promotions best first within the
    capacity of the faster tier (displacing at most one resident each), and
    demotes residents of tiers that are over capacity.  It moves no bytes: it
    returns the plan the executor carries out. *)

From S2P Require Export Tiering.

Record MigrationDecision := mkDecision { column_id : Z; from_ : MemorySpace; to_ : MemorySpace }.

Record Column := mkColumn {
  c_id : Z;
  c_bytes : Z;
  c_tier : MemorySpace;
  c_heat : Z;                (* double *)
  c_recent : Z;
  c_arrived : Z
}.

Record TierManager := mkTM {
  tm_cm : CostModel;
  device_cap : Z;
  host_cap : Z;
  tick : Z;
  cols : gmap Z Column
}.

Definition HEAT_ALPHA : Z := 0x3FE0000000000000.      (* 0.5 *)
Definition HYSTERESIS : Z := 0x3FF8000000000000.      (* 1.5 *)
Definition SCAN_HORIZON : Z := 8.
Definition MIN_RESIDENCY_TICKS : Z := 2.
Definition SWAP_MARGIN : Z := 0x3FF8000000000000.     (* 1.5 *)
Definition F64_1E300 : Z := 0x7E37E43C8800759C.
Definition F64_1E301 : Z := 0x7E6DDD4BAA009303.

Definition set_cols (tm : TierManager) (m : gmap Z Column) : TierManager :=
  mkTM (tm_cm tm) (device_cap tm) (host_cap tm) (tick tm) m.

Definition tm_new (cm : CostModel) (device_capacity_bytes host_capacity_bytes : Z) : TierManager :=
  mkTM cm device_capacity_bytes host_capacity_bytes 0 ∅.

Definition register_column (id bytes : Z) (initial_tier : MemorySpace) (tm : TierManager) : TierManager :=
  set_cols tm (<[id := mkColumn id bytes initial_tier F64_ZERO 0 (tick tm)]> (cols tm)).

Definition update_bytes (id bytes : Z) (tm : TierManager) : TierManager :=
  match cols tm !! id with
  | Some c => set_cols tm (<[id := mkColumn (c_id c) bytes (c_tier c) (c_heat c) (c_recent c) (c_arrived c)]> (cols tm))
  | None => tm
  end.

Definition record_access (id bytes : Z) (tm : TierManager) : TierManager :=
  match cols tm !! id with
  | Some c => set_cols tm (<[id := mkColumn (c_id c) (c_bytes c) (c_tier c) (c_heat c)
                                     (u64 (c_recent c + bytes)) (c_arrived c)]> (cols tm))
  | None => tm
  end.

(** ** Scores *)

Definition faster_tier (t : MemorySpace) : MemorySpace :=
  match t with COLD => HOST | HOST => DEVICE | _ => t end.

Definition slower_tier (t : MemorySpace) : MemorySpace :=
  match t with DEVICE => HOST | HOST => COLD | _ => t end.

Definition capacity_of (tm : TierManager) (t : MemorySpace) : Z :=
  match t with DEVICE => device_cap tm | HOST => host_cap tm | _ => 0 end.

(** [static_cast<int>(x)]: undefined when the truncated value is not an [int]. *)
Definition f64_to_int (x : Z) : outcome Z :=
  match f64_trunc x with
  | Some n => if (- 2 ^ 31 <=? n) && (n <? 2 ^ 31) then Ret n else Crash Undefined
  | None => Crash Undefined
  end.

Definition est_future_scans (c : Column) : outcome Z :=
  if c_bytes c =? 0 then Ret 0
  else
    let scans := f64_div (c_heat c) (f64_of_Z (c_bytes c)) in
    n ← f64_to_int (f64_add scans HEAT_ALPHA);
    let n := if n <? 0 then 0 else n in
    Ret (if SCAN_HORIZON <? n then SCAN_HORIZON else n).

(** Benefit and cost of promoting one tier. *)
Definition promote_eval (cm : CostModel) (c : Column) : outcome (Z * Z) :=
  let faster := faster_tier (c_tier c) in
  if decide (faster = c_tier c) then Ret (F64_ZERO, F64_ZERO)
  else
    n ← est_future_scans c;
    let benefit := f64_mul (f64_sub (scan_us (c_tier c) (c_bytes c)) (scan_us faster (c_bytes c)))
                     (f64_of_Z n) in
    Ret (benefit, migration_us cm (c_tier c) faster (c_bytes c)).

Definition should_promote (cm : CostModel) (c : Column) : outcome bool :=
  if decide (faster_tier (c_tier c) = c_tier c) then Ret false
  else
    '(benefit, cost) ← promote_eval cm c;
    Ret (f64_ltb (f64_mul HYSTERESIS cost) benefit).

Definition promote_net_benefit (cm : CostModel) (c : Column) : outcome Z :=
  '(benefit, cost) ← promote_eval cm c; Ret (f64_sub benefit cost).

Definition keep_score (c : Column) : outcome Z :=
  let slower := slower_tier (c_tier c) in
  if decide (slower = c_tier c) then Ret F64_1E300
  else
    n ← est_future_scans c;
    Ret (f64_mul (f64_sub (scan_us slower (c_bytes c)) (scan_us (c_tier c) (c_bytes c))) (f64_of_Z n)).

Section tier_manager.
Context `{!HashOrder Z}.

Definition resident_bytes (t : MemorySpace) (m : gmap Z Column) : Z :=
  fold_left (λ sum kv, if decide (c_tier kv.2 = t) then u64 (sum + c_bytes kv.2) else sum)
    (hash_iter m) 0.

(** ** Rebalancing *)

Definition age (c : Column) : Column :=
  mkColumn (c_id c) (c_bytes c) (c_tier c)
    (f64_add (f64_mul HEAT_ALPHA (f64_of_Z (c_recent c)))
             (f64_mul (f64_sub F64_ONE HEAT_ALPHA) (c_heat c)))
    0 (c_arrived c).

(** The state of a pass: the columns as moved so far, and the plan. *)
Definition pass : Type := gmap Z Column * list MigrationDecision.

(** Push a decision and move the column in the manager's books. *)
Definition move (now id : Z) (to : MemorySpace) (p : pass) : pass :=
  match p.1 !! id with
  | Some c => (<[id := mkColumn (c_id c) (c_bytes c) to (c_heat c) (c_recent c) now]> p.1,
               p.2 ++ [mkDecision (c_id c) (c_tier c) to])
  | None => p
  end.

(** The lowest-scored resident of [t] that has stayed for the minimum time. *)
Definition victim_step (now : Z) (t : MemorySpace) (best : Z * option Z) (kv : Z * Column) :
    outcome (Z * option Z) :=
  let c := kv.2 in
  if negb (bool_decide (c_tier c = t)) then Ret best
  else if u64 (now - c_arrived c) <? MIN_RESIDENCY_TICKS then Ret best
  else
    s ← keep_score c;
    Ret (if f64_ltb s best.1 then (s, Some kv.1) else best).

Definition find_victim (now : Z) (t : MemorySpace) (m : gmap Z Column) : outcome (option Z) :=
  '(_, v) ← fold_outcome (victim_step now t) (hash_iter m) (F64_1E301, None); Ret v.

Definition try_swap_promote (cm : CostModel) (now : Z) (cand : Z) (c : Column) (to : MemorySpace)
    (cap : Z) (p : pass) : outcome pass :=
  if cap =? 0 then Ret p
  else
    v ← find_victim now to p.1;
    match v with
    | None => Ret p
    | Some vid =>
        vc ← of_option Uncaught (p.1 !! vid);
        '(benefit, _) ← promote_eval cm c;
        k ← keep_score vc;
        if f64_leb benefit (f64_mul SWAP_MARGIN k) then Ret p
        else if cap <? u64 (resident_bytes to p.1 - c_bytes vc + c_bytes c) then Ret p
        else Ret (move now cand to (move now vid (slower_tier to) p))
    end.

Definition promote_one (tm : TierManager) (p : pass) (id : Z) : outcome pass :=
  c ← of_option Uncaught (p.1 !! id);
  let to := faster_tier (c_tier c) in
  let cap := capacity_of tm to in
  if (cap =? 0) || (u64 (resident_bytes to p.1 + c_bytes c) <=? cap)
  then Ret (move (tick tm) id to p)
  else try_swap_promote (tm_cm tm) (tick tm) id c to cap p.

(** The order of the candidates: best net benefit first, then by id. *)
Definition candidate_before (a b : Z * Z) : bool :=
  if negb (f64_eqb a.2 b.2) then f64_ltb b.2 a.2 else a.1 <? b.1.

Fixpoint insert_candidate (x : Z * Z) (l : list (Z * Z)) : list (Z * Z) :=
  match l with
  | [] => [x]
  | y :: l' => if candidate_before y x then y :: insert_candidate x l' else x :: l
  end.

Definition sort_candidates (l : list (Z * Z)) : list (Z * Z) := foldr insert_candidate [] l.

Definition collect_candidate (cm : CostModel) (acc : list (Z * Z)) (kv : Z * Column) :
    outcome (list (Z * Z)) :=
  b ← should_promote cm kv.2;
  if (b : bool) then net ← promote_net_benefit cm kv.2; Ret (acc ++ [(kv.1, net)]) else Ret acc.

(** One turn of the eviction loop; [None] is its [break]. *)
Definition evict_one (tm : TierManager) (t : MemorySpace) (p : pass) : outcome (option pass) :=
  if resident_bytes t p.1 <=? capacity_of tm t then Ret None
  else
    v ← find_victim (tick tm) t p.1;
    match v with
    | None => Ret None
    | Some vid => Ret (Some (move (tick tm) vid (slower_tier t) p))
    end.

Fixpoint evict_loop (fuel : nat) (tm : TierManager) (t : MemorySpace) (p : pass) : outcome pass :=
  match fuel with
  | O => Ret p
  | S fuel' =>
      r ← evict_one tm t p;
      match r with None => Ret p | Some p' => evict_loop fuel' tm t p' end
  end.

(** Every eviction marks its column as freshly arrived, so the number of columns
    bounds the turns of the loop. *)
Definition evict (tm : TierManager) (p : pass) (t : MemorySpace) : outcome pass :=
  if capacity_of tm t =? 0 then Ret p else evict_loop (S (size p.1)) tm t p.

Definition rebalance (tm0 : TierManager) : outcome (list MigrationDecision * TierManager) :=
  let tm := mkTM (tm_cm tm0) (device_cap tm0) (host_cap tm0) (u64 (tick tm0 + 1)) (age <$> cols tm0) in
  cands ← fold_outcome (collect_candidate (tm_cm tm)) (hash_iter (cols tm)) [];
  p ← fold_outcome (promote_one tm) ((sort_candidates cands).*1) (cols tm, []);
  p ← fold_outcome (evict tm) [DEVICE; HOST] p;
  Ret (p.2, set_cols tm p.1).

Definition tier_of (id : Z) (tm : TierManager) : outcome MemorySpace :=
  c ← of_option Uncaught (cols tm !! id); Ret (c_tier c).

Definition heat_of (id : Z) (tm : TierManager) : outcome Z :=
  c ← of_option Uncaught (cols tm !! id); Ret (c_heat c).


(** ** Residency as an exact sum *)

Definition tier_sum (w : Column → Z) (t : MemorySpace) (m : gmap Z Column) : Z :=
  map_sum (λ c, if decide (c_tier c = t) then w c else 0) m.

Definition tier_bytes : MemorySpace → gmap Z Column → Z := tier_sum c_bytes.
Definition tier_count : MemorySpace → gmap Z Column → Z := tier_sum (λ _, 1).

Definition total_bytes : gmap Z Column → Z := map_sum c_bytes.

(** Sizes are never negative, keys and ids agree, arrivals are in the past. *)
Definition column_ok (now id : Z) (c : Column) : Prop :=
  c_id c = id ∧ 0 ≤ c_bytes c ∧ 0 ≤ c_arrived c ≤ now.

Definition cols_ok (now : Z) (m : gmap Z Column) : Prop :=
  map_Forall (column_ok now) m ∧ total_bytes m < 2 ^ 64.

Lemma tier_bytes_le t m now : map_Forall (column_ok now) m → 0 ≤ tier_bytes t m ≤ total_bytes m.
Proof.
  intros Hok. split; [apply map_sum_nonneg|apply map_sum_le]; intros k c Hc;
    destruct (Hok k c Hc) as (_ & ? & _); destruct (decide _); lia.
Qed.

Lemma fold_resident t l a :
  (∀ kv : Z * Column, kv ∈ l → 0 ≤ c_bytes kv.2) → 0 ≤ a →
  a + foldr (λ kv sum, (if decide (c_tier kv.2 = t) then c_bytes kv.2 else 0) + sum) 0 l < 2 ^ 64 →
  fold_left (λ sum kv, if decide (c_tier kv.2 = t) then u64 (sum + c_bytes kv.2) else sum) l a
  = a + foldr (λ kv sum, (if decide (c_tier kv.2 = t) then c_bytes kv.2 else 0) + sum) 0 l.
Proof.
  revert a. induction l as [|kv l IH]; cbn; intros a Hl Ha Hs; [lia|].
  assert (0 ≤ foldr (λ kv sum, (if decide (c_tier kv.2 = t) then c_bytes kv.2 else 0) + sum) 0 l) as Hr.
  { clear -Hl. induction l as [|x l IH]; cbn; [lia|].
    pose proof (Hl x ltac:(set_solver)). specialize (IH ltac:(set_solver)). destruct (decide _); lia. }
  pose proof (Hl kv ltac:(set_solver)).
  assert (∀ kv0, kv0 ∈ l → 0 ≤ c_bytes kv0.2) by set_solver.
  destruct (decide (c_tier kv.2 = t)); [|rewrite IH by (done || lia); lia].
  rewrite u64_small by (unfold in_u64; lia). rewrite IH by (done || lia). lia.
Qed.

Lemma resident_bytes_exact t now m : cols_ok now m → resident_bytes t m = tier_bytes t m.
Proof.
  intros [Hok Hmax]. pose proof (tier_bytes_le t m now Hok) as Hle. unfold resident_bytes.
  assert (foldr (λ kv sum, (if decide (c_tier kv.2 = t) then c_bytes kv.2 else 0) + sum) 0 (hash_iter m)
          = tier_bytes t m) as Heq.
  { exact (foldr_sum_proper (λ kv, if decide (c_tier kv.2 = t) then c_bytes kv.2 else 0) _ _ (hash_iter_perm m)). }
  rewrite fold_resident; [lia| |lia|lia].
  intros [k c] Hkv%elem_of_hash_iter. apply (Hok k c Hkv).
Qed.

Lemma tier_count_le t m : 0 ≤ tier_count t m ≤ Z.of_nat (size m).
Proof.
  unfold tier_count, tier_sum, map_sum. rewrite <- length_map_to_list.
  induction (map_to_list m) as [|kv l IH]; cbn [foldr length]; [lia|]. destruct (decide _); lia.
Qed.

(** ** What a pass may do *)

Definition rank (t : MemorySpace) : Z := match t with DEVICE => 2 | HOST => 1 | _ => 0 end.

(** [c] is [c0] after some moves at time [now]: its load is unchanged, and if
    it ends lower than it began it had stayed for the minimum time. *)
Record moved (now : Z) (c0 c : Column) : Prop := {
  mv_id : c_id c = c_id c0;
  mv_bytes : c_bytes c = c_bytes c0;
  mv_heat : c_heat c = c_heat c0;
  mv_recent : c_recent c = c_recent c0;
  mv_tier : (c_tier c = c_tier c0 ∧ c_arrived c = c_arrived c0) ∨
            (c_arrived c = now ∧
             (rank (c_tier c) < rank (c_tier c0) → MIN_RESIDENCY_TICKS ≤ now - c_arrived c0))
}.

(** Carrying out a plan on the tiers of the columns: each decision names the
    tier its column is on and a neighbouring one. *)
Definition apply_decision (tiers : gmap Z MemorySpace) (d : MigrationDecision) :
    option (gmap Z MemorySpace) :=
  match tiers !! column_id d with
  | Some t => if decide (t = from_ d ∧ (to_ d = faster_tier t ∨ to_ d = slower_tier t))
              then Some (<[column_id d := to_ d]> tiers) else None
  | None => None
  end.

Fixpoint apply_plan (tiers : gmap Z MemorySpace) (plan : list MigrationDecision) :
    option (gmap Z MemorySpace) :=
  match plan with
  | [] => Some tiers
  | d :: plan' => match apply_decision tiers d with Some t' => apply_plan t' plan' | None => None end
  end.

Lemma apply_plan_app t p1 p2 :
  apply_plan t (p1 ++ p2) = match apply_plan t p1 with Some t' => apply_plan t' p2 | None => None end.
Proof. revert t. induction p1 as [|d p1 IH]; intros t; [done|]. cbn. by destruct (apply_decision t d). Qed.

Definition est_ok (c : Column) : Prop := ∃ n, est_future_scans c = Ret n.

Record pass_inv (m0 : gmap Z Column) (now : Z) (p : pass) : Prop := {
  pi_dom : dom p.1 = dom m0;
  pi_moved : ∀ id c0 c, m0 !! id = Some c0 → p.1 !! id = Some c → moved now c0 c;
  pi_ok : cols_ok now p.1;
  pi_est : map_Forall (λ _, est_ok) p.1;
  pi_plan : apply_plan (c_tier <$> m0) p.2 = Some (c_tier <$> p.1)
}.

Lemma pass_inv_init m now : cols_ok now m → map_Forall (λ _, est_ok) m → pass_inv m now (m, []).
Proof.
  intros Hok Hest. split; cbn; try done. intros id c0 c H1 H2. simplify_eq. split; auto.
Qed.

Lemma lookup_moved m0 now p id c :
  pass_inv m0 now p → p.1 !! id = Some c → ∃ c0, m0 !! id = Some c0 ∧ moved now c0 c.
Proof.
  intros Hp Hc. assert (is_Some (m0 !! id)) as [c0 H0].
  { apply elem_of_dom. rewrite <- (pi_dom _ _ _ Hp). apply elem_of_dom. eauto. }
  exists c0. split; [done|]. by eapply pi_moved.
Qed.

Lemma move_inv m0 now p id c to :
  pass_inv m0 now p → 0 ≤ now → p.1 !! id = Some c →
  to = faster_tier (c_tier c) ∨ to = slower_tier (c_tier c) →
  (rank to < rank (c_tier c) → MIN_RESIDENCY_TICKS ≤ now - c_arrived c) →
  pass_inv m0 now (move now id to p).
Proof.
  intros Hp Hnow Hc Hadj Hold. unfold move. rewrite Hc.
  pose proof Hp as [Hdom Hmv [Hok Htot] Hest Hplan].
  pose proof (Hok id c Hc) as (Hid & Hb & Ha).
  split; cbn.
  - rewrite dom_insert_L. apply elem_of_dom_2 in Hc. set_solver.
  - intros id' c0 c' H0 H1. destruct (decide (id = id')) as [<-|Hne].
    + rewrite lookup_insert_eq in H1. injection H1 as <-.
      destruct (Hmv id c0 c H0 Hc) as [? ? ? ? Ht]. split; cbn; try done.
      right. split; [done|]. intros Hr. destruct Ht as [[Ht1 Ht2]|[Ht1 Ht2]].
      * rewrite <- Ht2. apply Hold. by rewrite Ht1.
      * destruct (decide (rank (c_tier c) < rank (c_tier c0))); [auto|].
        unfold MIN_RESIDENCY_TICKS in *. lia.
    + rewrite lookup_insert_ne in H1 by done. eauto.
  - split; [|unfold total_bytes; rewrite (map_sum_update _ _ _ c) by done; cbn; unfold total_bytes in Htot; lia].
    apply map_Forall_insert_2; [|done]. split; cbn; [done|lia].
  - apply map_Forall_insert_2; [|done]. destruct (Hest id c Hc) as [n Hn]. exists n.
    revert Hn. unfold est_future_scans. by cbn.
  - rewrite apply_plan_app, Hplan. cbn. unfold apply_decision. cbn.
    rewrite Hid, lookup_fmap, Hc. cbn. rewrite decide_True by done. by rewrite fmap_insert.
Qed.

(** ** The steps of a pass *)

Lemma keep_score_ok c : est_ok c → ∃ s, keep_score c = Ret s.
Proof. intros [n Hn]. unfold keep_score. destruct (decide _); [eauto|]. rewrite Hn. cbn. eauto. Qed.

Lemma promote_eval_ok cm c : est_ok c → ∃ bc, promote_eval cm c = Ret bc.
Proof. intros [n Hn]. unfold promote_eval. destruct (decide _); [eauto|]. rewrite Hn. cbn. eauto. Qed.

(** What a resident must fail for the search to pass it over. *)
Definition evictable (now : Z) (c : Column) : Prop :=
  MIN_RESIDENCY_TICKS ≤ now - c_arrived c ∧ ∀ s, keep_score c = Ret s → f64_ltb s F64_1E301 = true.

Definition may_evict (now : Z) (t : MemorySpace) (c : Column) : Prop :=
  c_tier c = t ∧ MIN_RESIDENCY_TICKS ≤ now - c_arrived c.

#[local] Instance may_evict_dec now t c : Decision (may_evict now t c).
Proof. unfold may_evict. apply _. Defined.

Lemma victim_step_eq now t best kv s :
  0 ≤ c_arrived kv.2 ≤ now → now < 2 ^ 64 → keep_score kv.2 = Ret s →
  victim_step now t best kv =
    Ret (if decide (may_evict now t kv.2) then if f64_ltb s best.1 then (s, Some kv.1) else best else best).
Proof.
  intros Ha Hnow Hs. unfold victim_step. cbv zeta. rewrite u64_small by (unfold in_u64; lia). rewrite Hs. cbn.
  unfold may_evict. destruct (bool_decide_reflect (c_tier kv.2 = t)) as [Ht|Ht]; cbn.
  - destruct (Z.ltb_spec (now - c_arrived kv.2) MIN_RESIDENCY_TICKS).
    + rewrite decide_False by lia. done.
    + rewrite decide_True by done. done.
  - rewrite decide_False by tauto. done.
Qed.

Lemma victim_fold now t l best :
  (∀ kv, kv ∈ l → est_ok kv.2 ∧ 0 ≤ c_arrived kv.2 ≤ now) → now < 2 ^ 64 →
  ∃ b', fold_outcome (victim_step now t) l best = Ret b' ∧
  ((b' = best ∧ ∀ kv s, kv ∈ l → may_evict now t kv.2 → keep_score kv.2 = Ret s →
       f64_ltb s best.1 = false) ∨
   ∃ kv, kv ∈ l ∧ b'.2 = Some kv.1 ∧ may_evict now t kv.2).
Proof.
  intros Hl Hnow. revert best. induction l as [|kv l IH]; intros best.
  { exists best. split; [done|]. left. split; [done|]. set_solver. }
  destruct (Hl kv ltac:(set_solver)) as [Hest Ha].
  destruct (keep_score_ok kv.2 Hest) as [s Hs].
  cbn [fold_outcome]. rewrite (victim_step_eq now t best kv s Ha Hnow Hs). cbn [mbind outcome_bind].
  set (best' := if decide _ then _ else _).
  destruct (IH ltac:(set_solver) best') as (b' & -> & Hb'). exists b'. split; [done|].
  destruct Hb' as [[-> Hb]|(x & Hx & Hx')]; [|right; exists x; set_solver].
  unfold best' in *. destruct (decide (may_evict now t kv.2)) as [Hev|Hev].
  - destruct (f64_ltb s best.1) eqn:Hlt.
    + right. exists kv. set_solver.
    + left. split; [done|]. intros kv' s' [->|Hin]%elem_of_cons Hev' Hs'; [congruence|eauto].
  - left. split; [done|]. intros kv' s' [->|Hin]%elem_of_cons Hev' Hs'; [done|eauto].
Qed.

Lemma find_victim_spec m0 now t p :
  pass_inv m0 now p → 0 ≤ now < 2 ^ 64 →
  ∃ v, find_victim now t p.1 = Ret v ∧
  match v with
  | Some id => ∃ c, p.1 !! id = Some c ∧ c_tier c = t ∧ MIN_RESIDENCY_TICKS ≤ now - c_arrived c
  | None => ∀ id c, p.1 !! id = Some c → c_tier c = t → ¬ evictable now c
  end.
Proof.
  intros [_ _ [Hok _] Hest _] Hnow. unfold find_victim.
  destruct (victim_fold now t (hash_iter p.1) (F64_1E301, None)) as ([b v] & -> & Hb); [|lia|].
  - intros [k c] Hkv%elem_of_hash_iter. split; [apply (Hest k c Hkv)|apply (Hok k c Hkv)].
  - exists v. split; [done|]. destruct Hb as [[[= -> ->] Hb]|([k c] & Hin & Hv & Hev)]; cbn in *.
    + intros id c Hc Ht [Ha Hs]. destruct (keep_score_ok c (Hest id c Hc)) as [s Hks].
      pose proof (Hb (id, c) s ltac:(by apply elem_of_hash_iter) (conj Ht Ha) Hks) as Hf.
      by rewrite (Hs s Hks) in Hf.
    + subst v. apply elem_of_hash_iter in Hin. destruct Hev. eauto.
Qed.

Lemma promote_one_inv tm m0 p id :
  pass_inv m0 (tick tm) p → 0 ≤ tick tm < 2 ^ 64 → is_Some (p.1 !! id) →
  ∃ p', promote_one tm p id = Ret p' ∧ pass_inv m0 (tick tm) p'.
Proof.
  intros Hp Ht [c Hc]. unfold promote_one. rewrite Hc. cbn.
  assert (rank (c_tier c) ≤ rank (faster_tier (c_tier c))) as Hrank by (destruct (c_tier c); cbn; lia).
  destruct (_ || _); cbn.
  { eexists. split; [done|]. eapply move_inv; eauto; lia. }
  unfold try_swap_promote. destruct (_ =? 0); [eauto|].
  destruct (find_victim_spec _ _ (faster_tier (c_tier c)) _ Hp Ht) as (v & -> & Hv). cbn.
  destruct v as [vid|]; [|eauto]. destruct Hv as (vc & Hvc & Htv & Hav). rewrite Hvc. cbn.
  pose proof (pi_est _ _ _ Hp) as Hest.
  destruct (promote_eval_ok (tm_cm tm) c (Hest id c Hc)) as [[be co] ->]. cbn.
  destruct (keep_score_ok vc (Hest vid vc Hvc)) as [k ->]. cbn.
  destruct (f64_leb _ _); [eauto|]. destruct (_ <? _); [eauto|]. eexists. split; [done|].
  assert (pass_inv m0 (tick tm) (move (tick tm) vid (slower_tier (faster_tier (c_tier c))) p)) as Hp'.
  { eapply move_inv; eauto; [lia|]. right. by rewrite Htv. }
  destruct (decide (id = vid)) as [->|Hne].
  - rewrite Hvc in Hc. injection Hc as ->.
    eapply move_inv; [done|lia| | |].
    + unfold move. rewrite Hvc. cbn. apply lookup_insert_eq.
    + cbn. left. by destruct (c_tier c).
    + cbn. destruct (c_tier c); cbn; lia.
  - eapply move_inv; [done|lia| |by left|lia].
    unfold move. rewrite Hvc. cbn. by rewrite lookup_insert_ne.
Qed.

Lemma collect_spec cm l acc :
  (∀ kv, kv ∈ l → est_ok kv.2) →
  ∃ r, fold_outcome (collect_candidate cm) l acc = Ret r ∧
  ∀ x, x ∈ r → x ∈ acc ∨ ∃ kv, kv ∈ l ∧ kv.1 = x.1 ∧ should_promote cm kv.2 = Ret true.
Proof.
  revert acc. induction l as [|kv l IH]; intros acc Hest; cbn [fold_outcome]; [eauto|].
  destruct (promote_eval_ok cm kv.2 (Hest kv ltac:(set_solver))) as [[be co] He].
  assert (∃ b, should_promote cm kv.2 = Ret b) as [b Hb].
  { unfold should_promote. rewrite He. destruct (decide _); cbn; eauto. }
  assert (collect_candidate cm acc kv = Ret (if b then acc ++ [(kv.1, f64_sub be co)] else acc)) as ->.
  { unfold collect_candidate. rewrite Hb. cbn. unfold promote_net_benefit. rewrite He. by destruct b. }
  cbn [mbind outcome_bind]. destruct b.
  - destruct (IH (acc ++ [(kv.1, f64_sub be co)]) ltac:(set_solver)) as (r & -> & Hr).
    exists r. split; [done|]. intros x Hx. destruct (Hr x Hx) as [Hin|(kv' & ? & ? & ?)].
    + rewrite elem_of_app, list_elem_of_singleton in Hin. destruct Hin as [?| ->]; [by left|].
      right. exists kv. set_solver.
    + right. exists kv'. set_solver.
  - destruct (IH acc ltac:(set_solver)) as (r & -> & Hr). exists r. split; [done|].
    intros x Hx. destruct (Hr x Hx) as [?|(kv' & ? & ? & ?)]; [by left|]. right. exists kv'. set_solver.
Qed.

Lemma sort_candidates_perm l : sort_candidates l ≡ₚ l.
Proof.
  induction l as [|x l IH]; [done|]. cbn. fold (sort_candidates l). rewrite <- IH at 2.
  generalize (sort_candidates l). clear. intros l. induction l as [|y l IH]; [done|]. cbn.
  destruct (candidate_before y x); [|done]. rewrite IH. apply Permutation_swap.
Qed.

(** Nothing on [t] that the loop could still demote. *)
Definition settled (tm : TierManager) (t : MemorySpace) (m : gmap Z Column) : Prop :=
  capacity_of tm t = 0 ∨ tier_bytes t m ≤ capacity_of tm t ∨
  ∀ id c, m !! id = Some c → c_tier c = t → ¬ evictable (tick tm) c.

Lemma settled_move tm m0 t id p c to :
  pass_inv m0 (tick tm) p → p.1 !! id = Some c → c_tier c ≠ t → to ≠ t →
  settled tm t p.1 → settled tm t (move (tick tm) id to p).1.
Proof.
  intros Hp Hc Hct Hto [Hs|[Hs|Hs]]; unfold move; rewrite Hc; cbn; [by left| |].
  - right; left. unfold tier_bytes, tier_sum in *. rewrite (map_sum_update _ _ _ c) by done. cbn.
    rewrite !decide_False by done. lia.
  - right; right. intros id' c' Hc' Ht'. destruct (decide (id = id')) as [<-|Hne].
    + rewrite lookup_insert_eq in Hc'. injection Hc' as <-. done.
    + rewrite lookup_insert_ne in Hc' by done. eauto.
Qed.

Lemma evict_loop_spec tm m0 t fuel p :
  slower_tier t ≠ t → pass_inv m0 (tick tm) p → 0 ≤ tick tm < 2 ^ 64 →
  tier_count t p.1 < Z.of_nat fuel →
  ∃ p', evict_loop fuel tm t p = Ret p' ∧ pass_inv m0 (tick tm) p' ∧ settled tm t p'.1 ∧
        (∀ t', t' ≠ t → t' ≠ slower_tier t → settled tm t' p.1 → settled tm t' p'.1).
Proof.
  intros Hslow. revert p. induction fuel as [|fuel IH]; intros p Hp Ht Hfuel.
  { pose proof (tier_count_le t p.1). lia. }
  cbn [evict_loop]. unfold evict_one. rewrite (resident_bytes_exact t (tick tm)) by apply Hp.
  destruct (Z.leb_spec (tier_bytes t p.1) (capacity_of tm t)) as [Hle|Hgt]; cbn.
  { exists p. do 2 (split; [done|]). split; [by right; left|auto]. }
  destruct (find_victim_spec _ _ t _ Hp Ht) as (v & -> & Hv). cbn.
  destruct v as [id|]; cbn.
  2: { exists p. do 2 (split; [done|]). split; [by right; right|auto]. }
  destruct Hv as (c & Hc & Htc & Ha).
  destruct (IH (move (tick tm) id (slower_tier t) p)) as (p' & -> & Hp' & Hset & Hkeep).
  - eapply move_inv; eauto; [lia|]. right. by rewrite Htc.
  - done.
  - unfold move. rewrite Hc. cbn. unfold tier_count, tier_sum in *.
    rewrite (map_sum_update _ _ _ c) by done. cbn. rewrite decide_True, decide_False by done. lia.
  - exists p'. do 3 (split; [done|]). intros t' Hne1 Hne2 Hs. apply Hkeep; [done..|].
    eapply settled_move; eauto. congruence.
Qed.

Lemma evict_spec tm m0 t p :
  slower_tier t ≠ t → pass_inv m0 (tick tm) p → 0 ≤ tick tm < 2 ^ 64 →
  ∃ p', evict tm p t = Ret p' ∧ pass_inv m0 (tick tm) p' ∧ settled tm t p'.1 ∧
        (∀ t', t' ≠ t → t' ≠ slower_tier t → settled tm t' p.1 → settled tm t' p'.1).
Proof.
  intros Hslow Hp Ht. unfold evict. destruct (Z.eqb_spec (capacity_of tm t) 0).
  { exists p. do 2 (split; [done|]). split; [by left|auto]. }
  apply evict_loop_spec; auto. pose proof (tier_count_le t p.1). lia.
Qed.

Lemma promotions_inv tm m0 ids p :
  (∀ id, id ∈ ids → is_Some (m0 !! id)) → 0 ≤ tick tm < 2 ^ 64 → pass_inv m0 (tick tm) p →
  ∃ p', fold_outcome (promote_one tm) ids p = Ret p' ∧ pass_inv m0 (tick tm) p'.
Proof.
  intros Hids Ht. revert p. induction ids as [|id ids IH]; intros p Hp; cbn [fold_outcome]; [eauto|].
  destruct (promote_one_inv tm m0 p id Hp Ht) as (p' & -> & Hp').
  { apply elem_of_dom. rewrite (pi_dom _ _ _ Hp). apply elem_of_dom, Hids. set_solver. }
  cbn. apply IH; [set_solver|done].
Qed.

(** The manager's books are consistent; [estimable] says that no column's heat
    makes the scan estimate leave the range of [int]. *)
Record tm_ok (tm : TierManager) : Prop := {
  tm_cols_ok : cols_ok (tick tm) (cols tm);
  tm_tick : 0 ≤ tick tm;
  tm_tick_max : tick tm + 1 < 2 ^ 64
}.

Definition estimable (tm : TierManager) : Prop := map_Forall (λ _ c, est_ok (age c)) (cols tm).

Lemma total_bytes_age m : total_bytes (age <$> m) = total_bytes m.
Proof.
  unfold total_bytes, map_sum. rewrite map_to_list_fmap.
  induction (map_to_list m) as [|[k c] l IH]; [done|]. cbn. by rewrite IH.
Qed.

Lemma aged_ok tm : tm_ok tm → cols_ok (tick tm + 1) (age <$> cols tm).
Proof.
  intros [[Hok Htot] Ht Hmax]. split; [|by rewrite total_bytes_age].
  apply map_Forall_fmap. intros id c Hc. destruct (Hok id c Hc) as (? & ? & ?).
  split; cbn; [done|lia].
Qed.

Lemma rebalance_run tm :
  tm_ok tm → estimable tm →
  let tm1 := mkTM (tm_cm tm) (device_cap tm) (host_cap tm) (tick tm + 1) (age <$> cols tm) in
  ∃ cands p1 p2 p3,
    fold_outcome (collect_candidate (tm_cm tm)) (hash_iter (age <$> cols tm)) [] = Ret cands ∧
    (∀ id, id ∈ (sort_candidates cands).*1 → ∃ c, cols tm1 !! id = Some c ∧ should_promote (tm_cm tm) c = Ret true) ∧
    fold_outcome (promote_one tm1) ((sort_candidates cands).*1) (cols tm1, []) = Ret p1 ∧
    evict tm1 p1 DEVICE = Ret p2 ∧ evict tm1 p2 HOST = Ret p3 ∧
    pass_inv (cols tm1) (tick tm1) p1 ∧ pass_inv (cols tm1) (tick tm1) p2 ∧
    pass_inv (cols tm1) (tick tm1) p3 ∧
    settled tm1 DEVICE p3.1 ∧ settled tm1 HOST p3.1 ∧
    rebalance tm = Ret (p3.2, set_cols tm1 p3.1).
Proof.
  intros Hok Hest tm1. pose proof Hok as [_ Ht Hmax].
  pose proof (aged_ok tm Hok) as Hok1.
  assert (map_Forall (λ _, est_ok) (age <$> cols tm)) as Hest1 by (by apply map_Forall_fmap).
  destruct (collect_spec (tm_cm tm) (hash_iter (age <$> cols tm)) []) as (cands & Hc & Hin).
  { intros [k c] Hkv%elem_of_hash_iter. apply (Hest1 k c Hkv). }
  assert (∀ id, id ∈ (sort_candidates cands).*1 → ∃ c, cols tm1 !! id = Some c ∧
    should_promote (tm_cm tm) c = Ret true) as Hids.
  { intros id ([id' n] & -> & Hx)%list_elem_of_fmap. rewrite sort_candidates_perm in Hx.
    destruct (Hin _ Hx) as [?|([k c] & Hkv & Hk & Hs)]; [set_solver|].
    apply elem_of_hash_iter in Hkv. cbn in *. subst k. eauto. }
  assert (0 ≤ tick tm1 < 2 ^ 64) as Ht1 by (cbn; lia).
  assert (pass_inv (cols tm1) (tick tm1) (cols tm1, [])) as Hp0 by (by apply pass_inv_init).
  destruct (promotions_inv tm1 (cols tm1) ((sort_candidates cands).*1) _
    ltac:(intros id Hid; destruct (Hids id Hid) as (c & ? & _); eauto) Ht1 Hp0) as (p1 & Hr1 & Hp1).
  destruct (evict_spec tm1 _ DEVICE p1 ltac:(done) Hp1 Ht1) as (p2 & Hr2 & Hp2 & Hs2 & _).
  destruct (evict_spec tm1 _ HOST p2 ltac:(done) Hp2 Ht1) as (p3 & Hr3 & Hp3 & Hs3 & Hk).
  exists cands, p1, p2, p3. repeat (split; [done|]). split; [by apply Hk|]. split; [done|].
  unfold rebalance. rewrite u64_small by (unfold in_u64; lia). fold tm1. cbv zeta.
  change (cols tm1) with (age <$> cols tm). change (tm_cm tm1) with (tm_cm tm). rewrite Hc. cbn [mbind outcome_bind].
  change (age <$> cols tm) with (cols tm1). rewrite Hr1. cbn [mbind outcome_bind fold_outcome].
  rewrite Hr2. cbn [mbind outcome_bind]. rewrite Hr3. done.
Qed.

Lemma rebalance_spec tm :
  tm_ok tm → estimable tm →
  ∃ plan tm', rebalance tm = Ret (plan, tm') ∧
    apply_plan (c_tier <$> cols tm) plan = Some (c_tier <$> cols tm') ∧
    dom (cols tm') = dom (cols tm) ∧
    cols_ok (tick tm') (cols tm') ∧
    (∀ id c c', cols tm !! id = Some c → cols tm' !! id = Some c' →
       c_bytes c' = c_bytes c ∧
       (rank (c_tier c') < rank (c_tier c) → MIN_RESIDENCY_TICKS ≤ tick tm' - c_arrived c)) ∧
    settled tm' DEVICE (cols tm') ∧ settled tm' HOST (cols tm').
Proof.
  intros Hok Hest.
  destruct (rebalance_run tm Hok Hest) as (cands & p1 & p2 & p3 & _ & _ & _ & _ & _ & _ & _ & Hp3 & Hs1 & Hs2 & ->).
  destruct p3 as [m plan]. cbn in *. do 2 eexists. split; [done|]. cbn.
  pose proof Hp3 as [Hdom Hmv Hok3 _ Hplan]. cbn in *.
  split; [by rewrite <- map_fmap_compose in Hplan|].
  split; [by rewrite Hdom, dom_fmap_L|]. split; [done|]. split; [|done].
  intros id c c' Hc Hc'. destruct (Hmv id (age c) c') as [_ Hb _ _ Ht]; [by rewrite lookup_fmap, Hc|done|].
  split; [done|]. cbn in *. intros Hr. destruct Ht as [[Ht _]|[_ Ht]]; [rewrite Ht in Hr; lia|auto].
Qed.

(** C10: A pass of the brain always ends and returns a plan that fits the books:
    carried out decision by decision it takes the old tiers to the new ones,
    each step to a neighbouring tier; sizes and the set of columns do not
    change; a column that ends on a slower tier had stayed for the minimum
    time; and a bounded tier is over capacity afterwards only if nothing on it
    could be demoted. *)
Theorem rebalance_sound tm :
  tm_ok tm → estimable tm →
  ∃ plan tm', rebalance tm = Ret (plan, tm') ∧
    apply_plan (c_tier <$> cols tm) plan = Some (c_tier <$> cols tm') ∧
    dom (cols tm') = dom (cols tm) ∧
    cols_ok (tick tm') (cols tm') ∧
    (∀ id c c', cols tm !! id = Some c → cols tm' !! id = Some c' →
       c_bytes c' = c_bytes c ∧
       (rank (c_tier c') < rank (c_tier c) → MIN_RESIDENCY_TICKS ≤ tick tm' - c_arrived c)) ∧
    settled tm' DEVICE (cols tm') ∧ settled tm' HOST (cols tm').
Proof. exact (rebalance_spec tm). Qed.

(** ** The CPU build *)

Definition no_device (m : gmap Z Column) : Prop := map_Forall (λ _ c, c_tier c ≠ DEVICE) m.

Definition cpu_plan (p : pass) : Prop := no_device p.1 ∧ Forall (λ d, to_ d ≠ DEVICE) p.2.

Lemma move_cpu now id to p : to ≠ DEVICE → cpu_plan p → cpu_plan (move now id to p).
Proof.
  intros Hto [Hn Hp]. unfold move. destruct (p.1 !! id) as [c|] eqn:Hc; [|done]. split; cbn.
  - by apply map_Forall_insert_2.
  - apply Forall_app. split; [done|]. by constructor.
Qed.

Lemma no_device_bytes m : no_device m → tier_bytes DEVICE m = 0.
Proof.
  intros Hn. unfold tier_bytes, tier_sum, map_sum.
  assert (∀ kv, kv ∈ map_to_list m → c_tier kv.2 ≠ DEVICE) as Hl.
  { intros [k c] Hkv%elem_of_map_to_list. apply (Hn k c Hkv). }
  induction (map_to_list m) as [|kv l IH]; [done|]. cbn.
  rewrite decide_False by (apply Hl; set_solver). rewrite IH by set_solver. done.
Qed.

(** An empty column is never worth a promotion. *)
Lemma empty_never_promoted cm c : c_bytes c = 0 → should_promote cm c ≠ Ret true.
Proof.
  intros Hb. unfold should_promote, promote_eval, est_future_scans. rewrite Hb. cbn [Z.eqb].
  destruct cm as [[k] g]. destruct k, (c_tier c); vm_compute; discriminate.
Qed.

Lemma promote_one_cpu tm m0 p id c :
  device_cap tm = 1 → pass_inv m0 (tick tm) p → 0 ≤ tick tm < 2 ^ 64 →
  p.1 !! id = Some c → 2 ≤ c_bytes c → cpu_plan p →
  ∃ p', promote_one tm p id = Ret p' ∧ pass_inv m0 (tick tm) p' ∧ cpu_plan p'.
Proof.
  intros Hcap Hp Ht Hc Hb Hcpu.
  destruct (promote_one_inv tm m0 p id Hp Ht ltac:(eauto)) as (p' & Hr & Hp').
  exists p'. split; [done|]. split; [done|]. revert Hr. unfold promote_one. rewrite Hc. cbn.
  pose proof Hp as [_ _ Hok _ _]. pose proof Hok as [Hokc Htot].
  assert (c_bytes c ≤ total_bytes p.1) as Hle.
  { apply (map_sum_lookup_le c_bytes p.1 id); [|done]. intros k x Hx. apply (Hokc k x Hx). }
  destruct (decide (faster_tier (c_tier c) = DEVICE)) as [->|Hne].
  - rewrite (resident_bytes_exact DEVICE (tick tm)) by done.
    rewrite no_device_bytes by apply Hcpu. cbn [capacity_of]. rewrite Hcap.
    rewrite u64_small by (unfold in_u64; lia). cbn [Z.eqb orb].
    destruct (Z.leb_spec (0 + c_bytes c) 1); [lia|].
    unfold try_swap_promote. cbn [Z.eqb].
    destruct (find_victim_spec _ _ DEVICE _ Hp Ht) as (v & -> & Hv). cbn.
    destruct v as [vid|]; [|by intros [= <-]].
    destruct Hv as (vc & Hvc & Htv & _). by apply Hcpu in Hvc.
  - destruct (_ || _); [intros [= <-]; by apply move_cpu|]. unfold try_swap_promote.
    destruct (_ =? 0); [by intros [= <-]|]. intros Hr.
    apply bind_Ret in Hr as ([vid|] & _ & Hr); [|by injection Hr as <-].
    apply bind_Ret in Hr as (vc & _ & Hr). apply bind_Ret in Hr as ([be co] & _ & Hr).
    apply bind_Ret in Hr as (k & _ & Hr).
    destruct (f64_leb _ _); [by injection Hr as <-|]. destruct (_ <? _); injection Hr as <-; [done|].
    apply move_cpu; [done|]. apply move_cpu; [|done]. by destruct (c_tier c).
Qed.

Lemma promotions_cpu tm m0 ids p :
  device_cap tm = 1 → 0 ≤ tick tm < 2 ^ 64 →
  (∀ id, id ∈ ids → ∃ c, m0 !! id = Some c ∧ 2 ≤ c_bytes c) →
  pass_inv m0 (tick tm) p → cpu_plan p →
  ∀ p', fold_outcome (promote_one tm) ids p = Ret p' → cpu_plan p'.
Proof.
  intros Hcap Ht. revert p. induction ids as [|id ids IH]; intros p Hids Hp Hcpu p'; cbn [fold_outcome].
  { by intros [= <-]. }
  destruct (Hids id ltac:(set_solver)) as (c0 & Hc0 & Hb).
  assert (is_Some (p.1 !! id)) as [c Hc].
  { apply elem_of_dom. rewrite (pi_dom _ _ _ Hp). apply elem_of_dom. eauto. }
  pose proof (pi_moved _ _ _ Hp id c0 c Hc0 Hc) as Hmv.
  destruct (promote_one_cpu tm m0 p id c Hcap Hp Ht Hc) as (p1 & -> & Hp1 & Hcpu1).
  { rewrite (mv_bytes _ _ _ Hmv). done. }
  { done. }
  cbn. apply IH; [set_solver|done|done].
Qed.

Lemma evict_loop_cpu fuel tm t p p' :
  slower_tier t ≠ DEVICE → evict_loop fuel tm t p = Ret p' → cpu_plan p → cpu_plan p'.
Proof.
  intros Ht. revert p. induction fuel as [|fuel IH]; intros p; cbn [evict_loop].
  { by intros [= <-]. }
  intros Hr Hcpu. apply bind_Ret in Hr as ([q|] & H1 & H2); [|by injection H2 as <-].
  apply (IH q H2). unfold evict_one in H1. destruct (_ <=? _); [done|].
  apply bind_Ret in H1 as ([vid|] & _ & H1); [|done]. injection H1 as <-. by apply move_cpu.
Qed.

Lemma rebalance_no_device tm :
  tm_ok tm → estimable tm → device_cap tm = 1 → no_device (cols tm) →
  map_Forall (λ _ c, c_bytes c = 0 ∨ 2 ≤ c_bytes c) (cols tm) →
  ∃ plan tm', rebalance tm = Ret (plan, tm') ∧
    Forall (λ d, to_ d ≠ DEVICE) plan ∧ no_device (cols tm').
Proof.
  intros Hok Hest Hcap Hnd Hb.
  destruct (rebalance_run tm Hok Hest) as (cands & p1 & p2 & p3 & _ & Hids & Hr1 & Hr2 & Hr3 & Hp1 & _ & _ & _ & _ & ->).
  do 2 eexists. split; [done|]. cbn.
  set (tm1 := mkTM _ _ _ _ _) in *.
  assert (0 ≤ tick tm1 < 2 ^ 64) as Ht1 by (destruct Hok; cbn; lia).
  assert (cpu_plan p1) as H1.
  { eapply (promotions_cpu tm1 (cols tm1)); [done|done| | | |exact Hr1].
    - intros id Hid. destruct (Hids id Hid) as (c & Hc & Hs). exists c. split; [done|].
      cbn in Hc. rewrite lookup_fmap_Some in Hc. destruct Hc as (c0 & <- & Hc0).
      destruct (Hb id c0 Hc0) as [Hz|Hz]; [|exact Hz].
      by destruct (empty_never_promoted (tm_cm tm) (age c0) Hz).
    - apply pass_inv_init; [by apply aged_ok|]. by apply map_Forall_fmap.
    - split; [|by constructor]. by apply map_Forall_fmap. }
  assert (cpu_plan p2) as H2.
  { unfold evict in Hr2. destruct (_ =? 0); [by injection Hr2 as <-|].
    eapply (evict_loop_cpu _ tm1 DEVICE p1); [done|exact Hr2|done]. }
  assert (cpu_plan p3) as [H3a H3b]; [|done].
  unfold evict in Hr3. destruct (_ =? 0); [by injection Hr3 as <-|].
  eapply (evict_loop_cpu _ tm1 HOST p2); [done|exact Hr3|done].
Qed.

(** With a device budget of one byte no plan ever sends a column to the GPU, so
    the CPU executor, which cannot, is never asked to. *)
Theorem cpu_build_device_inert tm :
  tm_ok tm → estimable tm → device_cap tm = 1 → no_device (cols tm) →
  map_Forall (λ _ c, c_bytes c = 0 ∨ 2 ≤ c_bytes c) (cols tm) →
  ∃ plan tm', rebalance tm = Ret (plan, tm') ∧
    Forall (λ d, to_ d ≠ DEVICE) plan ∧ no_device (cols tm').
Proof. exact (rebalance_no_device tm). Qed.
End tier_manager.

(** ** A hot column and a cold one, for the witnesses *)

Definition two_columns : TierManager :=
  mkTM (mkCostModel (detect false) false) 1 1000 5
    {[ 1 := mkColumn 1 800 HOST F64_ZERO 0 1; 2 := mkColumn 2 900 COLD (f64_of_Z 3600) 1800 2 ]}.

Lemma two_columns_ok : tm_ok two_columns.
Proof.
  split; cbn; [|lia..]. split; [|vm_compute; reflexivity].
  apply map_Forall_insert_2; [unfold column_ok; cbn; lia|].
  apply map_Forall_singleton. unfold column_ok; cbn; lia.
Qed.

Lemma two_columns_estimable : estimable two_columns.
Proof.
  apply map_Forall_insert_2; [exists 0; vm_compute; reflexivity|].
  apply map_Forall_singleton. exists 3. vm_compute; reflexivity.
Qed.

(** The hot column on disk displaces the idle one in memory. *)
Example two_columns_swap :
  ∃ tm', rebalance (HashOrder0:=elements_order) two_columns = Ret ([mkDecision 1 HOST COLD; mkDecision 2 COLD HOST], tm').
Proof. eexists. vm_compute. reflexivity. Qed.

Lemma rebalance_sound_witness :
  tm_ok two_columns ∧ estimable two_columns ∧
  ∃ plan tm', rebalance (HashOrder0:=elements_order) two_columns = Ret (plan, tm') ∧
    apply_plan (c_tier <$> cols two_columns) plan = Some (c_tier <$> cols tm').
Proof.
  split; [apply two_columns_ok|]. split; [apply two_columns_estimable|].
  destruct (rebalance_sound (HashOrder0:=elements_order) two_columns two_columns_ok two_columns_estimable)
    as (plan & tm' & H1 & H2 & _). eauto.
Defined.

Lemma cpu_build_device_inert_witness :
  ∃ plan tm', rebalance (HashOrder0:=elements_order) two_columns = Ret (plan, tm') ∧
    Forall (λ d, to_ d ≠ DEVICE) plan.
Proof.
  destruct (cpu_build_device_inert (HashOrder0:=elements_order) two_columns two_columns_ok two_columns_estimable)
    as (plan & tm' & H1 & H2 & _); [reflexivity| | |eauto].
  - apply map_Forall_insert_2; [done|]. by apply map_Forall_singleton.
  - apply map_Forall_insert_2; [cbn; lia|]. apply map_Forall_singleton. cbn. lia.
Defined.
