(* ===== verification/TieredColumn.v ===== *)
(** * TieredColumn: a column's bytes on their tier, and the executor

    [tiered_column.hpp] and [migration_executor.hpp] in the CPU build: a column
    lives either in a host buffer or in a file of its own under [/tmp], and
    [migrate_to] stages every move through the host.  The DEVICE and UNIFIED
    tiers abort.  A [store] is the set of columns of an engine together with
    the file system that holds the cold ones. *)

From S2P Require Export TierManager FileSys.

Record TieredColumn := mkTC {
  tc_id : Z;
  tc_size : Z;
  tc_tier : MemorySpace;
  tc_serial : Z;
  tc_host : list byte
}.

Definition new_column (id serial : Z) (bytes : list byte) : TieredColumn :=
  mkTC id (Z.of_nat (length bytes)) HOST serial bytes.

Abbreviation store := (gmap Z TieredColumn).

Section tiered_column.
Variable pid : Z.

(** [cold_path]: unique to the process and to the object's serial number. *)
Definition serial_path (serial : Z) : string :=
  "/tmp/matrixdb_tcol_" +:+ pretty pid +:+ "_" +:+ pretty serial +:+ ".bin".

Definition cold_path (c : TieredColumn) : string := serial_path (tc_serial c).

(** [host_ptr]: the null pointer when the bytes are elsewhere. *)
Definition host_ptr (c : TieredColumn) : option (list byte) :=
  if decide (tc_tier c = HOST) then Some (tc_host c) else None.

Definition read_to_host (fs : filesys) (c : TieredColumn) : outcome (list byte) :=
  match tc_tier c with
  | HOST => Ret (tc_host c)
  | COLD =>
      match fs_read fs (cold_path c) with
      | None => Crash Aborted
      | Some bs =>
          if Z.of_nat (length bs) <? tc_size c then Crash Aborted
          else Ret (take (Z.to_nat (tc_size c)) bs)
      end
  | _ => Crash Aborted
  end.

Definition write_cold (fs : filesys) (c : TieredColumn) (b : list byte) : outcome filesys :=
  match fs_open_write fs (cold_path c) with
  | None => Crash Aborted
  | Some fs1 =>
      let '(wrote, fs2) := fs_write fs1 (cold_path c) b in
      if (wrote =? length b)%nat then Ret fs2 else Crash Aborted
  end.

Definition free_current (fs : filesys) (c : TieredColumn) : filesys :=
  if decide (tc_tier c = COLD) then fs_remove fs (cold_path c) else fs.

Definition migrate_to (dest : MemorySpace) (fs : filesys) (c : TieredColumn) :
    outcome (TieredColumn * filesys) :=
  if decide (dest = tc_tier c) then Ret (c, fs)
  else
    staged ← read_to_host fs c;
    let fs := free_current fs c in
    let c := mkTC (tc_id c) (tc_size c) HOST (tc_serial c) staged in
    match dest with
    | HOST => Ret (c, fs)
    | COLD =>
        fs ← write_cold fs c (tc_host c);
        Ret (mkTC (tc_id c) (tc_size c) COLD (tc_serial c) [], fs)
    | _ => Crash Aborted
    end.

Definition append_bytes (b : list byte) (c : TieredColumn) : outcome TieredColumn :=
  if decide (tc_tier c = HOST)
  then Ret (mkTC (tc_id c) (u64 (tc_size c + Z.of_nat (length b))) HOST (tc_serial c) (tc_host c ++ b))
  else Crash Aborted.

Definition byte_sum (bs : list byte) : Z := foldl (λ s b, u64 (s + byte.unsigned b)) 0 bs.

Definition checksum (fs : filesys) (c : TieredColumn) : outcome Z :=
  b ← read_to_host fs c; Ret (byte_sum b).

(** ** One column *)

(** The bytes a column holds, wherever they are. *)
Definition tc_bytes (fs : filesys) (c : TieredColumn) : list byte :=
  match tc_tier c with HOST => tc_host c | _ => default [] (fs_read fs (cold_path c)) end.

Definition col_wf (fs : filesys) (c : TieredColumn) : Prop :=
  match tc_tier c with
  | HOST => tc_size c = Z.of_nat (length (tc_host c))
  | COLD => tc_host c = [] ∧
            ∃ bs, fs_read fs (cold_path c) = Some bs ∧ tc_size c = Z.of_nat (length bs)
  | _ => False
  end.

Lemma col_wf_size fs c : col_wf fs c → tc_size c = Z.of_nat (length (tc_bytes fs c)).
Proof.
  unfold col_wf, tc_bytes. destruct (tc_tier c); try done. by intros (_ & bs & -> & ->).
Qed.

Lemma read_to_host_wf fs c : col_wf fs c → read_to_host fs c = Ret (tc_bytes fs c).
Proof.
  unfold col_wf, tc_bytes, read_to_host. destruct (tc_tier c); try done.
  intros (_ & bs & -> & ->). rewrite Z.ltb_irrefl, Nat2Z.id. by rewrite take_ge.
Qed.

Lemma serial_path_inj s1 s2 : serial_path s1 = serial_path s2 → s1 = s2.
Proof.
  unfold serial_path. intros H. do 3 apply (inj (String.append _)) in H.
  apply string_app_inj_r in H. by apply (inj pretty).
Qed.

Lemma fs_size_read fs p : fs_size fs p = length (default [] (fs_read fs p)).
Proof. unfold fs_size, fs_read. by destruct (fs_files fs !! p). Qed.

Lemma write_cold_fits fs c b :
  cold_path c ∉ fs_denied fs → (length b ≤ fs_room fs + fs_size fs (cold_path c))%nat →
  write_cold fs c b = Ret (fs_set fs (cold_path c) (mkFile b 0)
                             (fs_room fs + fs_size fs (cold_path c) - length b)).
Proof.
  intros Hd Hr. unfold write_cold, fs_open_write. rewrite decide_False by done.
  rewrite (fs_write_fits _ _ (mkFile [] 0)) by (cbn; rewrite ?lookup_insert_eq; done).
  cbn. rewrite Nat.eqb_refl. unfold fs_set. cbn. by rewrite insert_insert_eq.
Qed.

Lemma write_cold_full fs c b :
  (fs_room fs + fs_size fs (cold_path c) < length b)%nat → write_cold fs c b = Crash Aborted.
Proof.
  intros Hr. unfold write_cold, fs_open_write. destruct (decide _); [done|].
  unfold fs_write. cbn. rewrite lookup_insert_eq. cbn.
  destruct (Nat.eqb_spec (Nat.min (length b) (fs_room fs + fs_size fs (cold_path c))) (length b)); [lia|done].
Qed.

(** What a migration does to the column and to the files. *)
Record migrated (dest : MemorySpace) (fs : filesys) (c : TieredColumn) (fs' : filesys)
    (c' : TieredColumn) : Prop := {
  mg_tier : tc_tier c' = dest;
  mg_id : tc_id c' = tc_id c;
  mg_size : tc_size c' = tc_size c;
  mg_serial : tc_serial c' = tc_serial c;
  mg_wf : col_wf fs' c';
  mg_bytes : tc_bytes fs' c' = tc_bytes fs c;
  mg_frame : ∀ p, p ≠ cold_path c → fs_read fs' p = fs_read fs p;
  mg_denied : fs_denied fs' = fs_denied fs;
  mg_room : Z.of_nat (fs_room fs) +
            (if decide (tc_tier c = COLD) then tc_size c else 0) ≤
            Z.of_nat (fs_room fs') + (if decide (dest = COLD) then tc_size c else 0)
}.

Lemma migrated_refl fs c : col_wf fs c → migrated (tc_tier c) fs c fs c.
Proof. intros H. by split. Qed.

Lemma migrate_to_spec dest fs c :
  col_wf fs c → dest = HOST ∨ dest = COLD → cold_path c ∉ fs_denied fs →
  (dest = COLD → tc_tier c = HOST → tc_size c ≤ Z.of_nat (fs_room fs + fs_size fs (cold_path c))) →
  ∃ c' fs', migrate_to dest fs c = Ret (c', fs') ∧ migrated dest fs c fs' c'.
Proof.
  intros Hwf Hdest Hden Hroom. unfold migrate_to.
  destruct (decide (dest = tc_tier c)) as [->|Hne].
  { do 2 eexists. split; [done|]. by apply migrated_refl. }
  rewrite read_to_host_wf by done. cbn.
  pose proof (col_wf_size _ _ Hwf) as Hsize.
  destruct Hdest as [->| ->].
  - do 2 eexists. split; [done|].
    assert (tc_tier c = COLD) as Ht by (unfold col_wf in Hwf; destruct (tc_tier c); done).
    unfold free_current. rewrite decide_True by done.
    split; cbn; try done; unfold fs_remove, fs_read; cbn.
    + intros p Hp. by rewrite lookup_delete_ne.
    + rewrite Ht. rewrite decide_True, decide_False by done.
      pose proof (fs_size_read fs (cold_path c)) as Hfs. unfold tc_bytes in Hsize. rewrite Ht in Hsize.
      lia.
  - assert (tc_tier c = HOST) as Ht by (unfold col_wf in Hwf; destruct (tc_tier c); done).
    specialize (Hroom eq_refl Ht).
    unfold free_current. rewrite decide_False by congruence.
    cbn [tc_host].
    pose proof (write_cold_fits fs (mkTC (tc_id c) (tc_size c) HOST (tc_serial c) (tc_bytes fs c)) (tc_bytes fs c)) as Hw.
    change (cold_path (mkTC _ _ _ _ _)) with (cold_path c) in Hw.
    rewrite Hw by (done || lia). cbn [mbind outcome_bind].
    do 2 eexists. split; [done|].
    split; try done.
    + split; [done|]. exists (tc_bytes fs c). split; [apply fs_set_read|done].
    + unfold tc_bytes at 1. cbn [tc_tier]. change (cold_path (mkTC _ _ _ _ _)) with (cold_path c).
      by rewrite fs_set_read.
    + intros p Hp. by rewrite fs_set_read_ne.
    + cbn. rewrite Ht. rewrite decide_False, decide_True by done. lia.
Qed.

(** A tier the build does not have, or a device without room for the cold
    file, stops the process: the bytes are never silently truncated. *)
Lemma migrate_to_fails dest fs c :
  col_wf fs c →
  dest = DEVICE ∨ dest = UNIFIED ∨
    (dest = COLD ∧ tc_tier c = HOST ∧ Z.of_nat (fs_room fs + fs_size fs (cold_path c)) < tc_size c) →
  migrate_to dest fs c = Crash Aborted.
Proof.
  intros Hwf Hdest. unfold migrate_to.
  rewrite decide_False by (unfold col_wf in Hwf; destruct (tc_tier c); naive_solver).
  rewrite read_to_host_wf by done. cbn. destruct Hdest as [->|[->|(-> & Ht & Hr)]]; [done..|].
  unfold free_current. rewrite decide_False by congruence.
  apply col_wf_size in Hwf. rewrite write_cold_full; [done|]. unfold cold_path in *. cbn in *. lia.
Qed.

(** ** The columns of an engine *)


Definition host_weight (c : TieredColumn) : Z := if decide (tc_tier c = HOST) then tc_size c else 0.

(** Every column is whole, files are not shared, and the device could take
    every column that is in memory. *)
Record store_wf (next_serial : Z) (fs : filesys) (m : store) : Prop := {
  sw_cols : map_Forall (λ id c, col_wf fs c ∧ tc_id c = id ∧ tc_serial c < next_serial) m;
  sw_inj : ∀ i j ci cj, m !! i = Some ci → m !! j = Some cj → tc_serial ci = tc_serial cj → i = j;
  sw_denied : ∀ s, serial_path s ∉ fs_denied fs;
  sw_room : map_sum host_weight m ≤ Z.of_nat (fs_room fs)
}.

Definition contents (fs : filesys) (m : store) : gmap Z (list byte) := tc_bytes fs <$> m.
Definition tiers (m : store) : gmap Z MemorySpace := tc_tier <$> m.

Definition store_migrate (id : Z) (dest : MemorySpace) (s : store * filesys) : outcome (store * filesys) :=
  c ← of_option Uncaught (s.1 !! id);
  '(c', fs') ← migrate_to dest s.2 c;
  Ret (<[id := c']> s.1, fs').

Lemma host_weight_nonneg fs c : col_wf fs c → 0 ≤ host_weight c.
Proof. intros H. unfold host_weight. apply col_wf_size in H. destruct (decide _); lia. Qed.

(** Files that are nobody's cold file. *)
Definition not_cold (p : string) : Prop := ∀ s, p ≠ serial_path s.

Record store_step (next : Z) (st st' : store * filesys) : Prop := {
  ss_wf : store_wf next st'.2 st'.1;
  ss_contents : contents st'.2 st'.1 = contents st.2 st.1;
  ss_sizes : tc_size <$> st'.1 = tc_size <$> st.1;
  ss_frame : ∀ p, not_cold p → fs_read st'.2 p = fs_read st.2 p;
  ss_denied : fs_denied st'.2 = fs_denied st.2;
  ss_slack : Z.of_nat (fs_room st.2) - map_sum host_weight st.1 ≤ Z.of_nat (fs_room st'.2) - map_sum host_weight st'.1
}.

Lemma store_step_refl next st : store_wf next st.2 st.1 → store_step next st st.
Proof. by split. Qed.

Lemma store_step_trans next s1 s2 s3 : store_step next s1 s2 → store_step next s2 s3 → store_step next s1 s3.
Proof.
  intros [? H1 H2 H3 H4 L1] [? H5 H6 H7 H8 L2].
  split; [done|congruence|congruence| |congruence|lia]. intros p Hp. by rewrite H7, H3.
Qed.

Lemma col_wf_frame fs fs' c :
  fs_read fs' (cold_path c) = fs_read fs (cold_path c) → col_wf fs c → col_wf fs' c ∧ tc_bytes fs' c = tc_bytes fs c.
Proof. unfold col_wf, tc_bytes. destruct (tc_tier c); try done. by intros ->. Qed.

Lemma store_migrate_spec next id dest m fs c :
  store_wf next fs m → m !! id = Some c → dest = HOST ∨ dest = COLD →
  ∃ c' fs', store_migrate id dest (m, fs) = Ret (<[id := c']> m, fs') ∧
    migrated dest fs c fs' c' ∧ store_step next (m, fs) (<[id := c']> m, fs').
Proof.
  intros [Hcols Hinj Hden Hroom] Hc Hdest. unfold store_migrate. cbn. rewrite Hc. cbn.
  destruct (Hcols id c Hc) as (Hwf & Hid & Hser).
  assert (∀ k x, m !! k = Some x → 0 ≤ host_weight x) as Hpos.
  { intros k x Hx. eapply host_weight_nonneg, Hcols, Hx. }
  destruct (migrate_to_spec dest fs c Hwf Hdest (Hden _)) as (c' & fs' & -> & Hmg).
  { intros -> Ht. pose proof (map_sum_lookup_le host_weight m id c Hpos Hc) as Hle.
    unfold host_weight at 1 in Hle. rewrite decide_True in Hle by done. lia. }
  cbn. exists c', fs'. split; [done|]. split; [done|].
  pose proof Hmg as [Ht Hid' Hsz Hser' Hwf' Hby Hfr Hdn Hrm].
  assert (∀ k x, m !! k = Some x → k ≠ id → fs_read fs' (cold_path x) = fs_read fs (cold_path x)) as Hother.
  { intros k x Hx Hk. apply Hfr. unfold cold_path. intros Heq. apply serial_path_inj in Heq. by eapply Hk, Hinj. }
  assert (Z.of_nat (fs_room fs) - map_sum host_weight m ≤
          Z.of_nat (fs_room fs') - map_sum host_weight (<[id := c']> m)) as Hslack.
  { rewrite (map_sum_update _ _ _ c) by done.
    revert Hrm Hroom. generalize (map_sum host_weight m). intros S. unfold host_weight. rewrite Ht, Hsz.
    destruct Hdest as [->| ->]; unfold col_wf in Hwf; destruct (tc_tier c) eqn:E; try done;
      repeat (destruct (decide _)); try done; lia. }
  split; cbn; [|..|done].
  - split.
    + intros k x. rewrite lookup_insert. destruct (decide (id = k)) as [<-|Hk]; intros Hx.
      * injection Hx as <-. by rewrite Hid', Hser'.
      * destruct (Hcols k x Hx) as (H1 & H2 & H3). split; [|done].
        eapply col_wf_frame; [by eapply Hother|done].
    + assert (∀ k x, <[id := c']> m !! k = Some x → ∃ y, m !! k = Some y ∧ tc_serial x = tc_serial y) as Hold.
      { intros k x. rewrite lookup_insert. destruct (decide (id = k)) as [<-|Hk]; [|eauto].
        intros [= <-]. exists c. by rewrite Hser'. }
      intros i j ci cj (yi & Hyi & ->)%Hold (yj & Hyj & ->)%Hold. by eapply Hinj.
    + by rewrite Hdn.
    + lia.
  - unfold contents. apply map_eq. intros k. rewrite !lookup_fmap.
    destruct (decide (k = id)) as [->|Hk].
    + rewrite lookup_insert_eq, Hc. cbn. by rewrite Hby.
    + rewrite lookup_insert_ne by done. destruct (m !! k) as [x|] eqn:Hx; [|done]. cbn. f_equal.
      apply (col_wf_frame fs fs' x (Hother k x Hx Hk) (proj1 (Hcols k x Hx))).
  - rewrite fmap_insert, Hsz. apply insert_id. by rewrite lookup_fmap, Hc.
  - intros p Hp. apply Hfr, Hp.
  - done.
Qed.

(** ** [MigrationExecutor] *)

Definition apply_decision_to (acc : Z * (store * filesys)) (d : MigrationDecision) :
    outcome (Z * (store * filesys)) :=
  match acc.2.1 !! column_id d with
  | None => Ret acc                                   (* skipped, with a message *)
  | Some _ => s' ← store_migrate (column_id d) (to_ d) acc.2; Ret (acc.1 + 1, s')
  end.

Definition executor_apply (plan : list MigrationDecision) (s : store * filesys) :
    outcome (Z * (store * filesys)) :=
  fold_outcome apply_decision_to plan (0, s).

Lemma executor_spec next plan n m fs t' :
  store_wf next fs m → apply_plan (tiers m) plan = Some t' → Forall (λ d, to_ d ≠ DEVICE) plan →
  ∃ m' fs', fold_outcome apply_decision_to plan (n, (m, fs)) = Ret (n + Z.of_nat (length plan), (m', fs')) ∧
    tiers m' = t' ∧ store_step next (m, fs) (m', fs').
Proof.
  revert n m fs. induction plan as [|d plan IH]; intros n m fs Hwf Hplan Hdev.
  { injection Hplan as <-. exists m, fs. cbn. rewrite Z.add_0_r. split; [done|]. split; [done|].
    by apply store_step_refl. }
  apply Forall_cons in Hdev as [Hd Hdev]. cbn in Hplan. unfold apply_decision in Hplan.
  unfold tiers in Hplan at 1. rewrite lookup_fmap in Hplan.
  destruct (m !! column_id d) as [c|] eqn:Hc; [|done]. cbn in Hplan.
  destruct (decide (tc_tier c = from_ d ∧ _)) as [[Hf Hadj]|]; [|done].
  assert (to_ d = HOST ∨ to_ d = COLD) as Hto.
  { pose proof (proj1 (sw_cols _ _ _ Hwf _ c Hc)) as Hcw. unfold col_wf in Hcw.
    destruct Hadj as [E|E]; rewrite E in *; destruct (tc_tier c); cbn in *; auto; done. }
  destruct (store_migrate_spec next (column_id d) (to_ d) m fs c Hwf Hc Hto) as (c' & fs' & Hm & Hmg & Hst).
  destruct (IH (n + 1) (<[column_id d := c']> m) fs') as (m2 & fs2 & Hr & Ht & Hst2).
  - apply Hst.
  - unfold tiers. rewrite fmap_insert, (mg_tier _ _ _ _ _ Hmg). done.
  - done.
  - exists m2, fs2. split; [|split; [done|by eapply store_step_trans]].
    cbn [fold_outcome]. assert (apply_decision_to (n, (m, fs)) d = Ret (n + 1, (<[column_id d := c']> m, fs'))) as ->.
    { unfold apply_decision_to. cbn. by rewrite Hc, Hm. }
    cbn [mbind outcome_bind]. rewrite Hr. do 2 f_equal. cbn [length]. lia.
Qed.

(** ** Theorems *)

(** Moving a column to memory or to disk keeps its bytes, its size and its
    checksum, leaves every other file alone, and takes the cold file away with
    the column; on a full device the process stops instead of leaving a short
    file. *)
Theorem migrate_preserves_bytes dest fs c :
  col_wf fs c → dest = HOST ∨ dest = COLD → cold_path c ∉ fs_denied fs → tc_tier c ≠ dest →
  (dest = COLD ∧ Z.of_nat (fs_room fs + fs_size fs (cold_path c)) < tc_size c ∧
     migrate_to dest fs c = Crash Aborted) ∨
  ∃ c' fs', migrate_to dest fs c = Ret (c', fs') ∧
    tc_tier c' = dest ∧ tc_size c' = tc_size c ∧ tc_bytes fs' c' = tc_bytes fs c ∧
    checksum fs' c' = checksum fs c ∧ checksum fs c = Ret (byte_sum (tc_bytes fs c)) ∧
    (dest = HOST → fs_read fs' (cold_path c) = None) ∧
    (∀ p, p ≠ cold_path c → fs_read fs' p = fs_read fs p).
Proof.
  intros Hwf Hdest Hden Hne.
  assert (checksum fs c = Ret (byte_sum (tc_bytes fs c))) as Hsum.
  { unfold checksum. by rewrite read_to_host_wf. }
  destruct (decide (dest = COLD ∧ Z.of_nat (fs_room fs + fs_size fs (cold_path c)) < tc_size c)) as [[-> Hr]|Hr].
  { left. split; [done|]. split; [done|]. apply migrate_to_fails; [done|]. right; right.
    split; [done|]. split; [|done]. unfold col_wf in Hwf. by destruct (tc_tier c). }
  right.
  destruct (migrate_to_spec dest fs c Hwf Hdest Hden) as (c' & fs' & Hr' & Hmg).
  { intros -> _. apply not_and_l in Hr as [?|Hr]; [done|lia]. }
  exists c', fs'. split; [done|]. destruct Hmg as [? ? ? ? Hwf' Hb Hfr _ _].
  do 3 (split; [done|]). split; [|split; [done|split; [|done]]].
  - rewrite Hsum. unfold checksum. rewrite read_to_host_wf by done. cbn. by rewrite Hb.
  - intros ->. revert Hr'. unfold migrate_to. rewrite decide_False by congruence.
    rewrite read_to_host_wf by done. cbn. intros [= _ <-]. unfold free_current.
    rewrite decide_True by (unfold col_wf in Hwf; by destruct (tc_tier c)).
    unfold fs_read, fs_remove. cbn. by rewrite lookup_delete_eq.
Qed.

(** C11: The executor carries out a plan that fits the columns completely: every
    decision is applied, the columns end on the tiers the plan says, their
    bytes are unchanged, and no file that is not a cold file is touched. *)
Theorem executor_carries_out_plan next plan m fs t' :
  store_wf next fs m → apply_plan (tiers m) plan = Some t' → Forall (λ d, to_ d ≠ DEVICE) plan →
  ∃ m' fs', executor_apply plan (m, fs) = Ret (Z.of_nat (length plan), (m', fs')) ∧
    tiers m' = t' ∧ contents fs' m' = contents fs m ∧ store_wf next fs' m' ∧
    (∀ p, not_cold p → fs_read fs' p = fs_read fs p).
Proof.
  intros Hwf Hplan Hdev. destruct (executor_spec next plan 0 m fs t' Hwf Hplan Hdev) as (m' & fs' & Hr & Ht & Hst).
  exists m', fs'. unfold executor_apply. rewrite Hr. destruct Hst. by rewrite Z.add_0_l.
Qed.
End tiered_column.

(** A column of three bytes in memory and one of two on disk. *)
Definition two_stored : store :=
  {[ 1 := mkTC 1 3 HOST 0 [Byte.x01; Byte.x02; Byte.x03]; 2 := mkTC 2 2 COLD 1 [] ]}.

Definition two_stored_fs : filesys :=
  mkFS {[ serial_path 7 1 := mkFile [Byte.x04; Byte.x05] 0 ]} 10 ∅.

Lemma two_stored_wf : store_wf 7 2 two_stored_fs two_stored.
Proof.
  assert (∀ id c, two_stored !! id = Some c →
    (id = 1 ∧ c = mkTC 1 3 HOST 0 [Byte.x01; Byte.x02; Byte.x03]) ∨ (id = 2 ∧ c = mkTC 2 2 COLD 1 [])) as Hl.
  { intros id c. unfold two_stored. rewrite lookup_insert.
    destruct (decide (1 = id)) as [<-|]; [intros [= <-]; auto|].
    rewrite lookup_singleton. destruct (decide (2 = id)) as [<-|]; [intros [= <-]; auto|done]. }
  split.
  - intros id c [[-> ->]|[-> ->]]%Hl; (split; [|split; [done|reflexivity]]); [reflexivity|].
    split; [done|]. exists [Byte.x04; Byte.x05]. split; [|done]. vm_compute. reflexivity.
  - intros i j ci cj [[-> ->]|[-> ->]]%Hl [[-> ->]|[-> ->]]%Hl; cbn; congruence.
  - intros s. cbn. set_solver.
  - vm_compute. discriminate.
Qed.

Lemma migrate_preserves_bytes_witness :
  let c := mkTC 1 3 HOST 0 [Byte.x01; Byte.x02; Byte.x03] in
  col_wf 7 two_stored_fs c ∧
  ∃ c' fs', migrate_to 7 COLD two_stored_fs c = Ret (c', fs') ∧
    checksum 7 fs' c' = checksum 7 two_stored_fs c.
Proof.
  intros c. split; [reflexivity|].
  destruct (migrate_preserves_bytes 7 COLD two_stored_fs c eq_refl ltac:(auto) ltac:(cbn; set_solver)
    ltac:(discriminate)) as [(_ & H & _)|(c' & fs' & H1 & _ & _ & _ & H2 & _)].
  - exfalso. revert H. vm_compute. discriminate.
  - eauto.
Defined.

Lemma executor_carries_out_plan_witness :
  let plan := [mkDecision 1 HOST COLD; mkDecision 2 COLD HOST] in
  ∃ m' fs', executor_apply 7 plan (two_stored, two_stored_fs) = Ret (2, (m', fs')) ∧
    contents 7 fs' m' = contents 7 two_stored_fs two_stored.
Proof.
  intros plan.
  destruct (executor_carries_out_plan 7 2 plan two_stored two_stored_fs {[ 1 := COLD; 2 := HOST ]})
    as (m' & fs' & H1 & _ & H2 & _).
  - apply two_stored_wf.
  - vm_compute. reflexivity.
  - repeat constructor; discriminate.
  - eauto.
Defined.
