(* ===== verification/Engine.v ===== *)
(** * Engine: the catalog of analytical columns

    The analytical half of [CPUMockEngine] (compute_mock.cpp): the tiered
    catalog and what describes it (types, names, tables, null masks, string
    dictionaries), the brain that tiers it and the query statistics.  Column
    bytes live in a [store] over the engine's file system; typed views decode
    them. *)

From S2P Require Export TieredColumn Reducers.

(** ** Column bytes as values *)

(** [reinterpret_cast] of a buffer to an array of [w]-byte little-endian words. *)
Definition words (w : nat) (bs : list byte) : list Z :=
  map (λ i, le_combine (take w (drop (w * i) bs))) (seq 0 (length bs / w)).

Definition u32s (bs : list byte) : list Z := words 4 bs.
Definition i64s (bs : list byte) : list Z := map i64 (words 8 bs).
Definition f64s (bs : list byte) : list Z := words 8 bs.

Definition col_values (ty : MatrixType) (bs : list byte) : list Z :=
  match ty with U32 => u32s bs | I64 => i64s bs | F64 => f64s bs end.

(** The bytes of an array of values; doubles are their bit patterns. *)
Definition bytes_of (ty : MatrixType) (vals : list Z) : list byte :=
  concat (map (le_split (type_width ty)) vals).

(** ** State *)

Record Schema := mkSchema {
  col_types_ : gmap Z MatrixType;                       (* absent means U32 *)
  string_columns_ : gmap Z (list string);
  string_dicts_ : gmap Z (list string);
  string_encoders_ : gmap Z (gmap string Z);
  null_masks_ : gmap Z (list Z);
  column_names_ : gmap Z string;
  name_to_id_ : gmap string Z;
  tables_ : gmap string (list Z)
}.

Record Brain := mkBrain {
  tier_mgr_ : TierManager;
  rebalance_every_ : Z;
  scans_since_rebalance_ : Z;
  cold_borrows_ : Z;
  rebalances_ : Z;
  migrations_ : Z
}.

Record QueryStats := mkStats {
  query_count_ : Z;
  total_query_ns_ : Z;
  max_query_ns_ : Z;
  latency_hist_ : list Z
}.

Record Engine := mkEngine {
  catalog_ : store;
  schema_ : Schema;
  brain_ : Brain;
  stats_ : QueryStats;
  max_query_groups_ : Z;
  scan_column_ : list Z;
  scans_ : Z;
  scan_result_sum_ : Z;
  e_fs : filesys;
  e_pid : Z;
  e_serial : Z                                          (* next_serial() *)
}.

Definition set_store (m : store) (fs : filesys) (e : Engine) : Engine :=
  mkEngine m (schema_ e) (brain_ e) (stats_ e) (max_query_groups_ e) (scan_column_ e) (scans_ e)
    (scan_result_sum_ e) fs (e_pid e) (e_serial e).

Definition set_serial (n : Z) (e : Engine) : Engine :=
  mkEngine (catalog_ e) (schema_ e) (brain_ e) (stats_ e) (max_query_groups_ e) (scan_column_ e) (scans_ e)
    (scan_result_sum_ e) (e_fs e) (e_pid e) n.

Definition set_schema (s : Schema) (e : Engine) : Engine :=
  mkEngine (catalog_ e) s (brain_ e) (stats_ e) (max_query_groups_ e) (scan_column_ e) (scans_ e)
    (scan_result_sum_ e) (e_fs e) (e_pid e) (e_serial e).

Definition set_brain (b : Brain) (e : Engine) : Engine :=
  mkEngine (catalog_ e) (schema_ e) b (stats_ e) (max_query_groups_ e) (scan_column_ e) (scans_ e)
    (scan_result_sum_ e) (e_fs e) (e_pid e) (e_serial e).

Definition set_stats (st : QueryStats) (e : Engine) : Engine :=
  mkEngine (catalog_ e) (schema_ e) (brain_ e) st (max_query_groups_ e) (scan_column_ e) (scans_ e)
    (scan_result_sum_ e) (e_fs e) (e_pid e) (e_serial e).

Definition set_scans (n sum : Z) (e : Engine) : Engine :=
  mkEngine (catalog_ e) (schema_ e) (brain_ e) (stats_ e) (max_query_groups_ e) (scan_column_ e) n sum
    (e_fs e) (e_pid e) (e_serial e).

Definition set_tier_mgr (tm : TierManager) (e : Engine) : Engine :=
  let b := brain_ e in
  set_brain (mkBrain tm (rebalance_every_ b) (scans_since_rebalance_ b) (cold_borrows_ b) (rebalances_ b)
    (migrations_ b)) e.

Definition REBALANCE_EVERY : Z := 4.
Definition MAX_QUERY_GROUPS : Z := Z.shiftl 1 28.
Definition LAT_BUCKETS : nat := 40.

(** The constructor: an empty catalog, a one-byte DEVICE budget. *)
Definition new_engine (host_cap : Z) (scan_column : list Z) (fs : filesys) (pid serial : Z) : Engine :=
  mkEngine ∅ (mkSchema ∅ ∅ ∅ ∅ ∅ ∅ ∅ ∅)
    (mkBrain (tm_new (mkCostModel (detect false) false) 1 host_cap) REBALANCE_EVERY 0 0 0 0)
    (mkStats 0 0 0 (replicate LAT_BUCKETS 0)) MAX_QUERY_GROUPS scan_column 0 0 fs pid serial.

Definition set_max_query_groups (n : Z) (e : Engine) : Engine :=
  mkEngine (catalog_ e) (schema_ e) (brain_ e) (stats_ e) n (scan_column_ e) (scans_ e)
    (scan_result_sum_ e) (e_fs e) (e_pid e) (e_serial e).

Definition set_rebalance_interval (n : Z) (e : Engine) : Engine :=
  let b := brain_ e in
  set_brain (mkBrain (tier_mgr_ b) (if n =? 0 then 1 else n) (scans_since_rebalance_ b) (cold_borrows_ b)
    (rebalances_ b) (migrations_ b)) e.

(** ** Lookups *)

Definition catalog_has (id : Z) (e : Engine) : bool :=
  negb (id =? 0) && match catalog_ e !! id with Some _ => true | None => false end.

Definition column_type (id : Z) (e : Engine) : MatrixType :=
  default U32 (col_types_ (schema_ e) !! id).

(** [catalog_.at(id)] *)
Definition catalog_at (id : Z) (e : Engine) : outcome TieredColumn := of_option Uncaught (catalog_ e !! id).

Definition column_rows (id : Z) (e : Engine) : outcome Z :=
  c ← catalog_at id e; Ret (tc_size c / Z.of_nat (type_width (column_type id e))).

Definition column_tier (id : Z) (e : Engine) : outcome MemorySpace := c ← catalog_at id e; Ret (tc_tier c).

Definition column_checksum (id : Z) (e : Engine) : outcome Z :=
  c ← catalog_at id e; checksum (e_pid e) (e_fs e) c.

Definition column_id (name : string) (e : Engine) : Z := default 0 (name_to_id_ (schema_ e) !! name).

Definition column_name (id : Z) (e : Engine) : string := default EmptyString (column_names_ (schema_ e) !! id).

(** ** Registration *)

Definition set_col_type (id : Z) (ty : MatrixType) (s : Schema) : Schema :=
  mkSchema (<[id := ty]> (col_types_ s)) (string_columns_ s) (string_dicts_ s) (string_encoders_ s)
    (null_masks_ s) (column_names_ s) (name_to_id_ s) (tables_ s).

(** The part the three typed loaders share. *)
Definition register (id : Z) (bytes : list byte) (e : Engine) : outcome Engine :=
  _ ← assert_ (negb (id =? 0));
  _ ← assert_ (bool_decide (catalog_ e !! id = None));
  let c := new_column id (e_serial e) bytes in
  Ret (set_tier_mgr (register_column id (tc_size c) HOST (tier_mgr_ (brain_ e)))
         (set_serial (e_serial e + 1) (set_store (<[id := c]> (catalog_ e)) (e_fs e) e))).

Definition load_scan_column (id : Z) (data : list Z) (e : Engine) : outcome Engine :=
  register id (bytes_of U32 data) e.

Definition load_scan_column_i64 (id : Z) (data : list Z) (e : Engine) : outcome Engine :=
  e' ← register id (bytes_of I64 data) e; Ret (set_schema (set_col_type id I64 (schema_ e')) e').

Definition load_scan_column_f64 (id : Z) (data : list Z) (e : Engine) : outcome Engine :=
  e' ← register id (bytes_of F64 data) e; Ret (set_schema (set_col_type id F64 (schema_ e')) e').

(** ** Plain and dictionary-encoded strings *)

Definition set_strings (columns : gmap Z (list string)) (dicts : gmap Z (list string))
    (encoders : gmap Z (gmap string Z)) (s : Schema) : Schema :=
  mkSchema (col_types_ s) columns dicts encoders (null_masks_ s) (column_names_ s) (name_to_id_ s) (tables_ s).

Definition load_string_column (id : Z) (data : list string) (e : Engine) : outcome Engine :=
  _ ← assert_ (negb (id =? 0));
  let s := schema_ e in
  Ret (set_schema (set_strings (<[id := data]> (string_columns_ s)) (string_dicts_ s) (string_encoders_ s) s) e).

Definition string_column_rows (id : Z) (e : Engine) : Z :=
  match string_columns_ (schema_ e) !! id with None => 0 | Some d => Z.of_nat (length d) end.

Definition string_count_where_eq (id : Z) (value : string) (e : Engine) : Z :=
  match string_columns_ (schema_ e) !! id with
  | None => 0
  | Some d => fold_left (λ c s, if String.eqb s value then c + 1 else c) d 0
  end.

Definition string_column_at (id row : Z) (e : Engine) : outcome string :=
  match string_columns_ (schema_ e) !! id with
  | None => Crash AssertFailed
  | Some d => of_option AssertFailed (d !! Z.to_nat row)
  end.

Fixpoint insert_string (x : string) (l : list string) : list string :=
  match l with
  | [] => [x]
  | y :: l' => if String.leb x y then x :: l else y :: insert_string x l'
  end.

(** [std::sort] on strings, then [std::unique]. *)
Definition sort_strings (l : list string) : list string := foldr insert_string [] l.

Fixpoint unique_strings (l : list string) : list string :=
  match l with
  | [] => []
  | x :: l' =>
      match l' with
      | [] => [x]
      | y :: _ => if String.eqb x y then unique_strings l' else x :: unique_strings l'
      end
  end.

Definition dict_of (data : list string) : list string := unique_strings (sort_strings data).

(** [emplace]: the first code of a string stays. *)
Fixpoint encoder_from (c : Z) (dict : list string) (enc : gmap string Z) : gmap string Z :=
  match dict with
  | [] => enc
  | s :: dict' =>
      encoder_from (c + 1) dict' (match enc !! s with Some _ => enc | None => <[s := u32 c]> enc end)
  end.

Definition encoder_of (dict : list string) : gmap string Z := encoder_from 0 dict ∅.

Definition load_string_column_dict (id : Z) (data : list string) (e : Engine) : outcome Engine :=
  _ ← assert_ (negb (id =? 0));
  let dict := dict_of data in
  let enc := encoder_of dict in
  let codes := map (λ s, default 0 (enc !! s)) data in
  e' ← load_scan_column id codes e;
  let s := schema_ e' in
  Ret (set_schema (set_strings (string_columns_ s) (<[id := dict]> (string_dicts_ s))
         (<[id := enc]> (string_encoders_ s)) s) e').

Definition string_dict_size (id : Z) (e : Engine) : Z :=
  match string_dicts_ (schema_ e) !! id with None => 0 | Some d => u32 (Z.of_nat (length d)) end.

Definition string_decode (id code : Z) (e : Engine) : string :=
  match string_dicts_ (schema_ e) !! id with
  | None => EmptyString
  | Some d => default EmptyString (d !! Z.to_nat code)
  end.

Definition string_encode (id : Z) (value : string) (e : Engine) : Z :=
  match string_encoders_ (schema_ e) !! id with
  | None => 0
  | Some enc => match enc !! value with Some c => c | None => u32 (Z.of_nat (size enc)) end
  end.

(** ** Null masks, appends, names and tables *)

Definition set_masks (masks : gmap Z (list Z)) (s : Schema) : Schema :=
  mkSchema (col_types_ s) (string_columns_ s) (string_dicts_ s) (string_encoders_ s) masks
    (column_names_ s) (name_to_id_ s) (tables_ s).

Definition set_column_nulls (id : Z) (is_null : list Z) (e : Engine) : outcome Engine :=
  _ ← assert_ (catalog_has id e);
  rows ← column_rows id e;
  _ ← assert_ (Z.of_nat (length is_null) =? rows);
  Ret (set_schema (set_masks (<[id := is_null]> (null_masks_ (schema_ e))) (schema_ e)) e).

(** ** Borrowing a column to the host *)

Definition count_borrow (e : Engine) : Engine :=
  let b := brain_ e in
  set_brain (mkBrain (tier_mgr_ b) (rebalance_every_ b) (scans_since_rebalance_ b) (u64 (cold_borrows_ b + 1))
    (rebalances_ b) (migrations_ b)) e.

Definition migrate (id : Z) (dest : MemorySpace) : stM Engine unit := λ e,
  '(m, fs) ← store_migrate (e_pid e) id dest (catalog_ e, e_fs e);
  Ret (tt, set_store m fs e).

(** [home = col.tier(); if (home != HOST) { ++cold_borrows_; col.migrate_to(HOST); }] *)
Definition borrow (id : Z) : stM Engine MemorySpace := λ e,
  home ← column_tier id e;
  if decide (home = HOST) then Ret (home, e)
  else '(_, e') ← migrate id HOST (count_borrow e); Ret (home, e').

Definition give_back (id : Z) (home : MemorySpace) : stM Engine unit := λ e,
  if decide (home = HOST) then Ret (tt, e) else migrate id home e.

(** The bytes behind [host_ptr()]; reading through the null pointer is undefined. *)
Definition host_bytes (id : Z) (e : Engine) : outcome (list byte) :=
  c ← catalog_at id e; of_option Undefined (host_ptr c).

(** Borrow a column, compute on its size and bytes, return the borrow. *)
Definition with_host {A} (id : Z) (f : Z → list byte → stM Engine A) : stM Engine A := λ e,
  '(home, e1) ← borrow id e;
  c ← catalog_at id e1;
  bs ← host_bytes id e1;
  '(a, e2) ← f (tc_size c) bs e1;
  '(_, e3) ← give_back id home e2;
  Ret (a, e3).

Definition append_raw (id : Z) (bytes : list byte) (e : Engine) : outcome Engine :=
  '(home, e1) ← borrow id e;
  c ← catalog_at id e1;
  c' ← append_bytes bytes c;
  '(_, e2) ← give_back id home (set_store (<[id := c']> (catalog_ e1)) (e_fs e1) e1);
  Ret (set_tier_mgr (update_bytes id (tc_size c') (tier_mgr_ (brain_ e2))) e2).

(** The three typed appends: the element type must match. *)
Definition append_to_column (ty : MatrixType) (id : Z) (data : list Z) (e : Engine) : outcome Engine :=
  _ ← assert_ (catalog_has id e && bool_decide (column_type id e = ty));
  append_raw id (bytes_of ty data) e.

Definition name_column (id : Z) (name : string) (e : Engine) : outcome Engine :=
  _ ← assert_ (catalog_has id e);
  let s := schema_ e in
  Ret (set_schema (mkSchema (col_types_ s) (string_columns_ s) (string_dicts_ s) (string_encoders_ s)
    (null_masks_ s) (<[id := name]> (column_names_ s)) (<[name := id]> (name_to_id_ s)) (tables_ s)) e).

(** The row counts of the listed columns: [None] when one is unknown. *)
Fixpoint rows_aligned (ids : list Z) (rows : option Z) (e : Engine) : outcome bool :=
  match ids with
  | [] => Ret true
  | id :: ids' =>
      if negb (catalog_has id e) then Ret false
      else
        r ← column_rows id e;
        match rows with
        | None => rows_aligned ids' (Some r) e
        | Some r0 => if r =? r0 then rows_aligned ids' rows e else Ret false
        end
  end.

Definition create_table (name : string) (col_ids : list Z) (e : Engine) : outcome (bool * Engine) :=
  match col_ids with
  | [] => Ret (false, e)
  | _ =>
      ok ← rows_aligned col_ids None e;
      if (ok : bool) then
        let s := schema_ e in
        Ret (true, set_schema (mkSchema (col_types_ s) (string_columns_ s) (string_dicts_ s)
          (string_encoders_ s) (null_masks_ s) (column_names_ s) (name_to_id_ s)
          (<[name := col_ids]> (tables_ s))) e)
      else Ret (false, e)
  end.

Record ColumnInfo := mkInfo { ci_id : Z; ci_name : string; ci_type : MatrixType; ci_rows : Z; ci_tier : MemorySpace }.

Definition column_info (e : Engine) (kv : Z * TieredColumn) : ColumnInfo :=
  mkInfo kv.1 (column_name kv.1 e) (column_type kv.1 e)
    (tc_size kv.2 / Z.of_nat (type_width (column_type kv.1 e))) (tc_tier kv.2).

Definition catalog_columns `{!HashOrder Z} (e : Engine) : list ColumnInfo :=
  map (column_info e) (hash_iter (catalog_ e)).

Definition table_columns (name : string) (e : Engine) : list ColumnInfo :=
  match tables_ (schema_ e) !! name with
  | None => []
  | Some ids =>
      omap (λ id, if catalog_has id e then (λ c, column_info e (id, c)) <$> catalog_ e !! id else None) ids
  end.
