(* ===== verification/EngineQuery.v ===== *)
(** * EngineQuery: aggregate queries over the catalog

    [execute_query], its shared-lock fast path, the scans and grouped
    aggregates they are made of, and the aggregates derived from them (top-N,
    HAVING, AVG, COUNT DISTINCT). *)

From S2P Require Export Engine.

Section query.
Context `{!HashOrder Z}.

(** ** Heat and rebalancing *)

Definition touch (id bytes : Z) : stM Engine unit :=
  modify (λ e, set_tier_mgr (record_access id bytes (tier_mgr_ (brain_ e))) e).

(** [tier_mgr_.record_access(id, catalog_.at(id)->size_bytes())] *)
Definition touch_column (id : Z) : stM Engine unit := λ e,
  c ← catalog_at id e; touch id (tc_size c) e.

Definition maybe_rebalance : stM Engine unit := λ e,
  let b := brain_ e in
  let n := u64 (scans_since_rebalance_ b + 1) in
  if rebalance_every_ b <=? n then
    '(plan, tm) ← rebalance (tier_mgr_ b);
    '(moved, (m, fs)) ← executor_apply (e_pid e) plan (catalog_ e, e_fs e);
    Ret (tt, set_brain (mkBrain tm (rebalance_every_ b) 0 (cold_borrows_ b) (u64 (rebalances_ b + 1))
                          (u64 (migrations_ b + moved))) (set_store m fs e))
  else
    Ret (tt, set_brain (mkBrain (tier_mgr_ b) (rebalance_every_ b) n (cold_borrows_ b) (rebalances_ b)
                          (migrations_ b)) e).

(** How many [w]-byte elements [size] bytes hold. *)
Definition count_of (w : nat) (size : Z) : nat := Z.to_nat (size / Z.of_nat w).

(** ** Scalar scans *)

(** [static_cast<uint64_t>] of a reducer's result: the identity on the unsigned
    and double encodings, the two's complement pattern of a signed one. *)
Definition encode_result (ty : MatrixType) (r : Z) : Z := match ty with I64 => u64 r | _ => r end.

Definition scan_tiered_column (id : Z) (pred : MatrixPredicate) (op : MatrixAggOp) (has_filter : bool) :
    stM Engine Z := λ e,
  match catalog_ e !! id with
  | None => Crash AssertFailed
  | Some c =>
      (_ ← touch id (tc_size c);
       r ← with_host id (λ size bs,
             let n := count_of 4 size in
             lift (if has_filter then matrix_cpu_reduce_pred (u32s bs) n pred op None
                   else matrix_cpu_reduce_all (u32s bs) n op));
       _ ← maybe_rebalance;
       mret r) e
  end.

Definition scan_tiered_column_i64 (id : Z) (pred : MatrixPredicate) (op : MatrixAggOp) (has_filter : bool) :
    stM Engine Z :=
  _ ← touch_column id;
  r ← with_host id (λ size bs,
        let n := count_of 8 size in
        lift (if has_filter then matrix_cpu_reduce_pred_i64 (i64s bs) n pred op None
              else matrix_cpu_reduce_all_i64 (i64s bs) n op));
  _ ← maybe_rebalance;
  mret r.

Definition scan_tiered_column_f64 (id : Z) (pred : MatrixPredicate) (op : MatrixAggOp) (has_filter : bool) :
    stM Engine Z :=
  _ ← touch_column id;
  r ← with_host id (λ size bs,
        let n := count_of 8 size in
        lift (if has_filter then matrix_cpu_reduce_pred_f64 (f64s bs) n pred op None
              else matrix_cpu_reduce_all_f64 (f64s bs) n op));
  _ ← maybe_rebalance;
  mret r.

Definition null_mask_at (id : Z) (e : Engine) : outcome (list Z) :=
  of_option Uncaught (null_masks_ (schema_ e) !! id).

Definition scalar_aggregate_nullable (q : MatrixQuery) : stM Engine Z :=
  let id := value_col q in
  _ ← touch_column id;
  r ← with_host id (λ size bs e,
        nulls ← null_mask_at id e;
        r ← match column_type id e with
            | I64 =>
                let n := count_of 8 size in
                r ← (if has_filter q then matrix_cpu_reduce_pred_i64 (i64s bs) n (pred_i64_of q) (agg q) (Some nulls)
                     else matrix_cpu_reduce_all_i64_nullable (i64s bs) n (agg q) nulls);
                Ret (encode_result I64 r)
            | F64 =>
                let n := count_of 8 size in
                (if has_filter q then matrix_cpu_reduce_pred_f64 (f64s bs) n (pred_f64_of q) (agg q) (Some nulls)
                 else matrix_cpu_reduce_all_f64_nullable (f64s bs) n (agg q) nulls)
            | U32 =>
                let n := count_of 4 size in
                (if has_filter q then matrix_cpu_reduce_pred (u32s bs) n (pred_u32_of q) (agg q) (Some nulls)
                 else matrix_cpu_reduce_all_nullable (u32s bs) n (agg q) nulls)
            end;
        Ret (r, e));
  _ ← maybe_rebalance;
  mret r.

(** ** Grouped aggregates *)

(** The mask of a column, only if it has one entry per row. *)
Definition value_nulls (id : Z) (n : nat) (e : Engine) : option (list Z) :=
  match null_masks_ (schema_ e) !! id with
  | Some m => if (length m =? n)%nat then Some m else None
  | None => None
  end.

Definition same_size (a b : Z) : stM Engine unit := λ e,
  ca ← catalog_at a e; cb ← catalog_at b e;
  _ ← assert_ (tc_size ca =? tc_size cb);
  Ret (tt, e).

(** Key and value on the host together; [f] gets their sizes and bytes. *)
Definition with_two {A} (key_id value_id : Z) (f : Z → list byte → Z → list byte → stM Engine A) :
    stM Engine A :=
  with_host key_id (λ ks kbs, with_host value_id (λ vs vbs, f ks kbs vs vbs)).

Definition grouped_aggregate (key_id value_id G : Z) (op : MatrixAggOp) : stM Engine (list Z) :=
  _ ← lift (assert_ (negb (key_id =? value_id)));
  _ ← same_size key_id value_id;
  _ ← touch_column key_id;
  _ ← touch_column value_id;
  with_two key_id value_id (λ ks kbs vs vbs e,
    let n := count_of 4 ks in
    out ← matrix_cpu_group_reduce (u32s kbs) (u32s vbs) n G op (value_nulls value_id n e);
    Ret (out, e)).

Definition grouped_aggregate_pred (key_id value_id G : Z) (op : MatrixAggOp) (pred : MatrixPredicate) :
    stM Engine (list Z) :=
  _ ← lift (assert_ (negb (key_id =? value_id)));
  _ ← same_size key_id value_id;
  _ ← touch_column key_id;
  _ ← touch_column value_id;
  with_two key_id value_id (λ ks kbs vs vbs e,
    let n := count_of 4 ks in
    out ← matrix_cpu_group_reduce_pred (u32s kbs) (u32s vbs) n G op pred (value_nulls value_id n e);
    Ret (out, e)).

Definition grouped_aggregate_where (key_id value_id G : Z) (op : MatrixAggOp) (threshold : Z) :
    stM Engine (list Z) :=
  grouped_aggregate_pred key_id value_id G op (mkPred GT threshold 0).

Definition grouped_aggregate_i64 (key_id value_id G : Z) (op : MatrixAggOp) (pred : MatrixPredicate)
    (has_filter : bool) : stM Engine (list Z) :=
  _ ← touch_column key_id;
  _ ← touch_column value_id;
  with_two key_id value_id (λ ks kbs vs vbs e,
    let n := count_of 8 vs in
    let nulls := value_nulls value_id n e in
    tmp ← (if has_filter then matrix_cpu_group_reduce_i64_pred (u32s kbs) (i64s vbs) n G op pred nulls
           else matrix_cpu_group_reduce_i64 (u32s kbs) (i64s vbs) n G op nulls);
    Ret (map (encode_result I64) tmp, e)).

Definition grouped_aggregate_f64 (key_id value_id G : Z) (op : MatrixAggOp) (pred : MatrixPredicate)
    (has_filter : bool) : stM Engine (list Z) :=
  _ ← touch_column key_id;
  _ ← touch_column value_id;
  with_two key_id value_id (λ ks kbs vs vbs e,
    let n := count_of 8 vs in
    let nulls := value_nulls value_id n e in
    tmp ← (if has_filter then matrix_cpu_group_reduce_f64_pred (u32s kbs) (f64s vbs) n G op pred nulls
           else matrix_cpu_group_reduce_f64 (u32s kbs) (f64s vbs) n G op nulls);
    Ret (tmp, e)).

(** ** Cross-column filters *)

Definition scalar_cross_filter (q : MatrixQuery) : stM Engine Z :=
  _ ← touch_column (filter_col q);
  _ ← touch_column (value_col q);
  r ← with_two (filter_col q) (value_col q) (λ fs fbs vs vbs e,
        let n := count_of 4 fs in
        let p := pred_u32_of q in
        r ← match column_type (value_col q) e with
            | I64 => r ← matrix_cpu_reduce_filtered_by_i64 (u32s fbs) p (i64s vbs) n (agg q); Ret (encode_result I64 r)
            | F64 => matrix_cpu_reduce_filtered_by_f64 (u32s fbs) p (f64s vbs) n (agg q)
            | U32 => matrix_cpu_reduce_filtered_by (u32s fbs) p (u32s vbs) n (agg q)
            end;
        Ret (r, e));
  _ ← maybe_rebalance;
  mret r.

(** The borrow list of [grouped_cross_filter]: each distinct column once. *)
Fixpoint borrow_distinct (ids : list Z) (borrowed : list (Z * MemorySpace)) : stM Engine (list (Z * MemorySpace)) :=
  match ids with
  | [] => mret borrowed
  | id :: ids' =>
      if existsb (λ b, b.1 =? id) borrowed then borrow_distinct ids' borrowed
      else
        _ ← touch_column id;
        home ← borrow id;
        borrow_distinct ids' (borrowed ++ [(id, home)])
  end.

Fixpoint give_back_all (borrowed : list (Z * MemorySpace)) : stM Engine unit :=
  match borrowed with
  | [] => mret tt
  | (id, home) :: rest => _ ← give_back id home; give_back_all rest
  end.

Definition grouped_cross_reduce (q : MatrixQuery) (e : Engine) : outcome (list Z) :=
  kbs ← host_bytes (key_col q) e;
  fbs ← host_bytes (filter_col q) e;
  vbs ← host_bytes (value_col q) e;
  kc ← catalog_at (key_col q) e;
  let n := count_of 4 (tc_size kc) in
  let p := pred_u32_of q in
  match column_type (value_col q) e with
  | I64 =>
      tmp ← matrix_cpu_group_reduce_filtered_by_i64 (u32s kbs) (u32s fbs) p (i64s vbs) n (num_groups q) (agg q);
      Ret (map (encode_result I64) tmp)
  | F64 => matrix_cpu_group_reduce_filtered_by_f64 (u32s kbs) (u32s fbs) p (f64s vbs) n (num_groups q) (agg q)
  | U32 => matrix_cpu_group_reduce_filtered_by (u32s kbs) (u32s fbs) p (u32s vbs) n (num_groups q) (agg q)
  end.

Definition grouped_cross_filter (q : MatrixQuery) : stM Engine (list Z) :=
  borrowed ← borrow_distinct [value_col q; filter_col q; key_col q] [];
  out ← (λ e, r ← grouped_cross_reduce q e; Ret (r, e));
  _ ← give_back_all (reverse borrowed);
  _ ← maybe_rebalance;
  mret out.

(** ** [execute_query_impl] *)

Definition query_result : Type := MatrixQueryStatus * list Z.

Definition reject (s : MatrixQueryStatus) : stM Engine query_result := mret (s, []).

Definition answer_one (m : stM Engine Z) : stM Engine query_result := r ← m; mret (OK, [r]).
Definition answer (m : stM Engine (list Z)) : stM Engine query_result := r ← m; mret (OK, r).

(** Whether the query filters on another column than it aggregates. *)
Definition cross_column (q : MatrixQuery) : bool :=
  has_filter q && negb (filter_col q =? 0) && negb (filter_col q =? value_col q).

Definition is_u32 (id : Z) (e : Engine) : bool := bool_decide (column_type id e = U32).
Definition has_mask (id : Z) (e : Engine) : bool :=
  match null_masks_ (schema_ e) !! id with Some _ => true | None => false end.

Definition same_rows (a b : Z) (e : Engine) : outcome bool :=
  ra ← column_rows a e; rb ← column_rows b e; Ret (ra =? rb).

(** The checks and the call of a grouped query over a wide (int64 or double)
    value column. *)
Definition grouped_wide (q : MatrixQuery) (run : stM Engine (list Z)) : stM Engine query_result := λ e,
  if catalog_has (key_col q) e && negb (is_u32 (key_col q) e) then reject ERR_UNSUPPORTED_TYPE e
  else if negb (catalog_has (key_col q) e) || (key_col q =? value_col q) || (num_groups q =? 0)
  then reject ERR_INVALID_GROUP e
  else
    aligned ← same_rows (key_col q) (value_col q) e;
    if negb aligned then reject ERR_INVALID_GROUP e
    else if max_query_groups_ e <? num_groups q then reject ERR_TOO_MANY_GROUPS e
    else answer run e.

Definition grouped_narrow (q : MatrixQuery) : stM Engine query_result := λ e,
  if negb (catalog_has (key_col q) e) || (key_col q =? value_col q) || (num_groups q =? 0)
  then reject ERR_INVALID_GROUP e
  else
    kc ← catalog_at (key_col q) e;
    vc ← catalog_at (value_col q) e;
    if negb (tc_size kc =? tc_size vc) then reject ERR_INVALID_GROUP e
    else if negb (is_u32 (key_col q) e) then reject ERR_UNSUPPORTED_TYPE e
    else if max_query_groups_ e <? num_groups q then reject ERR_TOO_MANY_GROUPS e
    else if has_filter q
    then answer (grouped_aggregate_pred (key_col q) (value_col q) (num_groups q) (agg q) (pred_u32_of q)) e
    else answer (grouped_aggregate (key_col q) (value_col q) (num_groups q) (agg q)) e.

Definition cross_scalar (q : MatrixQuery) : stM Engine query_result := λ e,
  if negb (catalog_has (filter_col q) e) || negb (is_u32 (filter_col q) e) then reject ERR_UNSUPPORTED_TYPE e
  else
    aligned ← same_rows (filter_col q) (value_col q) e;
    if negb aligned then reject ERR_INVALID_GROUP e
    else answer_one (scalar_cross_filter q) e.

Definition cross_grouped (q : MatrixQuery) : stM Engine query_result := λ e,
  if negb (catalog_has (key_col q) e) || (key_col q =? value_col q) || (num_groups q =? 0)
  then reject ERR_INVALID_GROUP e
  else if negb (is_u32 (key_col q) e) then reject ERR_UNSUPPORTED_TYPE e
  else if negb (catalog_has (filter_col q) e) || negb (is_u32 (filter_col q) e) then reject ERR_UNSUPPORTED_TYPE e
  else if max_query_groups_ e <? num_groups q then reject ERR_TOO_MANY_GROUPS e
  else
    aligned1 ← same_rows (key_col q) (value_col q) e;
    aligned2 ← same_rows (filter_col q) (value_col q) e;
    if negb aligned1 || negb aligned2 then reject ERR_INVALID_GROUP e
    else answer (grouped_cross_filter q) e.

Definition execute_query_impl (q : MatrixQuery) : stM Engine query_result := λ e,
  let v := value_col q in
  if negb (catalog_has v e) then reject ERR_UNKNOWN_COLUMN e
  else if negb (grouped q) && cross_column q then cross_scalar q e
  else if grouped q && cross_column q then cross_grouped q e
  else
    match column_type v e with
    | I64 =>
        if grouped q
        then grouped_wide q (grouped_aggregate_i64 (key_col q) v (num_groups q) (agg q) (pred_i64_of q) (has_filter q)) e
        else if has_mask v e then answer_one (scalar_aggregate_nullable q) e
        else answer_one (r ← scan_tiered_column_i64 v (pred_i64_of q) (agg q) (has_filter q);
                         mret (encode_result I64 r)) e
    | F64 =>
        if grouped q
        then grouped_wide q (grouped_aggregate_f64 (key_col q) v (num_groups q) (agg q) (pred_f64_of q) (has_filter q)) e
        else if has_mask v e then answer_one (scalar_aggregate_nullable q) e
        else answer_one (scan_tiered_column_f64 v (pred_f64_of q) (agg q) (has_filter q)) e
    | U32 =>
        if grouped q then grouped_narrow q e
        else if has_mask v e then answer_one (scalar_aggregate_nullable q) e
        else answer_one (scan_tiered_column v (pred_u32_of q) (agg q) (has_filter q)) e
    end.

(** ** Latency statistics *)

(** The log2 bucket: [floor(log2(ns + 1))], at most the last one. *)
Fixpoint latency_bucket (fuel : nat) (x : Z) : nat :=
  match fuel with
  | O => 0
  | S f => if 1 <? x then S (latency_bucket f (Z.shiftr x 1)) else 0
  end.

Definition record_query_latency (ns : Z) (e : Engine) : Engine :=
  let st := stats_ e in
  let b := latency_bucket (LAT_BUCKETS - 1) (u64 (ns + 1)) in
  set_stats (mkStats (u64 (query_count_ st + 1)) (u64 (total_query_ns_ st + ns))
               (if max_query_ns_ st <? ns then ns else max_query_ns_ st)
               (alter (λ c, u64 (c + 1)) b (latency_hist_ st))) e.

(** [ns] is what the clock says the query took. *)
Definition execute_query (q : MatrixQuery) (ns : Z) : stM Engine query_result := λ e,
  '(r, e') ← execute_query_impl q e;
  Ret (r, record_query_latency ns e').

(** ** The shared-lock fast path

    It changes no state but the statistics; [None] is [NEEDS_EXCLUSIVE]. *)

Definition host_resident (id : Z) (e : Engine) : bool :=
  match catalog_ e !! id with Some c => bool_decide (tc_tier c = HOST) | None => false end.

Definition shared_scalar_cross (q : MatrixQuery) (vbs : list byte) (n : nat) (e : Engine) : outcome (option (list Z)) :=
  if negb (host_resident (filter_col q) e) || negb (is_u32 (filter_col q) e) then Ret None
  else
    rows ← column_rows (filter_col q) e;
    if negb (rows =? Z.of_nat n) then Ret None
    else
      fbs ← host_bytes (filter_col q) e;
      let p := pred_u32_of q in
      r ← match column_type (value_col q) e with
          | I64 => r ← matrix_cpu_reduce_filtered_by_i64 (u32s fbs) p (i64s vbs) n (agg q); Ret (encode_result I64 r)
          | F64 => matrix_cpu_reduce_filtered_by_f64 (u32s fbs) p (f64s vbs) n (agg q)
          | U32 => matrix_cpu_reduce_filtered_by (u32s fbs) p (u32s vbs) n (agg q)
          end;
      Ret (Some [r]).

Definition shared_grouped (q : MatrixQuery) (vbs : list byte) (n : nat) (e : Engine) : outcome (option (list Z)) :=
  if negb (host_resident (key_col q) e) || (key_col q =? value_col q) || (num_groups q =? 0)
     || (max_query_groups_ e <? num_groups q) || negb (is_u32 (key_col q) e) then Ret None
  else
    rows ← column_rows (key_col q) e;
    if negb (rows =? Z.of_nat n) then Ret None
    else
      kbs ← host_bytes (key_col q) e;
      let G := num_groups q in
      out ← match column_type (value_col q) e with
            | I64 =>
                tmp ← (if has_filter q
                       then matrix_cpu_group_reduce_i64_pred (u32s kbs) (i64s vbs) n G (agg q) (pred_i64_of q) None
                       else matrix_cpu_group_reduce_i64 (u32s kbs) (i64s vbs) n G (agg q) None);
                Ret (map (encode_result I64) tmp)
            | F64 =>
                if has_filter q
                then matrix_cpu_group_reduce_f64_pred (u32s kbs) (f64s vbs) n G (agg q) (pred_f64_of q) None
                else matrix_cpu_group_reduce_f64 (u32s kbs) (f64s vbs) n G (agg q) None
            | U32 =>
                if has_filter q
                then matrix_cpu_group_reduce_pred (u32s kbs) (u32s vbs) n G (agg q) (pred_u32_of q) None
                else matrix_cpu_group_reduce (u32s kbs) (u32s vbs) n G (agg q) None
            end;
      Ret (Some out).

Definition shared_scalar (q : MatrixQuery) (vbs : list byte) (n : nat) (e : Engine) : outcome (option (list Z)) :=
  r ← match column_type (value_col q) e with
      | I64 =>
          r ← (if has_filter q then matrix_cpu_reduce_pred_i64 (i64s vbs) n (pred_i64_of q) (agg q) None
               else matrix_cpu_reduce_all_i64 (i64s vbs) n (agg q));
          Ret (encode_result I64 r)
      | F64 =>
          if has_filter q then matrix_cpu_reduce_pred_f64 (f64s vbs) n (pred_f64_of q) (agg q) None
          else matrix_cpu_reduce_all_f64 (f64s vbs) n (agg q)
      | U32 =>
          if has_filter q then matrix_cpu_reduce_pred (u32s vbs) n (pred_u32_of q) (agg q) None
          else matrix_cpu_reduce_all (u32s vbs) n (agg q)
      end;
  Ret (Some [r]).

Definition execute_query_shared_impl (q : MatrixQuery) (e : Engine) : outcome (option (list Z)) :=
  let v := value_col q in
  if negb (host_resident v e) || has_mask v e then Ret None
  else
    vbs ← host_bytes v e;
    rows ← column_rows v e;
    let n := Z.to_nat rows in
    if negb (grouped q) && cross_column q then shared_scalar_cross q vbs n e
    else if grouped q && cross_column q then Ret None
    else if grouped q then shared_grouped q vbs n e
    else shared_scalar q vbs n e.

Definition execute_query_shared (q : MatrixQuery) (ns : Z) (e : Engine) : outcome (option (list Z) * Engine) :=
  r ← execute_query_shared_impl q e;
  Ret (r, match r with Some _ => record_query_latency ns e | None => e end).

End query.
