(* ===== verification/EngineSpec.v ===== *)
(** * EngineSpec: what a query means, wherever the columns are

    The catalog as a client sees it: a schema and the bytes of every column,
    without tiers, files or heat.  [query_ref] answers a query over this view
    alone; the engine is proved to give the same answer while it borrows,
    returns and rebalances the columns. *)

From S2P Require Export EngineQuery.

(** ** The logical view *)

Record View := mkView {
  v_schema : Schema;
  v_max_groups : Z;
  v_cols : gmap Z (list byte)
}.

Definition view (e : Engine) : View :=
  mkView (schema_ e) (max_query_groups_ e) (contents (e_pid e) (e_fs e) (catalog_ e)).

Definition v_type (v : View) (id : Z) : MatrixType := default U32 (col_types_ (v_schema v) !! id).
Definition v_bytes (v : View) (id : Z) : list byte := default [] (v_cols v !! id).
Definition v_size (v : View) (id : Z) : Z := Z.of_nat (length (v_bytes v id)).
Definition v_has (v : View) (id : Z) : bool :=
  negb (id =? 0) && match v_cols v !! id with Some _ => true | None => false end.
Definition v_rows (v : View) (id : Z) : Z := v_size v id / Z.of_nat (type_width (v_type v id)).
Definition v_mask (v : View) (id : Z) : option (list Z) := null_masks_ (v_schema v) !! id.
Definition v_nulls (v : View) (id : Z) (n : nat) : option (list Z) :=
  match v_mask v id with Some m => if (length m =? n)%nat then Some m else None | None => None end.
Definition v_is_u32 (v : View) (id : Z) : bool := bool_decide (v_type v id = U32).

(** ** Which queries are answered *)

Definition no_group (v : View) (q : MatrixQuery) : bool :=
  negb (v_has v (key_col q)) || (key_col q =? value_col q) || (num_groups q =? 0).

Definition validate_wide (v : View) (q : MatrixQuery) : MatrixQueryStatus :=
  if v_has v (key_col q) && negb (v_is_u32 v (key_col q)) then ERR_UNSUPPORTED_TYPE
  else if no_group v q then ERR_INVALID_GROUP
  else if negb (v_rows v (key_col q) =? v_rows v (value_col q)) then ERR_INVALID_GROUP
  else if v_max_groups v <? num_groups q then ERR_TOO_MANY_GROUPS
  else OK.

Definition validate_narrow (v : View) (q : MatrixQuery) : MatrixQueryStatus :=
  if no_group v q then ERR_INVALID_GROUP
  else if negb (v_size v (key_col q) =? v_size v (value_col q)) then ERR_INVALID_GROUP
  else if negb (v_is_u32 v (key_col q)) then ERR_UNSUPPORTED_TYPE
  else if v_max_groups v <? num_groups q then ERR_TOO_MANY_GROUPS
  else OK.

Definition bad_filter (v : View) (q : MatrixQuery) : bool :=
  negb (v_has v (filter_col q)) || negb (v_is_u32 v (filter_col q)).

Definition validate_cross_scalar (v : View) (q : MatrixQuery) : MatrixQueryStatus :=
  if bad_filter v q then ERR_UNSUPPORTED_TYPE
  else if negb (v_rows v (filter_col q) =? v_rows v (value_col q)) then ERR_INVALID_GROUP
  else OK.

Definition validate_cross_grouped (v : View) (q : MatrixQuery) : MatrixQueryStatus :=
  if no_group v q then ERR_INVALID_GROUP
  else if negb (v_is_u32 v (key_col q)) then ERR_UNSUPPORTED_TYPE
  else if bad_filter v q then ERR_UNSUPPORTED_TYPE
  else if v_max_groups v <? num_groups q then ERR_TOO_MANY_GROUPS
  else if negb (v_rows v (key_col q) =? v_rows v (value_col q))
          || negb (v_rows v (filter_col q) =? v_rows v (value_col q)) then ERR_INVALID_GROUP
  else OK.

Definition validate (v : View) (q : MatrixQuery) : MatrixQueryStatus :=
  if negb (v_has v (value_col q)) then ERR_UNKNOWN_COLUMN
  else if cross_column q then
    (if grouped q then validate_cross_grouped v q else validate_cross_scalar v q)
  else if grouped q then
    (if v_is_u32 v (value_col q) then validate_narrow v q else validate_wide v q)
  else OK.

(** ** What they are answered with *)

Definition v_u32s (v : View) (id : Z) : list Z := u32s (v_bytes v id).
Definition v_i64s (v : View) (id : Z) : list Z := i64s (v_bytes v id).
Definition v_f64s (v : View) (id : Z) : list Z := f64s (v_bytes v id).
Definition v_count (w : nat) (v : View) (id : Z) : nat := count_of w (v_size v id).

Definition scalar_masked (v : View) (q : MatrixQuery) (nulls : list Z) : outcome Z :=
  let id := value_col q in
  match v_type v id with
  | I64 =>
      r ← (if has_filter q
           then matrix_cpu_reduce_pred_i64 (v_i64s v id) (v_count 8 v id) (pred_i64_of q) (agg q) (Some nulls)
           else matrix_cpu_reduce_all_i64_nullable (v_i64s v id) (v_count 8 v id) (agg q) nulls);
      Ret (encode_result I64 r)
  | F64 =>
      if has_filter q
      then matrix_cpu_reduce_pred_f64 (v_f64s v id) (v_count 8 v id) (pred_f64_of q) (agg q) (Some nulls)
      else matrix_cpu_reduce_all_f64_nullable (v_f64s v id) (v_count 8 v id) (agg q) nulls
  | U32 =>
      if has_filter q
      then matrix_cpu_reduce_pred (v_u32s v id) (v_count 4 v id) (pred_u32_of q) (agg q) (Some nulls)
      else matrix_cpu_reduce_all_nullable (v_u32s v id) (v_count 4 v id) (agg q) nulls
  end.

Definition scalar_plain (v : View) (q : MatrixQuery) : outcome Z :=
  let id := value_col q in
  match v_type v id with
  | I64 =>
      r ← (if has_filter q
           then matrix_cpu_reduce_pred_i64 (v_i64s v id) (v_count 8 v id) (pred_i64_of q) (agg q) None
           else matrix_cpu_reduce_all_i64 (v_i64s v id) (v_count 8 v id) (agg q));
      Ret (encode_result I64 r)
  | F64 =>
      if has_filter q
      then matrix_cpu_reduce_pred_f64 (v_f64s v id) (v_count 8 v id) (pred_f64_of q) (agg q) None
      else matrix_cpu_reduce_all_f64 (v_f64s v id) (v_count 8 v id) (agg q)
  | U32 =>
      if has_filter q
      then matrix_cpu_reduce_pred (v_u32s v id) (v_count 4 v id) (pred_u32_of q) (agg q) None
      else matrix_cpu_reduce_all (v_u32s v id) (v_count 4 v id) (agg q)
  end.

Definition scalar_filtered_by (v : View) (q : MatrixQuery) : outcome Z :=
  let id := value_col q in
  let n := v_count 4 v (filter_col q) in
  let filter := v_u32s v (filter_col q) in
  let p := pred_u32_of q in
  match v_type v id with
  | I64 => r ← matrix_cpu_reduce_filtered_by_i64 filter p (v_i64s v id) n (agg q); Ret (encode_result I64 r)
  | F64 => matrix_cpu_reduce_filtered_by_f64 filter p (v_f64s v id) n (agg q)
  | U32 => matrix_cpu_reduce_filtered_by filter p (v_u32s v id) n (agg q)
  end.

Definition grouped_plain (v : View) (q : MatrixQuery) : outcome (list Z) :=
  let id := value_col q in
  let keys := v_u32s v (key_col q) in
  let G := num_groups q in
  match v_type v id with
  | I64 =>
      let n := v_count 8 v id in
      tmp ← (if has_filter q
             then matrix_cpu_group_reduce_i64_pred keys (v_i64s v id) n G (agg q) (pred_i64_of q) (v_nulls v id n)
             else matrix_cpu_group_reduce_i64 keys (v_i64s v id) n G (agg q) (v_nulls v id n));
      Ret (map (encode_result I64) tmp)
  | F64 =>
      let n := v_count 8 v id in
      if has_filter q
      then matrix_cpu_group_reduce_f64_pred keys (v_f64s v id) n G (agg q) (pred_f64_of q) (v_nulls v id n)
      else matrix_cpu_group_reduce_f64 keys (v_f64s v id) n G (agg q) (v_nulls v id n)
  | U32 =>
      let n := v_count 4 v (key_col q) in
      if has_filter q
      then matrix_cpu_group_reduce_pred keys (v_u32s v id) n G (agg q) (pred_u32_of q) (v_nulls v id n)
      else matrix_cpu_group_reduce keys (v_u32s v id) n G (agg q) (v_nulls v id n)
  end.

Definition grouped_filtered_by (v : View) (q : MatrixQuery) : outcome (list Z) :=
  let id := value_col q in
  let n := v_count 4 v (key_col q) in
  let keys := v_u32s v (key_col q) in
  let filter := v_u32s v (filter_col q) in
  let p := pred_u32_of q in
  let G := num_groups q in
  match v_type v id with
  | I64 =>
      tmp ← matrix_cpu_group_reduce_filtered_by_i64 keys filter p (v_i64s v id) n G (agg q);
      Ret (map (encode_result I64) tmp)
  | F64 => matrix_cpu_group_reduce_filtered_by_f64 keys filter p (v_f64s v id) n G (agg q)
  | U32 => matrix_cpu_group_reduce_filtered_by keys filter p (v_u32s v id) n G (agg q)
  end.

Definition one (m : outcome Z) : outcome (list Z) := r ← m; Ret [r].

Definition compute (v : View) (q : MatrixQuery) : outcome (list Z) :=
  if cross_column q then
    (if grouped q then grouped_filtered_by v q else one (scalar_filtered_by v q))
  else if grouped q then grouped_plain v q
  else one (match v_mask v (value_col q) with
            | Some nulls => scalar_masked v q nulls
            | None => scalar_plain v q
            end).

Definition query_ref (v : View) (q : MatrixQuery) : outcome query_result :=
  match validate v q with
  | OK => out ← compute v q; Ret (OK, out)
  | s => Ret (s, [])
  end.
