(* ===== verification/EngineTiering.v ===== *)
(** * EngineTiering: borrowing, heat and rebalancing never change an answer

    The invariant of the engine, a relation between a query step and a
    computation over the logical view, and the proof that [execute_query]
    computes [query_ref] of the view whatever tier its columns are on. *)

From S2P Require Export EngineSpec.

(** ** The invariant *)

Record engine_wf (e : Engine) : Prop := {
  ew_store : store_wf (e_pid e) (e_serial e) (e_fs e) (catalog_ e);
  ew_tiers : c_tier <$> cols (tier_mgr_ (brain_ e)) = tiers (catalog_ e);
  ew_sizes : c_bytes <$> cols (tier_mgr_ (brain_ e)) = tc_size <$> catalog_ e;
  ew_cols : cols_ok (tick (tier_mgr_ (brain_ e))) (cols (tier_mgr_ (brain_ e)));
  ew_tick : 0 ≤ tick (tier_mgr_ (brain_ e));
  ew_cap : device_cap (tier_mgr_ (brain_ e)) = 1;
  ew_whole : map_Forall (λ id c, (Z.of_nat (type_width (column_type id e)) | tc_size c)) (catalog_ e);
  ew_zero : catalog_ e !! 0 = None
}.

(** A column's heat stays in the range of the scan estimate, whether or not
    this query reads it once. *)
Definition accessed (c : Column) : Column :=
  mkColumn (c_id c) (c_bytes c) (c_tier c) (c_heat c) (u64 (c_recent c + c_bytes c)) (c_arrived c).

Definition calm_for (todo : Z → Prop) (m : gmap Z Column) : Prop :=
  map_Forall (λ id c, est_ok (age c) ∧ (todo id → est_ok (age (accessed c)))) m.

Record calm (e : Engine) : Prop := {
  calm_heat : calm_for (λ _, True) (cols (tier_mgr_ (brain_ e)));
  calm_tick : tick (tier_mgr_ (brain_ e)) + 1 < 2 ^ 64
}.

(** ** Steps that only lend columns *)

Record lend_step (e e' : Engine) : Prop := {
  ls_store : store_step (e_pid e) (e_serial e) (catalog_ e, e_fs e) (catalog_ e', e_fs e');
  ls_tiers : tiers (catalog_ e') = tiers (catalog_ e);
  ls_schema : schema_ e' = schema_ e;
  ls_stats : stats_ e' = stats_ e;
  ls_max : max_query_groups_ e' = max_query_groups_ e;
  ls_pid : e_pid e' = e_pid e;
  ls_serial : e_serial e' = e_serial e;
  ls_tm : tier_mgr_ (brain_ e') = tier_mgr_ (brain_ e);
  ls_rebalance : rebalance_every_ (brain_ e') = rebalance_every_ (brain_ e)
}.

Definition store_ok (e : Engine) : Prop := store_wf (e_pid e) (e_serial e) (e_fs e) (catalog_ e).

Lemma lend_step_refl e : store_ok e → lend_step e e.
Proof. intros H. by split. Qed.

Lemma lend_step_trans e1 e2 e3 : lend_step e1 e2 → lend_step e2 e3 → lend_step e1 e3.
Proof.
  intros [S1 T1 ????? ??] [S2 T2 ????? ??]. split; try congruence.
  eapply store_step_trans; [exact S1|]. congruence.
Qed.

Lemma lend_step_ok e e' : lend_step e e' → store_ok e'.
Proof. intros H. unfold store_ok. rewrite (ls_pid _ _ H), (ls_serial _ _ H). apply (ls_store _ _ H). Qed.

Lemma lend_step_view e e' : lend_step e e' → view e' = view e.
Proof.
  intros H. unfold view. rewrite (ls_schema _ _ H), (ls_max _ _ H), (ls_pid _ _ H).
  f_equal. apply (ss_contents _ _ _ _ (ls_store _ _ H)).
Qed.

(** A stateful computation that gives what [ref] gives and only steps by [R]. *)
Definition ran {A} (R : Engine → Engine → Prop) (o : outcome (A * Engine)) (e : Engine) (ref : outcome A) : Prop :=
  match ref with
  | Ret a => ∃ e', o = Ret (a, e') ∧ R e e'
  | Crash f => o = Crash f
  end.

Definition runs {A} (R : Engine → Engine → Prop) (m : stM Engine A) (e : Engine) (ref : outcome A) : Prop :=
  ran R (m e) e ref.

Lemma runs_bind {A B} (R R1 R2 : Engine → Engine → Prop) (m : stM Engine A) (k : A → stM Engine B) e ref kref :
  (∀ e1 e2, R1 e e1 → R2 e1 e2 → R e e2) →
  runs R1 m e ref → (∀ a e1, R1 e e1 → runs R2 (k a) e1 (kref a)) → runs R (m ≫= k) e (ref ≫= kref).
Proof.
  intros HR Hm Hk. unfold runs, ran in Hm. destruct ref as [a|f].
  - destruct Hm as (e1 & Hm & H1). specialize (Hk a e1 H1).
    change (runs R (m ≫= k) e (kref a)). unfold runs, ran in *. rewrite (stM_bind_run m k e a e1 Hm).
    destruct (kref a); [|done]. destruct Hk as (e2 & -> & H2). eauto.
  - unfold runs, ran, mbind, stM_bind. cbn. by rewrite Hm.
Qed.

Lemma runs_pure {A} (f : Engine → outcome A) e ref :
  store_ok e → f e = ref → runs lend_step (λ e, r ← f e; Ret (r, e)) e ref.
Proof.
  intros Hok <-. unfold runs, ran. destruct (f e); [|done]. eexists. split; [done|]. by apply lend_step_refl.
Qed.

(** ** What an engine sees of its view *)

Lemma view_lookup e id c :
  catalog_ e !! id = Some c → v_cols (view e) !! id = Some (tc_bytes (e_pid e) (e_fs e) c).
Proof. intros H. cbn. unfold contents. by rewrite lookup_fmap, H. Qed.

Lemma view_column e id : v_has (view e) id = true → ∃ c, catalog_ e !! id = Some c.
Proof.
  unfold v_has. cbn. unfold contents. rewrite lookup_fmap. destruct (catalog_ e !! id); [eauto|].
  by rewrite andb_false_r.
Qed.

Lemma view_size e id c :
  store_ok e → catalog_ e !! id = Some c → tc_size c = v_size (view e) id.
Proof.
  intros Hok Hc. unfold v_size, v_bytes. rewrite (view_lookup e id c Hc). cbn.
  eapply col_wf_size, (sw_cols _ _ _ _ Hok id c Hc).
Qed.

Lemma view_has e id : catalog_has id e = v_has (view e) id.
Proof. unfold catalog_has, v_has. cbn. unfold contents. rewrite lookup_fmap. by destruct (catalog_ e !! id). Qed.

Lemma view_type e id : column_type id e = v_type (view e) id.
Proof. done. Qed.

Lemma view_rows e id c :
  store_ok e → catalog_ e !! id = Some c → column_rows id e = Ret (v_rows (view e) id).
Proof.
  intros Hok Hc. unfold column_rows, catalog_at. rewrite Hc. cbn.
  by rewrite (view_size e id c Hok Hc).
Qed.

Lemma host_bytes_view e id c :
  store_ok e → catalog_ e !! id = Some c → tc_tier c = HOST → host_bytes id e = Ret (v_bytes (view e) id).
Proof.
  intros Hok Hc Ht. unfold host_bytes, catalog_at. rewrite Hc. cbn. unfold host_ptr. rewrite decide_True by done.
  unfold v_bytes. rewrite (view_lookup e id c Hc). cbn. unfold tc_bytes. by rewrite Ht.
Qed.

(** ** Borrowing *)

Record borrowed (id : Z) (home : MemorySpace) (e e' : Engine) : Prop := {
  bo_store : store_step (e_pid e) (e_serial e) (catalog_ e, e_fs e) (catalog_ e', e_fs e');
  bo_home : tiers (catalog_ e) !! id = Some home;
  bo_tiers : tiers (catalog_ e') = <[id := HOST]> (tiers (catalog_ e));
  bo_schema : schema_ e' = schema_ e;
  bo_stats : stats_ e' = stats_ e;
  bo_max : max_query_groups_ e' = max_query_groups_ e;
  bo_pid : e_pid e' = e_pid e;
  bo_serial : e_serial e' = e_serial e;
  bo_tm : tier_mgr_ (brain_ e') = tier_mgr_ (brain_ e);
  bo_rebalance : rebalance_every_ (brain_ e') = rebalance_every_ (brain_ e)
}.

Lemma tier_home e id c : store_ok e → catalog_ e !! id = Some c → tc_tier c = HOST ∨ tc_tier c = COLD.
Proof.
  intros Hok Hc. pose proof (proj1 (sw_cols _ _ _ _ Hok id c Hc)) as H. unfold col_wf in H.
  destruct (tc_tier c); auto; done.
Qed.

Lemma borrow_spec e id c :
  store_ok e → catalog_ e !! id = Some c →
  ∃ e', borrow id e = Ret (tc_tier c, e') ∧ borrowed id (tc_tier c) e e'.
Proof.
  intros Hok Hc. unfold borrow, column_tier, catalog_at. rewrite Hc. cbn [of_option mbind outcome_bind].
  assert (tiers (catalog_ e) !! id = Some (tc_tier c)) as Hh by (unfold tiers; by rewrite lookup_fmap, Hc).
  destruct (decide (tc_tier c = HOST)) as [Ht|Ht].
  - eexists. split; [done|]. split; try done.
    symmetry. apply insert_id. by rewrite Hh, Ht.
  - destruct (store_migrate_spec (e_pid e) (e_serial e) id HOST (catalog_ e) (e_fs e) c Hok Hc ltac:(auto))
      as (c' & fs' & Hm & Hmg & Hst).
    unfold migrate. cbn [e_pid catalog_ e_fs count_borrow set_brain]. rewrite Hm. cbn.
    eexists. split; [done|]. split; cbn; try done.
    unfold tiers. by rewrite fmap_insert, (mg_tier _ _ _ _ _ _ Hmg).
Qed.

Lemma borrowed_ok id home e e' : borrowed id home e e' → store_ok e'.
Proof. intros H. unfold store_ok. rewrite (bo_pid _ _ _ _ H), (bo_serial _ _ _ _ H). apply (bo_store _ _ _ _ H). Qed.

Lemma borrowed_view id home e e' : borrowed id home e e' → view e' = view e.
Proof.
  intros H. unfold view. rewrite (bo_schema _ _ _ _ H), (bo_max _ _ _ _ H), (bo_pid _ _ _ _ H).
  f_equal. apply (ss_contents _ _ _ _ (bo_store _ _ _ _ H)).
Qed.

Lemma borrowed_lookup id home e e' :
  borrowed id home e e' → ∃ c', catalog_ e' !! id = Some c' ∧ tc_tier c' = HOST.
Proof.
  intros H. pose proof (bo_tiers _ _ _ _ H) as Ht.
  assert (tiers (catalog_ e') !! id = Some HOST) as H1 by (by rewrite Ht, lookup_insert_eq).
  unfold tiers in H1. rewrite lookup_fmap in H1. destruct (catalog_ e' !! id) as [c'|] eqn:E; [|done].
  injection H1 as <-. eauto.
Qed.

Lemma give_back_spec e0 e1 e2 id home :
  borrowed id home e0 e1 → lend_step e1 e2 → store_ok e0 →
  ∃ e3, give_back id home e2 = Ret (tt, e3) ∧ lend_step e0 e3.
Proof.
  intros Hb Hl Hok0.
  assert (store_step (e_pid e0) (e_serial e0) (catalog_ e0, e_fs e0) (catalog_ e2, e_fs e2)) as H02.
  { eapply store_step_trans; [apply (bo_store _ _ _ _ Hb)|].
    rewrite <- (bo_pid _ _ _ _ Hb), <- (bo_serial _ _ _ _ Hb). apply (ls_store _ _ Hl). }
  assert (tiers (catalog_ e2) = <[id := HOST]> (tiers (catalog_ e0))) as Ht2
    by (by rewrite (ls_tiers _ _ Hl), (bo_tiers _ _ _ _ Hb)).
  pose proof (bo_home _ _ _ _ Hb) as Hh.
  pose proof Hb as [_ _ _ Bs Bt Bm Bp Bn Bk Br]. pose proof Hl as [_ _ Ls Lt Lm Lp Ln Lk Lr].
  unfold give_back. destruct (decide (home = HOST)) as [->|Hne].
  - eexists. split; [done|]. split; try congruence. by rewrite Ht2, insert_id.
  - assert (tiers (catalog_ e2) !! id = Some HOST) as Hid by (by rewrite Ht2, lookup_insert_eq).
    unfold tiers in Hid. rewrite lookup_fmap in Hid. destruct (catalog_ e2 !! id) as [c2|] eqn:Hc2; [|done].
    assert (home = HOST ∨ home = COLD) as Hd.
    { unfold tiers in Hh. rewrite lookup_fmap in Hh. destruct (catalog_ e0 !! id) as [c0|] eqn:Hc0; [|done].
      injection Hh as <-. by eapply tier_home. }
    assert (e_pid e2 = e_pid e0) as Hp by congruence. assert (e_serial e2 = e_serial e0) as Hs by congruence.
    destruct (store_migrate_spec (e_pid e0) (e_serial e0) id home (catalog_ e2) (e_fs e2) c2)
      as (c' & fs' & Hm & Hmg & Hst); [apply H02|done|done|].
    unfold migrate. rewrite Hp, Hm. cbn. eexists. split; [done|].
    split; cbn; try congruence; [by eapply store_step_trans|].
    transitivity (<[id := home]> (tiers (catalog_ e2))).
    { unfold tiers. by rewrite fmap_insert, (mg_tier _ _ _ _ _ _ Hmg). }
    rewrite Ht2, insert_insert_eq. by apply insert_id.
Qed.

(** A borrowed column is read as its logical bytes, and goes home. *)
Lemma with_host_runs {A} id (f : Z → list byte → stM Engine A) e ref :
  store_ok e → v_has (view e) id = true →
  (∀ e1, store_ok e1 → view e1 = view e →
     runs lend_step (f (v_size (view e) id) (v_bytes (view e) id)) e1 ref) →
  runs lend_step (with_host id f) e ref.
Proof.
  intros Hok [c Hc]%view_column Hf. destruct (borrow_spec e id c Hok Hc) as (e1 & Hb & Hbo).
  destruct (borrowed_lookup _ _ _ _ Hbo) as (c1 & Hc1 & Ht1).
  pose proof (borrowed_ok _ _ _ _ Hbo) as Hok1. pose proof (borrowed_view _ _ _ _ Hbo) as Hv.
  specialize (Hf e1 Hok1 Hv).
  assert (with_host id f e = '(a, e2) ← f (v_size (view e) id) (v_bytes (view e) id) e1;
    '(_, e3) ← give_back id (tc_tier c) e2; Ret (a, e3)) as Hrun.
  { unfold with_host. rewrite Hb. cbn [mbind outcome_bind]. unfold catalog_at. rewrite Hc1. cbn [of_option mbind outcome_bind].
    rewrite (host_bytes_view e1 id c1 Hok1 Hc1 Ht1). cbn [mbind outcome_bind].
    by rewrite (view_size e1 id c1 Hok1 Hc1), Hv. }
  unfold runs, ran in *. rewrite Hrun. destruct ref as [a|k]; [|by rewrite Hf].
  destruct Hf as (e2 & -> & Hl). cbn [mbind outcome_bind].
  destruct (give_back_spec _ _ _ _ _ Hbo Hl Hok) as (e3 & -> & H3). cbn. eauto.
Qed.

(** Two columns on the host together. *)
Lemma with_two_runs {A} a b (f : Z → list byte → Z → list byte → stM Engine A) e ref :
  store_ok e → v_has (view e) a = true → v_has (view e) b = true →
  (∀ e1, store_ok e1 → view e1 = view e →
     runs lend_step (f (v_size (view e) a) (v_bytes (view e) a) (v_size (view e) b) (v_bytes (view e) b)) e1 ref) →
  runs lend_step (with_two a b f) e ref.
Proof.
  intros Hok Ha Hb Hf. unfold with_two. apply with_host_runs; [done|done|].
  intros e1 Hok1 Hv1. apply with_host_runs; [done|by rewrite Hv1|].
  intros e2 Hok2 Hv2. rewrite Hv1. apply Hf; [done|congruence].
Qed.

(** ** Heat *)

Record ready (todo : Z → Prop) (e : Engine) : Prop := {
  rd_wf : engine_wf e;
  rd_calm : calm_for todo (cols (tier_mgr_ (brain_ e)));
  rd_tick : tick (tier_mgr_ (brain_ e)) + 1 < 2 ^ 64
}.

Lemma calm_ready e : engine_wf e → calm e → ready (λ _, True) e.
Proof. by intros H [??]. Qed.

(** A step inside a query: what is seen of the catalog does not change. *)
Record query_step (todo : Z → Prop) (e e' : Engine) : Prop := {
  qs_ready : ready todo e';
  qs_view : view e' = view e;
  qs_stats : stats_ e' = stats_ e
}.

(** The invariant only looks at the columns, their types and the books. *)
Lemma same_columns_wf e e' :
  engine_wf e → store_ok e' → tiers (catalog_ e') = tiers (catalog_ e) →
  tc_size <$> catalog_ e' = tc_size <$> catalog_ e → col_types_ (schema_ e') = col_types_ (schema_ e) →
  tier_mgr_ (brain_ e') = tier_mgr_ (brain_ e) → engine_wf e'.
Proof.
  intros [Hs Ht Hz Hc Hk Hd Hw H0] Hok Lt Hsz Lh Lk.
  split; rewrite ?Lk, ?Lt; try done.
  - by rewrite Hz, Hsz.
  - intros id c Hid. apply (f_equal (lookup id)) in Hsz. rewrite !lookup_fmap, Hid in Hsz.
    destruct (catalog_ e !! id) as [c0|] eqn:Hc0; [|done]. injection Hsz as ->.
    unfold column_type. rewrite Lh. by apply (Hw id c0).
  - apply (f_equal (lookup 0)) in Hsz. rewrite !lookup_fmap, H0 in Hsz. by destruct (catalog_ e' !! 0).
Qed.

Lemma lend_wf e e' : engine_wf e → lend_step e e' → engine_wf e'.
Proof.
  intros Hwf Hl. apply (same_columns_wf e); try done.
  - by apply (lend_step_ok e).
  - apply (ls_tiers _ _ Hl).
  - apply (ss_sizes _ _ _ _ (ls_store _ _ Hl)).
  - by rewrite (ls_schema _ _ Hl).
  - apply (ls_tm _ _ Hl).
Qed.

Lemma lend_ready todo e e' : ready todo e → lend_step e e' → query_step todo e e'.
Proof.
  intros [Hwf Hcalm Htick] Hl. split; [|by apply lend_step_view|by destruct Hl].
  split; [by eapply lend_wf|..]; by rewrite (ls_tm _ _ Hl).
Qed.

Definition touched (id bytes : Z) (e : Engine) : Engine :=
  set_tier_mgr (record_access id bytes (tier_mgr_ (brain_ e))) e.

Lemma books_entry e id c :
  engine_wf e → catalog_ e !! id = Some c →
  ∃ k, cols (tier_mgr_ (brain_ e)) !! id = Some k ∧ c_bytes k = tc_size c ∧ c_tier k = tc_tier c.
Proof.
  intros [_ Ht Hz _ _ _ _ _] Hc.
  apply (f_equal (lookup id)) in Ht. apply (f_equal (lookup id)) in Hz. unfold tiers in Ht.
  rewrite !lookup_fmap, Hc in Ht. rewrite !lookup_fmap, Hc in Hz.
  destruct (cols _ !! id) as [k|]; [|done]. injection Ht as ?. injection Hz as ?. eauto.
Qed.

Lemma record_access_book e id c :
  engine_wf e → catalog_ e !! id = Some c →
  ∃ k, cols (tier_mgr_ (brain_ e)) !! id = Some k ∧
    record_access id (tc_size c) (tier_mgr_ (brain_ e)) =
      set_cols (tier_mgr_ (brain_ e)) (<[id := accessed k]> (cols (tier_mgr_ (brain_ e)))).
Proof.
  intros Hwf Hc. destruct (books_entry e id c Hwf Hc) as (k & Hk & Hb & _). exists k. split; [done|].
  unfold record_access, accessed. by rewrite Hk, Hb.
Qed.

Lemma touched_wf e id c :
  engine_wf e → catalog_ e !! id = Some c → engine_wf (touched id (tc_size c) e).
Proof.
  intros Hwf Hc. destruct (record_access_book e id c Hwf Hc) as (k & Hk & Hra).
  unfold touched. rewrite Hra. pose proof Hwf as [Hs Ht Hz [Hco Htot] Htk Hd Hw H0].
  split; cbn; try done.
  - rewrite fmap_insert. etransitivity; [|exact Ht]. apply insert_id. by rewrite lookup_fmap, Hk.
  - rewrite fmap_insert. etransitivity; [|exact Hz]. apply insert_id. by rewrite lookup_fmap, Hk.
  - split.
    + apply map_Forall_insert_2; [|done]. apply (Hco id k Hk).
    + unfold total_bytes in *. rewrite (map_sum_update _ _ _ k) by done. cbn. lia.
Qed.

Lemma touch_ready (todo : Z → Prop) e id c :
  ready todo e → todo id → catalog_ e !! id = Some c →
  query_step (λ k, todo k ∧ k ≠ id) e (touched id (tc_size c) e).
Proof.
  intros [Hwf Hcalm Htick] Htodo Hc. split; [split; [by apply touched_wf|..]|done|done];
    destruct (record_access_book e id c Hwf Hc) as (k & Hk & Hra); unfold touched; rewrite Hra; cbn; [|done].
  intros j x. rewrite lookup_insert. destruct (decide (id = j)) as [<-|Hne].
  - intros [= <-]. split; [apply (Hcalm id k Hk), Htodo|]. by intros [_ ?].
  - intros Hx. destruct (Hcalm j x Hx) as [? Ha]. split; [done|]. intros [? _]. auto.
Qed.

Lemma touch_runs (todo : Z → Prop) e id :
  ready todo e → todo id → v_has (view e) id = true →
  runs (query_step (λ k, todo k ∧ k ≠ id)) (touch_column id) e (Ret tt).
Proof.
  intros Hr Htodo [c Hc]%view_column. eexists. split; [|by eapply touch_ready].
  unfold touch_column, catalog_at, touch, modify. by rewrite Hc.
Qed.

Section tiering.
Context `{!HashOrder Z}.

(** ** Rebalancing *)

Lemma ready_estimable todo e : ready todo e → tm_ok (tier_mgr_ (brain_ e)) ∧ estimable (tier_mgr_ (brain_ e)).
Proof.
  intros [[_ _ _ Hc Hk _ _ _] Hcalm Htick]. split; [by split|].
  intros id c Hc'. apply (Hcalm id c Hc').
Qed.

Lemma no_device_books e : engine_wf e → no_device (cols (tier_mgr_ (brain_ e))).
Proof.
  intros [Hs Ht _ _ _ _ _ _] id k Hk. apply (f_equal (lookup id)) in Ht. unfold tiers in Ht.
  rewrite !lookup_fmap, Hk in Ht. destruct (catalog_ e !! id) as [c|] eqn:Hc; [|done]. injection Ht as ->.
  destruct (tier_home e id c Hs Hc) as [-> | ->]; done.
Qed.

Lemma whole_books e :
  engine_wf e → map_Forall (λ _ c, c_bytes c = 0 ∨ 2 ≤ c_bytes c) (cols (tier_mgr_ (brain_ e))).
Proof.
  intros [Hs _ Hz _ _ _ Hw _] id k Hk. apply (f_equal (lookup id)) in Hz.
  rewrite !lookup_fmap, Hk in Hz. destruct (catalog_ e !! id) as [c|] eqn:Hc; [|done]. injection Hz as ->.
  specialize (Hw id c Hc) as [x Hx]. pose proof (col_wf_size _ _ _ (proj1 (sw_cols _ _ _ _ Hs id c Hc))).
  destruct (column_type id e); cbn [type_width] in Hx; lia.
Qed.

(** The books after a pass carry the sizes of the columns. *)
Lemma sizes_after (m m' : gmap Z Column) (sz : gmap Z Z) :
  dom m' = dom m → c_bytes <$> m = sz →
  (∀ id c c', m !! id = Some c → m' !! id = Some c' → c_bytes c' = c_bytes c) → c_bytes <$> m' = sz.
Proof.
  intros Hd <- Hb. apply map_eq. intros id. rewrite !lookup_fmap.
  pose proof (not_elem_of_dom m id) as N. pose proof (not_elem_of_dom m' id) as N'. rewrite Hd in N'.
  destruct (m !! id) as [c|] eqn:E, (m' !! id) as [c'|] eqn:E'; cbn; try done.
  - f_equal. by eapply Hb.
  - exfalso. destruct N' as [_ N']. destruct N as [N _]. specialize (N (N' eq_refl)). done.
  - exfalso. destruct N as [_ N]. destruct N' as [N' _]. specialize (N' (N eq_refl)). done.
Qed.

Record settled_step (e e' : Engine) : Prop := {
  st_wf : engine_wf e';
  st_view : view e' = view e;
  st_stats : stats_ e' = stats_ e
}.

Lemma maybe_rebalance_runs todo e : ready todo e → runs settled_step maybe_rebalance e (Ret tt).
Proof.
  intros Hr. pose proof (ready_estimable _ _ Hr) as [Hok Hest]. pose proof (rd_wf _ _ Hr) as Hwf.
  unfold runs, ran, maybe_rebalance. destruct (rebalance_every_ (brain_ e) <=? u64 (scans_since_rebalance_ (brain_ e) + 1)).
  2:{ eexists. split; [done|]. destruct Hwf. by split. }
  destruct (rebalance_spec _ Hok Hest) as (plan & tm' & Hrun & Hplan & Hdom & Hco & Hsz & _).
  destruct (rebalance_no_device _ Hok Hest (ew_cap _ Hwf) (no_device_books e Hwf) (whole_books e Hwf))
    as (plan2 & tm2 & Hrun2 & Hdev & _).
  rewrite Hrun in Hrun2. injection Hrun2 as <- <-.
  pose proof Hwf as [Hs Ht Hz _ Hk Hd Hw H0]. rewrite Ht in Hplan.
  destruct (executor_spec (e_pid e) (e_serial e) plan 0 (catalog_ e) (e_fs e) _ Hs Hplan Hdev)
    as (m' & fs' & He & Ht' & Hst).
  destruct (rebalance_run _ Hok Hest) as (? & ? & ? & p3 & _ & _ & _ & _ & _ & _ & _ & _ & _ & _ & Hrun3).
  rewrite Hrun in Hrun3. injection Hrun3 as _ ->.
  eexists. split.
  { rewrite Hrun. cbn [mbind outcome_bind]. unfold executor_apply. rewrite He. cbn. done. }
  split; cbn in *; [|unfold view; cbn; f_equal; apply (ss_contents _ _ _ _ Hst)|done].
  split; cbn; try done.
  - apply (ss_wf _ _ _ _ Hst).
  - pose proof (ss_sizes _ _ _ _ Hst) as Hss. cbn in Hss. rewrite <- Hss in Hz. eapply sizes_after; [exact Hdom|exact Hz|].
    intros id c c' H1 H2. apply (Hsz id c c' H1 H2).
  - lia.
  - intros id c Hid. pose proof (ss_sizes _ _ _ _ Hst) as Hsz'. cbn in Hsz'.
    apply (f_equal (lookup id)) in Hsz'. rewrite !lookup_fmap, Hid in Hsz'.
    destruct (catalog_ e !! id) as [c0|] eqn:Hc0; [|done]. injection Hsz' as ->. by apply (Hw id c0).
  - pose proof (ss_sizes _ _ _ _ Hst) as Hsz'. cbn in Hsz'. apply (f_equal (lookup 0)) in Hsz'.
    rewrite !lookup_fmap, H0 in Hsz'. by destruct (m' !! 0).
Qed.

(** ** Putting a query together *)

Lemma settled_from e e1 e2 :
  view e1 = view e → stats_ e1 = stats_ e → settled_step e1 e2 → settled_step e e2.
Proof. intros Hv Hs [? ? ?]. split; [done|congruence..]. Qed.

Lemma runs_touch {B} (todo : Z → Prop) id (k : () → stM Engine B) e ref :
  ready todo e → todo id → v_has (view e) id = true →
  (∀ e1, ready (λ j, todo j ∧ j ≠ id) e1 → view e1 = view e → runs settled_step (k tt) e1 ref) →
  runs settled_step (touch_column id ≫= k) e ref.
Proof.
  intros Hr Ht Hh Hk. apply (runs_bind _ (query_step (λ j, todo j ∧ j ≠ id)) settled_step _ _ _ (Ret tt) (λ _, ref)).
  - intros e1 e2 [_ ? ?]. by apply settled_from.
  - by apply touch_runs.
  - intros [] e1 [? ? ?]. by apply Hk.
Qed.

Lemma runs_lend {A B} todo (m : stM Engine A) (k : A → stM Engine B) e ref kref :
  ready todo e → runs lend_step m e ref →
  (∀ a e1, ready todo e1 → runs settled_step (k a) e1 (kref a)) →
  runs settled_step (m ≫= k) e (ref ≫= kref).
Proof.
  intros Hr Hm Hk. eapply (runs_bind _ lend_step settled_step); [|exact Hm|].
  - intros e1 e2 H1. apply settled_from; [by apply lend_step_view|by destruct H1].
  - intros a e1 Hl. apply Hk. apply (lend_ready todo e e1 Hr Hl).
Qed.

Lemma runs_rebalance {A} todo (r : A) e :
  ready todo e → runs settled_step (_ ← maybe_rebalance; mret r) e (Ret r).
Proof.
  intros Hr. eapply (runs_bind _ settled_step settled_step _ _ _ (Ret tt) (λ _, Ret r)).
  - intros e1 e2 [? ? ?]. by apply settled_from.
  - by eapply maybe_rebalance_runs.
  - intros _ e1 [Hwf _ _]. eexists. split; [done|]. by split.
Qed.

Lemma bind_ret_r {A} (m : outcome A) : (m ≫= λ a, Ret a) = m.
Proof. by destruct m. Qed.

(** Read some columns, compute, then perhaps rebalance. *)
Lemma runs_then_rebalance {A} todo (m : stM Engine A) e ref :
  ready todo e → runs lend_step m e ref →
  runs settled_step (r ← m; _ ← maybe_rebalance; mret r) e ref.
Proof.
  intros Hr Hm. rewrite <- (bind_ret_r ref). eapply runs_lend; [done|done|].
  intros a e1 Hr1. by eapply runs_rebalance.
Qed.

Lemma runs_lend_only {A} todo (m : stM Engine A) e ref :
  ready todo e → runs lend_step m e ref → runs settled_step m e ref.
Proof.
  intros Hr Hm. unfold runs, ran in *. destruct ref as [a|]; [|done]. destruct Hm as (e' & Hm & Hl).
  exists e'. split; [done|]. split; [apply (lend_ready todo e e' Hr Hl)|by apply lend_step_view|by destruct Hl].
Qed.

Lemma runs_lift {A} (m : outcome A) e : store_ok e → runs lend_step (lift m) e m.
Proof. intros H. unfold runs, ran, lift. destruct m; [|done]. eexists. split; [done|]. by apply lend_step_refl. Qed.

Lemma view_schema e e' : view e' = view e → schema_ e' = schema_ e.
Proof. intros H. exact (f_equal v_schema H). Qed.

Lemma runs_eq {A} R (m m' : stM Engine A) e ref : m e = m' e → runs R m' e ref → runs R m e ref.
Proof. unfold runs, ran. by intros ->. Qed.

Lemma ready_ok todo e : ready todo e → store_ok e.
Proof. intros [[? _ _ _ _ _ _ _] _ _]. done. Qed.

(** ** Each kind of scan *)

Lemma scan_u32_runs e id p op (hf : bool) :
  ready (λ _, True) e → v_has (view e) id = true →
  runs settled_step (scan_tiered_column id p op hf) e
    (if hf then matrix_cpu_reduce_pred (v_u32s (view e) id) (v_count 4 (view e) id) p op None
     else matrix_cpu_reduce_all (v_u32s (view e) id) (v_count 4 (view e) id) op).
Proof.
  intros Hr Hh. destruct (view_column e id Hh) as [c Hc].
  eapply (runs_eq _ _ (_ ← touch_column id;
    r ← with_host id (λ size bs,
             let n := count_of 4 size in
             lift (if hf then matrix_cpu_reduce_pred (u32s bs) n p op None
                   else matrix_cpu_reduce_all (u32s bs) n op));
    _ ← maybe_rebalance; mret r)).
  { unfold scan_tiered_column. rewrite Hc. unfold mbind, stM_bind, touch_column, catalog_at. by rewrite Hc. }
  apply (runs_touch _ _ _ _ _ Hr I Hh). intros e1 Hr1 Hv1. apply (runs_then_rebalance _ _ _ _ Hr1).
  apply with_host_runs; [by eapply ready_ok|by rewrite Hv1|]. intros e2 Hok2 Hv2. rewrite Hv1.
  by apply runs_lift.
Qed.

Lemma scan_i64_runs e id p op (hf : bool) :
  ready (λ _, True) e → v_has (view e) id = true →
  runs settled_step (scan_tiered_column_i64 id p op hf) e
    (if hf then matrix_cpu_reduce_pred_i64 (v_i64s (view e) id) (v_count 8 (view e) id) p op None
     else matrix_cpu_reduce_all_i64 (v_i64s (view e) id) (v_count 8 (view e) id) op).
Proof.
  intros Hr Hh. apply (runs_touch _ _ _ _ _ Hr I Hh). intros e1 Hr1 Hv1. apply (runs_then_rebalance _ _ _ _ Hr1).
  apply with_host_runs; [by eapply ready_ok|by rewrite Hv1|]. intros e2 Hok2 Hv2. rewrite Hv1.
  by apply runs_lift.
Qed.

Lemma scan_f64_runs e id p op (hf : bool) :
  ready (λ _, True) e → v_has (view e) id = true →
  runs settled_step (scan_tiered_column_f64 id p op hf) e
    (if hf then matrix_cpu_reduce_pred_f64 (v_f64s (view e) id) (v_count 8 (view e) id) p op None
     else matrix_cpu_reduce_all_f64 (v_f64s (view e) id) (v_count 8 (view e) id) op).
Proof.
  intros Hr Hh. apply (runs_touch _ _ _ _ _ Hr I Hh). intros e1 Hr1 Hv1. apply (runs_then_rebalance _ _ _ _ Hr1).
  apply with_host_runs; [by eapply ready_ok|by rewrite Hv1|]. intros e2 Hok2 Hv2. rewrite Hv1.
  by apply runs_lift.
Qed.

Lemma scan_masked_runs e q nulls :
  ready (λ _, True) e → v_has (view e) (value_col q) = true → v_mask (view e) (value_col q) = Some nulls →
  runs settled_step (scalar_aggregate_nullable q) e (scalar_masked (view e) q nulls).
Proof.
  intros Hr Hh Hm. apply (runs_touch _ _ _ _ _ Hr I Hh). intros e1 Hr1 Hv1. apply (runs_then_rebalance _ _ _ _ Hr1).
  apply with_host_runs; [by eapply ready_ok|by rewrite Hv1|]. intros e2 Hok2 Hv2. rewrite Hv1.
  assert (null_mask_at (value_col q) e2 = Ret nulls) as Hn.
  { unfold null_mask_at. rewrite (view_schema e e2 (eq_trans Hv2 Hv1)). unfold v_mask in Hm. cbn in Hm. by rewrite Hm. }
  assert (column_type (value_col q) e2 = v_type (view e) (value_col q)) as Ht.
  { rewrite view_type. by rewrite Hv2, Hv1. }
  apply (runs_eq _ _ (lift (scalar_masked (view e) q nulls))); [|by apply runs_lift].
  rewrite Hn. cbn [mbind outcome_bind]. by rewrite Ht.
Qed.

(** ** Grouped scans *)

Lemma same_size_runs {B} e a b (k : () → stM Engine B) ref :
  store_ok e → v_has (view e) a = true → v_has (view e) b = true → v_size (view e) a = v_size (view e) b →
  runs settled_step (k tt) e ref → runs settled_step (same_size a b ≫= k) e ref.
Proof.
  intros Hok Ha Hb Hs Hk. destruct (view_column e a Ha) as [ca Hca]. destruct (view_column e b Hb) as [cb Hcb].
  eapply runs_eq; [|exact Hk]. apply stM_bind_run. unfold same_size, catalog_at. rewrite Hca, Hcb. cbn.
  by rewrite (view_size e a ca Hok Hca), (view_size e b cb Hok Hcb), Hs, Z.eqb_refl.
Qed.

Lemma runs_touch_two {B} a b (k : () → stM Engine B) e ref :
  ready (λ _, True) e → a ≠ b → v_has (view e) a = true → v_has (view e) b = true →
  (∀ todo e1, ready todo e1 → view e1 = view e → runs settled_step (k tt) e1 ref) →
  runs settled_step (_ ← touch_column a; touch_column b ≫= k) e ref.
Proof.
  intros Hr Hne Ha Hb Hk. apply (runs_touch _ _ _ _ _ Hr I Ha). intros e1 Hr1 Hv1.
  apply (runs_touch _ _ _ _ _ Hr1); [auto|by rewrite Hv1|]. intros e2 Hr2 Hv2. eapply Hk; [exact Hr2|congruence].
Qed.

Ltac ready_two Hr Hrt Hvt :=
  apply runs_touch_two; [exact Hr|done|done|done|]; intros todo et Hrt Hvt.

(** The body of a grouped scan over two borrowed columns. *)
Lemma with_two_lift {A} todo a b (f : Z → list byte → Z → list byte → stM Engine A) e ref v :
  ready todo e → view e = v → v_has v a = true → v_has v b = true →
  (∀ e1, view e1 = v → f (v_size v a) (v_bytes v a) (v_size v b) (v_bytes v b) e1 = lift ref e1) →
  runs lend_step (with_two a b f) e ref.
Proof.
  intros Hr <- Ha Hb Hf. apply with_two_runs; [by eapply ready_ok|done|done|].
  intros e1 Hok1 Hv1. eapply runs_eq; [by apply Hf|]. by apply runs_lift.
Qed.

Lemma grouped_narrow_runs e q :
  ready (λ _, True) e → v_type (view e) (value_col q) = U32 → validate_narrow (view e) q = OK →
  v_has (view e) (value_col q) = true →
  runs settled_step
    (if has_filter q
     then grouped_aggregate_pred (key_col q) (value_col q) (num_groups q) (agg q) (pred_u32_of q)
     else grouped_aggregate (key_col q) (value_col q) (num_groups q) (agg q)) e
    (grouped_plain (view e) q).
Proof.
  intros Hr Ht Hval Hv. unfold validate_narrow, no_group in Hval.
  destruct (v_has (view e) (key_col q)) eqn:Hk; [|done].
  destruct (Z.eqb_spec (key_col q) (value_col q)) as [|Hne]; [done|]. cbn in Hval.
  destruct (num_groups q =? 0); [done|].
  destruct (Z.eqb_spec (v_size (view e) (key_col q)) (v_size (view e) (value_col q))) as [Hs|]; [|done].
  unfold grouped_plain. rewrite Ht.
  destruct (has_filter q);
    (eapply runs_eq; [apply stM_bind_run; by rewrite (proj2 (Z.eqb_neq _ _) Hne)|]);
    (apply same_size_runs; [by eapply ready_ok|done..|]);
    ready_two Hr Hrt Hvt; apply (runs_lend_only _ _ _ _ Hrt);
    (eapply with_two_lift; [exact Hrt|exact Hvt|done|done|]);
    intros e1 Hv1; rewrite <- Hv1; reflexivity.
Qed.

Lemma no_group_false v q :
  no_group v q = false → v_has v (key_col q) = true ∧ key_col q ≠ value_col q.
Proof.
  unfold no_group. intros [[H1 H2]%orb_false_iff _]%orb_false_iff.
  split; [by destruct (v_has v (key_col q))|by apply Z.eqb_neq].
Qed.

Lemma grouped_i64_runs e q :
  ready (λ _, True) e → v_type (view e) (value_col q) = I64 → no_group (view e) q = false →
  v_has (view e) (value_col q) = true →
  runs settled_step
    (grouped_aggregate_i64 (key_col q) (value_col q) (num_groups q) (agg q) (pred_i64_of q) (has_filter q)) e
    (grouped_plain (view e) q).
Proof.
  intros Hr Ht [Hk Hne]%no_group_false Hv. unfold grouped_plain. rewrite Ht.
  ready_two Hr Hrt Hvt. apply (runs_lend_only _ _ _ _ Hrt).
  eapply with_two_lift; [exact Hrt|exact Hvt|done|done|].
  intros e1 Hv1. rewrite <- Hv1. unfold lift. cbv zeta.
  change (value_nulls (value_col q) ?n e1) with (v_nulls (view e1) (value_col q) n).
  change (count_of 8 (v_size (view e1) (value_col q))) with (v_count 8 (view e1) (value_col q)).
  unfold v_u32s, v_i64s. destruct (has_filter q); by destruct (_ : outcome (list Z)).
Qed.

Lemma grouped_f64_runs e q :
  ready (λ _, True) e → v_type (view e) (value_col q) = F64 → no_group (view e) q = false →
  v_has (view e) (value_col q) = true →
  runs settled_step
    (grouped_aggregate_f64 (key_col q) (value_col q) (num_groups q) (agg q) (pred_f64_of q) (has_filter q)) e
    (grouped_plain (view e) q).
Proof.
  intros Hr Ht [Hk Hne]%no_group_false Hv. unfold grouped_plain. rewrite Ht.
  ready_two Hr Hrt Hvt. apply (runs_lend_only _ _ _ _ Hrt).
  eapply with_two_lift; [exact Hrt|exact Hvt|done|done|].
  intros e1 Hv1. rewrite <- Hv1. unfold lift. cbv zeta.
  change (value_nulls (value_col q) ?n e1) with (v_nulls (view e1) (value_col q) n).
  change (count_of 8 (v_size (view e1) (value_col q))) with (v_count 8 (view e1) (value_col q)).
  unfold v_u32s, v_f64s. destruct (has_filter q); by destruct (_ : outcome (list Z)).
Qed.

(** ** Cross-column filters *)

Lemma cross_scalar_runs e q :
  ready (λ _, True) e → filter_col q ≠ value_col q →
  v_has (view e) (filter_col q) = true → v_has (view e) (value_col q) = true →
  runs settled_step (scalar_cross_filter q) e (scalar_filtered_by (view e) q).
Proof.
  intros Hr Hne Hf Hv. ready_two Hr Hrt Hvt. apply (runs_then_rebalance _ _ _ _ Hrt).
  eapply with_two_lift; [exact Hrt|exact Hvt|done|done|].
  intros e1 Hv1. rewrite <- Hv1. reflexivity.
Qed.

(** *** Several columns lent at once *)

(** [lent et hs e]: [e] is [et] with the columns of [hs] on loan, the last
    borrowed first. *)
Inductive lent (et : Engine) : list (Z * MemorySpace) → Engine → Prop :=
  | lent_nil e : lend_step et e → lent et [] e
  | lent_cons id home hs e e' :
      lent et hs e → borrowed id home e e' → lent et ((id, home) :: hs) e'.

Lemma lent_view et hs e : lent et hs e → store_ok e ∧ view e = view et.
Proof.
  induction 1 as [e Hl|id home hs e e' _ [IHok IHv] Hb].
  - split; [by eapply lend_step_ok|by apply lend_step_view].
  - split; [by eapply borrowed_ok|]. rewrite <- IHv. by eapply borrowed_view.
Qed.

Lemma lend_step_touched id b e e' : lend_step e e' → lend_step (touched id b e) (touched id b e').
Proof. intros [????? ?? H ?]. split; cbn; try done. by rewrite H. Qed.

Lemma lent_touched id b et hs e : lent et hs e → lent (touched id b et) hs (touched id b e).
Proof.
  induction 1 as [e Hl|k home hs e e' _ IH Hb]; [by constructor; apply lend_step_touched|].
  econstructor; [exact IH|]. destruct Hb as [????? ??? H ?]. split; cbn; try done. by rewrite H.
Qed.

Lemma lent_on_host et hs e id c :
  lent et hs e → id ∈ hs.*1 → catalog_ e !! id = Some c → tc_tier c = HOST.
Proof.
  intros Hl. revert c. induction Hl as [|k home hs e e' _ IH Hb]; intros c Hin Hc; [by apply elem_of_nil in Hin|].
  pose proof (f_equal (lookup id) (bo_tiers _ _ _ _ Hb)) as Ht. unfold tiers in Ht.
  rewrite lookup_insert, !lookup_fmap, Hc in Ht. destruct (decide (k = id)); [by injection Ht as ->|].
  apply elem_of_cons in Hin as [?|Hin]; [by subst|].
  destruct (catalog_ e !! id) as [c0|]; [|done]. injection Ht as ->. by apply IH.
Qed.

Lemma lent_bytes et hs e id :
  lent et hs e → id ∈ hs.*1 → v_has (view et) id = true → host_bytes id e = Ret (v_bytes (view et) id).
Proof.
  intros Hl Hin Hh. destruct (lent_view _ _ _ Hl) as [Hok Hv]. rewrite <- Hv in *.
  destruct (view_column e id Hh) as [c Hc]. eapply host_bytes_view; [done|exact Hc|]. by eapply lent_on_host.
Qed.

Lemma give_back_all_spec et hs e e' :
  store_ok et → lent et hs e → lend_step e e' →
  ∃ e3, give_back_all hs e' = Ret (tt, e3) ∧ lend_step et e3.
Proof.
  intros Hok Hl. revert e'. induction Hl as [e Hl|id home hs e e1 Hl IH Hb]; intros e' He'.
  - exists e'. split; [done|]. by eapply lend_step_trans.
  - destruct (give_back_spec _ _ _ _ _ Hb He' (proj1 (lent_view _ _ _ Hl))) as (e2 & Hg & H2).
    destruct (IH e2 H2) as (e3 & Hg3 & H3). exists e3. split; [|done].
    cbn. unfold mbind, stM_bind. by rewrite Hg.
Qed.

(** Touching and borrowing one more column. *)
Lemma lent_touch_borrow (todo : Z → Prop) et hs e id :
  ready todo et → todo id → lent et hs e → v_has (view et) id = true →
  ∃ home et' e1 e2, touch_column id e = Ret (tt, e1) ∧ borrow id e1 = Ret (home, e2) ∧
    ready (λ j, todo j ∧ j ≠ id) et' ∧ view et' = view et ∧ stats_ et' = stats_ et ∧
    lent et' ((id, home) :: hs) e2.
Proof.
  intros Hr Htodo Hl Hh. destruct (lent_view _ _ _ Hl) as [Hok Hv].
  destruct (view_column et id Hh) as [ct Hct]. rewrite <- Hv in Hh. destruct (view_column e id Hh) as [c Hc].
  pose proof (view_size e id c Hok Hc) as Hsz.
  pose proof (view_size et id ct (ready_ok _ _ Hr) Hct) as Hszt.
  pose proof (lent_touched id (tc_size c) _ _ _ Hl) as Hl1.
  destruct (borrow_spec (touched id (tc_size c) e) id c) as (e2 & Hb & Hbo);
    [apply (proj1 (lent_view _ _ _ Hl1))|done|].
  exists (tc_tier c), (touched id (tc_size c) et), (touched id (tc_size c) e), e2.
  split; [unfold touch_column, catalog_at; by rewrite Hc|]. split; [done|].
  pose proof (touch_ready todo et id ct Hr Htodo Hct) as Ht.
  replace (tc_size ct) with (tc_size c) in Ht by congruence. destruct Ht as [H1 H2 H3].
  repeat (split; [done|]). by econstructor.
Qed.

Lemma borrow_distinct_spec ids hs (todo : Z → Prop) et e :
  ready todo et → lent et hs e →
  (∀ id, id ∈ ids → v_has (view et) id = true) → (∀ id, id ∉ hs.*1 → todo id) →
  ∃ hs' et' todo' e', borrow_distinct ids (reverse hs) e = Ret (reverse hs', e') ∧
    ready todo' et' ∧ view et' = view et ∧ stats_ et' = stats_ et ∧ lent et' hs' e' ∧
    (∀ id, id ∈ ids ∨ id ∈ hs.*1 → id ∈ hs'.*1).
Proof.
  revert hs todo et e. induction ids as [|id ids IH]; intros hs todo et e Hr Hl Hh Ht.
  { exists hs, et, todo, e. repeat (split; [done|]). set_solver. }
  cbn [borrow_distinct]. destruct (existsb _ _) eqn:Hex.
  - destruct (IH hs todo et e Hr Hl ltac:(set_solver) Ht) as (hs' & et' & todo' & e' & H1 & H2 & H3 & H4 & H5 & H6).
    exists hs', et', todo', e'. repeat (split; [done|]). intros k [[->|?]%elem_of_cons|?]; [|auto..].
    apply H6. right. apply existsb_exists in Hex as ([k home] & Hin%list_elem_of_In & Heq%Z.eqb_eq). cbn in Heq.
    apply list_elem_of_fmap. exists (k, home). split; [done|]. by rewrite elem_of_reverse in Hin.
  - assert (id ∉ hs.*1) as Hnin.
    { intros ([k home] & -> & Hin)%list_elem_of_fmap. apply not_true_iff_false in Hex. apply Hex, existsb_exists.
      exists (k, home). split; [apply list_elem_of_In; by rewrite elem_of_reverse|apply Z.eqb_refl]. }
    destruct (lent_touch_borrow todo et hs e id Hr (Ht id Hnin) Hl (Hh id ltac:(set_solver)))
      as (home & et1 & e1 & e2 & Hto & Hb & Hr1 & Hv1 & Hs1 & Hl1).
    destruct (IH ((id, home) :: hs) _ et1 e2 Hr1 Hl1) as (hs' & et' & todo' & e' & H1 & H2 & H3 & H4 & H5 & H6).
    { intros k Hk. rewrite Hv1. apply Hh. set_solver. }
    { intros k Hk. cbn in Hk. split; [apply Ht; set_solver|set_solver]. }
    exists hs', et', todo', e'.
    split. { rewrite <- H1, reverse_cons. unfold mbind, stM_bind. rewrite Hto, Hb. done. }
    split; [done|]. split; [congruence|]. split; [congruence|]. split; [done|].
    intros k [[->|?]%elem_of_cons|?]; apply H6; cbn; set_solver.
Qed.

Lemma cross_grouped_runs e q :
  ready (λ _, True) e →
  v_has (view e) (key_col q) = true → v_has (view e) (filter_col q) = true → v_has (view e) (value_col q) = true →
  runs settled_step (grouped_cross_filter q) e (grouped_filtered_by (view e) q).
Proof.
  intros Hr Hk Hf Hv. unfold grouped_cross_filter.
  destruct (borrow_distinct_spec [value_col q; filter_col q; key_col q] [] (λ _, True) e e Hr)
    as (hs & et & todo & e1 & Hb & Hrt & Hvt & Hst & Hl & Hin).
  { constructor. apply lend_step_refl. by eapply ready_ok. }
  { intros id. rewrite !elem_of_cons, elem_of_nil. intuition congruence. }
  { done. }
  destruct (lent_view _ _ _ Hl) as [Hok1 Hv1].
  assert (grouped_cross_reduce q e1 = grouped_filtered_by (view e) q) as Hred.
  { assert (∀ id, id ∈ [value_col q; filter_col q; key_col q] → v_has (view e) id = true →
      host_bytes id e1 = Ret (v_bytes (view e) id)) as Hhb.
    { intros id Hid Hhas. rewrite <- Hvt in *. eapply lent_bytes; [exact Hl|auto|done]. }
    unfold grouped_cross_reduce. rewrite !Hhb by (done || set_solver). cbn [mbind outcome_bind].
    rewrite <- Hvt, <- Hv1 in Hk. destruct (view_column e1 _ Hk) as [kc Hkc].
    unfold catalog_at. rewrite Hkc. cbn [of_option mbind outcome_bind].
    rewrite (view_size e1 _ kc Hok1 Hkc), view_type, Hv1, Hvt. done. }
  change (reverse []) with (@nil (Z * MemorySpace)) in Hb.
  unfold runs, ran, mbind, stM_bind. rewrite Hb, Hred, reverse_involutive. destruct (grouped_filtered_by (view e) q) as [out|k]; cbn; [|done].
  destruct (give_back_all_spec _ _ _ e1 (ready_ok _ _ Hrt) Hl (lend_step_refl e1 Hok1)) as (e2 & -> & H2).
  destruct (lend_ready _ _ _ Hrt H2) as [Hr2 Hv2 Hs2].
  destruct (runs_rebalance _ out e2 Hr2) as (e3 & He3 & [Hw3 Hv3 Hs3]).
  exists e3. unfold mbind, stM_bind in He3. split; [exact He3|]. split; [done|congruence..].
Qed.

(** ** A whole query *)

Lemma reject_runs todo e s : ready todo e → runs settled_step (reject s) e (Ret (s, [])).
Proof. intros [Hwf _ _]. eexists. split; [done|]. by split. Qed.

Lemma answer_runs e (m : stM Engine (list Z)) ref :
  runs settled_step m e ref → runs settled_step (answer m) e (out ← ref; Ret (OK, out)).
Proof.
  intros Hm. unfold answer, runs, ran, mbind, stM_bind in *. destruct ref; cbn in *; [|by rewrite Hm].
  destruct Hm as (e' & -> & H). eexists. split; [done|exact H].
Qed.

Lemma answer_one_runs e (m : stM Engine Z) ref :
  runs settled_step m e ref → runs settled_step (answer_one m) e (out ← one ref; Ret (OK, out)).
Proof.
  intros Hm. unfold answer_one, one, runs, ran, mbind, stM_bind in *. destruct ref; cbn in *; [|by rewrite Hm].
  destruct Hm as (e' & -> & H). eexists. split; [done|exact H].
Qed.

Lemma same_rows_view e a b :
  store_ok e → v_has (view e) a = true → v_has (view e) b = true →
  same_rows a b e = Ret (v_rows (view e) a =? v_rows (view e) b).
Proof.
  intros Hok [ca Ha]%view_column [cb Hb]%view_column. unfold same_rows.
  by rewrite (view_rows e a ca), (view_rows e b cb).
Qed.

Lemma cross_scalar_query_runs e q :
  ready (λ _, True) e → v_has (view e) (value_col q) = true →
  cross_column q = true → grouped q = false →
  runs settled_step (cross_scalar q) e (query_ref (view e) q).
Proof.
  intros Hr Hv Hc Hg. unfold query_ref, validate, compute. rewrite Hv, Hc, Hg. cbn.
  unfold validate_cross_scalar, bad_filter, cross_scalar. unfold runs; cbn beta; rewrite view_has.
  change (is_u32 (filter_col q) e) with (v_is_u32 (view e) (filter_col q)).
  destruct (v_has (view e) (filter_col q)) eqn:Hf; [|by eapply reject_runs].
  destruct (v_is_u32 _ _); [|by eapply reject_runs]. cbn [negb orb].
  unfold runs; cbn beta; rewrite (same_rows_view e _ _ (ready_ok _ _ Hr)) by done; cbn [mbind outcome_bind].
  destruct (_ =? _); [|by eapply reject_runs]. cbn [negb]. apply answer_one_runs, cross_scalar_runs; [done| |done|done].
  unfold cross_column in Hc. intros Heq. rewrite Heq, Z.eqb_refl, andb_false_r in Hc. done.
Qed.

Lemma cross_grouped_query_runs e q :
  ready (λ _, True) e → v_has (view e) (value_col q) = true →
  cross_column q = true → grouped q = true →
  runs settled_step (cross_grouped q) e (query_ref (view e) q).
Proof.
  intros Hr Hv Hc Hg. unfold query_ref, validate, compute. rewrite Hv, Hc, Hg. cbn [negb].
  unfold validate_cross_grouped, bad_filter, cross_grouped. unfold runs; cbn beta; rewrite !view_has.
  fold (no_group (view e) q).
  destruct (no_group (view e) q) eqn:Hn; [by eapply reject_runs|]. apply no_group_false in Hn as [Hk _].
  change (is_u32 ?c e) with (v_is_u32 (view e) c).
  destruct (v_is_u32 _ (key_col q)); [|by eapply reject_runs]. cbn [negb].
  destruct (v_has (view e) (filter_col q)) eqn:Hf; [|by eapply reject_runs].
  destruct (v_is_u32 _ _); [|by eapply reject_runs]. cbn [negb orb].
  change (max_query_groups_ e) with (v_max_groups (view e)).
  destruct (_ <? _); [by eapply reject_runs|].
  unfold runs; cbn beta; rewrite !(same_rows_view e _ _ (ready_ok _ _ Hr)) by done; cbn [mbind outcome_bind].
  destruct (_ || _); [by eapply reject_runs|]. by apply answer_runs, cross_grouped_runs.
Qed.

Lemma grouped_narrow_query_runs e q :
  ready (λ _, True) e → v_has (view e) (value_col q) = true → v_type (view e) (value_col q) = U32 →
  cross_column q = false → grouped q = true →
  runs settled_step (grouped_narrow q) e (query_ref (view e) q).
Proof.
  intros Hr Hv Ht Hc Hg. unfold query_ref, validate, compute. rewrite Hv, Hc, Hg.
  unfold v_is_u32 at 1. rewrite Ht, bool_decide_true by done. cbn [negb].
  pose proof (grouped_narrow_runs e q Hr Ht) as Hrun.
  unfold validate_narrow in *. unfold grouped_narrow. unfold runs; cbn beta; rewrite view_has.
  fold (no_group (view e) q).
  destruct (no_group (view e) q) eqn:Hn; [by eapply reject_runs|]. apply no_group_false in Hn as [Hk _].
  destruct (view_column e _ Hk) as [kc Hkc]. destruct (view_column e _ Hv) as [vc Hvc].
  unfold catalog_at. rewrite Hkc, Hvc. cbn [of_option mbind outcome_bind].
  rewrite (view_size e _ kc (ready_ok _ _ Hr) Hkc), (view_size e _ vc (ready_ok _ _ Hr) Hvc).
  change (is_u32 ?c e) with (v_is_u32 (view e) c).
  destruct (_ =? _); [|by eapply reject_runs]. cbn [negb] in *.
  destruct (v_is_u32 _ _); [|by eapply reject_runs]. cbn [negb] in *.
  change (max_query_groups_ e) with (v_max_groups (view e)).
  destruct (_ <? _); [by eapply reject_runs|]. specialize (Hrun eq_refl Hv).
  destruct (has_filter q); by apply answer_runs.
Qed.

Lemma grouped_wide_query_runs e q run :
  ready (λ _, True) e → v_has (view e) (value_col q) = true → v_type (view e) (value_col q) ≠ U32 →
  cross_column q = false → grouped q = true →
  (no_group (view e) q = false → runs settled_step run e (grouped_plain (view e) q)) →
  runs settled_step (grouped_wide q run) e (query_ref (view e) q).
Proof.
  intros Hr Hv Ht Hc Hg Hrun. unfold query_ref, validate, compute. rewrite Hv, Hc, Hg.
  unfold v_is_u32 at 1. rewrite bool_decide_false by done. cbn [negb].
  unfold validate_wide, grouped_wide. unfold runs; cbn beta; rewrite !view_has.
  change (is_u32 ?c e) with (v_is_u32 (view e) c).
  destruct (_ && _); [by eapply reject_runs|]. fold (no_group (view e) q).
  destruct (no_group (view e) q) eqn:Hn; [by eapply reject_runs|].
  destruct (no_group_false _ _ Hn) as [Hk _].
  unfold runs; cbn beta; rewrite !(same_rows_view e _ _ (ready_ok _ _ Hr)) by done; cbn [mbind outcome_bind].
  destruct (_ =? _); [|by eapply reject_runs]. cbn [negb].
  change (max_query_groups_ e) with (v_max_groups (view e)).
  destruct (_ <? _); [by eapply reject_runs|]. by apply answer_runs, Hrun.
Qed.

Lemma scalar_query_runs e q :
  ready (λ _, True) e → v_has (view e) (value_col q) = true → cross_column q = false → grouped q = false →
  runs settled_step (execute_query_impl q) e (query_ref (view e) q).
Proof.
  intros Hr Hv Hc Hg. unfold query_ref, validate, compute. rewrite Hv, Hc, Hg. cbn [negb].
  unfold runs, execute_query_impl. rewrite view_has, Hv, Hc, Hg, view_type. cbn [negb andb].
  pose proof (scan_masked_runs e q) as Hmask. unfold has_mask.
  change (null_masks_ (schema_ e) !! value_col q) with (v_mask (view e) (value_col q)).
  destruct (v_mask (view e) (value_col q)) as [nulls|] eqn:Hm.
  { specialize (Hmask nulls Hr Hv eq_refl). destruct (v_type _ _); by apply answer_one_runs. }
  unfold scalar_plain. destruct (v_type (view e) (value_col q)).
  - apply answer_one_runs. by apply scan_u32_runs.
  - apply answer_one_runs.
    pose proof (scan_i64_runs e (value_col q) (pred_i64_of q) (agg q) (has_filter q) Hr Hv) as H.
    unfold runs, ran, mbind, stM_bind in *. destruct (if has_filter q then _ else _); [|by rewrite H].
    destruct H as (e' & -> & H). eexists. split; [done|exact H].
  - apply answer_one_runs. by apply scan_f64_runs.
Qed.

(** The engine computes the logical answer, and its state afterwards shows the
    same catalog. *)
Lemma execute_query_impl_runs e q :
  engine_wf e → calm e → runs settled_step (execute_query_impl q) e (query_ref (view e) q).
Proof.
  intros Hwf Hcalm. pose proof (calm_ready e Hwf Hcalm) as Hr.
  destruct (v_has (view e) (value_col q)) eqn:Hv.
  2:{ unfold query_ref, validate. rewrite Hv. eapply runs_eq; [|by eapply reject_runs].
      unfold execute_query_impl. by rewrite view_has, Hv. }
  destruct (cross_column q) eqn:Hc, (grouped q) eqn:Hg; [| | |by apply scalar_query_runs].
  - eapply runs_eq; [|by eapply cross_grouped_query_runs].
    unfold execute_query_impl. by rewrite view_has, Hv, Hc, Hg.
  - eapply runs_eq; [|by eapply cross_scalar_query_runs].
    unfold execute_query_impl. by rewrite view_has, Hv, Hc, Hg.
  - assert (execute_query_impl q e = match v_type (view e) (value_col q) with
      | I64 => grouped_wide q (grouped_aggregate_i64 (key_col q) (value_col q) (num_groups q) (agg q) (pred_i64_of q) (has_filter q)) e
      | F64 => grouped_wide q (grouped_aggregate_f64 (key_col q) (value_col q) (num_groups q) (agg q) (pred_f64_of q) (has_filter q)) e
      | U32 => grouped_narrow q e end) as Heq.
    { unfold execute_query_impl. by rewrite view_has, Hv, Hc, Hg, view_type. }
    destruct (v_type (view e) (value_col q)) eqn:Ht.
    + eapply runs_eq; [exact Heq|]. by apply grouped_narrow_query_runs.
    + eapply runs_eq; [exact Heq|]. apply grouped_wide_query_runs; try done; [congruence|].
      intros Hn. by apply grouped_i64_runs.
    + eapply runs_eq; [exact Heq|]. apply grouped_wide_query_runs; try done; [congruence|].
      intros Hn. by apply grouped_f64_runs.
Qed.
End tiering.
