(* ===== verification/EngineLoad.v ===== *)
(** * EngineLoad: loading and appending column data

    Typed values survive the trip through a column's bytes; the loaders and the
    appends keep the engine's invariant and change exactly one column of the
    logical view, on whatever tier it is. *)

From S2P Require Export EngineTiering.

(** ** Values and bytes *)

Lemma words_nil w : words w [] = [].
Proof. unfold words. cbn. by rewrite Nat.Div0.div_0_l. Qed.

Lemma words_app w a b :
  (0 < w)%nat → (length a = w)%nat → words w (a ++ b) = le_combine a :: words w b.
Proof.
  intros Hw Ha. unfold words. rewrite length_app, Ha.
  replace ((w + length b) / w)%nat with (S (length b / w)).
  2:{ replace (w + length b)%nat with (length b + 1 * w)%nat by lia. rewrite Nat.div_add by lia. lia. }
  cbn [seq map]. f_equal.
  - rewrite Nat.mul_0_r, drop_0, take_app_le by lia. by rewrite take_ge by lia.
  - rewrite <- seq_shift, map_map. apply map_ext. intros i.
    replace (w * S i)%nat with (length a + w * i)%nat by lia. by rewrite drop_app_add.
Qed.

Lemma words_concat w vals :
  (0 < w)%nat → words w (concat (map (le_split w) vals)) = map (λ v, v `mod` 2 ^ (Z.of_nat w * 8)) vals.
Proof.
  intros Hw. induction vals as [|v vals IH]; [apply words_nil|]. cbn [map concat].
  rewrite (words_app w (le_split w v)); [|done|apply length_le_split]. by rewrite IH, le_combine_split.
Qed.

Lemma words_range w bs : Forall (λ x, 0 ≤ x < 2 ^ (8 * Z.of_nat w)) (words w bs).
Proof.
  apply Forall_forall. intros x (i & -> & _)%list_elem_of_fmap.
  set (l := take w (drop (w * i) bs)).
  pose proof (le_combine_bound l) as H. split; [lia|].
  eapply Z.lt_le_trans; [apply H|]. apply Z.pow_le_mono_r; [lia|].
  assert (length l ≤ w)%nat by (unfold l; rewrite length_take; lia). lia.
Qed.

Lemma words_app_whole w a b :
  (0 < w)%nat → Nat.divide w (length a) → words w (a ++ b) = words w a ++ words w b.
Proof.
  intros Hw [k Hk]. revert a Hk. induction k as [|k IH]; intros a Hk.
  - destruct a; [|done]. by rewrite words_nil.
  - rewrite <- (take_drop w a) at 1 2.
    assert (length (take w a) = w) as Hl by (rewrite length_take; lia).
    rewrite <- app_assoc, !(words_app w (take w a)) by done. rewrite IH; [done|]. rewrite length_drop. lia.
Qed.

(** The values a column of a type can hold. *)
Definition in_type (ty : MatrixType) (v : Z) : Prop :=
  match ty with U32 => in_u32 v | I64 => in_i64 v | F64 => in_u64 v end.

Lemma type_width_pos ty : (0 < type_width ty)%nat.
Proof. destruct ty; cbn; lia. Qed.

Lemma map_id_Forall {A} (f : A → A) (P : A → Prop) l : (∀ x, P x → f x = x) → Forall P l → map f l = l.
Proof. intros Hf. induction 1 as [|x l Hx _ IH]; [done|]. cbn. by rewrite Hf, IH. Qed.

Lemma col_values_bytes_of ty vals : Forall (in_type ty) vals → col_values ty (bytes_of ty vals) = vals.
Proof.
  intros H. unfold bytes_of. destruct ty; cbn [col_values type_width] in *; unfold u32s, i64s, f64s;
    rewrite words_concat by lia.
  - eapply map_id_Forall; [|exact H]. apply u32_small.
  - rewrite map_map. eapply map_id_Forall; [|exact H]. intros x Hx. exact (i64_u64 x Hx).
  - eapply map_id_Forall; [|exact H]. apply u64_small.
Qed.

Lemma length_bytes_of ty vals : length (bytes_of ty vals) = (type_width ty * length vals)%nat.
Proof.
  unfold bytes_of. induction vals as [|v vals IH]; cbn [map concat length]; [lia|].
  rewrite length_app, IH, length_le_split. lia.
Qed.

Lemma col_values_app ty a b :
  Nat.divide (type_width ty) (length a) → col_values ty (a ++ b) = col_values ty a ++ col_values ty b.
Proof.
  intros H. pose proof (type_width_pos ty).
  destruct ty; cbn [col_values type_width] in *; unfold u32s, i64s, f64s; rewrite words_app_whole by done; [done| |done].
  apply map_app.
Qed.

(** ** Loading a column *)

Definition load (ty : MatrixType) : Z → list Z → Engine → outcome Engine :=
  match ty with U32 => load_scan_column | I64 => load_scan_column_i64 | F64 => load_scan_column_f64 end.

(** The disk could hold [n] more bytes of memory, and all sizes fit 64 bits. *)
Definition room_for (n : Z) (e : Engine) : Prop :=
  map_sum host_weight (catalog_ e) + n ≤ Z.of_nat (fs_room (e_fs e)) ∧
  total_bytes (cols (tier_mgr_ (brain_ e))) + n < 2 ^ 64.

Lemma books_dom e id : engine_wf e → catalog_ e !! id = None → cols (tier_mgr_ (brain_ e)) !! id = None.
Proof.
  intros Hwf Hid. pose proof (f_equal (lookup id) (ew_tiers _ Hwf)) as Ht. unfold tiers in Ht.
  rewrite !lookup_fmap, Hid in Ht. by destruct (cols _ !! id).
Qed.

(** What the typed loaders leave behind. *)
Definition loaded (id : Z) (bytes : list byte) (types : gmap Z MatrixType) (e : Engine) : Engine :=
  let c := new_column id (e_serial e) bytes in
  mkEngine (<[id := c]> (catalog_ e))
    (mkSchema types (string_columns_ (schema_ e)) (string_dicts_ (schema_ e)) (string_encoders_ (schema_ e))
       (null_masks_ (schema_ e)) (column_names_ (schema_ e)) (name_to_id_ (schema_ e)) (tables_ (schema_ e)))
    (mkBrain (register_column id (Z.of_nat (length bytes)) HOST (tier_mgr_ (brain_ e))) (rebalance_every_ (brain_ e))
       (scans_since_rebalance_ (brain_ e)) (cold_borrows_ (brain_ e)) (rebalances_ (brain_ e)) (migrations_ (brain_ e)))
    (stats_ e) (max_query_groups_ e) (scan_column_ e) (scans_ e) (scan_result_sum_ e) (e_fs e) (e_pid e) (e_serial e + 1).

Lemma load_run ty id data e :
  id ≠ 0 → catalog_ e !! id = None → col_types_ (schema_ e) !! id = None →
  ∃ types, load ty id data e = Ret (loaded id (bytes_of ty data) types e) ∧
    default U32 (types !! id) = ty ∧ ∀ k, k ≠ id → types !! k = col_types_ (schema_ e) !! k.
Proof.
  intros Hid Hc Ht. apply Z.eqb_neq in Hid.
  assert (∀ b : list byte, register id b e = Ret (loaded id b (col_types_ (schema_ e)) e)) as Hreg.
  { intros b. unfold register. rewrite Hid, bool_decide_true by done. by destruct e as [? [] [] ? ? ? ? ? ? ? ?]. }
  destruct ty; cbn [load]; unfold load_scan_column, load_scan_column_i64, load_scan_column_f64; rewrite Hreg; cbn.
  - exists (col_types_ (schema_ e)). by rewrite Ht.
  - exists (<[id := I64]> (col_types_ (schema_ e))). split; [done|]. rewrite lookup_insert_eq.
    split; [done|]. intros k Hk. by rewrite lookup_insert_ne.
  - exists (<[id := F64]> (col_types_ (schema_ e))). split; [done|]. rewrite lookup_insert_eq.
    split; [done|]. intros k Hk. by rewrite lookup_insert_ne.
Qed.

Lemma store_wf_insert pid next fs m id bytes :
  store_wf pid next fs m → m !! id = None →
  map_sum host_weight m + Z.of_nat (length bytes) ≤ Z.of_nat (fs_room fs) →
  store_wf pid (next + 1) fs (<[id := new_column id next bytes]> m).
Proof.
  intros [Hcols Hinj Hden Hroom] Hid Hr. split.
  - intros k c. rewrite lookup_insert. destruct (decide (id = k)) as [<-|].
    + intros [= <-]. cbn. split; [done|]. split; [done|lia].
    + intros Hk. destruct (Hcols k c Hk) as (? & ? & ?). repeat (split; [done|]). lia.
  - assert (∀ k c, m !! k = Some c → tc_serial c ≠ next) as Hfresh.
    { intros k c Hk. destruct (Hcols k c Hk) as (_ & _ & ?). lia. }
    intros i j ci cj. rewrite !lookup_insert.
    destruct (decide (id = i)) as [<-|], (decide (id = j)) as [<-|]; [done| | |by apply Hinj].
    + intros [= <-] Hj Heq. by destruct (Hfresh j cj Hj).
    + intros Hi [= <-] Heq. by destruct (Hfresh i ci Hi).
  - done.
  - rewrite map_sum_insert by done.
    change (host_weight (new_column id next bytes)) with (Z.of_nat (length bytes)). lia.
Qed.

Lemma loaded_wf id bytes types e :
  engine_wf e → id ≠ 0 → catalog_ e !! id = None → room_for (Z.of_nat (length bytes)) e →
  (∀ k, k ≠ id → types !! k = col_types_ (schema_ e) !! k) →
  Nat.divide (type_width (default U32 (types !! id))) (length bytes) →
  engine_wf (loaded id bytes types e).
Proof.
  intros Hwf Hid Hc [Hr Htot] Htypes Hw. pose proof (books_dom e id Hwf Hc) as Hbk.
  pose proof Hwf as [Hs Ht Hz [Hco Hmax] Hk Hd Hwh H0]. split; cbn; try done.
  - by apply store_wf_insert.
  - unfold tiers in *. rewrite !fmap_insert, Ht. done.
  - by rewrite !fmap_insert, Hz.
  - split; [apply map_Forall_insert_2; [|done]|].
    + unfold column_ok. cbn. lia.
    + unfold total_bytes in *. rewrite map_sum_insert by done. cbn. lia.
  - intros k c. rewrite lookup_insert. unfold column_type. cbn. destruct (decide (id = k)) as [<-|Hne].
    + intros [= <-]. cbn. destruct Hw as [x Hx]. exists (Z.of_nat x). rewrite Hx. lia.
    + intros Hck. rewrite (Htypes k) by done. by apply (Hwh k c).
  - by rewrite lookup_insert_ne.
Qed.

Lemma loaded_view id bytes types e k :
  v_cols (view (loaded id bytes types e)) !! k = if decide (id = k) then Some bytes else v_cols (view e) !! k.
Proof. cbn. unfold contents. rewrite !lookup_fmap, lookup_insert. by destruct (decide (id = k)). Qed.

(** ** Appending to a column *)

Lemma append_in_store pid next fs m id c bytes :
  store_wf pid next fs m → m !! id = Some c → tc_tier c = HOST →
  map_sum host_weight m + Z.of_nat (length bytes) ≤ Z.of_nat (fs_room fs) →
  let c' := mkTC (tc_id c) (tc_size c + Z.of_nat (length bytes)) HOST (tc_serial c) (tc_host c ++ bytes) in
  store_wf pid next fs (<[id := c']> m).
Proof.
  intros [Hcols Hinj Hden Hroom] Hid Ht Hr c'. destruct (Hcols id c Hid) as (Hcw & Hi & Hsr).
  assert (∀ k x, <[id := c']> m !! k = Some x → ∃ y, m !! k = Some y ∧ tc_serial x = tc_serial y) as Hold.
  { intros k x. rewrite lookup_insert. destruct (decide (id = k)) as [<-|]; [|eauto]. intros [= <-]. eauto. }
  split.
  - intros k x. rewrite lookup_insert. destruct (decide (id = k)) as [<-|]; [|apply Hcols].
    intros [= <-]. split; [|done]. unfold col_wf in *. rewrite Ht in Hcw. cbn. rewrite length_app. lia.
  - intros i j ci cj (yi & Hyi & ->)%Hold (yj & Hyj & ->)%Hold. by apply Hinj.
  - done.
  - rewrite (map_sum_update _ _ _ c) by done.
    assert (host_weight c = tc_size c) as -> by (unfold host_weight; by rewrite Ht).
    change (host_weight c') with (tc_size c + Z.of_nat (length bytes)). lia.
Qed.

Lemma contents_insert_host pid fs (m : store) id c :
  tc_tier c = HOST → contents pid fs (<[id := c]> m) = <[id := tc_host c]> (contents pid fs m).
Proof. intros Ht. unfold contents. rewrite fmap_insert. unfold tc_bytes at 1. by rewrite Ht. Qed.

(** The borrowed column after the append, before it goes home. *)
Record appended (id : Z) (bytes : list byte) (e e1 : Engine) (c1 c2 : TieredColumn) : Prop := {
  ap_run : append_bytes bytes c1 = Ret c2;
  ap_size : tc_size c2 = v_size (view e) id + Z.of_nat (length bytes);
  ap_wf : store_wf (e_pid e) (e_serial e) (e_fs e1) (<[id := c2]> (catalog_ e1));
  ap_contents : contents (e_pid e) (e_fs e1) (<[id := c2]> (catalog_ e1)) =
    <[id := v_bytes (view e) id ++ bytes]> (contents (e_pid e) (e_fs e) (catalog_ e));
  ap_sizes : tc_size <$> <[id := c2]> (catalog_ e1) =
    <[id := v_size (view e) id + Z.of_nat (length bytes)]> (tc_size <$> catalog_ e);
  ap_tiers : tiers (<[id := c2]> (catalog_ e1)) = <[id := HOST]> (tiers (catalog_ e))
}.

Lemma size_fits id c n e :
  engine_wf e → catalog_ e !! id = Some c → 0 ≤ n → room_for n e → in_u64 (tc_size c + n).
Proof.
  intros Hwf Hc Hn [_ Htot]. destruct (books_entry e id c Hwf Hc) as (k & Hk & Hkb & _).
  pose proof (map_sum_lookup_le c_bytes (cols (tier_mgr_ (brain_ e))) id k) as Hle.
  unfold total_bytes in Htot. ospecialize (Hle _ Hk).
  { intros j x Hj. apply (proj1 (ew_cols _ Hwf) j x Hj). }
  pose proof (col_wf_size _ _ _ (proj1 (sw_cols _ _ _ _ (ew_store _ Hwf) id c Hc))). unfold in_u64. lia.
Qed.

Lemma append_on_host id c bytes e e1 c1 :
  engine_wf e → catalog_ e !! id = Some c → room_for (Z.of_nat (length bytes)) e →
  borrowed id (tc_tier c) e e1 → catalog_ e1 !! id = Some c1 → tc_tier c1 = HOST →
  ∃ c2, appended id bytes e e1 c1 c2.
Proof.
  intros Hwf Hc Hroom Hbo Hc1 Ht1. pose proof (ew_store _ Hwf) as Hok.
  pose proof (borrowed_ok _ _ _ _ Hbo) as Hok1. pose proof (borrowed_view _ _ _ _ Hbo) as Hv1.
  pose proof Hbo as [Bst _ Bt _ _ _ Bp Bn _ _].
  assert (tc_size c1 = v_size (view e) id) as Hsz1 by (rewrite (view_size e1 id c1), Hv1; done).
  assert (tc_host c1 = v_bytes (view e) id) as Hh1.
  { pose proof (host_bytes_view e1 id c1 Hok1 Hc1 Ht1) as H. rewrite Hv1 in H.
    unfold host_bytes, catalog_at in H. rewrite Hc1 in H. cbn in H. unfold host_ptr in H.
    rewrite decide_True in H by done. by injection H. }
  exists (mkTC (tc_id c1) (tc_size c1 + Z.of_nat (length bytes)) HOST (tc_serial c1) (tc_host c1 ++ bytes)). split.
  - unfold append_bytes. rewrite decide_True by done. rewrite u64_small; [done|].
    rewrite Hsz1, <- (view_size e id c Hok Hc). apply (size_fits id c _ e); [done|done|lia|done].
  - by rewrite <- Hsz1.
  - apply append_in_store; [|done|done|].
    + unfold store_ok in Hok1. by rewrite Bp, Bn in Hok1.
    + pose proof (ss_slack _ _ _ _ Bst) as Hsl. destruct Hroom as [Hroom _]. cbn in Hsl. lia.
  - rewrite contents_insert_host by done. cbn [tc_host]. rewrite Hh1. f_equal. apply (ss_contents _ _ _ _ Bst).
  - rewrite fmap_insert. cbn [tc_size]. rewrite Hsz1. f_equal. apply (ss_sizes _ _ _ _ Bst).
  - unfold tiers in *. rewrite fmap_insert, Bt, insert_insert_eq. done.
Qed.

(** What an append leaves behind: one longer column, on the tier it was on. *)
Record append_step (id : Z) (bytes : list byte) (e e' : Engine) : Prop := {
  as_wf : store_wf (e_pid e) (e_serial e) (e_fs e') (catalog_ e');
  as_contents : contents (e_pid e) (e_fs e') (catalog_ e') =
    <[id := v_bytes (view e) id ++ bytes]> (contents (e_pid e) (e_fs e) (catalog_ e));
  as_sizes : tc_size <$> catalog_ e' =
    <[id := v_size (view e) id + Z.of_nat (length bytes)]> (tc_size <$> catalog_ e);
  as_tiers : tiers (catalog_ e') = tiers (catalog_ e);
  as_schema : schema_ e' = schema_ e;
  as_max : max_query_groups_ e' = max_query_groups_ e;
  as_pid : e_pid e' = e_pid e;
  as_serial : e_serial e' = e_serial e;
  as_tm : tier_mgr_ (brain_ e') =
    update_bytes id (v_size (view e) id + Z.of_nat (length bytes)) (tier_mgr_ (brain_ e))
}.

Lemma append_raw_run id c bytes e :
  engine_wf e → catalog_ e !! id = Some c → room_for (Z.of_nat (length bytes)) e →
  ∃ e', append_raw id bytes e = Ret e' ∧ append_step id bytes e e'.
Proof.
  intros Hwf Hc Hroom. pose proof (ew_store _ Hwf) as Hok.
  destruct (borrow_spec e id c Hok Hc) as (e1 & Hb & Hbo).
  destruct (borrowed_lookup _ _ _ _ Hbo) as (c1 & Hc1 & Ht1).
  destruct (append_on_host id c bytes e e1 c1 Hwf Hc Hroom Hbo Hc1 Ht1) as (c2 & [Hab Hs2 Hwf2 Hco2 Hsz2 Ht2]).
  pose proof Hbo as [_ Bh _ Bs _ Bm Bp Bn Bk _].
  unfold append_raw. rewrite Hb. cbn [mbind outcome_bind]. unfold catalog_at. rewrite Hc1.
  cbn [of_option mbind outcome_bind]. rewrite Hab. cbn [mbind outcome_bind]. unfold give_back.
  destruct (decide (tc_tier c = HOST)) as [Hhome|Hhome].
  - eexists. split; [done|]. split; cbn; rewrite ?Hs2, ?Bk; try done.
    etransitivity; [exact Ht2|]. apply insert_id. by rewrite Bh, Hhome.
  - destruct (store_migrate_spec (e_pid e) (e_serial e) id (tc_tier c) (<[id := c2]> (catalog_ e1)) (e_fs e1) c2)
      as (c' & fs' & Hm & Hmg & Hst); [done|by rewrite lookup_insert_eq|exact (tier_home e id c Hok Hc)|].
    unfold migrate. cbn [e_pid set_store catalog_ e_fs]. rewrite Bp, Hm. cbn [mbind outcome_bind].
    eexists. split; [done|]. split; cbn; rewrite ?Hs2, ?Bk; try done.
    + apply (ss_wf _ _ _ _ Hst).
    + rewrite <- Hco2. apply (ss_contents _ _ _ _ Hst).
    + rewrite <- Hsz2. apply (ss_sizes _ _ _ _ Hst).
    + transitivity (<[id := tc_tier c]> (tiers (<[id := c2]> (catalog_ e1)))).
      { unfold tiers. rewrite !fmap_insert. by rewrite (mg_tier _ _ _ _ _ _ Hmg). }
      rewrite Ht2, insert_insert_eq. by apply insert_id.
Qed.

Lemma append_step_wf id c bytes e e' :
  engine_wf e → catalog_ e !! id = Some c → room_for (Z.of_nat (length bytes)) e →
  Nat.divide (type_width (column_type id e)) (length bytes) →
  append_step id bytes e e' → engine_wf e'.
Proof.
  intros Hwf Hc [_ Htot] [x Hx] [Aw Ac As At Ash _ Ap An Ak].
  destruct (books_entry e id c Hwf Hc) as (k & Hk & Hkb & Hkt).
  pose proof (view_size e id c (ew_store _ Hwf) Hc) as Hvs.
  pose proof Hwf as [Hs Ht Hz [Hco Hmax] Htk Hd Hwh H0].
  assert (update_bytes id (v_size (view e) id + Z.of_nat (length bytes)) (tier_mgr_ (brain_ e)) =
    set_cols (tier_mgr_ (brain_ e)) (<[id := mkColumn (c_id k) (v_size (view e) id + Z.of_nat (length bytes))
      (c_tier k) (c_heat k) (c_recent k) (c_arrived k)]> (cols (tier_mgr_ (brain_ e))))) as Hup
    by (unfold update_bytes; by rewrite Hk).
  rewrite Hup in Ak. split; rewrite ?Ak, ?Ap, ?An; cbn; try done.
  - rewrite At, fmap_insert, <- Ht. cbn. apply insert_id. by rewrite lookup_fmap, Hk.
  - by rewrite As, fmap_insert, Hz.
  - destruct (Hco id k Hk) as (? & ? & ?). split; [apply map_Forall_insert_2; [|done]|].
    + unfold column_ok. cbn. split; [done|lia].
    + unfold total_bytes in *. rewrite (map_sum_update _ _ _ k) by done. cbn. lia.
  - intros j cj Hj. apply (f_equal (lookup j)) in As. rewrite lookup_fmap, Hj, lookup_insert in As.
    unfold column_type. rewrite Ash. destruct (decide (id = j)) as [<-|].
    + injection As as ->. rewrite <- Hvs. apply Z.divide_add_r; [by apply (Hwh id c)|].
      exists (Z.of_nat x). rewrite Hx. unfold column_type. lia.
    + rewrite lookup_fmap in As. destruct (catalog_ e !! j) as [c0|] eqn:Hc0; [|done]. injection As as ->.
      by apply (Hwh j c0).
  - apply (f_equal (lookup 0)) in As. rewrite lookup_fmap, lookup_insert_ne, lookup_fmap, H0 in As by congruence.
    by destruct (catalog_ e' !! 0).
Qed.

(** ** A fresh engine, loading and appending *)

Lemma map_sum_empty {A} (w : A → Z) : map_sum w (∅ : gmap Z A) = 0.
Proof. done. Qed.

Lemma new_engine_wf host_cap scan fs pid serial :
  (∀ s, serial_path pid s ∉ fs_denied fs) → engine_wf (new_engine host_cap scan fs pid serial).
Proof.
  intros Hd. split; cbn; try done.
  - split; cbn; [apply map_Forall_empty|done|done|]. rewrite map_sum_empty. lia.
Qed.

Lemma load_step ty id data e :
  engine_wf e → id ≠ 0 → catalog_ e !! id = None → col_types_ (schema_ e) !! id = None →
  room_for (Z.of_nat (length (bytes_of ty data))) e →
  ∃ e', load ty id data e = Ret e' ∧ engine_wf e' ∧ v_type (view e') id = ty ∧
    v_cols (view e') = <[id := bytes_of ty data]> (v_cols (view e)) ∧
    (∀ k, k ≠ id → v_type (view e') k = v_type (view e) k).
Proof.
  intros Hwf Hid Hc Ht Hroom. destruct (load_run ty id data e Hid Hc Ht) as (types & Hrun & Hty & Hoth).
  eexists. split; [exact Hrun|]. split; [|split; [|split]].
  - apply loaded_wf; try done. rewrite Hty, length_bytes_of. apply Nat.divide_factor_l.
  - exact Hty.
  - apply map_eq. intros k. rewrite loaded_view, lookup_insert. done.
  - intros k Hk. unfold v_type. cbn. by rewrite Hoth.
Qed.

Lemma append_view id bytes e e' :
  append_step id bytes e e' →
  v_cols (view e') = <[id := v_bytes (view e) id ++ bytes]> (v_cols (view e)) ∧
  v_schema (view e') = v_schema (view e) ∧ v_max_groups (view e') = v_max_groups (view e).
Proof. intros [_ Ac _ _ As Am Ap _ _]. cbn. by rewrite Ap. Qed.

Lemma append_ok ty id data e :
  engine_wf e → catalog_has id e = true → column_type id e = ty →
  room_for (Z.of_nat (length (bytes_of ty data))) e →
  ∃ e', append_to_column ty id data e = Ret e' ∧ append_step id (bytes_of ty data) e e' ∧ engine_wf e'.
Proof.
  intros Hwf Hh Ht Hroom. unfold append_to_column. rewrite Hh, bool_decide_true by done.
  cbn [andb assert_ mbind outcome_bind]. rewrite view_has in Hh. destruct (view_column e id Hh) as [c Hc].
  destruct (append_raw_run id c (bytes_of ty data) e Hwf Hc Hroom) as (e' & Hrun & Hst).
  exists e'. split; [exact Hrun|]. split; [done|]. eapply append_step_wf; [exact Hwf|exact Hc|exact Hroom| |done].
  rewrite Ht, length_bytes_of. apply Nat.divide_factor_l.
Qed.

(** The bytes of a column of the engine are whole elements. *)
Lemma view_whole e id : engine_wf e → v_has (view e) id = true →
  Nat.divide (type_width (v_type (view e) id)) (length (v_bytes (view e) id)).
Proof.
  intros Hwf Hh. destruct (view_column e id Hh) as [c Hc]. destruct (ew_whole _ Hwf id c Hc) as [x Hx].
  rewrite (view_size e id c (ew_store _ Hwf) Hc) in Hx. unfold v_size in Hx.
  change (column_type id e) with (v_type (view e) id) in Hx. pose proof (type_width_pos (v_type (view e) id)).
  exists (Z.to_nat x). nia.
Qed.

(** ** Theorems *)

(** Loading values of any element type into an unused column id succeeds
    while disk and address space suffice; the column then reads back as exactly
    those values, no other column changes, and the engine stays consistent. *)
Theorem load_column_correct ty id data e :
  engine_wf e → id ≠ 0 → catalog_ e !! id = None → col_types_ (schema_ e) !! id = None →
  Forall (in_type ty) data → room_for (Z.of_nat (type_width ty * length data)) e →
  ∃ e', load ty id data e = Ret e' ∧ engine_wf e' ∧ column_type id e' = ty ∧
    column_rows id e' = Ret (Z.of_nat (length data)) ∧
    col_values ty (v_bytes (view e') id) = data ∧
    (∀ k, k ≠ id → v_cols (view e') !! k = v_cols (view e) !! k ∧ column_type k e' = column_type k e).
Proof.
  intros Hwf Hid Hc Ht Hdata Hroom. rewrite <- length_bytes_of in Hroom.
  destruct (load_step ty id data e Hwf Hid Hc Ht Hroom) as (e' & Hrun & Hwf' & Hty & Hcols & Hoth).
  assert (v_bytes (view e') id = bytes_of ty data) as Hb by (unfold v_bytes; by rewrite Hcols, lookup_insert_eq).
  exists e'. repeat (split; [done|]). split; [|split].
  - assert (v_has (view e') id = true) as Hh.
    { unfold v_has. rewrite Hcols, lookup_insert_eq. apply Z.eqb_neq in Hid. by rewrite Hid. }
    destruct (view_column e' id Hh) as [c' Hc']. rewrite (view_rows e' id c' (ew_store _ Hwf') Hc').
    unfold v_rows, v_size. rewrite Hb, Hty, length_bytes_of. f_equal.
    rewrite Nat2Z.inj_mul, Z.mul_comm. apply Z.div_mul. pose proof (type_width_pos ty). lia.
  - rewrite Hb. by apply col_values_bytes_of.
  - intros k Hk. rewrite Hcols, lookup_insert_ne by done. split; [done|by apply Hoth].
Qed.

(** C30: Appending rows of the column's own type puts them after the rows already
    there, wherever the column is, and sends it back to its tier; another type
    or an unknown column is an assertion failure. *)
Theorem append_correct ty id data e :
  engine_wf e → Forall (in_type ty) data → room_for (Z.of_nat (type_width ty * length data)) e →
  if catalog_has id e && bool_decide (column_type id e = ty) then
    ∃ e', append_to_column ty id data e = Ret e' ∧ engine_wf e' ∧
      col_values ty (v_bytes (view e') id) = col_values ty (v_bytes (view e) id) ++ data ∧
      tiers (catalog_ e') = tiers (catalog_ e) ∧ schema_ e' = schema_ e ∧
      (∀ k, k ≠ id → v_cols (view e') !! k = v_cols (view e) !! k)
  else append_to_column ty id data e = Crash AssertFailed.
Proof.
  intros Hwf Hdata Hroom. rewrite <- length_bytes_of in Hroom.
  destruct (catalog_has id e) eqn:Hh; cbn [andb]; [|unfold append_to_column; by rewrite Hh].
  destruct (decide (column_type id e = ty)) as [Ht|Ht];
    [rewrite bool_decide_true by done|rewrite bool_decide_false by done; unfold append_to_column;
      by rewrite Hh, bool_decide_false].
  destruct (append_ok ty id data e Hwf Hh Ht Hroom) as (e' & Hrun & Hst & Hwf').
  destruct (append_view _ _ _ _ Hst) as (Hcols & _ & _).
  exists e'. repeat (split; [done|]). split; [|split; [apply Hst|split; [apply Hst|]]].
  - assert (v_bytes (view e') id = v_bytes (view e) id ++ bytes_of ty data) as ->
      by (unfold v_bytes at 1; by rewrite Hcols, lookup_insert_eq).
    rewrite view_has in Hh. pose proof (view_whole e id Hwf Hh) as Hdiv.
    change (v_type (view e) id) with (column_type id e) in Hdiv. rewrite Ht in Hdiv.
    rewrite col_values_app by done. f_equal. by apply col_values_bytes_of.
  - intros k Hk. by rewrite Hcols, lookup_insert_ne.
Qed.

(** ** A small engine, for the witnesses *)

Definition calm_check (e : Engine) : bool :=
  let est c := match est_future_scans c with Ret _ => true | Crash _ => false end in
  forallb (λ kv, est (age kv.2) && est (age (accessed kv.2))) (map_to_list (cols (tier_mgr_ (brain_ e)))) &&
  (tick (tier_mgr_ (brain_ e)) + 1 <? 2 ^ 64).

Lemma calm_check_ok e : calm_check e = true → calm e.
Proof.
  unfold calm_check. intros [Hf Ht]%andb_true_iff. split; [|by apply Z.ltb_lt].
  rewrite forallb_forall in Hf. intros id c Hc%elem_of_map_to_list%list_elem_of_In%Hf.
  apply andb_true_iff in Hc as [H1 H2]. cbn in H1, H2. unfold est_ok.
  destruct (est_future_scans (age c)) eqn:E1; [|done].
  destruct (est_future_scans (age (accessed c))) eqn:E2; [|done]. eauto.
Qed.

Definition room_check (n : Z) (e : Engine) : bool :=
  (map_sum host_weight (catalog_ e) + n <=? Z.of_nat (fs_room (e_fs e))) &&
  (total_bytes (cols (tier_mgr_ (brain_ e))) + n <? 2 ^ 64).

Lemma room_check_ok n e : room_check n e = true → room_for n e.
Proof. unfold room_check. intros [H1 H2]%andb_true_iff. split; [by apply Z.leb_le|by apply Z.ltb_lt]. Qed.

(** Two u32 columns, of which 16 bytes of memory hold only one. *)
Definition sample0 : Engine := set_rebalance_interval 1 (new_engine 16 [] (mkFS ∅ 1000 ∅) 7 1).

Definition sample_loaded : Engine :=
  match (e ← load_scan_column 1 [5; 7; 9] sample0; load_scan_column 2 [0; 1; 0] e) with
  | Ret e => e
  | Crash _ => sample0
  end.

Definition sum_query : MatrixQuery :=
  {| value_col := 1; agg := AGG_SUM; has_filter := true; threshold := 5; cmp := GT;
     upper := 0; lo_i64 := 0; hi_i64 := 0; lo_f64 := F64_ZERO; hi_f64 := F64_ZERO;
     grouped := false; key_col := 0; num_groups := 0; limit := 0; filter_col := 0 |}.

Lemma sample0_wf : engine_wf sample0.
Proof.
  pose proof (new_engine_wf 16 [] (mkFS ∅ 1000 ∅) 7 1 ltac:(intros s; cbn; set_solver)) as [????????].
  by split.
Qed.

Lemma sample_loaded_wf : engine_wf sample_loaded.
Proof.
  destruct (load_step U32 1 [5; 7; 9] sample0 sample0_wf ltac:(done) ltac:(done) ltac:(done)
    ltac:(by apply room_check_ok; vm_compute)) as (e1 & H1 & Hwf1 & _).
  unfold sample_loaded. change (load_scan_column 1 [5; 7; 9] sample0) with (load U32 1 [5; 7; 9] sample0).
  rewrite H1. cbn [mbind outcome_bind].
  assert (load U32 1 [5; 7; 9] sample0 = Ret (loaded 1 (bytes_of U32 [5; 7; 9]) ∅ sample0)) as H1'
    by (vm_compute; reflexivity).
  rewrite H1 in H1'. injection H1' as ->.
  destruct (load_step U32 2 [0; 1; 0] _ Hwf1 ltac:(done) ltac:(by vm_compute) ltac:(done)
    ltac:(by apply room_check_ok; vm_compute)) as (e2 & H2 & Hwf2 & _).
  change (load_scan_column 2 [0; 1; 0] ?e) with (load U32 2 [0; 1; 0] e). by rewrite H2.
Qed.

(** Three queries later the idle column is on disk. *)
Definition run_query (e : Engine) : Engine :=
  match execute_query_impl (HashOrder0 := elements_order) sum_query e with Ret (_, e') => e' | Crash _ => e end.

Definition sample : Engine := run_query (run_query (run_query sample_loaded)).

Lemma run_query_wf e : engine_wf e → calm_check e = true → engine_wf (run_query e).
Proof.
  intros Hwf Hc%calm_check_ok.
  pose proof (execute_query_impl_runs (HashOrder0 := elements_order) e sum_query Hwf Hc) as H. unfold run_query.
  unfold runs, ran in H. destruct (query_ref (view e) sum_query); [|by rewrite H].
  destruct H as (e' & -> & H). apply H.
Qed.

Lemma sample_wf : engine_wf sample.
Proof.
  unfold sample. apply run_query_wf; [|vm_compute; reflexivity]. apply run_query_wf; [|vm_compute; reflexivity].
  apply run_query_wf; [apply sample_loaded_wf|vm_compute; reflexivity].
Qed.

Lemma sample_calm : calm sample.
Proof. apply calm_check_ok. vm_compute. reflexivity. Qed.

Example sample_tiers : tiers (catalog_ sample) = {[ 1 := HOST; 2 := COLD ]}.
Proof. vm_compute. reflexivity. Qed.

Lemma load_column_correct_witness :
  ∃ e', load I64 3 [-1; 2] sample = Ret e' ∧ col_values I64 (v_bytes (view e') 3) = [-1; 2].
Proof.
  destruct (load_column_correct I64 3 [-1; 2] sample sample_wf) as (e' & H1 & _ & _ & _ & H2 & _).
  - lia.
  - vm_compute. reflexivity.
  - vm_compute. reflexivity.
  - repeat constructor; unfold in_i64, INT64_MIN, INT64_MAX; lia.
  - apply room_check_ok. vm_compute. reflexivity.
  - exists e'. split; [exact H1|exact H2].
Defined.

(** The appended rows land in the cold file of column 2. *)
Lemma append_correct_witness :
  column_tier 2 sample = Ret COLD ∧
  ∃ e', append_to_column U32 2 [4; 2] sample = Ret e' ∧ u32s (v_bytes (view e') 2) = [0; 1; 0; 4; 2].
Proof.
  split; [vm_compute; reflexivity|].
  pose proof (append_correct U32 2 [4; 2] sample sample_wf) as H.
  assert (catalog_has 2 sample && bool_decide (column_type 2 sample = U32) = true) as E by (vm_compute; reflexivity).
  rewrite E in H. destruct H as (e' & H1 & _ & H2 & _).
  - repeat constructor; unfold in_type, in_u32; lia.
  - apply room_check_ok. vm_compute. reflexivity.
  - exists e'. split; [exact H1|].
    assert (col_values U32 (v_bytes (view sample) 2) = [0; 1; 0]) as Hs by (vm_compute; reflexivity).
    rewrite Hs in H2. exact H2.
Defined.
