(* ===== verification/EngineCorrect.v ===== *)
(** * EngineCorrect: the engine answers queries as their meaning says

    The refinement theorem of [execute_query], the agreement of the shared-lock
    fast path, what the answer of a scalar query is in terms of the column's
    values, and the error paths. *)

From S2P Require Export EngineLoad.

Section correct.
Context `{!HashOrder Z}.

(** ** The fast path *)

Lemma resident_view e id :
  engine_wf e → host_resident id e = true →
  v_has (view e) id = true ∧ host_bytes id e = Ret (v_bytes (view e) id) ∧ column_rows id e = Ret (v_rows (view e) id).
Proof.
  intros Hwf Hr. unfold host_resident in Hr. destruct (catalog_ e !! id) as [c|] eqn:Hc; [|done].
  apply bool_decide_eq_true in Hr. pose proof (ew_store _ Hwf) as Hok. split; [|split].
  - rewrite <- view_has. unfold catalog_has. rewrite Hc, andb_true_r. apply negb_true_iff, Z.eqb_neq.
    intros ->. by rewrite (ew_zero _ Hwf) in Hc.
  - by eapply host_bytes_view.
  - by eapply view_rows.
Qed.

(** Columns of u32 with as many rows have the same size. *)
Lemma same_rows_same_size e a b :
  engine_wf e → v_has (view e) a = true → v_has (view e) b = true →
  v_type (view e) a = U32 → v_type (view e) b = U32 → v_rows (view e) a = v_rows (view e) b →
  v_size (view e) a = v_size (view e) b.
Proof.
  intros Hwf Ha Hb Ta Tb. pose proof (view_whole e a Hwf Ha) as [x Hx]. pose proof (view_whole e b Hwf Hb) as [y Hy].
  unfold v_rows, v_size. rewrite Ta in *. rewrite Tb in *. cbn [type_width] in *. rewrite Hx, Hy.
  rewrite !Nat2Z.inj_mul. change (Z.of_nat 4) with 4. rewrite !Z.div_mul by lia. lia.
Qed.

(** What the fast path may do: refuse, or give the answer of the query. *)
Definition served_as (r : outcome (option (list Z))) (ref : outcome query_result) : Prop :=
  match r with
  | Ret (Some out) => ref = Ret (OK, out)
  | Ret None => True
  | Crash f => ref = Crash f
  end.

Lemma shared_scalar_served e q ref :
  v_mask (view e) (value_col q) = None →
  ref = (r ← scalar_plain (view e) q; Ret (OK, [r])) →
  served_as (shared_scalar q (v_bytes (view e) (value_col q)) (Z.to_nat (v_rows (view e) (value_col q))) e) ref.
Proof.
  intros _ ->. unfold shared_scalar, scalar_plain, v_rows.
  change (column_type (value_col q) e) with (v_type (view e) (value_col q)).
  assert (∀ w, Z.to_nat (v_size (view e) (value_col q) / Z.of_nat w) = v_count w (view e) (value_col q)) as Hn by done.
  rewrite !Hn. destruct (v_type (view e) (value_col q)); cbn [type_width];
    unfold v_u32s, v_i64s, v_f64s; destruct (has_filter q); (destruct (_ : outcome Z); done).
Qed.

Lemma shared_cross_served e q :
  engine_wf e → v_has (view e) (value_col q) = true → cross_column q = true → grouped q = false →
  served_as (shared_scalar_cross q (v_bytes (view e) (value_col q)) (Z.to_nat (v_rows (view e) (value_col q))) e)
    (query_ref (view e) q).
Proof.
  intros Hwf Hv Hc Hg. unfold shared_scalar_cross.
  destruct (host_resident (filter_col q) e) eqn:Hr; [|done]. destruct (is_u32 (filter_col q) e) eqn:Hu; [|done].
  cbn [negb orb]. destruct (resident_view e _ Hwf Hr) as (Hf & -> & ->). cbn [mbind outcome_bind].
  assert (0 ≤ v_rows (view e) (value_col q)) as Hpos.
  { apply Z.div_pos; [unfold v_size; lia|]. pose proof (type_width_pos (v_type (view e) (value_col q))). lia. }
  rewrite Z2Nat.id by done. destruct (Z.eqb_spec (v_rows (view e) (filter_col q)) (v_rows (view e) (value_col q))) as [Heq|];
    [|done]. cbn [negb mbind outcome_bind].
  unfold query_ref, validate, compute. rewrite Hv, Hc, Hg. cbn [negb].
  unfold validate_cross_scalar, bad_filter. change (v_is_u32 (view e) (filter_col q)) with (is_u32 (filter_col q) e).
  rewrite Hf, Hu, Heq, Z.eqb_refl. cbn [negb orb]. unfold scalar_filtered_by.
  assert (Z.to_nat (v_rows (view e) (value_col q)) = v_count 4 (view e) (filter_col q)) as ->.
  { rewrite <- Heq. apply bool_decide_eq_true in Hu. unfold v_rows, v_count, count_of.
    change (v_type (view e) (filter_col q)) with (column_type (filter_col q) e). by rewrite Hu. }
  change (column_type (value_col q) e) with (v_type (view e) (value_col q)).
  unfold v_u32s, v_i64s, v_f64s. destruct (v_type (view e) (value_col q)); cbn [one mbind outcome_bind];
    (destruct (_ : outcome Z); done).
Qed.

Lemma shared_grouped_served e q :
  engine_wf e → v_has (view e) (value_col q) = true → v_mask (view e) (value_col q) = None →
  cross_column q = false → grouped q = true →
  served_as (shared_grouped q (v_bytes (view e) (value_col q)) (Z.to_nat (v_rows (view e) (value_col q))) e)
    (query_ref (view e) q).
Proof.
  intros Hwf Hv Hm Hc Hg. unfold shared_grouped.
  destruct (host_resident (key_col q) e) eqn:Hr; [|done].
  destruct (key_col q =? value_col q) eqn:Hkv; [done|]. destruct (num_groups q =? 0) eqn:Hng; [done|].
  destruct (max_query_groups_ e <? num_groups q) eqn:Hmg; [done|].
  destruct (is_u32 (key_col q) e) eqn:Hu; [|done]. cbn [negb orb].
  destruct (resident_view e _ Hwf Hr) as (Hk & -> & ->). cbn [mbind outcome_bind].
  assert (0 ≤ v_rows (view e) (value_col q)) as Hpos.
  { apply Z.div_pos; [unfold v_size; lia|]. pose proof (type_width_pos (v_type (view e) (value_col q))). lia. }
  rewrite Z2Nat.id by done.
  destruct (Z.eqb_spec (v_rows (view e) (key_col q)) (v_rows (view e) (value_col q))) as [Heq|]; [|done].
  cbn [negb mbind outcome_bind]. unfold query_ref, validate, compute. rewrite Hv, Hc, Hg. cbn [negb].
  pose proof Hu as Hut. apply bool_decide_eq_true in Hut. change (column_type (key_col q) e) with (v_type (view e) (key_col q)) in Hut.
  assert (no_group (view e) q = false) as Hno by (unfold no_group; by rewrite Hk, Hkv, Hng).
  change (is_u32 (key_col q) e) with (v_is_u32 (view e) (key_col q)) in Hu.
  change (max_query_groups_ e) with (v_max_groups (view e)) in Hmg.
  unfold validate_narrow, validate_wide. rewrite Hno, Hu, Hmg, Heq, Z.eqb_refl, Hk. cbn [negb andb].
  assert (∀ n, v_nulls (view e) (value_col q) n = None) as Hnn by (intros n; unfold v_nulls; by rewrite Hm).
  unfold grouped_plain. change (column_type (value_col q) e) with (v_type (view e) (value_col q)).
  unfold v_is_u32 at 1. destruct (v_type (view e) (value_col q)) eqn:Ht; rewrite ?Hnn.
  - rewrite bool_decide_true by done. rewrite (same_rows_same_size e (key_col q) (value_col q)), Z.eqb_refl by done.
    assert (Z.to_nat (v_rows (view e) (value_col q)) = v_count 4 (view e) (key_col q)) as ->.
    { rewrite <- Heq. unfold v_rows, v_count, count_of. by rewrite Hut. }
    cbn [negb]. unfold v_u32s. destruct (has_filter q); (destruct (_ : outcome (list Z)); done).
  - rewrite bool_decide_false by done.
    assert (Z.to_nat (v_rows (view e) (value_col q)) = v_count 8 (view e) (value_col q)) as ->
      by (unfold v_rows, v_count, count_of; by rewrite Ht).
    unfold v_u32s, v_i64s. destruct (has_filter q); (destruct (_ : outcome (list Z)); done).
  - rewrite bool_decide_false by done.
    assert (Z.to_nat (v_rows (view e) (value_col q)) = v_count 8 (view e) (value_col q)) as ->
      by (unfold v_rows, v_count, count_of; by rewrite Ht).
    unfold v_u32s, v_f64s. destruct (has_filter q); (destruct (_ : outcome (list Z)); done).
Qed.

Lemma shared_served e q : engine_wf e → served_as (execute_query_shared_impl q e) (query_ref (view e) q).
Proof.
  intros Hwf. unfold execute_query_shared_impl.
  destruct (host_resident (value_col q) e) eqn:Hr; [|done]. destruct (has_mask (value_col q) e) eqn:Hm; [done|].
  cbn [negb orb]. destruct (resident_view e _ Hwf Hr) as (Hv & -> & ->). cbn [mbind outcome_bind].
  assert (v_mask (view e) (value_col q) = None) as Hmask.
  { unfold has_mask in Hm. unfold v_mask. cbn. by destruct (null_masks_ (schema_ e) !! value_col q). }
  destruct (grouped q) eqn:Hg, (cross_column q) eqn:Hc; cbn [negb andb].
  - done.
  - by apply shared_grouped_served.
  - by apply shared_cross_served.
  - apply shared_scalar_served; [done|]. unfold query_ref, validate, compute. rewrite Hv, Hc, Hg, Hmask. cbn [negb].
    unfold one. by destruct (scalar_plain (view e) q).
Qed.

Lemma v_count_length v id : v_count 4 v id = length (v_u32s v id).
Proof.
  unfold v_count, count_of, v_size, v_u32s, u32s, words. rewrite length_map, length_seq.
  by rewrite <- Nat2Z.inj_div, Nat2Z.id.
Qed.

(** A mask shorter than its column is read out of bounds. *)
Lemma short_mask_query v q mask :
  v_has v (value_col q) = true → v_type v (value_col q) = U32 → v_mask v (value_col q) = Some mask →
  grouped q = false → has_filter q = false → (length mask < v_count 4 v (value_col q))%nat →
  query_ref v q = Crash Undefined.
Proof.
  intros Hh Ht Hmask Hg Hf Hlt. unfold query_ref, validate, compute, cross_column.
  rewrite Hh, Hg, Hf, Hmask. cbn [negb andb]. unfold scalar_masked. rewrite Ht, Hf, v_count_length in *.
  by rewrite short_mask_crash.
Qed.

(** ** Theorems *)

Lemma execute_query_run q ns e :
  engine_wf e → calm e →
  match query_ref (view e) q with
  | Ret r => ∃ e', execute_query q ns e = Ret (r, e') ∧ engine_wf e' ∧ view e' = view e ∧
               query_count_ (stats_ e') = u64 (query_count_ (stats_ e) + 1)
  | Crash f => execute_query q ns e = Crash f
  end.
Proof.
  intros Hwf Hc. pose proof (execute_query_impl_runs e q Hwf Hc) as H. unfold runs, ran in H.
  unfold execute_query. destruct (query_ref (view e) q) as [r|f]; [|by rewrite H].
  destruct H as (e' & -> & [Hwf' Hv Hs]). eexists. split; [done|]. cbn. rewrite Hs.
  split; [destruct Hwf'; by split|]. done.
Qed.

(** C1: [execute_query] refines its specification: on every engine state that
    satisfies the invariant it returns exactly the status and the values that
    [query_ref] computes from the logical columns, whatever tiers they are on,
    and afterwards the invariant holds, every column has the same bytes and the
    query is counted.  It stops the process only where the computation itself
    does. *)
Theorem execute_query_refines q ns e :
  engine_wf e → calm e →
  match query_ref (view e) q with
  | Ret r => ∃ e', execute_query q ns e = Ret (r, e') ∧ engine_wf e' ∧ view e' = view e ∧
               query_count_ (stats_ e') = u64 (query_count_ (stats_ e) + 1)
  | Crash f => execute_query q ns e = Crash f
  end.
Proof. exact (execute_query_run q ns e). Qed.

(** Tiering is invisible: two engines that hold the same logical columns give
    the same answer, whatever is in memory and whatever on disk, however hot. *)
Theorem tiering_is_invisible q ns1 ns2 e1 e2 :
  engine_wf e1 → calm e1 → engine_wf e2 → calm e2 → view e1 = view e2 →
  fst <$> (match execute_query q ns1 e1 with Ret x => Some x | Crash _ => None end) =
  fst <$> (match execute_query q ns2 e2 with Ret x => Some x | Crash _ => None end).
Proof.
  intros Hw1 Hc1 Hw2 Hc2 Hv.
  pose proof (execute_query_impl_runs e1 q Hw1 Hc1) as H1. pose proof (execute_query_impl_runs e2 q Hw2 Hc2) as H2.
  rewrite Hv in H1. unfold runs, ran in *. unfold execute_query. destruct (query_ref (view e2) q).
  - destruct H1 as (e1' & -> & _). by destruct H2 as (e2' & -> & _).
  - by rewrite H1, H2.
Qed.

(** C7: The shared-lock fast path either refuses or gives the exclusive path's
    answer, with status OK; it changes nothing but the statistics. *)
Theorem shared_path_agrees q ns e r e' :
  engine_wf e → execute_query_shared q ns e = Ret (r, e') →
  view e' = view e ∧ catalog_ e' = catalog_ e ∧ brain_ e' = brain_ e ∧
  match r with Some out => query_ref (view e) q = Ret (OK, out) | None => e' = e end.
Proof.
  intros Hwf. unfold execute_query_shared. pose proof (shared_served e q Hwf) as H.
  destruct (execute_query_shared_impl q e) as [[out|]|] eqn:E; cbn; [|by intros [= <- <-]|done].
  intros [= <- <-]. done.
Qed.

(** The rows a scalar query over u32 values is about: those whose filter column
    satisfies the predicate, when it is another column; else those of the column
    that are not null and, if there is a filter, satisfy it. *)
Definition query_rows (v : View) (q : MatrixQuery) (i : nat) : bool :=
  if cross_column q then matrix_pred_match (nth i (v_u32s v (filter_col q)) 0) (pred_u32_of q)
  else negb (is_null (v_mask v (value_col q)) i) &&
       (if has_filter q then matrix_pred_match (nth i (v_u32s v (value_col q)) 0) (pred_u32_of q) else true).

(** Those rows can be told: the filter column is a u32 column of as many rows, or
    the null mask, if there is one, has an entry for every row. *)
Definition rows_readable (v : View) (q : MatrixQuery) : Prop :=
  if cross_column q then
    v_has v (filter_col q) = true ∧ v_type v (filter_col q) = U32 ∧
    v_rows v (filter_col q) = v_rows v (value_col q)
  else mask_ok (v_mask v (value_col q)) (length (v_u32s v (value_col q))).

Lemma keep_not_null_pred m v n i : (n ≤ length m)%nat → (n ≤ length v)%nat → (i < n)%nat →
  keep_not_null m i = Ret (where_rows (Some m) (λ _, true) v i).
Proof.
  intros Hm Hv Hi. unfold keep_not_null, where_rows. rewrite (rd_total 0) by lia. cbn.
  by rewrite andb_true_r, negb_involutive.
Qed.

(** The unfiltered reducers: every row, or every row that is not null. *)
Lemma reduce_all_meaning v op :
  Z.of_nat (length v) < 2 ^ 64 →
  matrix_cpu_reduce_all v (length v) op = Ret (agg_ref op (select (λ _, true) v (length v))).
Proof.
  intros Hn. unfold matrix_cpu_reduce_all. destruct (reads_value op) eqn:Hr.
  - rewrite (reduce_loop_select _ _ _ _ _ (λ _, true)); [apply agg_fold_u64|done..].
  - assert (length (select (λ _ : nat, true) v (length v)) = length v) as Hl.
    { unfold select. rewrite length_map. transitivity (length (seq 0 (length v))); [|apply length_seq].
      generalize (seq 0 (length v)). intros l. induction l as [|x l IH]; [done|]. cbn. by rewrite IH. }
    destruct op; try done; cbn [agg_ref]; rewrite Hl, u64_small by (unfold in_u64; lia); done.
Qed.

Lemma reduce_all_nullable_meaning v m op :
  (length v ≤ length m)%nat →
  matrix_cpu_reduce_all_nullable v (length v) op m
  = Ret (agg_ref op (select (λ i, negb (is_null (Some m) i)) v (length v))).
Proof.
  intros Hm. unfold matrix_cpu_reduce_all_nullable.
  rewrite (reduce_loop_select _ _ _ _ _ (where_rows (Some m) (λ _, true) v)); [|intros i Hi; by apply (keep_not_null_pred m v (length v))|done].
  rewrite agg_fold_u64. do 2 f_equal. apply select_ext. intros i _. unfold where_rows. by rewrite andb_true_r.
Qed.

Lemma scalar_u32_ref v q :
  v_has v (value_col q) = true → v_type v (value_col q) = U32 → grouped q = false →
  rows_readable v q → Z.of_nat (length (v_u32s v (value_col q))) < 2 ^ 64 →
  query_ref v q =
    Ret (OK, [agg_ref (agg q) (select (query_rows v q) (v_u32s v (value_col q)) (length (v_u32s v (value_col q))))]).
Proof.
  intros Hh Ht Hg Hr Hn. unfold rows_readable in Hr. unfold query_ref, validate, compute, query_rows.
  rewrite Hh, Hg. cbn [negb]. destruct (cross_column q) eqn:Hx.
  - destruct Hr as (Hf & Hft & Hrows). unfold validate_cross_scalar, bad_filter, v_is_u32.
    rewrite Hf, Hft, Hrows, Z.eqb_refl. cbn [negb orb]. rewrite bool_decide_true by done. cbn [negb].
    unfold scalar_filtered_by. rewrite Ht.
    assert (v_count 4 v (filter_col q) = length (v_u32s v (value_col q))) as Hc.
    { rewrite <- v_count_length. unfold v_count, count_of. unfold v_rows in Hrows. rewrite Hft, Ht in Hrows.
      by f_equal. }
    unfold matrix_cpu_reduce_filtered_by. rewrite Hc.
    rewrite (reduce_loop_select _ _ _ _ _ (λ i, matrix_pred_match (nth i (v_u32s v (filter_col q)) 0) (pred_u32_of q)));
      [by rewrite agg_fold_u64| |done].
    intros i Hi. apply keep_value_total. rewrite <- v_count_length, Hc. done.
  - unfold scalar_masked, scalar_plain. rewrite Ht, v_count_length.
    destruct (v_mask v (value_col q)) as [m|] eqn:Em; destruct (has_filter q).
    + rewrite reduce_pred_correct by done. done.
    + rewrite reduce_all_nullable_meaning by done. cbn. do 4 f_equal. apply select_ext. intros i _.
      by rewrite andb_true_r.
    + rewrite reduce_pred_correct by done. done.
    + rewrite reduce_all_meaning by done. done.
Qed.

(** C29: A scalar query over u32 values is the aggregate of exactly its rows: their
    number, their sum modulo 2^64, their minimum or their maximum.  With a filter on
    another column they are the rows whose filter column satisfies the predicate,
    whatever the null mask says; otherwise those that are not null and satisfy the
    filter, if there is one. *)
Theorem scalar_u32_query_meaning q ns e :
  engine_wf e → calm e → catalog_has (value_col q) e = true → column_type (value_col q) e = U32 →
  grouped q = false → rows_readable (view e) q →
  let vals := v_u32s (view e) (value_col q) in
  Z.of_nat (length vals) < 2 ^ 64 →
  ∃ e', execute_query q ns e = Ret ((OK, [agg_ref (agg q) (select (query_rows (view e) q) vals (length vals))]), e') ∧
    view e' = view e.
Proof.
  intros Hwf Hc Hh Ht Hg Hr vals Hn. rewrite view_has in Hh. rewrite view_type in Ht.
  pose proof (execute_query_impl_runs e q Hwf Hc) as H. unfold runs, ran in H.
  rewrite (scalar_u32_ref _ _ Hh Ht Hg Hr Hn) in H. destruct H as (e' & Hrun & [_ Hv _]).
  unfold execute_query. rewrite Hrun. cbn. eexists. split; [done|exact Hv].
Qed.

(** A null mask is checked against the rows when it is set and never again: an
    append makes the next unfiltered aggregate over the column read past it. *)
Theorem append_outdates_null_mask id mask data q ns e e1 e2 :
  engine_wf e → column_type id e = U32 → set_column_nulls id mask e = Ret e1 →
  data ≠ [] → Forall in_u32 data → room_for (Z.of_nat (4 * length data)) e1 →
  append_to_column U32 id data e1 = Ret e2 → calm e2 →
  value_col q = id → grouped q = false → has_filter q = false →
  execute_query q ns e2 = Crash Undefined.
Proof.
  intros Hwf Ht Hset Hne Hdata Hroom Happ Hcalm Hid Hg Hf. unfold set_column_nulls in Hset.
  apply bind_Ret in Hset as (? & Hh & Hset). unfold assert_ in Hh. destruct (catalog_has id e) eqn:Hhas; [|done].
  apply bind_Ret in Hset as (rows & Hrows & Hset). apply bind_Ret in Hset as (? & Hlen & [= <-]).
  unfold assert_ in Hlen. destruct (Z.eqb_spec (Z.of_nat (length mask)) rows) as [Hl|]; [|done].
  set (e1 := set_schema _ e) in *.
  assert (engine_wf e1) as Hwf1 by (destruct Hwf; by split).
  destruct (append_ok U32 id data e1 Hwf1 Hhas Ht) as (e2' & Happ' & Hst & Hwf2).
  { by rewrite length_bytes_of. }
  rewrite Happ in Happ'. injection Happ' as <-. destruct (append_view _ _ _ _ Hst) as (Hcols & Hsch & _).
  assert (v_has (view e2) id = true) as Hh2.
  { rewrite view_has in Hhas. unfold v_has in *. rewrite Hcols, lookup_insert_eq.
    by destruct (negb (id =? 0)). }
  assert (v_mask (view e2) id = Some mask) as Hmask by (unfold v_mask; rewrite Hsch; cbn; by rewrite lookup_insert_eq).
  assert (v_type (view e2) id = U32) as Ht2 by (unfold v_type; rewrite Hsch; exact Ht).
  pose proof (execute_query_impl_runs e2 q Hwf2 Hcalm) as H. unfold runs, ran in H.
  rewrite (short_mask_query (view e2) q mask) in H; rewrite ?Hid; try done; [unfold execute_query; by rewrite H|].
  rewrite view_has in Hhas. destruct (view_column e id Hhas) as [c Hc].
  rewrite (view_rows e id c (ew_store _ Hwf) Hc) in Hrows. injection Hrows as <-.
  assert (v_bytes (view e2) id = v_bytes (view e) id ++ bytes_of U32 data) as Hb
    by (unfold v_bytes at 1; by rewrite Hcols, lookup_insert_eq).
  unfold v_count, count_of, v_size. rewrite Hb, length_app, length_bytes_of.
  unfold v_rows, v_size in Hl. change (v_type (view e) id) with (column_type id e) in Hl. rewrite Ht in Hl.
  cbn [type_width] in *. destruct data as [|d data]; [done|]. cbn [length].
  rewrite Nat2Z.inj_add, Nat2Z.inj_mul. change (Z.of_nat 4) with 4 in *.
  rewrite Z.mul_comm, Z.div_add by lia. lia.
Qed.

End correct.

(** ** Witnesses *)

#[local] Existing Instance elements_order.

(** [SUM(v) WHERE v > 5 GROUP BY key], over a key column that is on disk. *)
Definition grouped_query : MatrixQuery :=
  {| value_col := 1; agg := AGG_SUM; has_filter := true; threshold := 5; cmp := GT;
     upper := 0; lo_i64 := 0; hi_i64 := 0; lo_f64 := F64_ZERO; hi_f64 := F64_ZERO;
     grouped := true; key_col := 2; num_groups := 2; limit := 0; filter_col := 0 |}.

Lemma execute_query_refines_witness :
  engine_wf sample ∧ calm sample ∧ column_tier 2 sample = Ret COLD ∧
  ∃ e', execute_query grouped_query 10 sample = Ret ((OK, [9; 7]), e') ∧ view e' = view sample.
Proof.
  split; [exact sample_wf|]. split; [exact sample_calm|]. split; [vm_compute; reflexivity|].
  pose proof (execute_query_refines grouped_query 10 sample sample_wf sample_calm) as H.
  assert (query_ref (view sample) grouped_query = Ret (OK, [9; 7])) as E by (vm_compute; reflexivity).
  rewrite E in H. destruct H as (e' & H1 & _ & H2 & _). exists e'. split; [exact H1|exact H2].
Defined.

Lemma sample_loaded_calm : calm sample_loaded.
Proof. apply calm_check_ok. vm_compute. reflexivity. Qed.

Lemma tiering_is_invisible_witness :
  tiers (catalog_ sample) ≠ tiers (catalog_ sample_loaded) ∧
  fst <$> (match execute_query grouped_query 1 sample with Ret x => Some x | Crash _ => None end) =
  fst <$> (match execute_query grouped_query 9 sample_loaded with Ret x => Some x | Crash _ => None end).
Proof.
  split; [vm_compute; discriminate|].
  apply (tiering_is_invisible grouped_query 1 9 sample sample_loaded sample_wf sample_calm sample_loaded_wf sample_loaded_calm).
  vm_compute. reflexivity.
Defined.

Lemma shared_path_agrees_witness :
  ∃ e', execute_query_shared sum_query 3 sample = Ret (Some [16], e') ∧
    query_ref (view sample) sum_query = Ret (OK, [16]).
Proof.
  eexists. assert (execute_query_shared sum_query 3 sample = Ret (Some [16], record_query_latency 3 sample)) as E
    by (vm_compute; reflexivity).
  split; [exact E|].
  destruct (shared_path_agrees sum_query 3 sample (Some [16]) _ sample_wf E) as (_ & _ & _ & H). exact H.
Defined.

(** [SUM(v) WHERE key = 1]: the filter is on another column. *)
Definition cross_sum_query : MatrixQuery :=
  {| value_col := 1; agg := AGG_SUM; has_filter := true; threshold := 1; cmp := EQ;
     upper := 0; lo_i64 := 0; hi_i64 := 0; lo_f64 := F64_ZERO; hi_f64 := F64_ZERO;
     grouped := false; key_col := 0; num_groups := 0; limit := 0; filter_col := 2 |}.

Lemma scalar_u32_query_meaning_witness :
  cross_column cross_sum_query = true ∧ cross_column sum_query = false ∧
  (∃ e', execute_query sum_query 3 sample = Ret ((OK, [16]), e')) ∧
  ∃ r e', execute_query cross_sum_query 3 sample = Ret ((OK, [r]), e') ∧ r = 7.
Proof.
  split; [reflexivity|]. split; [reflexivity|]. split.
  - destruct (scalar_u32_query_meaning sum_query 3 sample sample_wf sample_calm) as (e' & H & _).
    + vm_compute. reflexivity.
    + vm_compute. reflexivity.
    + reflexivity.
    + vm_compute. exact I.
    + vm_compute. reflexivity.
    + exists e'. refine (eq_trans H _). vm_compute. reflexivity.
  - destruct (scalar_u32_query_meaning cross_sum_query 3 sample sample_wf sample_calm) as (e' & H & _).
    + vm_compute. reflexivity.
    + vm_compute. reflexivity.
    + reflexivity.
    + vm_compute. repeat split.
    + vm_compute. reflexivity.
    + eexists _, e'. split; [exact H|]. vm_compute. reflexivity.
Defined.

(** One row with no mask entry. *)
Lemma append_outdates_null_mask_witness :
  let q := {| value_col := 1; agg := AGG_COUNT; has_filter := false; threshold := 0; cmp := GT;
     upper := 0; lo_i64 := 0; hi_i64 := 0; lo_f64 := F64_ZERO; hi_f64 := F64_ZERO;
     grouped := false; key_col := 0; num_groups := 0; limit := 0; filter_col := 0 |} in
  ∃ e1 e2, set_column_nulls 1 [0; 1; 0] sample_loaded = Ret e1 ∧ append_to_column U32 1 [8] e1 = Ret e2 ∧
    execute_query q 3 e2 = Crash Undefined.
Proof.
  intros q.
  destruct (set_column_nulls 1 [0; 1; 0] sample_loaded) as [e1|] eqn:E1; [|vm_compute in E1; discriminate].
  destruct (append_to_column U32 1 [8] e1) as [e2|] eqn:E2.
  2:{ vm_compute in E1. injection E1 as <-. vm_compute in E2. discriminate. }
  exists e1, e2. split; [reflexivity|]. split; [exact E2|].
  apply (append_outdates_null_mask 1 [0; 1; 0] [8] q 3 sample_loaded e1 e2 sample_loaded_wf).
  - vm_compute. reflexivity.
  - exact E1.
  - discriminate.
  - repeat constructor; unfold in_u32; lia.
  - apply room_check_ok. vm_compute in E1. injection E1 as <-. vm_compute. reflexivity.
  - exact E2.
  - apply calm_check_ok. vm_compute in E1. injection E1 as <-. vm_compute in E2. injection E2 as <-. vm_compute. reflexivity.
  - reflexivity.
  - reflexivity.
  - reflexivity.
Defined.
