(* ===== verification/EngineJoin.v ===== *)
(** * EngineJoin: joins, gathers and projections

    [hash_join] and its siblings, [gather], [matching_rows] and [project].
    They borrow columns like the scans do; their results are proved to be the
    relational ones over the logical columns. *)

From S2P Require Export EngineLoad.

(** ** The kernels *)

(** [for (i ...) build[lk[i]].push_back(i)] *)
Definition join_build (lk : list Z) (ln : nat) : outcome (gmap Z (list Z)) :=
  for_loop 0 ln (λ i build,
    k ← rd lk i; Ret (<[k := default [] (build !! k) ++ [Z.of_nat i]]> build)) ∅.

Definition join_probe (build : gmap Z (list Z)) (rk : list Z) (rn : nat) : outcome (list (Z * Z)) :=
  for_loop 0 rn (λ j out,
    k ← rd rk j;
    Ret (match build !! k with
         | Some rows => out ++ map (λ i, (i, Z.of_nat j)) rows
         | None => out
         end)) [].

Definition join_kernel (lk rk : list Z) (ln rn : nat) : outcome (list (Z * Z)) :=
  build ← join_build lk ln; join_probe build rk rn.

(** [++build[lk[i]]] *)
Definition count_build (lk : list Z) (ln : nat) : outcome (gmap Z Z) :=
  for_loop 0 ln (λ i build, k ← rd lk i; Ret (<[k := u64 (default 0 (build !! k) + 1)]> build)) ∅.

Definition count_kernel (lk rk : list Z) (ln rn : nat) : outcome Z :=
  build ← count_build lk ln;
  for_loop 0 rn (λ j pairs,
    k ← rd rk j; Ret (match build !! k with Some c => u64 (pairs + c) | None => pairs end)) 0.

(** ** The engine's operations *)

Definition require (b : Engine → bool) : stM Engine unit := λ e, _ ← assert_ (b e); Ret (tt, e).

(** Both keys are known and of the type; their accesses are recorded. *)
Definition join_columns {A} (ty : MatrixType) (left_key_id right_key_id : Z)
    (kernel : list Z → list Z → nat → nat → outcome A) : stM Engine A :=
  _ ← require (λ e, catalog_has left_key_id e && catalog_has right_key_id e);
  _ ← require (λ e, bool_decide (column_type left_key_id e = ty) && bool_decide (column_type right_key_id e = ty));
  _ ← touch_column left_key_id;
  _ ← touch_column right_key_id;
  with_two left_key_id right_key_id (λ ls lbs rs rbs,
    lift (kernel (col_values ty lbs) (col_values ty rbs)
            (count_of (type_width ty) ls) (count_of (type_width ty) rs))).

Definition hash_join (left_key_id right_key_id : Z) : stM Engine (list (Z * Z)) :=
  join_columns U32 left_key_id right_key_id join_kernel.

Definition hash_join_count (left_key_id right_key_id : Z) : stM Engine Z :=
  join_columns U32 left_key_id right_key_id count_kernel.

Definition hash_join_i64 (left_key_id right_key_id : Z) : stM Engine (list (Z * Z)) :=
  join_columns I64 left_key_id right_key_id join_kernel.

(** One value per row index; a wide value as its bit pattern. *)
Definition gather_kernel (vals rows : list Z) (n : nat) : outcome (list Z) :=
  fold_outcome (λ out r,
    _ ← assert_ (r <? Z.of_nat n);
    v ← rd vals (Z.to_nat r);
    Ret (out ++ [v])) rows [].

Definition wide_width (ty : MatrixType) : nat := if decide (ty = U32) then 4 else 8.

Definition gather (col_id : Z) (rows : list Z) : stM Engine (list Z) :=
  _ ← require (catalog_has col_id);
  with_host col_id (λ size bs e,
    let w := wide_width (column_type col_id e) in
    out ← gather_kernel (words w bs) rows (count_of w size);
    Ret (out, e)).

(** The loop stops as soon as [limit] rows are found; [0] is no limit. *)
Fixpoint matching_loop (f : list Z) (pred : MatrixPredicate) (limit : Z) (i n : nat) (rows : list Z) :
    outcome (list Z) :=
  match n with
  | O => Ret rows
  | S n' =>
      v ← rd f i;
      if matrix_pred_match v pred then
        let rows := rows ++ [Z.of_nat i] in
        if negb (limit =? 0) && (limit <=? Z.of_nat (length rows)) then Ret rows
        else matching_loop f pred limit (S i) n' rows
      else matching_loop f pred limit (S i) n' rows
  end.

Definition matching_rows (filter_col : Z) (pred : MatrixPredicate) (limit : Z) : stM Engine (list Z) :=
  _ ← touch_column filter_col;
  with_host filter_col (λ size bs, lift (matching_loop (u32s bs) pred limit 0 (count_of 4 size) [])).

Definition project (col_id : Z) (has_filter : bool) (filter_col : Z) (pred : MatrixPredicate) (limit : Z) :
    stM Engine (list Z) :=
  rows ← (if has_filter then matching_rows filter_col pred limit
          else λ e,
            n ← column_rows col_id e;
            let cap := if negb (limit =? 0) && (limit <? n) then limit else n in
            Ret (map Z.of_nat (seq 0 (Z.to_nat cap)), e));
  gather col_id rows.

(** ** What a join is *)

(** The left rows whose key is [k], in order. *)
Definition rows_with (lk : list Z) (k : Z) : list nat :=
  List.filter (λ i, nth i lk 0 =? k) (seq 0 (length lk)).

Definition join_ref (lk rk : list Z) : list (Z * Z) :=
  concat (map (λ j, map (λ i, (Z.of_nat i, Z.of_nat j)) (rows_with lk (nth j rk 0))) (seq 0 (length rk))).

Lemma join_ref_spec lk rk i j :
  (Z.of_nat i, Z.of_nat j) ∈ join_ref lk rk ↔
  (i < length lk)%nat ∧ (j < length rk)%nat ∧ nth i lk 0 = nth j rk 0.
Proof.
  unfold join_ref, rows_with. rewrite list_elem_of_In, in_concat. split.
  - intros (l & Hl & Hin). apply in_map_iff in Hl as (j' & <- & Hj').
    apply in_map_iff in Hin as (i' & [= Hi Hj] & Hin). apply Nat2Z.inj in Hi, Hj. subst.
    apply filter_In in Hin as [Hin Heq%Z.eqb_eq]. apply in_seq in Hin, Hj'. split; [lia|]. split; [lia|done].
  - intros (Hi & Hj & Heq). eexists. split; [apply in_map_iff; exists j; split; [reflexivity|apply in_seq; lia]|].
    apply in_map_iff. exists i. split; [done|]. apply filter_In. split; [apply in_seq; lia|by apply Z.eqb_eq].
Qed.

Lemma join_ref_nodup lk rk : NoDup (join_ref lk rk).
Proof.
  unfold join_ref. generalize (seq_NoDup (length rk) 0). generalize (seq 0 (length rk)).
  intros js Hjs%NoDup_ListNoDup. induction js as [|j js IH]; cbn; [constructor|].
  apply NoDup_cons in Hjs as [Hj Hjs]. apply NoDup_app. split; [|split; [|by apply IH]].
  - apply (NoDup_fmap_2_strong (λ i, (Z.of_nat i, Z.of_nat j))); [intros x y _ _ [= ?]; lia|].
    apply NoDup_ListNoDup. unfold rows_with. apply List.NoDup_filter, seq_NoDup.
  - intros [a b] (i & [= -> ->] & _)%list_elem_of_fmap Hin.
    apply list_elem_of_In, in_concat in Hin as (l & Hl & Hin).
    apply in_map_iff in Hl as (j' & <- & Hj'). apply in_map_iff in Hin as (i' & [= _ Heq] & _).
    apply Nat2Z.inj in Heq. subst. by apply Hj, list_elem_of_In.
Qed.

(** ** The kernels compute it *)

Definition rows_below (lk : list Z) (n : nat) (k : Z) : list nat :=
  List.filter (λ i, nth i lk 0 =? k) (seq 0 n).

Lemma rows_below_S lk n k :
  rows_below lk (S n) k = rows_below lk n k ++ (if nth n lk 0 =? k then [n] else []).
Proof. unfold rows_below. rewrite seq_S, List.filter_app. cbn. by destruct (nth n lk 0 =? k). Qed.

(** The table holds exactly the non-empty buckets. *)
Definition bucket (rows : list nat) : option (list Z) :=
  match rows with [] => None | _ => Some (map Z.of_nat rows) end.

Lemma for_loop_S {A} (body : nat → A → outcome A) n a :
  for_loop 0 (S n) body a = (for_loop 0 n body a ≫= body n).
Proof.
  replace (S n) with (n + 1)%nat by lia. rewrite for_loop_add. cbn.
  destruct (for_loop 0 n body a); cbn; [|done]. by destruct (body n a0).
Qed.

Lemma join_build_spec lk n :
  (n ≤ length lk)%nat →
  ∃ build, join_build lk n = Ret build ∧ ∀ k, build !! k = bucket (rows_below lk n k).
Proof.
  induction n as [|n IH]; intros Hn; [by exists ∅|].
  destruct (IH ltac:(lia)) as (b & Hb & Hk). unfold join_build in *. rewrite for_loop_S, Hb. cbn [mbind outcome_bind].
  rewrite (rd_total 0) by lia. cbn [mbind outcome_bind]. eexists. split; [done|].
  intros k. rewrite rows_below_S, lookup_insert. destruct (Z.eqb_spec (nth n lk 0) k) as [<-|Hne].
  - rewrite decide_True by done. rewrite Hk. destruct (rows_below lk n (nth n lk 0)); [done|]. cbn.
    by rewrite map_app.
  - rewrite decide_False by done. by rewrite app_nil_r.
Qed.

Lemma join_kernel_spec lk rk : join_kernel lk rk (length lk) (length rk) = Ret (join_ref lk rk).
Proof.
  unfold join_kernel. destruct (join_build_spec lk (length lk) ltac:(lia)) as (b & -> & Hb).
  cbn [mbind outcome_bind]. unfold join_probe, join_ref.
  assert (∀ n, (n ≤ length rk)%nat →
    for_loop 0 n (λ j out, k ← rd rk j;
      Ret (match b !! k with Some rows => out ++ map (λ i, (i, Z.of_nat j)) rows | None => out end)) [] =
    Ret (concat (map (λ j, map (λ i, (Z.of_nat i, Z.of_nat j)) (rows_with lk (nth j rk 0))) (seq 0 n)))) as H;
    [|by apply H].
  induction n as [|n IH]; intros Hn; [done|].
  rewrite for_loop_S, IH by lia. cbn [mbind outcome_bind]. rewrite (rd_total 0) by lia. cbn [mbind outcome_bind].
  rewrite seq_S, map_app, concat_app. cbn. rewrite app_nil_r, Hb. f_equal. unfold rows_with, rows_below, bucket.
  destruct (List.filter _ _) as [|i l]; [by rewrite app_nil_r|]. by rewrite map_map.
Qed.

(** Wrapping counters: every bucket count, and the total. *)
Lemma count_build_spec lk n :
  (n ≤ length lk)%nat → Z.of_nat n < 2 ^ 64 →
  ∃ build, count_build lk n = Ret build ∧
    ∀ k, default 0 (build !! k) = Z.of_nat (length (rows_below lk n k)).
Proof.
  induction n as [|n IH]; intros Hn Hmax; [by exists ∅|].
  destruct (IH ltac:(lia) ltac:(lia)) as (b & Hb & Hk). unfold count_build in *. rewrite for_loop_S, Hb.
  cbn [mbind outcome_bind]. rewrite (rd_total 0) by lia. cbn [mbind outcome_bind]. eexists. split; [done|].
  intros k. rewrite rows_below_S, length_app, lookup_insert. destruct (Z.eqb_spec (nth n lk 0) k) as [<-|Hne].
  - rewrite decide_True by done. cbn [from_option length]. rewrite Hk.
    assert (length (rows_below lk n (nth n lk 0%Z)) ≤ n)%nat.
    { unfold rows_below. etrans; [apply filter_length_le|]. by rewrite length_seq. }
    change (id ?x) with x. rewrite u64_small by (unfold in_u64; lia). lia.
  - rewrite decide_False by done. cbn [length]. rewrite Hk. lia.
Qed.

Lemma length_join_ref lk rk n :
  length (concat (map (λ j, map (λ i, (Z.of_nat i, Z.of_nat j)) (rows_with lk (nth j rk 0))) (seq 0 n))) =
  foldr (λ j s, length (rows_with lk (nth j rk 0%Z)) + s)%nat 0%nat (seq 0 n).
Proof. induction (seq 0 n) as [|j l IH]; [done|]. cbn. by rewrite length_app, length_map, IH. Qed.

Lemma count_kernel_spec lk rk :
  Z.of_nat (length lk) < 2 ^ 64 →
  count_kernel lk rk (length lk) (length rk) = Ret (u64 (Z.of_nat (length (join_ref lk rk)))).
Proof.
  intros Hmax. unfold count_kernel. destruct (count_build_spec lk (length lk) ltac:(lia) Hmax) as (b & -> & Hb).
  cbn [mbind outcome_bind]. unfold join_ref. rewrite length_join_ref.
  assert (∀ n, (n ≤ length rk)%nat →
    for_loop 0 n (λ j pairs, k ← rd rk j;
      Ret (match b !! k with Some c => u64 (pairs + c) | None => pairs end)) 0 =
    Ret (u64 (Z.of_nat (foldr (λ j s, length (rows_with lk (nth j rk 0%Z)) + s)%nat 0%nat (seq 0 n))))) as H;
    [|by apply H].
  induction n as [|n IH]; intros Hn; [done|].
  rewrite for_loop_S, IH by lia. cbn [mbind outcome_bind]. rewrite (rd_total 0) by lia. cbn [mbind outcome_bind].
  rewrite seq_S, foldr_app. cbn [foldr Nat.add]. specialize (Hb (nth n rk 0)).
  change (rows_below lk (length lk)) with (rows_with lk) in Hb.
  assert (∀ l m, foldr (λ j s, length (rows_with lk (nth j rk 0%Z)) + s)%nat m l =
    (foldr (λ j s, length (rows_with lk (nth j rk 0%Z)) + s)%nat 0%nat l + m)%nat) as Hacc.
  { induction l as [|x l IHl]; intros m; cbn; [done|]. rewrite IHl. lia. }
  rewrite Nat.add_0_r, (Hacc _ (length (rows_with lk (nth n rk 0%Z)))). f_equal.
  rewrite Nat2Z.inj_add, <- Hb.
  destruct (b !! nth n rk 0); cbn; [by rewrite u64_add_l|]. by rewrite Z.add_0_r.
Qed.

(** ** On the engine *)

Lemma v_count_values e id :
  v_count (type_width (v_type (view e) id)) (view e) id = length (col_values (v_type (view e) id) (v_bytes (view e) id)).
Proof.
  unfold v_count, count_of, v_size. destruct (v_type (view e) id); cbn [col_values type_width]; unfold u32s, i64s, f64s, words;
    rewrite ?length_map, length_seq, <- Nat2Z.inj_div, Nat2Z.id; done.
Qed.

Lemma runs_touch_wf {B} id (k : () → stM Engine B) e ref :
  engine_wf e → v_has (view e) id = true →
  (∀ e1, engine_wf e1 → view e1 = view e → runs settled_step (k tt) e1 ref) →
  runs settled_step (touch_column id ≫= k) e ref.
Proof.
  intros Hwf [c Hc]%view_column Hk. specialize (Hk _ (touched_wf e id c Hwf Hc) eq_refl).
  assert (touch_column id e = Ret (tt, touched id (tc_size c) e)) as Ht.
  { unfold touch_column, catalog_at. by rewrite Hc. }
  unfold runs. rewrite (stM_bind_run _ _ _ _ _ Ht). unfold runs, ran in *. destruct ref; [|done].
  destruct Hk as (e' & -> & [? ? ?]). eexists. split; [done|]. by split.
Qed.

Lemma runs_lend_wf {A} (m : stM Engine A) e ref :
  engine_wf e → runs lend_step m e ref → runs settled_step m e ref.
Proof.
  intros Hwf. unfold runs, ran. destruct ref; [|done]. intros (e' & -> & Hl). exists e'. split; [done|].
  split; [by eapply lend_wf|by apply lend_step_view|by destruct Hl].
Qed.

Lemma require_run {B} b (k : () → stM Engine B) e ref :
  b e = true → runs settled_step (k tt) e ref → runs settled_step (require b ≫= k) e ref.
Proof. intros Hb. unfold runs, mbind, stM_bind, require. by rewrite Hb. Qed.

Lemma join_columns_runs {A} ty l r (kernel : list Z → list Z → nat → nat → outcome A) e :
  engine_wf e → catalog_has l e = true → catalog_has r e = true →
  column_type l e = ty → column_type r e = ty →
  let lk := col_values ty (v_bytes (view e) l) in
  let rk := col_values ty (v_bytes (view e) r) in
  runs settled_step (join_columns ty l r kernel) e (kernel lk rk (length lk) (length rk)).
Proof.
  intros Hwf Hl Hr Tl Tr lk rk. unfold join_columns.
  apply require_run; [by rewrite Hl, Hr|]. apply require_run; [by rewrite !bool_decide_true|].
  rewrite view_has in Hl, Hr. rewrite view_type in Tl, Tr.
  apply runs_touch_wf; [done|done|]. intros e1 Hwf1 Hv1.
  apply runs_touch_wf; [done|by rewrite Hv1|]. intros e2 Hwf2 Hv2. rewrite Hv1 in Hv2.
  apply runs_lend_wf; [done|]. apply with_two_runs; [apply Hwf2|by rewrite Hv2|by rewrite Hv2|].
  intros e3 Hok3 Hv3. rewrite Hv2.
  pose proof (v_count_values e l) as Hn. pose proof (v_count_values e r) as Hm.
  rewrite Tl in Hn. rewrite Tr in Hm. unfold v_count in Hn, Hm. rewrite Hn, Hm. by apply runs_lift.
Qed.

(** *** Gathering *)

Lemma gather_kernel_spec vals rows n :
  (n ≤ length vals)%nat → Forall (λ r, 0 ≤ r < Z.of_nat n) rows →
  gather_kernel vals rows n = Ret (map (λ r, nth (Z.to_nat r) vals 0) rows).
Proof.
  intros Hn Hr. unfold gather_kernel.
  rewrite (fold_outcome_pure (λ out r, out ++ [nth (Z.to_nat r) vals 0])).
  - f_equal. clear Hr. assert (∀ acc, fold_left (λ out r, out ++ [nth (Z.to_nat r) vals 0]) rows acc =
      acc ++ map (λ r, nth (Z.to_nat r) vals 0) rows) as H; [|apply H].
    induction rows as [|r rows IH]; intros acc; cbn; [by rewrite app_nil_r|]. by rewrite IH, <- app_assoc.
  - intros a r Hin. rewrite Forall_forall in Hr. destruct (Hr r Hin) as [H0 H1].
    destruct (Z.ltb_spec r (Z.of_nat n)); [|lia]. cbn [assert_ mbind outcome_bind]. by rewrite (rd_total 0) by lia.
Qed.

Lemma gather_kernel_bad vals rows1 r rows2 n :
  (n ≤ length vals)%nat → Forall (λ r, 0 ≤ r < Z.of_nat n) rows1 → Z.of_nat n ≤ r →
  gather_kernel vals (rows1 ++ r :: rows2) n = Crash AssertFailed.
Proof.
  intros Hn Hr Hbad. unfold gather_kernel. rewrite fold_outcome_app.
  pose proof (gather_kernel_spec vals rows1 n Hn Hr) as H. unfold gather_kernel in H. rewrite H.
  cbn. destruct (Z.ltb_spec r (Z.of_nat n)); [lia|]. done.
Qed.

(** A column's values as [gather] encodes them: bit patterns. *)
Definition patterns (v : View) (id : Z) : list Z := words (wide_width (v_type v id)) (v_bytes v id).

Lemma length_patterns v id : length (patterns v id) = v_count (wide_width (v_type v id)) v id.
Proof.
  unfold patterns, words, v_count, count_of, v_size. by rewrite length_map, length_seq, <- Nat2Z.inj_div, Nat2Z.id.
Qed.

Lemma rows_patterns v id : Z.of_nat (length (patterns v id)) = v_rows v id.
Proof.
  rewrite length_patterns. unfold v_count, count_of, v_rows, wide_width. unfold v_size.
  destruct (v_type v id); [rewrite decide_True by done|rewrite decide_False by done..]; cbn [type_width];
    (rewrite Z2Nat.id; [done|apply Z.div_pos; lia]).
Qed.

Lemma gather_runs e id rows :
  engine_wf e → catalog_has id e = true →
  runs settled_step (gather id rows) e
    (gather_kernel (patterns (view e) id) rows (length (patterns (view e) id))).
Proof.
  intros Hwf Hh. unfold gather. apply require_run; [done|]. rewrite view_has in Hh.
  apply runs_lend_wf; [done|]. apply with_host_runs; [apply Hwf|done|]. intros e1 Hok1 Hv1.
  eapply runs_eq; [|by apply runs_lift]. unfold lift. rewrite view_type, Hv1, length_patterns. done.
Qed.

(** *** Matching rows *)

Definition matches (f : list Z) (pred : MatrixPredicate) : list Z :=
  map Z.of_nat (List.filter (λ i, matrix_pred_match (nth i f 0) pred) (seq 0 (length f))).

(** At most [limit] of them; [0] is no limit. *)
Definition limited (limit : Z) (l : list Z) : list Z := if limit =? 0 then l else take (Z.to_nat limit) l.

Lemma matching_loop_spec f pred limit : 0 ≤ limit → ∀ n i rows,
  (i + n ≤ length f)%nat → (limit = 0 ∨ Z.of_nat (length rows) < limit) →
  matching_loop f pred limit i n rows = Ret (limited limit
    (rows ++ map Z.of_nat (List.filter (λ i, matrix_pred_match (nth i f 0) pred) (seq i n)))).
Proof.
  intros Hl. induction n as [|n IH]; intros i rows Hn Hlim.
  { cbn. rewrite app_nil_r. unfold limited. destruct (Z.eqb_spec limit 0); [done|]. by rewrite take_ge by lia. }
  cbn [matching_loop]. rewrite (rd_total 0) by lia. cbn [mbind outcome_bind seq List.filter map].
  destruct (matrix_pred_match (nth i f 0) pred); [|apply IH; [lia|done]].
  cbn [map].
  destruct (Z.eqb_spec limit 0) as [->|H0]; cbn [negb andb].
  - rewrite IH by (try lia; auto). f_equal. by rewrite <- app_assoc.
  - destruct (Z.leb_spec limit (Z.of_nat (length (rows ++ [Z.of_nat i])))) as [Hle|Hgt].
    + f_equal. unfold limited. destruct (Z.eqb_spec limit 0); [done|].
      assert (length (rows ++ [Z.of_nat i]) = S (length rows)) as Hlen by (rewrite length_app; cbn; lia).
      match goal with |- _ = take _ (_ ++ _ :: ?l) =>
        change (rows ++ Z.of_nat i :: l) with (rows ++ [Z.of_nat i] ++ l) end.
      by rewrite app_assoc, take_app_le, take_ge by lia.
    + rewrite IH by (try lia; auto). f_equal. by rewrite <- app_assoc.
Qed.

Lemma matching_rows_runs e id pred limit :
  engine_wf e → v_has (view e) id = true → 0 ≤ limit →
  runs settled_step (matching_rows id pred limit) e (Ret (limited limit (matches (v_u32s (view e) id) pred))).
Proof.
  intros Hwf Hh Hl. unfold matching_rows. apply runs_touch_wf; [done|done|]. intros e1 Hwf1 Hv1.
  apply runs_lend_wf; [done|]. apply with_host_runs; [apply Hwf1|by rewrite Hv1|]. intros e2 Hok2 Hv2. rewrite Hv1.
  assert (count_of 4 (v_size (view e) id) = length (v_u32s (view e) id)) as ->.
  { unfold v_u32s, u32s, words, count_of, v_size. by rewrite length_map, length_seq, <- Nat2Z.inj_div, Nat2Z.id. }
  eapply runs_eq; [|by apply runs_lift]. unfold lift. unfold v_u32s.
  rewrite matching_loop_spec; [done|done|lia|cbn; lia].
Qed.

(** The first row that is out of range. *)
Lemma Exists_first (n : Z) rows :
  Forall (λ r, 0 ≤ r) rows → Exists (λ r, ¬ r < n) rows →
  ∃ rows1 r rows2, rows = rows1 ++ r :: rows2 ∧ Forall (λ r, 0 ≤ r < n) rows1 ∧ n ≤ r.
Proof.
  induction 1 as [|r rows Hr _ IH]; intros Hex; [by apply Exists_nil in Hex|].
  destruct (Z_lt_dec r n) as [Hlt|Hge]; [|exists [], r, rows; split; [done|]; split; [done|lia]].
  apply Exists_cons in Hex as [?|Hex]; [done|].
  destruct (IH Hex) as (r1 & x & r2 & -> & H1 & Hx). exists (r :: r1), x, r2.
  split; [done|]. split; [constructor; [lia|done]|done].
Qed.

(** ** Theorems *)

(** C26: [hash_join] over two u32 key columns, on whatever tiers, returns every
    pair of rows with equal keys exactly once and nothing else (a column may be
    joined with itself); [hash_join_count] returns the number of those pairs
    without building them; both leave the catalog as it was. *)
Theorem hash_join_correct l r e :
  engine_wf e → catalog_has l e = true → catalog_has r e = true →
  column_type l e = U32 → column_type r e = U32 →
  Z.of_nat (length (v_u32s (view e) l)) < 2 ^ 64 →
  ∃ pairs e' e'',
    hash_join l r e = Ret (pairs, e') ∧ hash_join_count l r e = Ret (u64 (Z.of_nat (length pairs)), e'') ∧
    NoDup pairs ∧
    (∀ i j, (Z.of_nat i, Z.of_nat j) ∈ pairs ↔
       (i < length (v_u32s (view e) l))%nat ∧ (j < length (v_u32s (view e) r))%nat ∧
       nth i (v_u32s (view e) l) 0 = nth j (v_u32s (view e) r) 0) ∧
    engine_wf e' ∧ view e' = view e ∧ engine_wf e'' ∧ view e'' = view e.
Proof.
  intros Hwf Hl Hr Tl Tr Hmax.
  pose proof (join_columns_runs U32 l r join_kernel e Hwf Hl Hr Tl Tr) as H1.
  pose proof (join_columns_runs U32 l r count_kernel e Hwf Hl Hr Tl Tr) as H2.
  cbn [col_values] in H1, H2. rewrite join_kernel_spec in H1. rewrite count_kernel_spec in H2 by exact Hmax.
  destruct H1 as (e1 & H1 & [Hw1 Hv1 _]). destruct H2 as (e2 & H2 & [Hw2 Hv2 _]).
  exists (join_ref (v_u32s (view e) l) (v_u32s (view e) r)), e1, e2.
  split; [exact H1|]. split; [exact H2|]. split; [apply join_ref_nodup|]. split; [|done].
  intros i j. apply join_ref_spec.
Qed.

(** [gather] returns the value of each row asked for, in the order asked, wide
    values as bit patterns; a row the column does not have is an assertion
    failure. *)
Theorem gather_correct id rows e :
  engine_wf e → catalog_has id e = true → Forall (λ r, 0 ≤ r) rows →
  (Forall (λ r, r < v_rows (view e) id) rows ∧
   ∃ e', gather id rows e = Ret (map (λ r, nth (Z.to_nat r) (patterns (view e) id) 0) rows, e') ∧
     engine_wf e' ∧ view e' = view e) ∨
  (Exists (λ r, v_rows (view e) id ≤ r) rows ∧ gather id rows e = Crash AssertFailed).
Proof.
  intros Hwf Hh Hpos. pose proof (gather_runs e id rows Hwf Hh) as H. rewrite <- rows_patterns.
  destruct (decide (Forall (λ r, r < Z.of_nat (length (patterns (view e) id))) rows)) as [Hall|Hex%not_Forall_Exists];
    [| |apply _].
  - left. split; [done|]. rewrite gather_kernel_spec in H; [|done|].
    + destruct H as (e' & H & [Hw Hv _]). eauto.
    + apply Forall_forall. intros r Hr. rewrite Forall_forall in Hpos, Hall. auto.
  - right. split; [eapply Exists_impl; [exact Hex|]; cbn; lia|].
    destruct (Exists_first _ rows Hpos Hex) as (r1 & r & r2 & -> & H1 & Hr).
    by rewrite gather_kernel_bad in H by (done || lia).
Qed.

(** [SELECT col WHERE fcol <pred> LIMIT n]: the values of the first [n] rows
    (all of them when [n] is 0) whose filter value matches, in row order. *)
Theorem project_correct id fid pred limit e :
  engine_wf e → catalog_has id e = true → catalog_has fid e = true → column_type fid e = U32 →
  v_rows (view e) fid = v_rows (view e) id → 0 ≤ limit →
  ∃ e', project id true fid pred limit e =
          Ret (map (λ r, nth (Z.to_nat r) (patterns (view e) id) 0)
                 (limited limit (matches (v_u32s (view e) fid) pred)), e') ∧
        engine_wf e' ∧ view e' = view e.
Proof.
  intros Hwf Hh Hf Ht Hrows Hl. pose proof Hf as Hf'. rewrite view_has in Hf'.
  destruct (matching_rows_runs e fid pred limit Hwf Hf' Hl) as (e1 & H1 & [Hw1 Hv1 Hs1]).
  set (rows := limited limit (matches (v_u32s (view e) fid) pred)) in *.
  assert (catalog_has id e1 = true) as Hh1 by (by rewrite view_has, Hv1, <- view_has).
  pose proof (gather_runs e1 id rows Hw1 Hh1) as H2. rewrite Hv1 in H2.
  rewrite gather_kernel_spec in H2; [|done|].
  - destruct H2 as (e2 & H2 & [Hw2 Hv2 _]). exists e2. split; [|split; [done|congruence]].
    unfold project. rewrite (stM_bind_run _ _ _ _ _ H1). exact H2.
  - rewrite rows_patterns, <- Hrows, <- rows_patterns.
    assert (length (patterns (view e) fid) = length (v_u32s (view e) fid)) as ->.
    { rewrite view_type in Ht. unfold patterns, wide_width. rewrite Ht. rewrite decide_True by done. done. }
    assert (Forall (λ r, 0 ≤ r < Z.of_nat (length (v_u32s (view e) fid))) (matches (v_u32s (view e) fid) pred)) as Hm.
    { apply Forall_forall. intros x (i & -> & Hi)%list_elem_of_fmap. apply list_elem_of_In, filter_In in Hi as [Hi _].
      apply in_seq in Hi. lia. }
    unfold rows, limited. destruct (limit =? 0); [done|]. by apply Forall_take.
Qed.

(** ** Witnesses *)

Lemma hash_join_correct_witness :
  ∃ pairs e' e'', hash_join 2 2 sample = Ret (pairs, e') ∧ hash_join_count 2 2 sample = Ret (u64 (Z.of_nat (length pairs)), e'') ∧
    (0, 2) ∈ pairs.
Proof.
  destruct (hash_join_correct 2 2 sample sample_wf) as (pairs & e' & e'' & H1 & H2 & _ & H3 & _).
  - vm_compute. reflexivity.
  - vm_compute. reflexivity.
  - vm_compute. reflexivity.
  - vm_compute. reflexivity.
  - vm_compute. reflexivity.
  - exists pairs, e', e''. split; [exact H1|]. split; [exact H2|].
    apply (proj2 (H3 0%nat 2%nat)). split; [vm_compute; lia|]. split; [vm_compute; lia|]. vm_compute. reflexivity.
Defined.

Lemma gather_correct_witness : gather 2 [0; 3] sample = Crash AssertFailed.
Proof.
  destruct (gather_correct 2 [0; 3] sample sample_wf) as [[H _]|[_ H]].
  - vm_compute. reflexivity.
  - repeat constructor; lia.
  - exfalso. apply Forall_cons in H as [_ [H _]%Forall_cons]. vm_compute in H. discriminate.
  - exact H.
Defined.

Lemma project_correct_witness :
  ∃ e', project 1 true 2 (mkPred EQ 0 0) 1 sample = Ret ([5], e') ∧ view e' = view sample.
Proof.
  destruct (project_correct 1 2 (mkPred EQ 0 0) 1 sample sample_wf) as (e' & H1 & _ & H2).
  - vm_compute. reflexivity.
  - vm_compute. reflexivity.
  - vm_compute. reflexivity.
  - vm_compute. reflexivity.
  - lia.
  - exists e'. split; [|exact H2]. refine (eq_trans H1 _). vm_compute. reflexivity.
Defined.
