(* ===== verification/EngineDerived.v ===== *)
(** * EngineDerived: results computed from queries

    Top-N groups, HAVING, AVG and COUNT DISTINCT, the legacy scan entry point
    and the latency percentiles. *)

From Stdlib Require Import Sorted.
From stdpp Require Import sorting.
From S2P Require Export EngineCorrect EngineJoin.

(** What the standard library asks of a comparator. *)
Record strict_weak {A} (comp : A → A → bool) : Prop := {
  sw_irrefl a : comp a a = false;
  sw_trans a b c : comp a b = true → comp b c = true → comp a c = true;
  sw_incomp a b c : comp a b = false → comp b c = false → comp a c = false
}.

(** [std::partial_sort(first, first + k, last, comp)]: the elements permuted, the
    first [k] in the order of the comparator, and none of the others before one of
    them; the order of equal elements and of the others is not specified. *)
Class PartialSort := {
  partial_sort : (Z * Z → Z * Z → bool) → nat → list (Z * Z) → list (Z * Z);
  partial_sort_spec comp k l :
    strict_weak comp → (k ≤ length l)%nat →
    partial_sort comp k l ≡ₚ l ∧ StronglySorted (λ a b, comp b a = false) (take k (partial_sort comp k l)) ∧
    ∀ a b, a ∈ take k (partial_sort comp k l) → b ∈ drop k (partial_sort comp k l) → comp b a = false
}.

(** [a.second > b.second] *)
Definition by_value_desc (a b : Z * Z) : bool := b.2 <? a.2.

Definition indexed (out : list Z) : list (Z * Z) := imap (λ g v, (Z.of_nat g, v)) out.

(** [distinct_count] over the rows that are not null; two values are the same
    element of the set when the element type says they are equal. *)
Definition distinct_count (eqb : Z → Z → bool) (v : list Z) (n : nat) (nulls : option (list Z)) : outcome Z :=
  seen ← for_loop 0 n (λ i seen,
    skip ← null_at nulls i;
    if (skip : bool) then Ret seen
    else x ← rd v i; Ret (if existsb (eqb x) seen then seen else seen ++ [x])) [];
  Ret (Z.of_nat (length seen)).

Definition cmp_u64 (c : MatrixCmp) (v a b : Z) : bool :=
  match c with
  | GE => a <=? v
  | LT => v <? a
  | LE => v <=? a
  | EQ => v =? a
  | NE => negb (v =? a)
  | BETWEEN => (a <=? v) && (v <=? b)
  | GT => a <? v
  end.

Section derived.
Context `{!HashOrder Z} {psort : PartialSort}.

Definition top_groups (q : MatrixQuery) (k : nat) (ns : Z) : stM Engine (list (Z * Z)) :=
  if negb (grouped q) then mret []
  else
    '(st, out) ← execute_query q ns;
    if decide (st = OK) then
      let kk := Nat.min k (length out) in
      mret (take kk (partial_sort by_value_desc kk (indexed out)))
    else mret [].

Definition having (q : MatrixQuery) (c : MatrixCmp) (threshold upper ns : Z) : stM Engine (list (Z * Z)) :=
  if negb (grouped q) then mret []
  else
    '(st, out) ← execute_query q ns;
    if decide (st = OK)
    then mret (List.filter (λ p, cmp_u64 c p.2 threshold upper) (indexed out)) else mret [].

Definition with_agg (op : MatrixAggOp) (q : MatrixQuery) : MatrixQuery :=
  {| value_col := value_col q; agg := op; has_filter := has_filter q; threshold := threshold q; cmp := cmp q;
     upper := upper q; lo_i64 := lo_i64 q; hi_i64 := hi_i64 q; lo_f64 := lo_f64 q; hi_f64 := hi_f64 q;
     grouped := grouped q; key_col := key_col q; num_groups := num_groups q; limit := limit q;
     filter_col := filter_col q |}.

(** One average: a sum and a count as the column's type encodes them. *)
Definition average_of (ty : MatrixType) (s c : Z) : Z :=
  let sum := match ty with F64 => s | I64 => f64_of_Z (i64 s) | U32 => f64_of_Z s end in
  let count := match ty with F64 => c | _ => f64_of_Z c end in
  if negb (f64_eqb count F64_ZERO) then f64_div sum count else F64_QNAN.

Definition average (q : MatrixQuery) (ns1 ns2 : Z) : stM Engine (list Z) :=
  '(st1, sv) ← execute_query (with_agg AGG_SUM q) ns1;
  if decide (st1 = OK) then
    '(st2, cv) ← execute_query (with_agg AGG_COUNT q) ns2;
    if decide (st2 = OK) then
      if (length sv =? length cv)%nat
      then ty ← gets (column_type (value_col q)); mret (zip_with (average_of ty) sv cv)
      else mret []
    else mret []
  else mret [].

Definition elem_eqb (ty : MatrixType) : Z → Z → bool := match ty with F64 => f64_eqb | _ => Z.eqb end.

Definition count_distinct (col_id : Z) : stM Engine Z :=
  _ ← touch_column col_id;
  r ← with_host col_id (λ size bs e,
        let ty := column_type col_id e in
        let n := count_of (type_width ty) size in
        r ← distinct_count (elem_eqb ty) (col_values ty bs) n (value_nulls col_id n e);
        Ret (r, e));
  _ ← maybe_rebalance;
  mret r.

(** [execute_scan]: column 0 is the fixed resident column of [n] rows. *)
Definition execute_scan (n : nat) (threshold col_id : Z) (op : MatrixAggOp) : stM Engine Z :=
  c ← (if col_id =? 0 then (λ e, c ← matrix_cpu_reduce (scan_column_ e) n threshold op; Ret (c, e))
       else scan_tiered_column col_id (mkPred GT threshold 0) op true);
  _ ← modify (λ e, set_scans (u64 (scans_ e + 1)) (u64 (scan_result_sum_ e + c)) e);
  mret c.

(** ** Latency percentiles *)

(** [static_cast<uint64_t>] of a double. *)
Definition f64_to_u64 (x : Z) : outcome Z :=
  match f64_trunc x with
  | Some n => if (0 <=? n) && (n <? 2 ^ 64) then Ret n else Crash Undefined
  | None => Crash Undefined
  end.

Fixpoint percentile_loop (b : Z) (hist : list Z) (cum target max : Z) : Z :=
  match hist with
  | [] => max
  | h :: hist' =>
      let cum := u64 (cum + h) in
      if target <=? cum then (if b =? 0 then 0 else Z.shiftl 1 b)
      else percentile_loop (b + 1) hist' cum target max
  end.

Definition query_latency_percentile_ns (p : Z) (st : QueryStats) : outcome Z :=
  if query_count_ st =? 0 then Ret 0
  else
    target ← f64_to_u64 (f64_mul p (f64_of_Z (query_count_ st)));
    Ret (percentile_loop 0 (latency_hist_ st) 0 target (max_query_ns_ st)).

(** ** Facts about the kernels *)

Lemma lookup_indexed out g v : (Z.of_nat g, v) ∈ indexed out ↔ out !! g = Some v.
Proof.
  unfold indexed. rewrite list_elem_of_lookup. split.
  - intros [i Hi]. rewrite list_lookup_imap in Hi. destruct (out !! i) eqn:E; [|done]. cbn in Hi.
    injection Hi as Hi ->. apply Nat2Z.inj in Hi. by subst.
  - intros H. exists g. by rewrite list_lookup_imap, H.
Qed.

Lemma indexed_index out a : a ∈ indexed out → ∃ g, a = (Z.of_nat g, a.2) ∧ out !! g = Some a.2.
Proof.
  intros Ha. pose proof Ha as Ha'. unfold indexed in Ha. apply list_elem_of_lookup in Ha as [i Hi].
  rewrite list_lookup_imap in Hi. destruct (out !! i) eqn:E; [|done]. injection Hi as <-. by exists i.
Qed.

Lemma length_indexed out : length (indexed out) = length out.
Proof. apply length_imap. Qed.

(** The set after the loop: the distinct values, in order of appearance. *)
Definition kept_values (nulls : option (list Z)) (v : list Z) (n : nat) : list Z :=
  select (λ i, negb (is_null nulls i)) v n.

Lemma distinct_count_spec v nulls :
  mask_ok nulls (length v) →
  distinct_count Z.eqb v (length v) nulls
  = Ret (Z.of_nat (size (list_to_set (C := gset Z) (kept_values nulls v (length v))))).
Proof.
  intros Hm. unfold distinct_count.
  assert (∀ n, (n ≤ length v)%nat → ∃ seen,
    for_loop 0 n (λ i seen, skip ← null_at nulls i;
      if (skip : bool) then Ret seen
      else x ← rd v i; Ret (if existsb (Z.eqb x) seen then seen else seen ++ [x])) [] = Ret seen ∧
    NoDup seen ∧ ∀ x, x ∈ seen ↔ x ∈ kept_values nulls v n) as H.
  { induction n as [|n IH]; intros Hn; [exists []; split; [done|]; split; [constructor|done]|].
    destruct (IH ltac:(lia)) as (seen & Hs & Hnd & Hin). rewrite for_loop_S, Hs. cbn [mbind outcome_bind].
    rewrite (null_at_total nulls (length v)) by (done || lia). cbn [mbind outcome_bind].
    assert (kept_values nulls v (S n) = kept_values nulls v n ++ (if is_null nulls n then [] else [nth n v 0])) as Hk.
    { unfold kept_values, select. rewrite seq_S, List.filter_app, map_app. cbn. by destruct (is_null nulls n). }
    rewrite Hk. destruct (is_null nulls n); [exists seen; rewrite app_nil_r; done|].
    rewrite (rd_total 0) by lia. cbn [mbind outcome_bind]. destruct (existsb _ seen) eqn:Hex.
    - exists seen. split; [done|]. split; [done|]. intros x. rewrite elem_of_app, list_elem_of_singleton, <- Hin.
      apply existsb_exists in Hex as (y & Hy%list_elem_of_In & <-%Z.eqb_eq). intuition congruence.
    - exists (seen ++ [nth n v 0]). split; [done|]. split.
      + apply NoDup_app. split; [done|]. split; [|apply NoDup_singleton].
        intros x Hx ->%list_elem_of_singleton. apply not_true_iff_false in Hex. apply Hex, existsb_exists.
        exists (nth n v 0). split; [by apply list_elem_of_In|apply Z.eqb_refl].
      + intros x. by rewrite !elem_of_app, Hin. }
  destruct (H (length v) ltac:(lia)) as (seen & -> & Hnd & Hin). cbn [mbind outcome_bind]. do 2 f_equal.
  rewrite <- (size_list_to_set (C := gset Z) seen Hnd). f_equal. apply set_eq. intros x. set_solver.
Qed.

(** A derived query whose underlying query is answered. *)
Lemma execute_query_answered q ns e out :
  engine_wf e → calm e → query_ref (view e) q = Ret (OK, out) →
  ∃ e', execute_query q ns e = Ret ((OK, out), e') ∧ engine_wf e' ∧ view e' = view e.
Proof.
  intros Hwf Hc Href. pose proof (execute_query_impl_runs e q Hwf Hc) as H. unfold runs, ran in H. rewrite Href in H.
  destruct H as (e' & Hrun & [Hw Hv _]). unfold execute_query. rewrite Hrun. cbn. eexists. split; [done|].
  split; [destruct Hw; by split|done].
Qed.

Lemma top_groups_run q k ns e out :
  engine_wf e → calm e → grouped q = true → query_ref (view e) q = Ret (OK, out) →
  ∃ e', top_groups q k ns e = Ret (take (Nat.min k (length out)) (partial_sort by_value_desc (Nat.min k (length out)) (indexed out)), e') ∧
    engine_wf e' ∧ view e' = view e.
Proof.
  intros Hwf Hc Hg Href. destruct (execute_query_answered q ns e out Hwf Hc Href) as (e' & Hrun & Hw & Hv).
  exists e'. split; [|done]. unfold top_groups. rewrite Hg. cbn [negb].
  rewrite (stM_bind_run _ _ _ _ _ Hrun). by rewrite decide_True.
Qed.

(** ** Theorems *)

Lemma StronglySorted_weaken {A} (R S : A → A → Prop) l :
  (∀ a b, R a b → S a b) → StronglySorted R l → StronglySorted S l.
Proof. intros H. induction 1 as [|x l _ IH Hx]; constructor; [done|]. eapply Forall_impl; [done|]. intros y. apply H. Qed.

Lemma by_value_desc_weak : strict_weak by_value_desc.
Proof. split; unfold by_value_desc; intros; rewrite ?Z.ltb_lt, ?Z.ltb_ge in *; lia. Qed.

(** C31: [top_groups] returns the [k] groups with the largest aggregates (all of
    them when there are fewer), largest first: each with its own aggregate, no
    group twice, and no group left out has a larger aggregate than one
    returned.  Larger is meant of the 64-bit words the query returns: that is the
    order of the values for a COUNT and for unsigned columns, not for the bit
    patterns of int64 or double aggregates. *)
Theorem top_groups_correct q k ns e out :
  engine_wf e → calm e → grouped q = true → query_ref (view e) q = Ret (OK, out) →
  ∃ top e', top_groups q k ns e = Ret (top, e') ∧ view e' = view e ∧
    length top = Nat.min k (length out) ∧ NoDup top ∧
    StronglySorted (λ a b, b.2 ≤ a.2) top ∧
    (∀ a, a ∈ top → ∃ g, a = (Z.of_nat g, a.2) ∧ out !! g = Some a.2) ∧
    (∀ g v a, out !! g = Some v → (Z.of_nat g, v) ∉ top → a ∈ top → v ≤ a.2).
Proof.
  intros Hwf Hc Hg Href. destruct (top_groups_run q k ns e out Hwf Hc Hg Href) as (e' & Hrun & _ & Hv).
  set (kk := Nat.min k (length out)) in *.
  destruct (partial_sort_spec by_value_desc kk (indexed out) by_value_desc_weak) as (Hp & Hs & Hle);
    [rewrite length_indexed; lia|].
  exists (take kk (partial_sort by_value_desc kk (indexed out))), e'. split; [done|]. split; [done|].
  split; [rewrite length_take, Hp, length_indexed; lia|].
  rewrite <- (take_drop kk (partial_sort by_value_desc kk (indexed out))) in Hp.
  set (top := take _ _) in *. set (rest := drop _ _) in *.
  split; [|split; [|split]].
  - assert (NoDup (indexed out)) as Hnd.
    { apply NoDup_alt. intros i j [g v] Hi Hj. unfold indexed in Hi, Hj. rewrite list_lookup_imap in Hi, Hj.
      destruct (out !! i); [|done]. destruct (out !! j); [|done]. injection Hi as Hi _. injection Hj as Hj _. lia. }
    rewrite <- Hp in Hnd. apply NoDup_app in Hnd. apply Hnd.
  - revert Hs. apply StronglySorted_weaken. intros a b. apply Z.ltb_ge.
  - intros a Ha. apply indexed_index. rewrite <- Hp. set_solver.
  - intros g v a Hgv Hnin Ha. apply Z.ltb_ge, (Hle a (Z.of_nat g, v) Ha).
    apply lookup_indexed in Hgv. rewrite <- Hp, elem_of_app in Hgv. by destruct Hgv.
Qed.

(** HAVING keeps exactly the groups whose aggregate satisfies the comparison,
    in group order. *)
Theorem having_correct q c threshold upper ns e out :
  engine_wf e → calm e → grouped q = true → query_ref (view e) q = Ret (OK, out) →
  ∃ e', having q c threshold upper ns e =
      Ret (List.filter (λ p, matrix_pred_match p.2 (mkPred c threshold upper)) (indexed out), e') ∧
    view e' = view e ∧
    ∀ g v, (Z.of_nat g, v) ∈ List.filter (λ p, matrix_pred_match p.2 (mkPred c threshold upper)) (indexed out) ↔
      out !! g = Some v ∧ matrix_pred_match v (mkPred c threshold upper) = true.
Proof.
  intros Hwf Hc Hg Href. destruct (execute_query_answered q ns e out Hwf Hc Href) as (e' & Hrun & _ & Hv).
  exists e'. split; [|split; [done|]].
  - unfold having. rewrite Hg. cbn [negb]. rewrite (stM_bind_run _ _ _ _ _ Hrun). rewrite decide_True by done.
    reflexivity.
  - intros g v. rewrite list_elem_of_In, filter_In, <- list_elem_of_In. by rewrite lookup_indexed.
Qed.

(** [count_distinct] over an integer column is the number of different values
    in its rows that are not null. *)
Theorem count_distinct_correct id e :
  engine_wf e → calm e → catalog_has id e = true → column_type id e ≠ F64 →
  let vals := col_values (column_type id e) (v_bytes (view e) id) in
  let nulls := v_nulls (view e) id (length vals) in
  ∃ e', count_distinct id e =
      Ret (Z.of_nat (size (list_to_set (C := gset Z) (kept_values nulls vals (length vals)))), e') ∧
    engine_wf e' ∧ view e' = view e.
Proof.
  intros Hwf Hc Hh Ht vals nulls. rewrite view_has in Hh.
  assert (mask_ok nulls (length vals)) as Hm.
  { unfold nulls, v_nulls. destruct (v_mask _ _) as [m|]; [|done].
    destruct (Nat.eqb_spec (length m) (length vals)) as [Hl|]; cbn; [lia|done]. }
  assert (runs settled_step (count_distinct id) e
    (Ret (Z.of_nat (size (list_to_set (C := gset Z) (kept_values nulls vals (length vals))))))) as (e' & H & [Hw Hv _]).
  { apply (runs_touch _ _ _ _ _ (calm_ready e Hwf Hc) I Hh). intros e1 Hr1 Hv1.
    apply (runs_then_rebalance _ _ _ _ Hr1). apply with_host_runs; [by eapply ready_ok|by rewrite Hv1|].
    intros e2 Hok2 Hv2. rewrite Hv1. rewrite <- (distinct_count_spec vals nulls Hm).
    eapply runs_eq; [|by apply runs_lift]. unfold lift.
    change (value_nulls id ?n e2) with (v_nulls (view e2) id n). rewrite view_type, Hv2, Hv1.
    pose proof (v_count_values e id) as Hn. unfold v_count in Hn. rewrite Hn.
    change (v_type (view e) id) with (column_type id e) in *. fold vals. fold nulls.
    assert (elem_eqb (column_type id e) = Z.eqb) as -> by (by destruct (column_type id e)). done. }
  eauto.
Qed.

(** ** Latency *)

Lemma latency_bucket_range fuel x :
  0 < x → let b := Z.of_nat (latency_bucket fuel x) in
  b ≤ Z.of_nat fuel ∧ 2 ^ b ≤ x ∧ (b < Z.of_nat fuel → x < 2 ^ (b + 1)).
Proof.
  revert x. induction fuel as [|f IH]; intros x Hx; cbn [latency_bucket]; [cbn; lia|].
  destruct (Z.ltb_spec 1 x) as [H1|H1]; [|assert (x = 1) as -> by lia; cbn; lia].
  assert (x = 2 * (x / 2) + x `mod` 2) as Hdm by (apply Z.div_mod; lia).
  pose proof (Z.mod_pos_bound x 2 ltac:(lia)).
  rewrite Z.shiftr_div_pow2 by lia. change (2 ^ 1) with 2.
  destruct (IH (x / 2) ltac:(lia)) as (Hf & Hlo & Hhi).
  set (k := Z.of_nat (latency_bucket f (x / 2))) in *. rewrite Nat2Z.inj_succ. fold k.
  assert (0 ≤ k) by lia. unfold Z.succ.
  assert (2 ^ (k + 1) = 2 * 2 ^ k) as Hp by (rewrite Z.pow_add_r by lia; lia).
  assert (2 ^ (k + 1 + 1) = 2 * 2 ^ (k + 1)) as Hp2 by (rewrite (Z.pow_add_r 2 (k + 1) 1) by lia; lia).
  split; [lia|]. split; [lia|]. intros Hlt. specialize (Hhi ltac:(lia)). lia.
Qed.

(** A query of [ns] nanoseconds is counted in the bucket [b] with
    [2^b <= ns + 1 < 2^(b+1)] (the last bucket has no upper end).  The value a
    percentile reports for bucket [b] is [2^b]: no query of the bucket is
    shorter by more than a nanosecond, so it is a lower bound of the bucket. *)
Theorem latency_bucket_is_log2 ns :
  0 ≤ ns < 2 ^ 64 - 1 →
  let b := latency_bucket (LAT_BUCKETS - 1) (u64 (ns + 1)) in
  (b < LAT_BUCKETS)%nat ∧ 2 ^ Z.of_nat b ≤ ns + 1 ∧
  ((b < LAT_BUCKETS - 1)%nat → ns + 1 < 2 ^ (Z.of_nat b + 1)) ∧
  (∀ h, (0 < b)%nat → h = replicate b 0 ++ [1] → percentile_loop 0 h 0 1 ns = 2 ^ Z.of_nat b).
Proof.
  intros Hns b. destruct (latency_bucket_range (LAT_BUCKETS - 1) (u64 (ns + 1))) as (H1 & H2 & H3).
  { rewrite u64_small by (unfold in_u64; lia). lia. }
  fold b in H1, H2, H3. rewrite u64_small in H2, H3 by (unfold in_u64; lia). unfold LAT_BUCKETS in *.
  split; [lia|]. split; [done|]. split; [intros ?; apply H3; lia|].
  intros h Hb ->.
  assert (∀ k b0, 0 ≤ b0 → (0 < b0 + Z.of_nat k) →
    percentile_loop b0 (replicate k 0 ++ [1]) 0 1 ns = 2 ^ (b0 + Z.of_nat k)) as Hloop.
  { induction k as [|k IH]; intros b0 Hb0 Hpos; cbn [replicate app percentile_loop].
    - change (1 <=? u64 (0 + 1)) with true. destruct (Z.eqb_spec b0 0); [lia|]. by rewrite Z.shiftl_1_l, Z.add_0_r.
    - change (u64 (0 + 0)) with 0. change (1 <=? 0) with false. cbv iota. rewrite IH by lia. f_equal. lia. }
  rewrite Hloop by lia. done.
Qed.

(** Every query is counted in exactly one bucket: the histogram sums to the
    number of queries. *)
Theorem latency_histogram_sums ns e :
  length (latency_hist_ (stats_ e)) = LAT_BUCKETS →
  Forall (λ c, 0 ≤ c < 2 ^ 64 - 1) (latency_hist_ (stats_ e)) →
  0 ≤ query_count_ (stats_ e) < 2 ^ 64 - 1 → 0 ≤ ns < 2 ^ 64 - 1 →
  sum_list_Z (latency_hist_ (stats_ e)) = query_count_ (stats_ e) →
  let st := stats_ (record_query_latency ns e) in
  length (latency_hist_ st) = LAT_BUCKETS ∧ sum_list_Z (latency_hist_ st) = query_count_ st ∧
  query_count_ st = query_count_ (stats_ e) + 1 ∧ max_query_ns_ st = Z.max (max_query_ns_ (stats_ e)) ns.
Proof.
  intros Hlen Hh Hq Hns Hsum. unfold record_query_latency.
  cbn [stats_ set_stats latency_hist_ query_count_ max_query_ns_]. rewrite length_alter. split; [done|].
  destruct (latency_bucket_range (LAT_BUCKETS - 1) (u64 (ns + 1))) as (H1 & _ & _).
  { rewrite u64_small by (unfold in_u64; lia). lia. }
  set (b := latency_bucket _ _) in *. clearbody b.
  assert (sum_list_Z (alter (λ c, u64 (c + 1)) b (latency_hist_ (stats_ e))) = sum_list_Z (latency_hist_ (stats_ e)) + 1) as Hs.
  { assert (b < length (latency_hist_ (stats_ e)))%nat as Hb by (unfold LAT_BUCKETS in *; lia).
    clear -Hh Hb. revert b Hb. induction Hh as [|c l Hc _ IH]; intros b Hb; cbn in Hb; [lia|].
    destruct b as [|b]; cbn; [rewrite u64_small by (unfold in_u64; lia); lia|].
    change (foldr Z.add 0 ?l) with (sum_list_Z l). rewrite IH by lia. lia. }
  rewrite Hs, Hsum. rewrite u64_small by (unfold in_u64; lia). split; [done|]. split; [done|].
  destruct (Z.ltb_spec (max_query_ns_ (stats_ e)) ns); lia.
Qed.
End derived.

(** ** Witnesses *)

Lemma StronglySorted_take {A} (R : A → A → Prop) k l : StronglySorted R l → StronglySorted R (take k l).
Proof.
  revert k. induction l as [|x l IH]; intros [|k] H; try constructor; inversion H; subst.
  - by apply IH.
  - by apply Forall_take.
Qed.

Lemma StronglySorted_split {A} (R : A → A → Prop) l1 l2 a b :
  StronglySorted R (l1 ++ l2) → a ∈ l1 → b ∈ l2 → R a b.
Proof.
  induction l1 as [|x l1 IH]; cbn; intros H Ha Hb; [by apply elem_of_nil in Ha|].
  inversion H as [|? ? H1 H2]; subst. apply elem_of_cons in Ha as [->|Ha]; [|by apply IH].
  rewrite Forall_forall in H2. apply H2. set_solver.
Qed.

(** The elements that do not come after each other. *)
Definition not_after {A} (comp : A → A → bool) (a b : A) : Prop := comp b a = false.

Instance not_after_dec {A} (comp : A → A → bool) : RelDecision (not_after comp).
Proof. intros a b. unfold not_after. apply _. Defined.

(** A partial sort that sorts everything. *)
Program Definition sort_whole : PartialSort :=
  {| partial_sort := λ comp k l, merge_sort (not_after comp) l |}.
Next Obligation.
  intros comp k l Hw Hk. split; [apply merge_sort_Permutation|].
  assert (StronglySorted (not_after comp) (merge_sort (not_after comp) l)) as Hs.
  { apply StronglySorted_merge_sort.
    - intros a b c Hab Hbc. exact (sw_incomp _ Hw c b a Hbc Hab).
    - intros a b. unfold not_after. destruct (comp b a) eqn:E; [right|by left].
      destruct (comp a b) eqn:E'; [|done]. pose proof (sw_trans _ Hw _ _ _ E E') as H.
      by rewrite (sw_irrefl _ Hw) in H. }
  split; [by apply StronglySorted_take|].
  intros a b. apply (StronglySorted_split (not_after comp)). by rewrite take_drop.
Qed.

#[local] Existing Instance elements_order.

Lemma top_groups_correct_witness :
  ∃ top e', top_groups (psort := sort_whole) grouped_query 1 5 sample = Ret (top, e') ∧ length top = 1%nat.
Proof.
  destruct (top_groups_correct (psort := sort_whole) grouped_query 1 5 sample [9; 7] sample_wf sample_calm)
    as (top & e' & H1 & _ & H2 & _).
  - reflexivity.
  - vm_compute. reflexivity.
  - exists top, e'. split; [exact H1|exact H2].
Defined.

Lemma having_correct_witness :
  ∃ e', having grouped_query GE 8 0 5 sample = Ret ([(0, 9)], e').
Proof.
  destruct (having_correct grouped_query GE 8 0 5 sample [9; 7] sample_wf sample_calm) as (e' & H1 & _).
  - reflexivity.
  - vm_compute. reflexivity.
  - exists e'. exact H1.
Defined.

Lemma count_distinct_correct_witness : ∃ e', count_distinct 2 sample = Ret (2, e') ∧ view e' = view sample.
Proof.
  destruct (count_distinct_correct 2 sample sample_wf sample_calm) as (e' & H1 & _ & H2).
  - vm_compute. reflexivity.
  - vm_compute. discriminate.
  - exists e'. split; [|exact H2]. refine (eq_trans H1 _). vm_compute. reflexivity.
Defined.

Lemma latency_bucket_is_log2_witness : latency_bucket (LAT_BUCKETS - 1) (u64 (1000 + 1)) = 9%nat ∧ 2 ^ 9 ≤ 1000 + 1.
Proof.
  assert (latency_bucket (LAT_BUCKETS - 1) (u64 (1000 + 1)) = 9%nat) as E by (vm_compute; reflexivity).
  split; [exact E|]. pose proof (latency_bucket_is_log2 1000 ltac:(lia)) as H. cbv zeta in H. rewrite E in H.
  apply H.
Defined.

Lemma latency_histogram_sums_witness :
  sum_list_Z (latency_hist_ (stats_ (record_query_latency 1000 sample0))) = 1.
Proof.
  destruct (latency_histogram_sums 1000 sample0) as (_ & H & H' & _).
  - reflexivity.
  - apply Forall_forall. intros x Hx%elem_of_replicate_inv. subst. lia.
  - cbn. lia.
  - lia.
  - reflexivity.
  - refine (eq_trans H _). vm_compute. reflexivity.
Defined.
