(* ===== verification/EngineStrings.v ===== *)
(** * EngineStrings: dictionary-encoded string columns

    [load_string_column_dict] stores the rank of each string among the distinct
    strings as a u32 column.  The encoding is proved lossless and monotone: the
    order of the codes is the lexicographic order of the strings. *)

From Stdlib Require Import Sorted.
From S2P Require Export EngineCorrect.

(** ** The order of strings *)

Definition slt (a b : string) : Prop := String.compare a b = Lt.

Lemma ascii_compare_lt_trans a b c :
  Ascii.compare a b = Lt → Ascii.compare b c = Lt → Ascii.compare a c = Lt.
Proof. unfold Ascii.compare. rewrite !N.compare_lt_iff. lia. Qed.

Lemma slt_trans a b c : slt a b → slt b c → slt a c.
Proof.
  unfold slt. revert b c. induction a as [|x a IH]; intros [|y b] [|z c]; cbn; try done.
  destruct (Ascii.compare x y) eqn:E1, (Ascii.compare y z) eqn:E2; try done.
  - apply Ascii.compare_eq_iff in E1 as ->. apply Ascii.compare_eq_iff in E2 as ->.
    assert (Ascii.compare z z = Eq) as -> by (unfold Ascii.compare; apply N.compare_refl). apply IH.
  - apply Ascii.compare_eq_iff in E1 as ->. by rewrite E2.
  - apply Ascii.compare_eq_iff in E2 as ->. by rewrite E1.
  - by rewrite (ascii_compare_lt_trans x y z).
Qed.

Lemma slt_irrefl a : ¬ slt a a.
Proof.
  unfold slt. induction a as [|x a IH]; cbn; [done|].
  assert (Ascii.compare x x = Eq) as -> by (unfold Ascii.compare; apply N.compare_refl). exact IH.
Qed.

(** [String.leb] is "smaller or equal" for [slt]. *)
Lemma leb_slt a b : String.leb a b = true ↔ slt a b ∨ a = b.
Proof.
  unfold String.leb, slt. destruct (String.compare a b) eqn:E.
  - apply String.compare_eq_iff in E as ->. naive_solver.
  - naive_solver.
  - split; [done|]. intros [?| ->]; [done|]. exfalso. apply (slt_irrefl b). unfold slt.
    rewrite String.compare_antisym, E. done.
Qed.

Lemma leb_false_slt a b : String.leb a b = false → slt b a.
Proof.
  unfold String.leb, slt. intros H. rewrite String.compare_antisym.
  destruct (String.compare a b); [done|done|]. done.
Qed.

(** ** The dictionary *)

Lemma insert_string_elem x l s : s ∈ insert_string x l ↔ s = x ∨ s ∈ l.
Proof.
  induction l as [|y l IH]; cbn; [set_solver|]. destruct (String.leb x y); [set_solver|].
  rewrite !elem_of_cons, IH. tauto.
Qed.

Lemma sort_strings_elem l s : s ∈ sort_strings l ↔ s ∈ l.
Proof. induction l as [|x l IH]; cbn; [done|]. rewrite insert_string_elem, IH. set_solver. Qed.

Definition sle (a b : string) : Prop := slt a b ∨ a = b.

Lemma sle_trans a b c : sle a b → sle b c → sle a c.
Proof.
  intros [H1| ->] [H2| ->]; [left; by eapply slt_trans|by left|by left|by right].
Qed.

Lemma insert_string_sorted x l : StronglySorted sle l → StronglySorted sle (insert_string x l).
Proof.
  induction 1 as [|y l Hl IH Hy]; cbn; [by repeat constructor|].
  destruct (String.leb x y) eqn:E.
  - apply leb_slt in E. constructor; [by constructor|]. constructor; [done|].
    eapply Forall_impl; [exact Hy|]. intros z. by apply sle_trans.
  - apply leb_false_slt in E. constructor; [done|]. apply Forall_forall. intros z.
    rewrite insert_string_elem. rewrite Forall_forall in Hy. intros [->|Hz]; [by left|auto].
Qed.

Lemma sort_strings_sorted l : StronglySorted sle (sort_strings l).
Proof. induction l as [|x l IH]; cbn; [constructor|]. by apply insert_string_sorted. Qed.

Lemma unique_strings_cons x y l :
  unique_strings (x :: y :: l) = if String.eqb x y then unique_strings (y :: l) else x :: unique_strings (y :: l).
Proof. done. Qed.

Lemma unique_strings_elem l s : s ∈ unique_strings l ↔ s ∈ l.
Proof.
  induction l as [|x [|y l] IH]; [done|done|]. rewrite unique_strings_cons.
  destruct (String.eqb_spec x y) as [->|Hne]; [rewrite IH; set_solver|].
  rewrite elem_of_cons, IH. set_solver.
Qed.

Lemma unique_strings_sorted l : StronglySorted sle l → StronglySorted slt (unique_strings l).
Proof.
  induction l as [|x [|y l] IH]; intros H; [constructor|by repeat constructor|]. rewrite unique_strings_cons.
  inversion H as [|? ? H1 H2]; subst. destruct (String.eqb_spec x y) as [->|Hne]; [by apply IH|].
  constructor; [by apply IH|]. apply Forall_forall. intros z Hz. rewrite unique_strings_elem in Hz.
  apply Forall_cons in H2 as [[Hxy|?] H2]; [|done]. inversion H1 as [|? ? _ H3]; subst.
  apply elem_of_cons in Hz as [->|Hz]; [done|]. rewrite Forall_forall in H3.
  destruct (H3 z Hz) as [Hyz| <-]; [by eapply slt_trans|done].
Qed.

Lemma dict_of_sorted data : StronglySorted slt (dict_of data).
Proof. apply unique_strings_sorted, sort_strings_sorted. Qed.

Lemma dict_of_elem data s : s ∈ dict_of data ↔ s ∈ data.
Proof. unfold dict_of. by rewrite unique_strings_elem, sort_strings_elem. Qed.

Lemma sorted_lookup_lt (l : list string) i j a b :
  StronglySorted slt l → l !! i = Some a → l !! j = Some b → (i < j)%nat → slt a b.
Proof.
  intros H. revert i j. induction H as [|x l H IH Hx]; intros [|i] [|j] Hi Hj Hlt; try done; try lia.
  - injection Hi as ->. rewrite Forall_forall in Hx. apply Hx.
    exact (list_elem_of_lookup_2 l j b Hj).
  - eapply IH; [exact Hi|exact Hj|lia].
Qed.

Lemma sorted_lookup_order (l : list string) i j a b :
  StronglySorted slt l → l !! i = Some a → l !! j = Some b → slt a b ↔ (i < j)%nat.
Proof.
  intros H Hi Hj. split; [|by eapply sorted_lookup_lt].
  intros Hab. destruct (decide (i < j)%nat) as [|Hge]; [done|]. exfalso.
  destruct (decide (i = j)) as [->|Hne]; [simplify_eq; by eapply slt_irrefl|].
  apply (slt_irrefl a). eapply slt_trans; [exact Hab|]. eapply sorted_lookup_lt; [done|exact Hj|exact Hi|lia].
Qed.

Lemma sorted_nodup (l : list string) : StronglySorted slt l → NoDup l.
Proof.
  intros H. apply NoDup_alt. intros i j x Hi Hj. destruct (lt_eq_lt_dec i j) as [[Hlt|?]|Hlt]; [|done|];
    exfalso; apply (slt_irrefl x).
  - exact (sorted_lookup_lt l i j x x H Hi Hj Hlt).
  - exact (sorted_lookup_lt l j i x x H Hj Hi Hlt).
Qed.

(** ** The encoder *)

Lemma encoder_from_spec dict : ∀ c enc,
  NoDup dict → 0 ≤ c → c + Z.of_nat (length dict) ≤ 2 ^ 32 → (∀ s, s ∈ dict → enc !! s = None) →
  (∀ i s, dict !! i = Some s → encoder_from c dict enc !! s = Some (c + Z.of_nat i)) ∧
  (∀ s, s ∉ dict → encoder_from c dict enc !! s = enc !! s) ∧
  size (encoder_from c dict enc) = (size enc + length dict)%nat.
Proof.
  induction dict as [|x dict IH]; intros c enc Hnd Hc Hmax Hfresh.
  { cbn. split; [done|]. split; [done|lia]. }
  apply NoDup_cons in Hnd as [Hx Hnd]. cbn [encoder_from]. rewrite Hfresh by set_solver. cbn [length] in Hmax.
  rewrite u32_small by (unfold in_u32; lia).
  destruct (IH (c + 1) (<[x := c]> enc) Hnd ltac:(lia) ltac:(lia)) as (H1 & H2 & H3).
  { intros s Hs. rewrite lookup_insert_ne by set_solver. apply Hfresh. set_solver. }
  split; [|split].
  - intros [|i] s Hi; cbn in Hi.
    + injection Hi as <-. rewrite H2 by done. rewrite lookup_insert_eq. f_equal. lia.
    + rewrite (H1 i s Hi). f_equal. lia.
  - intros s Hs. rewrite H2 by set_solver. apply lookup_insert_ne. set_solver.
  - rewrite H3, map_size_insert_None by (apply Hfresh; set_solver). cbn. lia.
Qed.

(** ** Theorem *)

Lemma length_insert_string x l : length (insert_string x l) = S (length l).
Proof. induction l as [|y l IH]; cbn; [done|]. destruct (String.leb x y); cbn; by rewrite ?IH. Qed.

Lemma length_dict_of data : (length (dict_of data) ≤ length data)%nat.
Proof.
  unfold dict_of. assert (∀ l, (length (unique_strings l) ≤ length l)%nat) as H.
  { induction l as [|x [|y l] IH]; [done|done|]. rewrite unique_strings_cons.
    destruct (String.eqb x y); cbn [length] in *; lia. }
  etrans; [apply H|]. clear H. induction data as [|x data IH]; [done|].
  change (sort_strings (x :: data)) with (insert_string x (sort_strings data)).
  rewrite length_insert_string. cbn [length]. lia.
Qed.

(** What the encoder says of the strings of a column. *)
Lemma encoder_of_spec data :
  Z.of_nat (length data) < 2 ^ 32 →
  (∀ s c, encoder_of (dict_of data) !! s = Some c ↔ 0 ≤ c ∧ dict_of data !! Z.to_nat c = Some s) ∧
  size (encoder_of (dict_of data)) = length (dict_of data).
Proof.
  intros Hlen. pose proof (length_dict_of data).
  destruct (encoder_from_spec (dict_of data) 0 ∅) as (H1 & H2 & H3);
    [apply sorted_nodup, dict_of_sorted|lia|lia|done|].
  split; [|unfold encoder_of; by rewrite H3, map_size_empty].
  intros s c. unfold encoder_of. split.
  - intros Hs. destruct (decide (s ∈ dict_of data)) as [[i Hi]%list_elem_of_lookup|Hn].
    + rewrite (H1 i s Hi) in Hs. injection Hs as <-. split; [lia|]. by rewrite Z.add_0_l, Nat2Z.id.
    + by rewrite H2 in Hs.
  - intros [Hc Hs]. rewrite (H1 _ s Hs). f_equal. lia.
Qed.

(** C27: A dictionary-encoded column loses nothing and keeps the order: row [i]
    holds a code that decodes to string [i] and that [string_encode] gives back;
    codes compare as the strings do; and a string that is not in the column
    encodes to a code no row holds. *)
Theorem string_dict_correct id data e :
  engine_wf e → id ≠ 0 → catalog_ e !! id = None → col_types_ (schema_ e) !! id = None →
  Z.of_nat (length data) < 2 ^ 32 → room_for (Z.of_nat (4 * length data)) e →
  ∃ e', load_string_column_dict id data e = Ret e' ∧ engine_wf e' ∧
    let codes := u32s (v_bytes (view e') id) in
    length codes = length data ∧
    (∀ i s, data !! i = Some s → ∃ c, codes !! i = Some c ∧
       string_decode id c e' = s ∧ string_encode id s e' = c) ∧
    (∀ s t, s ∈ data → t ∈ data →
       (slt s t ↔ string_encode id s e' < string_encode id t e')) ∧
    (∀ s, s ∉ data → string_encode id s e' = string_dict_size id e' ∧ string_encode id s e' ∉ codes).
Proof.
  intros Hwf Hid Hc Ht Hlen Hroom. pose proof (encoder_of_spec data Hlen) as [Henc Hsize].
  set (dict := dict_of data) in *. set (enc := encoder_of dict) in *.
  pose proof (length_dict_of data) as Hdl. fold dict in Hdl.
  set (codes := map (λ s, default 0 (enc !! s)) data).
  assert (∀ s, s ∈ data → ∃ i, dict !! i = Some s ∧ enc !! s = Some (Z.of_nat i)) as Hcode.
  { intros s Hs. apply dict_of_elem, list_elem_of_lookup in Hs as [i Hi]. exists i. split; [done|].
    apply Henc. split; [lia|]. by rewrite Nat2Z.id. }
  assert (Forall in_u32 codes) as Hrange.
  { apply Forall_forall. intros x (s & -> & Hs)%list_elem_of_fmap. destruct (Hcode s Hs) as (i & Hi & ->). cbn.
    apply lookup_lt_Some in Hi. unfold in_u32. lia. }
  destruct (load_step U32 id codes e Hwf Hid Hc Ht) as (e1 & Hrun & Hwf1 & _ & Hcols & _).
  { unfold codes. by rewrite length_bytes_of, length_map. }
  eexists. split.
  { unfold load_string_column_dict. apply Z.eqb_neq in Hid. rewrite Hid. cbn [negb assert_ mbind outcome_bind].
    fold dict. fold enc. fold codes. change (load U32 id codes e) with (load_scan_column id codes e) in Hrun.
    rewrite Hrun. cbn [mbind outcome_bind]. reflexivity. }
  split; [destruct Hwf1; by split|].
  match goal with |- let codes := u32s (v_bytes (view ?e2) id) in _ =>
    assert (u32s (v_bytes (view e2) id) = codes) as Hcd;
      [change (v_bytes (view e2) id) with (v_bytes (view e1) id)|] end.
  { unfold v_bytes. rewrite Hcols, lookup_insert_eq. exact (col_values_bytes_of U32 codes Hrange). }
  rewrite Hcd. cbv zeta. unfold string_decode, string_encode, string_dict_size. cbn [set_schema schema_ string_dicts_ string_encoders_ set_strings].
  rewrite !lookup_insert_eq. split; [unfold codes; apply length_map|]. split; [|split].
  - intros i s Hi. destruct (Hcode s (list_elem_of_lookup_2 _ _ _ Hi)) as (k & Hk & Hes).
    exists (Z.of_nat k). rewrite Hes, Nat2Z.id, Hk. split; [|done].
    unfold codes. rewrite list_lookup_fmap, Hi. cbn. by rewrite Hes.
  - intros s t Hs Hst. destruct (Hcode s Hs) as (i & Hi & ->). destruct (Hcode t Hst) as (j & Hj & ->).
    rewrite (sorted_lookup_order dict i j s t (dict_of_sorted data) Hi Hj). lia.
  - intros s Hs. assert (enc !! s = None) as ->.
    { destruct (enc !! s) as [c|] eqn:E; [|done]. apply Henc in E as [_ E]. exfalso. apply Hs, dict_of_elem.
      by eapply list_elem_of_lookup_2. }
    rewrite Hsize. split; [done|]. intros (t & Heq & Ht2)%list_elem_of_fmap.
    destruct (Hcode t Ht2) as (k & Hk & Hek). rewrite Hek in Heq. cbn in Heq. apply lookup_lt_Some in Hk.
    rewrite u32_small in Heq by (unfold in_u32; lia). lia.
Qed.

Lemma string_dict_correct_witness :
  ∃ e', load_string_column_dict 3 ["pear"; "fig"; "pear"]%string sample = Ret e' ∧
    string_encode 3 "kiwi" e' = string_dict_size 3 e'.
Proof.
  destruct (string_dict_correct 3 ["pear"; "fig"; "pear"]%string sample sample_wf) as (e' & H1 & _ & _ & _ & _ & H2).
  - lia.
  - vm_compute. reflexivity.
  - vm_compute. reflexivity.
  - cbn. lia.
  - apply room_check_ok. vm_compute. reflexivity.
  - exists e'. split; [exact H1|]. apply H2. refine (bool_decide_unpack _ _). vm_compute. exact I.
Defined.
