(* ===== verification/Parser.v ===== *)
(** * Parser: query strings

    The tokenizer, [parse_query] and the string forms of the derived queries.
    Parsing reads the schema and, for GROUP BY, the key column itself.
    [strtod] is a parameter: the double a string starts with and the number of
    characters it takes, or [None] for a range error. *)

From Stdlib Require Import Sorted Ascii.
From S2P Require Export EngineDerived EngineStrings.

#[local] Open Scope string_scope.
#[local] Open Scope Z_scope.

(** ** Characters *)

Definition char_in (s : string) (c : ascii) : bool :=
  existsb (Ascii.eqb c) (String.list_ascii_of_string s).

(** [isspace] and [toupper] of the C locale. *)
Definition isspace (c : ascii) : bool :=
  let n := nat_of_ascii c in (n =? 32)%nat || ((9 <=? n)%nat && (n <=? 13)%nat).

Definition toupper (c : ascii) : ascii :=
  let n := nat_of_ascii c in
  if (97 <=? n)%nat && (n <=? 122)%nat then ascii_of_nat (n - 32) else c.

Fixpoint up (s : string) : string :=
  match s with EmptyString => EmptyString | String c s' => String (toupper c) (up s') end.

Definition is_paren (c : ascii) : bool := char_in "()" c.
Definition is_op (c : ascii) : bool := char_in "><=!" c.
Definition ends_run (c : ascii) : bool := isspace c || is_paren c || is_op c.

(** ** [matrixparse_tokenize] *)

(** The run of characters up to the next space, parenthesis or operator. *)
Fixpoint run_of (s : string) : string * string :=
  match s with
  | EmptyString => (EmptyString, EmptyString)
  | String c s' =>
      if ends_run c then (EmptyString, s)
      else let '(r, rest) := run_of s' in (String c r, rest)
  end.

Definition one_char (c : ascii) : string := String c EmptyString.

(** The loop over what is left of the string; [None] is a loop that has not come
    to the end of the string within [fuel] turns. *)
Fixpoint tokenize (fuel : nat) (s : string) : option (list string) :=
  match fuel with
  | O => None
  | S f =>
      match s with
      | EmptyString => Some []
      | String c s' =>
          if isspace c then tokenize f s'
          else if is_paren c then cons (one_char c) <$> tokenize f s'
          else if is_op c then
            match s' with
            | String d s'' =>
                if Ascii.eqb d "="%char then cons (String c (one_char d)) <$> tokenize f s''
                else cons (one_char c) <$> tokenize f s'
            | EmptyString => cons (one_char c) <$> tokenize f s'
            end
          else let '(r, rest) := run_of s in cons r <$> tokenize f rest
      end
  end.

(** A turn for every character and one to see the end: they are enough
    ([tokenize_enough]). *)
Definition matrixparse_tokenize (s : string) : list string := default [] (tokenize (S (String.length s)) s).

(** The tokens with single spaces between them. *)
Fixpoint join (tk : list string) : string :=
  match tk with
  | [] => EmptyString
  | [t] => t
  | t :: tk' => t +:+ " " +:+ join tk'
  end.

(** ** Numbers: [std::from_chars] on the whole string *)

Definition digit (c : ascii) : option Z :=
  let n := nat_of_ascii c in
  if (48 <=? n)%nat && (n <=? 57)%nat then Some (Z.of_nat n - 48) else None.

Fixpoint digits (acc : Z) (s : string) : option Z :=
  match s with
  | EmptyString => Some acc
  | String c s' => match digit c with Some d => digits (acc * 10 + d) s' | None => None end
  end.

Definition parse_uint (max : Z) (s : string) : option Z :=
  match s with
  | EmptyString => None
  | _ => match digits 0 s with Some n => if n <=? max then Some n else None | None => None end
  end.

Definition parse_i64 (s : string) : option Z :=
  match s with
  | String "-" s' => match parse_uint (2 ^ 63) s' with Some n => Some (- n) | None => None end
  | _ => parse_uint INT64_MAX s
  end.

(** ** The query under construction *)

Definition set_filter (q : MatrixQuery) (fcol : Z) : MatrixQuery :=
  {| value_col := value_col q; agg := agg q; has_filter := true; threshold := threshold q; cmp := cmp q;
     upper := upper q; lo_i64 := lo_i64 q; hi_i64 := hi_i64 q; lo_f64 := lo_f64 q; hi_f64 := hi_f64 q;
     grouped := grouped q; key_col := key_col q; num_groups := num_groups q; limit := limit q; filter_col := fcol |}.

Definition set_cmp (q : MatrixQuery) (c : MatrixCmp) : MatrixQuery :=
  {| value_col := value_col q; agg := agg q; has_filter := has_filter q; threshold := threshold q; cmp := c;
     upper := upper q; lo_i64 := lo_i64 q; hi_i64 := hi_i64 q; lo_f64 := lo_f64 q; hi_f64 := hi_f64 q;
     grouped := grouped q; key_col := key_col q; num_groups := num_groups q; limit := limit q;
     filter_col := filter_col q |}.

Definition set_u32 (q : MatrixQuery) (lo hi : Z) : MatrixQuery :=
  {| value_col := value_col q; agg := agg q; has_filter := has_filter q; threshold := lo; cmp := cmp q;
     upper := hi; lo_i64 := lo_i64 q; hi_i64 := hi_i64 q; lo_f64 := lo_f64 q; hi_f64 := hi_f64 q;
     grouped := grouped q; key_col := key_col q; num_groups := num_groups q; limit := limit q;
     filter_col := filter_col q |}.

Definition set_i64 (q : MatrixQuery) (lo hi : Z) : MatrixQuery :=
  {| value_col := value_col q; agg := agg q; has_filter := has_filter q; threshold := threshold q; cmp := cmp q;
     upper := upper q; lo_i64 := lo; hi_i64 := hi; lo_f64 := lo_f64 q; hi_f64 := hi_f64 q;
     grouped := grouped q; key_col := key_col q; num_groups := num_groups q; limit := limit q;
     filter_col := filter_col q |}.

Definition set_f64 (q : MatrixQuery) (lo hi : Z) : MatrixQuery :=
  {| value_col := value_col q; agg := agg q; has_filter := has_filter q; threshold := threshold q; cmp := cmp q;
     upper := upper q; lo_i64 := lo_i64 q; hi_i64 := hi_i64 q; lo_f64 := lo; hi_f64 := hi;
     grouped := grouped q; key_col := key_col q; num_groups := num_groups q; limit := limit q;
     filter_col := filter_col q |}.

Definition set_group (q : MatrixQuery) (key G : Z) : MatrixQuery :=
  {| value_col := value_col q; agg := agg q; has_filter := has_filter q; threshold := threshold q; cmp := cmp q;
     upper := upper q; lo_i64 := lo_i64 q; hi_i64 := hi_i64 q; lo_f64 := lo_f64 q; hi_f64 := hi_f64 q;
     grouped := true; key_col := key; num_groups := G; limit := limit q; filter_col := filter_col q |}.

Definition set_limit (q : MatrixQuery) (n : Z) : MatrixQuery :=
  {| value_col := value_col q; agg := agg q; has_filter := has_filter q; threshold := threshold q; cmp := cmp q;
     upper := upper q; lo_i64 := lo_i64 q; hi_i64 := hi_i64 q; lo_f64 := lo_f64 q; hi_f64 := hi_f64 q;
     grouped := grouped q; key_col := key_col q; num_groups := num_groups q; limit := n;
     filter_col := filter_col q |}.

Definition start_query (vid : Z) (op : MatrixAggOp) : MatrixQuery :=
  with_agg op {| value_col := vid; agg := op; has_filter := false; threshold := 0; cmp := GT;
     upper := 0; lo_i64 := 0; hi_i64 := 0; lo_f64 := F64_ZERO; hi_f64 := F64_ZERO;
     grouped := false; key_col := 0; num_groups := 0; limit := 0; filter_col := 0 |}.

(** ** String filters as code ranges *)

(** [operator<] *)
Definition string_ltb (a b : string) : bool :=
  match String.compare a b with Lt => true | _ => false end.

Fixpoint lower_bound (dict : list string) (x : string) : Z :=
  match dict with
  | [] => 0
  | d :: dict' => if string_ltb d x then 1 + lower_bound dict' x else 0
  end.

Fixpoint upper_bound (dict : list string) (x : string) : Z :=
  match dict with
  | [] => 0
  | d :: dict' => if String.leb d x then 1 + upper_bound dict' x else 0
  end.

Definition last_char (s : string) : option ascii := String.get (String.length s - 1) s.

Definition is_quote (c : ascii) : bool := (nat_of_ascii c =? 39)%nat || (nat_of_ascii c =? 34)%nat.

Definition unquote (s : string) : string :=
  match String.get 0 s, last_char s with
  | Some a, Some b =>
      if (2 <=? String.length s)%nat && is_quote a && Ascii.eqb a b
      then String.substring 1 (String.length s - 2) s else s
  | _, _ => s
  end.

(** The comparison and bounds an ordered operator on strings becomes. *)
Definition string_range (dict : list string) (ops x : string) : option (MatrixCmp * Z) :=
  if String.eqb ops ">" then Some (GE, upper_bound dict x)
  else if String.eqb ops ">=" then Some (GE, lower_bound dict x)
  else if String.eqb ops "<" then Some (LT, lower_bound dict x)
  else if String.eqb ops "<=" then Some (LT, upper_bound dict x)
  else None.

Definition string_between (dict : list string) (lo hi : string) : Z * Z :=
  let u := upper_bound dict hi in
  (lower_bound dict lo, if u =? 0 then 0 else u - 1).

Definition cmp_of_op (ops : string) : option MatrixCmp :=
  if String.eqb ops ">" then Some GT else if String.eqb ops ">=" then Some GE
  else if String.eqb ops "<" then Some LT else if String.eqb ops "<=" then Some LE
  else if String.eqb ops "=" then Some EQ else if String.eqb ops "!=" then Some NE
  else None.

Definition agg_of_name (s : string) : option MatrixAggOp :=
  if String.eqb s "COUNT" then Some AGG_COUNT else if String.eqb s "SUM" then Some AGG_SUM
  else if String.eqb s "MIN" then Some AGG_MIN else if String.eqb s "MAX" then Some AGG_MAX
  else None.

(** ** The clauses

    A clause takes the tokens left and returns an error status, or the query
    and the tokens after it. *)

Definition result (A : Type) : Type := MatrixQueryStatus + A.

#[export] Instance result_ret : MRet result := λ A a, inr a.
#[export] Instance result_bind : MBind result := λ A B k m,
  match m with inl s => inl s | inr a => k a end.

Definition next (tk : list string) : string * list string :=
  match tk with [] => (EmptyString, []) | t :: tk' => (t, tk') end.

Definition peek (tk : list string) : string := match tk with [] => EmptyString | t :: _ => up t end.

(** [if (!ok) return st;] *)
Definition guard (ok : bool) (st : MatrixQueryStatus) : result unit := if ok then mret tt else inl st.

Definition some_or {A} (st : MatrixQueryStatus) (o : option A) : result A :=
  match o with Some a => mret a | None => inl st end.

Section parser.
Variable strtod : string → option (Z * nat).
Context `{!HashOrder Z} {psort : PartialSort}.

(** [set_bound]: the literal in the field of the column's type. *)
Definition set_bound (ty : MatrixType) (q : MatrixQuery) (lo : bool) (v : string) : option MatrixQuery :=
  if String.eqb v EmptyString then None
  else
    match ty with
    | F64 =>
        '(d, n) ← strtod v;
        if (n =? String.length v)%nat
        then Some (if lo then set_f64 q d (hi_f64 q) else set_f64 q (lo_f64 q) d) else None
    | I64 => x ← parse_i64 v; Some (if lo then set_i64 q x (hi_i64 q) else set_i64 q (lo_i64 q) x)
    | U32 => x ← parse_uint UINT32_MAX v; Some (if lo then set_u32 q x (upper q) else set_u32 q (threshold q) x)
    end.

Definition string_filter (e : Engine) (pcol : Z) (dict : list string) (ops : string) (q : MatrixQuery)
    (tk : list string) : result (MatrixQuery * list string) :=
  if String.eqb ops "BETWEEN" then
    let '(lo, tk) := next tk in
    let '(a, tk) := next tk in
    _ ← guard (String.eqb (up a) "AND") ERR_PARSE;
    let '(hi, tk) := next tk in
    let '(l, u) := string_between dict (unquote lo) (unquote hi) in
    mret (set_u32 (set_cmp q BETWEEN) l u, tk)
  else if String.eqb ops "=" || String.eqb ops "!=" then
    let '(lit, tk) := next tk in
    _ ← guard (negb (String.eqb lit EmptyString)) ERR_PARSE;
    mret (set_u32 (set_cmp q (if String.eqb ops "=" then EQ else NE)) (string_encode pcol (unquote lit) e) (upper q), tk)
  else
    let '(lit, tk) := next tk in
    let x := unquote lit in
    _ ← guard (negb (String.eqb x EmptyString)) ERR_PARSE;
    '(c, t) ← some_or ERR_PARSE (string_range dict ops x);
    mret (set_u32 (set_cmp q c) t (upper q), tk).

Definition number_filter (ty : MatrixType) (ops : string) (q : MatrixQuery) (tk : list string) :
    result (MatrixQuery * list string) :=
  if String.eqb ops "BETWEEN" then
    let '(lo, tk) := next tk in
    q ← some_or ERR_PARSE (set_bound ty (set_cmp q BETWEEN) true lo);
    let '(a, tk) := next tk in
    _ ← guard (String.eqb (up a) "AND") ERR_PARSE;
    let '(hi, tk) := next tk in
    q ← some_or ERR_PARSE (set_bound ty q false hi);
    mret (q, tk)
  else
    c ← some_or ERR_PARSE (cmp_of_op ops);
    let '(v, tk) := next tk in
    q ← some_or ERR_PARSE (set_bound ty (set_cmp q c) true v);
    mret (q, tk).

Definition where_clause (e : Engine) (vid : Z) (q : MatrixQuery) (tk : list string) :
    result (MatrixQuery * list string) :=
  if String.eqb (peek tk) "WHERE" then
    let '(_, tk) := next tk in
    let '(name, tk) := next tk in
    let fcol := column_id name e in
    _ ← guard (negb (fcol =? 0)) ERR_UNKNOWN_COLUMN;
    _ ← guard ((fcol =? vid) || bool_decide (column_type fcol e = U32)) ERR_PARSE;
    let '(op, tk) := next tk in
    let ops := up op in
    let q := set_filter q (if fcol =? vid then 0 else fcol) in
    match string_dicts_ (schema_ e) !! fcol with
    | Some dict => string_filter e fcol dict ops q tk
    | None => number_filter (column_type fcol e) ops q tk
    end
  else mret (q, tk).

(** [derive_num_groups_u32]: the largest key plus one, 0 for no rows. *)
Definition num_groups_for (keys : list Z) (n : nat) : outcome Z :=
  mx ← matrix_cpu_reduce_all keys n AGG_MAX;
  Ret (if (n =? 0)%nat then 0 else if UINT32_MAX <=? mx then UINT32_MAX else u32 (mx + 1)).

Definition derive_num_groups_u32 (kid : Z) : stM Engine Z :=
  with_host kid (λ size bs, lift (num_groups_for (u32s bs) (count_of 4 size))).

(** A stateful clause. *)
Definition clause : Type := stM Engine (result (MatrixQuery * list string)).

Definition group_clause (q : MatrixQuery) (tk : list string) : clause := λ e,
  if String.eqb (peek tk) "GROUP" then
    let '(_, tk) := next tk in
    let '(by_, tk) := next tk in
    if negb (String.eqb (up by_) "BY") then Ret (inl ERR_PARSE, e)
    else
      let '(name, tk) := next tk in
      let kid := column_id name e in
      if kid =? 0 then Ret (inl ERR_UNKNOWN_COLUMN, e)
      else if negb (bool_decide (column_type kid e = U32)) then Ret (inl ERR_PARSE, e)
      else '(G, e) ← derive_num_groups_u32 kid e; Ret (inr (set_group q kid G, tk), e)
  else Ret (inr (q, tk), e).

Definition order_clause (e : Engine) (aggs : string) (vid : Z) (q : MatrixQuery) (tk : list string) :
    result (MatrixQuery * list string) :=
  if String.eqb (peek tk) "ORDER" then
    let '(_, tk) := next tk in
    let '(by_, tk) := next tk in
    _ ← guard (String.eqb (up by_) "BY") ERR_PARSE;
    _ ← guard (grouped q) ERR_PARSE;
    let '(sortraw, tk) := next tk in
    _ ← guard (String.eqb (up sortraw) aggs || (column_id sortraw e =? vid)) ERR_PARSE;
    let '(desc_, tk) := next tk in
    _ ← guard (String.eqb (up desc_) "DESC") ERR_PARSE;
    let '(limit_, tk) := next tk in
    _ ← guard (String.eqb (up limit_) "LIMIT") ERR_PARSE;
    let '(lim, tk) := next tk in
    n ← some_or ERR_PARSE (parse_uint UINT64_MAX lim);
    _ ← guard (negb (n =? 0)) ERR_PARSE;
    mret (set_limit q n, tk)
  else mret (q, tk).

(** SELECT agg ( col ) *)
Definition select_clause (e : Engine) (tk : list string) : result (string * MatrixQuery * list string) :=
  let '(sel, tk) := next tk in
  _ ← guard (String.eqb (up sel) "SELECT") ERR_PARSE;
  let '(a, tk) := next tk in
  let aggs := up a in
  op ← some_or ERR_PARSE (agg_of_name aggs);
  let '(l, tk) := next tk in
  _ ← guard (String.eqb l "(") ERR_PARSE;
  let '(col, tk) := next tk in
  let '(r, tk) := next tk in
  _ ← guard (String.eqb r ")") ERR_PARSE;
  let vid := column_id col e in
  _ ← guard (negb (vid =? 0)) ERR_UNKNOWN_COLUMN;
  mret (aggs, start_query vid op, tk).

(** What follows GROUP BY: ORDER BY and the end of the string. *)
Definition finish_query (e : Engine) (aggs : string) (vid : Z) (r : result (MatrixQuery * list string)) :
    result MatrixQuery :=
  '(q, tk) ← r;
  '(q, tk) ← order_clause e aggs vid q tk;
  _ ← guard (match tk with [] => true | _ => false end) ERR_PARSE;
  mret q.

Definition parse_tokens (tk : list string) : stM Engine (result MatrixQuery) := λ e,
  match ('(aggs, q, tk) ← select_clause e tk;
         '(q', tk) ← where_clause e (value_col q) q tk;
         mret (aggs, value_col q, q', tk)) with
  | inl st => Ret (inl st, e)
  | inr (aggs, vid, q, tk) =>
      '(r, e') ← group_clause q tk e;
      Ret (finish_query e' aggs vid r, e')
  end.

Definition parse_query_impl (sql : string) : stM Engine (result MatrixQuery) :=
  parse_tokens (matrixparse_tokenize sql).

(** An error leaves the default query. *)
Definition parse_query (sql : string) : stM Engine (MatrixQueryStatus * MatrixQuery) :=
  r ← parse_query_impl sql;
  mret (match r with inr q => (OK, q) | inl st => (st, default_query) end).

(** ** The string forms of the derived queries *)

Definition avg_query (sql : string) (ns1 ns2 : Z) : stM Engine (list Z) :=
  match matrixparse_tokenize sql with
  | t0 :: a :: tk =>
      if negb (String.eqb (up a) "AVG") then mret []
      else
        '(st, q) ← parse_query (join (t0 :: "SUM" :: tk));
        if decide (st = OK) then average q ns1 ns2 else mret []
  | _ => mret []
  end.

Definition top_query (sql : string) (ns : Z) : stM Engine (list (Z * Z)) :=
  '(st, q) ← parse_query sql;
  if negb (bool_decide (st = OK)) || negb (grouped q) || (limit q =? 0) then mret []
  else top_groups q (Z.to_nat (limit q)) ns.

Definition agg_name (op : MatrixAggOp) : string :=
  match op with AGG_COUNT => "COUNT" | AGG_SUM => "SUM" | AGG_MIN => "MIN" | _ => "MAX" end.

(** The tokens before HAVING and those after it. *)
Fixpoint split_having (tk : list string) : option (list string * list string) :=
  match tk with
  | [] => None
  | t :: tk' =>
      if String.eqb (up t) "HAVING" then Some ([], tk')
      else match split_having tk' with Some (a, b) => Some (t :: a, b) | None => None end
  end.

Definition having_query (sql : string) (ns : Z) : stM Engine (list (Z * Z)) :=
  match split_having (matrixparse_tokenize sql) with
  | Some (head, [key; op; v]) =>
      '(st, q) ← parse_query (join head);
      if negb (bool_decide (st = OK)) || negb (grouped q) then mret []
      else
        e_id ← gets (column_id key);
        if negb (String.eqb (up key) (agg_name (agg q))) && negb (e_id =? value_col q) then mret []
        else
          match cmp_of_op op, parse_uint UINT64_MAX v with
          | Some c, Some t => having q c t 0 ns
          | _, _ => mret []
          end
  | _ => mret []
  end.

Definition distinct_query (sql : string) : stM Engine (option Z) :=
  match matrixparse_tokenize sql with
  | [t0; t1; t2; t3; t4; t5] =>
      if String.eqb (up t0) "SELECT" && String.eqb (up t1) "COUNT" && String.eqb t2 "(" &&
         String.eqb (up t3) "DISTINCT" && String.eqb t5 ")" then
        cid ← gets (column_id t4);
        if cid =? 0 then mret None else n ← count_distinct cid; mret (Some n)
      else mret None
  | _ => mret None
  end.

(** The tokens up to the first LIMIT, and the row count after it; [None] when
    LIMIT is not followed by exactly one number. *)
Fixpoint split_limit (tk : list string) : option (list string * Z) :=
  match tk with
  | [] => Some ([], 0)
  | t :: tk' =>
      if String.eqb (up t) "LIMIT" then
        match tk' with
        | [n] => match parse_uint UINT64_MAX n with Some l => Some ([], l) | None => None end
        | _ => None
        end
      else match split_limit tk' with Some (a, l) => Some (t :: a, l) | None => None end
  end.

Definition project_query (sql : string) : stM Engine (list Z) :=
  match matrixparse_tokenize sql with
  | t0 :: t1 :: rest =>
      if negb (String.eqb (up t0) "SELECT") then mret []
      else if match rest with t2 :: _ => String.eqb t2 "(" | [] => false end then mret []
      else
        col_id ← gets (column_id t1);
        if col_id =? 0 then mret []
        else
          match split_limit rest with
          | None => mret []
          | Some ([], l) => project col_id false 0 (mkPred GT 0 0) l
          | Some (w :: tail, l) =>
              match rest with
              | t2 :: t3 :: _ =>
                  if negb (String.eqb (up t2) "WHERE") then mret []
                  else
                    fcol ← gets (column_id t3);
                    fty ← gets (column_type fcol);
                    if (fcol =? 0) || negb (bool_decide (fty = U32)) then mret []
                    else
                      '(st, q) ← parse_query ("SELECT COUNT ( " +:+ t3 +:+ " ) " +:+ join (w :: tail));
                      if negb (bool_decide (st = OK)) || negb (has_filter q) then mret []
                      else
                        rf ← (λ e, r ← column_rows fcol e; Ret (r, e));
                        rc ← (λ e, r ← column_rows col_id e; Ret (r, e));
                        if negb (rf =? rc) then mret []
                        else project col_id true fcol (pred_u32_of q) l
              | _ => mret []
              end
          end
  | _ => mret []
  end.
End parser.

(** ** The tokenizer *)

Lemma run_of_spec s r rest :
  run_of s = (r, rest) →
  s = r +:+ rest ∧ Forall (λ c, ends_run c = false) (String.list_ascii_of_string r) ∧
  match rest with EmptyString => True | String c _ => ends_run c = true end.
Proof.
  revert r rest. induction s as [|c s IH]; intros r rest; cbn [run_of]; [intros [= <- <-]; done|].
  destruct (ends_run c) eqn:E; [intros [= <- <-]; by rewrite E|].
  destruct (run_of s) as [r' rest'] eqn:Hr. intros [= <- <-]. destruct (IH r' rest' eq_refl) as (-> & Hf & Hend).
  split; [done|]. split; [|done]. by constructor.
Qed.

Lemma run_of_length s r rest :
  run_of s = (r, rest) → String.length s = (String.length r + String.length rest)%nat.
Proof. intros H. destruct (run_of_spec s r rest H) as (-> & _). apply string_length_app. Qed.

Lemma run_of_head c s r rest : ends_run c = false → run_of (String c s) = (r, rest) → r ≠ EmptyString.
Proof. cbn. intros ->. destruct (run_of s). by intros [= <- <-]. Qed.

Lemma run_of_shorter c s r rest :
  ends_run c = false → run_of (String c s) = (r, rest) → (String.length rest ≤ String.length s)%nat.
Proof.
  intros Hc Hr. pose proof (run_of_length _ _ _ Hr) as Hl. pose proof (run_of_head _ _ _ _ Hc Hr).
  destruct r; [done|]. cbn [String.length] in Hl. lia.
Qed.

(** A turn for every character and one to see the end are enough, and more
    change nothing. *)
Lemma tokenize_fuel f : ∀ g s, (String.length s < f)%nat → (String.length s < g)%nat →
  is_Some (tokenize f s) ∧ tokenize f s = tokenize g s.
Proof.
  induction f as [|f IH]; intros [|g] s Hf Hg; try lia. destruct s as [|c s]; [done|]. cbn [String.length] in *.
  assert (∀ t rest, (String.length rest ≤ String.length s)%nat →
    is_Some (cons t <$> tokenize f rest) ∧ cons t <$> tokenize f rest = cons t <$> tokenize g rest) as Hstep.
  { intros t rest Hl. destruct (IH g rest) as [Hs He]; [lia..|]. split; [by apply fmap_is_Some|by rewrite He]. }
  cbn [tokenize]. destruct (isspace c) eqn:Es; [apply IH; lia|].
  destruct (is_paren c) eqn:Ep; [by apply Hstep|]. destruct (is_op c) eqn:Eo.
  { destruct s as [|d s]; [by apply Hstep|]. destruct (Ascii.eqb d "="); apply Hstep; cbn [String.length]; lia. }
  destruct (run_of (String c s)) as [r rest] eqn:Hr. apply Hstep. apply (run_of_shorter c s r); [|done].
  unfold ends_run. by rewrite Es, Ep, Eo.
Qed.

Lemma tok_eq f s : (String.length s < f)%nat → tokenize f s = Some (matrixparse_tokenize s).
Proof.
  intros H. unfold matrixparse_tokenize.
  destruct (tokenize_fuel f (S (String.length s)) s) as [[tk Htk] He]; [done|lia|].
  rewrite <- He, Htk. done.
Qed.

Lemma tokenize_enough s : tokenize (S (String.length s)) s = Some (matrixparse_tokenize s).
Proof. apply tok_eq. lia. Qed.

(** The loop, without its fuel. *)
Lemma tok_cons c s :
  matrixparse_tokenize (String c s) =
    if isspace c then matrixparse_tokenize s
    else if is_paren c then one_char c :: matrixparse_tokenize s
    else if is_op c then
      match s with
      | String d s' => if Ascii.eqb d "="%char then String c (one_char d) :: matrixparse_tokenize s'
                       else one_char c :: matrixparse_tokenize s
      | EmptyString => [one_char c]
      end
    else let '(r, rest) := run_of (String c s) in r :: matrixparse_tokenize rest.
Proof.
  unfold matrixparse_tokenize at 1. cbn [String.length].
  assert (∃ f, f = S (String.length s)) as (f & Hf) by eauto. rewrite <- Hf. cbn [tokenize].
  assert (∀ rest, (String.length rest ≤ String.length s)%nat → tokenize f rest = Some (matrixparse_tokenize rest)) as Ht
    by (intros rest Hl; apply tok_eq; lia).
  destruct (isspace c) eqn:Es; [by rewrite Ht|]. destruct (is_paren c) eqn:Ep; [by rewrite Ht|].
  destruct (is_op c) eqn:Eo.
  { destruct s as [|d s]; [by subst f|]. cbn [String.length] in *.
    destruct (Ascii.eqb d "="); rewrite Ht by (cbn [String.length]; lia); done. }
  destruct (run_of (String c s)) as [r rest] eqn:Hr. rewrite Ht; [done|].
  apply (run_of_shorter c s r); [|done]. unfold ends_run. by rewrite Es, Ep, Eo.
Qed.

(** Induction along the loop. *)
Lemma tok_ind (P : string → Prop) :
  P EmptyString →
  (∀ c s, (∀ rest, (String.length rest ≤ String.length s)%nat → P rest) → P (String c s)) → ∀ s, P s.
Proof.
  intros H0 HS. enough (∀ n s, (String.length s ≤ n)%nat → P s) as H by (intros s; by apply (H (String.length s))).
  induction n as [|n IH]; intros [|c s] Hs; [done|cbn in Hs; lia|done|].
  apply HS. intros rest Hr. apply IH. cbn in Hs. lia.
Qed.

(** What a token is. *)
Definition token_ok (t : string) : Prop :=
  (∃ c, t = one_char c ∧ isspace c = false ∧ (is_paren c = true ∨ is_op c = true)) ∨
  (∃ c, t = String c (one_char "="%char) ∧ isspace c = false ∧ is_paren c = false ∧ is_op c = true) ∨
  (t ≠ EmptyString ∧ Forall (λ c, ends_run c = false) (String.list_ascii_of_string t)).

Lemma tokenize_ok s : Forall token_ok (matrixparse_tokenize s).
Proof.
  induction s as [|c s IH] using tok_ind; [constructor|]. rewrite tok_cons. destruct (isspace c) eqn:Es; [by apply IH|].
  destruct (is_paren c) eqn:Ep; [constructor; [left; eauto|by apply IH]|]. destruct (is_op c) eqn:Eo.
  { destruct s as [|d s]; [constructor; [left; eauto 6|constructor]|]. destruct (Ascii.eqb_spec d "=") as [->|].
    - constructor; [right; left; eauto|apply IH; cbn; lia].
    - constructor; [left; eauto|by apply IH]. }
  assert (ends_run c = false) as Hc by (unfold ends_run; by rewrite Es, Ep, Eo).
  destruct (run_of (String c s)) as [r rest] eqn:Hr. constructor; [|apply IH; by apply (run_of_shorter c s r)].
  right; right. split; [by eapply run_of_head|]. apply (run_of_spec _ _ _ Hr).
Qed.

(** The characters of a string that are not white space. *)
Definition visible (s : string) : list ascii := List.filter (λ c, negb (isspace c)) (String.list_ascii_of_string s).

(** The tokens hold every visible character, in order, and no other. *)
Lemma tokenize_visible s :
  concat (map String.list_ascii_of_string (matrixparse_tokenize s)) = visible s.
Proof.
  induction s as [|c s IH] using tok_ind; [done|]. rewrite tok_cons. unfold visible.
  cbn [String.list_ascii_of_string List.filter].
  destruct (isspace c) eqn:Es; [by apply IH|]. cbn [negb].
  assert (∀ l, concat (map String.list_ascii_of_string (one_char c :: l)) =
    c :: concat (map String.list_ascii_of_string l)) as Hone by done.
  destruct (is_paren c) eqn:Ep; [rewrite Hone; f_equal; by apply IH|]. destruct (is_op c) eqn:Eo.
  { destruct s as [|d s]; [done|]. destruct (Ascii.eqb_spec d "=") as [->|]; [|rewrite Hone; f_equal; by apply IH].
    cbn. do 2 f_equal. apply IH. cbn. lia. }
  assert (ends_run c = false) as Hc by (unfold ends_run; by rewrite Es, Ep, Eo).
  destruct (run_of (String c s)) as [r rest] eqn:Hr. pose proof (run_of_shorter c s r rest Hc Hr) as Hl.
  destruct (run_of_spec _ _ _ Hr) as (Hs & Hf & _). cbn [map concat]. rewrite IH by done.
  assert (∀ l1 l2, String.list_ascii_of_string (l1 +:+ l2) =
    (String.list_ascii_of_string l1 ++ String.list_ascii_of_string l2)%list) as Happ.
  { clear. induction l1 as [|x l1 IH]; intros l2; [done|]. cbn. by rewrite <- IH. }
  apply (f_equal String.list_ascii_of_string) in Hs. rewrite Happ in Hs. cbn [String.list_ascii_of_string] in Hs.
  assert (c :: List.filter (λ c, negb (isspace c)) (String.list_ascii_of_string s) =
    List.filter (λ c, negb (isspace c)) (String.list_ascii_of_string r ++ String.list_ascii_of_string rest)%list) as ->
    by (rewrite <- Hs; cbn [List.filter]; by rewrite Es).
  rewrite List.filter_app. f_equal. symmetry. clear -Hf. induction Hf as [|x l Hx _ IHf]; [done|]. cbn [List.filter].
  unfold ends_run in Hx. apply orb_false_iff in Hx as [[-> _]%orb_false_iff _]. cbn [negb]. by rewrite IHf.
Qed.

(** A token is over where the string ends or a space follows. *)
Definition token_end (rest : string) : Prop :=
  match rest with EmptyString => True | String c _ => c = " "%char end.

Lemma run_of_app r rest :
  Forall (λ c, ends_run c = false) (String.list_ascii_of_string r) → token_end rest →
  run_of (r +:+ rest) = (r, rest).
Proof.
  induction r as [|c r IH]; intros Hr He.
  - destruct rest as [|c rest]; [done|]. cbn in He. by subst c.
  - cbn [String.list_ascii_of_string] in Hr. apply Forall_cons in Hr as [Hc Hr].
    change (String c r +:+ rest) with (String c (r +:+ rest)). cbn [run_of]. by rewrite Hc, IH.
Qed.

Lemma tok_token t rest :
  token_ok t → token_end rest → matrixparse_tokenize (t +:+ rest) = t :: matrixparse_tokenize rest.
Proof.
  intros Ht He. destruct Ht as [(c & -> & Es & Hpo)|[(c & -> & Es & Ep & Eo)|[Hne Hrun]]].
  - change (one_char c +:+ rest) with (String c rest). rewrite tok_cons, Es.
    destruct (is_paren c) eqn:Ep; [done|]. destruct Hpo as [?|Eo]; [done|]. rewrite Eo.
    destruct rest as [|d rest]; [done|]. cbn in He. by subst d.
  - change (String c (one_char "=") +:+ rest) with (String c (String "=" rest)). by rewrite tok_cons, Es, Ep, Eo.
  - destruct t as [|c t]; [done|]. change (String c t +:+ rest) with (String c (t +:+ rest)).
    pose proof Hrun as Hrun'. cbn [String.list_ascii_of_string] in Hrun'. apply Forall_cons in Hrun' as [Hc _].
    unfold ends_run in Hc. apply orb_false_iff in Hc as [[Es Ep]%orb_false_iff Eo].
    rewrite tok_cons, Es, Ep, Eo. change (String c (t +:+ rest)) with (String c t +:+ rest).
    by rewrite (run_of_app (String c t) rest Hrun He).
Qed.

Lemma tok_space s : matrixparse_tokenize (String " " s) = matrixparse_tokenize s.
Proof. by rewrite tok_cons. Qed.

Lemma tok_join tk : Forall token_ok tk → matrixparse_tokenize (join tk) = tk.
Proof.
  induction 1 as [|t tk Ht _ IH]; [done|]. destruct tk as [|t2 tk].
  - cbn [join]. rewrite <- (string_app_nil_r t) at 1. by rewrite tok_token.
  - change (join (t :: t2 :: tk)) with (t +:+ String " " (join (t2 :: tk))).
    rewrite tok_token by done. by rewrite tok_space, IH.
Qed.

(** ** String filters *)

Lemma ltb_slt a b : string_ltb a b = true ↔ slt a b.
Proof. unfold string_ltb, slt. by destruct (String.compare a b). Qed.

Lemma bound_spec (below : string → bool) (bound : list string → Z) dict :
  (∀ d l, bound (d :: l) = if below d then 1 + bound l else 0) → bound [] = 0 →
  (∀ a b, slt a b → below b = true → below a = true) → StronglySorted slt dict →
  0 ≤ bound dict ≤ Z.of_nat (length dict) ∧
  ∀ i s, dict !! i = Some s → (below s = true ↔ Z.of_nat i < bound dict).
Proof.
  intros Hcons Hnil Hmono. induction 1 as [|d l Hl IH Hd].
  { rewrite Hnil. split; [cbn; lia|]. intros i s Hi. by rewrite lookup_nil in Hi. }
  rewrite Hcons. destruct IH as [IHr IH]. destruct (below d) eqn:E.
  - split; [cbn [length]; lia|]. intros [|i] s Hi; cbn in Hi.
    + injection Hi as <-. split; [lia|done].
    + rewrite (IH i s Hi). lia.
  - split; [cbn [length]; lia|]. intros i s Hi. split; [|lia]. intros Hs. exfalso. destruct i as [|i]; cbn in Hi.
    + injection Hi as <-. congruence.
    + rewrite Forall_forall in Hd. specialize (Hd s (list_elem_of_lookup_2 _ _ _ Hi)).
      rewrite (Hmono d s Hd Hs) in E. done.
Qed.

Lemma lower_bound_spec dict x :
  StronglySorted slt dict →
  0 ≤ lower_bound dict x ≤ Z.of_nat (length dict) ∧
  ∀ i s, dict !! i = Some s → (slt s x ↔ Z.of_nat i < lower_bound dict x).
Proof.
  intros H. destruct (bound_spec (λ d, string_ltb d x) (λ l, lower_bound l x) dict) as [H1 H2]; try done.
  - intros a b Hab Hb%ltb_slt. apply ltb_slt. by eapply slt_trans.
  - split; [done|]. intros i s Hi. rewrite <- (H2 i s Hi). by rewrite ltb_slt.
Qed.

Lemma upper_bound_spec dict x :
  StronglySorted slt dict →
  0 ≤ upper_bound dict x ≤ Z.of_nat (length dict) ∧
  ∀ i s, dict !! i = Some s → (sle s x ↔ Z.of_nat i < upper_bound dict x).
Proof.
  intros H. destruct (bound_spec (λ d, String.leb d x) (λ l, upper_bound l x) dict) as [H1 H2]; try done.
  - intros a b Hab Hb%leb_slt. apply leb_slt. left. destruct Hb as [Hb|Hb]; [by eapply slt_trans|by subst].
  - split; [done|]. intros i s Hi. rewrite <- (H2 i s Hi). by rewrite leb_slt.
Qed.

(** What an ordered operator on strings means. *)
Definition string_op (ops : string) (s x : string) : Prop :=
  if String.eqb ops ">" then slt x s
  else if String.eqb ops ">=" then sle x s
  else if String.eqb ops "<" then slt s x
  else sle s x.

Lemma not_sle s x : ¬ sle s x ↔ slt x s.
Proof.
  unfold sle. split.
  - intros H. destruct (String.leb s x) eqn:E; [apply leb_slt in E; tauto|by apply leb_false_slt].
  - intros H [H'| ->]; [apply (slt_irrefl s); by eapply slt_trans|by eapply slt_irrefl].
Qed.

Lemma not_slt s x : ¬ slt s x ↔ sle x s.
Proof.
  split.
  - intros H. destruct (String.leb x s) eqn:E; [by apply leb_slt in E|by apply leb_false_slt in E].
  - intros [H| ->]; [intros H'; apply (slt_irrefl s); by eapply slt_trans|apply slt_irrefl].
Qed.

(** ** Number of groups *)

Definition dense_groups (keys : list Z) : Z :=
  match keys with [] => 0 | _ => Z.min UINT32_MAX (foldr Z.max 0 keys + 1) end.

Lemma num_groups_for_spec keys :
  Forall in_u32 keys →
  num_groups_for keys (length keys) =
    Ret (dense_groups keys).
Proof.
  intros Hk. unfold num_groups_for.
  assert (matrix_cpu_reduce_all keys (length keys) AGG_MAX = Ret (foldr Z.max 0 keys)) as ->.
  { unfold matrix_cpu_reduce_all. rewrite (reduce_loop_select _ _ _ _ _ (λ _, true)); [|done|done].
    assert (select (λ _, true) keys (length keys) = keys) as ->.
    { unfold select. rewrite (List.forallb_filter_id _ (seq 0 (length keys))); [apply map_nth_seq|].
      by apply forallb_forall. }
    rewrite agg_fold_u64. done. }
  cbn [mbind outcome_bind]. f_equal. destruct keys as [|k keys]; [done|]. unfold dense_groups. cbn [length Nat.eqb].
  assert (0 ≤ foldr Z.max 0 (k :: keys) ≤ UINT32_MAX) as Hr.
  { clear -Hk. induction Hk as [|x l Hx _ IH]; cbn; [unfold UINT32_MAX; lia|]. unfold in_u32, UINT32_MAX in *. lia. }
  destruct (Z.leb_spec UINT32_MAX (foldr Z.max 0 (k :: keys))); [lia|].
  rewrite u32_small; [lia|]. unfold in_u32, UINT32_MAX in *. lia.
Qed.

Section total.
Variable strtod : string → option (Z * nat).
Context `{!HashOrder Z} {psort : PartialSort}.

(** Only columns of the catalog have names. *)
Definition names_ok (e : Engine) : Prop :=
  ∀ n id, name_to_id_ (schema_ e) !! n = Some id → v_has (view e) id = true.

Lemma named_column e name : names_ok e → column_id name e ≠ 0 → v_has (view e) (column_id name e) = true.
Proof.
  intros Hn. unfold column_id. destruct (name_to_id_ (schema_ e) !! name) eqn:E; [|done]. intros _. by eapply Hn.
Qed.

Lemma derive_runs e kid :
  engine_wf e → v_has (view e) kid = true → v_type (view e) kid = U32 →
  runs lend_step (derive_num_groups_u32 kid) e
    (Ret (dense_groups (v_u32s (view e) kid))).
Proof.
  intros Hwf Hh Ht. unfold derive_num_groups_u32. apply with_host_runs; [apply Hwf|done|].
  intros e1 Hok1 _. change (count_of 4 (v_size (view e) kid)) with (v_count 4 (view e) kid).
  rewrite v_count_length. unfold v_u32s. rewrite num_groups_for_spec; [by apply runs_lift|].
  eapply Forall_impl; [apply words_range|]. intros x Hx. exact Hx.
Qed.

(** The pure clauses look at the schema only. *)
Lemma select_clause_schema e e0 tk : schema_ e0 = schema_ e → select_clause e0 tk = select_clause e tk.
Proof. intros H. unfold select_clause, column_id. by rewrite H. Qed.

Lemma where_clause_schema e e0 vid q tk :
  schema_ e0 = schema_ e → where_clause strtod e0 vid q tk = where_clause strtod e vid q tk.
Proof. intros H. unfold where_clause, string_filter, string_encode, column_id, column_type. by rewrite H. Qed.

Lemma finish_query_schema e e0 aggs vid r : schema_ e0 = schema_ e → finish_query e0 aggs vid r = finish_query e aggs vid r.
Proof. intros H. unfold finish_query, order_clause, column_id. by rewrite H. Qed.

(** [m] gives the same answer on every engine with the columns of [e], and only
    lends columns. *)
Definition view_determined {A} (m : stM Engine A) (e : Engine) (r : A) : Prop :=
  ∀ e0, engine_wf e0 → view e0 = view e → ∃ e', m e0 = Ret (r, e') ∧ lend_step e0 e'.

Lemma view_determined_pure {A} (m : stM Engine A) e r :
  (∀ e0, schema_ e0 = schema_ e → m e0 = Ret (r, e0)) → view_determined m e r.
Proof.
  intros H e0 Hwf Hv. exists e0. split; [apply H; by apply (f_equal v_schema) in Hv|].
  by apply lend_step_refl, ew_store.
Qed.

Lemma group_clause_runs e q tk : names_ok e → ∃ r, view_determined (group_clause q tk) e r.
Proof.
  intros Hn. unfold group_clause.
  destruct (String.eqb (peek tk) "GROUP"); [|by eexists; apply view_determined_pure].
  destruct (next tk) as [t1 tk1], (next tk1) as [t2 tk2].
  destruct (String.eqb (up t2) "BY"); [|by eexists; apply view_determined_pure]. cbn [negb].
  destruct (next tk2) as [name tk3]. destruct (Z.eqb_spec (column_id name e) 0) as [Hid|Hid].
  { eexists. apply view_determined_pure. intros e0 Hs. cbv zeta.
    assert (column_id name e0 = 0) as -> by (unfold column_id in *; by rewrite Hs). done. }
  destruct (decide (column_type (column_id name e) e = U32)) as [Ht|Ht].
  - eexists. intros e0 Hwf Hv. assert (schema_ e0 = schema_ e) as Hs by (by apply (f_equal v_schema) in Hv).
    assert (column_id name e0 = column_id name e) as -> by (unfold column_id; by rewrite Hs).
    cbv zeta. rewrite (proj2 (Z.eqb_neq _ _) Hid).
    assert (column_type (column_id name e) e0 = U32) as Ht0 by (unfold column_type in *; by rewrite Hs).
    rewrite bool_decide_true by done. cbn [negb].
    destruct (derive_runs e0 (column_id name e) Hwf) as (e' & -> & Hl);
      [rewrite Hv; by apply named_column|done|].
    rewrite Hv. cbn. eexists. split; [done|exact Hl].
  - eexists. apply view_determined_pure. intros e0 Hs. cbv zeta.
    assert (column_id name e0 = column_id name e) as -> by (unfold column_id; by rewrite Hs).
    assert (column_type (column_id name e) e0 = column_type (column_id name e) e) as -> by (unfold column_type; by rewrite Hs).
    rewrite (proj2 (Z.eqb_neq _ _) Hid), bool_decide_false by done. done.
Qed.

Lemma parse_query_run sql e : names_ok e → ∃ r, view_determined (parse_query_impl strtod sql) e r.
Proof.
  intros Hn. unfold parse_query_impl, parse_tokens.
  destruct ('(aggs, q, tk) ← select_clause e (matrixparse_tokenize sql);
            '(q', tk) ← where_clause strtod e (value_col q) q tk;
            mret (aggs, value_col q, q', tk)) as [st|[[[aggs vid] q] tk]] eqn:E.
  - exists (inl st). apply view_determined_pure. intros e0 Hs. rewrite (select_clause_schema e) by done.
    destruct (select_clause e _) as [st0|[[aggs q] tk]]; cbn [mbind result_bind] in *; [by injection E as ->|].
    rewrite (where_clause_schema e) by done.
    destruct (where_clause strtod e _ _ _) as [st1|[q' tk']]; cbn [mbind result_bind] in *; [by injection E as ->|done].
  - destruct (group_clause_runs e q tk Hn) as [r Hr]. exists (finish_query e aggs vid r). intros e0 Hwf Hv.
    assert (schema_ e0 = schema_ e) as Hs by (by apply (f_equal v_schema) in Hv).
    destruct (Hr e0 Hwf Hv) as (e' & Hg & Hl). exists e'. split; [|done]. rewrite (select_clause_schema e) by done.
    destruct (select_clause e _) as [st0|[[aggs0 q0] tk0]]; cbn [mbind result_bind] in *; [done|].
    rewrite (where_clause_schema e) by done.
    destruct (where_clause strtod e _ _ _) as [st1|[q' tk']]; cbn [mbind result_bind] in *; [done|].
    injection E as <- <- <- <-. cbn. rewrite Hg. cbn. f_equal. f_equal. apply finish_query_schema.
    by rewrite (ls_schema _ _ Hl).
Qed.

(** The query a string parses to depends on the columns alone. *)
Lemma parse_query_determined sql e :
  names_ok e → ∃ st q, view_determined (parse_query strtod sql) e (st, q) ∧ (st ≠ OK → q = default_query).
Proof.
  intros Hn. destruct (parse_query_run sql e Hn) as [r Hr].
  exists (match r with inr _ => OK | inl st => st end), (match r with inr q => q | inl _ => default_query end).
  split; [|by destruct r].
  intros e0 Hwf Hv. destruct (Hr e0 Hwf Hv) as (e' & Hrun & Hl). exists e'. split; [|done].
  unfold parse_query. rewrite (stM_bind_run _ _ _ _ _ Hrun). by destruct r.
Qed.

Lemma parse_query_lends sql e :
  engine_wf e → names_ok e →
  ∃ st q e', parse_query strtod sql e = Ret ((st, q), e') ∧ lend_step e e' ∧ (st ≠ OK → q = default_query).
Proof.
  intros Hwf Hn. destruct (parse_query_determined sql e Hn) as (st & q & Hd & Hq).
  destruct (Hd e Hwf eq_refl) as (e' & Hr & Hl). by exists st, q, e'.
Qed.

(** ** Theorems *)

(** C34: Parsing never fails to return, whatever the string.  The loop of the
    tokenizer comes to the end of the string within one turn a character and one
    more, having put every character that is not white space into one token, in
    order; and the parser gives a status and a query that depend on the columns
    alone, not on where they are, and leaves every column as it was (GROUP BY may
    borrow the key column).  On any error the query is the default one, so nothing
    half parsed can be run. *)
Theorem parse_query_total sql e :
  engine_wf e → names_ok e →
  tokenize (S (String.length sql)) sql = Some (matrixparse_tokenize sql) ∧
  concat (map String.list_ascii_of_string (matrixparse_tokenize sql)) = visible sql ∧
  Forall token_ok (matrixparse_tokenize sql) ∧
  ∃ st q, (st ≠ OK → q = default_query) ∧
    ∀ e0, engine_wf e0 → view e0 = view e →
      ∃ e', parse_query strtod sql e0 = Ret ((st, q), e') ∧ engine_wf e' ∧ view e' = view e.
Proof.
  intros Hwf Hn. split; [apply tokenize_enough|]. split; [apply tokenize_visible|]. split; [apply tokenize_ok|].
  destruct (parse_query_determined sql e Hn) as (st & q & Hd & Hq). exists st, q. split; [done|].
  intros e0 Hwf0 Hv. destruct (Hd e0 Hwf0 Hv) as (e' & Hr & Hl). exists e'. split; [done|].
  split; [by eapply lend_wf|]. rewrite <- Hv. by apply lend_step_view.
Qed.

(** GROUP BY over a parsed query has a slot for every key, unless a key is
    UINT32_MAX, which would need more groups than fit. *)
Theorem derived_groups_cover_keys e kid :
  engine_wf e → v_has (view e) kid = true → v_type (view e) kid = U32 →
  ∃ G e', derive_num_groups_u32 kid e = Ret (G, e') ∧ in_u32 G ∧ view e' = view e ∧
    (G = 0 ↔ v_u32s (view e) kid = []) ∧
    (UINT32_MAX ∉ v_u32s (view e) kid → ∀ k, k ∈ v_u32s (view e) kid → k < G).
Proof.
  intros Hwf Hh Ht. destruct (derive_runs e kid Hwf Hh Ht) as (e' & Hr & Hl).
  assert (Forall in_u32 (v_u32s (view e) kid)) as Hk.
  { eapply Forall_impl; [apply words_range|]. intros x Hx. exact Hx. }
  do 2 eexists. split; [exact Hr|]. pose proof (lend_step_view _ _ Hl) as Hv.
  generalize dependent (v_u32s (view e) kid). intros keys _ Hk.
  assert (∀ k, k ∈ keys → k ≤ foldr Z.max 0 keys ∧ in_u32 k) as Hmax.
  { intros k Hin. rewrite Forall_forall in Hk. split; [|by apply Hk]. clear -Hin.
    induction keys as [|x l IH]; [by apply elem_of_nil in Hin|]. cbn. apply elem_of_cons in Hin as [->|Hin]; [lia|].
    specialize (IH Hin). lia. }
  assert (0 ≤ foldr Z.max 0 keys ≤ UINT32_MAX ∧ (keys ≠ [] → foldr Z.max 0 keys = 0 ∨ foldr Z.max 0 keys ∈ keys)) as [Hr0 Hin].
  { clear -Hk. induction Hk as [|x l Hx _ [IH IHin]]; cbn; [split; [unfold UINT32_MAX; lia|done]|].
    unfold in_u32, UINT32_MAX in *. split; [lia|]. intros _. destruct (Z.max_spec x (foldr Z.max 0 l)) as [[? ->]|[? ->]].
    - destruct l as [|y l]; [by left|]. destruct IHin as [->|?]; [done|by left|right; set_solver].
    - right. set_solver. }
  unfold dense_groups. destruct keys as [|k0 keys]; [split; [unfold in_u32; lia|]; split; [done|]; split; [done|]; intros _ k Hk'; by apply elem_of_nil in Hk'|].
  unfold in_u32, UINT32_MAX in *. split; [lia|]. split; [done|]. split; [split; [lia|done]|].
  intros Hnot k Hin'. destruct (Hmax k Hin') as [Hle Hu].
  destruct (Hin ltac:(done)) as [H0|Hm]; [lia|].
  assert (foldr Z.max 0 (k0 :: keys) ≠ 2 ^ 32 - 1) by (intros Heq; rewrite Heq in Hm; done). lia.
Qed.
End total.

(** The tokenizer is stable: joining tokens with spaces and tokenizing again
    gives the same tokens, which the rewriting query forms rely on. *)
Theorem tokenizer_round_trips s :
  matrixparse_tokenize (join (matrixparse_tokenize s)) = matrixparse_tokenize s.
Proof. apply tok_join, tokenize_ok. Qed.

(** An ordered comparison with a string literal selects exactly the codes of
    the strings that compare so, whether the literal is in the dictionary or
    not. *)
Theorem string_filter_correct dict ops x c t :
  StronglySorted slt dict → string_range dict ops x = Some (c, t) →
  ∀ i s, dict !! i = Some s →
    (matrix_pred_match (Z.of_nat i) (mkPred c t 0) = true ↔ string_op ops s x).
Proof.
  intros Hs Hr i s Hi. destruct (lower_bound_spec dict x Hs) as [_ Hlb]. destruct (upper_bound_spec dict x Hs) as [_ Hub].
  specialize (Hlb i s Hi). specialize (Hub i s Hi). unfold string_range in Hr. unfold string_op.
  destruct (String.eqb ops ">"); [|destruct (String.eqb ops ">="); [|destruct (String.eqb ops "<");
    [|destruct (String.eqb ops "<="); [|done]]]]; injection Hr as <- <-; unfold matrix_pred_match, cmp_match; cbn.
  - rewrite Z.leb_le, <- not_sle, Hub. lia.
  - rewrite Z.leb_le, <- not_slt, Hlb. lia.
  - by rewrite Z.ltb_lt, <- Hlb.
  - by rewrite Z.ltb_lt, <- Hub.
Qed.

(** BETWEEN on strings selects the strings of the interval, provided some
    string of the dictionary is not above it; an interval below the whole
    dictionary selects code 0, the smallest string, although it is outside. *)
Theorem string_between_selects dict lo hi :
  StronglySorted slt dict →
  let '(l, u) := string_between dict lo hi in
  ∀ i s, dict !! i = Some s →
    (matrix_pred_match (Z.of_nat i) (mkPred BETWEEN l u) = true ↔
     (sle lo s ∧ sle s hi) ∨
     (i = 0%nat ∧ sle lo s ∧ slt hi s)).
Proof.
  intros Hs. unfold string_between. destruct (lower_bound_spec dict lo Hs) as [Hlr Hlb].
  destruct (upper_bound_spec dict hi Hs) as [Hur Hub]. intros i s Hi. specialize (Hlb i s Hi).
  pose proof (Hub i s Hi) as Hubi. unfold matrix_pred_match, cmp_match. cbn.
  rewrite andb_true_iff, !Z.leb_le, <- (not_slt s lo), Hlb, Hubi.
  rewrite <- (not_sle s hi), Hubi.
  destruct (Z.eqb_spec (upper_bound dict hi) 0) as [H0|H0]; lia.
Qed.

(** ** Witnesses *)

Definition no_strtod (s : string) : option (Z * nat) := Some (F64_ZERO, 0%nat).

Definition named_sample : Engine :=
  match (e ← name_column 1 "v" sample; name_column 2 "k" e) with Ret e => e | Crash _ => sample end.

Lemma named_sample_wf : engine_wf named_sample.
Proof. pose proof sample_wf as [????????]. by split. Qed.

Lemma named_sample_names : names_ok named_sample.
Proof.
  intros n id. assert (name_to_id_ (schema_ named_sample) = {[ "k" := 2; "v" := 1 ]}) as -> by (vm_compute; reflexivity).
  intros [[_ <-]|[_ [_ <-]%lookup_singleton_Some]]%lookup_insert_Some; vm_compute; reflexivity.
Qed.

Lemma parse_query_total_witness :
  ∃ st q e', parse_query no_strtod "SELECT SUM(v) WHERE v >" named_sample = Ret ((st, q), e') ∧
    (st ≠ OK → q = default_query).
Proof.
  destruct (parse_query_total no_strtod "SELECT SUM(v) WHERE v >" named_sample
    named_sample_wf named_sample_names) as (_ & _ & _ & st & q & Hq & H).
  destruct (H named_sample named_sample_wf eq_refl) as (e' & Hr & _).
  exists st, q, e'. split; [exact Hr|exact Hq].
Defined.

(** The key column is on disk. *)
Lemma derived_groups_cover_keys_witness :
  ∃ G e', derive_num_groups_u32 2 sample = Ret (G, e') ∧ 1 < G.
Proof.
  destruct (derived_groups_cover_keys sample 2 sample_wf) as (G & e' & H1 & _ & _ & _ & H2).
  - vm_compute. reflexivity.
  - vm_compute. reflexivity.
  - exists G, e'. split; [exact H1|]. apply H2.
    + refine (bool_decide_unpack _ _). vm_compute. exact I.
    + refine (bool_decide_unpack _ _). vm_compute. exact I.
Defined.

Lemma two_strings_sorted : StronglySorted slt ["fig"; "pear"].
Proof. repeat constructor; vm_compute; reflexivity. Qed.

Lemma string_filter_correct_witness :
  matrix_pred_match 1 (mkPred GE 1 0) = true ∧ string_op ">" "pear" "kiwi".
Proof.
  split; [reflexivity|].
  apply (proj1 (string_filter_correct ["fig"; "pear"] ">" "kiwi" GE 1 two_strings_sorted eq_refl 1 "pear" eq_refl)).
  reflexivity.
Defined.

(** BETWEEN 'a' AND 'b' matches the fig. *)
Lemma string_between_selects_witness :
  string_between ["fig"; "pear"] "a" "b" = (0, 0) ∧ matrix_pred_match 0 (mkPred BETWEEN 0 0) = true ∧ slt "b" "fig".
Proof.
  split; [vm_compute; reflexivity|].
  pose proof (string_between_selects ["fig"; "pear"] "a" "b" two_strings_sorted) as H.
  assert (string_between ["fig"; "pear"] "a" "b" = (0, 0)) as E by (vm_compute; reflexivity). rewrite E in H.
  split; [|vm_compute; reflexivity].
  apply (proj2 (H 0%nat "fig" eq_refl)). right. split; [reflexivity|].
  split; [left; vm_compute; reflexivity|vm_compute; reflexivity].
Defined.

Example parse_grouped :
  ∃ e', parse_query no_strtod "select Sum(v) where v>5 group by k" named_sample = Ret ((OK, grouped_query), e').
Proof. eexists. vm_compute. reflexivity. Qed.
