(* ===== verification/Text.v ===== *)
(** * Text: the C and C++ text functions the shells use

    [std::to_string], [strtoull], [std::string::find] and the line helpers of
    [matrix_cli.hpp].  Strings are lists of bytes; characters are classified in
    the C locale. *)

From Stdlib Require Import Ascii.
From stdpp Require Export pretty.
From S2P Require Export Parser.
#[local] Open Scope string_scope.
#[local] Open Scope Z_scope.

(** [std::to_string] of an integer. *)
Definition to_string (z : Z) : string := pretty z.

Definition append (a b : string) : string := String.append a b.

(** [s.find(pat)]: where the first occurrence begins. *)
Definition find (pat s : string) : option nat := String.index 0 pat s.
Definition contains (pat s : string) : bool := match find pat s with Some _ => true | None => false end.

(** [s.substr(pos, len)] and [s.substr(pos)] for [pos ≤ s.size()]. *)
Definition substr (pos len : nat) (s : string) : string := String.substring pos len s.
Fixpoint drop_chars (n : nat) (s : string) : string :=
  match n, s with S n', String _ s' => drop_chars n' s' | _, _ => s end.

(** [s.rfind(pat, 0) == 0] *)
Definition starts_with (pat s : string) : bool := String.prefix pat s.

(** ** Numbers *)

Fixpoint skip_space (s : string) : string :=
  match s with String c s' => if isspace c then skip_space s' else s | EmptyString => EmptyString end.

(** The value of the longest run of digits at the front of [s], and whether
    there is one. *)
Fixpoint leading_digits (acc : Z) (s : string) : Z :=
  match s with
  | String c s' => match digit c with Some d => leading_digits (acc * 10 + d) s' | None => acc end
  | EmptyString => acc
  end.

Definition has_digit (s : string) : bool :=
  match s with String c _ => match digit c with Some _ => true | None => false end | EmptyString => false end.

(** [std::strtoull(s, nullptr, 10)]: nothing to convert is 0, overflow is the
    largest value, and a minus sign negates modulo 2^64. *)
Definition strtoull (s : string) : Z :=
  let magnitude s := if UINT64_MAX <? leading_digits 0 s then None else Some (leading_digits 0 s) in
  match skip_space s with
  | String "-"%char s' => match magnitude s' with Some n => u64 (- n) | None => UINT64_MAX end
  | String "+"%char s' => match magnitude s' with Some n => n | None => UINT64_MAX end
  | s' => match magnitude s' with Some n => n | None => UINT64_MAX end
  end.

(** [std::from_chars] into an unsigned 64-bit variable: the digits at the front,
    or the variable as it was. *)
Definition from_chars_u64 (s : string) (old : Z) : Z :=
  if has_digit s && (leading_digits 0 s <=? UINT64_MAX) then leading_digits 0 s else old.

(** ** Lines *)

Definition blank (c : ascii) : bool :=
  (Ascii.eqb c " " || Ascii.eqb c (ascii_of_nat 9) || Ascii.eqb c (ascii_of_nat 13) || Ascii.eqb c (ascii_of_nat 10))%char.

Fixpoint drop_while (p : ascii → bool) (s : string) : string :=
  match s with String c s' => if p c then drop_while p s' else s | EmptyString => EmptyString end.

(** Up to the last character that is not [p]. *)
Fixpoint keep_until_last (p : ascii → bool) (s : string) : string :=
  match s with
  | EmptyString => EmptyString
  | String c s' =>
      match keep_until_last p s' with
      | EmptyString => if p c then EmptyString else String c EmptyString
      | r => String c r
      end
  end.

Definition trim (s : string) : string := keep_until_last blank (drop_while blank s).

(** [while (is >> w)]: the words of a line. *)
Fixpoint words (word : string) (s : string) : list string :=
  let emit := match word with EmptyString => [] | _ => [word] end in
  match s with
  | EmptyString => emit
  | String c s' => if isspace c then (emit ++ words EmptyString s')%list else words (append word (String c EmptyString)) s'
  end.

Definition split_ws (s : string) : list string := words EmptyString s.

Definition upper (s : string) : string := up s.

(** The fields between occurrences of a comma. *)
Fixpoint fields (field : string) (s : string) : list string :=
  match s with
  | EmptyString => [field]
  | String c s' => if Ascii.eqb c ","%char then field :: fields EmptyString s' else fields (append field (String c EmptyString)) s'
  end.

Definition split_commas (s : string) : list string := fields EmptyString s.

Example strtoull_12 : strtoull " 12abc" = 12. Proof. reflexivity. Qed.
Example strtoull_neg : strtoull "-1" = UINT64_MAX. Proof. reflexivity. Qed.
Example split_ws_ab : split_ws " ab  c " = ["ab"; "c"]. Proof. reflexivity. Qed.
Example trim_ab : trim "  a b " = "a b". Proof. reflexivity. Qed.
Example split_commas_ab : split_commas "a,,b" = ["a"; EmptyString; "b"]. Proof. reflexivity. Qed.
