(* ===== verification/MultiQuery.v ===== *)
(** * MultiQuery: several aggregates in one string

    [query_multi]: "SELECT a, b, c tail" runs one query a term, each with the
    tail of the string, and gives their results in order, or none when any of
    them fails. *)

From Stdlib Require Import Ascii.
From S2P Require Export Text.
#[local] Open Scope string_scope.
#[local] Open Scope Z_scope.

(** The first occurrence at or after position 6, behind the word SELECT. *)
Definition find_clause (kw s : string) : option nat := String.index 6 kw s.

Definition clause_cut (up : string) : option nat :=
  let first a b := match a, b with Some x, Some y => Some (Nat.min x y) | Some x, None => Some x | None, b => b end in
  first (find_clause " WHERE" up) (first (find_clause " GROUP" up) (find_clause " ORDER" up)).

Definition trim_space (s : string) : string := keep_until_last isspace (drop_while isspace s).

(** The list of terms and the tail, for a string that starts with SELECT. *)
Definition split_select (sql : string) : option (list string * string) :=
  let s := drop_while isspace sql in
  if negb (starts_with "SELECT" (upper s)) then None
  else
    let '(list, rest) := match clause_cut (upper s) with
                         | Some cut => (substr 6 (cut - 6) s, drop_chars cut s)
                         | None => (drop_chars 6 s, EmptyString)
                         end in
    Some (List.filter (λ t, negb (String.eqb t EmptyString)) (map trim_space (split_commas list)), rest).

Section multi.
Variable strtod : string → option (Z * nat).
Context `{!HashOrder Z}.

Fixpoint multi_terms (ns : nat → Z) (k : nat) (terms : list string) (rest : string) : stM Engine (option (list (list Z))) := λ e,
  match terms with
  | [] => Ret (Some [], e)
  | term :: terms' =>
      '((st, q), e) ← parse_query strtod ("SELECT " +:+ term +:+ rest) e;
      if negb (bool_decide (st = OK)) then Ret (None, e)
      else
        '((st, r), e) ← execute_query q (ns k) e;
        if negb (bool_decide (st = OK)) then Ret (None, e)
        else
          '(o, e) ← multi_terms ns (S k) terms' rest e;
          Ret (match o with Some rs => Some (r :: rs) | None => None end, e)
  end.

Definition query_multi (sql : string) (ns : nat → Z) : stM Engine (list (list Z)) := λ e,
  match split_select sql with
  | None => Ret ([], e)
  | Some (terms, rest) => '(o, e) ← multi_terms ns 0 terms rest e; Ret (default [] o, e)
  end.

(** ** What a string of several terms means *)

(** Term after term, each in the state the one before left. *)
Inductive answers_terms (ns : nat → Z) (rest : string) : nat → list string → Engine → list (list Z) → Engine → Prop :=
  | answers_nil k e : answers_terms ns rest k [] e [] e
  | answers_cons k term terms e q e1 r e2 rs e3 :
      parse_query strtod ("SELECT " +:+ term +:+ rest) e = Ret ((OK, q), e1) →
      execute_query q (ns k) e1 = Ret ((OK, r), e2) →
      answers_terms ns rest (S k) terms e2 rs e3 →
      answers_terms ns rest k (term :: terms) e (r :: rs) e3.

Lemma multi_terms_run ns rest terms : ∀ k e rs e',
  multi_terms ns k terms rest e = Ret (Some rs, e') ↔ answers_terms ns rest k terms e rs e'.
Proof.
  induction terms as [|term terms IH]; intros k e rs e'; cbn [multi_terms].
  - split; [intros [= <- <-]; constructor|by inversion 1].
  - destruct (parse_query strtod ("SELECT " +:+ term +:+ rest) e) as [[[st q] e1]|] eqn:Ep; cbn [mbind outcome_bind].
    2:{ split; [done|inversion 1; congruence]. }
    destruct (decide (st = OK)) as [->|Hst]; [rewrite bool_decide_true by done|rewrite bool_decide_false by done]; cbn [negb].
    2:{ split; [done|inversion 1; congruence]. }
    destruct (execute_query q (ns k) e1) as [[[st r] e2]|] eqn:Ex; cbn [mbind outcome_bind].
    2:{ split; [done|inversion 1; congruence]. }
    destruct (decide (st = OK)) as [->|Hst]; [rewrite bool_decide_true by done|rewrite bool_decide_false by done]; cbn [negb].
    2:{ split; [done|inversion 1; congruence]. }
    split.
    + intros H. destruct (multi_terms ns (S k) terms rest e2) as [[[rs'|] e3]|] eqn:Em; [|done..].
      injection H as <- <-. econstructor; [done..|]. by apply IH.
    + inversion 1 as [|? ? ? ? q' e1' r' e2' rs0 ? Hp He Hrest]; subst. rewrite Ep in Hp. injection Hp as <- <-.
      rewrite Ex in He. injection He as <- <-. by apply IH in Hrest as ->.
Qed.

End multi.
