(* ===== verification/ColumnIO.v ===== *)
(** * ColumnIO: single-column files

    [column_io.hpp]: a u32 column as [[magic][count][values]], a typed column as
    [[magic][type][byte count][bytes]], and the engine's [save_column] and
    [load_column_from_file].  [mem] is the largest vector the process can
    allocate: a larger size in a file is an exception nothing catches. *)

From S2P Require Export EngineLoad.

Definition MATRIX_COLUMN_MAGIC : Z := 0x4D434F4C.
Definition MATRIX_COLUMN_MAGIC_TYPED : Z := 0x314F434D.

(** A chain of [fwrite]s, which stops at the first short one. *)
Fixpoint fwrite_all (fs : filesys) (p : string) (chunks : list (list byte)) : bool * filesys :=
  match chunks with
  | [] => (true, fs)
  | c :: cs =>
      let '(n, fs') := fs_write fs p c in
      if (n =? length c)%nat then fwrite_all fs' p cs else (false, fs')
  end.

Definition write_file (path : string) (chunks : list (list byte)) (fs : filesys) : outcome filesys :=
  match fs_open_write fs path with
  | None => Crash Aborted
  | Some fs =>
      let '(ok, fs) := fwrite_all fs path chunks in
      if (ok : bool) then Ret fs else Crash Aborted
  end.

Definition matrix_write_column (path : string) (data : list Z) (fs : filesys) : outcome filesys :=
  write_file path [le_u32 MATRIX_COLUMN_MAGIC; le_u64 (Z.of_nat (length data)); bytes_of U32 data] fs.

Definition matrix_write_column_typed (path : string) (bytes : list byte) (type : Z) (fs : filesys) : outcome filesys :=
  write_file path [le_u32 MATRIX_COLUMN_MAGIC_TYPED; le_u32 type; le_u64 (Z.of_nat (length bytes)); bytes] fs.

Section reading.
Variable mem : Z.

(** [out.resize(n)] of [w]-byte elements. *)
Definition alloc (w n : Z) : outcome unit := if w * n <=? mem then Ret tt else Crash Uncaught.

(** [resize] and [fread] of [n] elements of [w] bytes. *)
Definition fread_array (w n : Z) (r : list byte) : outcome (option (list byte * list byte)) :=
  _ ← alloc w n; Ret (fread (Z.to_nat (w * n)) r).

Definition or_abort {A} (o : option A) : outcome A := of_option Aborted o.

Definition check_magic (magic m : Z) : option unit := if m =? magic then Some tt else None.

Definition matrix_read_column (path : string) (fs : filesys) : outcome (list Z) :=
  r ← or_abort (fs_read fs path);
  '(count, r) ← or_abort ('(m, r) ← fread_u32 r; _ ← check_magic MATRIX_COLUMN_MAGIC m; fread_u64 r);
  o ← fread_array 4 count r;
  '(b, _) ← or_abort o;
  Ret (u32s b).

Definition matrix_read_column_typed (path : string) (fs : filesys) : outcome (list byte * Z) :=
  r ← or_abort (fs_read fs path);
  '(type, bc, r) ← or_abort ('(m, r) ← fread_u32 r; _ ← check_magic MATRIX_COLUMN_MAGIC_TYPED m;
                             '(type, r) ← fread_u32 r; '(bc, r) ← fread_u64 r; Some (type, bc, r));
  o ← fread_array 1 bc r;
  '(b, _) ← or_abort o;
  Ret (b, type).

(** ** On the engine *)

Definition save_column (id : Z) (path : string) : stM Engine unit :=
  with_host id (λ size bs e,
    fs ← matrix_write_column_typed path bs (type_to_u32 (column_type id e)) (e_fs e);
    Ret (tt, set_store (catalog_ e) fs e)).

(** The bytes as whole elements of the type; an unknown type is read as u32. *)
Definition load_column_from_file (id : Z) (path : string) (e : Engine) : outcome Engine :=
  '(bytes, type) ← matrix_read_column_typed path (e_fs e);
  if type =? type_to_u32 I64 then load_scan_column_i64 id (i64s bytes) e
  else if type =? type_to_u32 F64 then load_scan_column_f64 id (f64s bytes) e
  else load_scan_column id (u32s bytes) e.

(** ** Lemmas *)

Lemma fwrite_all_fits chunks : ∀ fs p f,
  fs_files fs !! p = Some f → (length (concat chunks) ≤ fs_room fs)%nat →
  fwrite_all fs p chunks =
    (true, fs_set fs p (mkFile (f_data f ++ concat chunks) (f_synced f)) (fs_room fs - length (concat chunks))).
Proof.
  induction chunks as [|c cs IH]; intros fs p f Hf Hr; cbn [fwrite_all concat].
  - cbn. rewrite app_nil_r, Nat.sub_0_r. f_equal. destruct fs as [files room denied], f. unfold fs_set. cbn in *.
    by rewrite insert_id.
  - cbn [concat] in Hr. rewrite length_app in Hr. rewrite (fs_write_fits fs p f) by (done || lia).
    rewrite Nat.eqb_refl. erewrite IH; [|apply lookup_insert_eq|cbn; lia].
    unfold fs_set. cbn. rewrite insert_insert_eq, app_assoc, length_app. do 2 f_equal. lia.
Qed.

Lemma write_file_fits path chunks fs :
  path ∉ fs_denied fs → (length (concat chunks) ≤ fs_room fs + fs_size fs path)%nat →
  write_file path chunks fs =
    Ret (fs_set fs path (mkFile (concat chunks) 0) (fs_room fs + fs_size fs path - length (concat chunks))).
Proof.
  intros Hd Hr. unfold write_file, fs_open_write. rewrite decide_False by done.
  erewrite fwrite_all_fits; [|apply lookup_insert_eq|exact Hr]. unfold fs_set. cbn. by rewrite insert_insert_eq.
Qed.

Lemma fwrite_all_short chunks : ∀ fs p f,
  fs_files fs !! p = Some f → (fs_room fs < length (concat chunks))%nat → (fwrite_all fs p chunks).1 = false.
Proof.
  induction chunks as [|c cs IH]; intros fs p f Hf Hr; cbn [fwrite_all concat] in *; [cbn in Hr; lia|].
  rewrite length_app in Hr. destruct (decide (length c ≤ fs_room fs)%nat) as [Hc|Hc].
  - rewrite (fs_write_fits fs p f) by done. rewrite Nat.eqb_refl. eapply IH; [apply lookup_insert_eq|cbn; lia].
  - unfold fs_write. rewrite Hf, Nat.min_r by lia. destruct (Nat.eqb_spec (fs_room fs) (length c)); [lia|done].
Qed.

Lemma fread_all n b : length b = n → fread n b = Some (b, []).
Proof. intros H. rewrite <- (app_nil_r b) at 1. by apply fread_app. Qed.

(** ** Theorems *)

(** A column written to a file that fits the device reads back unchanged, and
    so does a typed column with its type; on a full or read-only device the
    process stops, and never leaves a short file as the result of a write that
    returned. *)
Theorem column_file_roundtrip path data bytes ty fs :
  Forall in_u32 data → in_u32 ty → 4 * Z.of_nat (length data) ≤ mem < 2 ^ 64 → Z.of_nat (length bytes) ≤ mem →
  (match matrix_write_column path data fs with
   | Ret fs' => matrix_read_column path fs' = Ret data
   | Crash k => k = Aborted
   end) ∧
  (match matrix_write_column_typed path bytes ty fs with
   | Ret fs' => matrix_read_column_typed path fs' = Ret (bytes, ty)
   | Crash k => k = Aborted
   end).
Proof.
  intros Hdata Hty Hmem Hbm. assert (∀ chunks, match write_file path chunks fs with
    | Ret fs' => fs_read fs' path = Some (concat chunks) | Crash k => k = Aborted end) as Hw.
  { intros chunks. unfold write_file. destruct (fs_open_write fs path) as [fs1|] eqn:Ho; [|done].
    assert (∃ f, fs_files fs1 !! path = Some f ∧ f_data f = []) as (f & Hf & Hfd).
    { unfold fs_open_write in Ho. destruct (decide _); [done|]. injection Ho as <-. cbn.
      eexists. split; [apply lookup_insert_eq|done]. }
    destruct (decide (length (concat chunks) ≤ fs_room fs1)%nat).
    - erewrite fwrite_all_fits by done. rewrite fs_set_read. cbn. by rewrite Hfd.
    - pose proof (fwrite_all_short chunks fs1 path f Hf ltac:(lia)) as Hs.
      destruct (fwrite_all fs1 path chunks) as [ok fs2]. cbn in Hs. by rewrite Hs. }
  split.
  - unfold matrix_write_column. specialize (Hw [le_u32 MATRIX_COLUMN_MAGIC; le_u64 (Z.of_nat (length data)); bytes_of U32 data]).
    destruct (write_file _ _ _) as [fs'|]; [|done]. unfold matrix_read_column. rewrite Hw.
    cbn [or_abort of_option mbind outcome_bind concat].
    assert (check_magic MATRIX_COLUMN_MAGIC (u32 MATRIX_COLUMN_MAGIC) = Some tt) as Hm by reflexivity.
    rewrite fread_u32_app. cbn [mbind option_bind]. rewrite Hm. cbn [mbind option_bind]. rewrite fread_u64_app.
    cbn [or_abort of_option mbind outcome_bind]. rewrite app_nil_r.
    rewrite u64_small by (unfold in_u64; lia). unfold fread_array, alloc.
    destruct (Z.leb_spec (4 * Z.of_nat (length data)) mem); [|lia]. cbn [mbind outcome_bind].
    rewrite fread_all by (rewrite length_bytes_of; cbn [type_width]; lia). cbn [or_abort of_option mbind outcome_bind].
    f_equal. exact (col_values_bytes_of U32 data Hdata).
  - unfold matrix_write_column_typed. specialize (Hw [le_u32 MATRIX_COLUMN_MAGIC_TYPED; le_u32 ty; le_u64 (Z.of_nat (length bytes)); bytes]).
    destruct (write_file _ _ _) as [fs'|]; [|done]. unfold matrix_read_column_typed. rewrite Hw.
    cbn [or_abort of_option mbind outcome_bind concat].
    assert (check_magic MATRIX_COLUMN_MAGIC_TYPED (u32 MATRIX_COLUMN_MAGIC_TYPED) = Some tt) as Hm by reflexivity.
    rewrite fread_u32_app. cbn [mbind option_bind]. rewrite Hm. cbn [mbind option_bind]. rewrite fread_u32_app.
    cbn [mbind option_bind]. rewrite fread_u64_app. cbn [or_abort of_option mbind option_bind outcome_bind]. rewrite app_nil_r.
    rewrite u64_small by (unfold in_u64; lia). rewrite u32_small by done. unfold fread_array, alloc.
    destruct (Z.leb_spec (1 * Z.of_nat (length bytes)) mem); [|lia]. cbn [mbind outcome_bind].
    rewrite fread_all by lia. done.
Qed.
End reading.

Lemma column_file_roundtrip_witness :
  ∃ fs', matrix_write_column "c" [5; 7] (mkFS ∅ 100 ∅) = Ret fs' ∧ matrix_read_column 1000 "c" fs' = Ret [5; 7].
Proof.
  destruct (column_file_roundtrip 1000 "c" [5; 7] [] 0 (mkFS ∅ 100 ∅)) as [H _].
  - repeat constructor; unfold in_u32; lia.
  - unfold in_u32; lia.
  - cbn. lia.
  - cbn. lia.
  - destruct (matrix_write_column "c" [5; 7] (mkFS ∅ 100 ∅)) as [fs'|] eqn:E; [|vm_compute in E; discriminate].
    exists fs'. split; [reflexivity|exact H].
Defined.
