(* ===== verification/CsvIngest.v ===== *)
(** * CsvIngest: columns out of CSV files

    [csv_ingest.hpp] and the engine's [load_column_from_csv] family.  A file is
    untrusted: whatever is wrong with it, the reader returns [None] ([false])
    and the catalog stays as it was.  A numeric field is converted by
    [std::from_chars] or by [strtod], the parameter of [Parser]. *)

From Stdlib Require Import Ascii.
From S2P Require Export Parser.

#[local] Open Scope string_scope.
#[local] Open Scope Z_scope.

(** ** Lines and fields *)

Definition NL : ascii := ascii_of_nat 10.
Definition CR : ascii := ascii_of_nat 13.

(** The lines [std::getline] returns: a newline at the end of the file starts
    no further line. *)
Fixpoint getlines (s : string) : list string :=
  match s with
  | EmptyString => []
  | String c s' =>
      if Ascii.eqb c NL then EmptyString :: getlines s'
      else match getlines s' with
           | [] => [one_char c]
           | l :: ls => String c l :: ls
           end
  end.

(** [if (!line.empty() && line.back() == '\r') line.pop_back();] *)
Fixpoint strip_cr (line : string) : string :=
  match line with
  | EmptyString => EmptyString
  | String c EmptyString => if Ascii.eqb c CR then EmptyString else line
  | String c line' => String c (strip_cr line')
  end.

(** [line.find(delim, start)]: what follows the first delimiter. *)
Fixpoint after_delim (delim : ascii) (s : string) : option string :=
  match s with
  | EmptyString => None
  | String c s' => if Ascii.eqb c delim then Some s' else after_delim delim s'
  end.

Fixpoint upto_delim (delim : ascii) (s : string) : string :=
  match s with
  | EmptyString => EmptyString
  | String c s' => if Ascii.eqb c delim then EmptyString else String c (upto_delim delim s')
  end.

(** The rest of the line from the field at [col_index]; [None] is a short row. *)
Fixpoint seek_field (delim : ascii) (col_index : nat) (line : string) : option string :=
  match col_index with
  | O => Some line
  | S k => rest ← after_delim delim line; seek_field delim k rest
  end.

(** ** Readers

    [conv field rest] is the value of a field, [rest] being the line from the
    start of the field. *)

Section readers.
Variable strtod : string → option (Z * nat).

Definition read_row {A} (conv : string → string → option A) (col_index : nat) (delim : ascii) (line : string) : option A :=
  rest ← seek_field delim col_index line; conv (upto_delim delim rest) rest.

Definition data_lines (has_header : bool) (text : string) : list string :=
  let lines := map strip_cr (getlines text) in
  if has_header then tail lines else lines.

(** [None] when the file does not open or a row is bad: no value is kept. *)
Definition read_csv {A} (conv : string → string → option A) (path : string) (col_index : nat) (has_header : bool)
    (delim : ascii) (fs : filesys) : option (list A) :=
  bs ← fs_read fs path;
  mapM (read_row conv col_index delim) (data_lines has_header (text_of bs)).

Definition conv_u32 (field rest : string) : option Z := parse_uint UINT32_MAX field.
Definition conv_i64 (field rest : string) : option Z := parse_i64 field.
Definition conv_str (field rest : string) : option string := Some field.

(** [strtod] sees the rest of the line and must stop at the end of the field. *)
Definition conv_f64 (field rest : string) : option Z :=
  if String.eqb field EmptyString then None
  else '(d, n) ← strtod rest; if (n =? String.length field)%nat then Some d else None.

Definition matrix_read_csv_column := read_csv conv_u32.
Definition matrix_read_csv_column_i64 := read_csv conv_i64.
Definition matrix_read_csv_column_f64 := read_csv conv_f64.
Definition matrix_read_csv_column_str := read_csv conv_str.

(** ** On the engine *)

(** A reader, then a loader if it read something. *)
Definition ingest {A} (read : option (list A)) (load_into : list A → Engine → outcome Engine) (e : Engine) :
    outcome (bool * Engine) :=
  match read with
  | None => Ret (false, e)
  | Some data => e' ← load_into data e; Ret (true, e')
  end.

Definition load_column_from_csv (id : Z) (path : string) (col_index : nat) (has_header : bool) (delim : ascii)
    (e : Engine) : outcome (bool * Engine) :=
  ingest (matrix_read_csv_column path col_index has_header delim (e_fs e)) (load_scan_column id) e.

Definition load_column_from_csv_i64 (id : Z) (path : string) (col_index : nat) (has_header : bool) (delim : ascii)
    (e : Engine) : outcome (bool * Engine) :=
  ingest (matrix_read_csv_column_i64 path col_index has_header delim (e_fs e)) (load_scan_column_i64 id) e.

Definition load_column_from_csv_f64 (id : Z) (path : string) (col_index : nat) (has_header : bool) (delim : ascii)
    (e : Engine) : outcome (bool * Engine) :=
  ingest (matrix_read_csv_column_f64 path col_index has_header delim (e_fs e)) (load_scan_column_f64 id) e.

Definition load_string_column_from_csv (id : Z) (path : string) (col_index : nat) (has_header : bool) (delim : ascii)
    (e : Engine) : outcome (bool * Engine) :=
  ingest (matrix_read_csv_column_str path col_index has_header delim (e_fs e)) (load_string_column_dict id) e.

End readers.

(** ** A table and its text *)

Definition has_char (c : ascii) (s : string) : bool := char_in s c.

(** A field that can be written without quotes. *)
Definition clean (delim : ascii) (f : string) : Prop := ∀ c, has_char c f = true → c ≠ delim ∧ c ≠ NL ∧ c ≠ CR.

Fixpoint render_row (delim : ascii) (row : list string) : string :=
  match row with
  | [] => EmptyString
  | [f] => f
  | f :: row' => f +:+ String delim (render_row delim row')
  end.

(** Lines end in a newline, after a carriage return if [crlf]. *)
Definition line_end (crlf : bool) : string := if crlf then String CR (one_char NL) else one_char NL.

Fixpoint render (crlf : bool) (delim : ascii) (rows : list (list string)) : string :=
  match rows with
  | [] => EmptyString
  | row :: rows' => render_row delim row +:+ line_end crlf +:+ render crlf delim rows'
  end.

(** ** Lemmas *)

Lemma has_char_cons c d s : has_char c (String d s) = Ascii.eqb c d || has_char c s.
Proof. done. Qed.

Lemma has_char_app c s t : has_char c (s +:+ t) = has_char c s || has_char c t.
Proof.
  induction s as [|d s IH]; [done|]. change (String d s +:+ t) with (String d (s +:+ t)).
  by rewrite !has_char_cons, IH, orb_assoc.
Qed.

Lemma eqb_true_eq c d : Ascii.eqb c d = true → c = d.
Proof. apply Ascii.eqb_eq. Qed.

Lemma getlines_line l t :
  has_char NL l = false → getlines (l +:+ String NL t) = l :: getlines t.
Proof.
  induction l as [|c l IH]; [done|]. rewrite has_char_cons. intros [Hc Hl]%orb_false_iff.
  change (String c l +:+ String NL t) with (String c (l +:+ String NL t)). cbn [getlines].
  rewrite Ascii.eqb_sym, Hc, (IH Hl). done.
Qed.

Lemma strip_cr_clean l : has_char CR l = false → strip_cr l = l.
Proof.
  induction l as [|c l IH]; [done|]. rewrite has_char_cons. intros [Hc Hl]%orb_false_iff.
  cbn [strip_cr]. destruct l as [|d l]; [by rewrite Ascii.eqb_sym, Hc|]. by rewrite IH.
Qed.

Lemma strip_cr_end l : has_char CR l = false → strip_cr (l +:+ one_char CR) = l.
Proof.
  induction l as [|c l IH]; [done|]. rewrite has_char_cons. intros [Hc Hl]%orb_false_iff.
  change (String c l +:+ one_char CR) with (String c (l +:+ one_char CR)). cbn [strip_cr].
  rewrite (IH Hl). by destruct (l +:+ one_char CR) eqn:E; [destruct l|].
Qed.

Lemma upto_app delim f t : has_char delim f = false → upto_delim delim (f +:+ String delim t) = f.
Proof.
  induction f as [|c f IH]; [intros _; change (EmptyString +:+ String delim t) with (String delim t); cbn [upto_delim after_delim]; by rewrite Ascii.eqb_refl|].
  rewrite has_char_cons. intros [Hc Hl]%orb_false_iff.
  change (String c f +:+ String delim t) with (String c (f +:+ String delim t)). cbn [upto_delim].
  by rewrite Ascii.eqb_sym, Hc, IH.
Qed.

Lemma upto_end delim f : has_char delim f = false → upto_delim delim f = f.
Proof.
  induction f as [|c f IH]; [done|]. rewrite has_char_cons. intros [Hc Hl]%orb_false_iff.
  cbn [upto_delim]. by rewrite Ascii.eqb_sym, Hc, IH.
Qed.

Lemma after_app delim f t : has_char delim f = false → after_delim delim (f +:+ String delim t) = Some t.
Proof.
  induction f as [|c f IH]; [intros _; change (EmptyString +:+ String delim t) with (String delim t); cbn [upto_delim after_delim]; by rewrite Ascii.eqb_refl|].
  rewrite has_char_cons. intros [Hc Hl]%orb_false_iff.
  change (String c f +:+ String delim t) with (String c (f +:+ String delim t)). cbn [after_delim].
  by rewrite Ascii.eqb_sym, Hc, IH.
Qed.

Lemma after_none delim f : has_char delim f = false → after_delim delim f = None.
Proof.
  induction f as [|c f IH]; [done|]. rewrite has_char_cons. intros [Hc Hl]%orb_false_iff.
  cbn [after_delim]. by rewrite Ascii.eqb_sym, Hc, IH.
Qed.

Lemma clean_free delim f : clean delim f →
  has_char delim f = false ∧ has_char NL f = false ∧ has_char CR f = false.
Proof.
  intros H. split; [|split]; apply not_true_iff_false; intros Hc; apply H in Hc; tauto.
Qed.

(** The field at [k] of a rendered row is found, or the row is short. *)
Lemma seek_render delim row : ∀ k,
  row ≠ [] → Forall (clean delim) row →
  upto_delim delim <$> seek_field delim k (render_row delim row) = row !! k.
Proof.
  induction row as [|f row IH]; [done|]. intros k _ [Hf Hrow]%Forall_cons.
  apply clean_free in Hf as (Hd & _ & _).
  destruct row as [|g row].
  - cbn [render_row]. destruct k; cbn; [by rewrite upto_end|]. by rewrite after_none.
  - change (render_row delim (f :: g :: row)) with (f +:+ String delim (render_row delim (g :: row))).
    destruct k as [|k]; cbn [seek_field fmap option_fmap option_map]; [by rewrite upto_app|].
    rewrite after_app by done. cbn [mbind option_bind]. by apply IH.
Qed.

Lemma row_free delim c row :
  c ≠ delim → Forall (λ f, has_char c f = false) row → has_char c (render_row delim row) = false.
Proof.
  intros Hc. induction 1 as [|f row Hf Hrow IH]; [done|]. destruct row as [|g row]; [done|].
  change (render_row delim (f :: g :: row)) with (f +:+ String delim (render_row delim (g :: row))).
  rewrite has_char_app, Hf, has_char_cons, IH. by apply Ascii.eqb_neq in Hc as ->.
Qed.

Definition table_ok (delim : ascii) (rows : list (list string)) : Prop :=
  delim ≠ NL ∧ delim ≠ CR ∧ Forall (λ row, row ≠ [] ∧ Forall (clean delim) row) rows.

Lemma getlines_render crlf delim rows :
  table_ok delim rows → map strip_cr (getlines (render crlf delim rows)) = map (render_row delim) rows.
Proof.
  intros (Hnl & Hcr & Hrows). induction Hrows as [|row rows [_ Hrow] Hrows IH]; [done|].
  assert (has_char NL (render_row delim row) = false ∧ has_char CR (render_row delim row) = false) as [H1 H2].
  { split; apply row_free; try done; eapply Forall_impl; try exact Hrow; intros f (_ & ? & ?)%clean_free; done. }
  cbn [render]. destruct crlf; cbn [line_end].
  - change (String CR (one_char NL) +:+ render true delim rows) with
      (one_char CR +:+ String NL (render true delim rows)).
    rewrite <- string_app_assoc, getlines_line by (by rewrite has_char_app, H1).
    cbn [map]. by rewrite strip_cr_end, IH.
  - change (one_char NL +:+ render false delim rows) with (String NL (render false delim rows)).
    rewrite getlines_line by done. cbn [map]. by rewrite strip_cr_clean, IH.
Qed.

Lemma mapM_ext {A B} (f g : A → option B) l : (∀ x, x ∈ l → f x = g x) → mapM f l = mapM g l.
Proof.
  induction l as [|x l IH]; intros H; [done|]. cbn. rewrite H by set_solver.
  destruct (g x); cbn; [|done]. rewrite IH; [done|]. set_solver.
Qed.

Lemma mapM_map {A B C} (f : B → option C) (g : A → B) l : mapM f (map g l) = mapM (λ x, f (g x)) l.
Proof. induction l as [|x l IH]; [done|]. cbn. destruct (f (g x)); cbn; [|done]. by rewrite IH. Qed.

(** Reading a rendered table with a converter that looks at the field only. *)
Lemma read_csv_render {A} (conv : string → option A) path k (has_header : bool) delim fs crlf rows bs :
  table_ok delim rows → fs_read fs path = Some bs → text_of bs = render crlf delim rows →
  read_csv (λ f _, conv f) path k has_header delim fs =
    mapM (λ row, f ← row !! k; conv f) (if has_header then tail rows else rows).
Proof.
  intros Ht Hfs Htext. unfold read_csv. rewrite Hfs. cbn [mbind option_bind]. unfold data_lines.
  rewrite Htext, getlines_render by done.
  assert ((if has_header then tail (map (render_row delim) rows) else map (render_row delim) rows)
    = map (render_row delim) (if has_header then tail rows else rows)) as -> by (destruct has_header, rows; done).
  rewrite mapM_map. apply mapM_ext. intros row Hrow.
  assert (row ∈ rows) as Hin by (destruct has_header, rows; set_solver).
  destruct Ht as (_ & _ & Hrows). rewrite Forall_forall in Hrows. destruct (Hrows row Hin) as [Hne Hcl].
  unfold read_row. rewrite <- (seek_render delim row k Hne Hcl).
  by destruct (seek_field delim k (render_row delim row)).
Qed.

Lemma digits_nonneg s : ∀ acc n, 0 ≤ acc → digits acc s = Some n → 0 ≤ n.
Proof.
  induction s as [|c s IH]; intros acc n Ha; cbn [digits]; [by intros [= <-]|].
  unfold digit. destruct (_ && _) eqn:E; [|done]. apply andb_true_iff in E as [E1%Nat.leb_le _].
  intros H. eapply IH; [|exact H]. lia.
Qed.

Lemma parse_uint_range max s n : parse_uint max s = Some n → 0 ≤ n ≤ max.
Proof.
  unfold parse_uint. destruct s as [|c s]; [done|]. destruct (digits 0 (String c s)) as [m|] eqn:E; [|done].
  destruct (Z.leb_spec m max); [|done]. intros [= <-]. split; [|done]. by eapply digits_nonneg, E.
Qed.

Lemma parse_i64_range s n : parse_i64 s = Some n → in_i64 n.
Proof.
  unfold parse_i64, in_i64, INT64_MIN, INT64_MAX.
  assert (∀ m, parse_uint (2 ^ 63 - 1) s = Some m → - 2 ^ 63 ≤ m ≤ 2 ^ 63 - 1) as Hpos.
  { intros m H%parse_uint_range. lia. }
  destruct s as [|c s]; [apply Hpos|]. destruct c as [[] [] [] [] [] [] [] []]; try apply Hpos.
  destruct (parse_uint (2 ^ 63) s) as [m|] eqn:E; [|done]. apply parse_uint_range in E. intros [= <-]. lia.
Qed.

Lemma mapM_Forall {A B} (f : A → option B) (P : B → Prop) l k :
  (∀ x y, f x = Some y → P y) → mapM f l = Some k → Forall P k.
Proof.
  intros Hf H. apply mapM_Some in H. induction H as [|x y l k Hx _ IH]; [done|]. constructor; [by eapply Hf|done].
Qed.

Lemma read_csv_Forall {A} (conv : string → string → option A) (P : A → Prop) path k h delim fs data :
  (∀ f r x, conv f r = Some x → P x) → read_csv conv path k h delim fs = Some data → Forall P data.
Proof.
  intros Hc. unfold read_csv. destruct (fs_read fs path) as [bs|]; [|done]. cbn [mbind option_bind].
  apply mapM_Forall. intros l x. unfold read_row. destruct (seek_field delim k l) as [r|]; [|done].
  cbn [mbind option_bind]. apply Hc.
Qed.

Lemma ingest_loads ty id (read : option (list Z)) e :
  engine_wf e → id ≠ 0 → catalog_ e !! id = None → col_types_ (schema_ e) !! id = None →
  (∀ data, read = Some data → Forall (in_type ty) data ∧ room_for (Z.of_nat (type_width ty * length data)) e) →
  match read with
  | None => ingest read (load ty id) e = Ret (false, e)
  | Some data =>
      ∃ e', ingest read (load ty id) e = Ret (true, e') ∧ engine_wf e' ∧ column_type id e' = ty ∧
        col_values ty (v_bytes (view e') id) = data ∧
        (∀ k, k ≠ id → v_cols (view e') !! k = v_cols (view e) !! k)
  end.
Proof.
  intros Hwf Hid Hc Ht Hread. destruct read as [data|]; [|done]. destruct (Hread data eq_refl) as [Hd Hroom].
  rewrite <- length_bytes_of in Hroom.
  destruct (load_step ty id data e Hwf Hid Hc Ht Hroom) as (e' & Hrun & Hwf' & Hty & Hcols & Hoth).
  exists e'. unfold ingest. rewrite Hrun. split; [done|]. split; [done|]. split; [exact Hty|].
  split; [unfold v_bytes; rewrite Hcols, lookup_insert_eq; by apply col_values_bytes_of|].
  intros k Hk. by rewrite Hcols, lookup_insert_ne.
Qed.

(** ** Theorems *)

(** C33: A CSV file whose rows are written out with any delimiter and either line
    ending is read back field by field: a reader returns the values of the
    requested column of every row below the header, and fails exactly when some
    row is too short or a field of it is not a number in range. *)
Theorem csv_table_correct path (k : nat) (has_header : bool) delim fs crlf rows bs :
  table_ok delim rows → fs_read fs path = Some bs → text_of bs = render crlf delim rows →
  let data := if has_header then tail rows else rows in
  matrix_read_csv_column_str path k has_header delim fs = mapM (λ row, row !! k) data ∧
  matrix_read_csv_column path k has_header delim fs = mapM (λ row, f ← row !! k; parse_uint UINT32_MAX f) data ∧
  matrix_read_csv_column_i64 path k has_header delim fs = mapM (λ row, f ← row !! k; parse_i64 f) data.
Proof.
  intros Ht Hfs Htext data. split; [|split].
  - etransitivity; [by eapply (read_csv_render Some)|]. apply mapM_ext. intros row _. by destruct (row !! k).
  - by eapply read_csv_render.
  - by eapply read_csv_render.
Qed.

(** Whatever the file holds, loading a u32 or an int64 column from it returns:
    either [false] with the engine exactly as it was, or [true] with the values
    read as the new column and every other column unchanged. *)
Theorem csv_load_all_or_nothing id path k has_header delim e :
  engine_wf e → id ≠ 0 → catalog_ e !! id = None → col_types_ (schema_ e) !! id = None →
  let outcome_of (ty : MatrixType) (read : option (list Z)) (result : outcome (bool * Engine)) :=
    match read with
    | None => result = Ret (false, e)
    | Some data =>
        room_for (Z.of_nat (type_width ty * length data)) e →
        ∃ e', result = Ret (true, e') ∧ engine_wf e' ∧ column_type id e' = ty ∧
          col_values ty (v_bytes (view e') id) = data ∧
          (∀ j, j ≠ id → v_cols (view e') !! j = v_cols (view e) !! j)
    end in
  outcome_of U32 (matrix_read_csv_column path k has_header delim (e_fs e))
    (load_column_from_csv id path k has_header delim e) ∧
  outcome_of I64 (matrix_read_csv_column_i64 path k has_header delim (e_fs e))
    (load_column_from_csv_i64 id path k has_header delim e).
Proof.
  intros Hwf Hid Hc Ht outcome_of. unfold load_column_from_csv, load_column_from_csv_i64, outcome_of. split.
  - destruct (matrix_read_csv_column path k has_header delim (e_fs e)) as [data|] eqn:E; [|done].
    intros Hroom. apply (ingest_loads U32 id (Some data) e Hwf Hid Hc Ht).
    intros d [= <-]. split; [|done]. eapply read_csv_Forall; [|exact E].
    intros f r x H%parse_uint_range. unfold in_type, in_u32, UINT32_MAX in *. lia.
  - destruct (matrix_read_csv_column_i64 path k has_header delim (e_fs e)) as [data|] eqn:E; [|done].
    intros Hroom. apply (ingest_loads I64 id (Some data) e Hwf Hid Hc Ht).
    intros d [= <-]. split; [|done]. eapply read_csv_Forall; [|exact E].
    intros f r x H%parse_i64_range. exact H.
Qed.

(** ** Witnesses *)

Definition two_rows : list (list string) := [["id"; "n"]; ["1"; "20"]; ["2"; "-3"]].
Definition two_rows_fs : filesys :=
  mkFS {[ "t.csv" := mkFile (bytes_of_text (render true "," two_rows)) 0 ]} 100 ∅.

Definition clean_b (delim : ascii) (f : string) : bool :=
  forallb (λ c, negb (Ascii.eqb c delim) && negb (Ascii.eqb c NL) && negb (Ascii.eqb c CR)) (String.list_ascii_of_string f).

Lemma clean_b_ok delim f : clean_b delim f = true → clean delim f.
Proof.
  unfold clean_b, clean, has_char, char_in. rewrite forallb_forall. intros H c (d & Hd & ->%Ascii.eqb_eq)%existsb_exists.
  specialize (H d Hd). rewrite !andb_true_iff, !negb_true_iff, !Ascii.eqb_neq in H. tauto.
Qed.

Lemma two_rows_ok : table_ok "," two_rows.
Proof.
  split; [done|]. split; [done|].
  repeat (constructor; [split; [done|repeat (constructor; [apply clean_b_ok; reflexivity|]); constructor]|]). constructor.
Qed.

Lemma csv_table_correct_witness :
  matrix_read_csv_column "t.csv" 0 true "," two_rows_fs = Some [1; 2] ∧
  matrix_read_csv_column "t.csv" 1 true "," two_rows_fs = None ∧
  matrix_read_csv_column_i64 "t.csv" 1 true "," two_rows_fs = Some [20; -3].
Proof.
  assert (fs_read two_rows_fs "t.csv" = Some (bytes_of_text (render true "," two_rows))) as Hf by reflexivity.
  assert (text_of (bytes_of_text (render true "," two_rows)) = render true "," two_rows) as Ht by reflexivity.
  destruct (csv_table_correct "t.csv" 0 true "," two_rows_fs true two_rows _ two_rows_ok Hf Ht) as (_ & H1 & _).
  destruct (csv_table_correct "t.csv" 1 true "," two_rows_fs true two_rows _ two_rows_ok Hf Ht) as (_ & H2 & H3).
  split; [exact H1|]. split; [exact H2|exact H3].
Defined.

Definition sample_with_csv : Engine := set_store (catalog_ sample0) two_rows_fs sample0.

Lemma sample_with_csv_wf : engine_wf sample_with_csv.
Proof.
  pose proof (new_engine_wf 16 [] two_rows_fs 7 1 ltac:(intros s; cbn; set_solver)) as [????????].
  by split.
Qed.

Lemma csv_load_all_or_nothing_witness :
  load_column_from_csv 5 "t.csv" 1 true "," sample_with_csv = Ret (false, sample_with_csv) ∧
  ∃ e', load_column_from_csv_i64 5 "t.csv" 1 true "," sample_with_csv = Ret (true, e') ∧
    i64s (v_bytes (view e') 5) = [20; -3].
Proof.
  destruct (csv_load_all_or_nothing 5 "t.csv" 1 true "," sample_with_csv sample_with_csv_wf) as [H1 H2].
  - lia.
  - vm_compute. reflexivity.
  - vm_compute. reflexivity.
  - split; [exact H1|].
    assert (matrix_read_csv_column_i64 "t.csv" 1 true "," (e_fs sample_with_csv) = Some [20; -3]) as E
      by (vm_compute; reflexivity).
    rewrite E in H2. destruct H2 as (e' & Hr & _ & _ & Hv & _).
    + apply room_check_ok. vm_compute. reflexivity.
    + exists e'. split; [exact Hr|exact Hv].
Defined.
