(* ===== verification/EngineSnapshot.v ===== *)
(** * EngineSnapshot: saving and restoring the whole catalog

    [save_catalog], [load_catalog], [backup] and [restore] of compute_mock.cpp.
    A snapshot is written next to its target and renamed onto it; it holds
    every column (borrowed to the host one at a time), then the string
    dictionaries, then the null masks.  The two trailing sections may be absent
    from an old file.  [mem] is the largest vector the process can allocate. *)

From S2P Require Export ColumnIO PointStore EngineStrings.

Definition MATRIX_CATALOG_MAGIC : Z := 0x4D434132.

(** [sizeof(std::string)], for [reserve]. *)
Definition STRING_BYTES : Z := 32.

Definition set_fs (fs : filesys) (e : Engine) : Engine := set_store (catalog_ e) fs e.

Definition type_of_u32 (t : Z) : option MatrixType :=
  if t =? type_to_u32 I64 then Some I64
  else if t =? type_to_u32 F64 then Some F64
  else if t =? type_to_u32 U32 then Some U32
  else None.

(** ** Writing *)

Definition len32 {A} (l : list A) : Z := u32 (Z.of_nat (length l)).

(** A length in 32 bits, then that many bytes. *)
Definition text_chunks (s : string) : list (list byte) :=
  let b := bytes_of_text s in [le_u32 (len32 b); take (Z.to_nat (len32 b)) b].

Definition column_chunks (id : Z) (ty : MatrixType) (rows : Z) (name : string) (bytes : list byte) : list (list byte) :=
  [le_u64 id; le_u32 (type_to_u32 ty); le_u64 rows] ++ text_chunks name ++ [bytes].

Definition dict_chunks (kv : Z * list string) : list (list byte) :=
  [le_u64 kv.1; le_u64 (Z.of_nat (length kv.2))] ++ concat (map text_chunks kv.2).

Definition mask_chunks (kv : Z * list Z) : list (list byte) :=
  [le_u64 kv.1; le_u64 (Z.of_nat (length kv.2)); map byte.of_Z kv.2].

(** Further [fwrite]s to the snapshot being written. *)
Definition write_chunks (tmp : string) (chunks : list (list byte)) : stM Engine bool := λ e,
  let '(ok, fs) := fwrite_all (e_fs e) tmp chunks in Ret (ok, set_fs fs e).

(** [if (ok) ...] *)
Definition and_then (m k : stM Engine bool) : stM Engine bool := ok ← m; if (ok : bool) then k else mret false.

Section snapshot.
Context `{!HashOrder Z}.

Definition save_one (tmp : string) (id : Z) : stM Engine bool :=
  with_host id (λ size bs e,
    rows ← column_rows id e;
    write_chunks tmp (column_chunks id (column_type id e) rows (column_name id e) bs) e).

Fixpoint save_columns (tmp : string) (ids : list Z) : stM Engine bool :=
  match ids with
  | [] => mret true
  | id :: ids' => and_then (save_one tmp id) (save_columns tmp ids')
  end.

Definition header_chunks (ncols : Z) : list (list byte) := [le_u32 MATRIX_CATALOG_MAGIC; le_u64 ncols].

Definition dict_section (dicts : gmap Z (list string)) : list (list byte) :=
  le_u64 (Z.of_nat (size dicts)) :: concat (map dict_chunks (hash_iter dicts)).

Definition mask_section (masks : gmap Z (list Z)) : list (list byte) :=
  le_u64 (Z.of_nat (size masks)) :: concat (map mask_chunks (hash_iter masks)).

Definition write_snapshot (tmp : string) : stM Engine bool := λ e,
  and_then (write_chunks tmp (header_chunks (Z.of_nat (size (catalog_ e)))))
    (and_then (save_columns tmp (hash_order (dom (catalog_ e))))
      (and_then (write_chunks tmp (dict_section (string_dicts_ (schema_ e))))
        (write_chunks tmp (mask_section (null_masks_ (schema_ e)))))) e.

(** The rename is the commit point; a failure removes the partial file. *)
Definition finish_save (tmp path : string) (ok : bool) (e : Engine) : bool * Engine :=
  if ok then
    match fs_rename (e_fs e) tmp path with
    | Some fs => (true, set_fs fs e)
    | None => (false, set_fs (fs_remove (e_fs e) tmp) e)
    end
  else (false, set_fs (fs_remove (e_fs e) tmp) e).

Definition save_catalog (path : string) : stM Engine bool := λ e,
  let tmp := path +:+ ".tmp" in
  match fs_open_write (e_fs e) tmp with
  | None => Ret (false, e)
  | Some fs => '(ok, e) ← write_snapshot tmp (set_fs fs e); Ret (finish_save tmp path ok e)
  end.

End snapshot.

(** ** Reading

    A reader returns what is left of the file, or [None] once [ok] is false;
    what it loaded before stays loaded. *)

Section reading.
Variable mem : Z.

Definition or_none (b : bool) : option unit := if b then Some tt else None.

Definition read_text (bound : Z) (r : list byte) : option (string * list byte) :=
  '(len, r) ← fread_u32 r; _ ← or_none (len <=? bound); '(b, r) ← fread (Z.to_nat len) r; Some (text_of b, r).

Record ColumnHead := mkHead { ch_id : Z; ch_type : Z; ch_count : Z; ch_name : string }.

Definition read_head (r : list byte) : option (ColumnHead * list byte) :=
  '(id, r) ← fread_u64 r; '(ty, r) ← fread_u32 r; '(count, r) ← fread_u64 r; '(nm, r) ← read_text 4096 r;
  Some (mkHead id ty count nm, r).

Definition load_named (ty : MatrixType) (h : ColumnHead) (b : list byte) (e : Engine) : outcome Engine :=
  e ← load ty (ch_id h) (col_values ty b) e;
  if String.eqb (ch_name h) EmptyString then Ret e else name_column (ch_id h) (ch_name h) e.

Definition load_one (r : list byte) (e : Engine) : outcome (option (list byte) * Engine) :=
  match ('(h, r) ← read_head r; ty ← type_of_u32 (ch_type h); Some (h, ty, r)) with
  | None => Ret (None, e)
  | Some (h, ty, r) =>
      o ← fread_array mem (Z.of_nat (type_width ty)) (ch_count h) r;
      match o with
      | None => Ret (None, e)
      | Some (b, r) => e ← load_named ty h b e; Ret (Some r, e)
      end
  end.

Fixpoint load_columns (ncols : nat) (r : list byte) (e : Engine) : outcome (option (list byte) * Engine) :=
  match ncols with
  | O => Ret (Some r, e)
  | S n =>
      '(o, e) ← load_one r e;
      match o with None => Ret (None, e) | Some r => load_columns n r e end
  end.

Fixpoint read_strings (n : nat) (r : list byte) : option (list string * list byte) :=
  match n with
  | O => Some ([], r)
  | S n' => '(s, r) ← read_text (2 ^ 20) r; '(ss, r) ← read_strings n' r; Some (s :: ss, r)
  end.

Definition put_dict (id : Z) (dict : list string) (e : Engine) : Engine :=
  let s := schema_ e in
  set_schema (set_strings (string_columns_ s) (<[id := dict]> (string_dicts_ s))
    (<[id := encoder_of dict]> (string_encoders_ s)) s) e.

Definition load_dict (r : list byte) (e : Engine) : outcome (option (list byte) * Engine) :=
  match ('(did, r) ← fread_u64 r; '(nstr, r) ← fread_u64 r; _ ← or_none (nstr <=? 2 ^ 32); Some (did, nstr, r)) with
  | None => Ret (None, e)
  | Some (did, nstr, r) =>
      _ ← alloc mem STRING_BYTES nstr;
      match read_strings (Z.to_nat nstr) r with
      | None => Ret (None, e)
      | Some (dict, r) => Ret (Some r, put_dict did dict e)
      end
  end.

Definition put_mask (id : Z) (mask : list Z) (e : Engine) : Engine :=
  set_schema (set_masks (<[id := mask]> (null_masks_ (schema_ e))) (schema_ e)) e.

Definition load_mask (r : list byte) (e : Engine) : outcome (option (list byte) * Engine) :=
  match ('(mid, r) ← fread_u64 r; '(mlen, r) ← fread_u64 r; _ ← or_none (mlen <=? 2 ^ 32); Some (mid, mlen, r)) with
  | None => Ret (None, e)
  | Some (mid, mlen, r) =>
      o ← fread_array mem 1 mlen r;
      match o with
      | None => Ret (None, e)
      | Some (b, r) => Ret (Some r, put_mask mid (map byte.unsigned b) e)
      end
  end.

Fixpoint repeat_load (item : list byte → Engine → outcome (option (list byte) * Engine)) (n : nat) (r : list byte) (e : Engine) :
    outcome (option (list byte) * Engine) :=
  match n with
  | O => Ret (Some r, e)
  | S n' =>
      '(o, e) ← item r e;
      match o with None => Ret (None, e) | Some r => repeat_load item n' r e end
  end.

(** A trailing section: absent when the file ends before its count. *)
Definition load_section (item : list byte → Engine → outcome (option (list byte) * Engine)) (o : option (list byte)) (e : Engine) :
    outcome (option (list byte) * Engine) :=
  match o with
  | None => Ret (None, e)
  | Some r => match fread_u64 r with None => Ret (Some [], e) | Some (n, r) => repeat_load item (Z.to_nat n) r e end
  end.

Definition load_catalog (path : string) (e : Engine) : outcome (bool * Engine) :=
  match (r ← fs_read (e_fs e) path;
         '(m, r) ← fread_u32 r; _ ← check_magic MATRIX_CATALOG_MAGIC m; fread_u64 r) with
  | None => Ret (false, e)
  | Some (ncols, r) =>
      '(o, e) ← load_columns (Z.to_nat ncols) r e;
      '(o, e) ← load_section load_dict o e;
      '(o, e) ← load_section load_mask o e;
      Ret (match o with Some _ => true | None => false end, e)
  end.

End reading.

(** ** Backup of both stores

    [kv] is the point-operation table; its checkpoint goes to the same disk.
    The results of [load_catalog] and [load_checkpoint] are not looked at. *)

Definition backup `{!HashOrder Z} (prefix : string) (kv : KVStore) : stM Engine unit := λ e,
  '(_, e) ← save_catalog (prefix +:+ ".catalog") e;
  fs ← save_checkpoint (prefix +:+ ".kv") kv (e_fs e);
  Ret (tt, set_fs fs e).

Definition restore (mem : Z) (prefix : string) (kv : KVStore) (e : Engine) : outcome (KVStore * Engine) :=
  '(_, e) ← load_catalog mem (prefix +:+ ".catalog") e;
  '(_, kv) ← load_checkpoint (prefix +:+ ".kv") (e_fs e) kv;
  Ret (kv, e).

(** ** What a snapshot holds *)

Definition view_name (v : View) (id : Z) : string := default EmptyString (column_names_ (v_schema v) !! id).

Definition column_part (v : View) (id : Z) : list byte :=
  concat (column_chunks id (v_type v id) (v_rows v id) (view_name v id) (v_bytes v id)).

Definition snapshot_bytes `{!HashOrder Z} (v : View) : list byte :=
  concat (header_chunks (Z.of_nat (size (v_cols v)))) ++
  concat (map (column_part v) (hash_order (dom (v_cols v)))) ++
  concat (dict_section (string_dicts_ (v_schema v))) ++ concat (mask_section (null_masks_ (v_schema v))).

(** ** Lemmas: writing *)

Definition slack (e : Engine) : Z := Z.of_nat (fs_room (e_fs e)) - map_sum host_weight (catalog_ e).

(** A step that adds [w] to the file [tmp], at most moving columns meanwhile. *)
Record snap_base (tmp : string) (w : list byte) (e e' : Engine) : Prop := {
  sn_ok : store_ok e';
  sn_contents : contents (e_pid e) (e_fs e') (catalog_ e') = contents (e_pid e) (e_fs e) (catalog_ e);
  sn_sizes : tc_size <$> catalog_ e' = tc_size <$> catalog_ e;
  sn_schema : schema_ e' = schema_ e;
  sn_stats : stats_ e' = stats_ e;
  sn_max : max_query_groups_ e' = max_query_groups_ e;
  sn_pid : e_pid e' = e_pid e;
  sn_serial : e_serial e' = e_serial e;
  sn_tm : tier_mgr_ (brain_ e') = tier_mgr_ (brain_ e);
  sn_file : fs_read (e_fs e') tmp = (λ b, b ++ w) <$> fs_read (e_fs e) tmp;
  sn_frame : ∀ p, not_cold (e_pid e) p → p ≠ tmp → fs_read (e_fs e') p = fs_read (e_fs e) p;
  sn_denied : fs_denied (e_fs e') = fs_denied (e_fs e);
  sn_slack : slack e - Z.of_nat (length w) ≤ slack e'
}.

Definition snap_step (tmp : string) (w : list byte) (e e' : Engine) : Prop :=
  snap_base tmp w e e' ∧ tiers (catalog_ e') = tiers (catalog_ e).

Lemma snap_base_trans tmp w1 w2 e1 e2 e3 :
  snap_base tmp w1 e1 e2 → snap_base tmp w2 e2 e3 → snap_base tmp (w1 ++ w2) e1 e3.
Proof.
  intros [O1 C1 Z1 S1 T1 M1 P1 N1 B1 F1 R1 D1 L1] [O2 C2 Z2 S2 T2 M2 P2 N2 B2 F2 R2 D2 L2].
  split; try congruence; try done.
  - rewrite F2, F1. destruct (fs_read (e_fs e1) tmp); [|done]. cbn. by rewrite app_assoc.
  - intros p Hp Hne. rewrite R2; [by apply R1|by rewrite P1|done].
  - rewrite length_app. lia.
Qed.

Lemma snap_step_trans tmp w1 w2 e1 e2 e3 :
  snap_step tmp w1 e1 e2 → snap_step tmp w2 e2 e3 → snap_step tmp (w1 ++ w2) e1 e3.
Proof. intros [H1 T1] [H2 T2]. split; [by eapply snap_base_trans|congruence]. Qed.

Lemma snap_step_view tmp w e e' : snap_step tmp w e e' → view e' = view e.
Proof.
  intros [H _]. unfold view. rewrite (sn_schema _ _ _ _ H), (sn_max _ _ _ _ H), (sn_pid _ _ _ _ H).
  f_equal. apply H.
Qed.

Lemma snap_step_wf tmp w e e' : engine_wf e → snap_step tmp w e e' → engine_wf e'.
Proof. intros Hwf [[] Ht]. apply (same_columns_wf e); try done. congruence. Qed.

Lemma store_wf_frame pid next fs fs' m :
  store_wf pid next fs m → (∀ s, fs_read fs' (serial_path pid s) = fs_read fs (serial_path pid s)) →
  fs_denied fs' = fs_denied fs → map_sum host_weight m ≤ Z.of_nat (fs_room fs') →
  store_wf pid next fs' m ∧ contents pid fs' m = contents pid fs m.
Proof.
  intros [Hcols Hinj Hden Hroom] Hfr Hd Hr.
  assert (∀ id c, m !! id = Some c → col_wf pid fs' c ∧ tc_bytes pid fs' c = tc_bytes pid fs c) as Hc.
  { intros id c Hid. apply col_wf_frame; [apply Hfr|by apply (Hcols id c)]. }
  split.
  - split; [|done|by rewrite Hd|done]. intros id c Hid. destruct (Hcols id c Hid) as (_ & ? & ?).
    split; [by apply (Hc id)|done].
  - unfold contents. apply map_eq. intros id. rewrite !lookup_fmap. destruct (m !! id) as [c|] eqn:E; [|done].
    cbn. f_equal. by apply (Hc id).
Qed.

(** The snapshot being written is nobody's cold file, and exists. *)
Definition writable (tmp : string) (need : Z) (e : Engine) : Prop :=
  store_ok e ∧ not_cold (e_pid e) tmp ∧ is_Some (fs_read (e_fs e) tmp) ∧ need ≤ slack e.

Lemma writable_after tmp need w e e' :
  writable tmp (Z.of_nat (length w) + need) e → snap_base tmp w e e' → writable tmp need e'.
Proof.
  intros (_ & Hnc & [b Hb] & Hs) H. split; [apply H|]. rewrite (sn_pid _ _ _ _ H). split; [done|].
  split; [rewrite (sn_file _ _ _ _ H), Hb; by eexists|]. pose proof (sn_slack _ _ _ _ H). lia.
Qed.

Lemma write_chunks_snap tmp chunks e :
  writable tmp (Z.of_nat (length (concat chunks))) e →
  ∃ e', write_chunks tmp chunks e = Ret (true, e') ∧ snap_step tmp (concat chunks) e e' ∧ catalog_ e' = catalog_ e.
Proof.
  intros (Hok & Hnc & [b Hb] & Hs). unfold fs_read in Hb. destruct (fs_files (e_fs e) !! tmp) as [f|] eqn:Hf; [|done].
  injection Hb as Hb. unfold slack in Hs. pose proof (sw_room _ _ _ _ Hok).
  assert (0 ≤ map_sum host_weight (catalog_ e)) as Hpos.
  { apply map_sum_nonneg. intros k x Hx. eapply host_weight_nonneg, (sw_cols _ _ _ _ Hok k x Hx). }
  unfold write_chunks. rewrite (fwrite_all_fits chunks _ _ f) by (done || lia).
  eexists. split; [done|]. split; [|done]. split; [|done].
  assert (∀ p room, p ≠ tmp → fs_read (fs_set (e_fs e) tmp (mkFile (f_data f ++ concat chunks) (f_synced f)) room) p
            = fs_read (e_fs e) p) as Hfr by (intros; by apply fs_set_read_ne).
  destruct (store_wf_frame (e_pid e) (e_serial e) (e_fs e)
    (fs_set (e_fs e) tmp (mkFile (f_data f ++ concat chunks) (f_synced f)) (fs_room (e_fs e) - length (concat chunks)))
    (catalog_ e) Hok) as [Hwf Hco]; [intros s; apply Hfr; intros Heq; by apply (Hnc s)|done|cbn; lia|].
  split; cbn; try done.
  - rewrite fs_set_read. unfold fs_read. by rewrite Hf.
  - intros p _ Hne. by apply Hfr.
  - unfold slack. cbn. lia.
Qed.

Lemma borrowed_snap tmp id home e e1 : not_cold (e_pid e) tmp → borrowed id home e e1 → snap_base tmp [] e e1.
Proof.
  intros Hnc H. pose proof H as [[Hw Hc Hz Hf Hd Hs] _ _ Bs Bt Bm Bp Bn Bk _]. cbn in *.
  split; try done.
  - by eapply borrowed_ok.
  - rewrite Hf by done. by destruct (fs_read (e_fs e) tmp) eqn:E; cbn; rewrite ?app_nil_r.
  - intros p Hp _. by apply Hf.
  - unfold slack. cbn. lia.
Qed.

Lemma give_back_snap tmp id home e e1 e2 w :
  store_ok e → not_cold (e_pid e) tmp → borrowed id home e e1 → snap_base tmp w e1 e2 →
  tiers (catalog_ e2) = tiers (catalog_ e1) →
  ∃ e3, give_back id home e2 = Ret (tt, e3) ∧ snap_step tmp w e e3.
Proof.
  intros Hok Hnc Hb Hw Ht. pose proof (snap_base_trans _ _ _ _ _ _ (borrowed_snap tmp _ _ _ _ Hnc Hb) Hw) as H02.
  cbn [app] in H02. assert (tiers (catalog_ e2) = <[id := HOST]> (tiers (catalog_ e))) as Ht2
    by (by rewrite Ht, (bo_tiers _ _ _ _ Hb)).
  pose proof (bo_home _ _ _ _ Hb) as Hh. unfold give_back. destruct (decide (home = HOST)) as [->|Hne].
  { eexists. split; [done|]. split; [done|]. by rewrite Ht2, insert_id. }
  assert (tiers (catalog_ e2) !! id = Some HOST) as Hid by (by rewrite Ht2, lookup_insert_eq).
  unfold tiers in Hid. rewrite lookup_fmap in Hid. destruct (catalog_ e2 !! id) as [c2|] eqn:Hc2; [|done].
  assert (home = HOST ∨ home = COLD) as Hd.
  { unfold tiers in Hh. rewrite lookup_fmap in Hh. destruct (catalog_ e !! id) as [c0|] eqn:Hc0; [|done].
    injection Hh as <-. by eapply tier_home. }
  destruct (store_migrate_spec (e_pid e2) (e_serial e2) id home (catalog_ e2) (e_fs e2) c2
    (sn_ok _ _ _ _ H02) Hc2 Hd) as (c' & fs' & Hm & Hmg & [Sw Sc Sz Sf Sd Ss]).
  unfold migrate. rewrite Hm. cbn. eexists. split; [done|]. cbn in *. split.
  - rewrite <- (app_nil_r w). apply (snap_base_trans tmp w [] e e2); [done|].
    split; cbn; try done.
    + rewrite Sf by (by rewrite (sn_pid _ _ _ _ H02)).
      by destruct (fs_read (e_fs e2) tmp); cbn; rewrite ?app_nil_r.
    + intros p Hp _. by apply Sf.
    + unfold slack. cbn. lia.
  - cbn. transitivity (<[id := home]> (tiers (catalog_ e2))).
    { unfold tiers. by rewrite fmap_insert, (mg_tier _ _ _ _ _ _ Hmg). }
    rewrite Ht2, insert_insert_eq. by apply insert_id.
Qed.

Lemma column_rows_view e id c : store_ok e → catalog_ e !! id = Some c → column_rows id e = Ret (v_rows (view e) id).
Proof. intros Hok Hc. by apply (view_rows e id c). Qed.

Lemma save_one_snap tmp id e :
  v_has (view e) id = true → writable tmp (Z.of_nat (length (column_part (view e) id))) e →
  ∃ e', save_one tmp id e = Ret (true, e') ∧ snap_step tmp (column_part (view e) id) e e'.
Proof.
  intros [c Hc]%view_column Hw. pose proof Hw as (Hok & Hnc & _ & _).
  destruct (borrow_spec e id c Hok Hc) as (e1 & Hb & Hbo).
  destruct (borrowed_lookup _ _ _ _ Hbo) as (c1 & Hc1 & Ht1).
  pose proof (borrowed_ok _ _ _ _ Hbo) as Hok1. pose proof (borrowed_view _ _ _ _ Hbo) as Hv.
  assert (writable tmp (Z.of_nat (length (column_part (view e) id))) e1) as Hw1.
  { apply (writable_after tmp _ [] e); [exact Hw|by eapply borrowed_snap]. }
  destruct (write_chunks_snap tmp (column_chunks id (v_type (view e1) id) (v_rows (view e1) id)
    (view_name (view e1) id) (v_bytes (view e1) id)) e1) as (e2 & Hwr & [H12 Ht12] & _).
  { unfold column_part in Hw1. by rewrite Hv. }
  destruct (give_back_snap tmp id (tc_tier c) e e1 e2 _ Hok Hnc Hbo H12 Ht12) as (e3 & Hg & H3).
  exists e3. split; [|unfold column_part; by rewrite <- Hv].
  unfold save_one, with_host. rewrite Hb. cbn [mbind outcome_bind]. unfold catalog_at at 1. rewrite Hc1.
  cbn [of_option mbind outcome_bind]. rewrite (host_bytes_view e1 id c1 Hok1 Hc1 Ht1). cbn [mbind outcome_bind].
  rewrite (column_rows_view e1 id c1 Hok1 Hc1). cbn [mbind outcome_bind].
  change (column_type id e1) with (v_type (view e1) id).
  change (column_name id e1) with (view_name (view e1) id).
  rewrite Hwr. cbn [mbind outcome_bind]. by rewrite Hg.
Qed.

Lemma and_then_snap tmp m k w1 w2 e :
  writable tmp (Z.of_nat (length (w1 ++ w2))) e →
  (writable tmp (Z.of_nat (length w1)) e → ∃ e1, m e = Ret (true, e1) ∧ snap_step tmp w1 e e1) →
  (∀ e1, view e1 = view e → writable tmp (Z.of_nat (length w2)) e1 → ∃ e2, k e1 = Ret (true, e2) ∧ snap_step tmp w2 e1 e2) →
  ∃ e2, and_then m k e = Ret (true, e2) ∧ snap_step tmp (w1 ++ w2) e e2.
Proof.
  intros Hw Hm Hk. rewrite length_app in Hw. destruct Hm as (e1 & H1 & S1).
  { destruct Hw as (? & ? & ? & ?). repeat (split; [done|]). lia. }
  destruct (Hk e1) as (e2 & H2 & S2); [by eapply snap_step_view| |].
  { eapply writable_after; [|apply S1]. destruct Hw as (? & ? & ? & ?). repeat (split; [done|]). lia. }
  exists e2. split; [|by eapply snap_step_trans].
  unfold and_then. rewrite (stM_bind_run _ _ _ _ _ H1). exact H2.
Qed.

Lemma save_columns_snap tmp ids : ∀ e,
  (∀ id, id ∈ ids → v_has (view e) id = true) →
  writable tmp (Z.of_nat (length (concat (map (column_part (view e)) ids)))) e →
  ∃ e', save_columns tmp ids e = Ret (true, e') ∧ snap_step tmp (concat (map (column_part (view e)) ids)) e e'.
Proof.
  induction ids as [|id ids IH]; intros e Hids Hw; cbn [save_columns map concat] in *.
  { exists e. split; [done|]. destruct Hw as (Hok & _). split; [|done]. split; try done.
    - by destruct (fs_read (e_fs e) tmp); cbn; rewrite ?app_nil_r.
    - cbn. lia. }
  apply and_then_snap; [done|apply save_one_snap, Hids; set_solver|].
  intros e1 Hv. rewrite <- Hv. apply IH. intros j Hj. rewrite Hv. apply Hids. set_solver.
Qed.

Lemma view_cols_some e id : engine_wf e → is_Some (v_cols (view e) !! id) → v_has (view e) id = true.
Proof.
  intros Hwf [b Hb]. unfold v_has. rewrite Hb. destruct (Z.eqb_spec id 0) as [->|]; [|done].
  cbn in Hb. unfold contents in Hb. by rewrite lookup_fmap, (ew_zero _ Hwf) in Hb.
Qed.

Section saving.
Context `{!HashOrder Z}.

Lemma write_snapshot_run tmp e :
  engine_wf e → writable tmp (Z.of_nat (length (snapshot_bytes (view e)))) e →
  ∃ e', write_snapshot tmp e = Ret (true, e') ∧ snap_step tmp (snapshot_bytes (view e)) e e'.
Proof.
  intros Hwf Hw. unfold write_snapshot, snapshot_bytes in *.
  assert (v_cols (view e) = contents (e_pid e) (e_fs e) (catalog_ e)) as Hc by done.
  assert (size (catalog_ e) = size (v_cols (view e))) as -> by (rewrite Hc; unfold contents; by rewrite map_size_fmap).
  assert (dom (catalog_ e) = dom (v_cols (view e))) as -> by (rewrite Hc; unfold contents; by rewrite dom_fmap_L).
  assert (∀ ch e0, writable tmp (Z.of_nat (length (concat ch))) e0 →
    ∃ e1, write_chunks tmp ch e0 = Ret (true, e1) ∧ snap_step tmp (concat ch) e0 e1) as Hch.
  { intros ch e0 H. destruct (write_chunks_snap tmp ch e0 H) as (e1 & ? & ? & _). eauto. }
  apply and_then_snap; [done|apply Hch|]. intros e1 Hv1 Hw1.
  apply and_then_snap; [done| |].
  - rewrite <- Hv1. apply save_columns_snap. intros id Hid. rewrite hash_order_perm in Hid.
    rewrite Hv1 in *. apply view_cols_some; [done|]. apply elem_of_elements, elem_of_dom in Hid. done.
  - intros e2 Hv2 Hw2. apply and_then_snap; [done|apply Hch|]. intros e3 Hv3. apply Hch.
Qed.

(** Changing files that are not columns leaves the engine as it was. *)
Lemma set_fs_other fs e :
  engine_wf e → (∀ s, fs_read fs (serial_path (e_pid e) s) = fs_read (e_fs e) (serial_path (e_pid e) s)) →
  fs_denied fs = fs_denied (e_fs e) → map_sum host_weight (catalog_ e) ≤ Z.of_nat (fs_room fs) →
  engine_wf (set_fs fs e) ∧ view (set_fs fs e) = view e.
Proof.
  intros Hwf Hfr Hd Hr. destruct (store_wf_frame _ _ _ fs _ (ew_store _ Hwf) Hfr Hd Hr) as [Hs Hc].
  split; [by apply (same_columns_wf e)|]. unfold view. cbn. f_equal. exact Hc.
Qed.

Lemma fs_remove_read_ne fs p q : p ≠ q → fs_read (fs_remove fs p) q = fs_read fs q.
Proof. intros H. unfold fs_read. cbn. by rewrite lookup_delete_ne. Qed.

Definition saved (path : string) (e : Engine) (ok : bool) (e' : Engine) : Prop :=
  engine_wf e' ∧ view e' = view e ∧ tiers (catalog_ e') = tiers (catalog_ e) ∧
  fs_read (e_fs e') path = (if ok then Some (snapshot_bytes (view e)) else fs_read (e_fs e) path) ∧
  (∀ p, not_cold (e_pid e) p → p ≠ path → p ≠ path +:+ ".tmp" → fs_read (e_fs e') p = fs_read (e_fs e) p).

Lemma tmp_ne path : path +:+ ".tmp" ≠ path.
Proof. intros H. apply (f_equal String.length) in H. rewrite string_length_app in H. cbn in H. lia. Qed.

Lemma finish_save_spec path e e1 :
  not_cold (e_pid e) path → not_cold (e_pid e) (path +:+ ".tmp") → engine_wf e1 →
  e_pid e1 = e_pid e → view e1 = view e → tiers (catalog_ e1) = tiers (catalog_ e) →
  fs_read (e_fs e1) (path +:+ ".tmp") = Some (snapshot_bytes (view e)) →
  (∀ p, not_cold (e_pid e) p → p ≠ path +:+ ".tmp" → fs_read (e_fs e1) p = fs_read (e_fs e) p) →
  let '(ok, e2) := finish_save (path +:+ ".tmp") path true e1 in
  ok = bool_decide (path ∉ fs_denied (e_fs e1)) ∧ saved path e ok e2.
Proof.
  intros Hn1 Hn2 Hwf Hpid Hv Ht Htmp Hfr. pose proof (tmp_ne path) as Hne.
  pose proof (sw_room _ _ _ _ (ew_store _ Hwf)) as Hroom.
  unfold fs_read in Htmp. destruct (fs_files (e_fs e1) !! (path +:+ ".tmp")) as [f|] eqn:Hf; [|done].
  injection Htmp as Htmp. unfold finish_save, fs_rename. rewrite Hf.
  destruct (decide (path ∈ fs_denied (e_fs e1))) as [Hd|Hd];
    [rewrite (bool_decide_false (path ∉ _)) by tauto|rewrite (bool_decide_true (path ∉ _)) by done];
    (split; [done|]).
  - destruct (set_fs_other (fs_remove (e_fs e1) (path +:+ ".tmp")) e1 Hwf) as [H1 H2].
    { intros s. apply fs_remove_read_ne. rewrite Hpid. apply Hn2. }
    { done. }
    { cbn. lia. }
    split; [done|]. split; [congruence|]. split; [done|]. split.
    + cbn. rewrite fs_remove_read_ne by done. by apply Hfr.
    + intros p Hp _ Hp2. cbn. rewrite fs_remove_read_ne by done. by apply Hfr.
  - match goal with |- saved _ _ _ (set_fs ?fs _) => set (fs2 := fs) end.
    assert (∀ p, p ≠ path → p ≠ path +:+ ".tmp" → fs_read fs2 p = fs_read (e_fs e1) p) as Hother.
    { intros p H1 H2. unfold fs_read, fs2. cbn. by rewrite lookup_insert_ne, lookup_delete_ne. }
    destruct (set_fs_other fs2 e1 Hwf) as [H1 H2].
    { intros s. rewrite Hpid. apply Hother; intros H; [by apply (Hn1 s)|by apply (Hn2 s)]. }
    { done. }
    { cbn. lia. }
    split; [done|]. split; [congruence|]. split; [done|]. split.
    + cbn. unfold fs_read. cbn. rewrite lookup_insert_eq. cbn. by rewrite Htmp.
    + intros p Hp Hp1 Hp2. cbn. rewrite Hother by done. by apply Hfr.
Qed.

(** The device can take the snapshot beside every column now in memory. *)
Definition snapshot_room (path : string) (e : Engine) : Prop :=
  not_cold (e_pid e) path ∧ not_cold (e_pid e) (path +:+ ".tmp") ∧
  map_sum host_weight (catalog_ e) + Z.of_nat (length (snapshot_bytes (view e))) ≤
    Z.of_nat (fs_room (e_fs e) + fs_size (e_fs e) (path +:+ ".tmp")).

Lemma save_catalog_run path e :
  engine_wf e → snapshot_room path e →
  ∃ ok e', save_catalog path e = Ret (ok, e') ∧ saved path e ok e' ∧
    ok = bool_decide ((path ∉ fs_denied (e_fs e)) ∧ (path +:+ ".tmp") ∉ fs_denied (e_fs e)).
Proof.
  intros Hwf (Hn1 & Hn2 & Hroom). unfold save_catalog, fs_open_write.
  destruct (decide ((path +:+ ".tmp") ∈ fs_denied (e_fs e))) as [Hd|Hd].
  { exists false, e. split; [done|]. split; [done|]. rewrite bool_decide_false by tauto. done. }
  set (fs1 := fs_set (e_fs e) (path +:+ ".tmp") (mkFile [] 0) _).
  destruct (set_fs_other fs1 e Hwf) as [Hwf1 Hv1].
  { intros s. apply fs_set_read_ne, Hn2. }
  { done. }
  { cbn. lia. }
  assert (writable (path +:+ ".tmp") (Z.of_nat (length (snapshot_bytes (view (set_fs fs1 e))))) (set_fs fs1 e)) as Hw.
  { split; [apply Hwf1|]. split; [done|]. split; [cbn; unfold fs1; rewrite fs_set_read; by eexists|].
    rewrite Hv1. unfold slack. change (fs_room (e_fs (set_fs fs1 e))) with (fs_room (e_fs e) + fs_size (e_fs e) (path +:+ ".tmp"))%nat.
    change (catalog_ (set_fs fs1 e)) with (catalog_ e). lia. }
  destruct (write_snapshot_run _ _ Hwf1 Hw) as (e2 & -> & H2). cbn [mbind outcome_bind].
  pose proof (snap_step_wf _ _ _ _ Hwf1 H2) as Hwf2. pose proof (snap_step_view _ _ _ _ H2) as Hv2.
  destruct H2 as [H2 Ht2].
  pose proof (finish_save_spec path e e2 Hn1 Hn2 Hwf2 (sn_pid _ _ _ _ H2)) as Hfin.
  destruct (finish_save (path +:+ ".tmp") path true e2) as [ok e3].
  destruct Hfin as [Hok Hs].
  - congruence.
  - done.
  - rewrite (sn_file _ _ _ _ H2), Hv1. change (e_fs (set_fs fs1 e)) with fs1. unfold fs1. by rewrite fs_set_read.
  - intros p Hp Hne. rewrite (sn_frame _ _ _ _ H2) by done. cbn. unfold fs1. by apply fs_set_read_ne.
  - exists ok, e3. split; [done|]. split; [done|]. rewrite Hok. apply bool_decide_ext.
    rewrite (sn_denied _ _ _ _ H2). cbn. tauto.
Qed.

End saving.

(** ** Lemmas: reading *)

Lemma words_bytes w k : ∀ b,
  (0 < w)%nat → length b = (k * w)%nat → concat (map (le_split w) (words w b)) = b.
Proof.
  induction k as [|k IH]; intros b Hw Hb; [destruct b; [by rewrite words_nil|done]|].
  assert (length (take w b) = w) as Hl by (rewrite length_take; lia).
  rewrite <- (take_drop w b) at 1. rewrite words_app by done. cbn [map concat].
  rewrite IH by (rewrite ?length_drop; lia).
  rewrite (split_le_combine' (take w b) w Hl). apply take_drop.
Qed.

Lemma bytes_of_col_values ty b : Nat.divide (type_width ty) (length b) → bytes_of ty (col_values ty b) = b.
Proof.
  intros [k Hk]. pose proof (words_bytes (type_width ty) k b (type_width_pos ty) Hk) as H.
  destruct ty; unfold bytes_of; cbn [type_width col_values] in *; unfold u32s, i64s, f64s; try exact H.
  rewrite map_map. erewrite map_ext; [exact H|]. intros z. cbn.
  rewrite (le_split_mod z), (le_split_mod (i64 z)). f_equal. exact (u64_i64 z).
Qed.

Lemma concat_text_chunks s :
  Z.of_nat (String.length s) < 2 ^ 32 → concat (text_chunks s) = le_u32 (Z.of_nat (String.length s)) ++ bytes_of_text s.
Proof.
  intros Hs. unfold text_chunks, len32. cbn [concat]. rewrite length_bytes_of_text, u32_small by (unfold in_u32; lia).
  rewrite take_ge by (rewrite length_bytes_of_text; lia). by rewrite app_nil_r.
Qed.

Lemma read_text_app bound s r :
  Z.of_nat (String.length s) ≤ bound < 2 ^ 32 → read_text bound (concat (text_chunks s) ++ r) = Some (s, r).
Proof.
  intros Hs. rewrite concat_text_chunks by lia. rewrite <- app_assoc. unfold read_text.
  rewrite fread_u32_app. cbn [mbind option_bind]. rewrite u32_small by (unfold in_u32; lia).
  unfold or_none. rewrite (proj2 (Z.leb_le _ _)) by lia. cbn [mbind option_bind].
  rewrite Nat2Z.id, fread_app by apply length_bytes_of_text. cbn [mbind option_bind]. by rewrite text_of_bytes.
Qed.

Lemma type_of_u32_to ty : type_of_u32 (type_to_u32 ty) = Some ty ∧ in_u32 (type_to_u32 ty).
Proof. destruct ty; split; try reflexivity; unfold in_u32; cbn; lia. Qed.

Lemma read_head_app id ty count nm bytes r :
  in_u64 id → in_u64 count → Z.of_nat (String.length nm) ≤ 4096 →
  read_head (concat (column_chunks id ty count nm bytes) ++ r) =
    Some (mkHead id (type_to_u32 ty) count nm, bytes ++ r).
Proof.
  intros Hid Hc Hn. unfold column_chunks. rewrite !concat_app. cbn [concat]. rewrite !app_nil_r, <- !app_assoc.
  unfold read_head. rewrite fread_u64_app. cbn [mbind option_bind]. rewrite fread_u32_app. cbn [mbind option_bind].
  rewrite fread_u64_app. cbn [mbind option_bind]. rewrite read_text_app by lia. cbn [mbind option_bind].
  by rewrite !u64_small, u32_small by (done || apply type_of_u32_to).
Qed.

Lemma fread_array_app mem w n b r :
  w * n ≤ mem → Z.to_nat (w * n) = length b → fread_array mem w n (b ++ r) = Ret (Some (b, r)).
Proof.
  intros Hm Hl. unfold fread_array, alloc. rewrite (proj2 (Z.leb_le _ _)) by done. cbn. by rewrite fread_app.
Qed.

(** What a snapshot can carry, and a process with [mem] bytes read back. *)
Record storable (mem : Z) (v : View) : Prop := {
  st_cols : map_Forall (λ id b, in_u64 id ∧ Z.of_nat (length b) ≤ mem) (v_cols v);
  st_names : map_Forall (λ id b, Z.of_nat (String.length (view_name v id)) ≤ 4096) (v_cols v);
  st_dicts : map_Forall (λ id d, in_u64 id ∧ Z.of_nat (length d) ≤ 2 ^ 32 ∧ STRING_BYTES * Z.of_nat (length d) ≤ mem ∧
               Forall (λ s, Z.of_nat (String.length s) ≤ 2 ^ 20) d) (string_dicts_ (v_schema v));
  st_masks : map_Forall (λ id m, in_u64 id ∧ Z.of_nat (length m) ≤ 2 ^ 32 ∧ Z.of_nat (length m) ≤ mem ∧
               Forall (λ x, 0 ≤ x < 2 ^ 8) m) (null_masks_ (v_schema v));
  st_sizes : Z.of_nat (size (v_cols v)) < 2 ^ 64 ∧ Z.of_nat (size (string_dicts_ (v_schema v))) < 2 ^ 64 ∧
             Z.of_nat (size (null_masks_ (v_schema v))) < 2 ^ 64;
  st_mem : mem < 2 ^ 64
}.

Lemma read_strings_app d r :
  Forall (λ s, Z.of_nat (String.length s) ≤ 2 ^ 20) d →
  read_strings (length d) (concat (concat (map text_chunks d)) ++ r) = Some (d, r).
Proof.
  induction 1 as [|s d Hs _ IH]; [done|]. cbn [map concat length read_strings].
  rewrite concat_app, <- app_assoc, read_text_app by lia. cbn [mbind option_bind]. by rewrite IH.
Qed.

Lemma load_dict_app mem kv r e :
  in_u64 kv.1 → Z.of_nat (length kv.2) ≤ 2 ^ 32 → STRING_BYTES * Z.of_nat (length kv.2) ≤ mem →
  Forall (λ s, Z.of_nat (String.length s) ≤ 2 ^ 20) kv.2 →
  load_dict mem (concat (dict_chunks kv) ++ r) e = Ret (Some r, put_dict kv.1 kv.2 e).
Proof.
  intros Hk Hn Hm Hs. unfold dict_chunks. cbn [app concat]. rewrite <- !app_assoc. unfold load_dict.
  rewrite fread_u64_app. cbn [mbind option_bind]. rewrite fread_u64_app. cbn [mbind option_bind].
  rewrite !u64_small by (done || unfold in_u64; lia). unfold or_none. rewrite (proj2 (Z.leb_le _ _)) by done.
  cbn [mbind option_bind]. unfold alloc. rewrite (proj2 (Z.leb_le _ _)) by done. cbn [mbind outcome_bind].
  by rewrite Nat2Z.id, read_strings_app.
Qed.

Lemma load_mask_app mem kv r e :
  in_u64 kv.1 → Z.of_nat (length kv.2) ≤ 2 ^ 32 → Z.of_nat (length kv.2) ≤ mem → Forall (λ x, 0 ≤ x < 2 ^ 8) kv.2 →
  load_mask mem (concat (mask_chunks kv) ++ r) e = Ret (Some r, put_mask kv.1 kv.2 e).
Proof.
  intros Hk Hn Hm Hs. unfold mask_chunks. cbn [concat]. rewrite app_nil_r, <- !app_assoc. unfold load_mask.
  rewrite fread_u64_app. cbn [mbind option_bind]. rewrite fread_u64_app. cbn [mbind option_bind].
  rewrite !u64_small by (done || unfold in_u64; lia). unfold or_none. rewrite (proj2 (Z.leb_le _ _)) by done.
  cbn [mbind option_bind]. rewrite fread_array_app by (rewrite ?List.length_map; lia). cbn [mbind outcome_bind].
  do 3 f_equal. rewrite map_map. f_equal. eapply (map_id_Forall _ (λ x, 0 ≤ x < 2 ^ 8)); [|done].
  intros x Hx. rewrite byte.unsigned_of_Z. unfold byte.wrap. by apply Z.mod_small.
Qed.

Lemma repeat_load_items {A} (item : list byte → Engine → outcome (option (list byte) * Engine))
    (enc : A → list byte) (put : A → Engine → Engine) l : ∀ r e,
  (∀ a r e, a ∈ l → item (enc a ++ r) e = Ret (Some r, put a e)) →
  repeat_load item (length l) (concat (map enc l) ++ r) e = Ret (Some r, foldl (λ e a, put a e) e l).
Proof.
  induction l as [|a l IH]; intros r e H; [done|]. cbn [length map concat repeat_load foldl].
  rewrite <- app_assoc, H by set_solver. cbn [mbind outcome_bind]. apply IH. intros b r' e' Hb. apply H. set_solver.
Qed.

(** ** Lemmas: loading the columns *)

Definition load_size (v : View) (ids : list Z) : Z := foldr (λ id n, v_size v id + n) 0 ids.

(** [e] has the columns of [v] but for those still to come. *)
Record loading (v : View) (todo : list Z) (e : Engine) : Prop := {
  ld_wf : engine_wf e;
  ld_cols : ∀ k, v_cols (view e) !! k = if decide (k ∈ todo) then None else v_cols v !! k;
  ld_todo : ∀ k, k ∈ todo → col_types_ (schema_ e) !! k = None ∧ column_names_ (schema_ e) !! k = None;
  ld_done : ∀ k, is_Some (v_cols (view e) !! k) → v_type (view e) k = v_type v k ∧ view_name (view e) k = view_name v k;
  ld_dicts : string_dicts_ (schema_ e) = ∅ ∧ string_encoders_ (schema_ e) = ∅ ∧ null_masks_ (schema_ e) = ∅;
  ld_room : room_for (load_size v todo) e
}.

(** The columns of a view as the catalog of some engine. *)
Record whole_view (v : View) : Prop := {
  wv_whole : map_Forall (λ id b, Nat.divide (type_width (v_type v id)) (length b)) (v_cols v);
  wv_zero : v_cols v !! 0 = None
}.

Lemma engine_view_whole e : engine_wf e → whole_view (view e).
Proof.
  intros Hwf. split.
  - intros id b Hb. assert (v_bytes (view e) id = b) as <- by (unfold v_bytes; by rewrite Hb).
    apply view_whole; [done|]. apply view_cols_some; [done|]. by eexists.
  - cbn. unfold contents. by rewrite lookup_fmap, (ew_zero _ Hwf).
Qed.

Lemma catalog_none e id : v_cols (view e) !! id = None → catalog_ e !! id = None.
Proof. cbn. unfold contents. rewrite lookup_fmap. by destruct (catalog_ e !! id). Qed.

Lemma room_after_load id b types e m :
  engine_wf e → catalog_ e !! id = None → room_for (Z.of_nat (length b) + m) e → room_for m (loaded id b types e).
Proof.
  intros Hwf Hc [H1 H2]. unfold room_for. cbn. split.
  - rewrite map_sum_insert by done. change (host_weight (new_column id (e_serial e) b)) with (Z.of_nat (length b)). lia.
  - pose proof (books_dom e id Hwf Hc) as Hb. unfold total_bytes in *. rewrite map_sum_insert by done. cbn. lia.
Qed.

Definition with_name (id : Z) (name : string) (s : Schema) : Schema :=
  mkSchema (col_types_ s) (string_columns_ s) (string_dicts_ s) (string_encoders_ s) (null_masks_ s)
    (<[id := name]> (column_names_ s)) (<[name := id]> (name_to_id_ s)) (tables_ s).

Lemma name_column_run id name e :
  catalog_has id e = true → name_column id name e = Ret (set_schema (with_name id name (schema_ e)) e).
Proof. intros H. unfold name_column. by rewrite H. Qed.

Lemma loaded_step v id ids e b types :
  loading v (id :: ids) e → NoDup (id :: ids) → id ≠ 0 → v_cols v !! id = Some b →
  Nat.divide (type_width (v_type v id)) (length b) →
  default U32 (types !! id) = v_type v id → (∀ k, k ≠ id → types !! k = col_types_ (schema_ e) !! k) →
  let e1 := loaded id b types e in
  engine_wf e1 ∧ (∀ k, v_cols (view e1) !! k = if decide (k ∈ ids) then None else v_cols v !! k) ∧
  (∀ k, is_Some (v_cols (view e1) !! k) → v_type (view e1) k = v_type v k ∧ (k ≠ id → view_name (view e1) k = view_name v k)) ∧
  room_for (load_size v ids) e1.
Proof.
  intros [Hwf Hc Ht Hd _ Hr] [Hni Hnd]%NoDup_cons Hid Hb Hw Hty Hoth e1.
  assert (v_size v id = Z.of_nat (length b)) as Hsz by (unfold v_size, v_bytes; by rewrite Hb).
  cbn [load_size foldr] in Hr. rewrite Hsz in Hr. fold (load_size v ids) in Hr.
  assert (v_cols (view e) !! id = None) as Hnone by (rewrite Hc, decide_True by set_solver; done).
  pose proof (catalog_none e id Hnone) as Hcat.
  assert (0 ≤ load_size v ids) as Hpos.
  { clear. induction ids as [|i ids IH]; cbn; [lia|]. unfold v_size at 1. unfold load_size in IH. lia. }
  split; [|split; [|split]].
  - apply loaded_wf; try done; [|by rewrite Hty]. destruct Hr. split; lia.
  - intros k. unfold e1. rewrite loaded_view. destruct (decide (id = k)) as [<-|Hk].
    + rewrite decide_False by done. done.
    + rewrite Hc. destruct (decide (k ∈ id :: ids)), (decide (k ∈ ids)); try done; set_solver.
  - intros k. unfold e1. rewrite loaded_view. destruct (decide (id = k)) as [<-|Hk].
    + intros _. split; [exact Hty|done].
    + intros Hs. destruct (Hd k Hs) as [H1 H2]. split; [|intros _; exact H2].
      rewrite <- H1. unfold v_type. cbn. by rewrite Hoth.
  - by apply room_after_load.
Qed.

Lemma load_one_column mem v id ids r e b :
  loading v (id :: ids) e → NoDup (id :: ids) → whole_view v → storable mem v → v_cols v !! id = Some b →
  ∃ e', load_one mem (column_part v id ++ r) e = Ret (Some r, e') ∧ loading v ids e'.
Proof.
  intros Hl Hnd Hwv Hst Hb. destruct (st_cols _ _ Hst id b Hb) as [Hid64 Hlen].
  pose proof (st_names _ _ Hst id b Hb) as Hname. cbn in Hname.
  pose proof (wv_whole _ Hwv id b Hb) as Hdiv. cbn in Hdiv. pose proof (st_mem _ _ Hst) as Hmem.
  assert (id ≠ 0) as Hid by (intros ->; by rewrite (wv_zero _ Hwv) in Hb).
  assert (v_bytes v id = b) as Hbytes by (unfold v_bytes; by rewrite Hb).
  set (ty := v_type v id) in *. pose proof (type_width_pos ty) as Hwpos.
  assert (Z.of_nat (type_width ty) * v_rows v id = Z.of_nat (length b)) as Hrows.
  { unfold v_rows, v_size. rewrite Hbytes. fold ty. destruct Hdiv as [q Hq]. rewrite Hq, Nat2Z.inj_mul, Z.div_mul by lia. lia. }
  assert (v_cols (view e) !! id = None) as Hnone by (rewrite (ld_cols _ _ _ Hl), decide_True by set_solver; done).
  destruct (ld_todo _ _ _ Hl id ltac:(set_solver)) as [Hty0 Hnm0].
  destruct (load_run ty id (col_values ty b) e Hid (catalog_none _ _ Hnone) Hty0) as (types & Hrun & Hty & Hoth).
  rewrite bytes_of_col_values in Hrun by done.
  destruct (loaded_step v id ids e b types Hl Hnd Hid Hb Hdiv Hty Hoth) as (Hwf1 & Hc1 & Hd1 & Hr1).
  apply NoDup_cons in Hnd as [Hni _]. pose proof Hl as [_ _ Htodo _ Hdicts _].
  set (e1 := loaded id b types e) in *. set (nm := view_name v id) in *.
  assert (load_named ty (mkHead id (type_to_u32 ty) (v_rows v id) nm) b e =
    Ret (if String.eqb nm EmptyString then e1 else set_schema (with_name id nm (schema_ e1)) e1)) as Hnamed.
  { unfold load_named. cbn [ch_id ch_name]. rewrite Hrun. cbn [mbind outcome_bind].
    destruct (String.eqb nm EmptyString); [done|]. apply name_column_run. rewrite view_has. unfold v_has.
    rewrite Hc1, decide_False, Hb by done. by rewrite (proj2 (Z.eqb_neq _ _) Hid). }
  eexists. split.
  - unfold load_one, column_part. fold ty nm. rewrite Hbytes, read_head_app;
      [|done|unfold in_u64; nia|done]. cbn [mbind option_bind ch_type]. rewrite (proj1 (type_of_u32_to ty)).
    cbn [mbind option_bind ch_count]. rewrite fread_array_app by (rewrite ?Hrows; lia). cbn [mbind outcome_bind].
    by rewrite Hnamed.
  - assert (∀ k, k ≠ id → column_names_ (schema_ e1) !! k = column_names_ (schema_ e) !! k) as Hnm1 by done.
    assert (column_names_ (schema_ e1) !! id = None) as Hnm2 by exact Hnm0.
    assert (∀ k, k ∈ ids → col_types_ (schema_ e1) !! k = None ∧ column_names_ (schema_ e1) !! k = None) as Htd.
    { intros k Hk. destruct (Htodo k ltac:(set_solver)). split; [|done].
      change (col_types_ (schema_ e1)) with types. rewrite Hoth; [done|]. intros ->. done. }
    destruct (String.eqb_spec nm EmptyString) as [Hemp|Hne].
    + split; try done. intros k Hk. destruct (Hd1 k Hk) as [H1 H2]. split; [done|].
      destruct (decide (k = id)) as [->|Hkid]; [|by apply H2].
      fold nm. rewrite Hemp. unfold view_name. cbn [v_schema view]. by rewrite Hnm2.
    + split; try done.
      * by apply (same_columns_wf e1); try apply Hwf1.
      * intros k Hk. destruct (Htd k Hk). split; [done|]. cbn. rewrite lookup_insert_ne; [done|]. intros ->. done.
      * intros k Hk. destruct (Hd1 k Hk) as [H1 H2]. split; [done|]. unfold view_name. cbn. rewrite lookup_insert.
        destruct (decide (id = k)) as [<-|Hkid]; [done|]. by apply H2.
Qed.

Lemma load_columns_run mem v ids r : ∀ e,
  loading v ids e → NoDup ids → whole_view v → storable mem v → (∀ id, id ∈ ids → is_Some (v_cols v !! id)) →
  ∃ e', load_columns mem (length ids) (concat (map (column_part v) ids) ++ r) e = Ret (Some r, e') ∧ loading v [] e'.
Proof.
  induction ids as [|id ids IH]; intros e Hl Hnd Hwv Hst Hids; cbn [length map concat load_columns].
  { by exists e. }
  destruct (Hids id ltac:(set_solver)) as [b Hb]. rewrite <- app_assoc.
  destruct (load_one_column mem v id ids (concat (map (column_part v) ids) ++ r) e b Hl Hnd Hwv Hst Hb) as (e1 & -> & Hl1).
  cbn [mbind outcome_bind]. apply NoDup_cons in Hnd as [_ Hnd]. apply IH; try done. intros j Hj. apply Hids. set_solver.
Qed.

(** ** Lemmas: the trailing sections *)

Lemma set_schema_twice s s' e : set_schema s (set_schema s' e) = set_schema s e.
Proof. done. Qed.

Lemma foldl_put_dict l : ∀ e,
  foldl (λ e kv, put_dict kv.1 kv.2 e) e l =
  set_schema (set_strings (string_columns_ (schema_ e))
    (foldl (λ m kv, <[kv.1 := kv.2]> m) (string_dicts_ (schema_ e)) l)
    (foldl (λ m kv, <[kv.1 := encoder_of kv.2]> m) (string_encoders_ (schema_ e)) l) (schema_ e)) e.
Proof.
  induction l as [|kv l IH]; intros e; cbn [foldl]; [by destruct e as [? [] ? ? ? ? ? ? ? ? ?]|].
  by rewrite IH.
Qed.

Lemma foldl_put_mask l : ∀ e,
  foldl (λ e kv, put_mask kv.1 kv.2 e) e l =
  set_schema (set_masks (foldl (λ m kv, <[kv.1 := kv.2]> m) (null_masks_ (schema_ e)) l) (schema_ e)) e.
Proof.
  induction l as [|kv l IH]; intros e; cbn [foldl]; [by destruct e as [? [] ? ? ? ? ? ? ? ? ?]|].
  by rewrite IH.
Qed.

Lemma load_section_run {A} (item : list byte → Engine → outcome (option (list byte) * Engine))
    (enc : A → list byte) (put : A → Engine → Engine) l n r e :
  (∀ a r e, a ∈ l → item (enc a ++ r) e = Ret (Some r, put a e)) →
  n = Z.of_nat (length l) → n < 2 ^ 64 →
  load_section item (Some (le_u64 n ++ concat (map enc l) ++ r)) e = Ret (Some r, foldl (λ e a, put a e) e l).
Proof.
  intros H -> Hn. unfold load_section. rewrite fread_u64_app, u64_small by (unfold in_u64; lia).
  rewrite Nat2Z.id. by apply repeat_load_items.
Qed.

Lemma concat_concat_map {A B} (f : A → list (list B)) l : concat (concat (map f l)) = concat (map (λ x, concat (f x)) l).
Proof. induction l as [|x l IH]; [done|]. cbn. by rewrite concat_app, IH. Qed.

Lemma fmap_id_map {A} (m : gmap Z A) : (λ x, x) <$> m = m.
Proof. apply map_fmap_id. Qed.

(** What a restored engine has of a view. *)
Record restored (v : View) (e : Engine) : Prop := {
  rs_wf : engine_wf e;
  rs_cols : v_cols (view e) = v_cols v;
  rs_columns : ∀ k, is_Some (v_cols v !! k) → column_type k e = v_type v k ∧ column_name k e = view_name v k;
  rs_dicts : string_dicts_ (schema_ e) = string_dicts_ (v_schema v);
  rs_encoders : string_encoders_ (schema_ e) = encoder_of <$> string_dicts_ (v_schema v);
  rs_masks : null_masks_ (schema_ e) = null_masks_ (v_schema v)
}.

Section loading.
Context `{!HashOrder Z}.

Lemma trailing_run mem v e :
  storable mem v → loading v [] e →
  ∃ e', ('(o, e) ← load_section (load_dict mem) (Some (concat (dict_section (string_dicts_ (v_schema v))) ++
                      concat (mask_section (null_masks_ (v_schema v))))) e;
         load_section (load_mask mem) o e) = Ret (Some [], e') ∧ restored v e'.
Proof.
  intros Hst [Hwf Hc _ Hd (Hdict & Henc & Hmask) _]. destruct (st_sizes _ _ Hst) as (_ & Hs1 & Hs2).
  unfold dict_section, mask_section. cbn [concat]. rewrite !concat_concat_map, <- app_assoc.
  rewrite (load_section_run _ (λ kv, concat (dict_chunks kv)) (λ kv, put_dict kv.1 kv.2)); [| |by rewrite length_hash_iter|done].
  2:{ intros [k d] r e0 Hin%elem_of_hash_iter. destruct (st_dicts _ _ Hst k d Hin) as (? & ? & ? & ?).
      by apply load_dict_app. }
  cbn [mbind outcome_bind].
  match goal with |- context [load_section _ (Some (le_u64 ?n ++ ?x))] => rewrite <- (app_nil_r x) end.
  rewrite (load_section_run _ (λ kv, concat (mask_chunks kv)) (λ kv, put_mask kv.1 kv.2)); [| |by rewrite length_hash_iter|done].
  2:{ intros [k m] r e0 Hin%elem_of_hash_iter. destruct (st_masks _ _ Hst k m Hin) as (? & ? & ? & ?).
      by apply load_mask_app. }
  eexists. split; [done|]. rewrite foldl_put_mask, foldl_put_dict, set_schema_twice. cbn. rewrite Hdict, Henc, Hmask.
  rewrite !(foldl_hash_iter (λ x, x)), (foldl_hash_iter encoder_of), !fmap_id_map.
  assert (v_cols (view e) = v_cols v) as Hcols by (apply map_eq; intros k; rewrite Hc; by rewrite decide_False by set_solver).
  split; try done.
  - by apply (same_columns_wf e); try apply Hwf.
  - intros k Hk. rewrite <- Hcols in Hk. exact (Hd k Hk).
Qed.

Lemma load_catalog_run mem path e v :
  fs_read (e_fs e) path = Some (snapshot_bytes v) → whole_view v → storable mem v →
  loading v (hash_order (dom (v_cols v))) e →
  ∃ e', load_catalog mem path e = Ret (true, e') ∧ restored v e'.
Proof.
  intros Hf Hwv Hst Hl. unfold load_catalog. rewrite Hf. cbn [mbind option_bind]. unfold snapshot_bytes, header_chunks.
  cbn [concat]. rewrite app_nil_r, <- !app_assoc, fread_u32_app. cbn [mbind option_bind].
  assert (check_magic MATRIX_CATALOG_MAGIC (u32 MATRIX_CATALOG_MAGIC) = Some tt) as -> by reflexivity.
  cbn [mbind option_bind]. destruct (st_sizes _ _ Hst) as (Hs0 & _ & _).
  rewrite fread_u64_app, u64_small by (unfold in_u64; lia). rewrite Nat2Z.id.
  assert (length (hash_order (dom (v_cols v))) = size (v_cols v)) as <- by (by rewrite hash_order_perm, <- size_dom).
  assert (NoDup (hash_order (dom (v_cols v)))) as Hnd by (rewrite hash_order_perm; apply NoDup_elements).
  destruct (load_columns_run mem v (hash_order (dom (v_cols v)))
    (concat (dict_section (string_dicts_ (v_schema v))) ++ concat (mask_section (null_masks_ (v_schema v)))) e Hl Hnd Hwv Hst)
    as (e1 & -> & Hl1).
  { intros id Hid. rewrite hash_order_perm in Hid. by apply elem_of_elements, elem_of_dom in Hid. }
  cbn [mbind outcome_bind]. destruct (trailing_run mem v e1 Hst Hl1) as (e2 & H2 & Hr).
  exists e2. split; [|done].
  destruct (load_section (load_dict mem) _ e1) as [[o e']|]; [|done]. cbn [mbind outcome_bind] in *. by rewrite H2.
Qed.

(** An engine nothing was loaded into, with room for the columns of [v]. *)
Definition blank_for (v : View) (e : Engine) : Prop :=
  engine_wf e ∧ catalog_ e = ∅ ∧ schema_ e = mkSchema ∅ ∅ ∅ ∅ ∅ ∅ ∅ ∅ ∧
  room_for (load_size v (elements (dom (v_cols v)))) e.

Lemma blank_loading v e : blank_for v e → loading v (hash_order (dom (v_cols v))) e.
Proof.
  intros (Hwf & Hc & Hs & Hr).
  assert (∀ k, v_cols (view e) !! k = None) as Hnone by (intros k; cbn; unfold contents; by rewrite Hc, fmap_empty).
  split; try done; rewrite ?Hs; try done.
  - intros k. rewrite Hnone. destruct (decide _) as [|Hk]; [done|].
    rewrite hash_order_perm, elem_of_elements in Hk. symmetry. by apply not_elem_of_dom in Hk.
  - intros k [b Hb]. by rewrite Hnone in Hb.
  - unfold load_size in *. by rewrite (foldr_sum_proper (v_size v) _ _ (hash_order_perm (dom (v_cols v)))).
Qed.

(** ** Theorems *)

(** C4: A snapshot saved and loaded by a fresh process gives back every column with
    its type and name, every string dictionary with its encoder and every null
    mask, while saving changes no column and puts each back on its tier; it
    reports success exactly when both paths can be written. *)
Theorem snapshot_roundtrip mem path e :
  engine_wf e → snapshot_room path e → storable mem (view e) →
  ∃ ok e', save_catalog path e = Ret (ok, e') ∧
    ok = bool_decide ((path ∉ fs_denied (e_fs e)) ∧ (path +:+ ".tmp") ∉ fs_denied (e_fs e)) ∧
    engine_wf e' ∧ view e' = view e ∧ tiers (catalog_ e') = tiers (catalog_ e) ∧
    if ok then
      ∀ e0, fs_read (e_fs e0) path = fs_read (e_fs e') path → blank_for (view e) e0 →
        ∃ e1, load_catalog mem path e0 = Ret (true, e1) ∧ restored (view e) e1
    else fs_read (e_fs e') path = fs_read (e_fs e) path.
Proof.
  intros Hwf Hroom Hst. destruct (save_catalog_run path e Hwf Hroom) as (ok & e' & Hrun & (Hw & Hv & Ht & Hf & _) & Hok).
  exists ok, e'. repeat (split; [done|]). destruct ok; [|done].
  intros e0 Hfs Hb. apply load_catalog_run; [by rewrite Hfs|by apply engine_view_whole|done|by apply blank_loading].
Qed.

End loading.

(** A file that is missing, too short for its header or of another kind is
    refused and loads nothing; but the row count of a column is believed before
    it is read: one too large for memory ends the process with an exception. *)
Theorem snapshot_header_checks mem path e r id ty count rest :
  fs_read (e_fs e) path = r → in_u64 id → in_u64 count → mem < Z.of_nat (type_width ty) * count →
  match r with
  | None => load_catalog mem path e = Ret (false, e)
  | Some b =>
      ((length b < 12)%nat ∨ take 4 b ≠ le_u32 MATRIX_CATALOG_MAGIC → load_catalog mem path e = Ret (false, e)) ∧
      (b = concat (header_chunks 1) ++ le_u64 id ++ le_u32 (type_to_u32 ty) ++ le_u64 count ++ le_u32 0 ++ rest →
       load_catalog mem path e = Crash Uncaught)
  end.
Proof.
  intros Hr Hid Hcount Hbig. unfold load_catalog. rewrite Hr. destruct r as [b|]; [|done]. cbn [mbind option_bind]. split.
  - intros Hbad. unfold fread_u32, fread.
    destruct (Nat.ltb_spec (length b) 4); cbn [mbind option_bind]; [done|]. unfold check_magic.
    destruct (Z.eqb_spec (le_combine (take 4 b)) MATRIX_CATALOG_MAGIC) as [He|]; cbn [mbind option_bind]; [|done].
    destruct Hbad as [Hs|Hm].
    + rewrite fread_u64_short by (rewrite length_drop; lia). done.
    + exfalso. apply Hm. unfold le_u32. rewrite <- He. symmetry. apply split_le_combine'. rewrite length_take. lia.
  - intros ->. unfold header_chunks. cbn [concat]. rewrite app_nil_r, <- !app_assoc, fread_u32_app. cbn [mbind option_bind].
    assert (check_magic MATRIX_CATALOG_MAGIC (u32 MATRIX_CATALOG_MAGIC) = Some tt) as -> by reflexivity.
    cbn [mbind option_bind]. rewrite fread_u64_app. change (Z.to_nat (u64 1)) with 1%nat. cbn [load_columns].
    assert (read_head (le_u64 id ++ le_u32 (type_to_u32 ty) ++ le_u64 count ++ le_u32 0 ++ rest) =
      Some (mkHead id (type_to_u32 ty) count EmptyString, rest)) as Hh.
    { pose proof (read_head_app id ty count EmptyString [] rest Hid Hcount ltac:(cbn; lia)) as H.
      unfold column_chunks in H. rewrite !concat_app, concat_text_chunks in H by (cbn; lia). cbn [concat] in H.
      rewrite !app_nil_r, <- !app_assoc in H. exact H. }
    unfold load_one. rewrite Hh. cbn [mbind option_bind ch_type]. rewrite (proj1 (type_of_u32_to ty)).
    cbn [mbind option_bind ch_count]. unfold fread_array, alloc. rewrite (proj2 (Z.leb_gt _ _)) by done. done.
Qed.

(** ** Witnesses *)

Definition enrich (e : Engine) : Engine :=
  put_dict 2 ["fig"; "pear"] (put_mask 1 [0; 1; 0] (set_schema (with_name 1 "v" (schema_ e)) e)).

Lemma enrich_wf e : engine_wf e → engine_wf (enrich e).
Proof. intros Hwf. apply (same_columns_wf e); try done; apply Hwf. Qed.

(** A name, a dictionary and a null mask; column 2 is on disk. *)
Definition rich_sample : Engine := enrich sample.

Lemma rich_sample_wf : engine_wf rich_sample.
Proof. apply enrich_wf, sample_wf. Qed.

Definition u64_b (z : Z) : bool := (0 <=? z) && (z <? 2 ^ 64).

Definition storable_check (mem : Z) (v : View) : bool :=
  forallb (λ kv, u64_b kv.1 && (Z.of_nat (length kv.2) <=? mem) &&
                 (Z.of_nat (String.length (view_name v kv.1)) <=? 4096)) (map_to_list (v_cols v)) &&
  forallb (λ kv, u64_b kv.1 && (Z.of_nat (length kv.2) <=? 2 ^ 32) && (STRING_BYTES * Z.of_nat (length kv.2) <=? mem) &&
                 forallb (λ s, Z.of_nat (String.length s) <=? 2 ^ 20) kv.2) (map_to_list (string_dicts_ (v_schema v))) &&
  forallb (λ kv, u64_b kv.1 && (Z.of_nat (length kv.2) <=? 2 ^ 32) && (Z.of_nat (length kv.2) <=? mem) &&
                 forallb (λ x, (0 <=? x) && (x <? 2 ^ 8)) kv.2) (map_to_list (null_masks_ (v_schema v))) &&
  ((Z.of_nat (size (v_cols v)) <? 2 ^ 64) && (Z.of_nat (size (string_dicts_ (v_schema v))) <? 2 ^ 64) &&
   (Z.of_nat (size (null_masks_ (v_schema v))) <? 2 ^ 64)) && (mem <? 2 ^ 64).

Lemma forallb_map_Forall {A} (P : Z → A → Prop) (f : Z * A → bool) (m : gmap Z A) :
  (∀ k x, f (k, x) = true → P k x) → forallb f (map_to_list m) = true → map_Forall P m.
Proof.
  intros Hf H k x Hk. apply Hf. rewrite forallb_forall in H. apply H.
  by apply list_elem_of_In, elem_of_map_to_list.
Qed.

Lemma storable_check_ok mem v : storable_check mem v = true → storable mem v.
Proof.
  unfold storable_check. rewrite !andb_true_iff, !Z.ltb_lt. intros ((((Hc & Hd) & Hm) & Hs) & Hmem).
  split; [..|tauto|done]; (eapply forallb_map_Forall; [|eassumption]); intros k x; cbn [fst snd];
    unfold u64_b, in_u64; rewrite !andb_true_iff, ?Z.ltb_lt, ?Z.leb_le, ?forallb_forall, ?Forall_forall; [tauto|tauto|..].
  - intros (((? & ?) & ?) & Hx). split; [done|]. split; [done|]. split; [done|].
    intros y Hy%list_elem_of_In. by apply Z.leb_le, Hx.
  - intros (((? & ?) & ?) & Hx). split; [done|]. split; [done|]. split; [done|].
    intros y Hy%list_elem_of_In. specialize (Hx y Hy). rewrite andb_true_iff, Z.leb_le, Z.ltb_lt in Hx. done.
Qed.

Lemma not_cold_snapshot : not_cold 7 "s" ∧ not_cold 7 "s.tmp".
Proof. split; intros n Heq; unfold serial_path in Heq; discriminate Heq. Qed.

Definition copied (fs : filesys) : filesys := mkFS {[ "s" := mkFile (default [] (fs_read fs "s")) 0 ]} 1000 ∅.

Lemma copied_read fs b : fs_read fs "s" = Some b → fs_read (copied fs) "s" = fs_read fs "s".
Proof. intros H. unfold copied. by rewrite H. Qed.

Lemma rich_sample_size : load_size (view rich_sample) (elements (dom (v_cols (view rich_sample)))) = 24.
Proof. vm_compute. reflexivity. Qed.

(** A process that starts over a copy of the file. *)
Lemma copied_blank fs : blank_for (view rich_sample) (new_engine 100 [] (copied fs) 8 1).
Proof.
  split; [apply new_engine_wf; intros s; cbn; set_solver|]. split; [done|]. split; [done|].
  rewrite rich_sample_size. split; [|done]. change (0 + 24 ≤ 1000). lia.
Qed.

Lemma rich_sample_room : snapshot_room (HashOrder0 := elements_order) "s" rich_sample.
Proof. split; [exact (proj1 not_cold_snapshot)|]. split; [exact (proj2 not_cold_snapshot)|]. vm_compute. discriminate. Qed.

Lemma rich_sample_storable : storable 1000 (view rich_sample).
Proof. apply storable_check_ok. vm_compute. reflexivity. Qed.

Lemma snapshot_roundtrip_witness :
  ∃ e' e1, save_catalog (HashOrder0 := elements_order) "s" rich_sample = Ret (true, e') ∧
    load_catalog 1000 "s" (new_engine 100 [] (copied (e_fs e')) 8 1) = Ret (true, e1) ∧
    string_dicts_ (schema_ e1) = string_dicts_ (schema_ rich_sample) ∧
    v_cols (view e1) = v_cols (view rich_sample).
Proof.
  destruct (snapshot_roundtrip (HashOrder0 := elements_order) 1000 "s" rich_sample rich_sample_wf
    rich_sample_room rich_sample_storable) as (ok & e' & Hrun & Hok & _ & _ & _ & H).
  assert (ok = true) as -> by (rewrite Hok; vm_compute; reflexivity).
  exists e'. destruct (save_catalog_run (HashOrder0 := elements_order) "s" rich_sample rich_sample_wf rich_sample_room)
    as (ok2 & e2 & Hrun2 & (_ & _ & _ & Hf & _) & _).
  rewrite Hrun in Hrun2. injection Hrun2 as <- <-.
  destruct (H (new_engine 100 [] (copied (e_fs e')) 8 1) (copied_read _ _ Hf) (copied_blank _)) as (e1 & Hl & [_ Hcols _ Hd _ _]).
  exists e1. split; [exact Hrun|]. split; [exact Hl|]. split; [exact Hd|exact Hcols].
Defined.

(** Two u64 lengths of 2^40 elements in a process with 2^30 bytes. *)
Lemma snapshot_header_checks_witness :
  ∃ b, load_catalog (2 ^ 30) "s" (new_engine 100 [] (mkFS {[ "s" := mkFile b 0 ]} 100 ∅) 8 1) = Crash Uncaught.
Proof.
  set (b := concat (header_chunks 1) ++ le_u64 7 ++ le_u32 (type_to_u32 U32) ++ le_u64 (2 ^ 40) ++ le_u32 0 ++ []).
  exists b. pose proof (snapshot_header_checks (2 ^ 30) "s" (new_engine 100 [] (mkFS {[ "s" := mkFile b 0 ]} 100 ∅) 8 1)
    (Some b) 7 U32 (2 ^ 40) []) as H.
  apply H; [reflexivity|unfold in_u64; lia|unfold in_u64; lia|cbn; lia|reflexivity].
Defined.

(** ** A power cut after a snapshot *)

#[local] Abbreviation save := (save_catalog (HashOrder0 := elements_order) "s").

Definition first_save : Engine := match save rich_sample with Ret (_, e) => e | Crash _ => rich_sample end.

Definition saved_unsynced (o : outcome (bool * Engine)) : bool :=
  match o with
  | Ret (true, e) => match fs_files (e_fs e) !! "s" with Some f => (f_synced f =? 0)%nat | None => false end
  | _ => false
  end.

Lemma second_save : saved_unsynced (save first_save) = true.
Proof. vm_compute. reflexivity. Qed.

(** [save_catalog] renames a file it never synced: after it has reported
    success over an older snapshot, a power cut may leave any prefix of the new
    one, which does not load, and the old one is gone. *)
Theorem snapshot_not_synced :
  ∃ e e' f, engine_wf e ∧ is_Some (fs_read (e_fs e) "s") ∧ save_catalog (HashOrder0 := elements_order) "s" e = Ret (true, e') ∧
    fs_files (e_fs e') !! "s" = Some f ∧ crash_of f [] ∧
    ∀ e0, fs_read (e_fs e0) "s" = Some [] → load_catalog 1000 "s" e0 = Ret (false, e0).
Proof.
  destruct (save_catalog_run (HashOrder0 := elements_order) "s" rich_sample rich_sample_wf rich_sample_room)
    as (ok & e & Hrun & (Hwf & _ & _ & Hf & _) & Hok).
  assert (ok = true) as -> by (rewrite Hok; vm_compute; reflexivity).
  assert (first_save = e) as He by (unfold first_save; by rewrite Hrun).
  pose proof second_save as H. rewrite He in H. unfold saved_unsynced in H.
  destruct (save e) as [[[] e']|] eqn:E; [|done|done].
  destruct (fs_files (e_fs e') !! "s") as [f|] eqn:Hfile; [|done]. apply Nat.eqb_eq in H.
  exists e, e', f. split; [done|]. split; [rewrite Hf; by eexists|]. split; [done|]. split; [done|]. split.
  - exists 0%nat. rewrite H. split; [lia|done].
  - intros e0 Hr. unfold load_catalog. by rewrite Hr.
Qed.
