(* ===== verification/Server.v ===== *)
(** * Server: the request protocol and its dispatcher

    [server.hpp]: requests and responses and their wire forms, access policy,
    authentication, the audit record, and [serve_core], which decodes a request,
    authorises it and runs it on the engine.  The server's state is the engine's
    analytical half and its point store; [ns] is the clock reading of a query.
    Statistics also report the version of [version.hpp]. *)

From Stdlib Require Import Ascii.
From S2P Require Export PointStore EngineCorrect EngineDerived.

#[local] Open Scope Z_scope.

(** ** Requests and responses *)

Inductive ReqKind : Type := GET | PUT | QUERY | HEALTH | STATS.

#[export] Instance ReqKind_eq_dec : EqDecision ReqKind.
Proof. solve_decision. Defined.

Definition kind_to_u32 (k : ReqKind) : Z :=
  match k with GET => 1 | PUT => 2 | QUERY => 3 | HEALTH => 4 | STATS => 5 end.

Definition kind_of_u32 (z : Z) : option ReqKind :=
  if z =? 1 then Some GET else if z =? 2 then Some PUT else if z =? 3 then Some QUERY
  else if z =? 4 then Some HEALTH else if z =? 5 then Some STATS else None.

(** [ServerStatus]; a query's own status shares the field. *)
Definition SERVER_OK : Z := 0.
Definition ERR_BADREQUEST : Z := 1000.
Definition ERR_FORBIDDEN : Z := 1001.
Definition ERR_UNAUTHENTICATED : Z := 1002.

Record MatrixRequest := mkRequest { rq_kind : ReqKind; rq_key : Z; rq_value : Z; rq_query : MatrixQuery }.
Record MatrixResponse := mkResponse { rs_status : Z; rs_results : list Z }.

(** ** Wire forms *)

Definition put_bool (b : bool) : list byte := le_split 1 (if b then 1 else 0).

Definition matrix_serialize_request (r : MatrixRequest) : list byte :=
  let q := rq_query r in
  le_u32 (kind_to_u32 (rq_kind r)) ++ le_u64 (rq_key r) ++ le_u64 (rq_value r) ++
  le_u64 (value_col q) ++ le_u32 (agg_to_u32 (agg q)) ++ put_bool (has_filter q) ++
  le_u32 (threshold q) ++ le_u32 (cmp_to_u32 (cmp q)) ++ le_u32 (upper q) ++
  le_u64 (lo_i64 q) ++ le_u64 (hi_i64 q) ++ le_u64 (lo_f64 q) ++ le_u64 (hi_f64 q) ++
  put_bool (grouped q) ++ le_u64 (key_col q) ++ le_u32 (num_groups q) ++ le_u64 (limit q) ++ le_u64 (filter_col q).

Definition read_u8 (r : list byte) : option (Z * list byte) := '(b, r') ← fread 1 r; Some (le_combine b, r').

Definition end_of {A} (a : A) (r : list byte) : option A := match r with [] => Some a | _ => None end.

(** A short read makes [Reader::ok] false for good, which refuses the request. *)
Definition matrix_deserialize_request (b : list byte) : option MatrixRequest :=
  '(kind, r) ← fread_u32 b; '(key, r) ← fread_u64 r; '(value, r) ← fread_u64 r;
  '(vcol, r) ← fread_u64 r; '(op, r) ← fread_u32 r; '(hf, r) ← read_u8 r;
  '(thr, r) ← fread_u32 r; '(c, r) ← fread_u32 r; '(upp, r) ← fread_u32 r;
  '(loi, r) ← fread_u64 r; '(hii, r) ← fread_u64 r; '(lof, r) ← fread_u64 r; '(hif, r) ← fread_u64 r;
  '(gr, r) ← read_u8 r; '(kcol, r) ← fread_u64 r; '(ng, r) ← fread_u32 r; '(lim, r) ← fread_u64 r;
  '(fcol, r) ← fread_u64 r;
  _ ← end_of tt r;
  k ← kind_of_u32 kind;
  c ← cmp_of_u32 c;
  Some (mkRequest k key value
    {| value_col := vcol; agg := agg_of_u32 op; has_filter := negb (hf =? 0); threshold := thr; cmp := c;
       upper := upp; lo_i64 := i64 loi; hi_i64 := i64 hii; lo_f64 := lof; hi_f64 := hif;
       grouped := negb (gr =? 0); key_col := kcol; num_groups := ng; limit := lim; filter_col := fcol |}).

Definition matrix_serialize_response (r : MatrixResponse) : list byte :=
  le_u32 (rs_status r) ++ le_u64 (Z.of_nat (length (rs_results r))) ++ concat (map le_u64 (rs_results r)).

Fixpoint read_u64s (n : nat) (r : list byte) : option (list Z * list byte) :=
  match n with
  | O => Some ([], r)
  | S n' => '(x, r) ← fread_u64 r; '(xs, r) ← read_u64s n' r; Some (x :: xs, r)
  end.

Definition MAX_RESULTS : Z := Z.shiftl 1 28.

Definition matrix_deserialize_response (b : list byte) : option MatrixResponse :=
  '(status, r) ← fread_u32 b;
  '(count, r) ← fread_u64 r;
  if MAX_RESULTS <? count then None
  else if negb (Z.of_nat (length r) =? count * 8) then None
  else '(xs, r) ← read_u64s (Z.to_nat count) r; end_of (mkResponse status xs) r.

(** ** Audit *)

Record AuditEntry := mkAudit { au_principal : Z; au_kind : Z; au_status : Z; au_key : Z; au_column : Z }.

Definition AuditLog : Type := list AuditEntry.

(** ** Authorisation *)

Record AccessPolicy := mkPolicy {
  pol_allow_all : bool;
  pol_cols : gmap Z (gset Z);
  pol_read : gset Z;
  pol_write : gset Z
}.

Definition no_access : AccessPolicy := mkPolicy false ∅ ∅ ∅.
Definition permissive : AccessPolicy := mkPolicy true ∅ ∅ ∅.

Definition allow_column (principal col : Z) (p : AccessPolicy) : AccessPolicy :=
  mkPolicy (pol_allow_all p) (<[principal := {[col]} ∪ default ∅ (pol_cols p !! principal)]> (pol_cols p))
    (pol_read p) (pol_write p).
Definition allow_read (principal : Z) (p : AccessPolicy) : AccessPolicy :=
  mkPolicy (pol_allow_all p) (pol_cols p) ({[principal]} ∪ pol_read p) (pol_write p).
Definition allow_write (principal : Z) (p : AccessPolicy) : AccessPolicy :=
  mkPolicy (pol_allow_all p) (pol_cols p) (pol_read p) ({[principal]} ∪ pol_write p).

Definition can_query (p : AccessPolicy) (principal col : Z) : bool :=
  pol_allow_all p || match pol_cols p !! principal with Some s => bool_decide (col ∈ s) | None => false end.
Definition can_read (p : AccessPolicy) (principal : Z) : bool :=
  pol_allow_all p || bool_decide (principal ∈ pol_read p).
Definition can_write (p : AccessPolicy) (principal : Z) : bool :=
  pol_allow_all p || bool_decide (principal ∈ pol_write p).

(** ** Authentication *)

Definition Authenticator : Type := list (string * Z).

Definition add_credential (token : string) (principal : Z) (a : Authenticator) : Authenticator := (a ++ [(token, principal)])%list.

(** [diff |= a[i] ^ b[i]] over every byte. *)
Fixpoint xor_bytes (diff : Z) (a b : string) : Z :=
  match a, b with
  | String c a', String d b' => xor_bytes (Z.lor diff (Z.lxor (Z.of_nat (nat_of_ascii c)) (Z.of_nat (nat_of_ascii d)))) a' b'
  | _, _ => diff
  end.

Definition timing_safe_equal (a b : string) : bool :=
  if negb (String.length a =? String.length b)%nat then false else xor_bytes 0 a b =? 0.

(** Every credential is compared; the last that matches wins. *)
Definition authenticate (token : string) (a : Authenticator) : option Z :=
  if String.eqb token EmptyString then None
  else fold_left (λ found tp, if timing_safe_equal token tp.1 then Some tp.2 else found) a None.

(** ** Dispatch *)

(** [matrixdb_version_u64]: 0.1.0. *)
Definition matrixdb_version_u64 : Z := Z.lor (Z.shiftl 0 32) (Z.lor (Z.shiftl 1 16) 0).

(** The bit patterns of 0.50 and 0.99. *)
Definition F64_HALF : Z := 0x3FE0000000000000.
Definition F64_P99 : Z := 0x3FEFAE147AE147AE.

Record Server := mkServer { sv_engine : Engine; sv_points : PointStore }.

Definition on_engine {A} (m : stM Engine A) : stM Server A := λ s,
  '(a, e) ← m (sv_engine s); Ret (a, mkServer e (sv_points s)).

Definition bool_u64 (b : bool) : Z := if b then 1 else 0.

Definition catalog_size (e : Engine) : Z := Z.of_nat (size (catalog_ e)).

Section server.
Context `{!HashOrder Z}.

Definition resident (t : MemorySpace) (e : Engine) : Z := resident_bytes t (cols (tier_mgr_ (brain_ e))).

Definition wal_records (ps : PointStore) : Z :=
  match cold_store_ ps with Some cs => cs_records_written cs | None => 0 end.

(** [health()], in wire order. *)
Definition health (s : Server) : list Z :=
  let ps := sv_points s in
  [bool_u64 (store_overflows_ ps =? 0); bool_u64 (match cold_store_ ps with Some _ => true | None => false end);
   catalog_size (sv_engine s); resident HOST (sv_engine s); wal_records ps; store_overflows_ ps].

(** [stats()] with the percentiles and the version, in wire order. *)
Definition stats (s : Server) : outcome (list Z) :=
  let e := sv_engine s in
  p50 ← query_latency_percentile_ns F64_HALF (stats_ e);
  p99 ← query_latency_percentile_ns F64_P99 (stats_ e);
  Ret [cold_borrows_ (brain_ e); rebalances_ (brain_ e); migrations_ (brain_ e); catalog_size e;
       resident HOST e; resident COLD e; query_count_ (stats_ e); total_query_ns_ (stats_ e); max_query_ns_ (stats_ e);
       p50; p99; matrixdb_version_u64].

Definition authorized (policy : AccessPolicy) (principal : Z) (r : MatrixRequest) : bool :=
  match rq_kind r with
  | GET => can_read policy principal
  | PUT => can_write policy principal
  | QUERY => can_query policy principal (value_col (rq_query r)) &&
             (negb (grouped (rq_query r)) || can_query policy principal (key_col (rq_query r)))
  | HEALTH | STATS => true
  end.

Definition put_one (key value : Z) (ps : PointStore) : outcome PointStore :=
  ps ← begin_ ps; ps ← txn_put key value ps; commit ps.

Definition dispatch (ns : Z) (r : MatrixRequest) : stM Server MatrixResponse := λ s,
  match rq_kind r with
  | GET =>
      v ← kv_get (kv_ (sv_points s)) (rq_key r);
      Ret (mkResponse SERVER_OK (match v with Some v => [v] | None => [] end), s)
  | PUT =>
      ps ← put_one (rq_key r) (rq_value r) (sv_points s);
      Ret (mkResponse SERVER_OK [], mkServer (sv_engine s) ps)
  | QUERY =>
      '((st, out), s') ← on_engine (execute_query (rq_query r) ns) s;
      Ret (mkResponse (status_to_u32 st) out, s')
  | HEALTH => Ret (mkResponse SERVER_OK (health s), s)
  | STATS => rs ← stats s; Ret (mkResponse SERVER_OK rs, s)
  end.

(** The response bytes and the audit record. *)
Definition serve_core (policy : AccessPolicy) (principal ns : Z) (req_bytes : list byte) :
    stM Server (list byte * AuditEntry) := λ s,
  match matrix_deserialize_request req_bytes with
  | None => Ret ((matrix_serialize_response (mkResponse ERR_BADREQUEST []), mkAudit principal 0 ERR_BADREQUEST 0 0), s)
  | Some r =>
      let entry status := mkAudit principal (kind_to_u32 (rq_kind r)) status (rq_key r) (value_col (rq_query r)) in
      if negb (authorized policy principal r) then
        Ret ((matrix_serialize_response (mkResponse ERR_FORBIDDEN []), entry ERR_FORBIDDEN), s)
      else
        '(resp, s') ← dispatch ns r s;
        Ret ((matrix_serialize_response resp, entry (rs_status resp)), s')
  end.

Definition matrix_serve (policy : AccessPolicy) (principal ns : Z) (req_bytes : list byte) : stM Server (list byte) := λ s,
  '((resp, _), s') ← serve_core policy principal ns req_bytes s; Ret (resp, s').

Definition matrix_serve_audited (policy : AccessPolicy) (principal ns : Z) (req_bytes : list byte) (audit : AuditLog) :
    stM Server (list byte * AuditLog) := λ s,
  '((resp, entry), s') ← serve_core policy principal ns req_bytes s; Ret ((resp, (audit ++ [entry])%list), s').

Definition matrix_serve_open (ns : Z) (req_bytes : list byte) : stM Server (list byte) :=
  matrix_serve permissive 0 ns req_bytes.

Definition matrix_serve_token (policy : AccessPolicy) (auth : Authenticator) (token : string) (ns : Z)
    (req_bytes : list byte) : stM Server (list byte) := λ s,
  match authenticate token auth with
  | None => Ret (matrix_serialize_response (mkResponse ERR_UNAUTHENTICATED []), s)
  | Some principal => matrix_serve policy principal ns req_bytes s
  end.

End server.

(** ** Lemmas: wire forms *)

Lemma kind_of_to k : kind_of_u32 (kind_to_u32 k) = Some k ∧ in_u32 (kind_to_u32 k).
Proof. destruct k; split; try reflexivity; unfold in_u32; cbn; lia. Qed.

Lemma read_u8_bool b r : read_u8 (put_bool b ++ r) = Some (if b then 1 else 0, r).
Proof. by destruct b. Qed.

(** A query whose fields fit their types. *)
Record query_wf (q : MatrixQuery) : Prop := {
  qw_cols : in_u64 (value_col q) ∧ in_u64 (key_col q) ∧ in_u64 (filter_col q);
  qw_agg : agg_wf (agg q);
  qw_u32 : in_u32 (threshold q) ∧ in_u32 (upper q) ∧ in_u32 (num_groups q);
  qw_i64 : in_i64 (lo_i64 q) ∧ in_i64 (hi_i64 q);
  qw_f64 : in_u64 (lo_f64 q) ∧ in_u64 (hi_f64 q);
  qw_limit : in_u64 (limit q)
}.

Definition request_wf (r : MatrixRequest) : Prop := in_u64 (rq_key r) ∧ in_u64 (rq_value r) ∧ query_wf (rq_query r).

Ltac read_field :=
  first [rewrite fread_u64_app | rewrite fread_u32_app | rewrite read_u8_bool]; cbn [mbind option_bind].

Lemma request_roundtrip_lemma r :
  request_wf r → matrix_deserialize_request (matrix_serialize_request r) = Some r.
Proof.
  intros (Hk & Hv & [(H1 & H2 & H3) Ha (H4 & H5 & H6) (H7 & H8) (H9 & H10) H11]).
  unfold matrix_deserialize_request, matrix_serialize_request. cbv zeta. do 17 read_field.
  rewrite <- (app_nil_r (le_u64 (filter_col _))), fread_u64_app. cbn [mbind option_bind end_of].
  rewrite (u32_small (kind_to_u32 _)) by apply kind_of_to. rewrite (proj1 (kind_of_to _)). cbn [mbind option_bind].
  rewrite (u32_small (cmp_to_u32 _)) by apply cmp_to_u32_range. rewrite cmp_of_to_u32. cbn [mbind option_bind].
  rewrite !i64_u64, (u32_small (agg_to_u32 _)), agg_of_to_u32, !u32_small, !u64_small by (done || by apply agg_to_u32_range).
  destruct r as [? ? ? [? ? [] ? ? ? ? ? ? ? [] ? ? ? ?]]; reflexivity.
Qed.

Lemma fread_u32_range r z r' : fread_u32 r = Some (z, r') → in_u32 z ∧ length r = (4 + length r')%nat.
Proof.
  intros (b & -> & Hb & ->)%fread_u32_Some. rewrite length_app, Hb. split; [|done].
  pose proof (le_combine_bound b) as H. rewrite Hb in H. exact H.
Qed.

Lemma fread_u64_range r z r' : fread_u64 r = Some (z, r') → in_u64 z ∧ length r = (8 + length r')%nat.
Proof.
  unfold fread_u64. destruct (fread 8 r) as [[b r1]|] eqn:E; [|done]. cbn [mbind option_bind].
  intros [= <- <-]. apply fread_Some in E as [-> Hb]. rewrite length_app, Hb. split; [|done].
  pose proof (le_combine_bound b) as H. rewrite Hb in H. exact H.
Qed.

Lemma read_u8_length r z r' : read_u8 r = Some (z, r') → length r = (1 + length r')%nat.
Proof.
  unfold read_u8. destruct (fread 1 r) as [[b r1]|] eqn:E; [|done]. cbn [mbind option_bind].
  intros [= <- <-]. apply fread_Some in E as [-> Hb]. rewrite length_app, Hb. done.
Qed.

(** Take apart a decoder known to have succeeded. *)
Ltac inv_read :=
  repeat match goal with
  | H : (fread_u32 ?r ≫= _) = Some _ |- _ =>
      let E := fresh "E" in destruct (fread_u32 r) as [[]|] eqn:E; cbn [mbind option_bind] in H;
        [apply fread_u32_range in E as [??]|discriminate H]
  | H : (fread_u64 ?r ≫= _) = Some _ |- _ =>
      let E := fresh "E" in destruct (fread_u64 r) as [[]|] eqn:E; cbn [mbind option_bind] in H;
        [apply fread_u64_range in E as [??]|discriminate H]
  | H : (read_u8 ?r ≫= _) = Some _ |- _ =>
      let E := fresh "E" in destruct (read_u8 r) as [[]|] eqn:E; cbn [mbind option_bind] in H;
        [apply read_u8_length in E|discriminate H]
  end.

Definition REQUEST_BYTES : nat := 106.

Lemma request_typed_lemma b r :
  matrix_deserialize_request b = Some r → request_wf r ∧ length b = REQUEST_BYTES.
Proof.
  unfold matrix_deserialize_request. intros H. inv_read.
  match goal with H : (end_of tt ?r ≫= _) = Some _ |- _ => destruct r; [|discriminate H] end.
  cbn [end_of mbind option_bind] in H.
  match type of H with (kind_of_u32 ?k ≫= _) = _ => destruct (kind_of_u32 k); [|discriminate H] end.
  cbn [mbind option_bind] in H.
  match type of H with (cmp_of_u32 ?k ≫= _) = _ => destruct (cmp_of_u32 k); [|discriminate H] end.
  cbn [mbind option_bind] in H. injection H as <-. split; [|unfold REQUEST_BYTES; cbn in *; lia].
  split; [done|]. split; [done|]. split; cbn; try done; [by apply agg_of_u32_wf|].
  split; apply i64_range.
Qed.

(** The fields of a request as they lie on the wire. *)
Definition raw_bytes (kind key value vcol op : Z) (hf : byte) (thr c upp loi hii lof hif : Z) (gr : byte)
    (kcol ng lim fcol : Z) : list byte :=
  (le_u32 kind ++ le_u64 key ++ le_u64 value ++ le_u64 vcol ++ le_u32 op) ++ hf ::
  (le_u32 thr ++ le_u32 c ++ le_u32 upp ++ le_u64 loi ++ le_u64 hii ++ le_u64 lof ++ le_u64 hif) ++ gr ::
  (le_u64 kcol ++ le_u32 ng ++ le_u64 lim ++ le_u64 fcol).

(** A flag of a request: any byte but zero means true; the encoder writes one. *)
Definition flag (x : byte) : byte := if byte.unsigned x =? 0 then Byte.x00 else Byte.x01.

(** The bytes with both flags as the encoder writes them. *)
Definition canonical (b : list byte) : list byte :=
  take 32 b ++ map flag (take 1 (drop 32 b)) ++ take 44 (drop 33 b) ++ map flag (take 1 (drop 77 b)) ++ drop 78 b.

(** The 32-bit word at offset [o]. *)
Definition word_at (o : nat) (b : list byte) : Z := le_combine (take 4 (drop o b)).

Lemma read_u8_cons x r : read_u8 (x :: r) = Some (byte.unsigned x, r).
Proof. by destruct x. Qed.

Lemma put_bool_flag x : put_bool (negb (byte.unsigned x =? 0)) = [flag x].
Proof. unfold flag. by destruct (byte.unsigned x =? 0). Qed.

Lemma flag_zero x : (byte.unsigned (flag x) =? 0) = (byte.unsigned x =? 0).
Proof. unfold flag. by destruct (byte.unsigned x =? 0). Qed.

Lemma peel_u32 b n : length b = (4 + n)%nat → ∃ z r, b = le_u32 z ++ r ∧ in_u32 z ∧ length r = n.
Proof.
  intros H. exists (le_combine (take 4 b)), (drop 4 b).
  assert (length (take 4 b) = 4%nat) as Hl by (rewrite length_take; lia).
  unfold le_u32. rewrite (split_le_combine' _ 4 Hl), take_drop. split; [done|].
  split; [pose proof (le_combine_bound (take 4 b)) as Hb; by rewrite Hl in Hb|rewrite length_drop; lia].
Qed.

Lemma peel_u64 b n : length b = (8 + n)%nat → ∃ z r, b = le_u64 z ++ r ∧ in_u64 z ∧ length r = n.
Proof.
  intros H. exists (le_combine (take 8 b)), (drop 8 b).
  assert (length (take 8 b) = 8%nat) as Hl by (rewrite length_take; lia).
  unfold le_u64. rewrite (split_le_combine' _ 8 Hl), take_drop. split; [done|].
  split; [pose proof (le_combine_bound (take 8 b)) as Hb; by rewrite Hl in Hb|rewrite length_drop; lia].
Qed.

Lemma peel_u8 (b : list byte) n : length b = S n → ∃ x r, b = x :: r ∧ length r = n.
Proof. destruct b as [|x b]; [done|]. intros [= <-]. eauto. Qed.

(** Any [REQUEST_BYTES] bytes are the fields of a request; what decides is the kind
    and the comparison. *)
Lemma raw_request b :
  length b = REQUEST_BYTES →
  ∃ kind key value vcol op hf thr c upp loi hii lof hif gr kcol ng lim fcol,
    b = raw_bytes kind key value vcol op hf thr c upp loi hii lof hif gr kcol ng lim fcol ∧
    in_u32 kind ∧ in_u32 c ∧
    ∀ hf' gr', matrix_deserialize_request (raw_bytes kind key value vcol op hf' thr c upp loi hii lof hif gr' kcol ng lim fcol) =
      (k ← kind_of_u32 kind; c ← cmp_of_u32 c;
       Some (mkRequest k key value
         {| value_col := vcol; agg := agg_of_u32 op; has_filter := negb (byte.unsigned hf' =? 0); threshold := thr;
            cmp := c; upper := upp; lo_i64 := i64 loi; hi_i64 := i64 hii; lo_f64 := lof; hi_f64 := hif;
            grouped := negb (byte.unsigned gr' =? 0); key_col := kcol; num_groups := ng; limit := lim; filter_col := fcol |})).
Proof.
  intros Hl. change REQUEST_BYTES with (4 + 102)%nat in Hl.
  apply peel_u32 in Hl as (kind & b1 & -> & H1 & Hl). apply (peel_u64 _ 94) in Hl as (key & b2 & -> & H2 & Hl).
  apply (peel_u64 _ 86) in Hl as (value & b3 & -> & H3 & Hl). apply (peel_u64 _ 78) in Hl as (vcol & b4 & -> & H4 & Hl).
  apply (peel_u32 _ 74) in Hl as (op & b5 & -> & H5 & Hl). apply (peel_u8 _ 73) in Hl as (hf & b6 & -> & Hl).
  apply (peel_u32 _ 69) in Hl as (thr & b7 & -> & H6 & Hl). apply (peel_u32 _ 65) in Hl as (c & b8 & -> & H7 & Hl).
  apply (peel_u32 _ 61) in Hl as (upp & b9 & -> & H8 & Hl). apply (peel_u64 _ 53) in Hl as (loi & b10 & -> & H9 & Hl).
  apply (peel_u64 _ 45) in Hl as (hii & b11 & -> & H10 & Hl). apply (peel_u64 _ 37) in Hl as (lof & b12 & -> & H11 & Hl).
  apply (peel_u64 _ 29) in Hl as (hif & b13 & -> & H12 & Hl). apply (peel_u8 _ 28) in Hl as (gr & b14 & -> & Hl).
  apply (peel_u64 _ 20) in Hl as (kcol & b15 & -> & H13 & Hl). apply (peel_u32 _ 16) in Hl as (ng & b16 & -> & H14 & Hl).
  apply (peel_u64 _ 8) in Hl as (lim & b17 & -> & H15 & Hl). apply (peel_u64 _ 0) in Hl as (fcol & b18 & -> & H16 & Hl).
  apply nil_length_inv in Hl as ->.
  exists kind, key, value, vcol, op, hf, thr, c, upp, loi, hii, lof, hif, gr, kcol, ng, lim, fcol.
  split; [unfold raw_bytes; by rewrite app_nil_r, <- ?app_assoc|].
  split; [done|]. split; [done|]. intros hf' gr'. unfold raw_bytes. rewrite <- ?app_assoc.
  rewrite <- (app_nil_r (le_u64 fcol)). unfold matrix_deserialize_request.
  repeat (first [rewrite fread_u32_app | rewrite fread_u64_app | rewrite read_u8_cons]; cbn [mbind option_bind end_of]).
  rewrite !u32_small, !u64_small by done. done.
Qed.

Lemma le_u64_i64 z : le_u64 (i64 z) = le_u64 z.
Proof.
  assert (∀ x, le_u64 (u64 x) = le_u64 x) as H.
  { intros x. rewrite <- le_combine_u64. apply (split_le_combine' (le_u64 x) 8), length_le_u64. }
  by rewrite <- (H (i64 z)), u64_i64.
Qed.

Lemma canonical_raw kind key value vcol op hf thr c upp loi hii lof hif gr kcol ng lim fcol :
  canonical (raw_bytes kind key value vcol op hf thr c upp loi hii lof hif gr kcol ng lim fcol) =
  raw_bytes kind key value vcol op (flag hf) thr c upp loi hii lof hif (flag gr) kcol ng lim fcol.
Proof.
  unfold raw_bytes. set (p := le_u32 kind ++ _). set (m := le_u32 thr ++ _). set (t := le_u64 kcol ++ _).
  assert (length p = 32%nat) as Hp by (unfold p; rewrite !length_app, ?length_le_u64, ?length_le_u32; done).
  assert (length m = 44%nat) as Hm by (unfold m; rewrite !length_app, ?length_le_u64, ?length_le_u32; done).
  clearbody p m t. unfold canonical.
  assert (∀ n (l : list byte), drop (32 + n) (p ++ l) = drop n l) as Hd
    by (intros n l; rewrite <- Hp; apply drop_app_add).
  assert (∀ n (l : list byte), drop (44 + n) (m ++ l) = drop n l) as Hd2
    by (intros n l; rewrite <- Hm; apply drop_app_add).
  rewrite (Hd 0%nat), (Hd 1%nat), (Hd 45%nat), (Hd 46%nat). cbn [drop].
  rewrite (Hd2 0%nat), (Hd2 1%nat). cbn [drop take map].
  rewrite !take_0, !drop_0. cbn [map]. rewrite (take_app_length' p _ 32), (take_app_length' m _ 44) by done. done.
Qed.

Lemma word_at_raw kind key value vcol op hf thr c upp loi hii lof hif gr kcol ng lim fcol :
  in_u32 kind → in_u32 c →
  let b := raw_bytes kind key value vcol op hf thr c upp loi hii lof hif gr kcol ng lim fcol in
  word_at 0 b = kind ∧ word_at 37 b = c.
Proof.
  intros Hk Hc b. unfold word_at, b, raw_bytes. rewrite <- ?app_assoc. split.
  - rewrite drop_0, (take_app_length' (le_u32 kind)) by (by rewrite length_le_u32). by rewrite le_combine_u32, u32_small.
  - assert (∀ k n (a l : list byte), length a = k → drop (k + n) (a ++ l) = drop n l) as Hd
      by (intros k n a l <-; apply drop_app_add).
    rewrite (Hd 4%nat 33%nat), (Hd 8%nat 25%nat), (Hd 8%nat 17%nat), (Hd 8%nat 9%nat), (Hd 4%nat 5%nat)
      by (apply length_le_u32 || apply length_le_u64).
    cbn [drop]. rewrite (Hd 4%nat 0%nat) by apply length_le_u32. rewrite drop_0.
    rewrite (take_app_length' (le_u32 c)) by (by rewrite length_le_u32). by rewrite le_combine_u32, u32_small.
Qed.

Lemma kind_of_u32_inv z k : kind_of_u32 z = Some k → kind_to_u32 k = z.
Proof. unfold kind_of_u32. repeat (case_match; [rewrite Z.eqb_eq in *; by intros [= <-]|]). done. Qed.

Lemma kind_of_u32_None z : kind_of_u32 z = None ↔ z < 1 ∨ 5 < z.
Proof.
  unfold kind_of_u32. repeat (case_match; [rewrite Z.eqb_eq in *; split; [done|lia]|]). rewrite !Z.eqb_neq in *.
  split; [lia|done].
Qed.

Lemma cmp_of_u32_inv z c : cmp_of_u32 z = Some c → cmp_to_u32 c = z.
Proof. unfold cmp_of_u32. repeat (case_match; [rewrite Z.eqb_eq in *; by intros [= <-]|]). done. Qed.

Lemma cmp_of_u32_None z : 0 ≤ z → cmp_of_u32 z = None ↔ 6 < z.
Proof.
  intros Hz. unfold cmp_of_u32. repeat (case_match; [rewrite Z.eqb_eq in *; split; [done|lia]|]). rewrite !Z.eqb_neq in *.
  split; [lia|done].
Qed.

(** Refused for its length, its kind or its comparison, and for nothing else. *)
Lemma request_refused b :
  matrix_deserialize_request b = None ↔
    length b ≠ REQUEST_BYTES ∨ word_at 0 b < 1 ∨ 5 < word_at 0 b ∨ 6 < word_at 37 b.
Proof.
  destruct (decide (length b = REQUEST_BYTES)) as [Hl|Hl].
  2:{ split; [by left|]. intros _. destruct (matrix_deserialize_request b) eqn:E; [|done].
      by apply request_typed_lemma in E as [_ ?]. }
  destruct (raw_request b Hl) as (kind & key & value & vcol & op & hf & thr & c & upp & loi & hii & lof & hif & gr &
    kcol & ng & lim & fcol & -> & Hk & Hc & Hd). rewrite Hd.
  destruct (word_at_raw kind key value vcol op hf thr c upp loi hii lof hif gr kcol ng lim fcol Hk Hc) as [-> ->].
  unfold in_u32 in *. pose proof (kind_of_u32_None kind) as HK. pose proof (cmp_of_u32_None c ltac:(lia)) as HC.
  destruct (kind_of_u32 kind); cbn [mbind option_bind].
  - destruct (cmp_of_u32 c); cbn [mbind option_bind].
    + split; [done|]. intros [?|[Hx|[Hx|Hx]]]; [done| | |].
      * by pose proof (proj2 HK (or_introl Hx)).
      * by pose proof (proj2 HK (or_intror Hx)).
      * by pose proof (proj2 HC Hx).
    + split; [|done]. intros _. right; right; right. by apply HC.
  - split; [|done]. intros _. right. destruct (proj1 HK eq_refl); [by left|right; by left].
Qed.

(** An accepted request encodes to the bytes it came from, but for the flags. *)
Lemma accepted_encodes b r :
  matrix_deserialize_request b = Some r → matrix_serialize_request r = canonical b.
Proof.
  intros H. pose proof (request_typed_lemma b r H) as [_ Hl].
  destruct (raw_request b Hl) as (kind & key & value & vcol & op & hf & thr & c & upp & loi & hii & lof & hif & gr &
    kcol & ng & lim & fcol & -> & Hk & Hc & Hd). rewrite Hd in H. rewrite canonical_raw.
  destruct (kind_of_u32 kind) as [k|] eqn:Ek; [|done]. destruct (cmp_of_u32 c) as [c'|] eqn:Ec; [|done].
  cbn [mbind option_bind] in H. injection H as <-. apply kind_of_u32_inv in Ek. apply cmp_of_u32_inv in Ec.
  unfold matrix_serialize_request, raw_bytes.
  cbn [rq_kind rq_key rq_value rq_query value_col agg has_filter threshold cmp upper lo_i64 hi_i64 lo_f64 hi_f64 grouped
       key_col num_groups limit filter_col].
  rewrite Ek, Ec, agg_to_of_u32, !put_bool_flag, <- ?app_assoc. cbn [app].
  by rewrite !le_u64_i64.
Qed.

(** Only whether a flag is zero matters. *)
Lemma canonical_decodes b :
  length b = REQUEST_BYTES → matrix_deserialize_request (canonical b) = matrix_deserialize_request b.
Proof.
  intros Hl.
  destruct (raw_request b Hl) as (kind & key & value & vcol & op & hf & thr & c & upp & loi & hii & lof & hif & gr &
    kcol & ng & lim & fcol & -> & Hk & Hc & Hd). rewrite canonical_raw, !Hd, !flag_zero. done.
Qed.

Lemma read_u64s_app xs r :
  Forall in_u64 xs → read_u64s (length xs) (concat (map le_u64 xs) ++ r) = Some (xs, r).
Proof.
  induction 1 as [|x xs Hx _ IH]; [done|]. cbn [length map concat read_u64s].
  rewrite <- app_assoc, fread_u64_app, u64_small by done. cbn [mbind option_bind]. by rewrite IH.
Qed.

Lemma length_u64s xs : length (concat (map le_u64 xs)) = (8 * length xs)%nat.
Proof. induction xs as [|x xs IH]; [done|]. cbn [map concat length]. rewrite length_app, IH, length_le_u64. lia. Qed.

Definition response_wf (r : MatrixResponse) : Prop :=
  in_u32 (rs_status r) ∧ Forall in_u64 (rs_results r) ∧ Z.of_nat (length (rs_results r)) ≤ MAX_RESULTS.

Lemma MAX_RESULTS_eq : MAX_RESULTS = 2 ^ 28.
Proof. reflexivity. Qed.

Lemma response_decodes r : response_wf r → matrix_deserialize_response (matrix_serialize_response r) = Some r.
Proof.
  intros (Hs & Hr & Hn). unfold matrix_deserialize_response, matrix_serialize_response. rewrite MAX_RESULTS_eq in *.
  rewrite fread_u32_app. cbn [mbind option_bind]. rewrite fread_u64_app. cbn [mbind option_bind].
  rewrite u64_small by (unfold in_u64; lia). rewrite (proj2 (Z.ltb_ge _ _)) by done. rewrite length_u64s.
  rewrite (proj2 (Z.eqb_eq _ _)) by lia. cbn [negb]. rewrite Nat2Z.id.
  rewrite <- (app_nil_r (concat _)), read_u64s_app by done. cbn [mbind option_bind end_of].
  rewrite u32_small by done. by destruct r.
Qed.

Lemma read_u64s_inv n : ∀ r xs r', read_u64s n r = Some (xs, r') →
  r = concat (map le_u64 xs) ++ r' ∧ length xs = n ∧ Forall in_u64 xs.
Proof.
  induction n as [|n IH]; intros r xs r' H; cbn [read_u64s] in H; [by injection H as <- <-|].
  destruct (fread_u64 r) as [[x r1]|] eqn:E; [|done]. cbn [mbind option_bind] in H.
  destruct (read_u64s n r1) as [[ys r2]|] eqn:E2; [|done]. injection H as <- <-.
  apply IH in E2 as (-> & <- & Hf). pose proof (fread_u64_range _ _ _ E) as [Hx _].
  unfold fread_u64 in E. destruct (fread 8 r) as [[b r3]|] eqn:E3; [|done]. injection E as <- ->.
  apply fread_Some in E3 as [-> Hb]. split; [|split; [done|by constructor]].
  cbn [map concat]. change (le_u64 (le_combine b)) with (le_split 8 (le_combine b)). rewrite (split_le_combine' b 8 Hb). by rewrite <- app_assoc.
Qed.

(** The response format is canonical. *)
Lemma response_encodes b r : matrix_deserialize_response b = Some r → matrix_serialize_response r = b ∧ response_wf r.
Proof.
  unfold matrix_deserialize_response. destruct (fread_u32 b) as [[st r1]|] eqn:E1; [|done]. cbn [mbind option_bind].
  destruct (fread_u64 r1) as [[n r2]|] eqn:E2; [|done]. cbn [mbind option_bind].
  destruct (Z.ltb_spec MAX_RESULTS n); [done|]. destruct (Z.eqb_spec (Z.of_nat (length r2)) (n * 8)) as [Hl|]; [|done].
  cbn [negb]. destruct (read_u64s (Z.to_nat n) r2) as [[xs r3]|] eqn:E3; [|done]. cbn [mbind option_bind].
  destruct r3; [|done]. intros [= <-]. apply read_u64s_inv in E3 as (-> & Hlen & Hf).
  pose proof (fread_u32_range _ _ _ E1) as [Hst _]. pose proof (fread_u64_range _ _ _ E2) as [Hn _].
  split; [|split; [done|]; split; [done|]; cbn; unfold in_u64 in Hn; lia].
  unfold matrix_serialize_response. cbn [rs_status rs_results]. rewrite Hlen, Z2Nat.id by (unfold in_u64 in Hn; lia).
  apply fread_u32_Some in E1 as (b1 & -> & Hb1 & ->). unfold le_u32. rewrite (split_le_combine' b1 4 Hb1).
  unfold fread_u64 in E2. destruct (fread 8 r1) as [[b2 r4]|] eqn:E4; [|done]. injection E2 as <- ->.
  apply fread_Some in E4 as [-> Hb2]. change (le_u64 (le_combine b2)) with (le_split 8 (le_combine b2)). rewrite (split_le_combine' b2 8 Hb2). by rewrite app_nil_r.
Qed.

(** ** Lemmas: authentication *)

Lemma lxor_zero a b : 0 ≤ a → 0 ≤ b → Z.lxor a b = 0 → a = b.
Proof. intros _ _. apply Z.lxor_eq. Qed.

Lemma xor_bytes_zero a : ∀ b diff,
  String.length a = String.length b → (xor_bytes diff a b = 0 ↔ diff = 0 ∧ a = b).
Proof.
  induction a as [|c a IH]; intros [|d b] diff Hl; [cbn; tauto|done|done|].
  cbn [xor_bytes]. rewrite IH by (by injection Hl). rewrite Z.lor_eq_0_iff, Z.lxor_eq_0_iff. split.
  - intros [[H1 H2] ->]. split; [done|]. f_equal. apply Nat2Z.inj in H2.
    by rewrite <- (ascii_nat_embedding c), H2, ascii_nat_embedding.
  - intros [H1 [= -> ->]]. done.
Qed.

Lemma timing_safe_equal_eq a b : timing_safe_equal a b = bool_decide (a = b).
Proof.
  unfold timing_safe_equal. destruct (Nat.eqb_spec (String.length a) (String.length b)) as [Hl|Hl]; cbn [negb].
  - destruct (Z.eqb_spec (xor_bytes 0 a b) 0) as [H|H].
    + apply xor_bytes_zero in H as [_ ->]; [|done]. by rewrite bool_decide_true.
    + rewrite bool_decide_false; [done|]. intros ->. apply H. by apply xor_bytes_zero.
  - rewrite bool_decide_false; [done|]. by intros ->.
Qed.

Lemma last_match token (a : list (string * Z)) : ∀ found,
  fold_left (λ found tp, if timing_safe_equal token tp.1 then Some tp.2 else found) a found =
  match last (filter (λ tp, tp.1 = token) a) with Some tp => Some tp.2 | None => found end.
Proof.
  induction a as [|[t p] a IH]; intros found; [done|]. cbn [fold_left fst snd]. rewrite IH, timing_safe_equal_eq.
  rewrite filter_cons. cbn [fst]. destruct (decide (t = token)) as [->|Hne].
  - rewrite bool_decide_true by done. rewrite last_cons. by destruct (last (filter _ a)).
  - rewrite bool_decide_false by (by intros ->). done.
Qed.

(** ** Lemmas: dispatch *)

Section dispatching.
Context `{!HashOrder Z}.

Lemma serve_authorized policy principal ns r s :
  request_wf r → authorized policy principal r = true →
  matrix_serve policy principal ns (matrix_serialize_request r) s =
    ('(resp, s') ← dispatch ns r s; Ret (matrix_serialize_response resp, s')).
Proof.
  intros Hr Ha. unfold matrix_serve, serve_core. rewrite request_roundtrip_lemma, Ha by done. cbn [negb].
  by destruct (dispatch ns r s) as [[]|].
Qed.

Definition plain_request (k : ReqKind) (key value : Z) : MatrixRequest := mkRequest k key value default_query.

Lemma plain_request_wf k key value : in_u64 key → in_u64 value → request_wf (plain_request k key value).
Proof.
  intros Hk Hv. split; [done|]. split; [done|].
  split; cbn; unfold in_u64, in_u32, in_i64, INT64_MIN, INT64_MAX, F64_ZERO; try lia; done.
Qed.

Lemma put_one_run wal key value ps :
  ps_durable wal ps → in_txn_ ps = false → in_u64 key → in_u64 value →
  fits (<[key := value]> (kv_map (kv_ ps))) → (40 ≤ fs_room (ps_fs ps))%nat →
  ∃ ps', put_one key value ps = Ret ps' ∧ ps_durable wal ps' ∧ in_txn_ ps' = false ∧
    kv_map (kv_ ps') = <[key := value]> (kv_map (kv_ ps)).
Proof.
  intros Hd Ht Hk Hv Hfit Hroom. unfold put_one, begin_, txn_put. rewrite Ht. cbn [negb assert_ mbind outcome_bind].
  cbn [in_txn_ with_txn assert_ mbind outcome_bind].
  match goal with |- context [commit ?p] => set (ps1 := p) end.
  assert (ps_durable wal ps1) as Hd1.
  { destruct Hd as [[] ? ? ? ?]. by split. }
  destruct (commit_run wal ps1 Hd1) as (ps2 & H1 & H2 & H3 & H4 & _).
  - done.
  - apply Forall_singleton. done.
  - exact Hfit.
  - cbn. lia.
  - exists ps2. done.
Qed.

Lemma get_run wal ps k : ps_durable wal ps → kv_get (kv_ ps) k = Ret (kv_map (kv_ ps) !! k).
Proof. intros Hd. apply kv_get_spec, (pd_inv _ _ Hd). Qed.

(** ** Theorems *)

(** C24: Requests and responses survive the wire.  A request whose fields fit their
    types is decoded to itself; bytes decode to a response exactly when they are
    the encoding of one within the result limit. *)
Theorem wire_roundtrip r :
  request_wf r →
  matrix_deserialize_request (matrix_serialize_request r) = Some r ∧
  ∀ b resp, matrix_deserialize_response b = Some resp ↔ response_wf resp ∧ b = matrix_serialize_response resp.
Proof.
  intros Hr. split; [by apply request_roundtrip_lemma|]. intros b resp. split.
  - intros H. apply response_encodes in H as [<- ?]. done.
  - intros [H ->]. by apply response_decodes.
Qed.

(** C35: Which bytes are a request, and which.  A request is refused for its length,
    for a kind that is not 1 to 5 or for a comparison above BETWEEN, and for
    nothing else; bytes are accepted as a request exactly when they are its
    encoding, except that any flag byte but zero means true; and an accepted
    request has every field in the range of its type. *)
Theorem accepted_request_typed b :
  (matrix_deserialize_request b = None ↔
    length b ≠ REQUEST_BYTES ∨ word_at 0 b < 1 ∨ 5 < word_at 0 b ∨ 6 < word_at 37 b) ∧
  ∀ r, matrix_deserialize_request b = Some r ↔
    length b = REQUEST_BYTES ∧ request_wf r ∧ matrix_serialize_request r = canonical b.
Proof.
  split; [apply request_refused|]. intros r. split.
  - intros H. pose proof (request_typed_lemma b r H) as [Hwf Hl]. split; [done|]. split; [done|]. by apply accepted_encodes.
  - intros (Hl & Hwf & He). rewrite <- canonical_decodes, <- He by done. by apply request_roundtrip_lemma.
Qed.

(** C25: A principal that was granted nothing learns and changes nothing: except for
    the two operational probes, what it sends, well formed or not, gets an
    answer that does not depend on the server's state and leaves it as it was. *)
Theorem ungranted_learns_nothing policy principal ns b :
  pol_allow_all policy = false → pol_cols policy !! principal = None →
  principal ∉ pol_read policy → principal ∉ pol_write policy →
  (∀ r, matrix_deserialize_request b = Some r → rq_kind r ≠ HEALTH ∧ rq_kind r ≠ STATS) →
  ∃ status entry, (status = ERR_BADREQUEST ∨ status = ERR_FORBIDDEN) ∧
    ∀ s, serve_core policy principal ns b s = Ret ((matrix_serialize_response (mkResponse status []), entry), s).
Proof.
  intros Ha Hc Hr Hw Hkind. unfold serve_core. destruct (matrix_deserialize_request b) as [r|] eqn:E; [|by eauto 10].
  destruct (Hkind r eq_refl) as [H1 H2].
  assert (authorized policy principal r = false) as ->; [|by eauto 10].
  unfold authorized, can_query, can_read, can_write. rewrite Ha, Hc, !bool_decide_false by done.
  by destruct (rq_kind r).
Qed.

(** [authenticate] is lookup of the last credential with that token; comparing
    every byte of every credential changes nothing of the result. *)
Theorem authenticate_is_lookup token (a : list (string * Z)) :
  authenticate token a =
    if decide (token = EmptyString) then None else snd <$> last (filter (λ tp, tp.1 = token) a).
Proof.
  unfold authenticate. destruct (String.eqb_spec token EmptyString) as [->|Hne].
  - by rewrite decide_True.
  - rewrite decide_False by done. rewrite last_match. by destruct (last _).
Qed.

(** A PUT over the wire is durable when it is answered, and every later GET of
    a principal that may read sees it and every other key as before. *)
Theorem put_then_get wal policy writer reader ns key value s :
  ps_durable wal (sv_points s) → in_txn_ (sv_points s) = false → in_u64 key → in_u64 value →
  fits (<[key := value]> (kv_map (kv_ (sv_points s)))) → (40 ≤ fs_room (ps_fs (sv_points s)))%nat →
  can_write policy writer = true → can_read policy reader = true →
  ∃ s', matrix_serve policy writer ns (matrix_serialize_request (plain_request PUT key value)) s =
          Ret (matrix_serialize_response (mkResponse SERVER_OK []), s') ∧
    ps_durable wal (sv_points s') ∧ in_txn_ (sv_points s') = false ∧ sv_engine s' = sv_engine s ∧
    ∀ k, in_u64 k →
      matrix_serve policy reader ns (matrix_serialize_request (plain_request GET k 0)) s' =
        Ret (matrix_serialize_response (mkResponse SERVER_OK
               (option_list (if decide (k = key) then Some value else kv_map (kv_ (sv_points s)) !! k))), s').
Proof.
  intros Hd Ht Hk Hv Hfit Hroom Hw Hrd.
  destruct (put_one_run wal key value (sv_points s) Hd Ht Hk Hv Hfit Hroom) as (ps' & Hput & Hd' & Ht' & Hm).
  exists (mkServer (sv_engine s) ps'). split; [|split; [done|split; [done|split; [done|]]]].
  - rewrite serve_authorized by (by apply plain_request_wf || exact Hw). unfold dispatch.
    cbn [rq_kind plain_request rq_key rq_value]. rewrite Hput. done.
  - intros k Hk64. rewrite serve_authorized by (by apply plain_request_wf || exact Hrd). unfold dispatch.
    cbn [rq_kind plain_request rq_key sv_points]. rewrite (get_run wal ps' k Hd'), Hm. cbn [mbind outcome_bind].
    rewrite lookup_insert. destruct (decide (key = k)), (decide (k = key)); try congruence; [done|].
    by destruct (kv_map (kv_ (sv_points s)) !! k).
Qed.

(** C9: An authorised QUERY is answered with the status and the values that the
    specification [query_ref] gives for the logical columns; the point store and
    every column stay as they were. *)
Theorem query_over_the_wire policy principal ns q s :
  query_wf q → authorized policy principal (mkRequest QUERY 0 0 q) = true →
  engine_wf (sv_engine s) → calm (sv_engine s) →
  match query_ref (view (sv_engine s)) q with
  | Ret (st, out) =>
      ∃ s', matrix_serve policy principal ns (matrix_serialize_request (mkRequest QUERY 0 0 q)) s =
              Ret (matrix_serialize_response (mkResponse (status_to_u32 st) out), s') ∧
        engine_wf (sv_engine s') ∧ view (sv_engine s') = view (sv_engine s) ∧ sv_points s' = sv_points s
  | Crash f => matrix_serve policy principal ns (matrix_serialize_request (mkRequest QUERY 0 0 q)) s = Crash f
  end.
Proof.
  intros Hq Ha Hwf Hc. assert (request_wf (mkRequest QUERY 0 0 q)) as Hr.
  { split; [cbn; unfold in_u64; lia|]. split; [cbn; unfold in_u64; lia|done]. }
  rewrite serve_authorized by done.
  unfold dispatch. cbn [rq_kind rq_query]. unfold on_engine.
  pose proof (execute_query_run q ns (sv_engine s) Hwf Hc) as H. destruct (query_ref (view (sv_engine s)) q) as [[st out]|f].
  - destruct H as (e' & -> & Hwf' & Hv & _). by exists (mkServer e' (sv_points s)).
  - by rewrite H.
Qed.

(** Every request served with an audit log adds exactly one entry, with the
    principal and the status that was sent; a malformed request is recorded with
    kind 0.  The entry carries the key and the value column of the request
    whatever its kind. *)
Theorem audit_records_every_request policy principal ns b log s resp log' s' :
  matrix_serve_audited policy principal ns b log s = Ret ((resp, log'), s') →
  matrix_serve policy principal ns b s = Ret (resp, s') ∧
  ∃ entry, log' = log ++ [entry] ∧ au_principal entry = principal ∧ take 4 resp = le_u32 (au_status entry) ∧
    match matrix_deserialize_request b with
    | None => au_kind entry = 0 ∧ au_status entry = ERR_BADREQUEST
    | Some r => au_kind entry = kind_to_u32 (rq_kind r) ∧ au_key entry = rq_key r ∧ au_column entry = value_col (rq_query r)
    end.
Proof.
  unfold matrix_serve_audited, matrix_serve. destruct (serve_core policy principal ns b s) as [[[rs en] s1]|] eqn:E; [|done].
  cbn [mbind outcome_bind]. intros [= <- <- <-]. split; [done|]. exists en. split; [done|].
  unfold serve_core in E. assert (∀ r, take 4 (matrix_serialize_response r) = le_u32 (rs_status r)) as Htake.
  { intros r. unfold matrix_serialize_response. apply take_app_length'. by rewrite length_le_u32. }
  destruct (matrix_deserialize_request b) as [r|].
  - destruct (authorized policy principal r); cbn [negb] in E.
    + destruct (dispatch ns r s) as [[rsp s2]|]; [|done]. injection E as <- <- <-. by rewrite Htake.
    + injection E as <- <- <-. by rewrite Htake.
  - injection E as <- <- <-. by rewrite Htake.
Qed.

End dispatching.

(** ** The filter column is not authorised *)

Definition two_columns (a b : list Z) : Engine :=
  match (e ← load_scan_column 1 a sample0; load_scan_column 2 b e) with Ret e => e | Crash _ => sample0 end.

Definition one_column_policy : AccessPolicy := allow_column 5 1 no_access.

(** COUNT of column 1 where column 2 is 1. *)
Definition spy_query : MatrixQuery :=
  {| value_col := 1; agg := AGG_COUNT; has_filter := true; threshold := 1; cmp := EQ;
     upper := 0; lo_i64 := 0; hi_i64 := 0; lo_f64 := F64_ZERO; hi_f64 := F64_ZERO;
     grouped := false; key_col := 0; num_groups := 0; limit := 0; filter_col := 2 |}.

Definition spy (b : list Z) (ps : PointStore) : option (list byte) :=
  match matrix_serve (HashOrder0 := elements_order) one_column_policy 5 0
          (matrix_serialize_request (mkRequest QUERY 0 0 spy_query)) (mkServer (two_columns [5; 7; 9] b) ps) with
  | Ret (resp, _) => Some resp
  | Crash _ => None
  end.

(** A principal that may query column 1 only can still read column 2 through
    the filter of a cross-column query: the dispatcher authorises the value and
    the key column but not the filter column, and the answer counts the rows of
    column 2 that the caller asks about. *)
Theorem filter_column_not_authorised ps :
  can_query one_column_policy 5 2 = false ∧
  authorized one_column_policy 5 (mkRequest QUERY 0 0 spy_query) = true ∧
  spy [0; 1; 0] ps = Some (matrix_serialize_response (mkResponse SERVER_OK [1])) ∧
  spy [1; 1; 0] ps = Some (matrix_serialize_response (mkResponse SERVER_OK [2])).
Proof. repeat split; vm_compute; reflexivity. Qed.

(** ** Witnesses *)

Definition sample_request : MatrixRequest := mkRequest QUERY 3 4 sum_query.

Lemma sum_query_wf : query_wf sum_query.
Proof. split; cbn; unfold in_u64, in_u32, in_i64, INT64_MIN, INT64_MAX, F64_ZERO; try lia; done. Qed.

Lemma wire_roundtrip_witness :
  matrix_deserialize_request (matrix_serialize_request sample_request) = Some sample_request ∧
  matrix_deserialize_response (matrix_serialize_response (mkResponse 0 [16])) = Some (mkResponse 0 [16]).
Proof.
  destruct (wire_roundtrip sample_request) as [H1 H2].
  - split; [unfold in_u64; cbn; lia|]. split; [unfold in_u64; cbn; lia|exact sum_query_wf].
  - split; [exact H1|]. apply (proj2 (H2 _ _)). split; [|reflexivity].
    split; [unfold in_u32; cbn; lia|]. split; [repeat constructor; unfold in_u64; lia|vm_compute; discriminate].
Defined.

(** A flag of 7 is read as true; a kind of 9 is refused. *)
Example flag_of_seven :
  let b := matrix_serialize_request sample_request in
  matrix_deserialize_request (<[32%nat := Byte.x07]> b) = Some sample_request ∧
  matrix_deserialize_request (<[0%nat := Byte.x09]> b) = None.
Proof. split; vm_compute; reflexivity. Qed.

Lemma ungranted_learns_nothing_witness :
  ∃ status entry, ∀ s, serve_core (HashOrder0 := elements_order) one_column_policy 6 0
    (matrix_serialize_request sample_request) s = Ret ((matrix_serialize_response (mkResponse status []), entry), s).
Proof.
  destruct (ungranted_learns_nothing (HashOrder0 := elements_order) one_column_policy 6 0
    (matrix_serialize_request sample_request)) as (st & en & _ & H).
  - reflexivity.
  - vm_compute. reflexivity.
  - cbn. set_solver.
  - cbn. set_solver.
  - assert (matrix_deserialize_request (matrix_serialize_request sample_request) = Some sample_request) as E
      by (vm_compute; reflexivity).
    rewrite E. intros r [= <-]. split; discriminate.
  - exists st, en. exact H.
Defined.

Lemma put_then_get_witness :
  let s := mkServer sample (open_txn [] false) in
  ∃ s', matrix_serve (HashOrder0 := elements_order) permissive 0 0 (matrix_serialize_request (plain_request PUT 7 70)) s =
          Ret (matrix_serialize_response (mkResponse SERVER_OK []), s') ∧
    matrix_serve (HashOrder0 := elements_order) permissive 0 0 (matrix_serialize_request (plain_request GET 7 0)) s' =
      Ret (matrix_serialize_response (mkResponse SERVER_OK [70]), s').
Proof.
  intros s. destruct (put_then_get (HashOrder0 := elements_order) "wal" permissive 0 0 0 7 70 s) as (s' & H1 & _ & _ & _ & H2).
  - apply open_txn_durable.
  - reflexivity.
  - unfold in_u64. lia.
  - unfold in_u64. lia.
  - change (sv_points s) with (open_txn [] false). rewrite open_txn_map. vm_compute. discriminate.
  - cbn. lia.
  - reflexivity.
  - reflexivity.
  - exists s'. split; [exact H1|]. apply (H2 7). unfold in_u64. lia.
Defined.

Definition sample_server : Server := mkServer sample (open_txn [] false).

Lemma query_over_the_wire_witness :
  ∃ s', matrix_serve (HashOrder0 := elements_order) (allow_column 5 1 no_access) 5 0
          (matrix_serialize_request (mkRequest QUERY 0 0 sum_query)) sample_server =
        Ret (matrix_serialize_response (mkResponse SERVER_OK [16]), s').
Proof.
  pose proof (query_over_the_wire (HashOrder0 := elements_order) (allow_column 5 1 no_access) 5 0 sum_query
    sample_server sum_query_wf) as H.
  assert (query_ref (view sample) sum_query = Ret (OK, [16])) as E by (vm_compute; reflexivity).
  change (sv_engine sample_server) with sample in H. rewrite E in H.
  destruct H as (s' & H & _); [vm_compute; reflexivity|exact sample_wf|exact sample_calm|]. exists s'. exact H.
Defined.

Lemma audit_records_every_request_witness :
  matrix_serve (HashOrder0 := elements_order) permissive 9 0 [] sample_server =
    Ret (matrix_serialize_response (mkResponse ERR_BADREQUEST []), sample_server).
Proof.
  apply (audit_records_every_request (HashOrder0 := elements_order) permissive 9 0 [] [] sample_server _
    [mkAudit 9 0 ERR_BADREQUEST 0 0]). reflexivity.
Defined.
