(* ===== verification/ServerTcp.v ===== *)
(** * ServerTcp: framing requests over a byte stream

    [server_tcp.hpp]: [recv_all] and [send_all] loop over partial transfers,
    every message is a 32-bit length and that many bytes, and a connection
    serves frames until one cannot be read or written.  The socket is what the
    kernel does with it: the chunks that successive [recv]s find (an empty one
    is the end of the stream, or a timeout), and how many bytes each [send]
    takes.  Listener has the accept loops and the threads. *)

From S2P Require Export Server.

(** ** Sockets *)

Record Socket := mkSocket {
  so_in : list (list byte);          (* what each recv finds *)
  so_takes : nat → nat;              (* what the k-th send takes; 0 is an error *)
  so_sends : nat;                    (* sends so far *)
  so_out : list byte                 (* bytes the peer was sent *)
}.

Definition with_in (chunks : list (list byte)) (so : Socket) : Socket :=
  mkSocket chunks (so_takes so) (so_sends so) (so_out so).

Definition recv (n : nat) (so : Socket) : option (list byte * Socket) :=
  match so_in so with
  | [] | [] :: _ => None
  | c :: cs => Some (take n c, with_in (match drop n c with [] => cs | c' => c' :: cs end) so)
  end.

Definition send (b : list byte) (so : Socket) : nat * Socket :=
  let n := Nat.min (length b) (so_takes so (so_sends so)) in
  (n, mkSocket (so_in so) (so_takes so) (S (so_sends so)) (so_out so ++ take n b)).

(** A turn of either loop transfers a byte, so [n] turns are enough. *)
Fixpoint recv_loop (fuel n : nat) (so : Socket) : option (list byte * Socket) :=
  if (n =? 0)%nat then Some ([], so)
  else match fuel with
       | O => None
       | S f =>
           '(b, so) ← recv n so;
           '(rest, so) ← recv_loop f (n - length b) so;
           Some (b ++ rest, so)
       end.

Definition recv_all (n : nat) (so : Socket) : option (list byte * Socket) := recv_loop n n so.

Fixpoint send_loop (fuel : nat) (b : list byte) (so : Socket) : bool * Socket :=
  match b with
  | [] => (true, so)
  | _ =>
      match fuel with
      | O => (false, so)
      | S f => let '(n, so) := send b so in if (n =? 0)%nat then (false, so) else send_loop f (drop n b) so
      end
  end.

Definition send_all (b : list byte) (so : Socket) : bool * Socket := send_loop (length b) b so.

(** ** Frames *)

Definition FRAME_CAP : Z := Z.shiftl 1 28.
Definition TOKEN_CAP : Z := 4096.

(** [u32 len][len bytes]; a length above the cap is refused before it is read. *)
Definition recv_frame (cap : Z) (so : Socket) : option (list byte * Socket) :=
  '(l, so) ← recv_all 4 so;
  let len := le_combine l in
  if cap <? len then None else recv_all (Z.to_nat len) so.

Definition send_frame (b : list byte) (so : Socket) : bool * Socket :=
  let len := u32 (Z.of_nat (length b)) in
  let '(ok, so) := send_all (le_u32 len) so in
  if (ok : bool) then send_all (take (Z.to_nat len) b) so else (false, so).

(** ** Connections *)

Section connection.
Context `{!HashOrder Z}.

(** [None] is [false]: the connection is dropped. *)
Definition serve_frame (serve : list byte → stM Server (list byte)) (so : Socket) : stM Server (bool * Socket) := λ s,
  match recv_frame FRAME_CAP so with
  | None => Ret ((false, so), s)
  | Some (req, so) => '(resp, s) ← serve req s; Ret (send_frame resp so, s)
  end.

Definition matrix_serve_conn (policy : AccessPolicy) (principal ns : Z) (so : Socket) : stM Server (bool * Socket) :=
  serve_frame (matrix_serve policy principal ns) so.

Definition authenticate_conn (auth : Authenticator) (so : Socket) : option (Z * Socket) :=
  '(token, so) ← recv_frame TOKEN_CAP so;
  principal ← authenticate (text_of token) auth;
  Some (principal, so).

(** [while (matrix_serve_conn(...)) {}] for any way to serve a request; the k-th
    query reads the clock as [clock k].  A served frame uses up four bytes of
    input at least. *)
Fixpoint serve_loop (serve : Z → list byte → stM Server (list byte)) (fuel k : nat) (clock : nat → Z) (so : Socket) :
    stM Server Socket := λ s,
  match fuel with
  | O => Ret (so, s)
  | S f =>
      '((ok, so), s) ← serve_frame (serve (clock k)) so s;
      if (ok : bool) then serve_loop serve f (S k) clock so s else Ret (so, s)
  end.

Definition pending (so : Socket) : nat := length (concat (so_in so)).

Definition serve_until_closed (serve : Z → list byte → stM Server (list byte)) (clock : nat → Z) (so : Socket) :
    stM Server Socket :=
  serve_loop serve (S (pending so)) 0 clock so.

Definition matrix_serve_conn_auth (clock : nat → Z) (policy : AccessPolicy) (auth : Authenticator) (so : Socket) :
    stM Server (bool * Socket) := λ s,
  match authenticate_conn auth so with
  | None => Ret ((false, so), s)
  | Some (principal, so) => '(so, s) ← serve_until_closed (matrix_serve policy principal) clock so s; Ret ((true, so), s)
  end.

End connection.

(** ** Lemmas: transfers *)

(** The bytes that can still be received: those before the end of the stream. *)
Fixpoint data_of (chunks : list (list byte)) : list byte :=
  match chunks with
  | [] | [] :: _ => []
  | c :: cs => c ++ data_of cs
  end.

Definition data (so : Socket) : list byte := data_of (so_in so).

(** The socket after receiving, up to how the rest is chunked. *)
Definition received (so : Socket) (rest : list byte) (so' : Socket) : Prop :=
  data so' = rest ∧ so_takes so' = so_takes so ∧ so_sends so' = so_sends so ∧ so_out so' = so_out so ∧
  (pending so' ≤ pending so)%nat.

Lemma data_of_cons c cs : c ≠ [] → data_of (c :: cs) = c ++ data_of cs.
Proof. by destruct c. Qed.

Lemma recv_spec n so :
  (0 < n)%nat →
  match recv n so with
  | None => data so = []
  | Some (b, so') =>
      b = take (length b) (data so) ∧ (0 < length b ≤ n)%nat ∧ (length b ≤ length (data so))%nat ∧
      received so (drop (length b) (data so)) so' ∧ (pending so' + length b = pending so)%nat
  end.
Proof.
  intros Hn. unfold recv. destruct so as [[|c cs] takes sends out]; [done|]. cbn [so_in].
  destruct (decide (c = [])) as [->|Hc]; [done|].
  assert (0 < length c)%nat as Hpos by (destruct c; [done|cbn; lia]).
  destruct c as [|x c0]; [done|]. remember (x :: c0) as c eqn:Ec. clear Ec x c0.
  unfold received, pending, data. cbn [so_in with_in so_takes so_sends so_out]. rewrite data_of_cons by done.
  cbn [concat]. rewrite !length_app, length_take.
  destruct (decide (length c ≤ n)%nat) as [Hle|Hgt].
  - rewrite (drop_ge c n) by done. rewrite Nat.min_r, take_app_length, drop_app_length, (take_ge c n) by done.
    repeat split; try done; lia.
  - assert (drop n c ≠ []) as Hd.
    { intros H. apply (f_equal length) in H. rewrite length_drop in H. cbn in H. lia. }
    assert (match drop n c with [] => cs | c' => c' :: cs end = drop n c :: cs) as -> by (by destruct (drop n c)).
    rewrite Nat.min_l, take_app_le, drop_app_le, data_of_cons by (done || lia). cbn [concat].
    rewrite length_app, length_drop. repeat split; try done; lia.
Qed.

Lemma received_none so :
  (0 ≤ length (data so))%nat ∧ [] = take 0 (data so) ∧ received so (drop 0 (data so)) so ∧ (pending so + 0 = pending so)%nat.
Proof. rewrite drop_0, take_0. split; [lia|]. split; [done|]. split; [by unfold received|lia]. Qed.

Lemma recv_loop_spec fuel : ∀ n so,
  (n ≤ fuel)%nat →
  match recv_loop fuel n so with
  | None => (length (data so) < n)%nat
  | Some (b, so') => (n ≤ length (data so))%nat ∧ b = take n (data so) ∧ received so (drop n (data so)) so' ∧
      (pending so' + n = pending so)%nat
  end.
Proof.
  induction fuel as [|f IH]; intros n so Hf.
  - assert (n = 0)%nat as -> by lia. apply received_none.
  - cbn [recv_loop]. destruct (Nat.eqb_spec n 0) as [->|Hn].
    + apply received_none.
    + pose proof (recv_spec n so ltac:(lia)) as H. destruct (recv n so) as [[b so1]|]; cbn [mbind option_bind].
      2:{ rewrite H. cbn. lia. }
      destruct H as (Hb & Hl & Hld & (H1 & H2 & H3 & H4 & H5) & H6).
      specialize (IH (n - length b)%nat so1 ltac:(lia)). rewrite H1 in IH.
      destruct (recv_loop f (n - length b) so1) as [[rest so2]|]; cbn [mbind option_bind].
      * destruct IH as (J1 & J2 & (K1 & K2 & K3 & K4 & K5) & J4). rewrite length_drop in J1.
        split; [lia|]. split; [|split; [|lia]].
        -- replace n with (length b + (n - length b))%nat at 1 by lia. rewrite <- take_take_drop. by f_equal.
        -- unfold received. rewrite K1, drop_drop. replace (length b + (n - length b))%nat with n by lia.
           split; [done|]. split; [congruence|]. split; [congruence|]. split; [congruence|lia].
      * rewrite length_drop in IH. lia.
Qed.

Lemma recv_all_spec n so :
  match recv_all n so with
  | None => (length (data so) < n)%nat
  | Some (b, so') => (n ≤ length (data so))%nat ∧ b = take n (data so) ∧ received so (drop n (data so)) so' ∧
      (pending so' + n = pending so)%nat
  end.
Proof. by apply recv_loop_spec. Qed.

(** The socket after sending [b]. *)
Definition sent (so : Socket) (b : list byte) (so' : Socket) : Prop :=
  so_in so' = so_in so ∧ so_takes so' = so_takes so ∧ so_out so' = so_out so ++ b.

Lemma send_loop_spec fuel : ∀ b so,
  (length b ≤ fuel)%nat → (∀ k, 0 < so_takes so k)%nat →
  ∃ so', send_loop fuel b so = (true, so') ∧ sent so b so'.
Proof.
  induction fuel as [|f IH]; intros b so Hf Ht.
  - destruct b; [|cbn in Hf; lia]. exists so. split; [done|]. split; [done|]. split; [done|]. by rewrite app_nil_r.
  - destruct b as [|x b]; [exists so; split; [done|]; split; [done|]; split; [done|]; by rewrite app_nil_r|].
    set (b0 := x :: b) in *. change (send_loop (S f) b0 so) with
      (let '(n, so) := send b0 so in if (n =? 0)%nat then (false, so) else send_loop f (drop n b0) so).
    unfold send. pose proof (Ht (so_sends so)). assert (0 < length b0)%nat by (cbn; lia).
    destruct (Nat.eqb_spec (Nat.min (length b0) (so_takes so (so_sends so))) 0); [lia|].
    match goal with |- context [send_loop f _ ?s] => set (so1 := s) end.
    destruct (IH (drop (Nat.min (length b0) (so_takes so (so_sends so))) b0) so1) as (so' & -> & H1 & H2 & H3).
    { rewrite length_drop. lia. }
    { exact Ht. }
    exists so'. split; [done|]. split; [done|]. split; [done|]. rewrite H3. cbn [so1 so_out].
    by rewrite <- app_assoc, take_drop.
Qed.

(** ** Lemmas: frames *)

Definition frame (b : list byte) : list byte := le_u32 (Z.of_nat (length b)) ++ b.

Lemma received_trans so1 so2 so3 r2 r3 : received so1 r2 so2 → received so2 r3 so3 → received so1 r3 so3.
Proof. intros (_ & H2 & H3 & H4 & H5) (K1 & K2 & K3 & K4 & K5). split; [done|]. repeat (split; [congruence|]). lia. Qed.

Lemma recv_frame_run cap so b rest :
  data so = frame b ++ rest → Z.of_nat (length b) ≤ cap < 2 ^ 32 →
  ∃ so', recv_frame cap so = Some (b, so') ∧ received so rest so' ∧ (pending so' + 4 ≤ pending so)%nat.
Proof.
  intros Hd Hl. unfold recv_frame. pose proof (recv_all_spec 4 so) as H. rewrite Hd in H. unfold frame in H.
  destruct (recv_all 4 so) as [[l so1]|]; [|rewrite !length_app, length_le_u32 in H; lia].
  destruct H as (_ & -> & Hr1 & Hp1). rewrite <- app_assoc, take_app_length' by (by rewrite length_le_u32).
  rewrite <- app_assoc, drop_app_length' in Hr1 by (by rewrite length_le_u32).
  cbn [mbind option_bind]. rewrite le_combine_u32, u32_small by (unfold in_u32; lia).
  rewrite (proj2 (Z.ltb_ge _ _)) by lia. rewrite Nat2Z.id. pose proof (recv_all_spec (length b) so1) as H.
  rewrite (proj1 Hr1) in H. destruct (recv_all (length b) so1) as [[b2 so2]|]; [|rewrite length_app in H; lia].
  destruct H as (_ & -> & Hr2 & Hp2). rewrite take_app_length. rewrite drop_app_length in Hr2.
  exists so2. split; [done|]. split; [by eapply received_trans|lia].
Qed.

(** Nothing but the frame matters: a short or oversized frame is refused. *)
Lemma recv_frame_none cap so :
  (length (data so) < 4)%nat ∨ cap < le_combine (take 4 (data so)) ∨
    (length (data so) < 4 + Z.to_nat (le_combine (take 4 (data so))))%nat →
  recv_frame cap so = None.
Proof.
  intros H. unfold recv_frame. pose proof (recv_all_spec 4 so) as H1.
  destruct (recv_all 4 so) as [[l so1]|]; cbn [mbind option_bind]; [|done].
  destruct H1 as (H4 & -> & (Hr & _) & _). destruct (Z.ltb_spec cap (le_combine (take 4 (data so)))); [done|].
  pose proof (recv_all_spec (Z.to_nat (le_combine (take 4 (data so)))) so1) as H2.
  destruct (recv_all _ so1) as [[l2 so2]|]; [|done]. destruct H2 as (H2 & _). rewrite Hr, length_drop in H2. lia.
Qed.

Lemma send_all_run b so : (∀ k, 0 < so_takes so k)%nat → ∃ so', send_all b so = (true, so') ∧ sent so b so'.
Proof. intros H. by apply send_loop_spec. Qed.

Lemma sent_trans so1 so2 so3 a b : sent so1 a so2 → sent so2 b so3 → sent so1 (a ++ b) so3.
Proof. intros (H1 & H2 & H3) (K1 & K2 & K3). split; [congruence|]. split; [congruence|]. by rewrite K3, H3, app_assoc. Qed.

Lemma send_frame_run b so :
  (∀ k, 0 < so_takes so k)%nat → Z.of_nat (length b) < 2 ^ 32 →
  ∃ so', send_frame b so = (true, so') ∧ sent so (frame b) so'.
Proof.
  intros Ht Hl. unfold send_frame. rewrite u32_small by (unfold in_u32; lia).
  destruct (send_all_run (le_u32 (Z.of_nat (length b))) so Ht) as (so1 & -> & H1). rewrite Nat2Z.id, take_ge by lia.
  destruct (send_all_run b so1) as (so2 & -> & H2); [by rewrite (proj1 (proj2 H1))|].
  exists so2. split; [done|]. by eapply sent_trans.
Qed.

(** The same the other way round: what a frame that was received, or a send that
    may have failed, says of the socket. *)
Lemma recv_frame_some cap so b so' :
  recv_frame cap so = Some (b, so') →
  data so = frame b ++ data so' ∧ so_takes so' = so_takes so ∧ so_out so' = so_out so ∧
  (pending so' + 4 ≤ pending so)%nat.
Proof.
  unfold recv_frame. pose proof (recv_all_spec 4 so) as H4.
  destruct (recv_all 4 so) as [[l so1]|]; cbn [mbind option_bind]; [|done].
  destruct H4 as (L4 & -> & (D1 & T1 & _ & O1 & _) & P1).
  assert (length (take 4 (data so)) = 4%nat) as Hl by (rewrite length_take; lia).
  destruct (Z.ltb_spec cap (le_combine (take 4 (data so)))); [done|].
  set (len := le_combine (take 4 (data so))) in *.
  assert (0 <= len < 2 ^ 32) as Hlen by (pose proof (le_combine_bound (take 4 (data so))) as Hb; rewrite Hl in Hb; exact Hb).
  pose proof (recv_all_spec (Z.to_nat len) so1) as Hn. intros E. rewrite E in Hn.
  destruct Hn as (Ln & Eb & (D2 & T2 & _ & O2 & _) & P2). repeat split; [|congruence|congruence|lia].
  assert (Z.of_nat (length b) = len) as Hb by (rewrite Eb, length_take; lia).
  unfold frame. rewrite Hb. unfold le_u32. rewrite <- Hl at 1. unfold len. rewrite split_le_combine.
  rewrite D2, <- app_assoc, Eb, take_drop, D1. symmetry. apply take_drop.
Qed.

Lemma send_loop_prefix fuel : ∀ b so ok so', send_loop fuel b so = (ok, so') →
  so_in so' = so_in so ∧ so_takes so' = so_takes so ∧
  ∃ x, so_out so' = so_out so ++ x ∧ x `prefix_of` b ∧ (ok = true → x = b).
Proof.
  assert (∀ b so ok, (ok = true → b = []) → so_in so = so_in so ∧ so_takes so = so_takes so ∧
    ∃ x, so_out so = so_out so ++ x ∧ x `prefix_of` b ∧ (ok = true → x = b)) as Hstop.
  { intros b so ok H. split; [done|]. split; [done|]. exists []. rewrite app_nil_r. split; [done|].
    split; [apply prefix_nil|]. intros Hok. by rewrite H. }
  induction fuel as [|f IH]; intros [|x b] so ok so'; cbn [send_loop].
  - intros [= <- <-]. by apply Hstop.
  - intros [= <- <-]. by apply Hstop.
  - intros [= <- <-]. by apply Hstop.
  - unfold send. cbv zeta. set (k := Nat.min (length (x :: b)) (so_takes so (so_sends so))).
    destruct (Nat.eqb_spec k 0) as [E|E].
    + intros [= <- <-]. cbn [so_in so_takes so_out]. rewrite E, take_0, app_nil_r.
      split; [done|]. split; [done|]. exists []. rewrite app_nil_r. split; [done|]. split; [apply prefix_nil|done].
    + intros (H1 & H2 & y & H3 & H4 & H5)%IH. cbn [so_in so_takes so_out] in *.
      split; [done|]. split; [done|]. exists (take k (x :: b) ++ y).
      rewrite H3, app_assoc. split; [done|]. split.
      * rewrite <- (take_drop k (x :: b)) at 2. by apply prefix_app.
      * intros Hok. by rewrite (H5 Hok), take_drop.
Qed.

Lemma send_frame_prefix b so ok so' : send_frame b so = (ok, so') → Z.of_nat (length b) < 2 ^ 32 →
  so_in so' = so_in so ∧ so_takes so' = so_takes so ∧
  ∃ x, so_out so' = so_out so ++ x ∧ x `prefix_of` frame b ∧ (ok = true → x = frame b).
Proof.
  intros H Hl. unfold send_frame in H. rewrite u32_small in H by (unfold in_u32; lia). rewrite Nat2Z.id, take_ge in H by lia.
  destruct (send_all (le_u32 (Z.of_nat (length b))) so) as [ok1 so1] eqn:E1.
  apply send_loop_prefix in E1 as (I1 & T1 & x & O1 & P1 & F1). destruct ok1.
  - apply send_loop_prefix in H as (I2 & T2 & y & O2 & P2 & F2). split; [congruence|]. split; [congruence|].
    exists (x ++ y). rewrite O2, O1, app_assoc. split; [done|]. rewrite (F1 eq_refl). split; [by apply prefix_app|].
    intros Hok. by rewrite (F2 Hok).
  - injection H as <- <-. split; [done|]. split; [done|]. exists x. split; [done|]. split; [|done].
    unfold frame. by apply prefix_app_r.
Qed.

(** The socket itself, whatever is sent. *)
Lemma send_frame_keeps b so ok so' : send_frame b so = (ok, so') → so_in so' = so_in so ∧ so_takes so' = so_takes so.
Proof.
  unfold send_frame. destruct (send_all _ so) as [ok1 so1] eqn:E1. apply send_loop_prefix in E1 as (I1 & T1 & _).
  destruct ok1; [|by intros [= <- <-]]. intros (I2 & T2 & _)%send_loop_prefix. split; congruence.
Qed.

Lemma frame_inj a b x y :
  Z.of_nat (length (frame a ++ x)) < 2 ^ 32 → frame a ++ x = frame b ++ y → a = b ∧ x = y.
Proof.
  intros Hl H. pose proof (f_equal length H) as Hlen. unfold frame in *. rewrite <- !app_assoc in *.
  apply app_inj_1 in H as [H1 H2]; [|by rewrite !length_le_u32]. rewrite !length_app, !length_le_u32 in *.
  apply (f_equal le_combine) in H1. rewrite !le_combine_u32, !u32_small in H1 by (unfold in_u32; lia).
  apply app_inj_1 in H2; [done|lia].
Qed.

(** ** What a connection does *)

Section serving.
Context `{!HashOrder Z}.

(** Serving the requests one after the other, off the wire. *)
Fixpoint serve_each (serve : Z → list byte → stM Server (list byte)) (k : nat) (clock : nat → Z) (reqs : list (list byte)) :
    stM Server (list (list byte)) :=
  match reqs with
  | [] => mret []
  | r :: reqs' =>
      resp ← serve (clock k) r;
      resps ← serve_each serve (S k) clock reqs';
      mret (resp :: resps)
  end.

Definition frames (l : list (list byte)) : list byte := concat (map frame l).

Lemma serve_frame_run serve so req rest s resp s' :
  data so = frame req ++ rest → Z.of_nat (length req) ≤ FRAME_CAP → (∀ k, 0 < so_takes so k)%nat →
  serve req s = Ret (resp, s') → Z.of_nat (length resp) < 2 ^ 32 →
  ∃ so', serve_frame serve so s = Ret ((true, so'), s') ∧
    data so' = rest ∧ so_takes so' = so_takes so ∧ so_out so' = so_out so ++ frame resp ∧
    (pending so' + 4 ≤ pending so)%nat.
Proof.
  intros Hd Hl Ht Hs Hr. change FRAME_CAP with (2 ^ 28) in *.
  destruct (recv_frame_run (2 ^ 28) so req rest Hd ltac:(lia)) as (so1 & H1 & (R1 & R2 & R3 & R4 & R5) & Hp).
  unfold serve_frame. change FRAME_CAP with (2 ^ 28). rewrite H1, Hs. cbn [mbind outcome_bind].
  destruct (send_frame_run resp so1) as (so2 & -> & (S1 & S2 & S3)); [by rewrite R2|done|].
  exists so2. split; [done|]. split; [unfold data; by rewrite S1|]. split; [congruence|].
  split; [by rewrite S3, R4|]. unfold pending. by rewrite S1.
Qed.

Lemma serve_loop_run serve clock reqs : ∀ fuel k so s resps s' rest,
  data so = frames reqs ++ rest →
  (∀ so1, data so1 = rest → recv_frame FRAME_CAP so1 = None) →
  Forall (λ r, Z.of_nat (length r) ≤ FRAME_CAP) reqs → (∀ k, 0 < so_takes so k)%nat →
  serve_each serve k clock reqs s = Ret (resps, s') →
  Forall (λ r, Z.of_nat (length r) < 2 ^ 32) resps → (pending so < fuel)%nat →
  ∃ so', serve_loop serve fuel k clock so s = Ret (so', s') ∧ so_out so' = so_out so ++ frames resps.
Proof.
  induction reqs as [|r reqs IH]; intros fuel k so s resps s' rest Hd Hnone Hreqs Ht Hs Hresps Hf;
    (destruct fuel as [|f]; [lia|]); cbn [serve_each] in Hs.
  - injection Hs as <- <-. cbn [serve_loop]. unfold serve_frame. rewrite (Hnone so Hd).
    exists so. split; [done|]. cbn. by rewrite app_nil_r.
  - unfold mbind, stM_bind in Hs. destruct (serve (clock k) r s) as [[resp s1]|] eqn:Hr; [|done].
    destruct (serve_each serve (S k) clock reqs s1) as [[resps1 s2]|] eqn:Hr2; [|done].
    injection Hs as <- <-. apply Forall_cons in Hreqs as [Hl Hreqs]. apply Forall_cons in Hresps as [Hl2 Hresps].
    unfold frames in Hd. cbn [map concat] in Hd. rewrite <- app_assoc in Hd.
    destruct (serve_frame_run (serve (clock k)) so r _ s resp s1 Hd Hl Ht Hr Hl2)
      as (so1 & H1 & H2 & H3 & H4 & H5).
    cbn [serve_loop]. rewrite H1. cbn [mbind outcome_bind].
    destruct (IH f (S k) so1 s1 resps1 s2 rest H2) as (so2 & H6 & H7); try done.
    + by rewrite H3.
    + lia.
    + exists so2. split; [done|]. rewrite H7, H4. unfold frames. cbn [map concat]. by rewrite app_assoc.
Qed.

(** Every request frame a peer sends is answered, in order, however the stream
    is cut into pieces and however little each send takes, as long as it takes
    something: the loop ends, and what was written is exactly the framed
    responses of serving the requests one after the other. *)
Theorem connection_serves_every_request serve clock so reqs s resps s' :
  data so = frames reqs → Forall (λ r, Z.of_nat (length r) ≤ FRAME_CAP) reqs → (∀ k, 0 < so_takes so k)%nat →
  serve_each serve 0 clock reqs s = Ret (resps, s') →
  Forall (λ r, Z.of_nat (length r) < 2 ^ 32) resps →
  ∃ so', serve_until_closed serve clock so s = Ret (so', s') ∧ so_out so' = so_out so ++ frames resps.
Proof.
  intros Hd Hr Ht Hs Hl. unfold serve_until_closed.
  apply (serve_loop_run serve clock reqs (S (pending so)) 0 so s resps s' []); try done.
  - by rewrite app_nil_r.
  - intros so1 H1. apply recv_frame_none. left. rewrite H1. cbn. lia.
  - lia.
Qed.

(** A connection that does not open with a valid token frame is served nothing:
    whatever follows, no request runs and no byte is sent. *)
Theorem unauthenticated_connection_closed clock policy auth so s token rest :
  (data so = frame token ++ rest ∧ Z.of_nat (length token) < 2 ^ 32 ∧ authenticate (text_of token) auth = None) ∨
    (length (data so) < 4)%nat ∨ TOKEN_CAP < le_combine (take 4 (data so)) →
  matrix_serve_conn_auth clock policy auth so s = Ret ((false, so), s).
Proof.
  intros H. unfold matrix_serve_conn_auth, authenticate_conn.
  assert (recv_frame TOKEN_CAP so = None ∨ ∃ so', recv_frame TOKEN_CAP so = Some (token, so') ∧
            authenticate (text_of token) auth = None) as [->|(so' & -> & Ha)].
  { destruct H as [(Hd & Hl & Ha)|[H|H]]; [|left; apply recv_frame_none; tauto..].
    destruct (decide (Z.of_nat (length token) ≤ TOKEN_CAP)) as [Hc|Hc].
    - right. destruct (recv_frame_run TOKEN_CAP so token rest Hd) as (so' & H1 & _); [unfold TOKEN_CAP in *; lia|eauto].
    - left. apply recv_frame_none. right. left. rewrite Hd. unfold frame. rewrite <- app_assoc, take_app_length' by (by rewrite length_le_u32).
      rewrite le_combine_u32, u32_small by (unfold in_u32; lia). lia. }
  - done.
  - cbn [mbind option_bind]. by rewrite Ha.
Qed.

End serving.

(** [recv_all] is exact and always ends: it returns the first [n] bytes of the
    stream whatever the chunks are, leaving the rest, or fails when the stream
    ends before them. *)
Theorem recv_all_exact n so :
  match recv_all n so with
  | Some (b, so') => b = take n (data so) ∧ (length b = n) ∧ data so' = drop n (data so)
  | None => (length (data so) < n)%nat
  end.
Proof.
  pose proof (recv_all_spec n so) as H. destruct (recv_all n so) as [[b so']|]; [|done].
  destruct H as (Hl & -> & (Hd & _) & _). rewrite length_take. split; [done|]. split; [lia|done].
Qed.

(** ** Witnesses *)

(** Chunks of one byte, and sends that take at most three. *)
Definition choppy (b : list byte) : Socket := mkSocket (map (λ x, [x]) b) (λ _, 3%nat) 0 [].

Definition two_requests : list (list byte) :=
  [matrix_serialize_request (mkRequest QUERY 0 0 sum_query); matrix_serialize_request (plain_request HEALTH 0 0)].

(** 16 is the sum of the values above 5; the second answer has six numbers. *)
Definition answers_check : bool :=
  match serve_each (matrix_serve (HashOrder0 := elements_order) permissive 0) 0 (λ _, 0) two_requests sample_server with
  | Ret ([a; b], _) =>
      bool_decide (a = matrix_serialize_response (mkResponse SERVER_OK [16])) && (length b =? 60)%nat
  | _ => false
  end.

Lemma answers_check_ok : answers_check = true.
Proof. vm_compute. reflexivity. Qed.

Lemma connection_serves_every_request_witness :
  ∃ so' s' b, serve_until_closed (matrix_serve (HashOrder0 := elements_order) permissive 0) (λ _, 0) (choppy (frames two_requests)) sample_server =
    Ret (so', s') ∧ so_out so' = frames [matrix_serialize_response (mkResponse SERVER_OK [16]); b].
Proof.
  pose proof answers_check_ok as Hc. unfold answers_check in Hc.
  destruct (serve_each (matrix_serve (HashOrder0 := elements_order) permissive 0) 0 (λ _, 0) two_requests sample_server)
    as [[[|a [|b [|? ?]]] s']|] eqn:E; try discriminate Hc.
  apply andb_true_iff in Hc as [->%bool_decide_eq_true Hb%Nat.eqb_eq].
  destruct (connection_serves_every_request (matrix_serve (HashOrder0 := elements_order) permissive 0) (λ _, 0)
    (choppy (frames two_requests)) two_requests sample_server
    [matrix_serialize_response (mkResponse SERVER_OK [16]); b] s') as (so' & H1 & H2).
  - vm_compute. reflexivity.
  - refine (bool_decide_unpack _ _). vm_compute. exact I.
  - intros k. cbn. lia.
  - exact E.
  - constructor; [vm_compute; reflexivity|]. constructor; [rewrite Hb; lia|]. constructor.
  - exists so', s', b. split; [exact H1|exact H2].
Defined.

Lemma unauthenticated_connection_closed_witness :
  let so := choppy (frame (bytes_of_text "guess") ++ frames two_requests) in
  matrix_serve_conn_auth (HashOrder0 := elements_order) (λ _, 0) permissive [("secret", 1)] so sample_server =
    Ret ((false, so), sample_server).
Proof.
  intros so. apply (unauthenticated_connection_closed _ _ _ so _ (bytes_of_text "guess") (frames two_requests)).
  left. split; [vm_compute; reflexivity|]. split; [vm_compute; reflexivity|vm_compute; reflexivity].
Defined.
