(* ===== verification/Client.v ===== *)
(** * Client: the driver's side of the protocol

    [client.hpp]: each call frames a request, reads one framed response and
    decodes it.  A call that fails, whatever the reason, returns [None]
    ([false]). *)

From S2P Require Export ServerTcp.

Section client.

(** A short transfer, a bad frame or a response that does not decode is [None]. *)
Definition round_trip (r : MatrixRequest) (so : Socket) : option MatrixResponse * Socket :=
  let '(ok, so) := send_frame (matrix_serialize_request r) so in
  if (ok : bool) then
    match recv_frame FRAME_CAP so with
    | Some (b, so) => (matrix_deserialize_response b, so)
    | None => (None, so)
    end
  else (None, so).

Definition client_authenticate (token : string) (so : Socket) : bool * Socket := send_frame (bytes_of_text token) so.

(** The response, if it came with status OK. *)
Definition ok_response (o : option MatrixResponse) : option (list Z) :=
  resp ← o; if rs_status resp =? 0 then Some (rs_results resp) else None.

Definition client_get (key : Z) (so : Socket) : option Z * Socket :=
  let '(o, so) := round_trip (plain_request GET key 0) so in (rs ← ok_response o; head rs, so).

Definition client_put (key value : Z) (so : Socket) : bool * Socket :=
  let '(o, so) := round_trip (plain_request PUT key value) so in
  (match ok_response o with Some _ => true | None => false end, so).

(** The status and the results of a query: a failed query is an answer. *)
Definition client_query (q : MatrixQuery) (so : Socket) : option (Z * list Z) * Socket :=
  let '(o, so) := round_trip (mkRequest QUERY 0 0 q) so in
  ((λ resp, (rs_status resp, rs_results resp)) <$> o, so).

Record HealthStatus := mkHealth {
  hs_ready : bool; hs_durable : bool; hs_catalog_columns : Z; hs_host_resident_bytes : Z;
  hs_wal_records_pending : Z; hs_dropped_writes : Z
}.

Definition health_of (f : list Z) : option HealthStatus :=
  match f with
  | [a; b; c; d; e; g] => Some (mkHealth (negb (a =? 0)) (negb (b =? 0)) c d e g)
  | _ => None
  end.

Definition client_health (so : Socket) : option HealthStatus * Socket :=
  let '(o, so) := round_trip (plain_request HEALTH 0 0) so in (rs ← ok_response o; health_of rs, so).

Definition client_stats (so : Socket) : option (list Z) * Socket :=
  let '(o, so) := round_trip (plain_request STATS 0 0) so in
  (rs ← ok_response o; if (length rs =? 12)%nat then Some rs else None, so).

Definition server_version (so : Socket) : Z * Socket :=
  let '(o, so) := client_stats so in (match o with Some rs => nth 11 rs 0 | None => 0 end, so).

End client.

(** ** Lemmas *)

Lemma received_frames so rest so' : received so rest so' → so_takes so' = so_takes so ∧ so_out so' = so_out so.
Proof. by intros (_ & ? & _ & ? & _). Qed.

Lemma length_request r : length (matrix_serialize_request r) = REQUEST_BYTES.
Proof.
  unfold matrix_serialize_request, put_bool. cbv zeta. rewrite !length_app, !length_le_u32, !length_le_u64, !length_le_split.
  reflexivity.
Qed.

Lemma length_response r : length (matrix_serialize_response r) = (12 + 8 * length (rs_results r))%nat.
Proof. unfold matrix_serialize_response. rewrite !length_app, length_le_u32, length_le_u64, length_u64s. lia. Qed.

Lemma data_same so so' : so_in so' = so_in so → data so' = data so.
Proof. unfold data. by intros ->. Qed.

(** The client's side of one call. *)
Lemma round_trip_run r so b rest :
  (∀ k, 0 < so_takes so k)%nat → data so = frame b ++ rest → Z.of_nat (length b) < 2 ^ 32 →
  ∃ so', round_trip r so =
      (if Z.of_nat (length b) <=? FRAME_CAP then matrix_deserialize_response b else None, so') ∧
    so_out so' = so_out so ++ frame (matrix_serialize_request r).
Proof.
  intros Ht Hd Hl. unfold round_trip. change FRAME_CAP with (2 ^ 28).
  destruct (send_frame_run (matrix_serialize_request r) so Ht) as (so1 & -> & (S1 & S2 & S3));
    [rewrite length_request; vm_compute; reflexivity|].
  destruct (Z.leb_spec (Z.of_nat (length b)) (2 ^ 28)).
  - destruct (recv_frame_run (2 ^ 28) so1 b rest) as (so2 & -> & Hr & _); [by rewrite (data_same _ _ S1)|lia|].
    exists so2. split; [done|]. by rewrite (proj2 (received_frames _ _ _ Hr)).
  - exists so1. rewrite recv_frame_none; [done|]. right. left. rewrite (data_same _ _ S1), Hd. unfold frame.
    rewrite <- app_assoc, take_app_length' by (by rewrite length_le_u32).
    rewrite le_combine_u32, u32_small by (unfold in_u32; lia). done.
Qed.

(** ** Theorems *)

(** C39: A call gets what the server computed: what the client sends is what the
    server's connection reads, and what that connection writes is what the
    client reads back, however both streams are cut.  An answer longer than the
    frame limit is lost: the limit is 2^28 bytes, while the response decoder and
    the group limit of a query allow 2^28 results of eight bytes. *)
Theorem client_call_transparent `{!HashOrder Z} policy principal ns r s resp s' cso sso :
  request_wf r → authorized policy principal r = true → dispatch ns r s = Ret (resp, s') → response_wf resp →
  (∀ k, 0 < so_takes cso k)%nat → (∀ k, 0 < so_takes sso k)%nat →
  so_out cso = [] → so_out sso = [] → data sso = frame (matrix_serialize_request r) →
  data cso = frame (matrix_serialize_response resp) →
  ∃ cso' sso', matrix_serve_conn policy principal ns sso s = Ret ((true, sso'), s') ∧
    so_out cso' = data sso ∧ so_out sso' = data cso ∧
    round_trip r cso =
      (if 12 + 8 * Z.of_nat (length (rs_results resp)) <=? FRAME_CAP then Some resp else None, cso').
Proof.
  intros Hr Ha Hd Hw Ht1 Ht2 Ho1 Ho2 Hs Hc. pose proof (length_response resp) as Hlen.
  pose proof (proj2 (proj2 Hw)) as Hmax. change MAX_RESULTS with (2 ^ 28) in Hmax.
  destruct (serve_frame_run (matrix_serve policy principal ns) sso (matrix_serialize_request r) [] s
    (matrix_serialize_response resp) s') as (sso' & H1 & _ & _ & H2 & _).
  - by rewrite app_nil_r.
  - rewrite length_request. vm_compute. discriminate.
  - done.
  - rewrite serve_authorized, Hd by done. done.
  - lia.
  - destruct (round_trip_run r cso (matrix_serialize_response resp) [] Ht1) as (cso' & H3 & H4).
    + by rewrite app_nil_r.
    + lia.
    + exists cso', sso'. split; [exact H1|]. rewrite H4, H2, Ho1, Ho2. split; [done|]. split; [done|].
      rewrite H3, Hlen, response_decodes by done.
      replace (Z.of_nat (12 + 8 * length (rs_results resp))) with (12 + 8 * Z.of_nat (length (rs_results resp))) by lia. done.
Qed.

(** ** Witnesses *)

Definition health_call : MatrixRequest := plain_request HEALTH 0 0.
Definition health_answer : MatrixResponse := mkResponse SERVER_OK (health (HashOrder0 := elements_order) sample_server).

Lemma health_answer_wf : response_wf health_answer.
Proof.
  split; [vm_compute; split; [discriminate|reflexivity]|]. split; [|vm_compute; discriminate].
  unfold health_answer, health. cbn [rs_results].
  repeat (constructor; [vm_compute; split; [discriminate|reflexivity]|]). constructor.
Qed.

(** One byte at a time, both ways. *)
Lemma client_call_transparent_witness :
  ∃ cso' sso', matrix_serve_conn (HashOrder0 := elements_order) permissive 0 0
      (choppy (frame (matrix_serialize_request health_call))) sample_server = Ret ((true, sso'), sample_server) ∧
    round_trip health_call (choppy (frame (matrix_serialize_response health_answer))) = (Some health_answer, cso').
Proof.
  destruct (client_call_transparent (HashOrder0 := elements_order) permissive 0 0 health_call sample_server health_answer sample_server
    (choppy (frame (matrix_serialize_response health_answer))) (choppy (frame (matrix_serialize_request health_call))))
    as (cso' & sso' & H1 & _ & _ & H2).
  - apply plain_request_wf; unfold in_u64; lia.
  - reflexivity.
  - reflexivity.
  - exact health_answer_wf.
  - intros k. cbn. lia.
  - intros k. cbn. lia.
  - reflexivity.
  - reflexivity.
  - vm_compute. reflexivity.
  - vm_compute. reflexivity.
  - exists cso', sso'. split; [exact H1|exact H2].
Defined.
