(* ===== verification/ConcurrentServer.v ===== *)
(** * ConcurrentServer: many readers, one writer

    [concurrent_server.hpp].  [serve] runs a request under a shared mutex:
    queries try the fast path under the shared lock and escalate to the
    exclusive one when a column is not in memory, writes take the exclusive
    lock, everything else the shared one.  Part one is [serve] as a function of
    the state; part two is a step relation of threads around the mutex, over an
    interface that the server implements. *)

From S2P Require Export Server.

(** ** [ConcurrentServer::serve] *)

Section concurrent.
Context `{!HashOrder Z}.
Variable policy : AccessPolicy.

Definition is_query (r : MatrixRequest) : bool := bool_decide (rq_kind r = QUERY).
Definition is_put (r : MatrixRequest) : bool := bool_decide (rq_kind r = PUT).

(** What happens under the shared lock: [None] asks for the exclusive one. *)
Definition serve_shared (principal ns : Z) (req_bytes : list byte) : stM Server (option (list byte)) := λ s,
  match matrix_deserialize_request req_bytes with
  | Some r =>
      if is_query r && authorized policy principal r then
        '(o, s) ← on_engine (execute_query_shared (rq_query r) ns) s;
        Ret (match o with Some out => Some (matrix_serialize_response (mkResponse SERVER_OK out)) | None => None end, s)
      else '(resp, s) ← matrix_serve policy principal ns req_bytes s; Ret (Some resp, s)
  | None => '(resp, s) ← matrix_serve policy principal ns req_bytes s; Ret (Some resp, s)
  end.

Definition wants_exclusive (req_bytes : list byte) : bool :=
  match matrix_deserialize_request req_bytes with Some r => is_put r | None => false end.

Definition concurrent_serve (principal ns : Z) (req_bytes : list byte) : stM Server (list byte) := λ s,
  if wants_exclusive req_bytes then matrix_serve policy principal ns req_bytes s
  else
    '(o, s) ← serve_shared principal ns req_bytes s;
    match o with Some resp => Ret (resp, s) | None => matrix_serve policy principal ns req_bytes s end.

End concurrent.

(** ** Threads around the mutex *)

(** A server that can be shared: [fast] runs under the shared lock, [slow] under
    the exclusive one; [core] is what the fast path reads and must not change. *)
Class Shared (S Req Ans Core : Type) := {
  fast : Req → S → outcome (option Ans * S);
  slow : Req → S → outcome (Ans * S);
  writes : Req → bool;
  core : S → Core;
  fast_core r s o s' : writes r = false → fast r s = Ret (o, s') → core s' = core s
}.

(** Its serial specification: what a request may answer in an abstract state and
    the state it leaves.  [inv] is the server's invariant; [fit] is what every
    state of a run has to satisfy for the invariant to last. *)
Class Serial (S Req Ans Core A : Type) `{!Shared S Req Ans Core} := {
  abs : S → A;
  spec : Req → A → Ans → A → Prop;
  inv : S → Prop;
  fit : S → Prop;
  fast_serves r s a s' : writes r = false → inv s → fast r s = Ret (Some a, s') → inv s' ∧ spec r (abs s) a (abs s');
  fast_refuses r s s' : writes r = false → inv s → fast r s = Ret (None, s') → inv s' ∧ abs s' = abs s;
  slow_serves r s a s' : inv s → fit s → slow r s = Ret (a, s') → inv s' ∧ spec r (abs s) a (abs s')
}.

Section mutex.
Context {S Req Ans Core : Type} `{!Shared S Req Ans Core}.

Inductive Phase : Type :=
  | Idle
  | Reading (r : Req) (seen : Core)      (* holds the shared lock; [seen] at its acquisition *)
  | Escalating (r : Req)                 (* released it, wants the exclusive lock *)
  | Writing (r : Req).                   (* holds the exclusive lock *)

Record Thread := mkThread { th_phase : Phase; th_todo : list Req; th_done : list Ans }.

(** [std::shared_mutex] *)
Record Mutex := mkMutex { mu_readers : nat; mu_writer : bool }.

Record Config := mkConfig { cf_state : S; cf_mutex : Mutex; cf_threads : list Thread }.

Definition lock_shared (m : Mutex) : option Mutex :=
  if mu_writer m then None else Some (mkMutex (Datatypes.S (mu_readers m)) false).
Definition unlock_shared (m : Mutex) : Mutex := mkMutex (pred (mu_readers m)) (mu_writer m).
Definition lock (m : Mutex) : option Mutex :=
  if mu_writer m || negb (mu_readers m =? 0)%nat then None else Some (mkMutex 0 true).
Definition unlock (m : Mutex) : Mutex := mkMutex (mu_readers m) false.

Inductive step : Config → Config → Prop :=
  | step_lock_shared s m m' ts i r todo ans :
      ts !! i = Some (mkThread Idle (r :: todo) ans) → writes r = false → lock_shared m = Some m' →
      step (mkConfig s m ts) (mkConfig s m' (<[i := mkThread (Reading r (core s)) todo ans]> ts))
  | step_fast s s' m ts i r seen todo ans a :
      ts !! i = Some (mkThread (Reading r seen) todo ans) → fast r s = Ret (Some a, s') →
      step (mkConfig s m ts) (mkConfig s' (unlock_shared m) (<[i := mkThread Idle todo (ans ++ [a])]> ts))
  | step_escalate s s' m ts i r seen todo ans :
      ts !! i = Some (mkThread (Reading r seen) todo ans) → fast r s = Ret (None, s') →
      step (mkConfig s m ts) (mkConfig s' (unlock_shared m) (<[i := mkThread (Escalating r) todo ans]> ts))
  | step_lock_write s m m' ts i r todo ans :
      ts !! i = Some (mkThread Idle (r :: todo) ans) → writes r = true → lock m = Some m' →
      step (mkConfig s m ts) (mkConfig s m' (<[i := mkThread (Writing r) todo ans]> ts))
  | step_lock_escalated s m m' ts i r todo ans :
      ts !! i = Some (mkThread (Escalating r) todo ans) → lock m = Some m' →
      step (mkConfig s m ts) (mkConfig s m' (<[i := mkThread (Writing r) todo ans]> ts))
  | step_slow s s' m ts i r todo ans a :
      ts !! i = Some (mkThread (Writing r) todo ans) → slow r s = Ret (a, s') →
      step (mkConfig s m ts) (mkConfig s' (unlock m) (<[i := mkThread Idle todo (ans ++ [a])]> ts)).

Definition start (s : S) (work : list (list Req)) : Config :=
  mkConfig s (mkMutex 0 false) (map (λ reqs, mkThread Idle reqs []) work).

Definition finished (c : Config) : Prop := Forall (λ t, th_phase t = Idle ∧ th_todo t = []) (cf_threads c).

(** The action a thread holding a lock is about to take stops the process. *)
Definition crashes (c : Config) : Prop := ∃ i t f, cf_threads c !! i = Some t ∧
  match th_phase t with
  | Reading r _ => fast r (cf_state c) = Crash f
  | Writing r => slow r (cf_state c) = Crash f
  | _ => False
  end.

(** ** Invariant *)

Definition reading (t : Thread) : nat := match th_phase t with Reading _ _ => 1 | _ => 0 end.
Definition writing (t : Thread) : nat := match th_phase t with Writing _ => 1 | _ => 0 end.

(** How many requests a thread has taken on. *)
Definition load (t : Thread) : nat :=
  (length (th_done t) + length (th_todo t) + match th_phase t with Idle => 0 | _ => 1 end)%nat.

Record mutex_ok (c : Config) : Prop := {
  mo_readers : total reading (cf_threads c) = mu_readers (cf_mutex c);
  mo_writer : total writing (cf_threads c) = (if mu_writer (cf_mutex c) then 1 else 0)%nat;
  mo_exclusive : mu_writer (cf_mutex c) = true → mu_readers (cf_mutex c) = 0%nat;
  mo_seen : ∀ i t r seen, cf_threads c !! i = Some t → th_phase t = Reading r seen →
              writes r = false ∧ seen = core (cf_state c)
}.

(** The other threads' phases are as they were. *)
Lemma phase_other (ts : list Thread) i (t' : Thread) j t :
  <[i := t']> ts !! j = Some t → (i = j ∧ t = t') ∨ ts !! j = Some t.
Proof. intros [(-> & -> & _)|(_ & H)]%list_lookup_insert_Some; auto. Qed.

Lemma start_ok s work : mutex_ok (start s work).
Proof.
  assert (∀ f, (∀ reqs, f (mkThread Idle reqs []) = 0%nat) → total f (cf_threads (start s work)) = 0%nat) as H0.
  { intros f Hf. cbn. unfold total. induction work as [|w work IH]; [done|]. cbn. by rewrite Hf, IH. }
  split; cbn; [by apply H0|by apply H0|done|].
  intros i t r seen H Hr. apply list_lookup_fmap_Some in H as (w & -> & _). done.
Qed.

Ltac eval_count f :=
  repeat match goal with
  | H : context [f (mkThread ?p ?a ?b)] |- _ =>
      let v := eval cbv in (f (mkThread p a b)) in change (f (mkThread p a b)) with v in H
  end.

(** How replacing thread [i] of [ts] by [t'] changes the counts. *)
Ltac count i ts t' H :=
  pose proof (total_update reading ts t' i _ H) as Hcr; pose proof (total_update writing ts t' i _ H) as Hcw;
  eval_count reading; eval_count writing.

Lemma step_ok c c' : mutex_ok c → step c c' → mutex_ok c'.
Proof.
  intros [Hr Hw He Hs] Hstep. destruct Hstep as [s m m' ts i r todo ans Hi Hwr Hl | s s' m ts i r c todo ans a Hi Hf
    | s s' m ts i r c todo ans Hi Hf | s m m' ts i r todo ans Hi Hwr Hl | s m m' ts i r todo ans Hi Hl
    | s s' m ts i r todo ans a Hi Hf]; cbn [cf_threads cf_mutex cf_state] in *;
    match goal with |- mutex_ok (mkConfig _ _ (<[i := ?t']> ts)) => count i ts t' Hi end.
  - unfold lock_shared in Hl. destruct (mu_writer m) eqn:E; [done|]. injection Hl as <-.
    split; cbn [cf_threads cf_mutex cf_state mu_readers mu_writer unlock_shared unlock]; [lia|lia|done|]. intros j t r' seen [(<- & ->)|H]%phase_other Hp; [by injection Hp as <- <-|eauto].
  - destruct (Hs i _ r c Hi eq_refl) as [Hwr ->]. pose proof (fast_core r s _ _ Hwr Hf) as Hc.
    split; cbn [cf_threads cf_mutex cf_state mu_readers mu_writer unlock_shared unlock]; [lia|lia|intros H; rewrite (He H); done|].
    intros j t r' seen [(<- & ->)|H]%phase_other Hp; [done|]. rewrite Hc. eauto.
  - destruct (Hs i _ r c Hi eq_refl) as [Hwr ->]. pose proof (fast_core r s _ _ Hwr Hf) as Hc.
    split; cbn [cf_threads cf_mutex cf_state mu_readers mu_writer unlock_shared unlock]; [lia|lia|intros H; rewrite (He H); done|].
    intros j t r' seen [(<- & ->)|H]%phase_other Hp; [done|]. rewrite Hc. eauto.
  - unfold lock in Hl. destruct (mu_writer m) eqn:E; [done|]. destruct (Nat.eqb_spec (mu_readers m) 0); [|done].
    injection Hl as <-. split; cbn [cf_threads cf_mutex cf_state mu_readers mu_writer unlock_shared unlock]; [lia|lia|done|]. intros j t r' seen [(<- & ->)|H]%phase_other Hp; [done|eauto].
  - unfold lock in Hl. destruct (mu_writer m) eqn:E; [done|]. destruct (Nat.eqb_spec (mu_readers m) 0); [|done].
    injection Hl as <-. split; cbn [cf_threads cf_mutex cf_state mu_readers mu_writer unlock_shared unlock]; [lia|lia|done|]. intros j t r' seen [(<- & ->)|H]%phase_other Hp; [done|eauto].
  - pose proof (total_pos writing ts i _ Hi) as Hpos. cbn in Hpos. destruct (mu_writer m) eqn:E; [|cbn in Hpos; lia].
    split; cbn [cf_threads cf_mutex cf_state mu_readers mu_writer unlock_shared unlock]; [lia|lia|done|]. intros j t r' seen [(<- & ->)|H]%phase_other Hp; [done|].
    exfalso. assert (reading t = 0%nat) as H0; [|unfold reading in H0; by rewrite Hp in H0].
    apply (total_zero reading ts j); [|done]. rewrite Hr. auto.
Qed.

(** ** Progress *)

Definition work_left (t : Thread) : nat :=
  (4 * length (th_todo t) + match th_phase t with Idle => 0 | Reading _ _ => 3 | Escalating _ => 2 | Writing _ => 1 end)%nat.

Inductive reaches (c0 : Config) : nat → Config → Prop :=
  | reach_refl : reaches c0 0 c0
  | reach_step n c c' : reaches c0 n c → step c c' → reaches c0 (Datatypes.S n) c'.

Ltac eval_work :=
  repeat match goal with
  | H : context [work_left (mkThread ?p ?a ?b)] |- _ =>
      let v := eval cbv beta iota delta [work_left th_todo th_phase] in (work_left (mkThread p a b)) in
      change (work_left (mkThread p a b)) with v in H
  end.

Lemma step_decreases c c' :
  step c c' → (total work_left (cf_threads c') < total work_left (cf_threads c))%nat.
Proof.
  destruct 1 as [s m m' ts i r todo ans Hi | s s' m ts i r c todo ans a Hi | s s' m ts i r c todo ans Hi
    | s m m' ts i r todo ans Hi | s m m' ts i r todo ans Hi | s s' m ts i r todo ans a Hi]; cbn [cf_threads];
    match goal with |- context [<[i := ?t']> ts] => pose proof (total_update work_left ts t' i _ Hi) as Hwl end;
    eval_work; cbn [length] in Hwl; lia.
Qed.

Lemma step_load c c' : step c c' → map load (cf_threads c') = map load (cf_threads c).
Proof.
  destruct 1 as [s m m' ts i r todo ans Hi | s s' m ts i r c todo ans a Hi | s s' m ts i r c todo ans Hi
    | s m m' ts i r todo ans Hi | s m m' ts i r todo ans Hi | s s' m ts i r todo ans a Hi]; cbn [cf_threads];
    change (map load) with (fmap (M := list) load); rewrite list_fmap_insert; apply list_insert_id;
    rewrite list_lookup_fmap, Hi; cbn; f_equal; unfold load; cbn; rewrite ?length_app; cbn; lia.
Qed.

Lemma reaches_ok c0 n c :
  reaches c0 n c → mutex_ok c0 →
  mutex_ok c ∧ (total work_left (cf_threads c) + n ≤ total work_left (cf_threads c0))%nat ∧
  map load (cf_threads c) = map load (cf_threads c0).
Proof.
  induction 1 as [|n c c' Hr IH Hs]; intros H0; [split; [done|]; split; [lia|done]|].
  destruct (IH H0) as (H1 & H2 & H3). split; [by eapply step_ok|].
  pose proof (step_decreases _ _ Hs). split; [lia|]. by rewrite (step_load _ _ Hs).
Qed.

(** A thread that holds a lock can go on, or its action stops the process. *)
Lemma holder_moves c i t :
  cf_threads c !! i = Some t → (0 < reading t + writing t)%nat → (∃ c', step c c') ∨ crashes c.
Proof.
  destruct c as [s m ts]. cbn. intros Hi Hp. destruct t as [[|r seen|r|r] todo ans]; cbn in Hp; try lia.
  - destruct (fast r s) as [[[a|] s']|f] eqn:E.
    + left. eexists. by eapply step_fast.
    + left. eexists. by eapply step_escalate.
    + right. exists i, (mkThread (Reading r seen) todo ans), f. done.
  - destruct (slow r s) as [[a s']|f] eqn:E.
    + left. eexists. by eapply step_slow.
    + right. exists i, (mkThread (Writing r) todo ans), f. done.
Qed.

Lemma not_finished c : ¬ finished c → ∃ i t, cf_threads c !! i = Some t ∧ (0 < work_left t)%nat.
Proof.
  intros H. destruct (decide (0 < total work_left (cf_threads c))%nat) as [Hp|Hp]; [by apply total_exists|].
  exfalso. apply H. unfold finished. rewrite Forall_lookup. intros i t Hi.
  pose proof (total_zero work_left (cf_threads c) i t ltac:(lia) Hi) as H0.
  destruct t as [[|r seen|r|r] [|r0 todo] ans]; cbn in H0; try lia. done.
Qed.

Lemma progress c : mutex_ok c → ¬ finished c → (∃ c', step c c') ∨ crashes c.
Proof.
  intros [Hr Hw He Hs] Hn. destruct (decide (0 < total reading (cf_threads c) + total writing (cf_threads c))%nat) as [Hp|Hp].
  - destruct (decide (0 < total reading (cf_threads c))%nat) as [Hrd|Hrd].
    + apply total_exists in Hrd as (i & t & Hi & Ht). apply (holder_moves c i t Hi). lia.
    + destruct (total_exists writing (cf_threads c)) as (i & t & Hi & Ht); [lia|]. apply (holder_moves c i t Hi). lia.
  - destruct (not_finished c Hn) as (i & t & Hi & Ht). destruct c as [s m ts]. cbn [cf_threads cf_mutex cf_state] in *.
    assert (mu_readers m = 0%nat) as Hm0 by lia.
    destruct (mu_writer m) eqn:Hm; [lia|].
    assert (total reading ts = 0 ∧ total writing ts = 0)%nat as [Hr0 Hw0] by lia.
    pose proof (total_zero reading ts i t Hr0 Hi) as H1. pose proof (total_zero writing ts i t Hw0 Hi) as H2.
    destruct t as [[|r seen|r|r] todo ans]; cbn in H1, H2; try lia.
    + destruct todo as [|r todo]; [cbn in Ht; lia|]. left. destruct (writes r) eqn:Hwr; eexists.
      * eapply step_lock_write; [exact Hi|exact Hwr|]. unfold lock. by rewrite Hm, Hm0.
      * eapply step_lock_shared; [exact Hi|exact Hwr|]. unfold lock_shared. by rewrite Hm.
    + left. eexists. eapply step_lock_escalated; [exact Hi|]. unfold lock. by rewrite Hm, Hm0.
Qed.

Lemma start_work s work : total work_left (cf_threads (start s work)) = (4 * sum_list (length <$> work))%nat.
Proof.
  cbn [start cf_threads]. unfold total. induction work as [|w work IH]; [done|].
  change (sum_list (length <$> w :: work)) with (length w + sum_list (length <$> work))%nat.
  cbn [map sum_list_with]. rewrite IH. unfold work_left. cbn [th_todo th_phase]. lia.
Qed.

Lemma start_load s work : map load (cf_threads (start s work)) = length <$> work.
Proof.
  cbn [start cf_threads]. rewrite map_map. apply map_ext. intros w. unfold load. cbn. lia.
Qed.

Lemma finished_load c : finished c → map load (cf_threads c) = map (λ t, length (th_done t)) (cf_threads c).
Proof.
  unfold finished. intros Hf. apply map_ext_Forall. eapply Forall_impl; [exact Hf|]. cbn.
  intros t [H1 H2]. unfold load. rewrite H1, H2. cbn. lia.
Qed.

#[export] Instance finished_dec c : Decision (finished c).
Proof.
  refine (cast_if (decide (Forall (λ t, work_left t = 0%nat) (cf_threads c)))).
  - abstract (unfold finished; eapply Forall_impl; [eassumption|]; intros [[] [|? ?] ?]; cbn; intros; try lia; done).
  - abstract (intros Hf; match goal with H : ¬ _ |- _ => apply H end; unfold finished in Hf;
      eapply Forall_impl; [exact Hf|]; cbn; intros [] [H1 H2]; cbn in *; by subst).
Defined.

(** ** Serialisability *)

Section serial.
Context {A : Type} `{!Serial S Req Ans Core A}.

(** One event is a thread, its request and the answer. *)
Inductive serial : A → list (nat * (Req * Ans)) → A → Prop :=
  | serial_nil a : serial a [] a
  | serial_snoc a tr a1 i r x a2 : serial a tr a1 → spec r a1 x a2 → serial a (tr ++ [(i, (r, x))]) a2.

Definition of_thread (i : nat) (tr : list (nat * (Req * Ans))) : list (Req * Ans) := map snd (filter (λ ev, ev.1 = i) tr).

Definition pending (t : Thread) : list Req :=
  match th_phase t with Idle => [] | Reading r _ => [r] | Escalating r => [r] | Writing r => [r] end.

(** The serial order [tr] explains the configuration [c] of a run on [work]. *)
Record explains (s0 : S) (work : list (list Req)) (tr : list (nat * (Req * Ans))) (c : Config) : Prop := {
  ex_serial : serial (abs s0) tr (abs (cf_state c));
  ex_inv : inv (cf_state c);
  ex_threads : ∀ i t, cf_threads c !! i = Some t →
    th_done t = map snd (of_thread i tr) ∧ work !! i = Some (map fst (of_thread i tr) ++ pending t ++ th_todo t)
}.

Lemma of_thread_snoc i j tr rx :
  of_thread i (tr ++ [(j, rx)]) = of_thread i tr ++ (if decide (j = i) then [rx] else []).
Proof.
  unfold of_thread. rewrite filter_app, map_app, filter_cons, filter_nil. cbn [fst]. by destruct (decide (j = i)).
Qed.

Lemma start_explained s work : inv s → explains s work [] (start s work).
Proof.
  intros Hi. split; [constructor|done|]. intros i t H. cbn in H.
  apply list_lookup_fmap_Some in H as (w & -> & Hw). done.
Qed.

(** A step that answers nothing. *)
Lemma explains_silent s0 work tr s s' m m' ts i t t' :
  explains s0 work tr (mkConfig s m ts) → ts !! i = Some t → abs s' = abs s → inv s' →
  th_done t' = th_done t → pending t' ++ th_todo t' = pending t ++ th_todo t →
  explains s0 work tr (mkConfig s' m' (<[i := t']> ts)).
Proof.
  intros [Hs _ Ht] Hi Ha Hinv Hd Hp. split; cbn in *; [by rewrite Ha|done|].
  intros j u [(<- & ->)|H]%phase_other; [|by apply Ht]. rewrite Hd, Hp. by apply Ht.
Qed.

(** A step that answers the request [r]. *)
Lemma explains_answer s0 work tr s s' m m' ts i t r todo x :
  explains s0 work tr (mkConfig s m ts) → ts !! i = Some t → pending t = [r] → th_todo t = todo →
  spec r (abs s) x (abs s') → inv s' →
  explains s0 work (tr ++ [(i, (r, x))]) (mkConfig s' m' (<[i := mkThread Idle todo (th_done t ++ [x])]> ts)).
Proof.
  intros [Hs _ Ht] Hi Hp <- Hsp Hinv. split; cbn in *; [by econstructor|done|].
  intros j u Hj. rewrite of_thread_snoc. destruct (decide (i = j)) as [<-|Hne].
  - rewrite list_lookup_insert_eq in Hj by (by eapply lookup_lt_Some). injection Hj as <-. cbn.
    destruct (Ht i t Hi) as [-> ->]. rewrite !map_app, Hp, <- app_assoc. done.
  - rewrite list_lookup_insert_ne in Hj by done. rewrite app_nil_r. by apply Ht.
Qed.

Lemma step_explained s0 work tr c c' :
  explains s0 work tr c → mutex_ok c → fit (cf_state c) → step c c' → ∃ tr', explains s0 work tr' c'.
Proof.
  intros Hx Hm Hfit Hstep. pose proof (ex_inv _ _ _ _ Hx) as Hinv.
  destruct Hstep as [s m m' ts i r todo ans Hi Hwr Hl | s s' m ts i r seen todo ans a Hi Hf
    | s s' m ts i r seen todo ans Hi Hf | s m m' ts i r todo ans Hi Hwr Hl | s m m' ts i r todo ans Hi Hl
    | s s' m ts i r todo ans a Hi Hf]; cbn [cf_state] in *.
  - exists tr. by apply (explains_silent _ _ _ _ _ _ _ _ _ _ _ Hx Hi).
  - destruct (mo_seen _ Hm i _ r seen Hi eq_refl) as [Hwr _].
    destruct (fast_serves r s a s' Hwr Hinv Hf) as [Hinv' Hsp]. eexists.
    by apply (explains_answer _ _ _ _ _ _ _ _ _ _ r todo a Hx Hi).
  - destruct (mo_seen _ Hm i _ r seen Hi eq_refl) as [Hwr _].
    destruct (fast_refuses r s s' Hwr Hinv Hf) as [Hinv' Ha]. exists tr. by apply (explains_silent _ _ _ _ _ _ _ _ _ _ _ Hx Hi).
  - exists tr. by apply (explains_silent _ _ _ _ _ _ _ _ _ _ _ Hx Hi).
  - exists tr. by apply (explains_silent _ _ _ _ _ _ _ _ _ _ _ Hx Hi).
  - destruct (slow_serves r s a s' Hinv Hfit Hf) as [Hinv' Hsp]. eexists.
    by apply (explains_answer _ _ _ _ _ _ _ _ _ _ r todo a Hx Hi).
Qed.

Lemma run_explained s work n c :
  inv s → reaches (start s work) n c → (∀ k d, reaches (start s work) k d → fit (cf_state d)) →
  ∃ tr, explains s work tr c.
Proof.
  intros Hi Hr Hfit. induction Hr as [|n c c' Hr IH Hs]; [eexists; by apply start_explained|].
  destruct IH as [tr Htr]. eapply step_explained; [exact Htr| |by eapply Hfit|exact Hs].
  by apply (reaches_ok _ _ _ Hr), start_ok.
Qed.

End serial.

End mutex.

(** ** The server behind the mutex *)

(** A call: the principal, a clock reading and the request's bytes. *)
Definition Call : Type := Z * Z * list byte.

(** What a serial server that holds the logical columns and the point store may
    answer to a decoded, authorised request. *)
Definition answers (r : MatrixRequest) (a : View * PointStore) (resp : MatrixResponse) (a' : View * PointStore) : Prop :=
  match rq_kind r with
  | GET => a' = a ∧ ∃ v, kv_get (kv_ a.2) (rq_key r) = Ret v ∧ resp = mkResponse SERVER_OK (option_list v)
  | PUT => a'.1 = a.1 ∧ put_one (rq_key r) (rq_value r) a.2 = Ret a'.2 ∧ resp = mkResponse SERVER_OK []
  | QUERY => a' = a ∧ ∃ st out, query_ref a.1 (rq_query r) = Ret (st, out) ∧ resp = mkResponse (status_to_u32 st) out
  | HEALTH | STATS => a' = a ∧ rs_status resp = SERVER_OK
  end.

Definition serves (policy : AccessPolicy) (call : Call) (a : View * PointStore) (resp : list byte) (a' : View * PointStore) : Prop :=
  match matrix_deserialize_request call.2 with
  | None => a' = a ∧ resp = matrix_serialize_response (mkResponse ERR_BADREQUEST [])
  | Some r =>
      if negb (authorized policy call.1.1 r) then a' = a ∧ resp = matrix_serialize_response (mkResponse ERR_FORBIDDEN [])
      else ∃ x, answers r a x a' ∧ resp = matrix_serialize_response x
  end.

Definition abs_server (s : Server) : View * PointStore := (view (sv_engine s), sv_points s).

(** Everything but the statistics. *)
Definition server_core (s : Server) : Engine * PointStore :=
  (set_stats (mkStats 0 0 0 []) (sv_engine s), sv_points s).

Section shared_server.
Context `{!HashOrder Z}.
Variable policy : AccessPolicy.

Lemma dispatch_answers ns r s resp s' :
  engine_wf (sv_engine s) → calm (sv_engine s) → dispatch ns r s = Ret (resp, s') →
  engine_wf (sv_engine s') ∧ answers r (abs_server s) resp (abs_server s').
Proof.
  intros Hwf Hc. unfold dispatch, answers, abs_server. cbn [fst snd]. destruct (rq_kind r).
  - destruct (kv_get (kv_ (sv_points s)) (rq_key r)) as [v|]; [|done]. cbn. intros [= <- <-]. split; [done|].
    split; [done|]. exists v. split; [done|]. by destruct v.
  - destruct (put_one _ _ _) as [ps|]; [|done]. cbn. intros [= <- <-]. done.
  - unfold on_engine. pose proof (execute_query_run (rq_query r) ns (sv_engine s) Hwf Hc) as H.
    destruct (query_ref (view (sv_engine s)) (rq_query r)) as [[st out]|f]; [|by rewrite H].
    destruct H as (e' & -> & Hwf' & Hv & _). cbn. intros [= <- <-]. cbn. rewrite Hv. split; [done|]. split; [done|].
    by exists st, out.
  - cbn. intros [= <- <-]. done.
  - destruct (stats s) as [rs|]; [|done]. cbn. intros [= <- <-]. done.
Qed.

Lemma matrix_serve_serves principal ns b s resp s' :
  engine_wf (sv_engine s) → calm (sv_engine s) → matrix_serve policy principal ns b s = Ret (resp, s') →
  engine_wf (sv_engine s') ∧ serves policy (principal, ns, b) (abs_server s) resp (abs_server s').
Proof.
  intros Hwf Hc. unfold matrix_serve, serve_core, serves. cbn [fst snd].
  destruct (matrix_deserialize_request b) as [r|]; [|by intros [= <- <-]].
  destruct (authorized policy principal r); cbn [negb]; [|by intros [= <- <-]].
  destruct (dispatch ns r s) as [[x s1]|] eqn:E; [|done]. cbn. intros [= <- <-].
  apply dispatch_answers in E as [H1 H2]; [|done..]. eauto.
Qed.

(** Under the shared lock a request other than a PUT and an authorised QUERY
    leaves the server as it is. *)
Lemma matrix_serve_reads principal ns b s resp s' :
  wants_exclusive b = false →
  (∀ r, matrix_deserialize_request b = Some r → is_query r && authorized policy principal r = false) →
  matrix_serve policy principal ns b s = Ret (resp, s') →
  s' = s ∧ serves policy (principal, ns, b) (abs_server s) resp (abs_server s).
Proof.
  intros Hw Hq. unfold matrix_serve, serve_core, serves, wants_exclusive in *. cbn [fst snd].
  destruct (matrix_deserialize_request b) as [r|]; [|by intros [= <- <-]].
  specialize (Hq r eq_refl). destruct (authorized policy principal r) eqn:Ha; cbn [negb]; [|by intros [= <- <-]].
  rewrite andb_true_r in Hq. unfold is_query, is_put in *. apply bool_decide_eq_false in Hw, Hq.
  unfold dispatch, answers, abs_server. cbn [fst snd]. destruct (rq_kind r); [|done|done| |].
  - destruct (kv_get (kv_ (sv_points s)) (rq_key r)) as [v|]; [|done]. cbn. intros [= <- <-]. split; [done|].
    eexists. split; [|done]. split; [done|]. exists v. split; [done|]. by destruct v.
  - cbn. intros [= <- <-]. split; [done|]. by exists (mkResponse SERVER_OK (health s)).
  - destruct (stats s) as [rs|]; [|done]. cbn. intros [= <- <-]. split; [done|]. by exists (mkResponse SERVER_OK rs).
Qed.

Lemma record_query_same ns e :
  set_stats (mkStats 0 0 0 []) (record_query_latency ns e) = set_stats (mkStats 0 0 0 []) e ∧
  view (record_query_latency ns e) = view e ∧ (engine_wf e → engine_wf (record_query_latency ns e)).
Proof. split; [done|]. split; [done|]. intros []. by split. Qed.

(** One request under the shared lock: it changes the statistics at most, and
    if it is answered, it is answered as it should be. *)
Lemma serve_shared_run principal ns b s o s' :
  wants_exclusive b = false → serve_shared policy principal ns b s = Ret (o, s') →
  server_core s' = server_core s ∧ abs_server s' = abs_server s ∧
  (engine_wf (sv_engine s) → engine_wf (sv_engine s') ∧
     ∀ resp, o = Some resp → serves policy (principal, ns, b) (abs_server s) resp (abs_server s)).
Proof.
  intros Hw. unfold serve_shared.
  assert (∀ (Hq : ∀ r, matrix_deserialize_request b = Some r → is_query r && authorized policy principal r = false),
    ('(resp, s') ← matrix_serve policy principal ns b s; Ret (Some resp, s')) = Ret (o, s') →
    server_core s' = server_core s ∧ abs_server s' = abs_server s ∧
    (engine_wf (sv_engine s) → engine_wf (sv_engine s') ∧
       ∀ resp, o = Some resp → serves policy (principal, ns, b) (abs_server s) resp (abs_server s))) as Hplain.
  { intros Hq. destruct (matrix_serve policy principal ns b s) as [[resp s1]|] eqn:E; [|done]. cbn. intros [= <- <-].
    destruct (matrix_serve_reads _ _ _ _ _ _ Hw Hq E) as [-> H]. split; [done|]. split; [done|]. intros Hwf.
    split; [done|]. by intros ? [= <-]. }
  destruct (matrix_deserialize_request b) as [r|] eqn:Er; [|by apply Hplain].
  destruct (is_query r && authorized policy principal r) eqn:Hq; [|apply Hplain; by intros ? [= <-]].
  clear Hplain. apply andb_true_iff in Hq as [Hq Ha]. unfold on_engine, execute_query_shared.
  destruct (execute_query_shared_impl (rq_query r) (sv_engine s)) as [x|] eqn:Ex; [|done]. cbn. intros [= <- <-].
  destruct (record_query_same ns (sv_engine s)) as (H1 & H2 & H3). unfold server_core, abs_server. cbn.
  split; [by destruct x; [rewrite H1|]|]. split; [by destruct x; [rewrite H2|]|]. intros Hwf.
  split; [destruct x; auto|]. intros resp Hr. destruct x as [out|]; [|done]. injection Hr as <-.
  pose proof (shared_served (sv_engine s) (rq_query r) Hwf) as Hserved. rewrite Ex in Hserved. cbn in Hserved.
  unfold serves. cbn [fst snd]. rewrite Er, Ha. cbn [negb]. eexists. split; [|done]. unfold answers.
  apply bool_decide_eq_true in Hq. rewrite Hq. split; [done|]. by exists OK, out.
Qed.

Lemma serve_shared_core (call : Call) s o s' :
  wants_exclusive call.2 = false → serve_shared policy call.1.1 call.1.2 call.2 s = Ret (o, s') →
  server_core s' = server_core s.
Proof. intros Hw H. by apply (serve_shared_run _ _ _ _ _ _ Hw H). Qed.

#[export] Instance shared_server : Shared Server Call (list byte) (Engine * PointStore) := {|
  fast call := serve_shared policy call.1.1 call.1.2 call.2;
  slow call := matrix_serve policy call.1.1 call.1.2 call.2;
  writes call := wants_exclusive call.2;
  core := server_core;
  fast_core := serve_shared_core
|}.

#[export, refine] Instance serial_server : Serial Server Call (list byte) (Engine * PointStore) (View * PointStore) := {|
  abs := abs_server;
  spec := serves policy;
  inv s := engine_wf (sv_engine s);
  fit s := calm (sv_engine s)
|}.
Proof.
  - intros [[p ns] b] s a s' Hw Hi H. cbn in *. destruct (serve_shared_run _ _ _ _ _ _ Hw H) as (_ & Ha & H').
    destruct (H' Hi) as [Hwf Hs]. split; [done|]. rewrite Ha. by apply Hs.
  - intros [[p ns] b] s s' Hw Hi H. cbn in *. destruct (serve_shared_run _ _ _ _ _ _ Hw H) as (_ & Ha & H').
    split; [by apply H'|done].
  - intros [[p ns] b] s a s' Hi Hf H. cbn in *. by apply (matrix_serve_serves p ns b s a s').
Defined.

Lemma serve_shared_refuses principal ns b s s' : serve_shared policy principal ns b s = Ret (None, s') → s' = s.
Proof.
  unfold serve_shared. intros H.
  assert ((∃ r, on_engine (execute_query_shared (rq_query r) ns) s = Ret (None, s')) ∨
    ('(resp, s1) ← matrix_serve policy principal ns b s; Ret (Some resp, s1)) = Ret (None, s')) as [[r H1]|H1].
  - destruct (matrix_deserialize_request b) as [r|]; [|by right].
    destruct (is_query r && _); [|by right]. left. exists r.
    destruct (on_engine (execute_query_shared (rq_query r) ns) s) as [[[x|] s1]|]; [done|cbn in H; by injection H as ->|done].
  - unfold on_engine, execute_query_shared in H1. destruct (execute_query_shared_impl _ _) as [[x|]|]; [done| |done].
    cbn in H1. injection H1 as <-. by destruct s.
  - by destruct (matrix_serve policy principal ns b s) as [[]|].
Qed.

(** A call that meets no other: what [serve] answers is what the serial
    specification allows, whichever of the two locks it took. *)
Lemma concurrent_serve_serves principal ns b s resp s' :
  engine_wf (sv_engine s) → calm (sv_engine s) → concurrent_serve policy principal ns b s = Ret (resp, s') →
  engine_wf (sv_engine s') ∧ serves policy (principal, ns, b) (abs_server s) resp (abs_server s').
Proof.
  intros Hwf Hc. unfold concurrent_serve. destruct (wants_exclusive b) eqn:Hw; [by apply matrix_serve_serves|].
  destruct (serve_shared policy principal ns b s) as [[[x|] s1]|] eqn:E; [| |done]; cbn [mbind outcome_bind].
  - intros [= <- <-]. destruct (serve_shared_run _ _ _ _ _ _ Hw E) as (_ & Ha & H). destruct (H Hwf) as [H1 H2].
    split; [done|]. rewrite Ha. by apply H2.
  - pose proof (serve_shared_refuses _ _ _ _ _ E) as ->. by apply matrix_serve_serves.
Qed.

(** A workload without queries leaves the query engine alone. *)
Definition queries (call : Call) : bool :=
  match matrix_deserialize_request call.2 with Some r => is_query r | None => false end.

Lemma matrix_serve_engine (call : Call) s resp s' :
  queries call = false → matrix_serve policy call.1.1 call.1.2 call.2 s = Ret (resp, s') → sv_engine s' = sv_engine s.
Proof.
  unfold queries, matrix_serve, serve_core. destruct (matrix_deserialize_request call.2) as [r|]; [|by intros _ [= <- <-]].
  intros Hq. destruct (authorized policy call.1.1 r); cbn [negb]; [|by intros [= <- <-]].
  unfold is_query in Hq. apply bool_decide_eq_false in Hq. unfold dispatch. destruct (rq_kind r); [| |done|..].
  - destruct (kv_get _ _); [|done]. cbn. by intros [= <- <-].
  - destruct (put_one _ _ _); [|done]. cbn. by intros [= <- <-].
  - cbn. by intros [= <- <-].
  - destruct (stats s); [|done]. cbn. by intros [= <- <-].
Qed.

Lemma serve_shared_engine (call : Call) s o s' :
  queries call = false → serve_shared policy call.1.1 call.1.2 call.2 s = Ret (o, s') → sv_engine s' = sv_engine s.
Proof.
  intros Hq. pose proof Hq as Hq'. unfold queries in Hq'. unfold serve_shared.
  destruct (matrix_deserialize_request call.2) as [r|]; [rewrite Hq'; cbn [andb]|];
    (destruct (matrix_serve policy call.1.1 call.1.2 call.2 s) as [[x s1]|] eqn:E; [|done]; cbn; intros [= <- <-];
     by apply matrix_serve_engine in E).
Qed.

Lemma point_workload_step (c c' : Config) :
  step c c' → Forall (λ t, Forall (λ call, queries call = false) (pending t ++ th_todo t)) (cf_threads c) →
  Forall (λ t, Forall (λ call, queries call = false) (pending t ++ th_todo t)) (cf_threads c') ∧
  sv_engine (cf_state c') = sv_engine (cf_state c).
Proof.
  destruct 1 as [s m m' ts i r todo ans Hi Hwr Hl | s s' m ts i r seen todo ans a Hi Hf
    | s s' m ts i r seen todo ans Hi Hf | s m m' ts i r todo ans Hi Hwr Hl | s m m' ts i r todo ans Hi Hl
    | s s' m ts i r todo ans a Hi Hf]; cbn [cf_threads cf_state]; intros Hall;
    pose proof (Forall_lookup_1 _ _ _ _ Hall Hi) as Ht; cbn in Ht; pose proof (Forall_inv Ht) as Hq;
    (split; [apply Forall_insert; [done|]; cbn; try done; by apply Forall_inv_tail in Ht|]); try done.
  - exact (serve_shared_engine r s _ s' Hq Hf).
  - exact (serve_shared_engine r s _ s' Hq Hf).
  - exact (matrix_serve_engine r s _ s' Hq Hf).
Qed.

Lemma point_workload s work n c :
  Forall (Forall (λ call, queries call = false)) work → reaches (start s work) n c →
  sv_engine (cf_state c) = sv_engine s.
Proof.
  intros Hw Hr. enough (Forall (λ t, Forall (λ call, queries call = false) (pending t ++ th_todo t)) (cf_threads c) ∧
    sv_engine (cf_state c) = sv_engine s) by tauto.
  induction Hr as [|n c c' Hr [IH1 IH2] Hs].
  - split; [|done]. cbn. apply Forall_map. eapply Forall_impl; [exact Hw|]. done.
  - destruct (point_workload_step _ _ Hs IH1) as [H1 H2]. split; [done|]. congruence.
Qed.

(** ** Theorems *)

(** C2: Requests served concurrently answer as if one server had served them one
    after the other: for every interleaving of the threads there is one order of
    the requests answered so far, the order of each thread's own requests, in
    which the serial specification gives every answer and leads to the columns
    and the point store that the threads leave. *)
Theorem concurrent_serving_serialisable s work n c :
  engine_wf (sv_engine s) → reaches (start s work) n c →
  (∀ k d, reaches (start s work) k d → calm (sv_engine (cf_state d))) →
  ∃ tr, serial (abs_server s) tr (abs_server (cf_state c)) ∧ engine_wf (sv_engine (cf_state c)) ∧
    ∀ i t, cf_threads c !! i = Some t →
      th_done t = map snd (of_thread i tr) ∧ work !! i = Some (map fst (of_thread i tr) ++ pending t ++ th_todo t).
Proof.
  intros Hi Hr Hfit. destruct (@run_explained _ _ _ _ shared_server _ serial_server s work n c Hi Hr Hfit) as [tr []]. by exists tr.
Qed.

(** C8: Nothing deadlocks and every request is answered: after any run either some
    thread can go on, or every thread has answered exactly its requests, or the
    request being served stops the process; and no run takes more than four
    steps a request. *)
Theorem every_request_is_answered s work n c :
  reaches (start s work) n c →
  (n ≤ 4 * sum_list (length <$> work))%nat ∧
  ((∃ c', step c c') ∨ crashes c ∨
   finished c ∧ map (λ t, length (th_done t)) (cf_threads c) = length <$> work).
Proof.
  intros Hr. destruct (reaches_ok _ _ _ Hr (start_ok s work)) as (Hok & Hwork & Hload).
  rewrite start_work in Hwork. split; [lia|]. destruct (decide (finished c)) as [Hf|Hn].
  - right. right. split; [done|]. rewrite <- (finished_load c Hf), Hload. apply start_load.
  - destruct (progress c Hok Hn); auto.
Qed.

(** C37: The lock discipline: while a thread writes no other thread reads or writes,
    and every thread that reads still sees the columns, schema, tiers and points
    it found when it took the lock. *)
Theorem lock_discipline s work n c :
  reaches (start s work) n c →
  (∀ i j t u call, cf_threads c !! i = Some t → cf_threads c !! j = Some u → i ≠ j →
     th_phase t = Writing call → reading u = 0%nat ∧ writing u = 0%nat) ∧
  (∀ i t call seen, cf_threads c !! i = Some t → th_phase t = Reading call seen →
     wants_exclusive call.2 = false ∧ seen = server_core (cf_state c)).
Proof.
  intros Hr. destruct (reaches_ok _ _ _ Hr (start_ok s work)) as ([Hrd Hw He Hs] & _ & _).
  split; [|exact Hs]. intros i j t u call Hi Hj Hne Ht.
  assert (writing t = 1%nat) as H1 by (unfold writing; by rewrite Ht).
  pose proof (total_pos writing _ i t Hi) as Hp. destruct (mu_writer (cf_mutex c)) eqn:E; [|lia].
  split; [apply (total_zero reading (cf_threads c) j); [rewrite Hrd; auto|done]|].
  pose proof (total_update writing (cf_threads c) (mkThread Idle [] []) i t Hi) as Hu.
  change (writing (mkThread Idle [] [])) with 0%nat in Hu.
  apply (total_zero writing (<[i := mkThread Idle [] []]> (cf_threads c)) j); [lia|].
  by rewrite list_lookup_insert_ne.
Qed.

End shared_server.

(** ** Witnesses *)

Section witnesses.
#[local] Existing Instance elements_order.

Definition put_call : Call := (0, 0, matrix_serialize_request (plain_request PUT 7 70)).
Definition get_call : Call := (0, 0, matrix_serialize_request (plain_request GET 7 0)).
Definition two_clients : list (list Call) := [[put_call]; [get_call]].

Definition is_ret {T} (o : outcome T) : bool := match o with Ret _ => true | Crash _ => false end.

(** The get runs after the put here. *)
Lemma two_clients_run :
  ∃ x y s', matrix_serve permissive 0 0 put_call.2 sample_server = Ret (x, s') ∧
    serve_shared permissive 0 0 get_call.2 s' = Ret (Some y, s').
Proof.
  assert (is_ret ('(_, s') ← matrix_serve permissive 0 0 put_call.2 sample_server;
                  matrix_serve permissive 0 0 get_call.2 s') = true) as H by (vm_compute; reflexivity).
  destruct (matrix_serve permissive 0 0 put_call.2 sample_server) as [[x s']|]; [|discriminate H].
  cbn [mbind outcome_bind] in H. destruct (matrix_serve permissive 0 0 get_call.2 s') as [[y s'']|] eqn:E; [|discriminate H].
  assert (matrix_deserialize_request get_call.2 = Some (plain_request GET 7 0)) as Hd by (vm_compute; reflexivity).
  assert (s'' = s') as ->.
  { refine (proj1 (matrix_serve_reads permissive 0 0 get_call.2 s' y s'' _ _ E)).
    - unfold wants_exclusive. by rewrite Hd.
    - rewrite Hd. by intros r [= <-]. }
  exists x, y, s'. split; [done|]. unfold serve_shared. rewrite Hd.
  replace (is_query _ && _) with false by done. by rewrite E.
Qed.

Definition ServerConfig : Type := @Config Server Call (list byte) (Engine * PointStore).

Lemma two_clients_finish :
  ∃ c : ServerConfig, reaches (Shared0 := shared_server permissive) (start sample_server two_clients) 4 c ∧ finished c.
Proof.
  destruct two_clients_run as (x & y & s' & Hput & Hget).
  eexists. split.
  - eapply reach_step; [eapply reach_step; [eapply reach_step; [eapply reach_step; [apply reach_refl|]|]|]|].
    + apply (step_lock_write _ _ (mkMutex 0 true) _ 0 put_call); [reflexivity|vm_compute; reflexivity|reflexivity].
    + eapply (step_slow _ s' _ _ 0 put_call); [reflexivity|exact Hput].
    + eapply (step_lock_shared _ _ (mkMutex 1 false) _ 1 get_call); [reflexivity|vm_compute; reflexivity|reflexivity].
    + eapply (step_fast _ s' _ _ 1 get_call); [reflexivity|exact Hget].
  - unfold finished. repeat constructor.
Qed.

Lemma two_clients_fit k (d : ServerConfig) :
  reaches (Shared0 := shared_server permissive) (start sample_server two_clients) k d → calm (sv_engine (cf_state d)).
Proof.
  intros Hr. rewrite (point_workload permissive sample_server two_clients k d); [exact sample_calm| |exact Hr].
  repeat (apply Forall_cons; split); try apply Forall_nil; try done; vm_compute; reflexivity.
Qed.

Lemma concurrent_serving_serialisable_witness :
  ∃ (c : ServerConfig) tr, finished c ∧
    serial (Serial0 := serial_server permissive) (abs_server sample_server) tr (abs_server (cf_state c)) ∧
    length (of_thread 0 tr) = 1%nat ∧ length (of_thread 1 tr) = 1%nat.
Proof.
  destruct two_clients_finish as (c & Hr & Hf).
  destruct (concurrent_serving_serialisable permissive sample_server two_clients 4 c sample_wf Hr two_clients_fit)
    as (tr & Hs & _ & Ht).
  exists c, tr. split; [exact Hf|]. split; [exact Hs|].
  destruct (reaches_ok _ _ _ Hr (start_ok _ _)) as (_ & _ & Hl).
  destruct (cf_threads c) as [|t0 [|t1 [|? ?]]] eqn:Hc; try discriminate Hl.
  unfold finished in Hf. rewrite Hc in Hf. apply Forall_cons in Hf as [[P0 T0] [[P1 T1] _]%Forall_cons].
  destruct (Ht 0%nat t0 eq_refl) as [_ H0]. destruct (Ht 1%nat t1 eq_refl) as [_ H1].
  unfold pending in H0, H1. rewrite P0, T0, app_nil_r in H0. rewrite P1, T1, app_nil_r in H1.
  injection H0 as H0. injection H1 as H1. split.
  - rewrite <- (length_map fst), <- H0. reflexivity.
  - rewrite <- (length_map fst), <- H1. reflexivity.
Defined.

Lemma every_request_is_answered_witness :
  ∃ c : ServerConfig, finished c ∧ (4 ≤ 4 * sum_list (length <$> two_clients))%nat.
Proof.
  destruct two_clients_finish as (c & Hr & Hf). exists c. split; [exact Hf|].
  exact (proj1 (every_request_is_answered permissive sample_server two_clients 4 c Hr)).
Defined.

Lemma lock_discipline_witness :
  ∃ c : ServerConfig, finished c ∧ ∀ i t call seen, cf_threads c !! i = Some t → th_phase t = Reading call seen →
    seen = server_core (cf_state c).
Proof.
  destruct two_clients_finish as (c & Hr & Hf). exists c. split; [exact Hf|].
  intros i t call seen Hi Ht. apply (proj2 (lock_discipline permissive sample_server two_clients 4 c Hr) i t call seen Hi Ht).
Defined.

End witnesses.
