(* ===== verification/Pipeline.v ===== *)
(** * Pipeline: the batching consumer of the driver

    [main.cpp].  One thread pops point operations off the ring, gathers them in
    a buffer of [BATCH_SIZE_LIMIT] and hands the buffer to the router when it is
    full or its oldest query has waited [TEMPORAL_LIMIT_US]; another runs the
    scans one at a time.  A turn of either loop is a step whose inputs are what
    [try_pop] gave and the clock readings the turn takes; the ring itself is
    RingBuffer.  Pinning, spinning and the printed figures are not modelled. *)

From S2P Require Export Server Tiering.

Definition BATCH_SIZE_LIMIT : nat := 512.
Definition TEMPORAL_LIMIT_US : Z := 50.
Definition SCAN_EVERY : Z := 1000.

Section pipeline.
Context `{!HashOrder Z}.

(** ** The CPU engine behind the router *)

(** [execute_scan]: the parameters ride in the payload, the result in
    [transaction_id]. *)
Definition scan_query (q : DatabaseQuery) : stM Engine DatabaseQuery := λ e,
  threshold ← matrix_get_scan_threshold q;
  col_id ← matrix_get_scan_column_id q;
  op ← matrix_get_scan_agg_op q;
  '(c, e) ← execute_scan (Z.to_nat MATRIX_SCAN_COLUMN_SIZE) threshold col_id op e;
  Ret (set_transaction_id c q, e).

#[export] Instance cpu_engine : ComputeInterface Server := {|
  ci_execute_batch batch s := ps ← execute_batch batch (sv_points s); Ret (mkServer (sv_engine s) ps);
  ci_execute_scan q := on_engine (scan_query q)
|}.

Definition CpuRouter : Type := Router Server Server.

(** ** The producer *)

(** The [i]-th query: every [SCAN_EVERY]-th is a scan, the others alternate
    reads and writes. *)
Definition produce (threshold i stamp_ns : Z) : outcome DatabaseQuery :=
  let q := mkQuery i stamp_ns 0 OP_READ 8 (replicate 32 Byte.x00) in
  if i `mod` SCAN_EVERY =? 0 then matrix_set_scan_threshold q threshold
  else Ret (mkQuery i stamp_ns 0 (if i `mod` 2 =? 0 then OP_READ else OP_WRITE) 8 (replicate 32 Byte.x00)).

(** ** The consumer of point operations *)

Record Consumer := mkConsumer {
  batch : list DatabaseQuery;          (* the first [accumulated_queries] slots *)
  batch_start_time : Z;                (* ns *)
  latencies_ns : list Z;
  total_processed : Z;
  router : CpuRouter
}.

(** What one turn of the loop finds. *)
Record Turn := mkTurn {
  incoming : option DatabaseQuery;     (* [try_pop] *)
  now_ns : Z;                          (* the clock at the pop *)
  start_ns : Z;                        (* at the first query of a batch *)
  current_ns : Z                       (* at the test of the triggers *)
}.

Definition gather (t : Turn) (c : Consumer) : outcome Consumer :=
  match incoming t with
  | None => Ret c
  | Some q =>
      let start := match batch c with [] => start_ns t | _ => batch_start_time c end in
      if (length (batch c) <? BATCH_SIZE_LIMIT)%nat
      then Ret (mkConsumer (batch c ++ [q]) start (latencies_ns c ++ [u64 (now_ns t - timestamp_us q)])
                  (total_processed c) (router c))
      else Crash Undefined
  end.

Definition duration_us (t : Turn) (c : Consumer) : Z := Z.quot (current_ns t - batch_start_time c) 1000.

Definition flush_due (t : Turn) (c : Consumer) : bool :=
  (BATCH_SIZE_LIMIT <=? length (batch c))%nat || (TEMPORAL_LIMIT_US <=? duration_us t c).

Definition flush (c : Consumer) : outcome Consumer :=
  '(_, r) ← route_batch (batch c) (router c);
  Ret (mkConsumer [] (batch_start_time c) (latencies_ns c)
         (u64 (total_processed c + Z.of_nat (length (batch c)))) r).

Definition turn (c : Consumer) (t : Turn) : outcome Consumer :=
  c ← gather t c;
  match batch c with
  | [] => Ret c
  | _ => if flush_due t c then flush c else Ret c
  end.

Fixpoint consume (ts : list Turn) (c : Consumer) : outcome Consumer :=
  match ts with
  | [] => Ret c
  | t :: ts' => c ← turn c t; consume ts' c
  end.

(** ** The consumer of scans *)

Fixpoint consume_scans (scan_col_id : Z) (popped : list DatabaseQuery) (scans_processed : Z) (r : CpuRouter) :
    outcome (Z * CpuRouter) :=
  match popped with
  | [] => Ret (scans_processed, r)
  | sq :: rest => '(_, r) ← route_scan sq scan_col_id r; consume_scans scan_col_id rest (u64 (scans_processed + 1)) r
  end.

(** ** Lemmas *)

Definition popped_of (ts : list Turn) : list DatabaseQuery := omap incoming ts.

Definition points (c : Consumer) : PointStore := sv_points (cpu_ (router c)).

Lemma exec_queries_app m a b : (exec_queries m (a ++ b)).1 = (exec_queries (exec_queries m a).1 b).1.
Proof.
  revert m. induction a as [|q a IH]; intros m; [done|]. cbn. destruct (exec_query m q) as [m1 q1].
  specialize (IH m1). destruct (exec_queries m1 (a ++ b)) as [m2 l2], (exec_queries m1 a) as [m3 l3]. exact IH.
Qed.

Lemma exec_prefix_fits m a b : fits (exec_queries m (a ++ b)).1 → fits (exec_queries m a).1.
Proof.
  unfold fits. rewrite exec_queries_app. pose proof (exec_queries_grows b (exec_queries m a).1) as H. intros Hf.
  lia.
Qed.

(** What holds between two turns when the queries [todo] are still to come. *)
Record consuming (wal : string) (m0 : gmap Z Z) (done todo : list DatabaseQuery) (c : Consumer) : Prop := {
  co_ready : PointStore.ready wal (length (batch c) + length todo) (points c);
  co_binned : Z.of_nat (length (binned_ (points c))) = MATRIX_BATCH_MAX;
  co_offsets : length (offsets_ (points c)) = S (Z.to_nat MATRIX_PAGE_COUNT);
  co_room : (length (batch c) < BATCH_SIZE_LIMIT)%nat;
  co_split : ∃ served, done = served ++ batch c ∧ total_processed c = Z.of_nat (length served) ∧
               kv_map (kv_ (points c)) = (exec_queries m0 served).1;
  co_fits : fits (exec_queries m0 (done ++ todo)).1;
  co_ids : Forall (λ q, in_u64 (query_id q)) (done ++ todo);
  co_count : Z.of_nat (length (done ++ todo)) < 2 ^ 64
}.

Lemma route_batch_run (b : list DatabaseQuery) (r : CpuRouter) ps :
  execute_batch b (sv_points (cpu_ r)) = Ret ps →
  route_batch b r = Ret (tt, mkRouter (mkServer (sv_engine (cpu_ r)) ps) (gpu_ r) (cm_ r) (placement_ r)).
Proof.
  intros H. unfold route_batch, Tiering.dispatch, goes_to_gpu, place_point. rewrite bool_decide_false by done. cbn [andb].
  unfold on_cpu, ci_execute_batch, cpu_engine. by rewrite H.
Qed.

Lemma gather_run wal m0 done todo t c :
  consuming wal m0 done (option_list (incoming t) ++ todo) c →
  ∃ c', gather t c = Ret c' ∧ router c' = router c ∧ total_processed c' = total_processed c ∧
    batch c' = batch c ++ option_list (incoming t) ∧ (length (batch c') ≤ BATCH_SIZE_LIMIT)%nat.
Proof.
  intros [_ _ _ Hroom _ _ _ _]. unfold gather. destruct (incoming t) as [q|].
  - destruct (Nat.ltb_spec (length (batch c)) BATCH_SIZE_LIMIT); [|lia]. eexists. split; [done|]. cbn.
    rewrite length_app. cbn. split; [done|]. split; [done|]. split; [done|lia].
  - exists c. rewrite app_nil_r. do 4 (split; [done|]). lia.
Qed.

(** The buffer handed over to the engine. *)
Lemma flush_run wal m0 served todo c :
  PointStore.ready wal (length todo + length (batch c)) (points c) → batch c ≠ [] →
  (length (batch c) ≤ BATCH_SIZE_LIMIT)%nat →
  Z.of_nat (length (binned_ (points c))) = MATRIX_BATCH_MAX →
  length (offsets_ (points c)) = S (Z.to_nat MATRIX_PAGE_COUNT) →
  total_processed c = Z.of_nat (length served) → kv_map (kv_ (points c)) = (exec_queries m0 served).1 →
  fits (exec_queries m0 ((served ++ batch c) ++ todo)).1 →
  Forall (λ q, in_u64 (query_id q)) ((served ++ batch c) ++ todo) →
  Z.of_nat (length ((served ++ batch c) ++ todo)) < 2 ^ 64 →
  ∃ c', flush c = Ret c' ∧ batch c' = [] ∧ consuming wal m0 (served ++ batch c) todo c'.
Proof.
  intros Hr Hne Hlim Hbin Hoff Htot Hmap Hfit Hids Hcount.
  destruct (execute_batch_run wal (length todo) (batch c) (points c)) as (ps & Hrun & Hr' & Hbin' & Hoff' & Hmap' & _);
    [done|done|unfold BATCH_SIZE_LIMIT, MATRIX_BATCH_MAX in *; lia|done|done| | |].
  - by apply Forall_app in Hids as [[_ ?]%Forall_app _].
  - rewrite Hmap, <- exec_queries_app. by apply exec_prefix_fits with todo.
  - eexists. split; [unfold flush; rewrite (route_batch_run _ _ ps Hrun); done|]. split; [done|].
    rewrite !length_app in Hcount. split; cbn; try done; [|exists (served ++ batch c)|rewrite !length_app; lia].
    + unfold BATCH_SIZE_LIMIT. lia.
    + rewrite app_nil_r, length_app, exec_queries_app, <- Hmap. split; [done|]. split; [|done].
      rewrite Htot. unfold u64. rewrite Z.mod_small by lia. lia.
Qed.

Lemma turn_run wal m0 done todo t c :
  consuming wal m0 done (option_list (incoming t) ++ todo) c →
  ∃ c', turn c t = Ret c' ∧ consuming wal m0 (done ++ option_list (incoming t)) todo c' ∧
    (batch c' ≠ [] → flush_due t c' = false).
Proof.
  intros Hc. destruct (gather_run wal m0 done todo t c Hc) as (c1 & Hg & Hrt & Htp & Hb & Hlim).
  destruct Hc as [Hready Hbin Hoff Hroom (served & -> & Htot & Hmap) Hfit Hids Hcount].
  assert (points c1 = points c) as Hp by (unfold points; by rewrite Hrt).
  rewrite <- Hp in Hready, Hbin, Hoff, Hmap. rewrite <- Htp in Htot.
  rewrite (assoc_L (++)), <- (assoc_L (++) served), <- Hb in Hfit, Hids, Hcount.
  rewrite <- (assoc_L (++) served), <- Hb. rewrite length_app, Nat.add_assoc, <- length_app, <- Hb in Hready.
  rewrite Nat.add_comm in Hready. unfold turn. rewrite Hg. cbn [mbind outcome_bind].
  destruct (batch c1) as [|q b] eqn:Eb.
  - exists c1. split; [done|]. split; [|done].
    split; rewrite ?Eb; try done; [by rewrite Nat.add_comm|unfold BATCH_SIZE_LIMIT; cbn; lia|by exists served].
  - destruct (flush_due t c1) eqn:Ef.
    + destruct (flush_run wal m0 served todo c1) as (c' & Hf & Hnil & Hc'); rewrite ?Eb; try done.
      exists c'. rewrite Eb in Hc'. split; [done|]. split; [done|]. by rewrite Hnil.
    + exists c1. split; [done|]. split; [|done]. rewrite <- Eb in *. split; try done.
      * by rewrite Nat.add_comm.
      * unfold flush_due in Ef. apply orb_false_iff in Ef as [Ef _]. apply Nat.leb_gt in Ef. done.
      * by exists served.
Qed.

Lemma popped_cons t ts : popped_of (t :: ts) = option_list (incoming t) ++ popped_of ts.
Proof. unfold popped_of. cbn. by destruct (incoming t). Qed.

Lemma consume_run wal m0 ts : ∀ done c,
  consuming wal m0 done (popped_of ts) c →
  ∃ c', consume ts c = Ret c' ∧ consuming wal m0 (done ++ popped_of ts) [] c' ∧
    (batch c' ≠ [] → ∀ t, last ts = Some t → flush_due t c' = false).
Proof.
  induction ts as [|t ts IH]; intros done c Hc.
  - exists c. rewrite app_nil_r. done.
  - rewrite popped_cons in Hc. destruct (turn_run _ _ _ _ _ _ Hc) as (c1 & Ht & Hc1 & Hdue).
    destruct (IH _ _ Hc1) as (c' & Hrun & Hc' & Hlast). exists c'. cbn [consume]. rewrite Ht. cbn [mbind outcome_bind].
    rewrite popped_cons, (assoc_L (++)). split; [done|]. split; [done|]. intros Hne u Hu.
    destruct ts as [|t' ts']; [|by apply Hlast]. injection Hu as <-. cbn in Hrun. injection Hrun as <-. by apply Hdue.
Qed.

Lemma consume_app ts ts' c : consume (ts ++ ts') c = (c ← consume ts c; consume ts' c).
Proof.
  revert c. induction ts as [|t ts IH]; intros c; [done|]. cbn. destruct (turn c t); [|done]. apply IH.
Qed.

Lemma flush_empties c c' : flush c = Ret c' → batch c' = [].
Proof. unfold flush. intros ([[] r] & _ & [= <-])%bind_Ret. done. Qed.

Lemma late_flush c t c' :
  incoming t = None → turn c t = Ret c' → TEMPORAL_LIMIT_US * 1000 ≤ current_ns t - batch_start_time c → batch c' = [].
Proof.
  unfold turn, gather. intros -> Hrun Hlate. cbn [mbind outcome_bind] in Hrun.
  assert (flush_due t c = true) as Hd.
  { unfold flush_due, duration_us. apply orb_true_iff. right. apply Z.leb_le, Z.quot_le_lower_bound; lia. }
  rewrite Hd in Hrun. destruct (batch c) as [|q b] eqn:Ec; [by injection Hrun as <-|by apply flush_empties in Hrun].
Qed.

Definition fresh_consumer (r : CpuRouter) : Consumer := mkConsumer [] 0 [] 0 r.

(** ** Theorems *)

(** Batching changes nothing: whatever the clock says and however the pops fall,
    the point store ends as if the queries counted in [total_processed] had been
    run one by one in the order they were popped; the others, fewer than a
    batch, wait in the buffer in that order, and the oldest of them has waited
    less than the temporal limit. *)
Theorem pipeline_runs_in_order wal ts r :
  let ps := sv_points (cpu_ r) in
  let popped := popped_of ts in
  PointStore.ready wal (length popped) ps →
  Z.of_nat (length (binned_ ps)) = MATRIX_BATCH_MAX → length (offsets_ ps) = S (Z.to_nat MATRIX_PAGE_COUNT) →
  fits (exec_queries (kv_map (kv_ ps)) popped).1 → Forall (λ q, in_u64 (query_id q)) popped →
  Z.of_nat (length popped) < 2 ^ 64 →
  ∃ c served, consume ts (fresh_consumer r) = Ret c ∧ popped = served ++ batch c ∧
    total_processed c = Z.of_nat (length served) ∧
    kv_map (kv_ (points c)) = (exec_queries (kv_map (kv_ ps)) served).1 ∧
    (length (batch c) < BATCH_SIZE_LIMIT)%nat ∧
    (batch c ≠ [] → ∀ t, last ts = Some t → duration_us t c < TEMPORAL_LIMIT_US).
Proof.
  intros ps popped Hr Hb Ho Hf Hi Hn.
  destruct (consume_run wal (kv_map (kv_ ps)) ts [] (fresh_consumer r)) as (c & Hrun & [_ _ _ Hroom Hs _ _ _] & Hlast).
  { split; cbn; try done; [unfold BATCH_SIZE_LIMIT; lia|]. by exists []. }
  destruct Hs as (served & Hpop & Htot & Hmap). exists c, served. split; [done|]. split; [done|]. split; [done|].
  split; [done|]. split; [done|]. intros Hne t Ht. specialize (Hlast Hne t Ht).
  unfold flush_due in Hlast. apply orb_false_iff in Hlast as [_ Hlast]. by apply Z.leb_gt.
Qed.

(** Nothing stays in the buffer: a turn that pops nothing and finds the clock
    past the temporal limit flushes, so that every query popped so far has been
    processed. *)
Theorem pipeline_drains wal ts t r c :
  let ps := sv_points (cpu_ r) in
  let popped := popped_of (ts ++ [t]) in
  PointStore.ready wal (length popped) ps →
  Z.of_nat (length (binned_ ps)) = MATRIX_BATCH_MAX → length (offsets_ ps) = S (Z.to_nat MATRIX_PAGE_COUNT) →
  fits (exec_queries (kv_map (kv_ ps)) popped).1 → Forall (λ q, in_u64 (query_id q)) popped →
  Z.of_nat (length popped) < 2 ^ 64 →
  incoming t = None → consume ts (fresh_consumer r) = Ret c →
  TEMPORAL_LIMIT_US * 1000 ≤ current_ns t - batch_start_time c →
  ∃ c', consume (ts ++ [t]) (fresh_consumer r) = Ret c' ∧ batch c' = [] ∧
    total_processed c' = Z.of_nat (length popped) ∧
    kv_map (kv_ (points c')) = (exec_queries (kv_map (kv_ ps)) popped).1.
Proof.
  intros ps popped Hr Hb Ho Hf Hi Hn Ht Hc Hlate.
  destruct (consume_run wal (kv_map (kv_ ps)) (ts ++ [t]) [] (fresh_consumer r)) as (c' & Hrun & [_ _ _ _ Hs _ _ _] & Hlast).
  { split; cbn; try done; [unfold BATCH_SIZE_LIMIT; lia|]. by exists []. }
  destruct Hs as (served & Hpop & Htot & Hmap). exists c'. split; [done|].
  assert (batch c' = []) as Hnil.
  { rewrite consume_app, Hc in Hrun. cbn [mbind outcome_bind consume] in Hrun. apply bind_Ret in Hrun as (c2 & H2 & H3).
    injection H3 as ->. by apply (late_flush c t). }
  rewrite Hnil, app_nil_r in Hpop. change ([] ++ popped_of (ts ++ [t])) with popped in Hpop.
  split; [done|]. by rewrite Hpop.
Qed.

End pipeline.

(** ** Witnesses *)

Section witnesses.
#[local] Existing Instance elements_order.

Definition demo_router : CpuRouter := mkRouter sample_server None (mkCostModel (detect false) false) [].

Definition point (i op : Z) : DatabaseQuery := mkQuery i 0 0 op 8 (replicate 32 Byte.x00).

(** Three pops 10 µs apart, then silence until 60 µs after the first. *)
Definition three_turns : list Turn :=
  [mkTurn (Some (point 1 OP_WRITE)) 0 0 0; mkTurn (Some (point 2 OP_READ)) 10000 0 10000;
   mkTurn (Some (point 3 OP_WRITE)) 20000 0 20000].

Lemma demo_ready n : (n ≤ 3)%nat → PointStore.ready "wal" n (sv_points (cpu_ demo_router)).
Proof.
  intros Hn. split; [exact (pd_inv _ _ (open_txn_durable [] false))|]. right. split; [apply open_txn_durable|]. cbn. lia.
Qed.

Lemma pipeline_runs_in_order_witness :
  ∃ c, consume three_turns (fresh_consumer demo_router) = Ret c ∧ (length (batch c) < BATCH_SIZE_LIMIT)%nat.
Proof.
  destruct (pipeline_runs_in_order "wal" three_turns demo_router) as (c & served & H & _ & _ & _ & Hl & _).
  - apply demo_ready. cbn. lia.
  - cbn [demo_router cpu_ sample_server sv_points open_txn with_txn fresh_ps binned_]. rewrite length_replicate. reflexivity.
  - cbn [demo_router cpu_ sample_server sv_points open_txn with_txn fresh_ps offsets_]. rewrite length_replicate. reflexivity.
  - change (sv_points (cpu_ demo_router)) with (open_txn [] false). rewrite open_txn_map. vm_compute. discriminate.
  - repeat constructor; unfold in_u64; cbn; lia.
  - cbn. lia.
  - exists c. split; [exact H|exact Hl].
Defined.

Lemma three_turns_run (r : CpuRouter) :
  consume three_turns (fresh_consumer r) =
    Ret (mkConsumer [point 1 OP_WRITE; point 2 OP_READ; point 3 OP_WRITE] 0 [0; 10000; 20000] 0 r).
Proof. reflexivity. Qed.

Lemma pipeline_drains_witness :
  ∃ c', consume (three_turns ++ [mkTurn None 60000 0 60000]) (fresh_consumer demo_router) = Ret c' ∧
    total_processed c' = 3 ∧ kv_map (kv_ (points c')) = <[3 := 3]> {[ 1 := 1 ]}.
Proof.
  destruct (pipeline_drains "wal" three_turns (mkTurn None 60000 0 60000) demo_router
    (mkConsumer [point 1 OP_WRITE; point 2 OP_READ; point 3 OP_WRITE] 0 [0; 10000; 20000] 0 demo_router))
    as (c' & H & _ & Ht & Hm).
  - apply demo_ready. cbn. lia.
  - cbn [demo_router cpu_ sample_server sv_points open_txn with_txn fresh_ps binned_]. rewrite length_replicate. reflexivity.
  - cbn [demo_router cpu_ sample_server sv_points open_txn with_txn fresh_ps offsets_]. rewrite length_replicate. reflexivity.
  - change (sv_points (cpu_ demo_router)) with (open_txn [] false). rewrite open_txn_map. vm_compute. discriminate.
  - repeat constructor; unfold in_u64; cbn; lia.
  - cbn. lia.
  - reflexivity.
  - apply three_turns_run.
  - unfold TEMPORAL_LIMIT_US. cbn. lia.
  - exists c'. split; [exact H|]. split; [exact Ht|]. rewrite Hm.
    change (sv_points (cpu_ demo_router)) with (open_txn [] false). rewrite open_txn_map. reflexivity.
Defined.

End witnesses.
