(* ===== verification/Daemon.v ===== *)
(** * Daemon: the network server

    [matrixdbd.cpp] and the threads of [server_tcp.hpp]: the command line, the
    snapshot it opens, whom it lets in, and what each accepted connection is
    served when no other interferes.  Listener has the accept loops and the
    connections together. *)

From S2P Require Export ConcurrentServer ServerTcp EngineSnapshot Text.
#[local] Open Scope string_scope.
#[local] Open Scope Z_scope.

(** ** The command line *)

(** [--open] and [--token], in pairs: a last word without a partner is not
    looked at. *)
Fixpoint parse_options (args : list string) (snapshot token : string) : option (string * string) :=
  match args with
  | flag :: value :: rest =>
      if String.eqb flag "--open" then parse_options rest value token
      else if String.eqb flag "--token" then parse_options rest snapshot value
      else None
  | _ => Some (snapshot, token)
  end.

Definition port_of (arg : string) : Z := strtoull arg `mod` 2 ^ 16.

(** How [main] goes on after its set-up: it exits, or it serves on a port, with
    the credentials of a token or with none. *)
Inductive Startup : Type :=
  | Exits (code : Z)
  | Serves (port : Z) (auth : option Authenticator) (policy : AccessPolicy).

Section daemon.
Context `{!HashOrder Z}.
Variable mem : Z.

(** Principal 1 may read, write and query every column of the catalog. *)
Definition token_policy (e : Engine) : AccessPolicy :=
  foldl (λ p c, allow_column 1 (ci_id c) p) (allow_write 1 (allow_read 1 no_access)) (catalog_columns e).

Definition start_serving (port : Z) (token : string) (e : Engine) : Startup :=
  if String.eqb token EmptyString then Serves port None permissive
  else Serves port (Some (add_credential token 1 [])) (token_policy e).

Definition daemon_main (argv : list string) (e : Engine) : outcome (Startup * Engine) :=
  match argv with
  | _ :: port :: args =>
      match parse_options args EmptyString EmptyString with
      | None => Ret (Exits 2, e)
      | Some (snapshot, token) =>
          '(ok, e) ← (if String.eqb snapshot EmptyString then Ret (true, e) else load_catalog mem snapshot e);
          if (ok : bool) then Ret (start_serving (port_of port) token e, e) else Ret (Exits 1, e)
      end
  | _ => Ret (Exits 2, e)
  end.

(** ** One connection *)

Definition matrix_serve_conn_concurrent (policy : AccessPolicy) (principal ns : Z) (so : Socket) : stM Server (bool * Socket) :=
  serve_frame (concurrent_serve policy principal ns) so.

(** The body of the thread that [matrix_serve_tcp] starts. *)
Definition serve_tcp_thread (policy : AccessPolicy) (clock : nat → Z) (so : Socket) : stM Server Socket :=
  serve_until_closed (concurrent_serve policy 0) clock so.

(** The body of the thread that [matrix_serve_tcp_auth] starts. *)
Definition serve_tcp_auth_thread (policy : AccessPolicy) (auth : Authenticator) (clock : nat → Z) (so : Socket) :
    stM Server Socket := λ s,
  match authenticate_conn auth so with
  | None => Ret (so, s)
  | Some (principal, so) => serve_until_closed (concurrent_serve policy principal) clock so s
  end.

Definition connection_thread (auth : option Authenticator) (policy : AccessPolicy) : (nat → Z) → Socket → stM Server Socket :=
  match auth with None => serve_tcp_thread policy | Some a => serve_tcp_auth_thread policy a end.

(** ** Lemmas *)

Lemma can_query_grants (ids : list Z) p principal col :
  pol_allow_all p = false →
  can_query (foldl (λ p id, allow_column 1 id p) p ids) principal col = true ↔
    can_query p principal col = true ∨ (principal = 1 ∧ col ∈ ids).
Proof.
  revert p. induction ids as [|id ids IH]; intros p Hp; cbn [foldl]; [set_solver|].
  rewrite IH by done. unfold can_query, allow_column. cbn [pol_allow_all pol_cols]. rewrite Hp. cbn [orb].
  rewrite elem_of_cons, lookup_insert. destruct (decide (1 = principal)) as [<-|Hne].
  - rewrite bool_decide_eq_true, elem_of_union, elem_of_singleton. destruct (pol_cols p !! 1) as [s|]; cbn.
    + rewrite bool_decide_eq_true. tauto.
    + set_solver.
  - split; [intros [H|[-> _]]; [by left|done]|]. intros [H|[-> _]]; [by left|done].
Qed.

Lemma foldl_map_ids (cols : list ColumnInfo) p :
  foldl (λ p id, allow_column 1 id p) p (map ci_id cols) = foldl (λ p c, allow_column 1 (ci_id c) p) p cols.
Proof. revert p. induction cols as [|c cols IH]; intros p; [done|]. apply IH. Qed.

Lemma parse_options_token args : ∀ snapshot token s t,
  parse_options args snapshot token = Some (s, t) → t = token ∨ t ∈ args.
Proof.
  enough (∀ n args, (length args ≤ n)%nat → ∀ snapshot token s t,
    parse_options args snapshot token = Some (s, t) → t = token ∨ t ∈ args) as H by (by apply (H (length args))).
  clear args. induction n as [|n IH]; intros [|flag [|value rest]] Hl snapshot token s t H; cbn in *; try lia;
    try (injection H as <- <-; by left).
  destruct (String.eqb flag "--open"); [|destruct (String.eqb flag "--token"); [|done]];
    (destruct (IH rest ltac:(lia) _ _ _ _ H) as [->|Hin]; [set_solver|set_solver]).
Qed.

Lemma daemon_token argv e port auth policy e' :
  daemon_main argv e = Ret (Serves port (Some auth) policy, e') →
  ∃ token, token ≠ EmptyString ∧ token ∈ argv ∧ auth = add_credential token 1 [] ∧ policy = token_policy e'.
Proof.
  unfold daemon_main. destruct argv as [|prog [|p args]]; [done|done|].
  destruct (parse_options args EmptyString EmptyString) as [[snapshot token]|] eqn:Ep; [|done].
  destruct (if String.eqb snapshot EmptyString then Ret (true, e) else load_catalog mem snapshot e) as [[[] e1]|];
    [|done|done]. cbn [mbind outcome_bind]. unfold start_serving. destruct (String.eqb_spec token EmptyString) as [->|Hne]; [done|].
  intros [= <- <- <- <-]. exists token. split; [done|]. split; [|done].
  destruct (parse_options_token _ _ _ _ _ Ep) as [->|Hin]; [done|set_solver].
Qed.

Lemma token_policy_other (cols : list ColumnInfo) p :
  pol_allow_all (foldl (λ p c, allow_column 1 (ci_id c) p) p cols) = pol_allow_all p ∧
  pol_read (foldl (λ p c, allow_column 1 (ci_id c) p) p cols) = pol_read p ∧
  pol_write (foldl (λ p c, allow_column 1 (ci_id c) p) p cols) = pol_write p.
Proof.
  revert p. induction cols as [|c cols IH]; intros p; [done|]. cbn [foldl]. destruct (IH (allow_column 1 (ci_id c) p)) as (H1 & H2 & H3).
  by rewrite H1, H2, H3.
Qed.

Lemma catalog_column_ids e col : col ∈ map ci_id (catalog_columns e) ↔ is_Some (catalog_ e !! col).
Proof.
  unfold catalog_columns. rewrite map_map, list_elem_of_In, in_map_iff. split.
  - intros ([id c] & <- & H%list_elem_of_In%elem_of_hash_iter). by exists c.
  - intros [c Hc]. exists (col, c). split; [done|]. by apply list_elem_of_In, elem_of_hash_iter.
Qed.

Lemma token_policy_grants e principal :
  (∀ col, can_query (token_policy e) principal col = true ↔ principal = 1 ∧ is_Some (catalog_ e !! col)) ∧
  (can_read (token_policy e) principal = true ↔ principal = 1) ∧
  (can_write (token_policy e) principal = true ↔ principal = 1).
Proof.
  unfold token_policy. destruct (token_policy_other (catalog_columns e) (allow_write 1 (allow_read 1 no_access))) as (H1 & H2 & H3).
  split; [|split].
  - intros col. rewrite <- catalog_column_ids, <- foldl_map_ids, can_query_grants by done.
    split; [intros [H|H]; [done|exact H]|by right].
  - unfold can_read. rewrite H1, H2. cbn. rewrite bool_decide_eq_true. set_solver.
  - unfold can_write. rewrite H1, H3. cbn. rewrite bool_decide_eq_true. set_solver.
Qed.

Lemma one_credential token t :
  token ≠ EmptyString → authenticate t (add_credential token 1 []) = if decide (t = token) then Some 1 else None.
Proof.
  intros Hne. unfold authenticate, add_credential. cbn [app fold_left fst snd].
  rewrite timing_safe_equal_eq. destruct (String.eqb_spec t EmptyString) as [->|Ht].
  - by rewrite decide_False by (by intros <-).
  - destruct (decide (t = token)) as [->|Hd]; [by rewrite bool_decide_true|by rewrite bool_decide_false].
Qed.

(** ** Theorems *)

(** A daemon that serves behind a token lets in exactly the holders of that
    token, as principal 1, who may read, write and query every column the
    daemon opened; no other principal may do anything. *)
Theorem token_daemon_guards argv e port auth policy e' :
  daemon_main argv e = Ret (Serves port (Some auth) policy, e') →
  (∃ token, token ≠ EmptyString ∧ token ∈ argv ∧
     ∀ t principal, authenticate t auth = Some principal ↔ t = token ∧ principal = 1) ∧
  ∀ principal,
    (∀ col, can_query policy principal col = true ↔ principal = 1 ∧ is_Some (catalog_ e' !! col)) ∧
    (can_read policy principal = true ↔ principal = 1) ∧ (can_write policy principal = true ↔ principal = 1).
Proof.
  intros H. destruct (daemon_token argv e port auth policy e' H) as (token & Hne & Hin & -> & ->).
  split; [|intros principal; apply token_policy_grants]. exists token. split; [done|]. split; [done|].
  intros t principal. rewrite one_credential by done. destruct (decide (t = token)); [|naive_solver].
  split; [intros [= <-]; done|by intros [_ ->]].
Qed.

(** A connection to such a daemon: the first frame must be the token.  With it
    every request frame that follows is answered in order, as principal 1; with
    any other nothing is read from the engine and nothing is sent. *)
Theorem token_connection token policy clock so s token' reqs :
  token ≠ EmptyString → data so = (frame (bytes_of_text token') ++ frames reqs)%list →
  Z.of_nat (String.length token') ≤ TOKEN_CAP → (∀ k, 0 < so_takes so k)%nat →
  Forall (λ r, Z.of_nat (length r) ≤ FRAME_CAP) reqs →
  let thread := connection_thread (Some (add_credential token 1 [])) policy clock so s in
  (token' ≠ token → thread = Ret (so, s)) ∧
  ∀ resps s', token' = token →
    serve_each (concurrent_serve policy 1) 0 clock reqs s = Ret (resps, s') →
    Forall (λ r, Z.of_nat (length r) < 2 ^ 32) resps →
    ∃ so', thread = Ret (so', s') ∧ so_out so' = (so_out so ++ frames resps)%list.
Proof.
  intros Hne Hd Hcap Ht Hreqs thread. subst thread.
  destruct (recv_frame_run TOKEN_CAP so (bytes_of_text token') (frames reqs) Hd) as (so1 & Hr & (R1 & R2 & R3 & R4 & R5) & _);
    [rewrite length_bytes_of_text; unfold TOKEN_CAP in *; lia|].
  cbn [connection_thread]. unfold serve_tcp_auth_thread, authenticate_conn. rewrite Hr. cbn [mbind option_bind].
  rewrite text_of_bytes, one_credential by done. split; [by intros ?; rewrite decide_False|].
  intros resps s' -> Hs Hresps. rewrite decide_True by done. cbn [mbind option_bind].
  destruct (serve_loop_run (concurrent_serve policy 1) clock reqs (S (ServerTcp.pending so1)) 0 so1 s resps s' [])
    as (so' & Hrun & Hout); rewrite ?app_nil_r; try done.
  - intros so2 H2. apply recv_frame_none. left. rewrite H2. cbn. lia.
  - by rewrite R2.
  - lia.
  - exists so'. split; [exact Hrun|]. by rewrite Hout, R4.
Qed.

(** A [--token] that is the last word of the command line is not read: the
    daemon serves everyone everything.  So it does for an empty token. *)
Theorem lone_token_serves_everyone prog port e :
  daemon_main [prog; port; "--token"] e = Ret (Serves (port_of port) None permissive, e) ∧
  daemon_main [prog; port; "--token"; EmptyString] e = Ret (Serves (port_of port) None permissive, e).
Proof. done. Qed.

End daemon.

(** ** Witnesses *)

Lemma token_daemon_guards_witness :
  ∃ auth policy, daemon_main (HashOrder0 := elements_order) 1000 ["matrixdbd"; "7070"; "--token"; "s3"] sample =
      Ret (Serves 7070 (Some auth) policy, sample) ∧
    authenticate "s3" auth = Some 1 ∧ can_query policy 1 2 = true ∧ can_write policy 2 = false.
Proof.
  pose (policy := token_policy (HashOrder0 := elements_order) sample).
  assert (daemon_main (HashOrder0 := elements_order) 1000 ["matrixdbd"; "7070"; "--token"; "s3"] sample =
    Ret (Serves 7070 (Some (add_credential "s3" 1 [])) policy, sample)) as E by reflexivity.
  destruct (token_daemon_guards (HashOrder0 := elements_order) 1000 _ sample 7070 _ policy sample E) as [(token & _ & Hin & Ha) Hp].
  exists (add_credential "s3" 1 []), policy. split; [exact E|]. split; [reflexivity|]. split.
  - apply (proj1 (Hp 1)). split; [reflexivity|]. vm_compute. eexists. reflexivity.
  - destruct (can_write policy 2) eqn:Hw; [|reflexivity]. apply (proj2 (proj2 (Hp 2))) in Hw. discriminate Hw.
Defined.

Definition concurrent_answers_check : bool :=
  match serve_each (concurrent_serve (HashOrder0 := elements_order) permissive 1) 0 (λ _, 0) two_requests sample_server with
  | Ret ([a; b], _) =>
      bool_decide (a = matrix_serialize_response (mkResponse SERVER_OK [16])) && (length b =? 60)%nat
  | _ => false
  end.

Lemma concurrent_answers_check_ok : concurrent_answers_check = true.
Proof. vm_compute. reflexivity. Qed.

Lemma token_connection_witness :
  ∃ so' s' b, connection_thread (HashOrder0 := elements_order) (Some (add_credential "s3" 1 [])) permissive (λ _, 0)
      (choppy (frame (bytes_of_text "s3") ++ frames two_requests)) sample_server = Ret (so', s') ∧
    so_out so' = frames [matrix_serialize_response (mkResponse SERVER_OK [16]); b].
Proof.
  pose proof concurrent_answers_check_ok as Hc. unfold concurrent_answers_check in Hc.
  destruct (serve_each (concurrent_serve (HashOrder0 := elements_order) permissive 1) 0 (λ _, 0) two_requests sample_server)
    as [[[|a [|b [|? ?]]] s']|] eqn:E; try discriminate Hc.
  apply andb_true_iff in Hc as [->%bool_decide_eq_true Hb%Nat.eqb_eq].
  destruct (token_connection (HashOrder0 := elements_order) "s3" permissive (λ _, 0)
    (choppy (frame (bytes_of_text "s3") ++ frames two_requests)) sample_server "s3" two_requests) as [_ H].
  - discriminate.
  - vm_compute. reflexivity.
  - vm_compute. discriminate.
  - intros k. cbn. lia.
  - refine (bool_decide_unpack _ _). vm_compute. exact I.
  - destruct (H _ _ eq_refl E) as (so' & H1 & H2).
    + constructor; [vm_compute; reflexivity|]. constructor; [rewrite Hb; lia|]. constructor.
    + exists so', s', b. split; [exact H1|exact H2].
Defined.
