(* ===== verification/Listener.v ===== *)
(** * Listener: the accept loops, and everything they start

    [matrix_serve_tcp] and [matrix_serve_tcp_auth] of server_tcp.hpp and the exit
    of matrixdbd.cpp's [main].  Part one is what the loops ask of the kernel: its
    answers are inputs, the calls are a trace.  Part two puts the pieces
    together: a step relation in which connections arrive, each on its own
    thread authenticates, receives, takes the locks of ConcurrentServer and
    replies, in any interleaving.  It refines the concurrent server, and with it
    the serial one. *)

From S2P Require Export Daemon.

(** ** What the loops ask of the kernel *)

(** [struct timeval] *)
Record Timeval := mkTimeval { tv_sec : Z; tv_usec : Z }.

Inductive SockOpt : Type :=
  | SO_REUSEADDR
  | TCP_NODELAY
  | SO_RCVTIMEO (tv : Timeval)
  | SO_SNDTIMEO (tv : Timeval).

Inductive NetCall : Type :=
  | setsockopt (fd : Z) (opt : SockOpt)
  | bind (fd port : Z)
  | listen (fd backlog : Z)
  | spawn (fd : Z)                 (* std::thread(...).detach() *)
  | close (fd : Z).

(** What the kernel answers: [socket], [bind], [listen], and [accept] each time.
    What [setsockopt] answers is ignored by the loops. *)
Record Net := mkNet { net_socket : Z; net_bind : Z; net_listen : Z; net_accepts : list Z }.

Definition timeval_of (ms : Z) : Timeval := mkTimeval (ms `div` 1000) (u32 (ms `mod` 1000 * 1000)).

Definition matrix_set_recv_timeout (fd ms : Z) : NetCall := setsockopt fd (SO_RCVTIMEO (timeval_of ms)).
Definition matrix_set_send_timeout (fd ms : Z) : NetCall := setsockopt fd (SO_SNDTIMEO (timeval_of ms)).

Definition RECV_TIMEOUT_MS : Z := 30000.
Definition BACKLOG : Z := 16.

(** One turn of [for (;;)]; a failed [accept] is skipped. *)
Definition accept_turn (recv_timeout_ms c : Z) : list NetCall :=
  if c <? 0 then []
  else
    [setsockopt c TCP_NODELAY] ++
    (if recv_timeout_ms =? 0 then [] else [matrix_set_recv_timeout c recv_timeout_ms; matrix_set_send_timeout c recv_timeout_ms]) ++
    [spawn c].

(** [Some (-1)] if the set-up fails; otherwise the loop does not return ([None]). *)
Definition matrix_serve_tcp (port recv_timeout_ms : Z) (net : Net) : option Z * list NetCall :=
  let fd := net_socket net in
  if fd <? 0 then (Some (-1), [])
  else
    let setup := [setsockopt fd SO_REUSEADDR; bind fd port] in
    if negb (net_bind net =? 0) then (Some (-1), setup ++ [close fd])
    else
      let setup := setup ++ [listen fd BACKLOG] in
      if negb (net_listen net =? 0) then (Some (-1), setup ++ [close fd])
      else (None, setup ++ concat (map (accept_turn recv_timeout_ms) (net_accepts net))).

(** The same calls; its threads authenticate first. *)
Definition matrix_serve_tcp_auth (port recv_timeout_ms : Z) (net : Net) : option Z * list NetCall :=
  matrix_serve_tcp port recv_timeout_ms net.

(** The end of [main]: an exit code, or [None] as long as it serves. *)
Definition daemon_exit (start : Startup) (net : Net) : option Z * list NetCall :=
  match start with
  | Exits code => (Some code, [])
  | Serves port auth _ =>
      let '(rc, calls) := match auth with
                          | None => matrix_serve_tcp port RECV_TIMEOUT_MS net
                          | Some _ => matrix_serve_tcp_auth port RECV_TIMEOUT_MS net
                          end in
      (match rc with Some rc => Some (if rc <? 0 then 1 else 0) | None => None end, calls)
  end.

(** ** The connections *)

(** A connection's socket after [accept] returned it: nothing was sent on it. *)
Inductive Stage : Type :=
  | Queued                           (* not accepted yet *)
  | Fresh                            (* its thread is about to authenticate it *)
  | Open (principal : Z)             (* in the serve loop *)
  | Refused                          (* closed: no valid token *)
  | Closed (principal : Z).          (* closed: a frame could not be read or written *)

(** The thread of a connection, as ConcurrentServer has it. *)
Abbreviation ServerThread := (@Thread Call (list byte) (Engine * PointStore)).

Record Conn := mkConn {
  co_peer : Socket;                  (* the socket as it was accepted *)
  co_sock : Socket;                  (* the socket now *)
  co_stage : Stage;
  co_thread : ServerThread;          (* its calls of [ConcurrentServer::serve] *)
  co_replied : nat                   (* answers written *)
}.

Definition with_sock (so : Socket) (st : Stage) (c : Conn) : Conn := mkConn (co_peer c) so st (co_thread c) (co_replied c).
Definition with_stage (st : Stage) (c : Conn) : Conn := with_sock (co_sock c) st c.
Definition with_thread (t : ServerThread) (c : Conn) : Conn := mkConn (co_peer c) (co_sock c) (co_stage c) t (co_replied c).
Definition replied (so : Socket) (ok : bool) (p : Z) (c : Conn) : Conn :=
  mkConn (co_peer c) so (if ok then Open p else Closed p) (co_thread c) (if ok then S (co_replied c) else co_replied c).

(** A connection the kernel will hand out. *)
Definition queued (so : Socket) : Conn := mkConn so so Queued (mkThread Idle [] []) 0.

(** [accept] and [std::thread]: without an authenticator the principal is 0. *)
Definition accepted (auth : option Authenticator) (c : Conn) : Conn :=
  with_stage (match auth with None => Open 0 | Some _ => Fresh end) c.

Record Listening := mkListening { ln_state : Server; ln_mutex : Mutex; ln_conns : list Conn }.

Section listener.
Context `{!HashOrder Z}.
Variable auth : option Authenticator.
Variable policy : AccessPolicy.

#[local] Instance shared : Shared Server Call (list byte) (Engine * PointStore) := shared_server policy.
#[local] Instance serialised : Serial Server Call (list byte) (Engine * PointStore) (View * PointStore) := serial_server policy.

(** The threads as the concurrent server sees them. *)
Definition server_config (l : Listening) : Config := mkConfig (ln_state l) (ln_mutex l) (map co_thread (ln_conns l)).

Inductive listen_step : Listening → Listening → Prop :=
  | listen_accept s m cs i c :
      cs !! i = Some c → co_stage c = Queued → Forall (λ c, co_stage c ≠ Queued) (take i cs) →
      listen_step (mkListening s m cs) (mkListening s m (<[i := accepted auth c]> cs))
  | listen_authenticate s m cs i c a :
      cs !! i = Some c → co_stage c = Fresh → auth = Some a →
      listen_step (mkListening s m cs) (mkListening s m (<[i :=
        match authenticate_conn a (co_sock c) with
        | Some (p, so) => with_sock so (Open p) c
        | None => with_stage Refused c
        end]> cs))
  | listen_receive s m cs i c p ns ans :
      cs !! i = Some c → co_stage c = Open p → co_thread c = mkThread Idle [] ans → co_replied c = length ans →
      listen_step (mkListening s m cs) (mkListening s m (<[i :=
        match recv_frame FRAME_CAP (co_sock c) with
        | Some (req, so) => with_thread (mkThread Idle [(p, ns, req)] ans) (with_sock so (Open p) c)
        | None => with_stage (Closed p) c
        end]> cs))
  | listen_serve s s' m m' cs ts' :
      step (mkConfig s m (map co_thread cs)) (mkConfig s' m' ts') →
      listen_step (mkListening s m cs) (mkListening s' m' (zip_with with_thread ts' cs))
  | listen_reply s m cs i c p ans resp so ok :
      cs !! i = Some c → co_stage c = Open p → co_thread c = mkThread Idle [] (ans ++ [resp]) → co_replied c = length ans →
      send_frame resp (co_sock c) = (ok, so) →
      listen_step (mkListening s m cs) (mkListening s m (<[i := replied so ok p c]> cs)).

(** A server [s], and the connections [accept] will return, in order. *)
Definition listening (s : Server) (peers : list Socket) : Listening := mkListening s (mkMutex 0 false) (map queued peers).

Inductive listens (l0 : Listening) : nat → Listening → Prop :=
  | listens_start : listens l0 0 l0
  | listens_step n l l' : listens l0 n l → listen_step l l' → listens l0 (S n) l'.

(** ** Lemmas: the calls to come

    A run of the listener is a run of the concurrent server whose workload is
    what the connections have received so far, and whatever they will. *)

Definition extend (t : ServerThread) (w : list Call) : ServerThread := mkThread (th_phase t) (th_todo t ++ w) (th_done t).

Lemma step_extend s m (ts : list ServerThread) s' m' ts' fut :
  length fut = length ts → step (mkConfig s m ts) (mkConfig s' m' ts') →
  step (mkConfig s m (zip_with extend ts fut)) (mkConfig s' m' (zip_with extend ts' fut)).
Proof.
  intros Hlen Hstep.
  assert (∀ i t t', ts !! i = Some t → ∃ w, zip_with extend ts fut !! i = Some (extend t w) ∧
    zip_with extend (<[i := t']> ts) fut = <[i := extend t' w]> (zip_with extend ts fut)) as Hat.
  { intros i t t' Hi. destruct (lookup_lt_is_Some_2 fut i) as [w Hw]; [rewrite Hlen; by eapply lookup_lt_Some|].
    exists w. rewrite lookup_zip_with, Hi, Hw. split; [done|]. rewrite insert_zip_with. by rewrite (list_insert_id fut i w). }
  inversion Hstep; subst;
    match goal with Hi : ts !! ?i = Some ?t |- context [<[?i := ?t']> ts] => destruct (Hat i t t' Hi) as (w & Hw & ->) end.
  - exact (step_lock_shared _ _ _ _ i r (todo ++ w) ans Hw ltac:(eassumption) ltac:(eassumption)).
  - exact (step_fast _ _ _ _ i r seen (todo ++ w) ans a Hw ltac:(eassumption)).
  - exact (step_escalate _ _ _ _ i r seen (todo ++ w) ans Hw ltac:(eassumption)).
  - exact (step_lock_write _ _ _ _ i r (todo ++ w) ans Hw ltac:(eassumption) ltac:(eassumption)).
  - exact (step_lock_escalated _ _ _ _ i r (todo ++ w) ans Hw ltac:(eassumption)).
  - exact (step_slow _ _ _ _ i r (todo ++ w) ans a Hw ltac:(eassumption)).
Qed.

(** What a step does to the thread that takes it. *)
Lemma step_thread s m (ts : list ServerThread) c' :
  step (mkConfig s m ts) c' → ∃ i t t', ts !! i = Some t ∧ cf_threads c' = <[i := t']> ts ∧
    (length (th_done t) < ConcurrentServer.load t)%nat ∧ ConcurrentServer.load t' = ConcurrentServer.load t ∧ (th_done t' = th_done t ∨ ∃ x, th_done t' = th_done t ++ [x]).
Proof.
  intros Hstep. inversion Hstep; subst; cbn [cf_threads];
    match goal with Hi : ts !! ?i = Some ?t |- context [<[?i := ?t']> ts] => exists i, t, t' end;
    (split; [done|]; split; [done|]); unfold ConcurrentServer.load; cbn; rewrite ?length_app; cbn;
    (split; [lia|]; split; [lia|]); eauto.
Qed.

(** ** Invariant *)

(** How a connection that serves as principal [p] opened. *)
Definition greeted (hello : list byte) (p : Z) : Prop :=
  match auth with
  | None => hello = [] ∧ p = 0
  | Some a => ∃ token, hello = frame token ∧ authenticate (text_of token) a = Some p
  end.

(** What was received since: the greeting, and the frames of the calls [g]. *)
Definition heard (c : Conn) (g : list Call) (p : Z) : Prop :=
  ∃ hello, greeted hello p ∧ data (co_peer c) = hello ++ frames (map snd g) ++ data (co_sock c) ∧
    Forall (λ call, call.1.1 = p) g.

(** Each answer fits a frame. *)
Definition framable (ans : list (list byte)) : Prop := Forall (λ a, Z.of_nat (length a) < 2 ^ 32) ans.

(** Why a served connection closed: there is no further frame, or a send failed. *)
Definition hung_up (c : Conn) : Prop :=
  co_thread c = mkThread Idle [] (th_done (co_thread c)) ∧
  ((recv_frame FRAME_CAP (co_sock c) = None ∧ co_replied c = length (th_done (co_thread c))) ∨
   (framable (th_done (co_thread c)) → ¬ ∀ k, (0 < so_takes (co_peer c) k)%nat)).

Definition staged (c : Conn) (g : list Call) : Prop :=
  match co_stage c with
  | Queued => g = [] ∧ co_sock c = co_peer c
  | Fresh => g = [] ∧ co_sock c = co_peer c ∧ is_Some auth
  | Refused => g = [] ∧ co_sock c = co_peer c ∧ ∃ a, auth = Some a ∧ authenticate_conn a (co_peer c) = None
  | Open p => heard c g p
  | Closed p => heard c g p ∧ hung_up c
  end.

(** What was written: the answers replied so far, framed, and a part of the next
    if its send failed. *)
Definition told (c : Conn) : Prop :=
  framable (th_done (co_thread c)) →
  ∃ part, so_out (co_sock c) = so_out (co_peer c) ++ frames (take (co_replied c) (th_done (co_thread c))) ++ part ∧
    part `prefix_of` frames (drop (co_replied c) (th_done (co_thread c))) ∧
    ((∃ p, co_stage c = Closed p) ∨ part = []).

(** A connection that received the calls [g]. *)
Record wired (c : Conn) (g : list Call) : Prop := {
  wi_load : ConcurrentServer.load (co_thread c) = length g;
  wi_busy : (length g ≤ S (co_replied c))%nat;
  wi_done : (co_replied c ≤ length (th_done (co_thread c)))%nat;
  wi_takes : so_takes (co_sock c) = so_takes (co_peer c);
  wi_stage : staged c g;
  wi_told : told c
}.

Lemma queued_wired so : wired (queued so) [].
Proof. split; try done; cbn; [lia|]. intros _. exists []. cbn. rewrite app_nil_r. split; [done|]. split; [done|]. by right. Qed.

(** A change of the stage or of what is still to be read. *)
Lemma told_same c so st :
  told c → so_out so = so_out (co_sock c) → ¬ (∃ p, co_stage c = Closed p) → told (with_sock so st c).
Proof.
  intros Ht Ho Hn Hs. destruct (Ht Hs) as (part & H1 & H2 & [H3|H3]); [done|]. exists part. cbn. rewrite Ho. auto.
Qed.

Lemma accepted_wired c g : wired c g → co_stage c = Queued → wired (accepted auth c) g.
Proof.
  intros [L B D T S W] Hst. unfold staged in S. rewrite Hst in S. destruct S as [-> Hso].
  split; try done; [|apply told_same; [done|done|rewrite Hst; by intros [? ?]]].
  unfold staged, accepted, heard, greeted. cbn. destruct auth; cbn; [eauto|]. exists []. cbn. by rewrite Hso.
Qed.

Lemma authenticated_wired a c g :
  wired c g → co_stage c = Fresh → auth = Some a →
  wired (match authenticate_conn a (co_sock c) with Some (p, so) => with_sock so (Open p) c | None => with_stage Refused c end) g.
Proof.
  intros [L B D T S W] Hst Ha. unfold staged in S. rewrite Hst in S. destruct S as (-> & Hso & _).
  assert (¬ ∃ p, co_stage c = Closed p) as Hn by (rewrite Hst; by intros [? ?]).
  destruct (authenticate_conn a (co_sock c)) as [[p so]|] eqn:E.
  - unfold authenticate_conn in E. destruct (recv_frame TOKEN_CAP (co_sock c)) as [[token so1]|] eqn:Er; [|done].
    cbn [mbind option_bind] in E. destruct (authenticate (text_of token) a) as [p1|] eqn:Ep; [|done].
    injection E as <- <-. destruct (recv_frame_some _ _ _ _ Er) as (H1 & H2 & H3 & _).
    split; try done; [cbn; congruence| |by apply told_same]. exists (frame token). unfold greeted. rewrite Ha.
    split; [by exists token|]. split; [|done]. cbn [with_sock co_peer co_sock]. by rewrite <- Hso.
  - split; try done; [|by apply told_same]. unfold staged. cbn. rewrite Hso in E. eauto.
Qed.

Lemma heard_more c g p ns req so :
  heard c g p → data (co_sock c) = frame req ++ data so →
  heard (with_sock so (Open p) c) (g ++ [(p, ns, req)]) p.
Proof.
  intros (hello & Hg & Hd & Hp) Hr. exists hello. split; [done|]. split.
  - cbn [with_sock co_peer co_sock]. rewrite Hd, Hr. unfold frames. rewrite !map_app, concat_app. cbn.
    by rewrite !app_nil_r, <- app_assoc.
  - apply Forall_app. split; [done|]. by repeat constructor.
Qed.

Lemma received_wired c g p ns ans req so :
  wired c g → co_stage c = Open p → co_thread c = mkThread Idle [] ans → co_replied c = length ans →
  recv_frame FRAME_CAP (co_sock c) = Some (req, so) →
  wired (with_thread (mkThread Idle [(p, ns, req)] ans) (with_sock so (Open p) c)) (g ++ [(p, ns, req)]).
Proof.
  intros [L B D T S W] Hst Hth Hre Hr. destruct (recv_frame_some _ _ _ _ Hr) as (H1 & H2 & H3 & _).
  unfold staged in S. rewrite Hst in S. pose proof (heard_more c g p ns req so S H1) as Hh.
  unfold ConcurrentServer.load in L. rewrite Hth in L. cbn in L.
  split; cbn -[frames]; rewrite ?length_app; cbn [length]; [unfold ConcurrentServer.load; cbn; lia|lia|lia|congruence|exact Hh|].
  assert (told (with_sock so (Open p) c)) as Ht by (apply told_same; [done|done|rewrite Hst; by intros [? ?]]).
  unfold told in Ht |- *. cbn -[frames] in Ht |- *. by rewrite Hth in Ht.
Qed.

Lemma ended_wired c g p ans :
  wired c g → co_stage c = Open p → co_thread c = mkThread Idle [] ans → co_replied c = length ans →
  recv_frame FRAME_CAP (co_sock c) = None → wired (with_stage (Closed p) c) g.
Proof.
  intros [L B D T S W] Hst Hth Hre Hr. unfold staged in S. rewrite Hst in S.
  split; try done; [|apply told_same; [done|done|rewrite Hst; by intros [? ?]]].
  unfold staged. cbn. split; [exact S|]. unfold hung_up. cbn. rewrite Hth. cbn. auto.
Qed.

Lemma served_wired c g t' :
  wired c g → (length (th_done (co_thread c)) < ConcurrentServer.load (co_thread c))%nat →
  ConcurrentServer.load t' = ConcurrentServer.load (co_thread c) →
  (th_done t' = th_done (co_thread c) ∨ ∃ x, th_done t' = th_done (co_thread c) ++ [x]) → wired (with_thread t' c) g.
Proof.
  intros [L B D T S W] Hlt Hl Hd.
  assert (∃ more, th_done t' = th_done (co_thread c) ++ more) as [more Hm].
  { destruct Hd as [-> |[x ->]]; [exists []; by rewrite app_nil_r|by exists [x]]. }
  assert (∃ p, co_stage c = Open p) as [p Hst].
  { unfold staged, hung_up in S. rewrite L in Hlt. destruct (co_stage c) eqn:E; [destruct S as [-> _]; cbn in Hlt; lia| |by eexists| |].
    - destruct S as [-> _]. cbn in Hlt. lia.
    - destruct S as [-> _]. cbn in Hlt. lia.
    - destruct S as (_ & Ht & _). unfold ConcurrentServer.load in L. rewrite Ht in L. cbn in L. lia. }
  unfold staged in S. rewrite Hst in S. split; cbn; [congruence|done|rewrite Hm, length_app; lia|done| |].
  - unfold staged. cbn. by rewrite Hst.
  - intros Hs. cbn in Hs |- *. rewrite Hm in Hs. apply Forall_app in Hs as [Hs1 Hs2].
    destruct (W Hs1) as (part & H1 & H2 & [[p' H3]| ->]); [congruence|]. exists []. rewrite Hm, take_app_le by lia.
    split; [exact H1|]. split; [apply prefix_nil|by right].
Qed.

Lemma replied_wired c g p ans resp so ok :
  wired c g → co_stage c = Open p → co_thread c = mkThread Idle [] (ans ++ [resp]) → co_replied c = length ans →
  send_frame resp (co_sock c) = (ok, so) → wired (replied so ok p c) g.
Proof.
  intros [L B D T S W] Hst Hth Hre Hs. destruct (send_frame_keeps _ _ _ _ Hs) as [Hin Htk].
  unfold staged in S. rewrite Hst in S. rewrite Hth in L. unfold ConcurrentServer.load in L. cbn in L.
  rewrite length_app in L. cbn in L.
  assert (data so = data (co_sock c)) as Hd by (unfold data; by rewrite Hin).
  split; unfold replied; cbn [co_thread co_replied co_peer co_sock].
  - rewrite Hth. unfold ConcurrentServer.load. cbn. rewrite length_app. cbn. lia.
  - destruct ok; lia.
  - rewrite Hth. cbn. rewrite length_app. cbn. destruct ok; lia.
  - congruence.
  - unfold staged, heard, hung_up. cbn -[frames]. rewrite Hd, Hth. destruct ok; [exact S|]. split; [exact S|]. cbn -[frames].
    split; [done|]. right. intros Hf Hpos. apply Forall_app in Hf as [_ Hf]. apply Forall_inv in Hf.
    destruct (send_frame_run resp (co_sock c)) as (so' & E & _); [by rewrite T|done|]. rewrite Hs in E. done.
  - unfold told. cbn -[frames]. rewrite Hth. cbn -[frames]. intros Hf. destruct W as (part & H1 & H2 & H3).
    { rewrite Hth. exact Hf. }
    destruct H3 as [[p' H3]| ->]; [congruence|]. rewrite Hth, app_nil_r in H1. cbn -[frames] in H1.
    apply Forall_app in Hf as [_ Hf]. apply Forall_inv in Hf.
    destruct (send_frame_prefix _ _ _ _ Hs Hf) as (_ & _ & x & H5 & H6 & H7).
    assert (take (length ans) (ans ++ [resp]) = ans) as Ht1 by (by rewrite take_app_length).
    assert (frames [resp] = frame resp) as Hfr by (unfold frames; cbn; by rewrite app_nil_r).
    rewrite Hre, Ht1 in H1. destruct ok.
    + exists []. rewrite (H7 eq_refl) in H5. rewrite Hre, take_ge by (rewrite length_app; cbn; lia).
      rewrite app_nil_r, H5, H1. split; [|split; [apply prefix_nil|by right]].
      unfold frames. rewrite map_app, concat_app, <- app_assoc. cbn. by rewrite app_nil_r.
    + exists x. rewrite Hre, Ht1, drop_app_length, Hfr, H5, H1, app_assoc. eauto.
Qed.

(** The listener as the concurrent server, when connection [i] will still call
    what [fut] holds for it. *)
Definition ahead (l : Listening) (fut : list (list Call)) : Config :=
  mkConfig (ln_state l) (ln_mutex l) (zip_with extend (map co_thread (ln_conns l)) fut).

(** The assumption of ConcurrentServer's serial specification. *)
Definition stays_calm (s0 : Server) (peers : list Socket) : Prop :=
  engine_wf (sv_engine s0) ∧ ∀ n l, listens (listening s0 peers) n l → calm (sv_engine (ln_state l)).

(** The run so far, with what each connection received. *)
Record traced (s0 : Server) (peers : list Socket) (l : Listening) (got : list (list Call)) : Prop := {
  tr_peers : map co_peer (ln_conns l) = peers;
  tr_conns : Forall2 wired (ln_conns l) got;
  tr_run fut : length fut = length got →
    (∃ k, reaches (start s0 (zip_with app got fut)) k (ahead l fut)) ∧
    (stays_calm s0 peers → ∃ tr, explains s0 (zip_with app got fut) tr (ahead l fut))
}.

Lemma map_queued {B} (f : Conn → B) peers : map f (map queued peers) = map (λ so, f (queued so)) peers.
Proof. apply map_map. Qed.

Lemma listening_traced s0 peers : traced s0 peers (listening s0 peers) (map (λ _, []) peers).
Proof.
  split.
  - cbn. rewrite map_queued. apply map_id.
  - cbn. induction peers as [|so peers IH]; constructor; [apply queued_wired|exact IH].
  - intros fut Hl. assert (ahead (listening s0 peers) fut = start s0 fut ∧ zip_with app (map (λ _, []) peers) fut = fut) as [-> ->].
    { unfold ahead, start. cbn. rewrite map_queued. revert fut Hl.
      induction peers as [|so peers IH]; intros [|w fut] Hl; [done|done|done|].
      destruct (IH fut) as [H1 H2]; [by injection Hl|]. cbn. rewrite H2. split; [|done].
      injection H1 as H1. by rewrite H1. }
    split; [exists 0%nat; constructor|]. intros [Hwf _]. eexists. by apply start_explained.
Qed.

(** A step of one connection that the concurrent server does not see. *)
Lemma traced_quiet s0 peers s m cs got i c c' :
  traced s0 peers (mkListening s m cs) got → cs !! i = Some c →
  co_peer c' = co_peer c → co_thread c' = co_thread c → (∀ g, wired c g → wired c' g) →
  traced s0 peers (mkListening s m (<[i := c']> cs)) got.
Proof.
  intros [Hp Hc Hr] Hi Hpe Hth Hw. split; cbn [ln_conns ln_state ln_mutex] in *.
  - change (map co_peer) with (fmap (M := list) co_peer). rewrite list_fmap_insert, Hpe. rewrite list_insert_id; [done|].
    by rewrite list_lookup_fmap, Hi.
  - destruct (Forall2_lookup_l _ _ _ _ _ Hc Hi) as (g & Hg & Hwg).
    rewrite <- (list_insert_id got i g Hg). by apply Forall2_insert, Hw.
  - intros fut Hl. destruct (Hr fut Hl) as [H1 H2]. unfold ahead in *. cbn [ln_conns ln_state ln_mutex] in *.
    change (map co_thread) with (fmap (M := list) co_thread) in *. rewrite list_fmap_insert, Hth.
    rewrite list_insert_id by (by rewrite list_lookup_fmap, Hi). done.
Qed.

(** A connection that receives a call: it was one of those to come. *)
Lemma traced_receive s0 peers s m cs got i c c' ans call :
  traced s0 peers (mkListening s m cs) got → cs !! i = Some c →
  co_peer c' = co_peer c → co_thread c = mkThread Idle [] ans → co_thread c' = mkThread Idle [call] ans →
  (∀ g, wired c g → wired c' (g ++ [call])) →
  ∃ got', traced s0 peers (mkListening s m (<[i := c']> cs)) got'.
Proof.
  intros [Hp Hc Hr] Hi Hpe Hth Hth' Hw. cbn [ln_conns ln_state ln_mutex] in *.
  destruct (Forall2_lookup_l _ _ _ _ _ Hc Hi) as (g & Hg & Hwg). exists (<[i := g ++ [call]]> got).
  split; cbn [ln_conns ln_state ln_mutex].
  - change (map co_peer) with (fmap (M := list) co_peer). rewrite list_fmap_insert, Hpe. rewrite list_insert_id; [done|].
    by rewrite list_lookup_fmap, Hi.
  - by apply Forall2_insert, Hw.
  - intros fut Hl. rewrite length_insert in Hl. destruct (lookup_lt_is_Some_2 fut i) as [w Hfw].
    { rewrite Hl. by eapply lookup_lt_Some. }
    destruct (Hr (<[i := call :: w]> fut)) as [H1 H2]; [by rewrite length_insert|].
    assert (ahead (mkListening s m (<[i := c']> cs)) fut = ahead (mkListening s m cs) (<[i := call :: w]> fut)) as ->.
    { unfold ahead. cbn [ln_conns ln_state ln_mutex]. f_equal. change (map co_thread) with (fmap (M := list) co_thread).
      rewrite list_fmap_insert, Hth'. rewrite <- (list_insert_id fut i w Hfw) at 1.
      rewrite <- (list_insert_id (co_thread <$> cs) i (mkThread Idle [] ans)) at 2 by (by rewrite list_lookup_fmap, Hi, <- Hth).
      rewrite <- !insert_zip_with. done. }
    assert (zip_with app (<[i := g ++ [call]]> got) fut = zip_with app got (<[i := call :: w]> fut)) as ->; [|done].
    rewrite <- (list_insert_id fut i w Hfw) at 1. rewrite <- (list_insert_id got i g Hg) at 2.
    rewrite <- !insert_zip_with. by rewrite <- app_assoc.
Qed.

Lemma with_own_threads cs : zip_with with_thread (map co_thread cs) cs = cs.
Proof. induction cs as [|c cs IH]; [done|]. cbn. rewrite IH. by destruct c. Qed.

Lemma with_new_thread cs i c t' :
  cs !! i = Some c → zip_with with_thread (<[i := t']> (map co_thread cs)) cs = <[i := with_thread t' c]> cs.
Proof.
  intros Hi. rewrite <- (list_insert_id cs i c Hi) at 2. rewrite <- insert_zip_with. by rewrite with_own_threads.
Qed.

Lemma traced_serve s0 peers s s' m m' cs ts' got n :
  traced s0 peers (mkListening s m cs) got → listens (listening s0 peers) n (mkListening s m cs) →
  step (mkConfig s m (map co_thread cs)) (mkConfig s' m' ts') →
  traced s0 peers (mkListening s' m' (zip_with with_thread ts' cs)) got.
Proof.
  intros [Hp Hc Hr] Hl Hstep. cbn [ln_conns ln_state ln_mutex] in *.
  destruct (step_thread s m _ _ Hstep) as (i & t & t' & Hi & Hts & Hlt & Hld & Hd). cbn [cf_threads] in Hts. subst ts'.
  apply list_lookup_fmap_Some in Hi as (c & -> & Hi). rewrite (with_new_thread cs i c t' Hi).
  split; cbn [ln_conns ln_state ln_mutex].
  - change (map co_peer) with (fmap (M := list) co_peer). rewrite list_fmap_insert. rewrite list_insert_id; [done|].
    by rewrite list_lookup_fmap, Hi.
  - destruct (Forall2_lookup_l _ _ _ _ _ Hc Hi) as (g & Hg & Hwg).
    rewrite <- (list_insert_id got i g Hg). apply Forall2_insert; [done|]. by apply served_wired.
  - intros fut Hlen. destruct (Hr fut Hlen) as [[k H1] H2].
    assert (step (ahead (mkListening s m cs) fut) (ahead (mkListening s' m' (<[i := with_thread t' c]> cs)) fut)) as Hst.
    { unfold ahead. cbn [ln_conns ln_state ln_mutex]. change (map co_thread) with (fmap (M := list) co_thread) at 2.
      rewrite list_fmap_insert. cbn [with_thread co_thread]. apply step_extend; [|exact Hstep].
      rewrite length_map, Hlen. symmetry. by eapply Forall2_length. }
    split; [exists (S k); by eapply reach_step|]. intros Hcalm. destruct (H2 Hcalm) as [tr Htr].
    eapply step_explained; [exact Htr| | |exact Hst].
    + by apply (reaches_ok _ _ _ H1), start_ok.
    + exact (proj2 Hcalm n _ Hl).
Qed.

(** What holds in every run. *)
Lemma listens_traced s0 peers n l : listens (listening s0 peers) n l → ∃ got, traced s0 peers l got.
Proof.
  intros Hl. induction Hl as [|n l l' Hl [got IH] Hstep]; [eexists; apply listening_traced|].
  destruct Hstep as [s m cs i c Hi Hst _ | s m cs i c a Hi Hst Ha | s m cs i c p ns ans Hi Hst Hth Hre
    | s s' m m' cs ts' Hstep | s m cs i c p ans resp so ok Hi Hst Hth Hre Hs].
  - exists got. apply (traced_quiet s0 peers s m cs got i c); try done. intros g Hw. by apply accepted_wired.
  - exists got. apply (traced_quiet s0 peers s m cs got i c); try done.
    + by destruct (authenticate_conn a (co_sock c)) as [[]|].
    + by destruct (authenticate_conn a (co_sock c)) as [[]|].
    + intros g Hw. by apply authenticated_wired.
  - destruct (recv_frame FRAME_CAP (co_sock c)) as [[req so]|] eqn:Er.
    + apply (traced_receive s0 peers s m cs got i c _ ans (p, ns, req)); try done. intros g Hw. by apply received_wired.
    + exists got. apply (traced_quiet s0 peers s m cs got i c); try done. intros g Hw. by apply (ended_wired c g p ans).
  - exists got. by apply (traced_serve s0 peers s s' m m' cs ts' got n).
  - exists got. apply (traced_quiet s0 peers s m cs got i c); try done. intros g Hw. by apply (replied_wired c g p ans resp).
Qed.

(** ** Lemmas: the end of a run *)

Definition stage_weight (st : Stage) : nat :=
  match st with Queued => 3 | Fresh => 2 | Open _ => 1 | Refused | Closed _ => 0 end.

(** Steps a connection can still take: a frame that arrives uses four bytes of
    input at least, and takes four steps to serve and one to reply. *)
Definition conn_left (c : Conn) : nat :=
  (stage_weight (co_stage c) + 2 * ServerTcp.pending (co_sock c) + work_left (co_thread c) +
   (ConcurrentServer.load (co_thread c) - co_replied c))%nat.

Lemma total_map {A B} (f : A → B) (g : B → nat) (ts : list A) : total g (map f ts) = total (λ t, g (f t)) ts.
Proof. unfold total. induction ts as [|t ts IH]; [done|]. cbn. by rewrite IH. Qed.

Lemma conn_step_less (cs : list Conn) i c c' :
  cs !! i = Some c → (conn_left c' < conn_left c)%nat → (total conn_left (<[i := c']> cs) < total conn_left cs)%nat.
Proof. intros Hi Hlt. pose proof (total_update conn_left cs c' i c Hi). lia. Qed.

Lemma authenticate_pending a so p so' : authenticate_conn a so = Some (p, so') → (ServerTcp.pending so' + 4 ≤ ServerTcp.pending so)%nat.
Proof.
  unfold authenticate_conn. destruct (recv_frame TOKEN_CAP so) as [[token so1]|] eqn:E; [|done]. cbn [mbind option_bind].
  destruct (authenticate (text_of token) a) as [p1|]; [|done]. intros [= <- <-]. by apply (recv_frame_some _ _ _ _ E).
Qed.

Lemma listen_step_less s0 peers n l l' :
  listens (listening s0 peers) n l → listen_step l l' → (total conn_left (ln_conns l') < total conn_left (ln_conns l))%nat.
Proof.
  intros Hl Hstep. destruct (listens_traced s0 peers n l Hl) as (got & [_ Hc _]).
  destruct Hstep as [s m cs i c Hi Hst _ | s m cs i c a Hi Hst Ha | s m cs i c p ns ans Hi Hst Hth Hre
    | s s' m m' cs ts' Hstep | s m cs i c p ans resp so ok Hi Hst Hth Hre Hs]; cbn [ln_conns] in *.
  - apply (conn_step_less cs i c _ Hi). unfold conn_left, accepted. cbn. rewrite Hst. destruct auth; cbn; lia.
  - apply (conn_step_less cs i c _ Hi). unfold conn_left. rewrite Hst.
    destruct (authenticate_conn a (co_sock c)) as [[p so]|] eqn:E; cbn; [apply authenticate_pending in E|]; lia.
  - apply (conn_step_less cs i c _ Hi). unfold conn_left. rewrite Hst, Hth, Hre.
    destruct (recv_frame FRAME_CAP (co_sock c)) as [[req so]|] eqn:E; cbn.
    + apply recv_frame_some in E as (_ & _ & _ & E). unfold ConcurrentServer.load, work_left. cbn. lia.
    + unfold ConcurrentServer.load, work_left. rewrite Hth. cbn. lia.
  - destruct (step_thread s m _ _ Hstep) as (i & t & t' & Hi & Hts & Hlt & Hld & Hd). cbn [cf_threads] in Hts.
    pose proof (step_decreases _ _ Hstep) as Hdec. cbn [cf_threads] in Hdec. subst ts'.
    pose proof (total_update work_left _ t' i t Hi) as Hu.
    apply list_lookup_fmap_Some in Hi as (c & -> & Hi). rewrite (with_new_thread cs i c t' Hi).
    apply (conn_step_less cs i c _ Hi). unfold conn_left. cbn [with_thread co_stage co_sock co_thread co_replied]. lia.
  - apply (conn_step_less cs i c _ Hi). destruct (Forall2_lookup_l _ _ _ _ _ Hc Hi) as (g & _ & Hw).
    pose proof (wi_load _ _ Hw) as HL. unfold conn_left, replied. cbn. rewrite Hst.
    destruct (send_frame_keeps _ _ _ _ Hs) as [Hin _]. unfold ServerTcp.pending. rewrite Hin.
    assert (co_replied c < ConcurrentServer.load (co_thread c))%nat
      by (rewrite Hth, Hre; unfold ConcurrentServer.load; cbn; rewrite length_app; cbn; lia).
    destruct ok; cbn; lia.
Qed.

Lemma listens_bounded s0 peers n l :
  listens (listening s0 peers) n l →
  (n + total conn_left (ln_conns l) ≤ total (λ so, 3 + 2 * ServerTcp.pending so) peers)%nat.
Proof.
  induction 1 as [|n l l' Hl IH Hstep].
  - cbn [listening ln_conns]. rewrite total_map. unfold conn_left, ConcurrentServer.load, work_left. cbn.
    unfold total. induction peers as [|so peers IHp]; cbn; lia.
  - pose proof (listen_step_less s0 peers n l l' Hl Hstep). lia.
Qed.

Lemma ahead_now l (got : list (list Call)) : length got = length (ln_conns l) →
  ahead l (map (λ _, []) got) = server_config l ∧ zip_with app got (map (λ _, []) got) = got.
Proof.
  intros Hl. unfold ahead, server_config. split.
  - f_equal. rewrite <- (length_map co_thread) in Hl. revert Hl. generalize (map co_thread (ln_conns l)). clear l.
    intros ts. revert got. induction ts as [|t ts IH]; intros [|g got] Hl; try done. cbn. rewrite (IH got) by (by injection Hl).
    unfold extend. rewrite app_nil_r. by destruct t.
  - clear. induction got as [|g got IH]; [done|]. cbn. by rewrite app_nil_r, IH.
Qed.

(** The run so far is one of the concurrent server, on the calls received. *)
Lemma traced_reaches s0 peers l got :
  traced s0 peers l got →
  (∃ k, reaches (start s0 got) k (server_config l)) ∧
  (stays_calm s0 peers → ∃ tr, explains s0 got tr (server_config l)).
Proof.
  intros [_ Hc Hr]. pose proof (Forall2_length _ _ _ Hc) as Hl. destruct (ahead_now l got (eq_sym Hl)) as [H1 H2].
  specialize (Hr (map (λ _, []) got)). rewrite H1, H2 in Hr. apply Hr. by rewrite length_map.
Qed.

Definition is_over (c : Conn) : bool := match co_stage c with Refused | Closed _ => true | _ => false end.

Lemma first_queued (cs : list Conn) :
  Forall (λ c, co_stage c ≠ Queued) cs ∨
  ∃ i c, cs !! i = Some c ∧ co_stage c = Queued ∧ Forall (λ c, co_stage c ≠ Queued) (take i cs).
Proof.
  induction cs as [|c cs IH]; [by left|].
  assert (co_stage c = Queued ∨ co_stage c ≠ Queued) as [Hq|Hq] by (destruct (co_stage c); auto).
  - right. by exists 0%nat, c.
  - destruct IH as [H|(i & d & H1 & H2 & H3)]; [left; by constructor|]. right. exists (S i), d. cbn. by repeat constructor.
Qed.

(** A connection whose thread is outside [serve] can go on. *)
Lemma open_moves s m cs i c g p :
  cs !! i = Some c → wired c g → co_stage c = Open p → th_phase (co_thread c) = Idle → th_todo (co_thread c) = [] →
  ∃ l', listen_step (mkListening s m cs) l'.
Proof.
  intros Hi Hw Hst Hph Htd. pose proof (wi_load _ _ Hw) as L. pose proof (wi_busy _ _ Hw) as B. pose proof (wi_done _ _ Hw) as D.
  destruct (co_thread c) as [ph td ans] eqn:Hth. cbn in Hph, Htd, D. subst ph td. unfold ConcurrentServer.load in L. cbn in L.
  destruct (decide (co_replied c = length ans)) as [He|He].
  - eexists. by apply (listen_receive s m cs i c p 0 ans).
  - destruct (exists_last (l := ans)) as (ans' & resp & ->); [intros ->; cbn in *; lia|]. rewrite length_app in *. cbn in *.
    destruct (send_frame resp (co_sock c)) as [ok so] eqn:E.
    eexists. apply (listen_reply s m cs i c p ans' resp so ok); try done. lia.
Qed.

Lemma listen_progress s0 peers n l :
  listens (listening s0 peers) n l →
  (∃ l', listen_step l l') ∨ crashes (server_config l) ∨ forallb is_over (ln_conns l) = true.
Proof.
  intros Hl. destruct (listens_traced s0 peers n l Hl) as (got & Ht). destruct (traced_reaches _ _ _ _ Ht) as [[k Hr] _].
  destruct (decide (finished (server_config l))) as [Hf|Hn].
  2:{ destruct (reaches_ok _ _ _ Hr (start_ok s0 got)) as [Hok _].
      destruct (progress _ Hok Hn) as [[[s' m' ts'] Hs]|Hc]; [|auto]. left. destruct l as [s m cs]. eexists.
      by apply (listen_serve s s' m m' cs ts'). }
  destruct l as [s m cs]. unfold server_config, finished in Hf. cbn [ln_conns cf_threads] in *.
  destruct (first_queued cs) as [Hq|(i & c & Hi & Hc & Hbefore)]; [|left; eexists; by apply (listen_accept s m cs i c)].
  destruct (forallb is_over cs) eqn:Ho; [auto|]. left.
  destruct (existsb (λ c, negb (is_over c)) cs) eqn:Hex.
  2:{ exfalso. apply not_true_iff_false in Hex, Ho. apply Ho. apply forallb_forall. intros c Hc.
      destruct (is_over c) eqn:E; [done|]. exfalso. apply Hex, existsb_exists. exists c. by rewrite E. }
  apply existsb_exists in Hex as (c & Hin & Hc). apply list_elem_of_In, list_elem_of_lookup in Hin as [i Hi].
  destruct (Forall2_lookup_l _ _ _ _ _ (tr_conns _ _ _ _ Ht) Hi) as (g & _ & Hw).
  pose proof (Forall_lookup_1 _ _ _ _ Hq Hi) as Hnq. rewrite Forall_map in Hf. pose proof (Forall_lookup_1 _ _ _ _ Hf Hi) as [Hph Htd].
  unfold is_over in Hc. destruct (co_stage c) as [| |p| |p] eqn:Hst; try done.
  - pose proof (wi_stage _ _ Hw) as S. unfold staged in S. rewrite Hst in S. destruct S as (_ & _ & [a Ha]).
    eexists. by apply (listen_authenticate s m cs i c a).
  - by apply (open_moves s m cs i c g p).
Qed.

Lemma frames_split k (ans : list (list byte)) : frames ans = frames (take k ans) ++ frames (drop k ans).
Proof. unfold frames. by rewrite <- concat_app, <- map_app, take_drop. Qed.

Lemma traced_conn s0 peers l got i c :
  traced s0 peers l got → ln_conns l !! i = Some c → ∃ g, got !! i = Some g ∧ wired c g.
Proof. intros Ht Hi. by apply (Forall2_lookup_l _ _ _ _ _ (tr_conns _ _ _ _ Ht) Hi). Qed.

(** ** Theorems *)

(** C13: The whole server, serially: whatever the interleaving of its connections,
    however their streams are cut and whenever they are accepted, there is one
    order of the requests answered so far in which a serial server gives every
    answer.  Each connection that got in, got in with a valid token (or there is
    no authenticator); its requests are the frames of its stream in their order,
    made as the token's principal, at most the last of them unanswered; and what
    was written to it are the framed answers, in order.  The others were served
    nothing. *)
Theorem daemon_serves_serially s0 peers n l :
  stays_calm s0 peers → listens (listening s0 peers) n l →
  ∃ tr, serial (abs_server s0) tr (abs_server (ln_state l)) ∧ map co_peer (ln_conns l) = peers ∧
  ∀ i c, ln_conns l !! i = Some c →
    let served := of_thread i tr in
    match co_stage c with
    | Open p | Closed p => ∃ calls waiting,
        heard c calls p ∧ calls = map fst served ++ waiting ∧ (length waiting ≤ 1)%nat
    | _ => served = [] ∧ co_sock c = co_peer c
    end ∧
    (framable (map snd served) →
     ∃ written, so_out (co_sock c) = so_out (co_peer c) ++ written ∧ written `prefix_of` frames (map snd served)).
Proof.
  intros Hcalm Hl. destruct (listens_traced s0 peers n l Hl) as (got & Ht).
  destruct (traced_reaches _ _ _ _ Ht) as [_ Hx]. destruct (Hx Hcalm) as (tr & [Hs _ Hth]).
  exists tr. split; [exact Hs|]. split; [exact (tr_peers _ _ _ _ Ht)|]. intros i c Hi served. subst served.
  destruct (traced_conn _ _ _ _ i c Ht Hi) as (g & Hg & [L B D T S W]).
  destruct (Hth i (co_thread c)) as [Hd Hw]; [unfold server_config; cbn; by rewrite list_lookup_fmap, Hi|].
  rewrite Hg in Hw. injection Hw as Hw. split.
  - assert (length g = 0%nat → of_thread i tr = []) as Hnone.
    { intros H0. destruct (of_thread i tr); [done|]. by rewrite Hw in H0. }
    assert (∀ p, heard c g p → ∃ calls waiting, heard c calls p ∧ calls = map fst (of_thread i tr) ++ waiting ∧
      (length waiting ≤ 1)%nat) as Hheard.
    { intros p Hh. exists g, (ConcurrentServer.pending (co_thread c) ++ th_todo (co_thread c)).
      split; [exact Hh|]. split; [exact Hw|]. apply (f_equal length) in Hw. rewrite length_app, length_map in Hw.
      apply (f_equal length) in Hd. rewrite length_map in Hd. lia. }
    unfold staged in S. destruct (co_stage c) as [| |p| |p].
    + destruct S as [-> S]. auto.
    + destruct S as (-> & S & _). auto.
    + by apply Hheard.
    + destruct S as (-> & S & _). auto.
    + apply Hheard, S.
  - rewrite <- Hd. intros Hf. destruct (W Hf) as (part & H1 & H2 & _).
    eexists. split; [exact H1|]. rewrite (frames_split (co_replied c) (th_done _)). by apply prefix_app.
Qed.

(** C14: Every connection is served to its end: a run of the server takes no more
    steps than its input allows, and goes on until it has closed every
    connection it was given, unless a request stops the process.  A connection
    that was let in and read its answers has then been sent the framed answer
    of every frame of its stream, up to the first that is cut short or too
    long. *)
Theorem daemon_finishes s0 peers n l :
  listens (listening s0 peers) n l →
  (n ≤ total (λ so, 3 + 2 * ServerTcp.pending so) peers)%nat ∧
  ((∃ l', listen_step l l') ∨ crashes (server_config l) ∨
   ∀ i c, ln_conns l !! i = Some c →
     match co_stage c with
     | Refused => co_sock c = co_peer c ∧ ∃ a, auth = Some a ∧ authenticate_conn a (co_peer c) = None
     | Closed p => ∃ calls, heard c calls p ∧ length calls = length (th_done (co_thread c)) ∧
         (framable (th_done (co_thread c)) → (∀ k, 0 < so_takes (co_peer c) k)%nat →
          recv_frame FRAME_CAP (co_sock c) = None ∧
          so_out (co_sock c) = so_out (co_peer c) ++ frames (th_done (co_thread c)))
     | _ => False
     end).
Proof.
  intros Hl. split; [pose proof (listens_bounded s0 peers n l Hl); lia|].
  destruct (listen_progress s0 peers n l Hl) as [H|[H|Hover]]; [auto|auto|]. right. right. intros i c Hi.
  destruct (listens_traced s0 peers n l Hl) as (got & Ht).
  destruct (traced_conn _ _ _ _ i c Ht Hi) as (g & _ & [L B D T S W]).
  rewrite forallb_forall in Hover. specialize (Hover c). unfold is_over, staged in *.
  assert (In c (ln_conns l)) as Hin by (apply list_elem_of_In, list_elem_of_lookup; by exists i).
  destruct (co_stage c) as [| |p| |p]; try (by specialize (Hover Hin)); [by destruct S as [_ S]|].
  destruct S as [Hh [Hidle Hend]]. exists g. split; [exact Hh|].
  assert (length g = length (th_done (co_thread c))) as Hlen.
  { rewrite <- L, Hidle. unfold ConcurrentServer.load. cbn. lia. }
  split; [exact Hlen|]. intros Hf Hpos. destruct Hend as [[Hr He]|Hend]; [|by destruct (Hend Hf)].
  split; [exact Hr|]. destruct (W Hf) as (part & H1 & H2 & _). rewrite He, firstn_all in H1. rewrite He, drop_ge in H2 by done.
  apply prefix_nil_inv in H2 as ->. by rewrite app_nil_r in H1.
Qed.

End listener.

(** The deadlines are what [struct timeval] wants: below a million microseconds,
    and not zero, which would clear them, unless none is asked for. *)
Theorem timeval_of_exact ms :
  0 <= ms <= UINT32_MAX →
  let tv := timeval_of ms in
  tv_sec tv * 1000000 + tv_usec tv = ms * 1000 ∧ 0 <= tv_usec tv < 1000000 ∧ 0 <= tv_sec tv < 2 ^ 31.
Proof.
  intros H. cbn. unfold UINT32_MAX in *. pose proof (Z.mod_pos_bound ms 1000 ltac:(lia)).
  pose proof (Z.div_mod ms 1000 ltac:(lia)). unfold u32. rewrite Z.mod_small by lia. lia.
Qed.

Definition spawned (calls : list NetCall) : list Z :=
  omap (λ call, match call with spawn fd => Some fd | _ => None end) calls.

Lemma spawned_turns ms cs : spawned (concat (map (accept_turn ms) cs)) = filter (λ c, 0 <= c) cs.
Proof.
  induction cs as [|c cs IH]; [done|]. cbn [map concat]. unfold spawned in *. rewrite omap_app, IH, filter_cons.
  unfold accept_turn. destruct (Z.ltb_spec c 0); [rewrite decide_False by lia; done|]. rewrite decide_True by lia.
  by destruct (ms =? 0).
Qed.

Lemma accept_loop_rc port ms net : match (matrix_serve_tcp port ms net).1 with Some rc => rc = -1 | None => True end.
Proof.
  unfold matrix_serve_tcp. destruct (net_socket net <? 0); [done|]. destruct (negb (net_bind net =? 0)); [done|].
  by destruct (negb (net_listen net =? 0)).
Qed.

(** The loop starts one thread for every connection [accept] returns, in their
    order, and goes on after a failed [accept]; it returns, with -1, only when a
    call of the set-up fails, and then leaves no socket open and no thread. *)
Theorem accept_loop_spawns port ms net :
  match matrix_serve_tcp port ms net with
  | (None, calls) => 0 <= net_socket net ∧ net_bind net = 0 ∧ net_listen net = 0 ∧
      spawned calls = filter (λ c, 0 <= c) (net_accepts net)
  | (Some rc, calls) => rc = -1 ∧ spawned calls = [] ∧
      (net_socket net < 0 ∧ calls = [] ∨ last calls = Some (close (net_socket net)))
  end.
Proof.
  unfold matrix_serve_tcp. destruct (Z.ltb_spec (net_socket net) 0); [auto|].
  destruct (Z.eqb_spec (net_bind net) 0) as [Hb|Hb]; [cbn [negb]|split; [done|]; split; [done|by right]].
  destruct (Z.eqb_spec (net_listen net) 0) as [Hl|Hl]; [cbn [negb]|split; [done|]; split; [done|by right]].
  split; [done|]. split; [done|]. split; [done|]. apply spawned_turns.
Qed.

(** [main] never returns 0: it exits with 2 for a bad command line, with 1 if
    the snapshot or the port cannot be opened, or serves. *)
Theorem daemon_exit_codes `{!HashOrder Z} mem argv e start e' net :
  daemon_main mem argv e = Ret (start, e') →
  match daemon_exit start net with
  | (Some code, _) => code = 1 ∨ code = 2
  | (None, calls) => ∃ port auth policy, start = Serves port auth policy
  end.
Proof.
  unfold daemon_main, daemon_exit. intros H. assert (start = Exits 2 ∨ start = Exits 1 ∨ ∃ port auth policy, start = Serves port auth policy) as [->|[->|(port & auth & policy & ->)]].
  { destruct argv as [|prog [|port args]]; [naive_solver..|]. destruct (parse_options args "" "") as [[sn tk]|]; [|naive_solver].
    destruct (if String.eqb sn "" then Ret (true, e) else load_catalog mem sn e) as [[[] e1]|]; cbn in H; [|naive_solver|done].
    unfold start_serving in H. destruct (String.eqb tk ""); injection H as <- <-; eauto 6. }
  - auto.
  - auto.
  - assert (∀ r, matrix_serve_tcp port RECV_TIMEOUT_MS net = r → match r.1 with Some rc => rc = -1 | None => True end) as Hrc.
    { intros r <-. pose proof (accept_loop_rc port RECV_TIMEOUT_MS net). done. }
    specialize (Hrc _ eq_refl). unfold matrix_serve_tcp_auth. destruct auth; destruct (matrix_serve_tcp port RECV_TIMEOUT_MS net) as [[rc|] calls];
      cbn in Hrc; subst; cbn; eauto 6.
Qed.

(** ** Witnesses *)

Lemma frames_prefix l : ∀ reqs rest,
  Z.of_nat (length (frames reqs)) < 2 ^ 32 → frames l ++ rest = frames reqs → l `prefix_of` reqs.
Proof.
  induction l as [|r l IH]; intros reqs rest Hl H; [apply prefix_nil|].
  destruct reqs as [|q reqs]; [unfold frames, frame in H; apply (f_equal length) in H; cbn in H; rewrite ?length_app, length_le_u32 in H; cbn in H; lia|].
  unfold frames in H, Hl. cbn [map concat] in H, Hl. rewrite <- app_assoc in H.
  apply frame_inj in H as [<- H]; [|rewrite H; exact Hl]. apply prefix_cons, (IH reqs rest); [|exact H].
  rewrite length_app in Hl. unfold frames. lia.
Qed.

Section witnesses.
#[local] Existing Instance elements_order.

(** Peers that only make requests of points leave the columns alone. *)
Lemma point_peers_calm s0 peers :
  engine_wf (sv_engine s0) → calm (sv_engine s0) →
  Forall (λ so, ∃ reqs, data so = frames reqs ∧ Z.of_nat (length (frames reqs)) < 2 ^ 32 ∧
            Forall (λ r, ∀ p ns, queries (p, ns, r) = false) reqs) peers →
  stays_calm None permissive s0 peers.
Proof.
  intros Hwf Hc Hp. split; [done|]. intros n l Hl. destruct (listens_traced _ _ s0 peers n l Hl) as (got & Ht).
  destruct (traced_reaches _ _ _ _ _ _ Ht) as [[k Hr] _].
  pose proof (point_workload permissive s0 got k (server_config l)) as Hpw.
  change (sv_engine (ln_state l)) with (sv_engine (cf_state (server_config l))). rewrite Hpw; [done| |exact Hr].
  clear Hpw Hr. apply Forall_lookup. intros i g Hg. destruct (Forall2_lookup_r _ _ _ _ _ (tr_conns _ _ _ _ _ _ Ht) Hg) as (c & Hi & Hw).
  assert (peers !! i = Some (co_peer c)) as Hpi by (rewrite <- (tr_peers _ _ _ _ _ _ Ht); change (map co_peer) with (fmap (M := list) co_peer);
    by rewrite list_lookup_fmap, Hi).
  destruct (Forall_lookup_1 _ _ _ _ Hp Hpi) as (reqs & Hd & Hlen & Hq).
  assert (g = [] ∨ ∃ p, heard None c g p) as [->|[p (hello & [-> _] & Hd2 & _)]].
  { pose proof (wi_stage _ _ _ Hw) as S. unfold staged in S. destruct (co_stage c); naive_solver. }
  - constructor.
  - cbn [app] in Hd2. rewrite Hd in Hd2. symmetry in Hd2. apply frames_prefix in Hd2; [|exact Hlen].
    destruct Hd2 as [more ->]. apply Forall_app in Hq as [Hq _]. rewrite Forall_map in Hq.
    eapply Forall_impl; [exact Hq|]. intros [[p1 ns] r] Hx. cbn in Hx. apply Hx.
Qed.

Definition put_frame : list byte := matrix_serialize_request (plain_request PUT 7 70).

(** One connection, cut into single bytes, that puts a value. *)
Definition one_peer : list Socket := [choppy (frames [put_frame])].

Lemma put_answer : ∃ s', matrix_serve permissive 0 0 put_frame sample_server =
  Ret (matrix_serialize_response (mkResponse SERVER_OK []), s').
Proof.
  assert (match matrix_serve permissive 0 0 put_frame sample_server with
          | Ret (x, _) => bool_decide (x = matrix_serialize_response (mkResponse SERVER_OK [])) | _ => false end = true) as H
    by (vm_compute; reflexivity).
  destruct (matrix_serve permissive 0 0 put_frame sample_server) as [[x s']|]; [|discriminate H].
  apply bool_decide_eq_true in H as ->. by exists s'.
Qed.

Definition put_socket : Socket := mkSocket [] (λ _, 3%nat) 6 (frame (matrix_serialize_response (mkResponse SERVER_OK []))).

Lemma one_peer_run : ∃ s' c, listens None permissive (listening sample_server one_peer) 6 (mkListening s' (mkMutex 0 false) [c]) ∧
  co_stage c = Closed 0 ∧ co_sock c = put_socket ∧ th_done (co_thread c) = [matrix_serialize_response (mkResponse SERVER_OK [])].
Proof.
  destruct put_answer as [s' Hput]. set (resp := matrix_serialize_response (mkResponse SERVER_OK [])) in *.
  assert (recv_frame FRAME_CAP (choppy (frames [put_frame])) = Some (put_frame, mkSocket [] (λ _, 3%nat) 0 [])) as Hr
    by (vm_compute; reflexivity).
  pose (c0 := queued (choppy (frames [put_frame]))).
  pose (c1 := accepted None c0).
  pose (c2 := with_thread (mkThread Idle [(0, 0, put_frame)] []) (with_sock (mkSocket [] (λ _, 3%nat) 0 []) (Open 0) c1)).
  pose (c3 := with_thread (mkThread (Writing (0, 0, put_frame)) [] []) c2).
  pose (c4 := with_thread (mkThread Idle [] [resp]) c3).
  pose (c5 := replied put_socket true 0 c4).
  exists s', (with_stage (Closed 0) c5). split; [|split; [exact eq_refl|split; exact eq_refl]].
  eapply (listens_step _ _ _ 5 (mkListening s' _ [c5])); [eapply (listens_step _ _ _ 4 (mkListening s' _ [c4]));
    [eapply (listens_step _ _ _ 3 (mkListening sample_server (mkMutex 0 true) [c3]));
    [eapply (listens_step _ _ _ 2 (mkListening sample_server _ [c2]));
    [eapply (listens_step _ _ _ 1 (mkListening sample_server _ [c1])); [eapply (listens_step _ _ _ 0); [constructor|]|]|]|]|]|].
  - apply (listen_accept None permissive sample_server (mkMutex 0 false) [c0] 0 c0 eq_refl eq_refl). constructor.
  - pose proof (listen_receive None permissive sample_server (mkMutex 0 false) [c1] 0 c1 0 0 [] eq_refl eq_refl eq_refl eq_refl) as H.
    change (co_sock c1) with (choppy (frames [put_frame])) in H. rewrite Hr in H. exact H.
  - apply (listen_serve None permissive _ _ _ (mkMutex 0 true) [c2] [mkThread (Writing (0, 0, put_frame)) [] []]).
    assert (wants_exclusive put_frame = true) as Hw by (vm_compute; reflexivity).
    exact (step_lock_write (Shared0 := shared_server permissive) sample_server (mkMutex 0 false) (mkMutex 0 true)
             [mkThread Idle [(0, 0, put_frame)] []] 0 (0, 0, put_frame) [] [] eq_refl Hw eq_refl).
  - apply (listen_serve None permissive _ s' _ (mkMutex 0 false) [c3] [mkThread Idle [] [resp]]).
    exact (step_slow (Shared0 := shared_server permissive) sample_server s' (mkMutex 0 true)
             [mkThread (Writing (0, 0, put_frame)) [] []] 0 (0, 0, put_frame) [] [] resp eq_refl Hput).
  - apply (listen_reply None permissive s' (mkMutex 0 false) [c4] 0 c4 0 [] resp put_socket true eq_refl eq_refl eq_refl eq_refl).
    vm_compute. reflexivity.
  - pose proof (listen_receive None permissive s' (mkMutex 0 false) [c5] 0 c5 0 0 [resp] eq_refl eq_refl eq_refl eq_refl) as H.
    assert (recv_frame FRAME_CAP (co_sock c5) = None) as Hn by (vm_compute; reflexivity). rewrite Hn in H. exact H.
Qed.

Lemma one_peer_calm : stays_calm None permissive sample_server one_peer.
Proof.
  apply point_peers_calm; [exact sample_wf|exact sample_calm|].
  apply Forall_cons. split; [|apply Forall_nil; exact I]. exists [put_frame]. split; [vm_compute; reflexivity|].
  split; [vm_compute; reflexivity|]. apply Forall_cons. split; [|apply Forall_nil; exact I]. intros p ns. vm_compute. reflexivity.
Qed.

Lemma daemon_serves_serially_witness :
  ∃ s' c tr, listens None permissive (listening sample_server one_peer) 6 (mkListening s' (mkMutex 0 false) [c]) ∧
    serial (Serial0 := serial_server permissive) (abs_server sample_server) tr (abs_server s') ∧
    ∃ calls, heard None c calls 0 ∧ map fst (of_thread 0 tr) `prefix_of` calls.
Proof.
  destruct one_peer_run as (s' & c & Hl & Hst & _ & _).
  destruct (daemon_serves_serially None permissive sample_server one_peer 6 (mkListening s' (mkMutex 0 false) [c]) one_peer_calm Hl)
    as (tr & Hs & _ & Hc).
  exists s', c, tr. split; [exact Hl|]. split; [exact Hs|].
  destruct (Hc 0%nat c eq_refl) as [Hh _]. rewrite Hst in Hh. destruct Hh as (calls & waiting & H1 & H2 & _).
  exists calls. split; [exact H1|]. rewrite H2. by exists waiting.
Defined.

Lemma daemon_finishes_witness :
  ∃ s' c, listens None permissive (listening sample_server one_peer) 6 (mkListening s' (mkMutex 0 false) [c]) ∧
    co_stage c = Closed 0 ∧ (6 ≤ total (λ so, 3 + 2 * ServerTcp.pending so) one_peer)%nat.
Proof.
  destruct one_peer_run as (s' & c & Hl & Hst & _ & _). exists s', c. split; [exact Hl|]. split; [exact Hst|].
  exact (proj1 (daemon_finishes None permissive sample_server one_peer 6 _ Hl)).
Defined.

Lemma daemon_exit_codes_example :
  daemon_exit (Serves 7070 None permissive) (mkNet 3 0 0 [4; -1; 5]) =
  (None, [setsockopt 3 SO_REUSEADDR; bind 3 7070; listen 3 16;
          setsockopt 4 TCP_NODELAY; setsockopt 4 (SO_RCVTIMEO (mkTimeval 30 0)); setsockopt 4 (SO_SNDTIMEO (mkTimeval 30 0)); spawn 4;
          setsockopt 5 TCP_NODELAY; setsockopt 5 (SO_RCVTIMEO (mkTimeval 30 0)); setsockopt 5 (SO_SNDTIMEO (mkTimeval 30 0)); spawn 5]) ∧
  daemon_exit (Serves 80 None permissive) (mkNet 3 (-1) 0 [4]) = (Some 1, [setsockopt 3 SO_REUSEADDR; bind 3 80; close 3]).
Proof. done. Qed.

End witnesses.
