(* ===== verification/Cli.v ===== *)
(** * Cli: the interactive shell

    [matrix_cli.hpp]: how a line is routed to a query, how results are decoded
    and laid out, and the dot commands.  [strtod_value] is [std::strtod],
    [show_double] what an [ostream] prints for a double; clock readings are
    arguments.  Output is the text written; input is a list of lines. *)

From Stdlib Require Import Ascii.
From S2P Require Export Server CsvIngest EngineSnapshot Text.
#[local] Open Scope string_scope.
#[local] Open Scope Z_scope.

Inductive OutMode : Type := LIST | CSV | TABLE.

#[export] Instance OutMode_eq_dec : EqDecision OutMode.
Proof. solve_decision. Defined.

Definition endl (s : string) : string := s +:+ one_char NL.
Definition unlines (l : list string) : string := foldr (λ s r, endl s +:+ r) EmptyString l.
Definition error (msg : string) : string := endl ("Error: " +:+ msg).
Definition SEP : string := " │ ".
Definition separator (mode : OutMode) : string := match mode with CSV => "," | _ => SEP end.

Definition type_name (t : MatrixType) : string := match t with I64 => "i64" | F64 => "f64" | U32 => "u32" end.
Definition tier_name (m : MemorySpace) : string :=
  match m with DEVICE => "DEVICE" | COLD => "COLD" | UNIFIED => "UNIFIED" | HOST => "HOST" end.

Definition is_count (op : MatrixAggOp) : bool := match op with AGG_COUNT => true | _ => false end.

(** ** Joins: what follows the keys *)

Inductive Post : Type :=
  | Plain
  | Having (op : string) (threshold : Z)
  | TopN (n : Z).

Fixpoint split_at (word : string) (tk : list string) : option (list string * list string) :=
  match tk with
  | [] => None
  | t :: tk' =>
      if String.eqb (upper t) word then Some ([], tk')
      else match split_at word tk' with Some (a, b) => Some (t :: a, b) | None => None end
  end.

Definition is_comparison (op : string) : bool :=
  existsb (String.eqb op) [">"; ">="; "<"; "<="; "="; "!="].

(** The greatest finite double and its negation. *)
Definition F64_MAX : Z := 0x7FEFFFFFFFFFFFFF.
Definition F64_LOWEST : Z := 0xFFEFFFFFFFFFFFFF.

(** [buckets[k].push_back(v)] of a [std::map]: the keys stay in order. *)
Fixpoint bucket_insert (k v : Z) (l : list (Z * list Z)) : list (Z * list Z) :=
  match l with
  | [] => [(k, [v])]
  | (k', vs) :: l' =>
      if k <? k' then (k, [v]) :: l
      else if k =? k' then (k', vs ++ [v])%list :: l'
      else (k', vs) :: bucket_insert k v l'
  end.

Record GRow := mkRow { g_label : string; g_text : string; g_order : Z }.

(** [std::stable_sort] by descending order key. *)
Fixpoint sorted_insert (r : GRow) (l : list GRow) : list GRow :=
  match l with
  | [] => [r]
  | r' :: l' => if f64_ltb (g_order r) (g_order r') then r' :: sorted_insert r l' else r :: l
  end.
Definition sort_rows (l : list GRow) : list GRow := foldr sorted_insert [] l.

Definition passes (op : string) (x threshold : Z) : bool :=
  if String.eqb op ">" then f64_ltb threshold x
  else if String.eqb op ">=" then f64_leb threshold x
  else if String.eqb op "<" then f64_ltb x threshold
  else if String.eqb op "<=" then f64_leb x threshold
  else if String.eqb op "=" then f64_eqb x threshold
  else negb (f64_eqb x threshold).

Definition post_rows (p : Post) (rows : list GRow) : list GRow :=
  match p with
  | Plain => rows
  | Having op threshold => List.filter (λ r, passes op (g_order r) threshold) rows
  | TopN n => take (Z.to_nat n) (sort_rows rows)
  end.

(** ** Aligned output *)

(** The pieces of [s] between the separators. *)
Fixpoint split_on (fuel : nat) (sep s : string) : list string :=
  match fuel with
  | O => [s]
  | S f => match find sep s with
           | Some q => substr 0 q s :: split_on f sep (drop_chars (q + String.length sep) s)
           | None => [s]
           end
  end.

(** A row with the separator is a table row; any other is left as it is. *)
Definition cells_of (line : string) : list string :=
  if contains SEP line then split_on (S (String.length line)) SEP line else [].

Fixpoint widen (width : list nat) (cells : list string) : list nat :=
  match cells, width with
  | [], _ => width
  | c :: cs, [] => String.length c :: widen [] cs
  | c :: cs, w :: ws => Nat.max w (String.length c) :: widen ws cs
  end.

Fixpoint spaces (n : nat) : string := match n with O => EmptyString | S n' => String " "%char (spaces n') end.

(** All but the last cell are padded to their column's width. *)
Fixpoint padded (width : list nat) (cells : list string) : string :=
  match cells with
  | [] => EmptyString
  | [c] => c
  | c :: cs => c +:+ spaces (hd 0%nat width - String.length c) +:+ SEP +:+ padded (tl width) cs
  end.

Definition align_table (text : string) : string :=
  let lines := getlines text in
  let width := fold_left (λ w l, widen w (cells_of l)) lines [] in
  unlines (map (λ l, match cells_of l with [] => l | cells => padded width cells end) lines).

Section cli.
Variable strtod : string → option (Z * nat).
Variable strtod_value : string → Z.
Variable show_double : Z → string.
Variable mem : Z.
Context `{!HashOrder Z, !HashOrder string} {psort : PartialSort}.

(** ** Decoding *)

Definition decode_num (e : Engine) (col v : Z) : string :=
  match column_type col e with
  | I64 => to_string (i64 v)
  | F64 => show_double v
  | U32 => to_string v
  end.

(** A COUNT is a number, not a value of the column. *)
Definition decode_agg (e : Engine) (q : MatrixQuery) (v : Z) : string :=
  if is_count (agg q) then to_string v else decode_num e (value_col q) v.

Definition is_dict (e : Engine) (col : Z) : bool := 0 <? string_dict_size col e.

Definition decode_proj (e : Engine) (col v : Z) : string :=
  if is_dict e col then string_decode col (u32 v) e else decode_num e col v.

(** A group key: the string it stands for, or the number. *)
Definition group_label (e : Engine) (key g : Z) : string :=
  if is_dict e key then string_decode key (u32 g) e else to_string g.

(** The text of an aggregate over gathered values and the double it is ranked by. *)
Definition reduce_agg (e : Engine) (col : Z) (op : MatrixAggOp) (vals : list Z) : outcome (string * Z) :=
  let n := Z.of_nat (length vals) in
  if is_count op then Ret (to_string n, f64_of_Z n)
  else
    let none {A} (zero acc : A) := if (length vals =? 0)%nat then zero else acc in
    match column_type col e with
    | F64 =>
        let init := match op with AGG_SUM => F64_ZERO | AGG_MIN => F64_MAX | _ => F64_LOWEST end in
        acc ← fold_outcome (λ acc v, acc_step f64_acc op acc v) vals init;
        let acc := none F64_ZERO acc in Ret (show_double acc, acc)
    | I64 =>
        acc ← fold_outcome (λ acc v, acc_step i64_acc op acc (i64 v)) vals (acc_init i64_acc op);
        let acc := none 0 acc in Ret (to_string acc, f64_of_Z acc)
    | U32 =>
        acc ← fold_outcome (λ acc v, acc_step u64_acc op acc (Z.land v UINT32_MAX)) vals (acc_init u64_acc op);
        let acc := none 0 acc in Ret (to_string acc, f64_of_Z acc)
    end.

(** ** Joins *)

(** The words after the right key of an aggregate join: no grouping, or the
    column to group by and what to do with the groups. *)
Definition parse_tail (e : Engine) (tail : list string) : string + option (Z * Post) :=
  match tail with
  | [] => inr None
  | g :: b :: k :: rest =>
      if negb (String.eqb (upper g) "GROUP" && String.eqb (upper b) "BY")
      then inl "could not parse join GROUP BY (... GROUP BY rcol)"
      else
        let gcol := column_id k e in
        if gcol =? 0 then inl "unknown GROUP BY column in join"
        else
          let bad := inl "could not parse join GROUP BY clause (HAVING agg <cmp> v | ORDER BY agg DESC LIMIT n)" in
          match rest with
          | [] => inr (Some (gcol, Plain))
          | [h; _; op; v] =>
              if String.eqb (upper h) "HAVING" then
                if is_comparison op then inr (Some (gcol, Having op (strtod_value v)))
                else inl "bad HAVING comparison (use > >= < <= = !=)"
              else bad
          | [o; b2; _; _; l; n] =>
              if String.eqb (upper o) "ORDER" && String.eqb (upper b2) "BY" && String.eqb (upper l) "LIMIT"
              then inr (Some (gcol, TopN (strtoull n)))
              else bad
          | _ => bad
          end
  | _ => inl "could not parse join GROUP BY (... GROUP BY rcol)"
  end.

Definition join_agg_of (name : string) : option MatrixAggOp :=
  if String.eqb name "COUNT" then Some AGG_COUNT else if String.eqb name "SUM" then Some AGG_SUM
  else if String.eqb name "MIN" then Some AGG_MIN else if String.eqb name "MAX" then Some AGG_MAX else None.

Definition join_pairs (kt : MatrixType) (lkey rkey : Z) : stM Engine (list (Z * Z)) :=
  match kt with I64 => hash_join_i64 lkey rkey | _ => hash_join lkey rkey end.

Fixpoint group_rows (e : Engine) (gcol lcol : Z) (op : MatrixAggOp) (buckets : list (Z * list Z)) : outcome (list GRow) :=
  match buckets with
  | [] => Ret []
  | (g, vs) :: rest =>
      '(text, order) ← reduce_agg e lcol op vs;
      rows ← group_rows e gcol lcol op rest;
      Ret (mkRow (group_label e gcol g) text order :: rows)
  end.

Definition run_join_agg (sep sel : string) (lp : nat) (kt : MatrixType) (lkey rkey : Z) (tail : list string) :
    stM Engine string := λ e,
  match find ")" sel with
  | Some rp =>
      if (rp <? lp)%nat then Ret (error "could not parse join aggregate (SELECT AGG(col) JOIN ...)", e)
      else
        let aggname := upper (trim (substr 0 lp sel)) in
        match join_agg_of aggname with
        | None => Ret (error ("join aggregate supports COUNT/SUM/MIN/MAX (not " +:+ aggname +:+ ")"), e)
        | Some op =>
            let lcol := column_id (trim (substr (S lp) (rp - lp - 1) sel)) e in
            if lcol =? 0 then Ret (error "unknown aggregate column in join", e)
            else
              match parse_tail e tail with
              | inl msg => Ret (error msg, e)
              | inr group =>
                  '(pr, e) ← join_pairs kt lkey rkey e;
                  '(lv, e) ← gather lcol (map fst pr) e;
                  match group with
                  | None => '(text, _) ← reduce_agg e lcol op lv; Ret (endl text, e)
                  | Some (gcol, post) =>
                      '(gv, e) ← gather gcol (map snd pr) e;
                      let buckets := fold_left (λ bs gl, bucket_insert gl.1 gl.2 bs) (combine gv lv) [] in
                      rows ← group_rows e gcol lcol op buckets;
                      Ret (unlines (map (λ r, g_label r +:+ sep +:+ g_text r) (post_rows post rows)), e)
                  end
              end
        end
  | None => Ret (error "could not parse join aggregate (SELECT AGG(col) JOIN ...)", e)
  end.

(** The note under a listing that was cut off. *)
Definition note (mode : OutMode) (total shown : Z) (what : string) : string :=
  if bool_decide (mode = LIST) && (shown <? total)
  then endl ("… (" +:+ to_string total +:+ what +:+ ", showing " +:+ to_string shown +:+ ")") else EmptyString.

Definition run_join_project (mode : OutMode) (sel : string) (kt : MatrixType) (lkey rkey : Z) (tail : list string) :
    stM Engine string := λ e,
  let limit := match tail with
               | [] => Some 0
               | [l; n] => if String.eqb (upper l) "LIMIT" then Some (strtoull n) else None
               | _ => None
               end in
  match limit, find "," sel with
  | None, _ => Ret (error "could not parse join (trailing tokens)", e)
  | _, None => Ret (error "join projection needs two columns: SELECT lcol, rcol JOIN ...", e)
  | Some limit, Some comma =>
      let lcol := column_id (trim (substr 0 comma sel)) e in
      let rcol := column_id (trim (drop_chars (S comma) sel)) e in
      if (lcol =? 0) || (rcol =? 0) then Ret (error "unknown projected column in join", e)
      else
        '(pr, e) ← join_pairs kt lkey rkey e;
        let cap := if limit =? 0 then 100 else limit in
        let shown := take (Z.to_nat cap) pr in
        '(lv, e) ← gather lcol (map fst shown) e;
        '(rv, e) ← gather rcol (map snd shown) e;
        Ret (unlines (map (λ lr, decode_proj e lcol lr.1 +:+ separator mode +:+ decode_proj e rcol lr.2) (combine lv rv))
               +:+ note mode (Z.of_nat (length pr)) cap " matches", e)
  end.

Definition run_join (mode : OutMode) (line : string) : stM Engine string := λ e,
  match split_at "JOIN" (split_ws line) with
  | Some (before, lk :: eq :: rk :: tail) =>
      if negb (String.eqb eq "=") then Ret (error "could not parse join (SELECT a, b JOIN lk = rk [LIMIT n])", e)
      else
        let lkey := column_id lk e in
        let rkey := column_id rk e in
        if (lkey =? 0) || (rkey =? 0) then Ret (error "unknown column in join", e)
        else if is_dict e lkey || is_dict e rkey
        then Ret (error "cannot join on string-dictionary keys (independent code spaces)", e)
        else
          let kt := column_type lkey e in
          if negb (bool_decide (kt = column_type rkey e)) || bool_decide (kt = F64)
          then Ret (error "join keys must be matching u32 or i64 columns", e)
          else
            let sel := join (tl before) in
            if contains "COUNT" (upper sel) && contains "*" sel then
              '(n, e) ← hash_join_count lkey rkey e; Ret (endl (to_string n), e)
            else match find "(" sel with
                 | Some lp => run_join_agg (separator mode) sel lp kt lkey rkey tail e
                 | None => run_join_project mode sel kt lkey rkey tail e
                 end
  | _ => Ret (error "could not parse join (SELECT a, b JOIN lk = rk [LIMIT n])", e)
  end.

(** ** The other queries.  [ns k] is the time the line's [k]-th query takes. *)

(** The line up to the clause that begins at [find word]. *)
Definition before_word (word line : string) : string :=
  match find word (upper line) with Some p => substr 0 p line | None => line end.

Definition run_having (mode : OutMode) (line : string) (ns : nat → Z) : stM Engine string := λ e,
  '((st, q), e) ← parse_query strtod (before_word "HAVING" line) e;
  if negb (bool_decide (st = OK)) then Ret (error "could not parse HAVING query", e)
  else
    '(rows, e) ← having_query strtod line (ns 0%nat) e;
    Ret (unlines (map (λ gv, group_label e (key_col q) gv.1 +:+ separator mode +:+ decode_agg e q gv.2) rows), e).

Definition run_avg (mode : OutMode) (line : string) (ns : nat → Z) : stM Engine string := λ e,
  '(a, e) ← avg_query strtod line (ns 0%nat) (ns 1%nat) e;
  Ret (match a with
       | [] => error "could not run AVG query"
       | [x] => endl (show_double x)
       | _ => unlines (imap (λ g x, to_string (Z.of_nat g) +:+ separator mode +:+ show_double x) a)
       end, e).

(** Where the tail of the line begins: the first of its clauses. *)
Definition tail_cut (line : string) : option nat :=
  let first a b := match a, b with Some x, Some y => Some (Nat.min x y) | Some x, None => Some x | None, b => b end in
  let U := upper line in first (find " WHERE" U) (first (find " GROUP" U) (find " ORDER" U)).

Record Term := mkTerm { t_label : string; t_query : MatrixQuery; t_result : list Z }.

(** Each aggregate of the list is a query of its own; the first that fails ends
    the line. *)
Fixpoint run_terms (k : nat) (ns : nat → Z) (terms : list string) (tail : string) : stM Engine (option (list Term)) := λ e,
  match terms with
  | [] => Ret (Some [], e)
  | t :: rest =>
      let term := trim t in
      if String.eqb term EmptyString then run_terms k ns rest tail e
      else
        '((st, q), e) ← parse_query strtod ("SELECT " +:+ term +:+ tail) e;
        if negb (bool_decide (st = OK)) then Ret (None, e)
        else
          '((st, r), e) ← execute_query q (ns k) e;
          if negb (bool_decide (st = OK)) then Ret (None, e)
          else
            '(o, e) ← run_terms (S k) ns rest tail e;
            Ret (match o with Some ts => Some (mkTerm term q r :: ts) | None => None end, e)
  end.

Fixpoint sep_by (sep : string) (l : list string) : string :=
  match l with [] => EmptyString | [s] => s | s :: l' => s +:+ sep +:+ sep_by sep l' end.

(** The row of group [g]: every term's result has that group. *)
Fixpoint group_cells (e : Engine) (g : nat) (ts : list Term) : outcome (list string) :=
  match ts with
  | [] => Ret []
  | t :: rest =>
      v ← rd (t_result t) g;
      cells ← group_cells e g rest;
      Ret (decode_agg e (t_query t) v :: cells)
  end.

Fixpoint group_lines (e : Engine) (sep : string) (key : Z) (g n : nat) (ts : list Term) : outcome (list string) :=
  match n with
  | O => Ret []
  | S n' =>
      cells ← group_cells e g ts;
      rest ← group_lines e sep key (S g) n' ts;
      Ret (sep_by sep (group_label e key (Z.of_nat g) :: cells) :: rest)
  end.

Definition run_multi (mode : OutMode) (line : string) (ns : nat → Z) : stM Engine string := λ e,
  let sep := separator mode in
  let '(list, tail) := match tail_cut line with
                       | Some cut => (substr 6 (cut - 6) line, drop_chars cut line)
                       | None => (drop_chars 6 line, EmptyString)
                       end in
  '(o, e) ← run_terms 0 ns (split_commas list) tail e;
  match o with
  | None => Ret (error "could not run multi-aggregate query", e)
  | Some [] => Ret (error "empty SELECT list", e)
  | Some ((t0 :: _) as ts) =>
      if negb (grouped (t_query t0)) then
        Ret (unlines [sep_by sep (map t_label ts);
                      sep_by sep (map (λ t, decode_agg e (t_query t) (nth 0 (t_result t) 0)) ts)], e)
      else
        rows ← group_lines e sep (key_col (t_query t0)) 0 (length (t_result t0)) ts;
        Ret (unlines (sep_by sep ("key" :: map t_label ts) :: rows), e)
  end.

Definition run_aggregate (mode : OutMode) (line : string) (ns : nat → Z) : stM Engine string := λ e,
  let sep := separator mode in
  '((st, q), e) ← parse_query strtod line e;
  if negb (bool_decide (st = OK)) then Ret (error "could not parse query", e)
  else
    '((st, o), e) ← execute_query q (ns 0%nat) e;
    if negb (bool_decide (st = OK)) then Ret (error "query rejected", e)
    else if grouped q && (0 <? limit q) then
      '(rows, e) ← top_query strtod line (ns 1%nat) e;
      Ret (unlines (map (λ gv, group_label e (key_col q) gv.1 +:+ sep +:+ decode_agg e q gv.2) rows), e)
    else if negb (grouped q) then
      Ret (endl (match o with v :: _ => decode_agg e q v | [] => EmptyString end), e)
    else
      Ret (unlines (imap (λ g v, group_label e (key_col q) (Z.of_nat g) +:+ sep +:+ decode_agg e q v) o), e).

Definition run_projection (mode : OutMode) (line : string) : stM Engine string := λ e,
  let pcol := match split_ws line with _ :: name :: _ => column_id name e | _ => 0 end in
  if pcol =? 0 then Ret (error "could not run query (unknown column?)", e)
  else
    '(o, e) ← project_query strtod line e;
    Ret (unlines (map (decode_proj e pcol) (take 100 o)) +:+ note mode (Z.of_nat (length o)) 100 " rows", e).

Definition run_distinct (line : string) : stM Engine string := λ e,
  '(o, e) ← distinct_query line e;
  Ret (match o with Some n => endl (to_string n) | None => error "could not run COUNT(DISTINCT) query" end, e).

(** The first branch that matches runs the line. *)
Definition matrix_cli_run_sql (mode : OutMode) (line : string) (ns : nat → Z) : stM Engine string :=
  let U := upper line in
  if contains " JOIN " U then run_join mode line
  else if contains "DISTINCT" U then run_distinct line
  else if contains "HAVING" U then run_having mode line ns
  else if contains "AVG(" U then run_avg mode line ns
  else if starts_with "SELECT" U && contains "(" line && contains "," line then run_multi mode line ns
  else if contains "(" line then run_aggregate mode line ns
  else run_projection mode line.

(** ** The shell *)

Record Shell := mkShell { sh_engine : Engine; sh_next_id : Z; sh_timing : bool; sh_mode : OutMode }.

Definition with_engine (e : Engine) (sh : Shell) : Shell := mkShell e (sh_next_id sh) (sh_timing sh) (sh_mode sh).

Definition TAB : string := one_char (ascii_of_nat 9).
Definition QUOTE : string := one_char (ascii_of_nat 34).

Definition help_text : string := unlines
  ["commands: .load <csv> <name> <u32|i64|f64|str> [colN] [header|noheader] | .save <file> | .open <file> | .timing on|off | .mode list|csv|table | .tables | .columns | .stats | .help | .quit";
   "queries:  SELECT COUNT|SUM|MIN|MAX|AVG(col) [WHERE col <op> v] [GROUP BY key] [HAVING agg <op> v | ORDER BY agg DESC LIMIT n]";
   "          SELECT agg(a), agg(b) [...]  |  SELECT COUNT(DISTINCT col)  |  SELECT col [WHERE col <op> v] [LIMIT n]";
   "joins:    SELECT lcol, rcol JOIN lkey = rkey [LIMIT n]  |  SELECT COUNT(*) JOIN lkey = rkey";
   "          SELECT agg(lcol) JOIN lkey = rkey [GROUP BY rcol [HAVING agg <op> v | ORDER BY agg DESC LIMIT n]]"].

Definition column_line (e : Engine) (c : ColumnInfo) : string :=
  sep_by TAB [to_string (ci_id c); ci_name c; (if is_dict e (ci_id c) then "str" else type_name (ci_type c));
              to_string (ci_rows c); tier_name (ci_tier c)].

Definition tables (e : Engine) : list string := map fst (hash_iter (tables_ (schema_ e))).

Definition cmd_columns (e : Engine) : string :=
  unlines (sep_by TAB ["id"; "name"; "type"; "rows"; "tier"] :: map (column_line e) (catalog_columns e)).

Definition MB : Z := 1024 * 1024.

Definition cmd_stats (e : Engine) : outcome string :=
  p50 ← query_latency_percentile_ns F64_HALF (stats_ e);
  p99 ← query_latency_percentile_ns F64_P99 (stats_ e);
  Ret (endl ("columns=" +:+ to_string (catalog_size e) +:+
    " host_mb=" +:+ to_string (resident HOST e / MB) +:+ " cold_mb=" +:+ to_string (resident COLD e / MB) +:+
    " cold_borrows=" +:+ to_string (cold_borrows_ (brain_ e)) +:+ " rebalances=" +:+ to_string (rebalances_ (brain_ e)) +:+
    " migrations=" +:+ to_string (migrations_ (brain_ e)) +:+ " queries=" +:+ to_string (query_count_ (stats_ e)) +:+
    " p50_ns=" +:+ to_string p50 +:+ " p99_ns=" +:+ to_string p99)).

(** The options after the type: the column and whether there is a header. *)
Definition load_options (words : list string) : Z * bool :=
  fold_left (λ ch w,
    if String.eqb w "noheader" then (ch.1, false)
    else if String.eqb w "header" then (ch.1, true)
    else if starts_with "col" w then (from_chars_u64 (drop_chars 3 w) ch.1, ch.2)
    else ch) words (0, true).

Definition csv_loader (type : string) : option (Z → string → nat → bool → ascii → Engine → outcome (bool * Engine)) :=
  if String.eqb type "u32" then Some load_column_from_csv
  else if String.eqb type "i64" then Some load_column_from_csv_i64
  else if String.eqb type "f64" then Some (load_column_from_csv_f64 strtod)
  else if String.eqb type "str" then Some load_string_column_from_csv
  else None.

Definition cmd_load (tk : list string) (sh : Shell) : outcome (string * Shell) :=
  match tk with
  | _ :: path :: name :: type :: opts =>
      let '(col, header) := load_options opts in
      let id := sh_next_id sh in
      match csv_loader type with
      | None => Ret (error ("unknown type '" +:+ type +:+ "' (use u32|i64|f64|str)"), sh)
      | Some load =>
          '(ok, e) ← load id path (Z.to_nat col) header ","%char (sh_engine sh);
          if negb ok then Ret (error ("could not load " +:+ path +:+ " (col " +:+ to_string col +:+ ")"), with_engine e sh)
          else
            e ← name_column id name e;
            rows ← column_rows id e;
            Ret (endl ("loaded " +:+ to_string rows +:+ " rows into " +:+ QUOTE +:+ name +:+ QUOTE +:+
                       " (" +:+ type +:+ ", col " +:+ to_string col +:+ ")"),
                 mkShell e (u64 (id + 1)) (sh_timing sh) (sh_mode sh))
      end
  | _ => Ret (error "usage: .load <csv> <name> <u32|i64|f64|str> [colN] [header|noheader]", sh)
  end.

Definition cmd_save (tk : list string) (sh : Shell) : outcome (string * Shell) :=
  match tk with
  | _ :: path :: _ =>
      '(ok, e) ← save_catalog path (sh_engine sh);
      Ret (if (ok : bool) then endl ("saved catalog to " +:+ path) else error ("could not save catalog to " +:+ path),
           with_engine e sh)
  | _ => Ret (error "usage: .save <file>", sh)
  end.

(** An id above every column of the catalog. *)
Definition next_free (id : Z) (e : Engine) : Z :=
  fold_left (λ next c, if next <=? ci_id c then u64 (ci_id c + 1) else next) (catalog_columns e) id.

Definition cmd_open (tk : list string) (sh : Shell) : outcome (string * Shell) :=
  match tk with
  | _ :: path :: _ =>
      match catalog_columns (sh_engine sh), fs_read (e_fs (sh_engine sh)) path with
      | _ :: _, _ =>
          Ret (error ".open needs a fresh session (existing columns would collide) — start a new matrixdb", sh)
      | [], None => Ret (error ("cannot open " +:+ path), sh)
      | [], Some _ =>
          '(ok, e) ← load_catalog mem path (sh_engine sh);
          if negb ok then Ret (error ("not a valid/compatible matrixdb snapshot: " +:+ path), with_engine e sh)
          else
            Ret (endl ("opened " +:+ path +:+ " (" +:+ to_string (Z.of_nat (length (catalog_columns e))) +:+ " columns)"),
                 mkShell e (next_free (sh_next_id sh) e) (sh_timing sh) (sh_mode sh))
      end
  | _ => Ret (error "usage: .open <file>", sh)
  end.

Definition cmd_timing (tk : list string) (sh : Shell) : string * Shell :=
  let on := negb (match tk with _ :: w :: _ => String.eqb w "off" | _ => false end) in
  (endl ("timing " +:+ (if on then "on" else "off")), mkShell (sh_engine sh) (sh_next_id sh) on (sh_mode sh)).

Definition cmd_mode (tk : list string) (sh : Shell) : string * Shell :=
  let mode := match tk with
              | _ :: w :: _ => if String.eqb w "csv" then Some CSV else if String.eqb w "table" then Some TABLE
                               else if String.eqb w "list" then Some LIST else None
              | _ => None
              end in
  match mode with
  | None => (error "usage: .mode list|csv|table", sh)
  | Some m => (endl ("mode " +:+ match m with CSV => "csv" | TABLE => "table" | LIST => "list" end),
               mkShell (sh_engine sh) (sh_next_id sh) (sh_timing sh) m)
  end.

(** A dot command; [None] ends the session. *)
Definition run_command (line : string) (sh : Shell) : outcome (option (string * Shell)) :=
  let tk := split_ws line in
  let cmd := hd EmptyString tk in
  let named w := String.eqb cmd w in
  let e := sh_engine sh in
  if named ".quit" || named ".exit" then Ret None
  else if named ".help" then Ret (Some (help_text, sh))
  else if named ".tables" then Ret (Some (unlines (tables e), sh))
  else if named ".columns" then Ret (Some (cmd_columns e, sh))
  else if named ".stats" then s ← cmd_stats e; Ret (Some (s, sh))
  else if named ".load" then r ← cmd_load tk sh; Ret (Some r)
  else if named ".save" then r ← cmd_save tk sh; Ret (Some r)
  else if named ".open" then r ← cmd_open tk sh; Ret (Some r)
  else if named ".timing" then Ret (Some (cmd_timing tk sh))
  else if named ".mode" then Ret (Some (cmd_mode tk sh))
  else Ret (Some (error ("unknown command '" +:+ cmd +:+ "' (try .help)"), sh)).

(** What the clock gives during one line: the queries' times, and the whole
    line's in microseconds. *)
Record Clock := mkClock { ck_ns : nat → Z; ck_us : Z }.

Definition run_query_line (line : string) (c : Clock) (sh : Shell) : outcome (string * Shell) :=
  let mode := match sh_mode sh with TABLE => LIST | m => m end in
  '(text, e) ← matrix_cli_run_sql mode line (ck_ns c) (sh_engine sh);
  let text := match sh_mode sh with TABLE => align_table text | _ => text end in
  let time := if sh_timing sh then endl ("(" +:+ to_string (ck_us c) +:+ " µs)") else EmptyString in
  Ret (text +:+ time, with_engine e sh).

Definition first_is (c : ascii) (s : string) : bool := match s with String d _ => Ascii.eqb c d | EmptyString => false end.

(** [matrix_repl]: until the input ends or the session does. *)
Fixpoint matrix_repl (input : list (string * Clock)) (sh : Shell) : outcome (string * Shell) :=
  match input with
  | [] => Ret (EmptyString, sh)
  | (raw, c) :: rest =>
      let line := trim raw in
      if String.eqb line EmptyString || first_is "#" line then matrix_repl rest sh
      else
        r ← (if negb (first_is "." line) then r ← run_query_line line c sh; Ret (Some r) else run_command line sh);
        match r with
        | None => Ret (EmptyString, sh)
        | Some (out, sh') => '(more, sh'') ← matrix_repl rest sh'; Ret (out +:+ more, sh'')
        end
  end.

End cli.

(** ** Lemmas *)

(** A line that is run as one aggregate query. *)
Definition plain_aggregate (line : string) : bool :=
  let U := upper line in
  negb (contains " JOIN " U) && negb (contains "DISTINCT" U) && negb (contains "HAVING" U) && negb (contains "AVG(" U) &&
  negb (starts_with "SELECT" U && contains "(" line && contains "," line) && contains "(" line.

Section shell.
Variable strtod : string → option (Z * nat).
Variable strtod_value : string → Z.
Variable show_double : Z → string.
Variable mem : Z.
Context `{!HashOrder Z, !HashOrder string} {psort : PartialSort}.

Lemma plain_aggregate_runs line mode ns :
  plain_aggregate line = true →
  matrix_cli_run_sql strtod strtod_value show_double mode line ns = run_aggregate strtod show_double mode line ns.
Proof.
  unfold plain_aggregate, matrix_cli_run_sql. rewrite !andb_true_iff, !negb_true_iff.
  intros (((((-> & ->) & ->) & ->) & ->) & ->). done.
Qed.

Lemma lend_calm e e' : lend_step e e' → calm e → calm e'.
Proof. intros Hl [H1 H2]. split; by rewrite (ls_tm _ _ Hl). Qed.

Lemma decode_agg_view e e' q v : view e' = view e → decode_agg show_double e' q v = decode_agg show_double e q v.
Proof.
  intros Hv. unfold decode_agg, decode_num, column_type. by rewrite (view_schema _ _ Hv).
Qed.

Lemma group_label_view e e' key g : view e' = view e → group_label e' key g = group_label e key g.
Proof. intros Hv. unfold group_label, is_dict, string_dict_size, string_decode. by rewrite (view_schema _ _ Hv). Qed.

(** What is printed for the values of a query. *)
Definition answer_text (mode : OutMode) (e : Engine) (q : MatrixQuery) (out : list Z) : string :=
  if grouped q
  then unlines (imap (λ g v, group_label e (key_col q) (Z.of_nat g) +:+ separator mode +:+ decode_agg show_double e q v) out)
  else endl (match out with v :: _ => decode_agg show_double e q v | [] => EmptyString end).

(** What a top-N line prints for the values of its query: the groups that
    [top_groups] picks of them. *)
Definition top_text (mode : OutMode) (e : Engine) (q : MatrixQuery) (out : list Z) : string :=
  let kk := Nat.min (Z.to_nat (limit q)) (length out) in
  unlines (map (λ gv, group_label e (key_col q) gv.1 +:+ separator mode +:+ decode_agg show_double e q gv.2)
             (take kk (partial_sort by_value_desc kk (indexed out)))).

Definition is_top (q : MatrixQuery) : bool := grouped q && (0 <? limit q).

(** The query the shell has run is parsed and run again for its top groups. *)
Lemma top_query_runs line ns q e e2 out :
  view_determined (parse_query strtod line) e (OK, q) → engine_wf e2 → view e2 = view e → calm e2 →
  is_top q = true → query_ref (view e) q = Ret (OK, out) →
  ∃ e', top_query strtod line ns e2 =
      Ret (take (Nat.min (Z.to_nat (limit q)) (length out))
             (partial_sort by_value_desc (Nat.min (Z.to_nat (limit q)) (length out)) (indexed out)), e') ∧
    engine_wf e' ∧ view e' = view e.
Proof.
  intros Hd Hwf Hv Hc [Hg Hlim]%andb_true_iff Href. destruct (Hd e2 Hwf Hv) as (e3 & Hparse & Hl).
  unfold top_query. rewrite (stM_bind_run _ _ _ _ _ Hparse). rewrite bool_decide_true, Hg by done.
  apply Z.ltb_lt in Hlim. rewrite (proj2 (Z.eqb_neq _ _)) by lia. cbn [negb orb].
  pose proof (lend_step_view _ _ Hl) as Hv3.
  destruct (top_groups_run q (Z.to_nat (limit q)) ns e3 out) as (e' & Hrun & Hwf' & Hv').
  - by eapply lend_wf.
  - by eapply lend_calm.
  - done.
  - by rewrite Hv3, Hv.
  - exists e'. split; [done|]. split; [done|]. congruence.
Qed.

Lemma answer_text_view mode e e' q out :
  view e' = view e → answer_text mode e' q out = answer_text mode e q out.
Proof.
  intros Hv. unfold answer_text. destruct (grouped q).
  - f_equal. apply imap_ext. intros g v _. by rewrite (group_label_view e e'), (decode_agg_view e e').
  - do 2 f_equal. destruct out as [|v out]; [done|]. by apply decode_agg_view.
Qed.

Lemma top_text_view mode e e' q out : view e' = view e → top_text mode e' q out = top_text mode e q out.
Proof.
  intros Hv. unfold top_text. f_equal. apply map_ext. intros gv.
  by rewrite (group_label_view e e'), (decode_agg_view e e').
Qed.

(** ** Theorems *)

(** C32: A line with one aggregate is parsed; a line that cannot be prints an error.
    The query it parses to is run: the values printed are those of its reference
    answer, a COUNT as a number, other values by the column's type, groups under
    the strings their codes stand for, and a query that is refused prints an
    error.  With ORDER BY and LIMIT the query is run once more, and the groups
    printed are the top ones of the same answer.  In every case no column changes,
    on whatever tiers they are. *)
Theorem aggregate_line_answers line mode ns e :
  engine_wf e → calm e → names_ok e → plain_aggregate line = true →
  ∃ st q e1, parse_query strtod line e = Ret ((st, q), e1) ∧ engine_wf e1 ∧ view e1 = view e ∧
    let run := matrix_cli_run_sql strtod strtod_value show_double mode line ns e in
    if decide (st = OK) then
      match query_ref (view e) q with
      | Ret (st', out) =>
          ∃ e2, execute_query q (ns 0%nat) e1 = Ret ((st', out), e2) ∧ engine_wf e2 ∧ view e2 = view e ∧
            if negb (bool_decide (st' = OK)) then run = Ret (error "query rejected", e2)
            else if is_top q then
              calm e2 → ∃ e', run = Ret (top_text mode e q out, e') ∧ engine_wf e' ∧ view e' = view e
            else run = Ret (answer_text mode e q out, e2)
      | Crash f => run = Crash f
      end
    else run = Ret (error "could not parse query", e1).
Proof.
  intros Hwf Hc Hn Hp. destruct (parse_query_determined strtod line e Hn) as (st & q & Hd & _).
  destruct (Hd e Hwf eq_refl) as (e1 & Hparse & Hl). pose proof (lend_step_view _ _ Hl) as Hv1.
  exists st, q, e1. split; [done|]. split; [by eapply lend_wf|]. split; [done|].
  cbv zeta. rewrite plain_aggregate_runs by done. unfold run_aggregate.
  rewrite Hparse. cbn [mbind outcome_bind]. destruct (decide (st = OK)) as [->|Hst]; [|by rewrite bool_decide_false].
  rewrite bool_decide_true by done. cbn [negb].
  pose proof (execute_query_run q (ns 0%nat) e1 (lend_wf _ _ Hwf Hl) (lend_calm _ _ Hl Hc)) as H.
  rewrite Hv1 in H. destruct (query_ref (view e) q) as [[st' out]|f] eqn:Href; [|by rewrite H].
  destruct H as (e2 & -> & Hwf2 & Hv2 & _). exists e2. do 3 (split; [done|]). cbn [mbind outcome_bind].
  destruct (bool_decide_reflect (st' = OK)) as [->|Hst']; cbn [negb]; [|done].
  fold (is_top q). destruct (is_top q) eqn:Htop.
  - intros Hc2. destruct (top_query_runs line (ns 1%nat) q e e2 out Hd Hwf2 Hv2 Hc2 Htop Href) as (e' & -> & Hwf' & Hv').
    exists e'. split; [|done]. cbn [mbind outcome_bind]. do 2 f_equal. by apply (top_text_view mode e e').
  - rewrite <- (answer_text_view mode e e2) by done. unfold answer_text. by destruct (grouped q).
Qed.

(** Counting the rows of a join stops the process when the keys are int64
    columns: the shell lets them through and [hash_join_count] takes u32 keys
    only. *)
Theorem count_join_of_wide_keys_aborts mode ns e :
  column_id "a" e ≠ 0 → column_id "b" e ≠ 0 →
  is_dict e (column_id "a" e) = false → is_dict e (column_id "b" e) = false →
  column_type (column_id "a" e) e = I64 → column_type (column_id "b" e) e = I64 →
  matrix_cli_run_sql strtod strtod_value show_double mode "SELECT COUNT(*) JOIN a = b" ns e = Crash AssertFailed.
Proof.
  intros Ha Hb Hda Hdb Hta Htb. unfold matrix_cli_run_sql.
  replace (contains " JOIN " (upper "SELECT COUNT(*) JOIN a = b")) with true by reflexivity. cbv zeta. unfold run_join.
  replace (split_at "JOIN" (split_ws "SELECT COUNT(*) JOIN a = b")) with
    (Some (["SELECT"; "COUNT(*)"], ["a"; "="; "b"])) by reflexivity.
  cbn [String.eqb Ascii.eqb Bool.eqb negb]. rewrite (proj2 (Z.eqb_neq _ _) Ha), (proj2 (Z.eqb_neq _ _) Hb), Hda, Hdb, Hta, Htb.
  cbn [orb]. rewrite bool_decide_true by done. rewrite bool_decide_false by done. cbn [negb orb tl join].
  replace (contains "COUNT" (upper "COUNT(*)") && contains "*" "COUNT(*)") with true by reflexivity.
  unfold hash_join_count, join_columns, require, mbind, stM_bind.
  destruct (catalog_has (column_id "a" e) e && catalog_has (column_id "b" e) e); [|done].
  cbn [assert_ mbind outcome_bind]. rewrite Hta. by rewrite bool_decide_false.
Qed.

(** A snapshot cut off after the first of its two columns, and a CSV file. *)
Definition cut_snapshot : list byte :=
  (concat (header_chunks 2) ++ concat (column_chunks 1 U32 1 "a" (bytes_of U32 [7%Z])))%list.

Definition disk_with_cut_snapshot : filesys :=
  mkFS {[ "s" := mkFile cut_snapshot 0; "x" := mkFile (bytes_of_text ("n" +:+ one_char NL +:+ "5" +:+ one_char NL)) 0 ]} 1000 ∅.

Definition fresh_shell (fs : filesys) : Shell := mkShell (new_engine 1000 [] fs 8 1) 1 false LIST.

End shell.

(** What a session wrote. *)
Definition session_output (o : outcome (string * Shell)) : outcome string := '(out, _) ← o; Ret out.

(** A failed [.open] leaves the columns read so far in the catalog and the id
    counter where it was, so the next [.load], which works in a session of its
    own, takes an id in use and stops the process. *)
Theorem load_after_failed_open_aborts `{psort : PartialSort} strtod strtod_value show_double c :
  let repl lines := matrix_repl (HashOrder0 := elements_order) (HashOrder1 := elements_order) strtod strtod_value show_double 1000
                      (map (λ l, (l, c)) lines) (fresh_shell disk_with_cut_snapshot) in
  session_output (repl [".open s"]) = Ret (error "not a valid/compatible matrixdb snapshot: s") ∧
  session_output (repl [".load x v u32"]) = Ret (endl ("loaded 1 rows into " +:+ QUOTE +:+ "v" +:+ QUOTE +:+ " (u32, col 0)")) ∧
  repl [".open s"; ".load x v u32"] = Crash AssertFailed.
Proof.
  split; [|split]; vm_compute; reflexivity.
Qed.

(** ** Witnesses *)

Definition no_double (z : Z) : string := EmptyString.

Definition top_line : string := "SELECT SUM(v) WHERE v > 5 GROUP BY k ORDER BY SUM DESC LIMIT 1".

Lemma top_line_calm :
  match ('(sq, e1) ← parse_query no_strtod top_line named_sample; execute_query (HashOrder0 := elements_order) sq.2 0 e1) with
  | Ret (_, e2) => calm_check e2
  | Crash _ => false
  end = true.
Proof. vm_compute. reflexivity. Qed.

(** A scalar line, and one for the top group. *)
Lemma aggregate_line_answers_witness :
  let run := matrix_cli_run_sql (HashOrder0 := elements_order) no_strtod (λ _, 0) no_double (psort := sort_whole) in
  (∃ e', run LIST "SELECT SUM(v) WHERE v > 5" (λ _, 0) named_sample = Ret (endl "16", e') ∧ view e' = view named_sample) ∧
  (∃ e', run CSV top_line (λ _, 0) named_sample = Ret (endl "0,9", e') ∧ view e' = view named_sample).
Proof.
  assert (calm named_sample) as Hc by (apply calm_check_ok; vm_compute; reflexivity).
  split.
  - destruct (aggregate_line_answers (HashOrder0 := elements_order) no_strtod (λ _, 0) no_double (psort := sort_whole)
      "SELECT SUM(v) WHERE v > 5" LIST (λ _, 0) named_sample named_sample_wf Hc named_sample_names)
      as (st & q & e1 & Hp & _ & _ & H); [vm_compute; reflexivity|].
    assert (∃ e2, parse_query no_strtod "SELECT SUM(v) WHERE v > 5" named_sample = Ret (OK, sum_query, e2)) as [e2 E]
      by (eexists; vm_compute; reflexivity).
    rewrite E in Hp. injection Hp as <- <- <-. cbv zeta in H. rewrite decide_True in H by reflexivity.
    assert (query_ref (view named_sample) sum_query = Ret (OK, [16])) as Er by (vm_compute; reflexivity).
    rewrite Er in H. destruct H as (e3 & _ & _ & Hv & Hr). exists e3. split; [exact Hr|exact Hv].
  - destruct (aggregate_line_answers (HashOrder0 := elements_order) no_strtod (λ _, 0) no_double (psort := sort_whole)
      top_line CSV (λ _, 0) named_sample named_sample_wf Hc named_sample_names)
      as (st & q & e1 & Hp & _ & _ & H); [vm_compute; reflexivity|].
    pose proof top_line_calm as Hcalm. rewrite Hp in Hcalm. cbn [mbind outcome_bind snd] in Hcalm.
    assert (∃ e2, parse_query no_strtod top_line named_sample = Ret (OK, set_limit grouped_query 1, e2)) as [e2 E]
      by (eexists; vm_compute; reflexivity).
    rewrite E in Hp. injection Hp as <- <- <-. cbv zeta in H. rewrite decide_True in H by reflexivity.
    assert (query_ref (view named_sample) (set_limit grouped_query 1) = Ret (OK, [9; 7])) as Er by (vm_compute; reflexivity).
    rewrite Er in H. destruct H as (e3 & Hx & _ & _ & Hr). rewrite Hx in Hcalm.
    destruct Hr as (e' & Hr & _ & Hv); [by apply calm_check_ok|].
    exists e'. split; [|exact Hv]. refine (eq_trans Hr _). vm_compute. reflexivity.
Defined.

(** Two int64 columns under the names a and b. *)
Definition wide_engine : Engine :=
  match (e ← load_scan_column_i64 1 [4; 5] (new_engine 1000 [] (mkFS ∅ 100 ∅) 8 1);
         e ← load_scan_column_i64 2 [5; 6] e; e ← name_column 1 "a" e; name_column 2 "b" e) with
  | Ret e => e
  | Crash _ => sample
  end.

Lemma count_join_of_wide_keys_aborts_witness :
  matrix_cli_run_sql (HashOrder0 := elements_order) no_strtod (λ _, 0) no_double (psort := sort_whole) LIST
    "SELECT COUNT(*) JOIN a = b" (λ _, 0) wide_engine = Crash AssertFailed.
Proof.
  apply count_join_of_wide_keys_aborts; vm_compute; reflexivity || discriminate.
Defined.
