(* ===== verification/Entry.v ===== *)
(** * Entry: the logger and the shell's [main]

    [logging.hpp], the end of an engine's life in compute_mock.cpp (the
    destructor, which logs dropped writes), and [main] of matrixdb_cli.cpp, which
    chooses the stream the shell reads.  A stream is its text; the lines are what
    [std::getline] makes of it, and the k-th line reads the clocks [clock k].
    What is written to standard output and to standard error are two texts. *)

From S2P Require Export Cli PointStore.
#[local] Open Scope string_scope.
#[local] Open Scope Z_scope.

(** ** [Log] *)

Inductive LogLevel : Type := DEBUG | INFO | WARN | ERROR.

Definition level_value (l : LogLevel) : Z := match l with DEBUG => 0 | INFO => 1 | WARN => 2 | ERROR => 3 end.

(** [Log::level()]: one threshold for the process, WARN until it is set. *)
Definition DEFAULT_LEVEL : LogLevel := WARN.

Definition log_enabled (level l : LogLevel) : bool := level_value level <=? level_value l.

Definition log_prefix (l : LogLevel) : string :=
  match l with DEBUG => "[DEBUG] " | INFO => "[INFO] " | WARN => "[WARN] " | ERROR => "[ERROR] " end.

(** What [Log::emit] writes to standard error. *)
Definition log_emit (level l : LogLevel) (msg : string) : string :=
  if log_enabled level l then endl (log_prefix l +:+ msg) else EmptyString.

(** [~CPUMockEngine] *)
Definition shutdown (level : LogLevel) (ps : PointStore) : string :=
  (if 0 <? store_overflows_ ps
   then log_emit level ERROR (to_string (store_overflows_ ps) +:+ " point-op writes dropped — KVStore full (Inc 3 adds SSD spill).")
   else EmptyString) +:+ endl "CPUMockEngine shutdown cleanly.".

(** ** [main] of the shell *)

Section entry.
Variable strtod : string → option (Z * nat).
Variable strtod_value : string → Z.
Variable show_double : Z → string.
Variable mem : Z.
Context `{!HashOrder Z, !HashOrder string} {psort : PartialSort}.

Definition repl (clock : nat → Clock) (text : string) (sh : Shell) : outcome (string * Shell) :=
  matrix_repl strtod strtod_value show_double mem (imap (λ k l, (l, clock k)) (getlines text)) sh.

(** What the process leaves: its exit code, what it wrote, and the shell. *)
Record Session := mkSession { ss_code : Z; ss_out : string; ss_err : string; ss_shell : Shell }.

Definition run_shell (clock : nat → Clock) (text : string) (sh : Shell) : outcome Session :=
  '(out, sh) ← repl clock text sh; Ret (mkSession 0 out EmptyString sh).

(** [-c line] and [-f script], and standard input otherwise. *)
Definition matrixdb_main (argv : list string) (clock : nat → Clock) (stdin : string) (sh : Shell) : outcome Session :=
  match argv with
  | _ :: arg1 :: arg2 :: _ =>
      if String.eqb arg1 "-c" then run_shell clock (arg2 +:+ one_char NL) sh
      else if String.eqb arg1 "-f" then
        match fs_read (e_fs (sh_engine sh)) arg2 with
        | Some b => run_shell clock (text_of b) sh
        | None => Ret (mkSession 1 EmptyString (endl ("matrixdb: cannot open " +:+ arg2)) sh)
        end
      else run_shell clock stdin sh
  | _ => run_shell clock stdin sh
  end.

(** ** Theorems *)

(** A line given with [-c], the same line in a script, and the same line piped
    in are one session: the same output, the same shell, exit code 0. *)
Theorem entry_points_agree prog line script stdin clock sh :
  fs_read (e_fs (sh_engine sh)) script = Some (bytes_of_text (line +:+ one_char NL)) →
  let piped := matrixdb_main [prog] clock (line +:+ one_char NL) sh in
  matrixdb_main [prog; "-c"; line] clock stdin sh = piped ∧
  matrixdb_main [prog; "-f"; script] clock stdin sh = piped ∧
  match piped with Ret s => ss_code s = 0 ∧ ss_err s = EmptyString | Crash _ => True end.
Proof.
  intros Hf. cbn [matrixdb_main String.eqb Ascii.eqb Bool.eqb]. rewrite Hf, text_of_bytes. split; [done|]. split; [done|].
  unfold run_shell. destruct (repl clock (line +:+ one_char NL) sh) as [[out sh']|]; [|done]. by split.
Qed.

End entry.

(** A message that passes a threshold passes every lower one. *)
Theorem log_filter_monotone level lower l :
  log_enabled level l = true → level_value lower <= level_value level → log_enabled lower l = true.
Proof. unfold log_enabled. rewrite !Z.leb_le. lia. Qed.

(** Dropped writes are never silent: whatever the threshold, an engine that
    dropped one says so when it goes. *)
Theorem dropped_writes_are_logged level ps :
  0 < store_overflows_ ps →
  shutdown level ps = endl ("[ERROR] " +:+ (to_string (store_overflows_ ps) +:+
    " point-op writes dropped — KVStore full (Inc 3 adds SSD spill).")) +:+ endl "CPUMockEngine shutdown cleanly.".
Proof. intros H. unfold shutdown. rewrite (proj2 (Z.ltb_lt _ _) H). by destruct level. Qed.

(** Without dropped writes nothing is said. *)
Example quiet_shutdown level ps : store_overflows_ ps = 0 → shutdown level ps = endl "CPUMockEngine shutdown cleanly.".
Proof. unfold shutdown. by intros ->. Qed.
