(* ===== verification/GpuModel.v ===== *)
(** * GpuModel: how a CUDA grid runs the reduction kernels of [compute_cuda.cuh]

    Every scalar kernel has one shape: thread 0 of a block sets a shared cell,
    all threads of the block meet at a barrier, each thread strides over the
    rows with a local accumulator, merges it into the cell with an atomic,
    meets the others at a second barrier, and thread 0 merges the cell into
    the result with an atomic.  A [Kernel] gives what differs from kernel to
    kernel; [grid_step] lets any thread that is not held by a barrier make its
    next access, so a run is any interleaving of all threads of all blocks.

    For a kernel whose atomics form a commutative monoid ([Reduces]) every run
    ends after a bounded number of steps, no run is stuck at a barrier, and
    every run that ends leaves the same result ([launch_correct]). *)

From stdpp Require Export relations.
From S2P Require Export Reducers.

(** ** Big operators over a commutative operation *)

Section big.
Context (mop : Z → Z → Z) (e : Z).

Definition big {A} (f : A → Z) (l : list A) : Z := foldr (λ x acc, mop (f x) acc) e l.

Lemma big_cons {A} (f : A → Z) x l : big f (x :: l) = mop (f x) (big f l).
Proof. done. Qed.

Context `{!Assoc (=) mop, !Comm (=) mop} (Hidem : mop e e = e).

Lemma big_unit {A} (f : A → Z) l : mop e (big f l) = big f l.
Proof using All.
  induction l as [|x l IH]; [done|]. rewrite big_cons.
  by rewrite (assoc_L mop), (comm_L mop e), <- (assoc_L mop), IH.
Qed.

Lemma big_app {A} (f : A → Z) l1 l2 : big f (l1 ++ l2) = mop (big f l1) (big f l2).
Proof using All.
  induction l1 as [|x l1 IH]; cbn [app]; [by rewrite big_unit|].
  rewrite !big_cons. by rewrite IH, (assoc_L mop).
Qed.

Lemma big_perm {A} (f : A → Z) l1 l2 : l1 ≡ₚ l2 → big f l1 = big f l2.
Proof using All.
  unfold big. induction 1 as [|x ?? _ IH|x y l|??? _ IH1 _ IH2]; cbn; [done|by rewrite IH| |congruence].
  by rewrite !(assoc_L mop), (comm_L mop (f x)).
Qed.

Lemma big_concat {A} (f : A → Z) ls : big f (concat ls) = big (big f) ls.
Proof using All. induction ls as [|l ls IH]; [done|]. cbn [concat]. by rewrite big_app, IH. Qed.

Lemma big_map {A B} (f : B → Z) (g : A → B) l : big f (map g l) = big (λ x, f (g x)) l.
Proof. induction l as [|x l IH]; [done|]. cbn [map]. by rewrite !big_cons, IH. Qed.

Lemma big_ext {A} (f g : A → Z) l : (∀ x, x ∈ l → f x = g x) → big f l = big g l.
Proof.
  induction l as [|x l IH]; intros H; [done|]. rewrite !big_cons.
  rewrite IH by (intros; apply H; by right). by rewrite H by left.
Qed.

Lemma big_delete {A} (f : A → Z) l i x : l !! i = Some x → big f l = mop (f x) (big f (delete i l)).
Proof using All. intros H. by rewrite (big_perm f l (x :: delete i l)) by (by apply delete_Permutation). Qed.

Lemma insert_perm {A} (l : list A) i x y : l !! i = Some x → <[i := y]> l ≡ₚ y :: delete i l.
Proof.
  intros H. rewrite <- (take_drop_middle l i x H) at 1.
  assert (length (take i l) = i) as Hi by (apply lookup_lt_Some in H; rewrite length_take; lia).
  rewrite insert_app_r_alt by lia. rewrite Hi, Nat.sub_diag. cbn.
  rewrite delete_take_drop. symmetry. apply Permutation_middle.
Qed.

Lemma big_insert {A} (f : A → Z) l i x y : l !! i = Some x →
  big f (<[i := y]> l) = mop (f y) (big f (delete i l)).
Proof using All. intros H. by rewrite (big_perm f _ _ (insert_perm l i x y H)). Qed.

(** What a predicate drops may as well contribute the unit. *)
Lemma big_filter {A} (keep : A → bool) (f : A → Z) l :
  big (λ x, if keep x then f x else e) l = big f (List.filter keep l).
Proof using All.
  induction l as [|x l IH]; [done|]. rewrite big_cons, IH. cbn [List.filter].
  destruct (keep x); [done|]. apply big_unit.
Qed.

Lemma big_all_unit {A} (f : A → Z) l : (∀ x, x ∈ l → f x = e) → big f l = e.
Proof using All.
  induction l as [|x l IH]; intros H; [done|]. rewrite big_cons.
  rewrite IH by (intros; apply H; by right). by rewrite H by left.
Qed.

(** Moving part of one summand into another changes nothing. *)
Lemma swap_l a b c : mop a (mop b c) = mop b (mop a c).
Proof using All. by rewrite !(assoc_L mop), (comm_L mop a). Qed.
End big.

(** ** Strided rows

    The rows a loop [for (i = start; i < bound; i += step)] visits. *)

Definition rows_from (step bound i : nat) : list nat :=
  List.filter (λ j, (i <=? j)%nat && ((j - i) mod step =? 0)%nat) (seq 0 bound).

Lemma elem_of_rows step bound i j :
  j ∈ rows_from step bound i ↔ (i ≤ j < bound ∧ (j - i) mod step = 0)%nat.
Proof.
  unfold rows_from. rewrite list_elem_of_In, filter_In, in_seq, andb_true_iff, Nat.leb_le, Nat.eqb_eq. lia.
Qed.

Lemma rows_nodup step bound i : NoDup (rows_from step bound i).
Proof. apply NoDup_ListNoDup, List.NoDup_filter, seq_NoDup. Qed.

Lemma rows_end step bound i : (bound ≤ i)%nat → rows_from step bound i = [].
Proof.
  intros H. apply elem_of_nil_inv. intros j Hj. apply elem_of_rows in Hj. lia.
Qed.

Lemma rows_next step bound i : (0 < step)%nat → (i < bound)%nat →
  rows_from step bound i ≡ₚ i :: rows_from step bound (i + step).
Proof.
  intros Hs Hi. apply NoDup_Permutation; [apply rows_nodup|apply NoDup_cons; split; [|apply rows_nodup]|].
  { rewrite elem_of_rows. lia. }
  intros j. rewrite elem_of_cons, !elem_of_rows. split.
  - intros [Hj Hm]. destruct (decide (j = i)) as [|Hne]; [by left|right].
    apply Nat.Div0.mod_divides in Hm as [q Hq]; destruct q as [|q]; [lia|].
    split; [nia|]. replace (j - (i + step))%nat with (q * step)%nat by lia. apply Nat.Div0.mod_mul.
  - intros [->|[Hj Hm]]; [by rewrite Nat.sub_diag, Nat.Div0.mod_0_l|]. split; [lia|].
    replace (j - i)%nat with (j - (i + step) + 1 * step)%nat by lia. by rewrite Nat.Div0.mod_add.
Qed.

Lemma concat_map_perm {A B} (f g : A → list B) l : (∀ x, x ∈ l → f x ≡ₚ g x) →
  concat (map f l) ≡ₚ concat (map g l).
Proof.
  induction l as [|x l IH]; intros H; [done|]. cbn. rewrite (H x) by left. rewrite IH; [done|].
  intros; apply H; by right.
Qed.

Lemma elem_of_rows_residue step bound s j : (s < step)%nat →
  j ∈ rows_from step bound s ↔ (j < bound)%nat ∧ (j mod step = s)%nat.
Proof.
  intros Hs. rewrite elem_of_rows. split.
  - intros [Hj Hm]. split; [lia|]. apply Nat.Div0.mod_divides in Hm as [q Hq].
    replace j with (s + q * step)%nat by lia. rewrite Nat.Div0.mod_add. by apply Nat.mod_small.
  - intros [Hj <-]. pose proof (Nat.div_mod_eq j step) as Hd. split; [lia|].
    replace (j - j mod step)%nat with (j / step * step)%nat by lia. apply Nat.Div0.mod_mul.
Qed.

(** The rows from a start below the step are the bucket of its residue. *)
Lemma rows_bucket step bound s l : (s < step)%nat → NoDup l → (∀ j, j ∈ l → (j < bound)%nat) →
  (∀ j, (j < bound)%nat → (j mod step = s)%nat → j ∈ l) →
  rows_from step bound s ≡ₚ List.filter (λ j, (j mod step =? s)%nat) l.
Proof.
  intros Hs Hl H1 H2. apply NoDup_Permutation; [apply rows_nodup|by apply NoDup_ListNoDup, List.NoDup_filter, NoDup_ListNoDup|].
  intros j. rewrite elem_of_rows_residue, (list_elem_of_In (List.filter _ _)), filter_In, Nat.eqb_eq by done.
  rewrite <- list_elem_of_In. naive_solver.
Qed.

(** A grid of [stride] threads visits every row exactly once. *)
Lemma grid_covers stride bound : (0 < stride)%nat →
  concat (map (rows_from stride bound) (seq 0 stride)) ≡ₚ seq 0 bound.
Proof.
  intros Hs. etrans; [apply concat_map_perm|apply (buckets_perm (λ j, j mod stride)%nat (seq 0 stride) (seq 0 bound))].
  - intros s Hsi. apply elem_of_seq in Hsi.
    apply rows_bucket; [lia|apply NoDup_seq|intros j; rewrite elem_of_seq; lia..].
  - apply NoDup_seq.
  - intros j _. apply elem_of_seq. pose proof (Nat.mod_upper_bound j stride). lia.
Qed.

(** The rows of one turn of a striped loop: [items] rows, [stride] apart. *)
Definition striped (items stride n base : nat) : list nat :=
  List.filter (λ r, (r <? n)%nat) (map (λ k, base + k * stride)%nat (seq 0 items)).

Lemma mod_below a b s q : (s < b)%nat → a = (s + q * b)%nat → (a mod b = s ∧ a / b = q)%nat.
Proof.
  intros Hs ->. rewrite Nat.Div0.mod_add, Nat.div_add, Nat.mod_small, Nat.div_small by lia. lia.
Qed.

(** The first row of the turn that visits row [r]. *)
Definition turn_of (items stride r : nat) : nat := (r mod stride + (r / (stride * items)) * (stride * items))%nat.

Lemma elem_of_striped items stride n base r :
  (0 < stride)%nat → (0 < items)%nat → (base mod (stride * items) < stride)%nat →
  r ∈ striped items stride n base ↔ (r < n)%nat ∧ turn_of items stride r = base.
Proof.
  intros Hs Hi Hb. unfold striped, turn_of. rewrite list_elem_of_In, filter_In, Nat.ltb_lt, in_map_iff.
  pose proof (Nat.div_mod_eq base (stride * items)) as Hbase.
  set (chunk := (stride * items)%nat) in *. set (s := (base mod chunk)%nat) in *. set (q := (base / chunk)%nat) in *.
  assert (0 < chunk)%nat by (unfold chunk; nia). split.
  - intros [(k & <- & Hk) Hr]. apply in_seq in Hk. split; [done|].
    assert (k * stride + stride ≤ chunk)%nat by (unfold chunk; nia).
    destruct (mod_below (base + k * stride) chunk (s + k * stride) q ltac:(lia) ltac:(lia)) as [_ ->].
    destruct (mod_below (base + k * stride) stride s (items * q + k) Hb) as [-> _]; [unfold chunk in *; nia|lia].
  - intros [Hr Ht]. split; [|done]. pose proof (Nat.div_mod_eq r chunk) as Hrr.
    pose proof (Nat.mod_upper_bound r chunk ltac:(lia)) as Hm.
    pose proof (Nat.div_mod_eq (r mod chunk) stride) as Hk.
    pose proof (Nat.mod_upper_bound (r mod chunk) stride ltac:(lia)) as Hj.
    exists ((r mod chunk) / stride)%nat. rewrite in_seq.
    assert (r mod stride = (r mod chunk) mod stride)%nat as Hmod.
    { apply (mod_below r stride _ (items * (r / chunk) + (r mod chunk) / stride)); [done|]. unfold chunk in *. nia. }
    split; [rewrite <- Ht, Hmod; lia|]. split; [lia|]. cbn. apply Nat.Div0.div_lt_upper_bound. unfold chunk in *. lia.
Qed.

(** The striped loops of a grid of [stride] threads visit every row exactly once. *)
Lemma striped_covers items stride n : (0 < stride)%nat → (0 < items)%nat →
  concat (map (striped items stride n) (concat (map (rows_from (stride * items) n) (seq 0 stride)))) ≡ₚ seq 0 n.
Proof.
  intros Hs Hi. set (chunk := (stride * items)%nat). assert (stride ≤ chunk)%nat by (unfold chunk; nia).
  set (L := List.filter (λ j, (j mod chunk <? stride)%nat) (seq 0 n)).
  assert (∀ j, j ∈ L ↔ (j < n)%nat ∧ (j mod chunk < stride)%nat) as HL.
  { intros j. unfold L. rewrite list_elem_of_In, filter_In, in_seq, Nat.ltb_lt. lia. }
  assert (NoDup L) as Hnd by (apply NoDup_ListNoDup, List.NoDup_filter, seq_NoDup).
  assert (∀ j, j ∈ L → turn_of items stride j = j) as Hself.
  { intros j Hj. apply HL in Hj as [Hj Hm]. apply (elem_of_striped items stride n j j Hs Hi Hm).
    unfold striped. rewrite list_elem_of_In, filter_In, in_map_iff, Nat.ltb_lt. split; [|done].
    exists 0%nat. rewrite in_seq. lia. }
  assert (concat (map (rows_from chunk n) (seq 0 stride)) ≡ₚ L) as Hbases.
  { etrans; [apply concat_map_perm|apply (buckets_perm (λ j, j mod chunk)%nat (seq 0 stride) L)].
    - intros s Hsi. apply elem_of_seq in Hsi. apply rows_bucket; [lia|done|intros j; rewrite HL; lia..].
    - apply NoDup_seq.
    - intros j Hj. apply HL in Hj. apply elem_of_seq. lia. }
  rewrite (Permutation_map _ Hbases).
  etrans; [apply concat_map_perm|apply (buckets_perm (turn_of items stride) L (seq 0 n) Hnd)].
  - intros b Hb. apply HL in Hb as [Hb Hm]. apply NoDup_Permutation.
    + unfold striped. apply NoDup_ListNoDup, List.NoDup_filter, NoDup_ListNoDup, (NoDup_fmap_2_strong _ _);
        [intros x y _ _ Hxy; nia|apply NoDup_seq].
    + apply NoDup_ListNoDup, List.NoDup_filter, seq_NoDup.
    + intros r. rewrite elem_of_striped by done. rewrite list_elem_of_In, filter_In, in_seq, Nat.eqb_eq. lia.
  - intros r Hr. apply elem_of_seq in Hr. apply HL. unfold turn_of. fold chunk.
    pose proof (Nat.mod_upper_bound r stride ltac:(lia)). pose proof (Nat.div_mod_eq r chunk).
    destruct (mod_below (r mod stride + r / chunk * chunk) chunk (r mod stride) (r / chunk)) as [-> _]; [lia|done|].
    split; [|lia]. assert (r mod stride ≤ r mod chunk)%nat; [|lia].
    unfold chunk. rewrite Nat.Div0.mod_mul_r. lia.
Qed.

(** ** A kernel, its threads and a grid

    [k_body stride i local] is the body of
    [for (i = blockIdx.x * blockDim.x + threadIdx.x; i < bound; i += step)];
    [stride] is [gridDim.x * blockDim.x].  [k_merge] is the atomic that merges
    a local accumulator into the block's cell and the cell into the result. *)

Record Kernel := mkKernel {
  k_blk : Z;                              (* what thread 0 stores in the shared cell *)
  k_local : Z;                            (* what the local accumulator starts with *)
  k_bound : nat;
  k_step : nat → nat;                     (* the increment, from the stride *)
  k_body : nat → nat → Z → outcome Z;
  k_merge : Z → Z → Z
}.

(** Where a thread is, with its global index until the loop begins. *)
Inductive Pc :=
  | Entering (i : nat)                    (* before the shared cell is set *)
  | Waiting (i : nat)                     (* at the first barrier *)
  | Looping (i : nat) (local : Z)
  | Merged                                (* at the second barrier *)
  | Leaving
  | Exited.

Record Block := mkBlock { shared : option Z; threads : list Pc }.
Record Grid := mkGrid { g_out : Z; g_blocks : list Block }.

Definition past_entry (p : Pc) : bool := match p with Entering _ => false | _ => true end.
Definition past_merge (p : Pc) : bool := match p with Merged | Leaving | Exited => true | _ => false end.

Definition fresh_grid (blocks tpb : nat) (out : Z) : Grid :=
  mkGrid out (map (λ b, mkBlock None (map Entering (seq (b * tpb) tpb))) (seq 0 blocks)).

Definition exited (g : Grid) : Prop :=
  Forall (λ b, Forall (λ p, p = Exited) (threads b)) (g_blocks g).

(** Thread [t] of a block makes its next access; [None] when a barrier holds
    it, when it has exited, and when it would read outside an array. *)
Definition thread_step (k : Kernel) (stride t : nat) (o : Z) (blk : Block) : option (Z * Block) :=
  p ← threads blk !! t;
  let go (s : option Z) (p' : Pc) := mkBlock s (<[t := p']> (threads blk)) in
  match p with
  | Entering i => Some (o, go (if (t =? 0)%nat then Some (k_blk k) else shared blk) (Waiting i))
  | Waiting i =>
      if forallb past_entry (threads blk) then Some (o, go (shared blk) (Looping i (k_local k))) else None
  | Looping i l =>
      if (i <? k_bound k)%nat then
        match k_body k stride i l with
        | Ret l' => Some (o, go (shared blk) (Looping (i + k_step k stride) l'))
        | Crash _ => None
        end
      else s ← shared blk; Some (o, go (Some (k_merge k s l)) Merged)
  | Merged => if forallb past_merge (threads blk) then Some (o, go (shared blk) Leaving) else None
  | Leaving =>
      if (t =? 0)%nat then s ← shared blk; Some (k_merge k o s, go (shared blk) Exited)
      else Some (o, go (shared blk) Exited)
  | Exited => None
  end.

Inductive grid_step (k : Kernel) (stride : nat) : Grid → Grid → Prop :=
  | GridStep b t blk blk' o' g :
      g_blocks g !! b = Some blk → thread_step k stride t (g_out g) blk = Some (o', blk') →
      grid_step k stride g (mkGrid o' (<[b := blk']> (g_blocks g))).

(** [kernel<<<blocks, tpb>>>(..., out)] with [out] the value it points to: some
    interleaving runs every thread to its end and leaves [out']. *)
Definition launch (k : Kernel) (blocks tpb : nat) (out out' : Z) : Prop :=
  ∃ g, rtc (grid_step k (blocks * tpb)) (fresh_grid blocks tpb out) g ∧ exited g ∧ g_out g = out'.

(** ** Kernels that reduce

    [abs] maps the contents of the cells to a commutative monoid in which the
    atomics are the operation; [c i] is what the body adds at loop index [i],
    [lok i l] says that [l] is an accumulator a thread may hold at [i]. *)

Class Reduces (k : Kernel) (stride : nat) (mop : Z → Z → Z) (e : Z) (abs : Z → Z)
      (dom : Z → Prop) (lok : nat → Z → Prop) (c : nat → Z) : Prop := {
  red_assoc :: Assoc (=) mop;
  red_comm :: Comm (=) mop;
  red_idem : mop e e = e;
  red_step : (0 < k_step k stride)%nat;
  red_blk : dom (k_blk k) ∧ abs (k_blk k) = e;
  red_local : abs (k_local k) = e ∧ ∀ i, (i < stride)%nat → lok i (k_local k);
  red_body i l : lok i l → (i < k_bound k)%nat →
    ∃ l', k_body k stride i l = Ret l' ∧ lok (i + k_step k stride)%nat l' ∧ abs l' = mop (abs l) (c i);
  red_merge s i l : dom s → lok i l → dom (k_merge k s l) ∧ abs (k_merge k s l) = mop (abs s) (abs l);
  red_flush o s : dom o → dom s → dom (k_merge k o s) ∧ abs (k_merge k o s) = mop (abs o) (abs s)
}.

Section reduces.
Context {k : Kernel} {stride : nat} {mop : Z → Z → Z} {e : Z} {abs : Z → Z}.
Context {dom : Z → Prop} {lok : nat → Z → Prop} {c : nat → Z}.
Context `{R : !Reduces k stride mop e abs dom lok c}.

Let idem : mop e e = e := @red_idem _ _ _ _ _ _ _ _ R.
Let step := k_step k stride.
Let bound := k_bound k.

(** What the thread, the block has still to contribute to the result. *)
Definition pend (p : Pc) : Z :=
  match p with
  | Entering i | Waiting i => big mop e c (rows_from step bound i)
  | Looping i l => mop (abs l) (big mop e c (rows_from step bound i))
  | _ => e
  end.

Definition block_pend (b : Block) : Z :=
  match threads b !! 0%nat with
  | Some Exited => e
  | _ => mop (default e (abs <$> shared b)) (big mop e pend (threads b))
  end.

Definition grid_total (g : Grid) : Z := mop (abs (g_out g)) (big mop e block_pend (g_blocks g)).

(** How many steps a thread has still to make. *)
Definition todo (p : Pc) : nat :=
  match p with
  | Entering i => 5 + length (rows_from step bound i)
  | Waiting i => 4 + length (rows_from step bound i)
  | Looping i _ => 3 + length (rows_from step bound i)
  | Merged => 2
  | Leaving => 1
  | Exited => 0
  end.

Definition block_todo (b : Block) : nat := total todo (threads b).
Definition grid_todo (g : Grid) : nat := total block_todo (g_blocks g).

Definition pc_ok (p : Pc) : Prop :=
  match p with
  | Entering i | Waiting i => lok i (k_local k)
  | Looping i l => lok i l
  | _ => True
  end.

Definition entering (p : Pc) : bool := negb (past_entry p).
Definition in_body (p : Pc) : bool := match p with Entering _ | Waiting _ => false | _ => true end.
Definition leaving (p : Pc) : bool := match p with Leaving | Exited => true | _ => false end.

Record block_ok (b : Block) : Prop := {
  bo_pcs : Forall pc_ok (threads b);
  bo_shared : ∃ p, threads b !! 0%nat = Some p ∧
    if past_entry p then ∃ s, shared b = Some s ∧ dom s else shared b = None;
  bo_barrier1 t p : threads b !! t = Some p → in_body p = true → Forall (λ p, past_entry p = true) (threads b);
  bo_barrier2 t p : threads b !! t = Some p → leaving p = true → Forall (λ p, past_merge p = true) (threads b)
}.

Definition grid_ok (g : Grid) : Prop := dom (g_out g) ∧ Forall block_ok (g_blocks g).

Lemma pcs_update (P : Pc → bool) (ts : list Pc) t p' :
  Forall (λ p, P p = true) ts → P p' = true → Forall (λ p, P p = true) (<[t := p']> ts).
Proof using Type. intros H ?. by apply Forall_insert. Qed.

Lemma all_pcs (P : Pc → bool) (ts : list Pc) : forallb P ts = true → Forall (λ p, P p = true) ts.
Proof using Type. intros H. apply List.Forall_forall. by apply forallb_forall. Qed.

(** Replacing a thread's position: the block's other facts carry over. *)
Lemma set_pc_ok b t p p' s' :
  block_ok b → threads b !! t = Some p → pc_ok p' → past_entry p' = true →
  (s' = shared b ∧ (t = 0%nat → past_entry p = true)) ∨
    (∃ s, s' = Some s ∧ dom s ∧ (t = 0%nat ∨ Forall (λ q, past_entry q = true) (threads b))) →
  (in_body p' = true → in_body p = true ∨ Forall (λ q, past_entry q = true) (threads b)) →
  (past_merge p = true → past_merge p' = true) →
  (leaving p' = true → leaving p = true ∨ Forall (λ q, past_merge q = true) (threads b)) →
  block_ok (mkBlock s' (<[t := p']> (threads b))).
Proof using Type.
  intros [Hp (p0 & H0 & Hs) H1 H2] Ht Hok He' Hs' Hbody Hmm Hleave.
  assert (∀ u q, <[t := p']> (threads b) !! u = Some q → q = p' ∨ threads b !! u = Some q) as Hex.
  { intros u q [(_ & <- & _)|[_ Hi]]%list_lookup_insert_Some; auto. }
  split; cbn [threads shared].
  - by apply Forall_insert.
  - destruct (decide (t = 0%nat)) as [->|Hne].
    + exists p'. rewrite list_lookup_insert_eq by (by eapply lookup_lt_Some). split; [done|]. rewrite He'.
      destruct Hs' as [[-> Hpe]|(s & -> & Hd & _)]; [|eauto].
      assert (p0 = p) as -> by congruence. by rewrite Hpe in Hs.
    + exists p0. rewrite list_lookup_insert_ne by done. split; [done|].
      destruct Hs' as [[-> _]|(s & -> & Hd & [|HF])]; [done|done|].
      rewrite (Forall_lookup_1 _ _ _ _ HF H0). eauto.
  - intros u q [->|Hu]%Hex Hq; apply pcs_update; try done; [destruct (Hbody Hq)|]; eauto.
  - intros u q Hu Hq. assert (Forall (λ q, past_merge q = true) (threads b)) as HF.
    { apply Hex in Hu as [->|Hu]; [destruct (Hleave Hq)|]; eauto. }
    apply pcs_update; [done|]. apply Hmm. by apply (Forall_lookup_1 _ _ _ _ HF Ht).
Qed.

Lemma pend_move b t p p' s' :
  threads b !! t = Some p → p ≠ Exited → (p' ≠ Exited ∨ t ≠ 0%nat) →
  mop (default e (abs <$> s')) (pend p') = mop (default e (abs <$> shared b)) (pend p) →
  block_pend (mkBlock s' (<[t := p']> (threads b))) = block_pend b.
Proof using R.
  intros Ht Hp Hp' Heq. pose proof idem as Hi.
  assert (mop (default e (abs <$> s')) (big mop e pend (<[t := p']> (threads b)))
          = mop (default e (abs <$> shared b)) (big mop e pend (threads b))) as Hsame.
  { rewrite (big_insert mop e Hi pend _ _ _ _ Ht), (big_delete mop e Hi pend _ _ _ Ht).
    by rewrite !(assoc_L mop), Heq. }
  unfold block_pend. cbn [threads shared]. destruct (decide (t = 0%nat)) as [->|Hne].
  - rewrite list_lookup_insert_eq, Ht by (by eapply lookup_lt_Some).
    destruct p', p; done || (by destruct Hp') || idtac; exact Hsame.
  - rewrite list_lookup_insert_ne by done. destruct (threads b !! 0%nat) as [[]|]; done.
Qed.

Lemma todo_move b t p p' s' :
  threads b !! t = Some p → S (todo p') = todo p →
  S (block_todo (mkBlock s' (<[t := p']> (threads b)))) = block_todo b.
Proof using Type.
  intros Ht Hp. unfold block_todo. cbn [threads].
  pose proof (total_update todo (threads b) p' t p Ht). lia.
Qed.

Lemma rows_todo i : (i < bound)%nat →
  length (rows_from step bound i) = S (length (rows_from step bound (i + step))).
Proof using R. intros Hi. by rewrite (Permutation_length (rows_next step bound i red_step Hi)). Qed.

Lemma rows_pend i : (i < bound)%nat →
  big mop e c (rows_from step bound i) = mop (c i) (big mop e c (rows_from step bound (i + step))).
Proof using R. intros Hi. by rewrite (big_perm mop e idem c _ _ (rows_next step bound i red_step Hi)). Qed.

(** What a step keeps: the invariant of the block, what the block and the
    result amount to together, and the count of steps to go. *)
Definition step_keeps (o : Z) (b : Block) (o' : Z) (b' : Block) : Prop :=
  block_ok b' ∧ dom o' ∧ mop (abs o') (block_pend b') = mop (abs o) (block_pend b) ∧
  S (block_todo b') = block_todo b.

(** The block after a thread has moved satisfies the invariant; the cell is as it was. *)
Ltac same_cell Ht :=
  eapply set_pc_ok; [eassumption|exact Ht|first [eassumption|exact I]|reflexivity|left; by split|..];
  cbn; auto.

Lemma enter_keeps b t i o : block_ok b → dom o → threads b !! t = Some (Entering i) →
  step_keeps o b o (mkBlock (if (t =? 0)%nat then Some (k_blk k) else shared b) (<[t := Waiting i]> (threads b))).
Proof using R.
  intros Hb Ho Ht. pose proof Hb as [Hp (p0 & H0 & Hs) _ _]. destruct red_blk as [Hd He].
  pose proof (Forall_lookup_1 _ _ _ _ Hp Ht) as Hok. unfold step_keeps; split_and!; [|done| |by eapply todo_move].
  - eapply set_pc_ok; try done.
    destruct (Nat.eqb_spec t 0) as [->|]; [right; eauto|by left].
  - f_equal. eapply pend_move; [done..|by left|]. cbn [pend]. f_equal.
    destruct (Nat.eqb_spec t 0) as [->|]; [|done]. assert (p0 = Entering i) as -> by congruence.
    cbn in Hs. by rewrite Hs.
Qed.

Lemma pass_keeps b t i o : block_ok b → dom o → threads b !! t = Some (Waiting i) →
  Forall (λ p, past_entry p = true) (threads b) →
  step_keeps o b o (mkBlock (shared b) (<[t := Looping i (k_local k)]> (threads b))).
Proof using R.
  intros Hb Ho Ht Hall. pose proof (Forall_lookup_1 _ _ _ _ (bo_pcs _ Hb) Ht) as Hok.
  destruct red_local as [He _]. unfold step_keeps; split_and!; [|done| |by eapply todo_move].
  - same_cell Ht.
  - f_equal. eapply pend_move; [done..|by left|]. cbn [pend]. rewrite He. f_equal. apply (big_unit mop e idem).
Qed.

Lemma body_keeps b t i l l' o : block_ok b → dom o → threads b !! t = Some (Looping i l) →
  (i < bound)%nat → k_body k stride i l = Ret l' →
  step_keeps o b o (mkBlock (shared b) (<[t := Looping (i + step) l']> (threads b))).
Proof using R.
  intros Hb Ho Ht Hi Hl. pose proof (Forall_lookup_1 _ _ _ _ (bo_pcs _ Hb) Ht) as Hok.
  destruct (red_body i l Hok Hi) as (l1 & Hl1 & Hok' & Ha). assert (l1 = l') as -> by congruence.
  unfold step_keeps; split_and!; [|done| |].
  - same_cell Ht.
  - f_equal. eapply pend_move; [done..|by left|]. cbn [pend].
    rewrite (rows_pend i Hi), Ha. by rewrite (assoc_L mop (abs l)).
  - eapply todo_move; [done|]. cbn [todo]. by rewrite (rows_todo i Hi).
Qed.

Lemma merge_keeps b t i l s o : block_ok b → dom o → threads b !! t = Some (Looping i l) →
  (bound ≤ i)%nat → shared b = Some s →
  step_keeps o b o (mkBlock (Some (k_merge k s l)) (<[t := Merged]> (threads b))).
Proof using R.
  intros Hb Ho Ht Hi Hs. pose proof (Forall_lookup_1 _ _ _ _ (bo_pcs _ Hb) Ht) as Hok.
  pose proof (bo_barrier1 _ Hb t _ Ht eq_refl) as Hall.
  destruct (bo_shared _ Hb) as (p0 & H0 & Hs0). rewrite (Forall_lookup_1 _ _ _ _ Hall H0) in Hs0.
  destruct Hs0 as (s0 & Hs0 & Hd). assert (s0 = s) as -> by congruence.
  destruct (red_merge s i l Hd Hok) as [Hd' Ha]. unfold step_keeps; split_and!; [|done| |].
  - eapply set_pc_ok; [done|exact Ht|exact I|done|right; eauto|..]; cbn; auto.
  - f_equal. eapply pend_move; [done..|by left|]. rewrite Hs. cbn [pend fmap option_fmap option_map default].
    rewrite rows_end, Ha by done. cbn. by rewrite (assoc_L mop).
  - eapply todo_move; [done|]. cbn [todo]. by rewrite rows_end.
Qed.

Lemma leave_keeps b t o : block_ok b → dom o → threads b !! t = Some Merged →
  Forall (λ p, past_merge p = true) (threads b) →
  step_keeps o b o (mkBlock (shared b) (<[t := Leaving]> (threads b))).
Proof using R.
  intros Hb Ho Ht Hall. unfold step_keeps; split_and!; [|done| |by eapply todo_move].
  - same_cell Ht.
  - f_equal. eapply pend_move; [done..|by left|done].
Qed.

Lemma exit_keeps b t o : block_ok b → dom o → threads b !! t = Some Leaving → t ≠ 0%nat →
  step_keeps o b o (mkBlock (shared b) (<[t := Exited]> (threads b))).
Proof using R.
  intros Hb Ho Ht Hne. unfold step_keeps; split_and!; [|done| |by eapply todo_move].
  - same_cell Ht.
  - f_equal. eapply pend_move; [done..|by right|done].
Qed.

Lemma flush_keeps b s o : block_ok b → dom o → threads b !! 0%nat = Some Leaving → shared b = Some s →
  step_keeps o b (k_merge k o s) (mkBlock (shared b) (<[0%nat := Exited]> (threads b))).
Proof using R.
  intros Hb Ho Ht Hs. pose proof (bo_barrier2 _ Hb _ _ Ht eq_refl) as Hall.
  destruct (bo_shared _ Hb) as (p0 & H0 & Hs0). assert (p0 = Leaving) as -> by congruence. cbn in Hs0.
  destruct Hs0 as (s0 & Hs0 & Hd). assert (s0 = s) as -> by congruence.
  destruct (red_flush o s Ho Hd) as [Hd' Ha]. unfold step_keeps; split_and!; [|done| |by eapply todo_move].
  - same_cell Ht.
  - unfold block_pend. cbn [threads shared].
    rewrite list_lookup_insert_eq, Ht, Hs, Ha by (by eapply lookup_lt_Some). cbn.
    rewrite (big_all_unit mop e), (assoc_L mop); [done|exact idem|].
    intros p Hp. rewrite Forall_forall in Hall. specialize (Hall p Hp). by destruct p.
Qed.

Lemma thread_step_keeps t o b o' b' :
  block_ok b → dom o → thread_step k stride t o b = Some (o', b') → step_keeps o b o' b'.
Proof using R.
  intros Hb Ho H. unfold thread_step in H. destruct (threads b !! t) as [p|] eqn:Ht; [|done].
  cbn [mbind option_bind] in H. destruct p as [i|i|i l| | |]; [| | | | |done].
  - simplify_eq. by apply enter_keeps.
  - destruct (forallb _ _) eqn:E; [|done]. simplify_eq. by apply pass_keeps, all_pcs.
  - destruct (Nat.ltb_spec i (k_bound k)) as [Hi|Hi].
    + destruct (k_body k stride i l) as [l'|] eqn:El; [|done]. simplify_eq. by eapply body_keeps.
    + destruct (shared b) as [s|] eqn:Es; [|done]. cbn in H. simplify_eq. by eapply merge_keeps.
  - destruct (forallb _ _) eqn:E; [|done]. simplify_eq. by apply leave_keeps, all_pcs.
  - destruct (Nat.eqb_spec t 0) as [->|Hne].
    + destruct (shared b) as [s|] eqn:Es; [|done]. cbn in H. simplify_eq. rewrite <- Es. by apply flush_keeps.
    + simplify_eq. by apply exit_keeps.
Qed.

Lemma grid_step_keeps g g' : grid_ok g → grid_step k stride g g' →
  grid_ok g' ∧ grid_total g' = grid_total g ∧ S (grid_todo g') = grid_todo g.
Proof using R.
  intros [Ho Hbs] Hstep. destruct Hstep as [b t blk blk' o' g Hb Hs].
  pose proof (Forall_lookup_1 _ _ _ _ Hbs Hb) as Hok.
  destruct (thread_step_keeps t _ _ _ _ Hok Ho Hs) as (Hok' & Ho' & Hv & Ht). split_and!.
  - split; [done|]. by apply Forall_insert.
  - unfold grid_total. cbn [g_out g_blocks].
    by rewrite (big_insert mop e idem block_pend _ _ _ _ Hb), (big_delete mop e idem block_pend _ _ _ Hb),
      !(assoc_L mop), Hv.
  - unfold grid_todo. cbn [g_blocks]. pose proof (total_update block_todo (g_blocks g) blk' b blk Hb). lia.
Qed.

Lemma some_other (P : Pc → bool) ts : forallb P ts = false → ∃ t p, ts !! t = Some p ∧ P p = false.
Proof using Type.
  induction ts as [|p ts IH]; cbn; [done|]. destruct (P p) eqn:E; cbn.
  - intros H. destruct (IH H) as (t & q & ? & ?). by exists (S t), q.
  - intros _. by exists 0%nat, p.
Qed.

(** Some thread of a block that has not exited can go on. *)
Lemma block_progress o b t p : block_ok b → threads b !! t = Some p → p ≠ Exited →
  ∃ u o' b', thread_step k stride u o b = Some (o', b').
Proof using R.
  intros Hb Ht Hp. pose proof (bo_shared _ Hb) as (p0 & H0 & Hs).
  destruct (forallb past_entry (threads b)) eqn:E1.
  2:{ destruct (some_other _ _ E1) as (u & q & Hu & Hq). exists u. unfold thread_step. rewrite Hu. cbn.
      destruct q; cbn in Hq; try done. eauto. }
  rewrite (Forall_lookup_1 _ _ _ _ (all_pcs _ _ E1) H0) in Hs. destruct Hs as (s & Hs & _).
  destruct (forallb past_merge (threads b)) eqn:E2.
  - exists t. unfold thread_step. rewrite Ht, E2, Hs. cbn.
    pose proof (Forall_lookup_1 _ _ _ _ (all_pcs _ _ E2) Ht) as Hq. destruct p; cbn in Hq; try done; [eauto|].
    destruct (t =? 0)%nat; eauto.
  - destruct (some_other _ _ E2) as (u & q & Hu & Hq). exists u. unfold thread_step. rewrite Hu, E1, Hs. cbn [mbind option_bind].
    pose proof (Forall_lookup_1 _ _ _ _ (all_pcs _ _ E1) Hu) as Hq1. destruct q as [|i|i l| | |]; cbn in Hq, Hq1; try done; [eauto|].
    destruct (Nat.ltb_spec i (k_bound k)) as [Hi|Hi]; [|by do 2 eexists].
    pose proof (Forall_lookup_1 _ _ _ _ (bo_pcs _ Hb) Hu) as Hl.
    destruct (red_body i l Hl Hi) as (l' & -> & _). by do 2 eexists.
Qed.

Lemma todo_exited p : todo p = 0%nat ↔ p = Exited.
Proof using Type. destruct p; cbn; split; done || lia. Qed.

Lemma grid_progress g : grid_ok g → exited g ∨ ∃ g', grid_step k stride g g'.
Proof using R.
  intros [_ Hbs]. destruct (decide (grid_todo g = 0%nat)) as [H0|H0].
  - left. apply Forall_lookup_2. intros b blk Hb. apply Forall_lookup_2. intros t p Ht.
    apply todo_exited. eapply (total_zero todo); [|exact Ht]. by eapply (total_zero block_todo).
  - right. destruct (total_exists block_todo (g_blocks g)) as (b & blk & Hb & Hpos).
    { unfold grid_todo in H0. lia. }
    destruct (total_exists todo (threads blk)) as (t & p & Ht & Hp); [done|].
    assert (p ≠ Exited) as Hne by (intros ->; cbn in Hp; lia).
    destruct (block_progress (g_out g) blk t p (Forall_lookup_1 _ _ _ _ Hbs Hb) Ht Hne) as (u & o' & b' & Hs).
    eexists. by eapply GridStep.
Qed.

Lemma exited_total g : grid_ok g → exited g → grid_total g = mop (abs (g_out g)) e.
Proof using R.
  intros [_ Hbs] He. unfold grid_total. f_equal. apply (big_all_unit mop e idem).
  intros blk [b Hb]%list_elem_of_lookup.
  destruct (bo_shared _ (Forall_lookup_1 _ _ _ _ Hbs Hb)) as (p & H0 & _).
  unfold block_pend. rewrite H0. pose proof (Forall_lookup_1 _ _ _ _ He Hb) as Hx.
  by rewrite (Forall_lookup_1 _ _ _ _ Hx H0).
Qed.

Lemma run_keeps n g g' : grid_ok g → nsteps (grid_step k stride) n g g' →
  grid_ok g' ∧ grid_total g' = grid_total g ∧ (n + grid_todo g' = grid_todo g)%nat.
Proof using R.
  intros Hok. induction 1 as [g|n g g1 g' Hs _ IH]; [done|].
  destruct (grid_step_keeps _ _ Hok Hs) as (Hok1 & Hv1 & Ht1).
  destruct (IH Hok1) as (Hok' & Hv & Ht). split_and!; [done|congruence|lia].
Qed.

Lemma run_to_end g : grid_ok g → ∃ g', rtc (grid_step k stride) g g' ∧ exited g'.
Proof using R.
  remember (grid_todo g) as n eqn:Hn. revert g Hn. induction n as [n IH] using lt_wf_ind. intros g -> Hok.
  destruct (grid_progress g Hok) as [|(g1 & Hs)]; [by exists g|].
  destruct (grid_step_keeps _ _ Hok Hs) as (Hok1 & _ & Ht).
  destruct (IH (grid_todo g1) ltac:(lia) g1 eq_refl Hok1) as (g' & Hr & He).
  exists g'. split; [by eapply rtc_l|done].
Qed.

(** *** The fresh grid *)

Lemma fresh_block_ok b tpb : (0 < tpb)%nat → (b * tpb + tpb ≤ stride)%nat →
  block_ok (mkBlock None (map Entering (seq (b * tpb) tpb))).
Proof using R.
  intros Htpb Hle. destruct red_local as [_ Hl].
  assert (∀ t p, map Entering (seq (b * tpb) tpb) !! t = Some p → ∃ i, p = Entering i ∧ (i < stride)%nat) as Hall.
  { intros t p Hp. apply list_lookup_fmap_Some in Hp as (i & -> & Hi). exists i. split; [done|].
    apply lookup_seq in Hi as [-> ?]. lia. }
  split; cbn [threads shared].
  - apply Forall_lookup_2. intros t p Hp. destruct (Hall t p Hp) as (i & -> & Hi). by apply Hl.
  - destruct tpb as [|n]; [lia|]. eexists. by split.
  - intros t p Hp Hb. by destruct (Hall t p Hp) as (i & -> & _).
  - intros t p Hp Hb. by destruct (Hall t p Hp) as (i & -> & _).
Qed.

Lemma fresh_pend b tpb : (0 < tpb)%nat →
  block_pend (mkBlock None (map Entering (seq (b * tpb) tpb)))
  = big mop e (λ i, big mop e c (rows_from step bound i)) (seq (b * tpb) tpb).
Proof using R.
  intros Htpb. unfold block_pend. cbn [threads shared fmap option_fmap option_map default].
  assert (map Entering (seq (b * tpb) tpb) !! 0%nat = Some (Entering (b * tpb))) as ->.
  { destruct tpb; [lia|done]. }
  rewrite (big_map mop e). cbn [pend]. apply (big_unit mop e idem).
Qed.

Lemma fresh_total blocks tpb out : (0 < tpb)%nat →
  grid_total (fresh_grid blocks tpb out)
  = mop (abs out) (big mop e c (concat (map (rows_from step bound) (seq 0 (blocks * tpb))))).
Proof using R.
  intros Htpb. unfold grid_total, fresh_grid. cbn [g_out g_blocks]. f_equal.
  rewrite (big_concat mop e idem), !(big_map mop e). induction blocks as [|n IH]; [done|].
  replace (S n * tpb)%nat with (n * tpb + tpb)%nat by lia.
  rewrite seq_S, seq_app, !(big_app mop e idem), IH. f_equal. cbn [big foldr Nat.add].
  rewrite fresh_pend by done. by rewrite (comm_L mop), (big_unit mop e idem).
Qed.

Lemma fresh_ok blocks tpb out : (0 < tpb)%nat → (blocks * tpb = stride)%nat → dom out →
  grid_ok (fresh_grid blocks tpb out).
Proof using R.
  intros Htpb Hst Ho. split; [done|]. apply Forall_lookup_2. intros i blk Hb.
  apply list_lookup_fmap_Some in Hb as (b & -> & Hb). apply lookup_seq in Hb as [-> Hlt].
  apply fresh_block_ok; [done|]. cbn. nia.
Qed.

(** A launch ends after a bounded number of steps, is never stuck, and leaves
    the same result whatever the interleaving. *)
Lemma launch_correct blocks tpb out : (0 < tpb)%nat → (blocks * tpb = stride)%nat → dom out →
  (∃ out', launch k blocks tpb out out') ∧
  ∀ out', launch k blocks tpb out out' → dom out' ∧
    mop (abs out') e = mop (abs out) (big mop e c (concat (map (rows_from step bound) (seq 0 stride)))).
Proof using R.
  intros Htpb Hst Ho. pose proof (fresh_ok blocks tpb out Htpb Hst Ho) as Hok.
  pose proof (fresh_total blocks tpb out Htpb) as Hv. rewrite Hst in Hv. unfold launch. rewrite Hst. split.
  - destruct (run_to_end _ Hok) as (g & Hr & He). by exists (g_out g), g.
  - intros out' (g & [n Hr]%rtc_nsteps & He & <-).
    destruct (run_keeps n _ _ Hok Hr) as (Hok' & Hv' & _). split; [apply Hok'|].
    by rewrite <- (exited_total g Hok' He), Hv', Hv.
Qed.

(** A thread makes five steps and one for each of its rows. *)
Lemma fresh_todo blocks tpb :
  grid_todo (fresh_grid blocks tpb 0)
  = (5 * (blocks * tpb) + length (concat (map (rows_from step bound) (seq 0 (blocks * tpb)))))%nat.
Proof using Type.
  unfold grid_todo, fresh_grid. cbn [g_blocks].
  assert (∀ l, total todo (map Entering l) = (5 * length l + length (concat (map (rows_from step bound) l)))%nat) as H.
  { induction l as [|i l IH]; [done|]. cbn [map concat length]. rewrite total_cons, IH, length_app. cbn [todo]. lia. }
  induction blocks as [|n IH]; [done|]. replace (S n * tpb)%nat with (n * tpb + tpb)%nat by lia.
  rewrite seq_S, seq_app, !map_app, concat_app, length_app. unfold total in *. rewrite sum_list_with_app, IH.
  cbn [map sum_list_with Nat.add]. unfold block_todo. cbn [threads]. unfold total. rewrite H, length_seq. lia.
Qed.

Lemma launch_bounded blocks tpb out n g : (0 < tpb)%nat → (blocks * tpb = stride)%nat → dom out →
  nsteps (grid_step k stride) n (fresh_grid blocks tpb out) g →
  (n ≤ 5 * stride + length (concat (map (rows_from step bound) (seq 0 stride))))%nat ∧ (exited g ∨ ∃ g', grid_step k stride g g').
Proof using R.
  intros Htpb Hst Ho Hr. destruct (run_keeps n _ _ (fresh_ok blocks tpb out Htpb Hst Ho) Hr) as (Hok & _ & Ht).
  split; [|by apply grid_progress].
  rewrite <- Hst, <- fresh_todo. change (grid_todo (fresh_grid blocks tpb out)) with (grid_todo (fresh_grid blocks tpb 0)) in Ht. lia.
Qed.

End reduces.
