(* ===== verification/GpuKernels.v ===== *)
(** * GpuKernels: the reduction kernels of [compute_cuda.cuh] and their host wrappers

    Each kernel is a [Kernel] of [GpuModel]: what its shared cell and local
    accumulators start with, its loop body, and its atomic.  The wrappers set
    the result to the aggregate's sentinel, launch 1024 blocks of 256 threads
    and copy the result back; CUDA calls that fail abort the process
    ([CUDA_CHECK]) and are taken to succeed here.

    The theorems state the contract the file names, that the device agrees with
    the CPU reducers: for every interleaving of the 262144 threads and every
    column, exactly on u32 and int64, and up to the sign of a zero for MIN and
    MAX over double.  Sums of doubles depend on the interleaving. *)

From S2P Require Export GpuModel.

(** ** Atomics and device predicates

    An [atomicAdd] on [unsigned long long] wraps.  The CAS loops of the double
    atomics are modelled here by what they do at once; [GpuAtomics] shows that
    the loops do it. *)

Definition atomicAdd (a b : Z) : Z := u64 (a + b).
Definition atomicMin : Z → Z → Z := Z.min.
Definition atomicMax : Z → Z → Z := Z.max.
Definition atomicAddDouble : Z → Z → Z := f64_add.
Definition atomicMinDouble (old val : Z) : Z := if f64_leb old val then old else val.
Definition atomicMaxDouble (old val : Z) : Z := if f64_leb val old then old else val.

Definition matrix_pred_match_dev (v : Z) (c : MatrixCmp) (a b : Z) : bool :=
  match c with
  | GE => a <=? v
  | LT => v <? a
  | LE => v <=? a
  | EQ => v =? a
  | NE => negb (v =? a)
  | BETWEEN => (a <=? v) && (v <=? b)
  | GT => a <? v
  end.

Definition matrix_pred_match_i64_dev (v : Z) (c : MatrixCmp) (a b : Z) : bool :=
  match c with
  | GE => a <=? v
  | LT => v <? a
  | LE => v <=? a
  | EQ => v =? a
  | NE => negb (v =? a)
  | BETWEEN => (a <=? v) && (v <=? b)
  | GT => a <? v
  end.

Definition matrix_pred_match_f64_dev (v : Z) (c : MatrixCmp) (a b : Z) : bool :=
  match c with
  | GE => f64_leb a v
  | LT => f64_ltb v a
  | LE => f64_leb v a
  | EQ => f64_eqb v a
  | NE => negb (f64_eqb v a)
  | BETWEEN => f64_leb a v && f64_leb v b
  | GT => f64_ltb a v
  end.

(** ** Loop bodies *)

Section bodies.
Context (d : list Z) (keep : Z → bool).

Definition count_body (_ i : nat) (local : Z) : outcome Z :=
  v ← rd d i; Ret (if keep v then u64 (local + 1) else local).

Definition sum_body (_ i : nat) (local : Z) : outcome Z :=
  v ← rd d i; Ret (if keep v then u64 (local + v) else local).

(** [long long local]: an overflow of the signed sum is undefined. *)
Definition sum_body_i64 (_ i : nat) (local : Z) : outcome Z :=
  v ← rd d i; if keep v then i64_add local v else Ret local.

Definition count_body_f64 (_ i : nat) (local : Z) : outcome Z :=
  v ← rd d i; Ret (if keep v then f64_add local F64_ONE else local).

Definition sum_body_f64 (_ i : nat) (local : Z) : outcome Z :=
  v ← rd d i; Ret (if keep v then f64_add local v else local).

Definition min_body (ltb : Z → Z → bool) (_ i : nat) (local : Z) : outcome Z :=
  v ← rd d i; Ret (if keep v && ltb v local then v else local).

Definition max_body (ltb : Z → Z → bool) (_ i : nat) (local : Z) : outcome Z :=
  v ← rd d i; Ret (if keep v && ltb local v then v else local).
End bodies.

(** ** The kernels *)

Definition matrix_scan_kernel (d : list Z) (n : nat) (threshold : Z) : Kernel :=
  mkKernel 0 0 n id (count_body d (λ v, threshold <? v)) atomicAdd.

Definition matrix_scan_kernel_u32 (d : list Z) (n : nat) (threshold : Z) : Kernel :=
  mkKernel 0 0 n id (count_body d (λ v, threshold <? v)) atomicAdd.

Definition matrix_sum_kernel_u32 (d : list Z) (n : nat) (threshold : Z) : Kernel :=
  mkKernel 0 0 n id (sum_body d (λ v, threshold <? v)) atomicAdd.

Definition matrix_min_kernel_u32 (d : list Z) (n : nat) (threshold : Z) : Kernel :=
  mkKernel UINT64_MAX UINT64_MAX n id (min_body d (λ v, threshold <? v) Z.ltb) atomicMin.

Definition matrix_max_kernel_u32 (d : list Z) (n : nat) (threshold : Z) : Kernel :=
  mkKernel 0 0 n id (max_body d (λ v, threshold <? v) Z.ltb) atomicMax.

Definition matrix_count_kernel_pred_u32 (d : list Z) (n : nat) (c : MatrixCmp) (a b : Z) : Kernel :=
  mkKernel 0 0 n id (count_body d (λ v, matrix_pred_match_dev v c a b)) atomicAdd.

Definition matrix_sum_kernel_pred_u32 (d : list Z) (n : nat) (c : MatrixCmp) (a b : Z) : Kernel :=
  mkKernel 0 0 n id (sum_body d (λ v, matrix_pred_match_dev v c a b)) atomicAdd.

Definition matrix_min_kernel_pred_u32 (d : list Z) (n : nat) (c : MatrixCmp) (a b : Z) : Kernel :=
  mkKernel UINT64_MAX UINT64_MAX n id (min_body d (λ v, matrix_pred_match_dev v c a b) Z.ltb) atomicMin.

Definition matrix_max_kernel_pred_u32 (d : list Z) (n : nat) (c : MatrixCmp) (a b : Z) : Kernel :=
  mkKernel 0 0 n id (max_body d (λ v, matrix_pred_match_dev v c a b) Z.ltb) atomicMax.

Definition matrix_count_kernel_pred_i64 (d : list Z) (n : nat) (c : MatrixCmp) (a b : Z) : Kernel :=
  mkKernel 0 0 n id (count_body d (λ v, matrix_pred_match_i64_dev v c a b)) atomicAdd.

Definition matrix_sum_kernel_pred_i64 (d : list Z) (n : nat) (c : MatrixCmp) (a b : Z) : Kernel :=
  mkKernel 0 0 n id (sum_body_i64 d (λ v, matrix_pred_match_i64_dev v c a b)) atomicAdd.

Definition matrix_min_kernel_pred_i64 (d : list Z) (n : nat) (c : MatrixCmp) (a b : Z) : Kernel :=
  mkKernel INT64_MAX INT64_MAX n id (min_body d (λ v, matrix_pred_match_i64_dev v c a b) Z.ltb) atomicMin.

Definition matrix_max_kernel_pred_i64 (d : list Z) (n : nat) (c : MatrixCmp) (a b : Z) : Kernel :=
  mkKernel INT64_MIN INT64_MIN n id (max_body d (λ v, matrix_pred_match_i64_dev v c a b) Z.ltb) atomicMax.

Definition matrix_count_kernel_pred_f64 (d : list Z) (n : nat) (c : MatrixCmp) (a b : Z) : Kernel :=
  mkKernel F64_ZERO F64_ZERO n id (count_body_f64 d (λ v, matrix_pred_match_f64_dev v c a b)) atomicAddDouble.

Definition matrix_sum_kernel_pred_f64 (d : list Z) (n : nat) (c : MatrixCmp) (a b : Z) : Kernel :=
  mkKernel F64_ZERO F64_ZERO n id (sum_body_f64 d (λ v, matrix_pred_match_f64_dev v c a b)) atomicAddDouble.

Definition matrix_min_kernel_pred_f64 (d : list Z) (n : nat) (c : MatrixCmp) (a b : Z) : Kernel :=
  mkKernel F64_INF F64_INF n id (min_body d (λ v, matrix_pred_match_f64_dev v c a b) f64_ltb) atomicMinDouble.

Definition matrix_max_kernel_pred_f64 (d : list Z) (n : nat) (c : MatrixCmp) (a b : Z) : Kernel :=
  mkKernel F64_NEG_INF F64_NEG_INF n id (max_body d (λ v, matrix_pred_match_f64_dev v c a b) f64_ltb) atomicMaxDouble.

(** [uint4] loads: index [i] stands for the four rows from [4 * i]. *)
Definition count_four (d : list Z) (threshold : Z) (_ i : nat) (local : Z) : outcome Z :=
  x ← rd d (4 * i); y ← rd d (4 * i + 1); z ← rd d (4 * i + 2); w ← rd d (4 * i + 3);
  Ret (u64 (local + (Z.b2z (threshold <? x) + Z.b2z (threshold <? y)
                     + Z.b2z (threshold <? z) + Z.b2z (threshold <? w)))).

Definition matrix_scan_kernel_u32x4 (d : list Z) (n4 : nat) (threshold : Z) : Kernel :=
  mkKernel 0 0 n4 id (count_four d threshold) atomicAdd.

(** [ITEMS] striped loads per turn, guarded by [idx < n]; the comparisons come
    after all the loads. *)
Definition load_items (items stride n : nat) (d : list Z) (base : nat) : outcome (list Z) :=
  fold_outcome (λ reg k,
    let idx := (base + k * stride)%nat in
    v ← (if (idx <? n)%nat then rd d idx else Ret 0);
    Ret (reg ++ [v])) (seq 0 items) [].

Definition count_items (items n : nat) (d : list Z) (threshold : Z) (stride base : nat) (local : Z) : outcome Z :=
  reg ← load_items items stride n d base;
  fold_outcome (λ local k,
    if (base + k * stride <? n)%nat then
      v ← rd reg k; Ret (u64 (local + Z.b2z (threshold <? v)))
    else Ret local) (seq 0 items) local.

Definition matrix_scan_kernel_ipt (items : nat) (d : list Z) (n : nat) (threshold : Z) : Kernel :=
  mkKernel 0 0 n (λ stride, stride * items)%nat (count_items items n d threshold) atomicAdd.

(** ** Host wrappers *)

Definition TPB : nat := 256.
Definition BLOCKS : nat := 1024.

(** [cudaMemset(p, byte, 8)] read back as an [unsigned long long]. *)
Definition cudaMemset (b : Init.Byte.byte) : Z := le_combine (replicate 8 b).

(** [h] is a result the wrapper may return. *)
Definition matrix_gpu_reduce_dev_u32 (d : list Z) (n : nat) (pred : MatrixPredicate)
    (op : MatrixAggOp) (has_filter : bool) (h : Z) : Prop :=
  let c := if has_filter then p_cmp pred else GE in
  let a := if has_filter then p_a pred else 0 in
  let b := if has_filter then p_b pred else 0 in
  match op with
  | AGG_SUM => launch (matrix_sum_kernel_pred_u32 d n c a b) BLOCKS TPB (cudaMemset Byte.x00) h
  | AGG_MIN => launch (matrix_min_kernel_pred_u32 d n c a b) BLOCKS TPB (cudaMemset Byte.xff) h
  | AGG_MAX => launch (matrix_max_kernel_pred_u32 d n c a b) BLOCKS TPB (cudaMemset Byte.x00) h
  | _ => launch (matrix_count_kernel_pred_u32 d n c a b) BLOCKS TPB (cudaMemset Byte.x00) h
  end.

(** The result cell is read as a [long long]. *)
Definition matrix_gpu_reduce_dev_i64 (d : list Z) (n : nat) (pred : MatrixPredicate)
    (op : MatrixAggOp) (has_filter : bool) (h : Z) : Prop :=
  let c := if has_filter then p_cmp pred else GE in
  let a := if has_filter then p_a pred else INT64_MIN in
  let b := if has_filter then p_b pred else 0 in
  let init := match op with AGG_MIN => INT64_MAX | AGG_MAX => INT64_MIN | _ => 0 end in
  ∃ out, h = i64 out ∧
  match op with
  | AGG_SUM => launch (matrix_sum_kernel_pred_i64 d n c a b) BLOCKS TPB init out
  | AGG_MIN => launch (matrix_min_kernel_pred_i64 d n c a b) BLOCKS TPB init out
  | AGG_MAX => launch (matrix_max_kernel_pred_i64 d n c a b) BLOCKS TPB init out
  | _ => launch (matrix_count_kernel_pred_i64 d n c a b) BLOCKS TPB init out
  end.

Definition matrix_gpu_reduce_dev_f64 (d : list Z) (n : nat) (pred : MatrixPredicate)
    (op : MatrixAggOp) (has_filter : bool) (h : Z) : Prop :=
  let c := if has_filter then p_cmp pred else GE in
  let a := if has_filter then p_a pred else F64_NEG_INF in
  let b := if has_filter then p_b pred else F64_ZERO in
  let init := match op with AGG_MIN => F64_INF | AGG_MAX => F64_NEG_INF | _ => F64_ZERO end in
  match op with
  | AGG_SUM => launch (matrix_sum_kernel_pred_f64 d n c a b) BLOCKS TPB init h
  | AGG_MIN => launch (matrix_min_kernel_pred_f64 d n c a b) BLOCKS TPB init h
  | AGG_MAX => launch (matrix_max_kernel_pred_f64 d n c a b) BLOCKS TPB init h
  | _ => launch (matrix_count_kernel_pred_f64 d n c a b) BLOCKS TPB init h
  end.

(** ** The atomics form commutative monoids *)

#[export] Instance atomicAdd_assoc : Assoc (=) atomicAdd.
Proof. intros x y z. unfold atomicAdd. rewrite u64_add_l, u64_add_r. f_equal. lia. Qed.
#[export] Instance atomicAdd_comm : Comm (=) atomicAdd.
Proof. intros x y. unfold atomicAdd. f_equal. lia. Qed.
#[export] Instance atomicMin_assoc : Assoc (=) atomicMin.
Proof. intros x y z. apply Z.min_assoc. Qed.
#[export] Instance atomicMin_comm : Comm (=) atomicMin.
Proof. intros x y. apply Z.min_comm. Qed.
#[export] Instance atomicMax_assoc : Assoc (=) atomicMax.
Proof. intros x y z. apply Z.max_assoc. Qed.
#[export] Instance atomicMax_comm : Comm (=) atomicMax.
Proof. intros x y. apply Z.max_comm. Qed.

Lemma u64_atomicAdd a b : u64 (a + b) = atomicAdd (u64 a) (u64 b).
Proof. unfold atomicAdd. by rewrite u64_add_l, u64_add_r. Qed.

Lemma u64_of_atomicAdd a b : u64 (atomicAdd a b) = atomicAdd (u64 a) (u64 b).
Proof. rewrite <- u64_atomicAdd. apply u64_idem. Qed.

Lemma atomicAdd_zero a : u64 a = atomicAdd (u64 a) 0.
Proof. unfold atomicAdd. by rewrite Z.add_0_r, u64_idem. Qed.

Lemma sum_list_perm l1 l2 : l1 ≡ₚ l2 → sum_list_Z l1 = sum_list_Z l2.
Proof. unfold sum_list_Z. induction 1; cbn; lia. Qed.

(** ** Each kind of kernel reduces *)

Section reduces.
Context (d : list Z) (keep : Z → bool) (n stride : nat).
Hypothesis Hn : (n ≤ length d)%nat.
Hypothesis Hs : (0 < stride)%nat.

(** What row [i] adds: [f] of its value, or the unit [e] if it is not kept. *)
Definition contrib (f : Z → Z) (e : Z) (i : nat) : Z := if keep (nth i d 0) then f (nth i d 0) else e.

Lemma count_reduces : Reduces (mkKernel 0 0 n id (count_body d keep) atomicAdd) stride
  atomicAdd 0 u64 in_u64 (λ _ _, True) (contrib (λ _, 1) 0).
Proof using Hn Hs.
  split; cbn [k_blk k_local k_bound k_step k_body k_merge]; try exact _; try done.
  - intros i l _ Hi. unfold count_body. rewrite (rd_total 0) by lia. cbn. eexists. split_and!; [done..|].
    unfold contrib. destruct (keep _); [by rewrite u64_idem, u64_atomicAdd|apply atomicAdd_zero].
  - intros s i l _ _. split; [apply u64_range|]. apply u64_of_atomicAdd.
  - intros o s _ _. split; [apply u64_range|]. apply u64_of_atomicAdd.
Qed.

Lemma sum_reduces : Reduces (mkKernel 0 0 n id (sum_body d keep) atomicAdd) stride
  atomicAdd 0 u64 in_u64 (λ _ _, True) (contrib u64 0).
Proof using Hn Hs.
  split; cbn [k_blk k_local k_bound k_step k_body k_merge]; try exact _; try done.
  - intros i l _ Hi. unfold sum_body. rewrite (rd_total 0) by lia. cbn. eexists. split_and!; [done..|].
    unfold contrib. destruct (keep _); [by rewrite u64_idem, u64_atomicAdd|apply atomicAdd_zero].
  - intros s i l _ _. split; [apply u64_range|]. apply u64_of_atomicAdd.
  - intros o s _ _. split; [apply u64_range|]. apply u64_of_atomicAdd.
Qed.

(** The magnitudes still to be added to an int64 accumulator. *)
Definition load_from (i : nat) : Z := sum_list_Z (map (λ j, Z.abs (contrib id 0 j)) (rows_from stride n i)).

Lemma sum_reduces_i64 :
  (∀ i, load_from i ≤ INT64_MAX) →
  Reduces (mkKernel 0 0 n id (sum_body_i64 d keep) atomicAdd) stride
    atomicAdd 0 u64 in_u64 (λ i l, Z.abs l + load_from i ≤ INT64_MAX) (contrib u64 0).
Proof using Hn Hs.
  intros Hb. split; cbn [k_blk k_local k_bound k_step k_body k_merge]; try exact _; try done.
  - split; [done|]. intros i _. apply Hb.
  - intros i l Hl Hi. unfold sum_body_i64. rewrite (rd_total 0) by lia. cbn [mbind outcome_bind].
    assert (load_from i = Z.abs (contrib id 0 i) + load_from (i + stride)) as Hload.
    { unfold load_from. rewrite (sum_list_perm _ _ (Permutation_map _ (rows_next stride n i Hs Hi))). done. }
    assert (0 ≤ load_from (i + stride)) as Hpos.
    { unfold load_from, sum_list_Z. generalize (rows_from stride n (i + stride)). intros L. induction L; cbn; lia. }
    unfold contrib in *. destruct (keep _); cbn [id] in *.
    + rewrite i64_add_in by (unfold in_i64, INT64_MIN, INT64_MAX in *; lia). eexists.
      split_and!; [done|unfold id; lia|]. by rewrite u64_atomicAdd.
    + eexists. split_and!; [done|unfold id; lia|apply atomicAdd_zero].
  - intros s i l _ _. split; [apply u64_range|]. apply u64_of_atomicAdd.
  - intros o s _ _. split; [apply u64_range|]. apply u64_of_atomicAdd.
Qed.

Lemma min_reduces M : Reduces (mkKernel M M n id (min_body d keep Z.ltb) atomicMin) stride
  atomicMin M id (λ s, s ≤ M) (λ _ l, l ≤ M) (contrib id M).
Proof using Hn Hs.
  split; cbn [k_blk k_local k_bound k_step k_body k_merge]; try exact _; unfold atomicMin, id; try lia.
  - split; [done|]. intros. lia.
  - intros i l Hl Hi. unfold min_body. rewrite (rd_total 0) by lia. cbn. eexists. split; [done|].
    unfold contrib. destruct (keep _); cbn; [destruct (Z.ltb_spec (nth i d 0) l)|]; lia.
Qed.

Lemma max_reduces m : Reduces (mkKernel m m n id (max_body d keep Z.ltb) atomicMax) stride
  atomicMax m id (λ s, m ≤ s) (λ _ l, m ≤ l) (contrib id m).
Proof using Hn Hs.
  split; cbn [k_blk k_local k_bound k_step k_body k_merge]; try exact _; unfold atomicMax, id; try lia.
  - split; [done|]. intros. lia.
  - intros i l Hl Hi. unfold max_body. rewrite (rd_total 0) by lia. cbn. eexists. split; [done|].
    unfold contrib. destruct (keep _); cbn; [destruct (Z.ltb_spec l (nth i d 0))|]; lia.
Qed.
End reduces.

(** ** What a launch leaves *)

(** Some interleaving ends, and every interleaving that ends leaves [r]. *)
Definition launches_to (k : Kernel) (blocks tpb : nat) (init r : Z) : Prop :=
  (∃ out, launch k blocks tpb init out) ∧ ∀ out, launch k blocks tpb init out → out = r.

Lemma big_ones (l : list Z) : big atomicAdd 0 (λ _, 1) l = u64 (Z.of_nat (length l)).
Proof.
  induction l as [|x l IH]; [done|]. rewrite big_cons, IH. unfold atomicAdd. rewrite u64_add_r.
  f_equal. cbn [length]. lia.
Qed.

Lemma big_sums (l : list Z) : big atomicAdd 0 u64 l = u64 (sum_list_Z l).
Proof. induction l as [|x l IH]; [done|]. by rewrite big_cons, IH, <- u64_atomicAdd. Qed.

Section launches.
Context (d : list Z) (keep : Z → bool) (n blocks tpb : nat).
Hypothesis Hn : (n ≤ length d)%nat.
Hypothesis Hblocks : (0 < blocks)%nat.
Hypothesis Htpb : (0 < tpb)%nat.

Definition kept : list Z := select (λ i, keep (nth i d 0)) d n.

Lemma launch_strided k mop e abs dom lok c init :
  Reduces k (blocks * tpb) mop e abs dom lok c → k_step k = id → k_bound k = n →
  dom init → abs init = e →
  (∃ out, launch k blocks tpb init out) ∧
  ∀ out, launch k blocks tpb init out → dom out ∧ mop (abs out) e = big mop e c (seq 0 n).
Proof using Hn Hblocks Htpb.
  intros R Hstep Hbound Hi He. destruct (launch_correct blocks tpb init Htpb eq_refl Hi) as [Hex Hall].
  split; [done|]. intros out Hl. destruct (Hall out Hl) as [Hd Hv]. split; [done|].
  rewrite Hv, He, Hstep, Hbound. unfold id. pose proof (red_idem (Reduces:=R)) as Hid.
  rewrite (big_unit mop e Hid). apply (big_perm mop e Hid). apply grid_covers. nia.
Qed.

Lemma big_contrib mop e f : Assoc (=) mop → Comm (=) mop → mop e e = e →
  big mop e (contrib d keep f e) (seq 0 n) = big mop e f kept.
Proof using Type.
  intros ?? Hid. unfold kept, select. rewrite (big_map mop e).
  by rewrite <- (big_filter mop e Hid (λ i, keep (nth i d 0))).
Qed.

Lemma count_launches : launches_to (mkKernel 0 0 n id (count_body d keep) atomicAdd) blocks tpb 0
  (u64 (Z.of_nat (length kept))).
Proof using Hn Hblocks Htpb.
  destruct (launch_strided _ _ _ _ _ _ _ 0 (count_reduces d keep n (blocks * tpb) Hn ltac:(nia)))
    as [Hex Hall]; [done..|]. split; [done|]. intros out Hl. destruct (Hall out Hl) as [Hd Hv].
  rewrite big_contrib, big_ones, <- atomicAdd_zero in Hv by (exact _ || done). by rewrite <- Hv, u64_small.
Qed.

(** The cell of a sum kernel, signed or not, holds the sum modulo 2^64. *)
Lemma sum_cell k lok : Reduces k (blocks * tpb) atomicAdd 0 u64 in_u64 lok (contrib d keep u64 0) →
  k_step k = id → k_bound k = n → launches_to k blocks tpb 0 (u64 (sum_list_Z kept)).
Proof using Hn Hblocks Htpb.
  intros R Hstep Hbound. destruct (launch_strided _ _ _ _ _ _ _ 0 R) as [Hex Hall]; [done..|].
  split; [done|]. intros out Hl. destruct (Hall out Hl) as [Hd Hv].
  rewrite big_contrib, big_sums, <- atomicAdd_zero in Hv by (exact _ || done). by rewrite <- Hv, u64_small.
Qed.

Lemma sum_launches : launches_to (mkKernel 0 0 n id (sum_body d keep) atomicAdd) blocks tpb 0
  (u64 (sum_list_Z kept)).
Proof using Hn Hblocks Htpb. eapply sum_cell; [apply sum_reduces; [done|nia]|done..]. Qed.

Lemma sum_launches_i64 : sum_list_Z (map Z.abs kept) ≤ INT64_MAX →
  launches_to (mkKernel 0 0 n id (sum_body_i64 d keep) atomicAdd) blocks tpb 0 (u64 (sum_list_Z kept)).
Proof using Hn Hblocks Htpb.
  intros Hb. eapply sum_cell; [apply sum_reduces_i64; [done|nia|]|done..].
  intros i. etrans; [|exact Hb]. unfold load_from, kept, select, rows_from. clear.
  generalize (λ j, (i <=? j)%nat && ((j - i) mod (blocks * tpb) =? 0)%nat). intros P.
  unfold sum_list_Z, contrib. generalize (seq 0 n). intros l.
  induction l as [|j l IH]; [done|]. cbn [List.filter]. destruct (P j), (keep (nth j d 0)) eqn:E; cbn [map foldr]; rewrite ?E; unfold id in *; lia.
Qed.

Lemma min_launches M : launches_to (mkKernel M M n id (min_body d keep Z.ltb) atomicMin) blocks tpb M
  (foldr Z.min M kept).
Proof using Hn Hblocks Htpb.
  assert (atomicMin M M = M) as Hid by (unfold atomicMin; lia).
  destruct (launch_strided _ _ _ _ _ _ _ M (min_reduces d keep n (blocks * tpb) Hn ltac:(nia) M))
    as [Hex Hall]; [done..|cbn; lia|done|]. split; [done|]. intros out Hl. destruct (Hall out Hl) as [Hd Hv].
  rewrite big_contrib in Hv by (exact _ || done). change (Z.min out M = foldr Z.min M kept) in Hv. lia.
Qed.

Lemma max_launches m : launches_to (mkKernel m m n id (max_body d keep Z.ltb) atomicMax) blocks tpb m
  (foldr Z.max m kept).
Proof using Hn Hblocks Htpb.
  assert (atomicMax m m = m) as Hid by (unfold atomicMax; lia).
  destruct (launch_strided _ _ _ _ _ _ _ m (max_reduces d keep n (blocks * tpb) Hn ltac:(nia) m))
    as [Hex Hall]; [done..|cbn; lia|done|]. split; [done|]. intros out Hl. destruct (Hall out Hl) as [Hd Hv].
  rewrite big_contrib in Hv by (exact _ || done). change (Z.max out m = foldr Z.max m kept) in Hv. lia.
Qed.
End launches.

(** ** The device agrees with the CPU reducers *)

Lemma pred_dev_u32 v p : matrix_pred_match_dev v (p_cmp p) (p_a p) (p_b p) = matrix_pred_match v p.
Proof. by destruct p as [[] a b]. Qed.

Lemma pred_dev_i64 v p : matrix_pred_match_i64_dev v (p_cmp p) (p_a p) (p_b p) = matrix_pred_match_i64 v p.
Proof. by destruct p as [[] a b]. Qed.

Lemma pred_dev_f64 v p : matrix_pred_match_f64_dev v (p_cmp p) (p_a p) (p_b p) = matrix_pred_match_f64 v p.
Proof. by destruct p as [[] a b]. Qed.

(** The rows a wrapper's predicate keeps are those of the CPU reducer it mirrors. *)
Lemma kept_where test v : kept v test (length v) = select (where_rows None test v) v (length v).
Proof. done. Qed.

Lemma kept_ext k1 k2 v n : (n ≤ length v)%nat → (∀ x, x ∈ v → k1 x = k2 x) → kept v k1 n = kept v k2 n.
Proof.
  intros Hn H. apply select_ext. intros i Hi. apply H. apply list_elem_of_In, nth_In. lia.
Qed.

Lemma kept_all v test : (∀ x, x ∈ v → test x = true) → kept v test (length v) = v.
Proof.
  intros H. rewrite (kept_ext _ (λ _, true)) by done. unfold kept, select.
  replace (List.filter (λ _, true) (seq 0 (length v))) with (seq 0 (length v)); [apply map_nth_seq|].
  generalize (seq 0 (length v)). intros l. induction l; cbn; congruence.
Qed.

(** [matrix_cpu_reduce_all] is the reducer of a predicate that keeps every row. *)
Lemma reduce_all_kept A v op : (acc_of_size A (Z.of_nat (length v)) = Z.of_nat (length v)) →
  (reads_value op = false → agg_fold A op v = Ret (Z.of_nat (length v))) →
  (if reads_value op then reduce_loop A (length v) keep_all (rd v) op
   else Ret (acc_of_size A (Z.of_nat (length v)))) = agg_fold A op v.
Proof.
  intros Hsize Hcount. destruct (reads_value op) eqn:E; [|by rewrite Hsize, Hcount].
  rewrite (reduce_loop_select A (length v) keep_all v op (λ _, true)) by done.
  f_equal. exact (kept_all v (λ _, true) (λ _ _, eq_refl)).
Qed.

(** What the CPU computes for the same request. *)
Definition cpu_reduce_u32 (v : list Z) (pred : MatrixPredicate) (op : MatrixAggOp) (has_filter : bool) : outcome Z :=
  if has_filter then matrix_cpu_reduce_pred v (length v) pred op None
  else matrix_cpu_reduce_all v (length v) op.

Definition cpu_reduce_i64 (v : list Z) (pred : MatrixPredicate) (op : MatrixAggOp) (has_filter : bool) : outcome Z :=
  if has_filter then matrix_cpu_reduce_pred_i64 v (length v) pred op None
  else matrix_cpu_reduce_all_i64 v (length v) op.

Definition cpu_reduce_f64 (v : list Z) (pred : MatrixPredicate) (op : MatrixAggOp) (has_filter : bool) : outcome Z :=
  if has_filter then matrix_cpu_reduce_pred_f64 v (length v) pred op None
  else matrix_cpu_reduce_all_f64 v (length v) op.

Lemma cpu_reduce_u32_kept v pred op hf : Forall in_u32 v → Z.of_nat (length v) < 2 ^ 64 →
  cpu_reduce_u32 v pred op hf
  = Ret (agg_ref op (kept v (λ x, matrix_pred_match_dev x (if hf then p_cmp pred else GE)
      (if hf then p_a pred else 0) (if hf then p_b pred else 0)) (length v))).
Proof.
  intros Hv Hn. unfold cpu_reduce_u32. destruct hf.
  - rewrite (kept_ext _ (λ x, matrix_pred_match x pred)) by (done || intros; apply pred_dev_u32).
    rewrite kept_where. by apply reduce_pred_correct.
  - rewrite kept_all.
    2:{ intros x Hx. rewrite Forall_forall in Hv. specialize (Hv x Hx). apply Z.leb_le. unfold in_u32 in Hv. lia. }
    unfold matrix_cpu_reduce_all. rewrite (reduce_all_kept u64_acc); [by rewrite agg_fold_u64|done|].
    intros Hr. rewrite agg_fold_count_u64 by done. by rewrite u64_small by (unfold in_u64; lia).
Qed.

Lemma full_grid : (0 < BLOCKS ∧ 0 < TPB)%nat.
Proof. split; by apply Nat.ltb_lt. Qed.

Lemma launches_ret k blocks tpb init r : launches_to k blocks tpb init r →
  (∃ h, launch k blocks tpb init h) ∧ ∀ h, launch k blocks tpb init h → Ret r = Ret h.
Proof. intros [He Ha]. split; [done|]. intros h Hh. by rewrite (Ha h Hh). Qed.

(** A device reduction of a u32 column ends, whatever the interleaving of its
    262144 threads, with exactly the CPU reducer's result. *)
Theorem gpu_reduce_u32_matches_cpu v pred op hf :
  Forall in_u32 v → Z.of_nat (length v) < 2 ^ 64 →
  (∃ h, matrix_gpu_reduce_dev_u32 v (length v) pred op hf h) ∧
  ∀ h, matrix_gpu_reduce_dev_u32 v (length v) pred op hf h → cpu_reduce_u32 v pred op hf = Ret h.
Proof.
  intros Hv Hn. rewrite cpu_reduce_u32_kept by done. destruct full_grid.
  destruct op; apply launches_ret;
    first [apply sum_launches|apply min_launches|apply max_launches|apply count_launches]; done.
Qed.

(** *** int64 *)

Lemma i64_small z : in_i64 z → i64 z = z.
Proof. intros Hz. rewrite <- (i64_u64 z Hz) at 2. unfold i64. by rewrite u64_idem. Qed.

Lemma agg_fold_count_i64 op vals : reads_value op = false → Z.of_nat (length vals) ≤ INT64_MAX →
  agg_fold i64_acc op vals = Ret (Z.of_nat (length vals)).
Proof.
  intros Hr. assert (∀ s, 0 ≤ s → s + Z.of_nat (length vals) ≤ INT64_MAX →
    fold_outcome (acc_step i64_acc op) vals s = Ret (s + Z.of_nat (length vals))) as H.
  { induction vals as [|x vals IH]; intros s Hs Hle; cbn [fold_outcome length] in *; [by rewrite Z.add_0_r|].
    rewrite acc_step_count by done. cbn [acc_add i64_acc acc_one].
    rewrite i64_add_in by (unfold in_i64, INT64_MIN, INT64_MAX in *; lia). cbn.
    rewrite IH by lia. f_equal. lia. }
  intros Hle. destruct op; done || by apply (H 0).
Qed.

Lemma abs_sum_select v keep : sum_list_Z (map Z.abs (select keep v (length v))) ≤ sum_list_Z (map Z.abs v).
Proof.
  assert (sum_list_Z (map Z.abs v) = sum_list_Z (map Z.abs (kept v (λ _, true) (length v)))) as -> by (by rewrite kept_all).
  unfold kept, select, sum_list_Z. generalize (seq 0 (length v)). intros l.
  induction l as [|i l IH]; [done|]. cbn [List.filter]. destruct (keep _); cbn [map foldr]; lia.
Qed.

Lemma sum_abs vals : Z.abs (sum_list_Z vals) ≤ sum_list_Z (map Z.abs vals).
Proof. unfold sum_list_Z. induction vals as [|x vals IH]; cbn; lia. Qed.

(** A signed aggregate is defined when the magnitudes fit. *)
Lemma agg_fold_i64_defined op vals :
  Z.of_nat (length vals) ≤ INT64_MAX → sum_list_Z (map Z.abs vals) ≤ INT64_MAX →
  agg_fold i64_acc op vals = Ret (agg_ref_i64 op vals).
Proof.
  intros Hl Hs. destruct op; cbn [agg_ref_i64];
    first [by apply agg_fold_count_i64|by apply agg_fold_min|by apply agg_fold_max|idtac].
  unfold agg_fold. cbn [acc_init acc_zero i64_acc]. by apply (fold_i64_sum_defined vals 0 0); [lia|].
Qed.

Lemma cpu_reduce_i64_kept v pred op hf :
  Forall in_i64 v → Z.of_nat (length v) ≤ INT64_MAX → sum_list_Z (map Z.abs v) ≤ INT64_MAX →
  cpu_reduce_i64 v pred op hf
  = Ret (agg_ref_i64 op (kept v (λ x, matrix_pred_match_i64_dev x (if hf then p_cmp pred else GE)
      (if hf then p_a pred else INT64_MIN) (if hf then p_b pred else 0)) (length v))).
Proof.
  intros Hv Hn Hsum.
  unfold cpu_reduce_i64. destruct hf.
  - rewrite (kept_ext _ (λ x, matrix_pred_match_i64 x pred)) by (done || intros; apply pred_dev_i64).
    unfold matrix_cpu_reduce_pred_i64. rewrite reduce_pred_loop by done. rewrite <- kept_where. apply agg_fold_i64_defined.
    + pose proof (length_select (λ i, matrix_pred_match_i64 (nth i v 0) pred) v (length v)). unfold kept. lia.
    + by etrans; [apply abs_sum_select|].
  - rewrite kept_all.
    2:{ intros x Hx. rewrite Forall_forall in Hv. specialize (Hv x Hx). apply Z.leb_le. unfold in_i64 in Hv. lia. }
    unfold matrix_cpu_reduce_all_i64. rewrite (reduce_all_kept i64_acc); [by apply agg_fold_i64_defined| |].
    + cbn. apply i64_small. unfold in_i64, INT64_MIN. lia.
    + intros Hr. by apply agg_fold_count_i64.
Qed.

Lemma foldr_in_i64 (f : Z → Z → Z) s vals : (∀ x y, f x y = x ∨ f x y = y) → in_i64 s → Forall in_i64 vals →
  in_i64 (foldr f s vals).
Proof. intros Hf Hs. induction 1 as [|x vals Hx _ IH]; cbn; [done|]. by destruct (Hf x (foldr f s vals)) as [-> | ->]. Qed.

Lemma launches_i64 k blocks tpb init r z : launches_to k blocks tpb init r → i64 r = z →
  (∃ h out, h = i64 out ∧ launch k blocks tpb init out) ∧
  ∀ h, (∃ out, h = i64 out ∧ launch k blocks tpb init out) → Ret z = Ret h.
Proof. intros [[out Ho] Ha] <-. split; [eauto|]. intros h (out' & -> & Hl). by rewrite (Ha _ Hl). Qed.

(** So does a reduction of an int64 column whose values cannot overflow a sum;
    without that the CPU's sum, or the partial sum of a thread, is undefined. *)
Theorem gpu_reduce_i64_matches_cpu v pred op hf :
  Forall in_i64 v → Z.of_nat (length v) ≤ INT64_MAX → sum_list_Z (map Z.abs v) ≤ INT64_MAX →
  (∃ h, matrix_gpu_reduce_dev_i64 v (length v) pred op hf h) ∧
  ∀ h, matrix_gpu_reduce_dev_i64 v (length v) pred op hf h → cpu_reduce_i64 v pred op hf = Ret h.
Proof.
  intros Hv Hn Hsum. rewrite cpu_reduce_i64_kept by done. unfold matrix_gpu_reduce_dev_i64. cbv zeta.
  set (keep := λ x, matrix_pred_match_i64_dev x _ _ _). destruct full_grid as [Hb Ht].
  assert (sum_list_Z (map Z.abs (kept v keep (length v))) ≤ INT64_MAX) as Hs.
  { by etrans; [apply abs_sum_select|]. }
  assert (Forall in_i64 (kept v keep (length v))) as Hk by (by apply select_Forall).
  assert (in_i64 (Z.of_nat (length (kept v keep (length v))))) as Hl.
  { pose proof (length_select (λ i, keep (nth i v 0)) v (length v)). unfold kept, in_i64, INT64_MIN. lia. }
  assert (in_i64 (sum_list_Z (kept v keep (length v)))) as Hr.
  { pose proof (sum_abs (kept v keep (length v))). unfold in_i64, INT64_MIN, INT64_MAX in *. lia. }
  destruct op; cbn [agg_ref_i64].
  - eapply launches_i64; [by apply count_launches|by apply i64_u64].
  - eapply launches_i64; [by apply sum_launches_i64|by apply i64_u64].
  - eapply launches_i64; [by apply min_launches|apply i64_small, foldr_in_i64; [|done..]; lia].
  - eapply launches_i64; [by apply max_launches|apply i64_small, foldr_in_i64; [|done..]; lia].
  - eapply launches_i64; [by apply count_launches|by apply i64_u64].
Qed.

(** *** double: MIN and MAX

    [upd] says that a value replaces the accumulator, [cell] is the atomic;
    both choose by rank, and a NaN is never chosen. *)

Class Extremum (mop : Z → Z → Z) (init : Z) (upd : Z → Z → bool) (cell : Z → Z → Z) : Prop := {
  ex_assoc :: Assoc (=) mop;
  ex_comm :: Comm (=) mop;
  ex_init : f64_number init ∧ ∀ x, f64_number x → mop (f64_rank x) (f64_rank init) = f64_rank x;
  ex_nan v l : f64_is_nan v = true → upd v l = false;
  ex_upd v l : f64_number v → f64_number l → f64_rank (if upd v l then v else l) = mop (f64_rank l) (f64_rank v);
  ex_cell s l : f64_number s → f64_number l → f64_number (cell s l) ∧ f64_rank (cell s l) = mop (f64_rank s) (f64_rank l)
}.

#[export] Instance min_extremum : Extremum atomicMin F64_INF (λ v l, f64_ltb v l) atomicMinDouble.
Proof.
  split; try exact _; unfold atomicMin.
  - split; [apply f64_inf_number|]. intros x Hx. pose proof (f64_rank_bounds x Hx). lia.
  - intros v l Hv. apply (f64_nan_l v l Hv).
  - intros v l Hv Hl. rewrite f64_ltb_rank by done. destruct (Z.ltb_spec (f64_rank v) (f64_rank l)); lia.
  - intros s l Hs Hl. unfold atomicMinDouble. rewrite f64_leb_rank by done.
    destruct (Z.leb_spec (f64_rank s) (f64_rank l)); (split; [done|lia]).
Qed.

#[export] Instance max_extremum : Extremum atomicMax F64_NEG_INF (λ v l, f64_ltb l v) atomicMaxDouble.
Proof.
  split; try exact _; unfold atomicMax.
  - split; [apply f64_inf_number|]. intros x Hx. pose proof (f64_rank_bounds x Hx). lia.
  - intros v l Hv. apply (f64_nan_r l v Hv).
  - intros v l Hv Hl. rewrite f64_ltb_rank by done. destruct (Z.ltb_spec (f64_rank l) (f64_rank v)); lia.
  - intros s l Hs Hl. unfold atomicMaxDouble. rewrite f64_leb_rank by done.
    destruct (Z.leb_spec (f64_rank l) (f64_rank s)); (split; [done|lia]).
Qed.

Section extremum.
Context {mop : Z → Z → Z} {init : Z} {upd : Z → Z → bool} {cell : Z → Z → Z} `{E : !Extremum mop init upd cell}.
Context (d : list Z) (keep : Z → bool).
Hypothesis Hd : Forall in_u64 d.

Let e : Z := f64_rank init.

(** The rank a value contributes: a NaN contributes nothing. *)
Definition rank_of (v : Z) : Z := if f64_is_nan v then e else f64_rank v.

Lemma number_or_nan v : in_u64 v → f64_is_nan v = true ∨ f64_number v.
Proof using Type. intros Hv. unfold f64_number. destruct (f64_is_nan v); auto. Qed.

Lemma extremum_idem : mop e e = e.
Proof using E. destruct ex_init as [Hi Hx]. by apply Hx. Qed.

(** A row's test and update, on the device and on the CPU. *)
Lemma update_rank v l : in_u64 v → f64_number l →
  f64_number (if upd v l then v else l) ∧ f64_rank (if upd v l then v else l) = mop (f64_rank l) (rank_of v).
Proof using E.
  intros Hv Hl. destruct (number_or_nan v Hv) as [Hn|Hn]; unfold rank_of.
  - rewrite (ex_nan v l Hn), Hn. split; [done|]. symmetry. by apply ex_init.
  - rewrite (ex_upd v l Hn Hl), (proj2 Hn). split; [by destruct (upd v l)|done].
Qed.

Definition pick_body (_ i : nat) (local : Z) : outcome Z :=
  v ← rd d i; Ret (if keep v && upd v local then v else local).

Lemma pick_reduces n stride : (n ≤ length d)%nat → (0 < stride)%nat →
  Reduces (mkKernel init init n id pick_body cell) stride mop e f64_rank f64_number
    (λ _ l, f64_number l) (contrib d keep rank_of e).
Proof using E Hd.
  intros Hn Hs. split; cbn [k_blk k_local k_bound k_step k_body k_merge]; try exact _; try done.
  - apply extremum_idem.
  - split; [|done]. apply ex_init.
  - split; [done|]. intros. apply ex_init.
  - intros i l Hl Hi. unfold pick_body. rewrite (rd_total 0) by lia. cbn [mbind outcome_bind].
    assert (in_u64 (nth i d 0)) as Hv.
    { rewrite Forall_forall in Hd. apply Hd, list_elem_of_In, nth_In. lia. }
    eexists. split; [done|]. unfold contrib. destruct (keep _); cbn [andb]; [by apply update_rank|].
    split; [done|]. symmetry. by apply ex_init.
  - intros s i l. apply ex_cell.
  - intros o s. apply ex_cell.
Qed.

Lemma pick_launches n blocks tpb : (n ≤ length d)%nat → (0 < blocks)%nat → (0 < tpb)%nat →
  let k := mkKernel init init n id pick_body cell in
  (∃ h, launch k blocks tpb init h) ∧
  ∀ h, launch k blocks tpb init h → f64_number h ∧ f64_rank h = big mop e rank_of (kept d keep n).
Proof using E Hd.
  intros Hn Hb Ht k. destruct (launch_strided d n blocks tpb Hn Hb Ht k _ _ _ _ _ _ init
    (pick_reduces n (blocks * tpb) Hn ltac:(nia))) as [Hex Hall]; [done..|apply ex_init|done|].
  split; [done|]. intros h Hh. destruct (Hall h Hh) as [Hd' Hv]. split; [done|].
  rewrite (big_contrib d keep n mop e) in Hv by (exact _ || apply extremum_idem).
  rewrite <- Hv. symmetry. by apply ex_init.
Qed.

(** The CPU's fold over the selected values. *)
Lemma pick_fold vals s : Forall in_u64 vals → f64_number s →
  ∃ r, fold_outcome (λ s x, Ret (if upd x s then x else s)) vals s = Ret r ∧
    f64_number r ∧ f64_rank r = mop (f64_rank s) (big mop e rank_of vals).
Proof using E.
  intros Hv. revert s. induction Hv as [|x vals Hx _ IH]; intros s Hs; cbn [fold_outcome].
  { exists s. split_and!; [done..|]. symmetry. by apply ex_init. }
  destruct (update_rank x s Hx Hs) as [Hn Hr]. destruct (IH _ Hn) as (r & Hf & Hr1 & Hr2).
  exists r. split_and!; [done..|]. by rewrite Hr2, Hr, big_cons, (assoc_L mop).
Qed.

Lemma pick_agg op vals : acc_init f64_acc op = init →
  (∀ s x, acc_step f64_acc op s x = Ret (if upd x s then x else s)) → Forall in_u64 vals →
  ∃ r, agg_fold f64_acc op vals = Ret r ∧ f64_number r ∧ f64_rank r = big mop e rank_of vals.
Proof using E.
  intros Hi Hs Hv. destruct (pick_fold vals init Hv) as (r & Hf & Hn & Hr); [apply ex_init|].
  exists r. split_and!; [|done|by rewrite Hr, (big_unit mop e extremum_idem)].
  unfold agg_fold. rewrite Hi. rewrite <- Hf. clear -Hs. generalize init. induction vals as [|x vals IH]; intros s; [done|].
  cbn [fold_outcome]. rewrite Hs. cbn. apply IH.
Qed.

(** Rows whose value contributes nothing may be kept or not. *)
Lemma big_kept n : (∀ x, x ∈ d → keep x = false → rank_of x = e) → (n ≤ length d)%nat →
  big mop e rank_of (kept d keep n) = big mop e rank_of (kept d (λ _, true) n).
Proof using E.
  intros H Hn. rewrite <- !(big_contrib d _ n mop e rank_of) by (exact _ || apply extremum_idem).
  apply big_ext. intros i Hi. apply elem_of_seq in Hi. unfold contrib.
  destruct (keep _) eqn:Ek; [done|]. symmetry. apply H; [|done]. apply list_elem_of_In, nth_In. lia.
Qed.
End extremum.

Lemma all_numbers_kept v x : in_u64 x → matrix_pred_match_f64_dev x GE F64_NEG_INF v = false → f64_is_nan x = true.
Proof.
  intros Hx H. destruct (number_or_nan x Hx) as [|Hn]; [done|]. cbn in H.
  rewrite f64_leb_rank in H by (done || apply f64_inf_number). pose proof (f64_rank_bounds x Hn).
  apply Z.leb_gt in H. lia.
Qed.

(** What the CPU returns for MIN and MAX, by rank. *)
Lemma cpu_reduce_f64_rank `{E : !Extremum mop init upd cell} v pred op hf :
  acc_init f64_acc op = init → (∀ s x, acc_step f64_acc op s x = Ret (if upd x s then x else s)) →
  reads_value op = true → Forall in_u64 v →
  ∃ r, cpu_reduce_f64 v pred op hf = Ret r ∧ f64_number r ∧
    f64_rank r = big mop (f64_rank init) (rank_of (init:=init)) (kept v (λ x, matrix_pred_match_f64_dev x
      (if hf then p_cmp pred else GE) (if hf then p_a pred else F64_NEG_INF) (if hf then p_b pred else F64_ZERO)) (length v)).
Proof.
  intros Hi Hs Hop Hv. unfold cpu_reduce_f64. destruct hf.
  - rewrite (kept_ext _ (λ x, matrix_pred_match_f64 x pred)) by (done || intros; apply pred_dev_f64).
    unfold matrix_cpu_reduce_pred_f64. rewrite reduce_pred_loop by done. rewrite <- kept_where.
    apply pick_agg; [done..|]. by apply select_Forall.
  - unfold matrix_cpu_reduce_all_f64. rewrite Hop.
    rewrite (reduce_loop_select f64_acc (length v) keep_all v op (λ _, true)) by done.
    change (select (λ _, true) v (length v)) with (kept v (λ _, true) (length v)).
    rewrite big_kept; [apply pick_agg; [done..|by apply select_Forall]| |done].
    intros x Hx Hk. unfold rank_of. rewrite Forall_forall in Hv. by rewrite (all_numbers_kept _ _ (Hv x Hx) Hk).
Qed.

(** MIN and MAX of a double column agree with the CPU's as numbers: only which
    of the two zeroes is returned may depend on the interleaving. *)
Theorem gpu_reduce_f64_extremum_matches_cpu v pred op hf :
  op = AGG_MIN ∨ op = AGG_MAX → Forall in_u64 v →
  (∃ h, matrix_gpu_reduce_dev_f64 v (length v) pred op hf h) ∧
  ∀ h, matrix_gpu_reduce_dev_f64 v (length v) pred op hf h →
    ∃ r, cpu_reduce_f64 v pred op hf = Ret r ∧ f64_eqb h r = true.
Proof.
  intros Hop Hv. destruct full_grid as [Hb Ht].
  set (keep := λ x, matrix_pred_match_f64_dev x (if hf then p_cmp pred else GE)
    (if hf then p_a pred else F64_NEG_INF) (if hf then p_b pred else F64_ZERO)).
  assert (∀ (R : Z → Prop) X, (∀ h, R h → f64_number h ∧ f64_rank h = X) →
    (∃ r, cpu_reduce_f64 v pred op hf = Ret r ∧ f64_number r ∧ f64_rank r = X) →
    ∀ h, R h → ∃ r, cpu_reduce_f64 v pred op hf = Ret r ∧ f64_eqb h r = true) as Hsame.
  { intros R X HR (r & Hc & Hn & Hr) h Hh. destruct (HR h Hh) as [Hn' Hr']. exists r. split; [done|].
    rewrite f64_eqb_rank by done. apply Z.eqb_eq. congruence. }
  destruct Hop as [-> | ->].
  - destruct (pick_launches (E:=min_extremum) v keep Hv (length v) BLOCKS TPB (le_n _) Hb Ht) as [He Ha].
    split; [exact He|]. apply (Hsame _ _ Ha). by apply (cpu_reduce_f64_rank (E:=min_extremum)).
  - destruct (pick_launches (E:=max_extremum) v keep Hv (length v) BLOCKS TPB (le_n _) Hb Ht) as [He Ha].
    split; [exact He|]. apply (Hsame _ _ Ha). by apply (cpu_reduce_f64_rank (E:=max_extremum)).
Qed.

(** *** The vector and the items-per-thread scans

    Both count what [matrix_scan_kernel_u32] counts; only the rows a thread
    visits in one turn of its loop differ. *)

Section wide_scans.
Context (d : list Z) (threshold : Z).

(** One row's count, and what a turn that visits [rows] adds. *)
Let hit : nat → Z := contrib d (λ v, threshold <? v) (λ _, 1) 0.
Definition hits (rows : list nat) : Z := big atomicAdd 0 hit rows.

Lemma hits_cons i rows : hits (i :: rows) = u64 (hit i + hits rows).
Proof using Type. done. Qed.

Lemma hit_b2z i : hit i = Z.b2z (threshold <? nth i d 0).
Proof using Type. unfold hit, contrib. by destruct (_ <? _). Qed.

Lemma hits_u64 rows : u64 (hits rows) = hits rows.
Proof using Type. destruct rows; [done|]. rewrite hits_cons. apply u64_idem. Qed.

(** A count kernel whose turn at [i] adds the hits of [visits i]. *)
Lemma scan_reduces (n : nat) step body visits stride :
  (0 < step stride)%nat →
  (∀ i l, (i < n)%nat → ∃ l', body stride i l = Ret l' ∧ u64 l' = atomicAdd (u64 l) (hits (visits i))) →
  Reduces (mkKernel 0 0 n step body atomicAdd) stride atomicAdd 0 u64 in_u64 (λ _ _, True) (λ i, hits (visits i)).
Proof using Type.
  intros Hs Hbody. split; cbn [k_blk k_local k_bound k_step k_body k_merge]; try exact _; try done.
  - intros i l _ Hi. destruct (Hbody i l Hi) as (l' & Hl & Ha). eauto.
  - intros s i l _ _. split; [apply u64_range|]. apply u64_of_atomicAdd.
  - intros o s _ _. split; [apply u64_range|]. apply u64_of_atomicAdd.
Qed.

(** If the turns of all threads visit every row of [n] once, the launch counts them. *)
Lemma scan_launches (bound : nat) step body visits (blocks tpb n : nat) :
  (0 < blocks)%nat → (0 < tpb)%nat → (0 < step (blocks * tpb))%nat →
  (∀ i l, (i < bound)%nat → ∃ l', body (blocks * tpb)%nat i l = Ret l' ∧ u64 l' = atomicAdd (u64 l) (hits (visits i))) →
  concat (map visits (concat (map (rows_from (step (blocks * tpb)%nat) bound) (seq 0 (blocks * tpb))))) ≡ₚ seq 0 n →
  launches_to (mkKernel 0 0 bound step body atomicAdd) blocks tpb 0
    (u64 (Z.of_nat (length (kept d (λ v, threshold <? v) n)))).
Proof using Type.
  intros Hb Ht Hs Hbody Hcover. pose proof (scan_reduces bound step body visits _ Hs Hbody) as R.
  destruct (launch_correct (R:=R) blocks tpb 0 Ht eq_refl) as [Hex Hall]; [done|].
  split; [done|]. intros out Hl. destruct (Hall out Hl) as [Hd Hv].
  rewrite <- atomicAdd_zero in Hv. cbn [k_step k_bound] in Hv.
  assert (atomicAdd 0 0 = 0) as Hid by done.
  rewrite <- (big_map atomicAdd 0 hits visits), <- (big_concat atomicAdd 0 Hid hit), (big_perm _ _ Hid _ _ _ Hcover) in Hv.
  unfold hit in Hv. rewrite (big_contrib d _ n atomicAdd 0 (λ _, 1)), big_ones, <- (u64_atomicAdd 0) in Hv by (exact _ || done).
  rewrite Z.add_0_l in Hv. by rewrite <- Hv, u64_small.
Qed.

Lemma concat_fours m : concat (map (λ i, seq (4 * i) 4) (seq 0 m)) = seq 0 (4 * m).
Proof using Type.
  induction m as [|m IH]; [done|]. rewrite seq_S, map_app, concat_app, IH. cbn [map concat Nat.add].
  replace (4 * S m)%nat with (4 * m + 4)%nat by lia. by rewrite seq_app, app_nil_r.
Qed.

Lemma u32x4_launches n4 blocks tpb : (4 * n4 ≤ length d)%nat → (0 < blocks)%nat → (0 < tpb)%nat →
  launches_to (matrix_scan_kernel_u32x4 d n4 threshold) blocks tpb 0
    (u64 (Z.of_nat (length (kept d (λ v, threshold <? v) (4 * n4))))).
Proof using Type.
  intros Hn Hb Ht. apply scan_launches with (visits := λ i, seq (4 * i) 4); [done..|unfold id; nia| |].
  - intros i l Hi. unfold count_four. rewrite !(rd_total 0) by lia. cbn [mbind outcome_bind].
    eexists. split; [done|]. rewrite u64_idem, u64_atomicAdd. f_equal. generalize (4 * i)%nat. intros j.
    rewrite !(Nat.add_comm j). cbn [seq Nat.add]. unfold hits. rewrite !big_cons, !hit_b2z. cbn [big foldr].
    unfold atomicAdd. rewrite Z.add_0_r, !u64_add_r, !Z.add_assoc, u64_add_r. by rewrite !Z.add_assoc.
  - unfold id. rewrite <- concat_fours. rewrite (Permutation_map _ (grid_covers (blocks * tpb) n4 ltac:(nia))). done.
Qed.

Lemma load_items_spec items stride n base : (n ≤ length d)%nat →
  load_items items stride n d base
  = Ret (map (λ k, if (base + k * stride <? n)%nat then nth (base + k * stride) d 0 else 0) (seq 0 items)).
Proof using Type.
  intros Hn. unfold load_items. set (f := λ k, if (_ <? n)%nat then _ else 0).
  induction items as [|m IH]; [done|]. rewrite seq_S, fold_outcome_app, IH, map_app. cbn [mbind outcome_bind fold_outcome map Nat.add].
  unfold f. destruct (Nat.ltb_spec (base + m * stride) n); [rewrite (rd_total 0) by lia|]; reflexivity.
Qed.

Lemma count_items_spec items stride n base l : (n ≤ length d)%nat →
  ∃ l', count_items items n d threshold stride base l = Ret l' ∧
    u64 l' = atomicAdd (u64 l) (hits (striped items stride n base)).
Proof using Type.
  intros Hn. unfold count_items. rewrite load_items_spec by done. cbn [mbind outcome_bind].
  set (reg := map _ _). unfold striped.
  assert (∀ k, (k < items)%nat → rd reg k = Ret (if (base + k * stride <? n)%nat then nth (base + k * stride) d 0 else 0)) as Hreg.
  { intros k Hk. apply rd_lookup. unfold reg. rewrite list_lookup_fmap, lookup_seq_lt by done. done. }
  assert (Forall (λ k, (k < items)%nat) (seq 0 items)) as Hks.
  { apply Forall_forall. intros k Hk. apply elem_of_seq in Hk. lia. }
  clearbody reg. revert l. induction Hks as [|k ks Hk _ IH]; intros l; cbn [fold_outcome map List.filter].
  { exists l. split; [done|]. apply atomicAdd_zero. }
  rewrite (Hreg k Hk). destruct (base + k * stride <? n)%nat; cbn [mbind outcome_bind]; [|apply IH].
  destruct (IH (u64 (l + Z.b2z (threshold <? nth (base + k * stride) d 0)))) as (l' & Hf & Ha).
  exists l'. split; [exact Hf|]. rewrite Ha, u64_idem, hits_cons, hit_b2z.
  unfold atomicAdd. rewrite !u64_add_l, !u64_add_r. f_equal. lia.
Qed.

Lemma ipt_launches items n blocks tpb : (n ≤ length d)%nat → (0 < items)%nat → (0 < blocks)%nat → (0 < tpb)%nat →
  launches_to (matrix_scan_kernel_ipt items d n threshold) blocks tpb 0
    (u64 (Z.of_nat (length (kept d (λ v, threshold <? v) n)))).
Proof using Type.
  intros Hn Hi Hb Ht. apply scan_launches with (visits := striped items (blocks * tpb) n); [done..|nia| |].
  - intros i l _. by apply count_items_spec.
  - apply striped_covers; [nia|done].
Qed.
End wide_scans.

(** The four filter-count kernels, on a grid of any shape, leave exactly the
    CPU's count: every row is visited by one thread, once, however the kernel
    assigns rows to threads. *)
Theorem gpu_scans_match_cpu v threshold blocks tpb items :
  (0 < blocks)%nat → (0 < tpb)%nat → (0 < items)%nat →
  ∃ r, matrix_cpu_reduce v (length v) threshold AGG_COUNT = Ret r ∧
    launches_to (matrix_scan_kernel v (length v) threshold) blocks tpb 0 r ∧
    launches_to (matrix_scan_kernel_u32 v (length v) threshold) blocks tpb 0 r ∧
    launches_to (matrix_scan_kernel_ipt items v (length v) threshold) blocks tpb 0 r ∧
    ∀ n4, length v = (4 * n4)%nat → launches_to (matrix_scan_kernel_u32x4 v n4 threshold) blocks tpb 0 r.
Proof.
  intros Hb Ht Hi. eexists. split; [apply reduce_threshold|]. split_and!.
  - by apply count_launches.
  - by apply count_launches.
  - by apply ipt_launches.
  - intros n4 Hn. rewrite Hn. apply u32x4_launches; [lia|done..].
Qed.

Lemma gpu_reduce_u32_matches_cpu_witness :
  let v := [5; 7; 9] in
  Forall in_u32 v ∧ ∃ h, matrix_gpu_reduce_dev_u32 v 3 (mkPred GT 5 0) AGG_SUM true h ∧ h = 16.
Proof.
  intros v. assert (Forall in_u32 v) as Hv by (repeat constructor; unfold in_u32; lia). split; [exact Hv|].
  destruct (gpu_reduce_u32_matches_cpu v (mkPred GT 5 0) AGG_SUM true Hv) as [[h Hh] Hall]; [reflexivity|].
  exists h. split; [exact Hh|]. specialize (Hall h Hh). vm_compute in Hall. injection Hall as <-. reflexivity.
Defined.
