(* ===== verification/GpuGroup.v ===== *)
(** * GpuGroup: the GROUP BY kernels of [compute_cuda.cuh]

    A grouped kernel has no barrier and no shared memory: each thread strides
    over the rows and makes one atomic on the slot of the row's group.  A
    [Scatter] gives the row's target and the atomic; a run is any interleaving
    of the threads' rows.  For every interleaving the slots end with what the
    CPU's grouped reducer computes ([group_loop] of [Reducers]), exactly for
    u32 and int64, and as numbers for MIN and MAX over doubles.  A NaN that
    passes a NE predicate breaks the last: the atomics of doubles store it. *)

From S2P Require Export GpuKernels.

(** ** Scatter kernels *)

Record Scatter := mkScatter {
  s_bound : nat;
  s_row : nat → outcome (option (nat * Z));   (* the slot the row goes to, and its value *)
  s_atomic : Z → Z → Z
}.

Record Slots := mkSlots { sl_out : list Z; sl_at : list nat }.

(** Thread [t] handles its next row. *)
Definition scatter_step (k : Scatter) (stride t : nat) (s : Slots) : option Slots :=
  i ← sl_at s !! t;
  let next := <[t := (i + stride)%nat]> (sl_at s) in
  if (i <? s_bound k)%nat then
    match s_row k i with
    | Ret None => Some (mkSlots (sl_out s) next)
    | Ret (Some (g, x)) => old ← sl_out s !! g; Some (mkSlots (<[g := s_atomic k old x]> (sl_out s)) next)
    | Crash _ => None
    end
  else None.

Definition slots_step (k : Scatter) (stride : nat) (s s' : Slots) : Prop :=
  ∃ t, scatter_step k stride t s = Some s'.

Definition all_done (k : Scatter) (s : Slots) : Prop := Forall (λ i, (s_bound k ≤ i)%nat) (sl_at s).

Definition fresh_slots (threads : nat) (out : list Z) : Slots := mkSlots out (seq 0 threads).

Definition launch_slots (k : Scatter) (blocks tpb : nat) (out out' : list Z) : Prop :=
  ∃ s, rtc (slots_step k (blocks * tpb)) (fresh_slots (blocks * tpb) out) s ∧ all_done k s ∧ sl_out s = out'.

(** [abs] maps the slots to a commutative monoid in which the atomic adds the
    value [val] of the row. *)
Class Scatters (k : Scatter) (G : nat) (mop : Z → Z → Z) (e : Z) (abs : Z → Z) (dom : Z → Prop)
    (target : nat → option (nat * Z)) (val : Z → Z) : Prop := {
  sc_assoc :: Assoc (=) mop;
  sc_comm :: Comm (=) mop;
  sc_idem : mop e e = e;
  sc_row i : (i < s_bound k)%nat → s_row k i = Ret (target i);
  sc_slot i g x : (i < s_bound k)%nat → target i = Some (g, x) → (g < G)%nat;
  sc_unit s : dom s → mop (abs s) e = abs s;
  sc_atomic i g x s : (i < s_bound k)%nat → target i = Some (g, x) → dom s →
    dom (s_atomic k s x) ∧ abs (s_atomic k s x) = mop (abs s) (val x)
}.

Section scatters.
Context {k : Scatter} {G : nat} {mop : Z → Z → Z} {e : Z} {abs : Z → Z} {dom : Z → Prop}.
Context {target : nat → option (nat * Z)} {val : Z → Z}.
Context `{R : !Scatters k G mop e abs dom target val}.
Context (stride : nat).
Hypothesis Hstride : (0 < stride)%nat.

Let idem : mop e e = e := @sc_idem _ _ _ _ _ _ _ _ R.
Let bound := s_bound k.

(** What row [i] adds to slot [g]. *)
Definition adds (g i : nat) : Z :=
  match target i with Some (g', x) => if (g' =? g)%nat then val x else e | None => e end.

Definition slot_total (g : nat) (s : Slots) (x : Z) : Z :=
  mop (abs x) (big mop e (λ i, big mop e (adds g) (rows_from stride bound i)) (sl_at s)).

Definition rows_left (i : nat) : nat := length (rows_from stride bound i).

Definition slots_ok (s : Slots) : Prop := length (sl_out s) = G ∧ Forall dom (sl_out s).

(** A row moves from the thread to its slot; no other slot changes. *)
Lemma step_total s s' : slots_ok s → slots_step k stride s s' →
  slots_ok s' ∧ S (total rows_left (sl_at s')) = total rows_left (sl_at s) ∧
  ∀ g x, sl_out s !! g = Some x → ∃ x', sl_out s' !! g = Some x' ∧ slot_total g s' x' = slot_total g s x.
Proof using R Hstride.
  intros [Hlen Hdom] (t & H). unfold scatter_step in H. destruct (sl_at s !! t) as [i|] eqn:Ht; [|done].
  cbn [mbind option_bind] in H. destruct (Nat.ltb_spec i (s_bound k)) as [Hi|]; [|done].
  pose proof (rows_next stride bound i Hstride Hi) as Hrows.
  assert (S (total rows_left (<[t := (i + stride)%nat]> (sl_at s))) = total rows_left (sl_at s)) as Hleft.
  { pose proof (total_update rows_left (sl_at s) (i + stride)%nat t i Ht) as Hu.
    unfold rows_left in Hu at 2 4. rewrite (Permutation_length Hrows) in Hu. cbn [length] in Hu. lia. }
  assert (∀ g x x', abs x' = mop (abs x) (adds g i) →
    mop (abs x') (big mop e (λ i, big mop e (adds g) (rows_from stride bound i)) (<[t := (i + stride)%nat]> (sl_at s)))
    = slot_total g s x) as Hmove.
  { intros g x x' Hx. unfold slot_total.
    rewrite (big_insert mop e idem _ _ _ _ _ Ht), (big_delete mop e idem _ (sl_at s) _ _ Ht).
    by rewrite (big_perm mop e idem (adds g) _ _ Hrows), big_cons, Hx, !(assoc_L mop). }
  assert (∀ g x, sl_out s !! g = Some x → adds g i = e → abs x = mop (abs x) (adds g i)) as Hsame.
  { intros g x Hx ->. symmetry. apply sc_unit. by apply (Forall_lookup_1 _ _ _ _ Hdom Hx). }
  rewrite (sc_row i Hi) in H. destruct (target i) as [[g0 x0]|] eqn:Etg.
  - destruct (sl_out s !! g0) as [old|] eqn:Eold; [|done]. cbn in H. simplify_eq.
    destruct (sc_atomic i g0 x0 old Hi Etg (Forall_lookup_1 _ _ _ _ Hdom Eold)) as [Hd Ha].
    split_and!; [split; cbn [sl_out]; [by rewrite length_insert|by apply Forall_insert]|done|].
    intros g x Hx. unfold slot_total at 1. cbn [sl_out sl_at]. destruct (decide (g0 = g)) as [->|Hne].
    + assert (x = old) as -> by congruence. eexists. split; [apply list_lookup_insert_eq; by eapply lookup_lt_Some|].
      apply Hmove. unfold adds. by rewrite Etg, Nat.eqb_refl.
    + exists x. rewrite list_lookup_insert_ne by done. split; [done|]. apply Hmove, Hsame; [done|].
      unfold adds. rewrite Etg. by destruct (Nat.eqb_spec g0 g).
  - simplify_eq. split_and!; [done|done|]. intros g x Hx. exists x. split; [done|].
    unfold slot_total at 1. cbn [sl_out sl_at]. apply Hmove, Hsame; [done|]. unfold adds. by rewrite Etg.
Qed.

Lemma scatter_progress s : slots_ok s → all_done k s ∨ ∃ s', slots_step k stride s s'.
Proof using R Hstride.
  intros [Hlen Hdom]. destruct (decide (all_done k s)) as [|Hn]; [by left|right].
  apply not_Forall_Exists in Hn; [|intros; apply _]. apply Exists_exists in Hn as (i & [t Ht]%list_elem_of_lookup & Hi).
  cbn in Hi. exists (default s (scatter_step k stride t s)), t. unfold scatter_step. rewrite Ht. cbn [mbind option_bind].
  destruct (Nat.ltb_spec i (s_bound k)); [|lia]. rewrite sc_row by done.
  destruct (target i) as [[g x]|] eqn:Etg; [|done].
  destruct (lookup_lt_is_Some_2 (sl_out s) g) as [old ->]; [|done]. rewrite Hlen. by eapply sc_slot.
Qed.

Lemma slots_run n s s' : slots_ok s → nsteps (slots_step k stride) n s s' →
  slots_ok s' ∧ (n + total rows_left (sl_at s') = total rows_left (sl_at s))%nat ∧
  ∀ g x, sl_out s !! g = Some x → ∃ x', sl_out s' !! g = Some x' ∧ slot_total g s' x' = slot_total g s x.
Proof using R Hstride.
  intros Hok. induction 1 as [s|n s s1 s' Hs _ IH]; [split_and!; [done|lia|eauto]|].
  destruct (step_total _ _ Hok Hs) as (Hok1 & Ht1 & Hv1). destruct (IH Hok1) as (Hok' & Ht & Hv).
  split_and!; [done|lia|]. intros g x Hx. destruct (Hv1 g x Hx) as (x1 & Hx1 & E1).
  destruct (Hv g x1 Hx1) as (x2 & Hx2 & E2). exists x2. split; [done|congruence].
Qed.

Lemma slots_to_end s : slots_ok s → ∃ s', rtc (slots_step k stride) s s' ∧ all_done k s'.
Proof using R Hstride.
  remember (total rows_left (sl_at s)) as n eqn:Hn. revert s Hn.
  induction n as [n IH] using lt_wf_ind. intros s -> Hok.
  destruct (scatter_progress s Hok) as [|(s1 & Hs)]; [by exists s|].
  destruct (step_total _ _ Hok Hs) as (Hok1 & Ht & _).
  destruct (IH (total rows_left (sl_at s1)) ltac:(lia) s1 eq_refl Hok1) as (s' & Hr & He).
  exists s'. split; [by eapply rtc_l|done].
Qed.
End scatters.

(** Every launch ends, after one step a row, and every launch that ends leaves
    in slot [g] the sum of what the rows add to it. *)
Lemma launch_slots_correct {k G mop e abs} {dom : Z → Prop} {target val} `{R : !Scatters k G mop e abs dom target val} blocks tpb out :
  (0 < blocks)%nat → (0 < tpb)%nat → length out = G → Forall dom out →
  (∃ out', launch_slots k blocks tpb out out') ∧
  ∀ out', launch_slots k blocks tpb out out' → length out' = G ∧ Forall dom out' ∧
    ∀ g x, out !! g = Some x → ∃ x', out' !! g = Some x' ∧
      abs x' = mop (abs x) (big mop e (adds (e:=e) (target:=target) (val:=val) g) (seq 0 (s_bound k))).
Proof.
  intros Hb Ht Hlen Hdom. set (stride := (blocks * tpb)%nat). assert (0 < stride)%nat as Hs by (unfold stride; nia).
  assert (slots_ok (G:=G) (dom:=dom) (fresh_slots stride out)) as Hok by done.
  pose proof (sc_idem (Scatters:=R)) as Hid. split.
  { destruct (slots_to_end (R:=R) stride Hs _ Hok) as (s & Hr & He). by exists (sl_out s), s. }
  intros out' (s & [n Hr]%rtc_nsteps & He & <-).
  destruct (slots_run (R:=R) stride Hs n _ _ Hok Hr) as ([Hlen' Hdom'] & _ & Hv). split_and!; [done..|].
  intros g x Hx. destruct (Hv g x Hx) as (x' & Hx' & Htot). exists x'. split; [done|].
  unfold slot_total in Htot. cbn [sl_out sl_at fresh_slots] in Htot.
  rewrite (big_all_unit mop e Hid) in Htot.
  2:{ intros i [t Hi]%list_elem_of_lookup. by rewrite rows_end by (by apply (Forall_lookup_1 _ _ _ _ He Hi)). }
  rewrite (sc_unit _ (Forall_lookup_1 _ _ _ _ Hdom' Hx')) in Htot. rewrite Htot. f_equal.
  rewrite <- (big_map mop e (big mop e _) (rows_from stride (s_bound k))), <- (big_concat mop e Hid).
  apply (big_perm mop e Hid). by apply grid_covers.
Qed.

(** ** The kernels *)

Section rows.
Context (keys : list Z) (G : Z) (keep : nat → outcome bool) (val : nat → outcome Z).

Definition group_row (i : nat) : outcome (option (nat * Z)) :=
  k ← rd keys i;
  if k <? G then
    b ← keep i;
    if (b : bool) then x ← val i; Ret (Some (Z.to_nat k, x)) else Ret None
  else Ret None.
End rows.

Definition one_u64 (_ : nat) : outcome Z := Ret 1.
Definition one_f64 (_ : nat) : outcome Z := Ret F64_ONE.

Definition matrix_group_count_kernel (keys : list Z) (n : nat) (G : Z) : Scatter :=
  mkScatter n (group_row keys G keep_all one_u64) atomicAdd.

Definition matrix_group_sum_kernel (keys vals : list Z) (n : nat) (G : Z) : Scatter :=
  mkScatter n (group_row keys G keep_all (rd vals)) atomicAdd.

Definition matrix_group_min_kernel (keys vals : list Z) (n : nat) (G : Z) : Scatter :=
  mkScatter n (group_row keys G keep_all (rd vals)) atomicMin.

Definition matrix_group_max_kernel (keys vals : list Z) (n : nat) (G : Z) : Scatter :=
  mkScatter n (group_row keys G keep_all (rd vals)) atomicMax.

Definition matrix_group_count_kernel_pred (keys vals : list Z) (n : nat) (G : Z) (c : MatrixCmp) (a b : Z) : Scatter :=
  mkScatter n (group_row keys G (keep_value (λ v, matrix_pred_match_dev v c a b) vals) one_u64) atomicAdd.

Definition matrix_group_sum_kernel_pred (keys vals : list Z) (n : nat) (G : Z) (c : MatrixCmp) (a b : Z) : Scatter :=
  mkScatter n (group_row keys G (keep_value (λ v, matrix_pred_match_dev v c a b) vals) (rd vals)) atomicAdd.

Definition matrix_group_min_kernel_pred (keys vals : list Z) (n : nat) (G : Z) (c : MatrixCmp) (a b : Z) : Scatter :=
  mkScatter n (group_row keys G (keep_value (λ v, matrix_pred_match_dev v c a b) vals) (rd vals)) atomicMin.

Definition matrix_group_max_kernel_pred (keys vals : list Z) (n : nat) (G : Z) (c : MatrixCmp) (a b : Z) : Scatter :=
  mkScatter n (group_row keys G (keep_value (λ v, matrix_pred_match_dev v c a b) vals) (rd vals)) atomicMax.

Definition matrix_group_count_kernel_i64 (keys vals : list Z) (n : nat) (G : Z) (c : MatrixCmp) (a b : Z) : Scatter :=
  mkScatter n (group_row keys G (keep_value (λ v, matrix_pred_match_i64_dev v c a b) vals) one_u64) atomicAdd.

Definition matrix_group_sum_kernel_i64 (keys vals : list Z) (n : nat) (G : Z) (c : MatrixCmp) (a b : Z) : Scatter :=
  mkScatter n (group_row keys G (keep_value (λ v, matrix_pred_match_i64_dev v c a b) vals) (rd vals)) atomicAdd.

Definition matrix_group_min_kernel_i64 (keys vals : list Z) (n : nat) (G : Z) (c : MatrixCmp) (a b : Z) : Scatter :=
  mkScatter n (group_row keys G (keep_value (λ v, matrix_pred_match_i64_dev v c a b) vals) (rd vals)) atomicMin.

Definition matrix_group_max_kernel_i64 (keys vals : list Z) (n : nat) (G : Z) (c : MatrixCmp) (a b : Z) : Scatter :=
  mkScatter n (group_row keys G (keep_value (λ v, matrix_pred_match_i64_dev v c a b) vals) (rd vals)) atomicMax.

Definition matrix_group_count_kernel_f64 (keys vals : list Z) (n : nat) (G : Z) (c : MatrixCmp) (a b : Z) : Scatter :=
  mkScatter n (group_row keys G (keep_value (λ v, matrix_pred_match_f64_dev v c a b) vals) one_f64) atomicAddDouble.

Definition matrix_group_sum_kernel_f64 (keys vals : list Z) (n : nat) (G : Z) (c : MatrixCmp) (a b : Z) : Scatter :=
  mkScatter n (group_row keys G (keep_value (λ v, matrix_pred_match_f64_dev v c a b) vals) (rd vals)) atomicAddDouble.

Definition matrix_group_min_kernel_f64 (keys vals : list Z) (n : nat) (G : Z) (c : MatrixCmp) (a b : Z) : Scatter :=
  mkScatter n (group_row keys G (keep_value (λ v, matrix_pred_match_f64_dev v c a b) vals) (rd vals)) atomicMinDouble.

Definition matrix_group_max_kernel_f64 (keys vals : list Z) (n : nat) (G : Z) (c : MatrixCmp) (a b : Z) : Scatter :=
  mkScatter n (group_row keys G (keep_value (λ v, matrix_pred_match_f64_dev v c a b) vals) (rd vals)) atomicMaxDouble.

(** ** Host wrappers

    [out_host] receives the slots as 64-bit patterns. *)

Definition matrix_gpu_group_reduce_dev (keys vals : list Z) (n : nat) (G : Z) (op : MatrixAggOp)
    (pred : MatrixPredicate) (has_filter : bool) (out : list Z) : Prop :=
  let init := replicate (Z.to_nat G) (cudaMemset (match op with AGG_MIN => Byte.xff | _ => Byte.x00 end)) in
  let c := p_cmp pred in let a := p_a pred in let b := p_b pred in
  let run k := launch_slots k BLOCKS TPB init out in
  if has_filter then
    match op with
    | AGG_SUM => run (matrix_group_sum_kernel_pred keys vals n G c a b)
    | AGG_MIN => run (matrix_group_min_kernel_pred keys vals n G c a b)
    | AGG_MAX => run (matrix_group_max_kernel_pred keys vals n G c a b)
    | _ => run (matrix_group_count_kernel_pred keys vals n G c a b)
    end
  else
    match op with
    | AGG_SUM => run (matrix_group_sum_kernel keys vals n G)
    | AGG_MIN => run (matrix_group_min_kernel keys vals n G)
    | AGG_MAX => run (matrix_group_max_kernel keys vals n G)
    | _ => run (matrix_group_count_kernel keys n G)
    end.

Definition matrix_gpu_group_reduce_dev_i64 (keys vals : list Z) (n : nat) (G : Z) (op : MatrixAggOp)
    (pred : MatrixPredicate) (has_filter : bool) (out_host : list Z) : Prop :=
  let init := replicate (Z.to_nat G) (match op with AGG_MIN => INT64_MAX | AGG_MAX => INT64_MIN | _ => 0 end) in
  let c := if has_filter then p_cmp pred else GE in
  let a := if has_filter then p_a pred else INT64_MIN in
  let b := if has_filter then p_b pred else 0 in
  ∃ out, out_host = map u64 out ∧
  launch_slots
    match op with
    | AGG_SUM => matrix_group_sum_kernel_i64 keys vals n G c a b
    | AGG_MIN => matrix_group_min_kernel_i64 keys vals n G c a b
    | AGG_MAX => matrix_group_max_kernel_i64 keys vals n G c a b
    | _ => matrix_group_count_kernel_i64 keys vals n G c a b
    end BLOCKS TPB init out.

Definition matrix_gpu_group_reduce_dev_f64 (keys vals : list Z) (n : nat) (G : Z) (op : MatrixAggOp)
    (pred : MatrixPredicate) (has_filter : bool) (out_host : list Z) : Prop :=
  let init := replicate (Z.to_nat G) (match op with AGG_MIN => F64_INF | AGG_MAX => F64_NEG_INF | _ => F64_ZERO end) in
  let c := if has_filter then p_cmp pred else GE in
  let a := if has_filter then p_a pred else F64_NEG_INF in
  let b := if has_filter then p_b pred else F64_ZERO in
  launch_slots
    match op with
    | AGG_SUM => matrix_group_sum_kernel_f64 keys vals n G c a b
    | AGG_MIN => matrix_group_min_kernel_f64 keys vals n G c a b
    | AGG_MAX => matrix_group_max_kernel_f64 keys vals n G c a b
    | _ => matrix_group_count_kernel_f64 keys vals n G c a b
    end BLOCKS TPB init out_host.

(** ** What the slots end with *)

Section group_launch.
Context (keys : list Z) (G : Z) (n blocks tpb : nat).
Hypothesis Hkeys : Forall (λ k, 0 ≤ k) keys.
Hypothesis Hn : (n ≤ length keys)%nat.
Hypothesis Hblocks : (0 < blocks)%nat.
Hypothesis Htpb : (0 < tpb)%nat.
Context (keep : nat → outcome bool) (val : nat → outcome Z) (kb : nat → bool) (f : nat → Z).
Hypothesis Hkeep : ∀ i, (i < n)%nat → keep i = Ret (kb i).
Hypothesis Hval : ∀ i, (i < n)%nat → val i = Ret (f i).

Definition group_target (i : nat) : option (nat * Z) :=
  if (nth i keys 0 <? G) && kb i then Some (Z.to_nat (nth i keys 0), f i) else None.

(** The rows of group [g] that the kernel keeps. *)
Definition rows_of (g : Z) : list nat := List.filter (row_in_group keys kb (λ _, false) g) (seq 0 n).

Context (atomic mop : Z → Z → Z) (e : Z) (abs vabs : Z → Z) (dom : Z → Prop) (init : Z).
Context `{!Assoc (=) mop, !Comm (=) mop}.
Hypothesis Hidem : mop e e = e.
Hypothesis Hunit : ∀ s, dom s → mop (abs s) e = abs s.
Hypothesis Hatomic : ∀ i s, (i < n)%nat → kb i = true → dom s →
  dom (atomic s (f i)) ∧ abs (atomic s (f i)) = mop (abs s) (vabs (f i)).
Hypothesis Hinit : dom init ∧ abs init = e.

Lemma key_pos i : (i < n)%nat → 0 ≤ nth i keys 0.
Proof using Hkeys Hn. intros Hi. eapply Forall_nth_nonneg; [exact Hkeys|exact Hn|exact Hi]. Qed.

Lemma group_scatters : Scatters (mkScatter n (group_row keys G keep val) atomic) (Z.to_nat G)
  mop e abs dom group_target vabs.
Proof using All.
  split; cbn [s_bound s_row s_atomic]; try exact _; try done.
  - intros i Hi. unfold group_row, group_target. rewrite (rd_total 0) by lia. cbn [mbind outcome_bind].
    destruct (nth i keys 0 <? G); [|done]. rewrite Hkeep by done. cbn. destruct (kb i); [|done]. by rewrite Hval.
  - intros i g x Hi. unfold group_target. destruct (Z.ltb_spec (nth i keys 0) G); [|done]. cbn.
    destruct (kb i); [|done]. intros [= <- _]. pose proof (key_pos i Hi). lia.
  - intros i g x s Hi. unfold group_target. destruct (nth i keys 0 <? G); [|done]. cbn.
    destruct (kb i) eqn:E; [|done]. intros [= _ <-]. by apply Hatomic.
Qed.

Lemma adds_rows g : 0 ≤ g < G →
  big mop e (adds (e:=e) (target:=group_target) (val:=vabs) (Z.to_nat g)) (seq 0 n)
  = big mop e (λ i, vabs (f i)) (rows_of g).
Proof using All.
  intros Hg. unfold rows_of. rewrite <- (big_filter mop e Hidem). apply big_ext. intros i Hi.
  apply elem_of_seq in Hi. pose proof (key_pos i ltac:(lia)) as Hk. unfold adds, group_target, row_in_group. cbn [negb andb].
  destruct (kb i); [|by rewrite andb_false_r]. rewrite andb_true_r. cbn [andb].
  destruct (Z.ltb_spec (nth i keys 0) G), (Z.eqb_spec (nth i keys 0) g);
    try (destruct (Nat.eqb_spec (Z.to_nat (nth i keys 0)) (Z.to_nat g))); done || lia.
Qed.

Lemma group_launch : let k := mkScatter n (group_row keys G keep val) atomic in
  (∃ out, launch_slots k blocks tpb (replicate (Z.to_nat G) init) out) ∧
  ∀ out, launch_slots k blocks tpb (replicate (Z.to_nat G) init) out → length out = Z.to_nat G ∧
    ∀ g, 0 ≤ g < G → ∃ x, out !! Z.to_nat g = Some x ∧ dom x ∧ abs x = big mop e (λ i, vabs (f i)) (rows_of g).
Proof using All.
  intros k. destruct Hinit as [Hd He].
  destruct (launch_slots_correct (R:=group_scatters) blocks tpb (replicate (Z.to_nat G) init)) as [Hex Hall];
    [done|done|apply length_replicate|by apply Forall_replicate|].
  split; [exact Hex|]. intros out Hl. destruct (Hall out Hl) as (Hlen & Hdom & Hslot). split; [done|].
  intros g Hg. destruct (Hslot (Z.to_nat g) init) as (x & Hx & Ha); [apply lookup_replicate_2; lia|].
  exists x. split; [done|]. split; [by apply (Forall_lookup_1 _ _ _ _ Hdom Hx)|].
  rewrite Ha, He, (big_unit mop e Hidem). cbn [s_bound]. by apply adds_rows.
Qed.
End group_launch.

(** Every launch ends, and with [res g] in slot [g]. *)
Definition launches_slots (k : Scatter) (G : Z) (blocks tpb : nat) (init : Z) (res : Z → Z) : Prop :=
  (∃ out, launch_slots k blocks tpb (replicate (Z.to_nat G) init) out) ∧
  ∀ out, launch_slots k blocks tpb (replicate (Z.to_nat G) init) out → length out = Z.to_nat G ∧
    ∀ g, 0 ≤ g < G → out !! Z.to_nat g = Some (res g).

Section integer_slots.
Context (keys : list Z) (G : Z) (n blocks tpb : nat).
Hypothesis Hkeys : Forall (λ k, 0 ≤ k) keys.
Hypothesis Hn : (n ≤ length keys)%nat.
Hypothesis Hblocks : (0 < blocks)%nat.
Hypothesis Htpb : (0 < tpb)%nat.
Context (keep : nat → outcome bool) (val : nat → outcome Z) (kb : nat → bool) (f : nat → Z).
Hypothesis Hkeep : ∀ i, (i < n)%nat → keep i = Ret (kb i).
Hypothesis Hval : ∀ i, (i < n)%nat → val i = Ret (f i).

Let group (g : Z) : list Z := map f (rows_of keys n kb g).

Lemma integer_launch mop e (dom : Z → Prop) res :
  Assoc (=) mop → Comm (=) mop → mop e e = e → (∀ s, dom s → mop s e = s) → (∀ s x, dom s → dom (mop s x)) →
  dom e → (∀ l, big mop e id l = res l) →
  launches_slots (mkScatter n (group_row keys G keep val) mop) G blocks tpb e (λ g, res (group g)).
Proof using All.
  intros Ha Hc Hid Hunit Hdom Hinit Hres.
  destruct (group_launch keys G n blocks tpb Hkeys Hn Hblocks Htpb keep val kb f Hkeep Hval mop mop e id id dom e
    Hid Hunit) as [Hex Hall]; [by auto|done|]. split; [exact Hex|].
  intros out Hl. destruct (Hall out Hl) as [Hlen Hslot]. split; [done|]. intros g Hg.
  destruct (Hslot g Hg) as (x & -> & _ & Hx). f_equal. rewrite <- Hres. unfold group. by rewrite big_map.
Qed.

Lemma add_slots : launches_slots (mkScatter n (group_row keys G keep val) atomicAdd) G blocks tpb 0
  (λ g, u64 (sum_list_Z (group g))).
Proof using All.
  apply (integer_launch atomicAdd 0 in_u64 (λ l, u64 (sum_list_Z l))); try exact _; try done.
  - intros s Hs. unfold atomicAdd. by rewrite Z.add_0_r, u64_small.
  - intros s x _. apply u64_range.
  - intros l. induction l as [|x l IH]; [done|]. rewrite big_cons, IH. unfold atomicAdd, id. by rewrite u64_add_r.
Qed.

Lemma min_slots M : launches_slots (mkScatter n (group_row keys G keep val) atomicMin) G blocks tpb M
  (λ g, foldr Z.min M (group g)).
Proof using All.
  apply (integer_launch atomicMin M (λ s, s ≤ M) (foldr Z.min M)); try exact _; try done; unfold atomicMin; intros; lia.
Qed.

Lemma max_slots m : launches_slots (mkScatter n (group_row keys G keep val) atomicMax) G blocks tpb m
  (λ g, foldr Z.max m (group g)).
Proof using All.
  apply (integer_launch atomicMax m (λ s, m ≤ s) (foldr Z.max m)); try exact _; try done; unfold atomicMax; intros; lia.
Qed.
End integer_slots.

(** ** Agreement with the CPU's grouped reducers *)

Lemma sum_ones {A} (l : list A) : sum_list_Z (map (λ _, 1) l) = Z.of_nat (length l).
Proof. unfold sum_list_Z. induction l as [|x l IH]; [done|]. cbn [map foldr length]. lia. Qed.

Definition cpu_group_u32 (keys vals : list Z) (G : Z) (op : MatrixAggOp) (pred : MatrixPredicate) (has_filter : bool) :
    outcome (list Z) :=
  if has_filter then matrix_cpu_group_reduce_pred keys vals (length vals) G op pred None
  else matrix_cpu_group_reduce keys vals (length vals) G op None.

Definition cpu_group_i64 (keys vals : list Z) (G : Z) (op : MatrixAggOp) (pred : MatrixPredicate) (has_filter : bool) :
    outcome (list Z) :=
  if has_filter then matrix_cpu_group_reduce_i64_pred keys vals (length vals) G op pred None
  else matrix_cpu_group_reduce_i64 keys vals (length vals) G op None.

Definition cpu_group_f64 (keys vals : list Z) (G : Z) (op : MatrixAggOp) (pred : MatrixPredicate) (has_filter : bool) :
    outcome (list Z) :=
  if has_filter then matrix_cpu_group_reduce_f64_pred keys vals (length vals) G op pred None
  else matrix_cpu_group_reduce_f64 keys vals (length vals) G op None.

(** Two slot arrays of the same length with the same slots are equal. *)
Lemma slots_eq G (o1 o2 : list Z) : length o1 = Z.to_nat G → length o2 = Z.to_nat G →
  (∀ g, 0 ≤ g < G → o1 !! Z.to_nat g = o2 !! Z.to_nat g) → o1 = o2.
Proof.
  intros H1 H2 H. apply list_eq. intros i. destruct (decide (i < Z.to_nat G)%nat) as [Hi|Hi].
  - replace i with (Z.to_nat (Z.of_nat i)) by lia. apply H. lia.
  - rewrite !lookup_ge_None_2; [done|lia|lia].
Qed.

Section agree.
Context (keys vals : list Z) (G : Z) (op : MatrixAggOp) (hf : bool) (test : Z → bool).
Hypothesis Hlen : length keys = length vals.
Hypothesis Hkeys : Forall (λ k, 0 ≤ k) keys.

Let n := length vals.
Let kb (i : nat) : bool := negb hf || test (nth i vals 0).
Definition cpu_loop (A : accumulator) : outcome (list Z) :=
  group_loop A n G (null_at None) keys (keep_group (if hf then Some test else None) vals) (rd vals) op.

Definition slot_values (g : Z) : list Z := map (λ i, nth i vals 0) (rows_of keys n kb g).

Lemma cpu_loop_slots A out : cpu_loop A = Ret out → length out = Z.to_nat G ∧
  ∀ g, 0 ≤ g < G → ∃ s, out !! Z.to_nat g = Some s ∧ agg_fold A op (slot_values g) = Ret s.
Proof using Hlen Hkeys.
  intros Hout. split.
  - apply (group_loop_length A n G op keys vals (null_at None) _ kb (is_null None)) in Hout;
      [done|done|intros; by apply (keep_group_total hf _ vals n)|unfold n; lia|
       intros; eapply Forall_nth_nonneg; [done| |done]; unfold n; lia|done].
  - intros g Hg. exact (proj2 (group_reduce_slot A hf test keys vals G op None out g Hlen I Hkeys Hg Hout)).
Qed.

Lemma cpu_loop_defined A : (∀ g, 0 ≤ g < G → ∃ s, agg_fold A op (slot_values g) = Ret s) → ∃ out, cpu_loop A = Ret out.
Proof using Hlen Hkeys.
  intros Hdef. apply (group_loop_defined A n G op keys vals (null_at None) _ kb (is_null None));
    [done|intros; by apply (keep_group_total hf _ vals n)|unfold n; lia|
     intros; eapply Forall_nth_nonneg; [done| |done]; unfold n; lia|done|done].
Qed.

Lemma cpu_loop_total A : (∀ s x, ∃ s', acc_step A op s x = Ret s') → ∃ out, cpu_loop A = Ret out.
Proof using Hlen Hkeys.
  intros Htot. apply cpu_loop_defined. intros g _. unfold agg_fold. generalize (acc_init A op).
  induction (slot_values g) as [|x vs IH]; intros s; cbn; [eauto|]. destruct (Htot s x) as [s' ->]. apply IH.
Qed.

(** The kernels' tests and values, on rows below [n]. *)
Lemma dev_keep dev : (∀ x, dev x = test x) → hf = true →
  ∀ i, (i < n)%nat → keep_value dev vals i = Ret (kb i).
Proof using Type. intros Hdev Hf i Hi. rewrite keep_value_total by done. unfold kb. by rewrite Hdev, Hf. Qed.

Lemma all_keep : hf = false → ∀ i, (i < n)%nat → keep_all i = Ret (kb i).
Proof using Type. intros Hf i Hi. unfold kb. by rewrite Hf. Qed.

Lemma val_rows i : (i < n)%nat → rd vals i = Ret (nth i vals 0).
Proof using Type. intros. by apply rd_total. Qed.

(** What the three integer atomics leave, in terms of the values of the group. *)
Lemma count_slots keep : (∀ i, (i < n)%nat → keep i = Ret (kb i)) →
  launches_slots (mkScatter n (group_row keys G keep one_u64) atomicAdd) G BLOCKS TPB 0
    (λ g, u64 (Z.of_nat (length (slot_values g)))).
Proof using Hlen Hkeys.
  intros Hk. destruct full_grid as [Hb Ht].
  destruct (add_slots keys G n BLOCKS TPB Hkeys ltac:(unfold n; lia) Hb Ht keep one_u64 kb (λ _, 1) Hk ltac:(done)) as [He Ha].
  split; [done|]. intros out Hl. destruct (Ha out Hl) as [Hlo Hs]. split; [done|]. intros g Hg.
  rewrite (Hs g Hg). unfold slot_values. by rewrite sum_ones, length_map.
Qed.

Lemma value_slots keep : (∀ i, (i < n)%nat → keep i = Ret (kb i)) →
  launches_slots (mkScatter n (group_row keys G keep (rd vals)) atomicAdd) G BLOCKS TPB 0
    (λ g, u64 (sum_list_Z (slot_values g))) ∧
  (∀ M, launches_slots (mkScatter n (group_row keys G keep (rd vals)) atomicMin) G BLOCKS TPB M
    (λ g, foldr Z.min M (slot_values g))) ∧
  (∀ m, launches_slots (mkScatter n (group_row keys G keep (rd vals)) atomicMax) G BLOCKS TPB m
    (λ g, foldr Z.max m (slot_values g))).
Proof using Hlen Hkeys.
  intros Hk. destruct full_grid as [Hb Ht]. assert (n ≤ length keys)%nat as Hn by (unfold n; lia).
  split_and!; intros; [eapply add_slots|eapply min_slots|eapply max_slots]; done || apply val_rows.
Qed.

Lemma slots_match k init res out A : launches_slots k G BLOCKS TPB init res → cpu_loop A = Ret out →
  (∀ g, 0 ≤ g < G → agg_fold A op (slot_values g) = Ret (res g)) →
  (∃ out', launch_slots k BLOCKS TPB (replicate (Z.to_nat G) init) out') ∧
  ∀ out', launch_slots k BLOCKS TPB (replicate (Z.to_nat G) init) out' → cpu_loop A = Ret out'.
Proof using Hlen Hkeys.
  intros [He Ha] Hout Hres. split; [done|]. intros out' Hl. destruct (Ha out' Hl) as [Hlo Hs]. rewrite Hout. f_equal.
  destruct (cpu_loop_slots A out Hout) as [Hlc Hc]. apply (slots_eq G); [done..|]. intros g Hg.
  destruct (Hc g Hg) as (s & -> & Hf). rewrite (Hs g Hg). rewrite Hres in Hf by done. congruence.
Qed.
End agree.

(** GROUP BY on the device ends, whatever the interleaving, with exactly the
    slots the CPU's grouped reducer computes over u32 values. *)
Theorem gpu_group_u32_matches_cpu keys vals G op pred hf :
  length keys = length vals → Forall (λ k, 0 ≤ k) keys →
  (∃ out, matrix_gpu_group_reduce_dev keys vals (length vals) G op pred hf out) ∧
  ∀ out, matrix_gpu_group_reduce_dev keys vals (length vals) G op pred hf out →
    cpu_group_u32 keys vals G op pred hf = Ret out.
Proof.
  intros Hlen Hkeys. set (test := λ x, matrix_pred_match x pred).
  assert (cpu_group_u32 keys vals G op pred hf = cpu_loop keys vals G op hf test u64_acc) as -> by (by destruct hf).
  destruct (cpu_loop_total keys vals G op hf test Hlen Hkeys u64_acc (acc_step_u64_total op)) as [out Hout].
  assert (∀ g, 0 ≤ g < G → agg_fold u64_acc op (slot_values keys vals hf test g)
    = Ret (agg_ref op (slot_values keys vals hf test g))) as Href by (intros; apply agg_fold_u64).
  unfold matrix_gpu_group_reduce_dev. cbv zeta.
  change (cudaMemset Byte.x00) with 0. change (cudaMemset Byte.xff) with UINT64_MAX.
  destruct hf; [pose proof (dev_keep vals true test _ (λ x, pred_dev_u32 x pred) eq_refl) as Hk
               |pose proof (all_keep vals false test eq_refl) as Hk];
    destruct (value_slots keys vals G _ test Hlen Hkeys _ Hk) as (Hsum & Hmin & Hmax);
    pose proof (count_slots keys vals G _ test Hlen Hkeys _ Hk) as Hcount;
    destruct op; eapply slots_match; eauto.
Qed.

(** So does GROUP BY over int64 values whose sums cannot overflow; the patterns
    the host receives are those [execute_query] makes of the CPU's slots. *)
Theorem gpu_group_i64_matches_cpu keys vals G op pred hf :
  length keys = length vals → Forall (λ k, 0 ≤ k) keys → Forall in_i64 vals →
  Z.of_nat (length vals) ≤ INT64_MAX → sum_list_Z (map Z.abs vals) ≤ INT64_MAX →
  (∃ out, matrix_gpu_group_reduce_dev_i64 keys vals (length vals) G op pred hf out) ∧
  ∀ out, matrix_gpu_group_reduce_dev_i64 keys vals (length vals) G op pred hf out →
    ∃ slots, cpu_group_i64 keys vals G op pred hf = Ret slots ∧ out = map u64 slots.
Proof.
  intros Hlen Hkeys Hv Hn Hsum. set (test := λ x, matrix_pred_match_i64 x pred).
  assert (cpu_group_i64 keys vals G op pred hf = cpu_loop keys vals G op hf test i64_acc) as -> by (by destruct hf).
  assert (∀ g, agg_fold i64_acc op (slot_values keys vals hf test g) = Ret (agg_ref_i64 op (slot_values keys vals hf test g))) as Href.
  { intros g. apply agg_fold_i64_defined.
    - pose proof (length_select (row_in_group keys (λ i, negb hf || test (nth i vals 0)) (λ _, false) g) vals (length vals)).
      unfold slot_values, rows_of. unfold select in *. lia.
    - by etrans; [apply abs_sum_select|]. }
  destruct (cpu_loop_defined keys vals G op hf test Hlen Hkeys i64_acc) as [slots Hslots]; [eauto|].
  unfold matrix_gpu_group_reduce_dev_i64. cbv zeta.
  assert (∀ k init res, launches_slots k G BLOCKS TPB init res →
    (∀ g, u64 (res g) = u64 (agg_ref_i64 op (slot_values keys vals hf test g))) →
    let ran out_host := ∃ out, out_host = map u64 out ∧ launch_slots k BLOCKS TPB (replicate (Z.to_nat G) init) out in
    (∃ out, ran out) ∧ ∀ out, ran out → ∃ slots, cpu_loop keys vals G op hf test i64_acc = Ret slots ∧ out = map u64 slots) as Hm.
  { intros k init res [[out0 Ho] Ha] Hres ran. split; [by exists (map u64 out0), out0|].
    intros out' (out & -> & Hl). exists slots. split; [done|]. destruct (Ha out Hl) as [Hlo Hs].
    destruct (cpu_loop_slots keys vals G op hf test Hlen Hkeys i64_acc slots Hslots) as [Hlc Hc].
    apply (slots_eq G); [by rewrite length_map..|]. intros g Hg. rewrite !list_lookup_fmap, (Hs g Hg).
    destruct (Hc g Hg) as (s & -> & Hf). rewrite Href in Hf. cbn. f_equal. rewrite Hres. congruence. }
  assert (∀ i, (i < length vals)%nat → keep_value (λ v, matrix_pred_match_i64_dev v (if hf then p_cmp pred else GE)
      (if hf then p_a pred else INT64_MIN) (if hf then p_b pred else 0)) vals i = Ret (negb hf || test (nth i vals 0))) as Hk.
  { intros i Hi. rewrite keep_value_total by done. f_equal. destruct hf; [apply pred_dev_i64|].
    apply Z.leb_le. rewrite Forall_forall in Hv. assert (in_i64 (nth i vals 0)) as [? _]; [|done].
    apply Hv, list_elem_of_In, nth_In. lia. }
  destruct (value_slots keys vals G hf test Hlen Hkeys _ Hk) as (Hadd & Hmin & Hmax).
  pose proof (count_slots keys vals G hf test Hlen Hkeys _ Hk) as Hcount.
  destruct op; eapply Hm; eauto; intros g; cbn [agg_ref_i64]; by rewrite ?u64_idem.
Qed.

(** *** double: MIN and MAX *)

Lemma f64_eqb_nan a b : f64_is_nan a = true → f64_eqb a b = false.
Proof. unfold f64_is_nan, f64_eqb, SFeqb. by destruct (f64_decode a). Qed.

(** Only NE lets a NaN through. *)
Lemma nan_passes_ne v c a b : f64_is_nan v = true → matrix_pred_match_f64_dev v c a b = true → c = NE.
Proof.
  intros Hv. destruct c; cbn; [..|done|]; rewrite ?f64_eqb_nan by done;
    rewrite ?(proj1 (f64_nan_l v _ Hv)), ?(proj2 (f64_nan_l v _ Hv)), ?(proj1 (f64_nan_r _ v Hv)), ?(proj2 (f64_nan_r _ v Hv)); done.
Qed.

(** No NaN reaches an atomic: there is none, or the predicate drops them. *)
Definition nan_free (vals : list Z) (pred : MatrixPredicate) (has_filter : bool) : Prop :=
  Forall (λ v, f64_is_nan v = false) vals ∨ (has_filter = true → p_cmp pred ≠ NE).

Section extremum_slots.
Context {mop : Z → Z → Z} {init : Z} {upd : Z → Z → bool} {cell : Z → Z → Z} `{E : !Extremum mop init upd cell}.
Context (keys vals : list Z) (G : Z) (op : MatrixAggOp) (pred : MatrixPredicate) (hf : bool).
Hypothesis Hlen : length keys = length vals.
Hypothesis Hkeys : Forall (λ k, 0 ≤ k) keys.
Hypothesis Hvals : Forall in_u64 vals.
Hypothesis Hnan : nan_free vals pred hf.
Hypothesis Hinit : acc_init f64_acc op = init.
Hypothesis Hstep : ∀ s x, acc_step f64_acc op s x = Ret (if upd x s then x else s).

Let n := length vals.
Let e := f64_rank init.
Let test (x : Z) : bool := matrix_pred_match_f64 x pred.
Let dev (x : Z) : bool := matrix_pred_match_f64_dev x (if hf then p_cmp pred else GE)
  (if hf then p_a pred else F64_NEG_INF) (if hf then p_b pred else F64_ZERO).

Lemma row_in_u64 i : (i < n)%nat → in_u64 (nth i vals 0).
Proof using Hvals. intros Hi. rewrite Forall_forall in Hvals. apply Hvals, list_elem_of_In, nth_In. done. Qed.

Lemma dev_number i : (i < n)%nat → dev (nth i vals 0) = true → f64_number (nth i vals 0).
Proof using Hvals Hnan.
  intros Hi Hd. destruct (number_or_nan _ (row_in_u64 i Hi)) as [Hn|]; [exfalso|done].
  destruct Hnan as [Hall|Hne].
  - rewrite Forall_forall in Hall. specialize (Hall (nth i vals 0) (proj2 (list_elem_of_In _ _) (nth_In vals 0 Hi))). congruence.
  - pose proof (nan_passes_ne _ _ _ _ Hn Hd) as Hc. destruct hf; [by apply Hne|done].
Qed.

(** The device and the CPU keep the same numbers. *)
Lemma same_rank i : (i < n)%nat →
  (if dev (nth i vals 0) then f64_rank (nth i vals 0) else e)
  = (if negb hf || test (nth i vals 0) then rank_of (init:=init) (nth i vals 0) else e).
Proof using Hvals Hnan.
  intros Hi. pose proof (row_in_u64 i Hi) as Hv. unfold rank_of. fold e. destruct (dev (nth i vals 0)) eqn:Ed.
  - destruct (dev_number i Hi Ed) as [_ ->]. destruct hf; [|done]. cbn [negb orb].
    assert (test (nth i vals 0) = true) as ->; [|done]. rewrite <- Ed. symmetry. apply pred_dev_f64.
  - destruct hf; cbn [negb orb].
    + assert (test (nth i vals 0) = false) as ->; [|done]. rewrite <- Ed. symmetry. apply pred_dev_f64.
    + by rewrite (all_numbers_kept F64_ZERO (nth i vals 0) Hv Ed).
Qed.

Lemma extremum_launch :
  let k := mkScatter n (group_row keys G (keep_value dev vals) (rd vals)) cell in
  let out0 := replicate (Z.to_nat G) init in
  (∃ out, launch_slots k BLOCKS TPB out0 out) ∧
  ∀ out, launch_slots k BLOCKS TPB out0 out →
    ∃ slots, cpu_group_f64 keys vals G op pred hf = Ret slots ∧ Forall2 (λ a b, f64_eqb a b = true) out slots.
Proof using All.
  intros k out0. pose proof (extremum_idem (E:=E)) as Hid. fold e in Hid. destruct full_grid as [Hb Ht].
  assert (cpu_group_f64 keys vals G op pred hf = cpu_loop keys vals G op hf test f64_acc) as -> by (by destruct hf).
  destruct (cpu_loop_total keys vals G op hf test Hlen Hkeys f64_acc (acc_step_f64_total op)) as [slots Hslots].
  destruct (cpu_loop_slots keys vals G op hf test Hlen Hkeys f64_acc slots Hslots) as [Hlc Hc].
  destruct (group_launch keys G n BLOCKS TPB Hkeys ltac:(unfold n; lia) Hb Ht (keep_value dev vals) (rd vals)
    (λ i, dev (nth i vals 0)) (λ i, nth i vals 0) ltac:(intros; by apply keep_value_total) ltac:(intros; by apply val_rows)
    cell mop e f64_rank f64_rank f64_number init Hid) as [Hex Hall].
  { intros s Hs. by apply ex_init. }
  { intros i s Hi Hk Hs. apply ex_cell; [done|]. by apply dev_number. }
  { split; [apply ex_init|done]. }
  split; [exact Hex|]. intros out Hl. exists slots. split; [done|]. destruct (Hall out Hl) as [Hlo Hs].
  apply Forall2_same_length_lookup_2; [congruence|]. intros j a b Ha Hb'.
  assert (0 ≤ Z.of_nat j < G) as Hg by (apply lookup_lt_Some in Ha; lia).
  destruct (Hs _ Hg) as (x & Hx & Hxn & Hxr), (Hc _ Hg) as (y & Hy & Hf). rewrite Nat2Z.id in Hx, Hy.
  assert (Forall in_u64 (slot_values keys vals hf test (Z.of_nat j))) as Hsv by (by apply select_Forall).
  destruct (pick_agg op _ Hinit Hstep Hsv) as (r & Hr & Hrn & Hrr).
  assert (a = x) as -> by congruence. assert (b = r) as -> by congruence. rewrite f64_eqb_rank by done. apply Z.eqb_eq.
  rewrite Hxr, Hrr. fold e. unfold slot_values. rewrite big_map.
  unfold rows_of. rewrite <- !(big_filter mop e Hid). apply big_ext. intros i Hi. apply elem_of_seq in Hi.
  unfold row_in_group. cbn [negb andb]. pose proof (same_rank i ltac:(unfold n; lia)) as Hsr.
  destruct (nth i keys 0 =? Z.of_nat j); [by rewrite !andb_true_r|by rewrite !andb_false_r].
Qed.
End extremum_slots.

(** GROUP BY with MIN or MAX over doubles agrees with the CPU's slots as
    numbers, as long as no NaN reaches the atomics. *)
Theorem gpu_group_f64_extremum_matches_cpu keys vals G op pred hf :
  op = AGG_MIN ∨ op = AGG_MAX → length keys = length vals → Forall (λ k, 0 ≤ k) keys →
  Forall in_u64 vals → nan_free vals pred hf →
  (∃ out, matrix_gpu_group_reduce_dev_f64 keys vals (length vals) G op pred hf out) ∧
  ∀ out, matrix_gpu_group_reduce_dev_f64 keys vals (length vals) G op pred hf out →
    ∃ slots, cpu_group_f64 keys vals G op pred hf = Ret slots ∧ Forall2 (λ a b, f64_eqb a b = true) out slots.
Proof.
  intros [-> | ->] Hlen Hkeys Hvals Hnan.
  - by apply (extremum_launch (E:=min_extremum)).
  - by apply (extremum_launch (E:=max_extremum)).
Qed.

(** Without that condition it does not: under NE a NaN is stored in the slot,
    and the launch may return it where the CPU returns the minimum. *)
Theorem nan_reaches_a_slot :
  let vals := [F64_ONE; F64_QNAN] in
  let k := matrix_group_min_kernel_f64 [0; 0] vals 2 1 NE F64_ZERO F64_ZERO in
  launch_slots k 1 1 [F64_INF] [F64_QNAN] ∧
  cpu_group_f64 [0; 0] vals 1 AGG_MIN (mkPred NE F64_ZERO F64_ZERO) true = Ret [F64_ONE].
Proof.
  intros vals k. split; [|vm_compute; reflexivity].
  exists (mkSlots [F64_QNAN] [2%nat]). split; [|split; [repeat constructor|done]].
  apply (rtc_l _ _ (mkSlots [F64_ONE] [1%nat])); [exists 0%nat; vm_compute; reflexivity|].
  apply rtc_once. exists 0%nat. vm_compute. reflexivity.
Qed.

Lemma gpu_group_u32_matches_cpu_witness :
  let keys := [0; 1; 0; 7] in
  Forall (λ k, 0 ≤ k) keys ∧
  ∃ out, matrix_gpu_group_reduce_dev keys [5; 6; 8; 9] 4 2 AGG_MAX (mkPred GT 5 0) true out ∧ out = [8; 6].
Proof.
  intros keys. assert (Forall (λ k, 0 ≤ k) keys) as Hk by (repeat constructor; lia). split; [exact Hk|].
  destruct (gpu_group_u32_matches_cpu keys [5; 6; 8; 9] 2 AGG_MAX (mkPred GT 5 0) true eq_refl Hk) as [[out Ho] Hall].
  exists out. split; [exact Ho|]. specialize (Hall out Ho). vm_compute in Hall. injection Hall as <-. reflexivity.
Defined.
