(* ===== verification/GpuAtomics.v ===== *)
(** * GpuAtomics: the compare-and-swap loops behind the atomics of doubles

    [atomicMinDouble] and [atomicMaxDouble], and [atomicAdd] on doubles for old
    devices, read the cell, work out what to store from what they read, and try
    to swap it in, again and again until the cell has not changed in between.
    The kernels of [GpuKernels] and [GpuGroup] use them as one access.  This
    file shows that they may: whatever the interleaving of the accesses of any
    number of callers, the calls take effect one after the other in some order,
    and the loops end after a bounded number of accesses altogether. *)

From S2P Require Export GpuKernels.

(** What one turn of a loop stores, from the value it read; [None] when it
    gives up because the cell is already good enough. *)
Definition min_attempt (assumed val : Z) : option Z := if f64_leb assumed val then None else Some val.
Definition max_attempt (assumed val : Z) : option Z := if f64_leb val assumed then None else Some val.
Definition add_attempt (assumed val : Z) : option Z := Some (f64_add val assumed).

(** A caller: before its first read, holding what it read last, and back. *)
Inductive Caller :=
  | Reading (val : Z)
  | Trying (val assumed : Z)
  | Returned (val : Z).

Record Cell := mkCell { c_cell : Z; c_callers : list Caller }.

(** The next access of one caller to the cell. *)
Definition cas_step (attempt : Z → Z → option Z) (cell : Z) (p : Caller) : option (Z * Caller) :=
  match p with
  | Reading v => Some (cell, Trying v cell)
  | Trying v assumed =>
      match attempt assumed v with
      | None => Some (cell, Returned v)
      | Some new => if cell =? assumed then Some (new, Returned v) else Some (cell, Trying v cell)
      end
  | Returned _ => None
  end.

Inductive cell_step (attempt : Z → Z → option Z) : Cell → Cell → Prop :=
  | CellStep t p p' cell cell' ps :
      ps !! t = Some p → cas_step attempt cell p = Some (cell', p') →
      cell_step attempt (mkCell cell ps) (mkCell cell' (<[t := p']> ps)).

Definition value_of (p : Caller) : Z := match p with Reading v | Trying v _ | Returned v => v end.

(** ** The calls take effect one after the other *)

Section linearise.
Context (attempt : Z → Z → option Z).

(** What a call does when nothing interferes. *)
Definition at_once (cell val : Z) : Z := default cell (attempt cell val).

(** The call has taken effect: it returned, or the value it read last made it give up. *)
Definition effective (p : Caller) : bool :=
  match p with
  | Reading _ => false
  | Trying v a => match attempt a v with None => true | Some _ => false end
  | Returned _ => true
  end.

Definition effects (ps : list Caller) : list Z := map value_of (List.filter effective ps).

Definition linearised (c0 : Z) (s : Cell) : Prop :=
  ∃ order, order ≡ₚ effects (c_callers s) ∧ c_cell s = fold_left at_once order c0.

Lemma effects_update ps t p p' : ps !! t = Some p →
  effects ps ≡ₚ (if effective p then [value_of p] else []) ++ effects (delete t ps) ∧
  effects (<[t := p']> ps) ≡ₚ (if effective p' then [value_of p'] else []) ++ effects (delete t ps).
Proof using Type.
  assert (∀ l l', l ≡ₚ l' → effects l ≡ₚ effects l') as Hperm.
  { intros l l' H. unfold effects. apply Permutation_map.
    induction H as [|x ?? _ IH|x y ?|]; cbn; [done| | |by etrans];
      repeat (case_match; cbn); by constructor || done. }
  intros Ht. split.
  - rewrite (Hperm _ _ (delete_Permutation ps t p Ht)). unfold effects. cbn [List.filter]. by destruct (effective p).
  - rewrite (Hperm _ _ (insert_perm ps t p p' Ht)). unfold effects. cbn [List.filter]. by destruct (effective p').
Qed.

Lemma step_linearised c0 s s' : linearised c0 s → cell_step attempt s s' → linearised c0 s'.
Proof using Type.
  intros (order & Hperm & Hcell) Hstep. destruct Hstep as [t p p' cell cell' ps Ht Hs].
  unfold linearised. cbn [c_cell c_callers] in *. destruct (effects_update ps t p p' Ht) as [Hold Hnew].
  assert ((effective p = effective p' ∧ value_of p = value_of p' ∧ cell' = cell) ∨
          (effective p = false ∧ effective p' = true ∧ cell' = at_once cell (value_of p'))) as Hcases.
  { destruct p as [v|v a|v]; cbn in Hs; [| |done].
    - injection Hs as <- <-. cbn. unfold at_once. destruct (attempt cell v); auto.
    - cbn. destruct (attempt a v) as [new|] eqn:E; [|injection Hs as <- <-; auto].
      destruct (Z.eqb_spec cell a) as [->|]; injection Hs as <- <-; cbn; unfold at_once; [rewrite E; auto|].
      destruct (attempt cell v); auto. }
  destruct Hcases as [(He & Hv & ->)|(He & He' & ->)].
  - exists order. split; [|done]. rewrite Hperm, Hold, Hnew. by rewrite He, Hv.
  - exists (order ++ [value_of p']). rewrite fold_left_app, <- Hcell. split; [|done].
    rewrite Hnew, He', Hperm, Hold, He. cbn [app]. symmetry. apply Permutation_cons_append.
Qed.

Lemma run_linearised c0 vals s : rtc (cell_step attempt) (mkCell c0 (map Reading vals)) s → linearised c0 s.
Proof using Type.
  intros Hr. assert (linearised c0 (mkCell c0 (map Reading vals))) as H0.
  { exists []. split; [|done]. cbn [c_callers]. assert (effects (map Reading vals) = []) as ->; [|done].
    unfold effects. clear. induction vals as [|v vals IH]; [done|]. exact IH. }
  revert H0. induction Hr as [s|s s1 s' Hs _ IH]; [done|]. intros H0. by apply IH, (step_linearised c0 s).
Qed.

(** The values callers came with never change. *)
Lemma run_values s s' : rtc (cell_step attempt) s s' → map value_of (c_callers s') = map value_of (c_callers s).
Proof using Type.
  induction 1 as [s|s s1 s' Hs _ IH]; [done|]. rewrite IH. destruct Hs as [t p p' cell cell' ps Ht Hs]. cbn.
  etrans; [apply (list_fmap_insert value_of)|]. apply list_insert_id. rewrite list_lookup_fmap, Ht. cbn. f_equal.
  destruct p as [v|v a|v]; cbn in Hs; [by simplify_eq| |done].
  destruct (attempt a v); [destruct (cell =? a)|]; by simplify_eq.
Qed.

(** ** The loops end *)

Definition returned (p : Caller) : bool := match p with Returned _ => true | _ => false end.

(** A failed swap means that some other caller returned since the last read. *)
Definition weight (n : nat) (cell : Z) (p : Caller) : nat :=
  match p with
  | Reading _ => n + 2
  | Trying _ a => n + 1 + (if cell =? a then 0 else 1)
  | Returned _ => 0
  end.

Lemma weight_cell n c c' ps : (total (weight n c') ps ≤ total (weight n c) ps + length ps)%nat.
Proof using Type.
  induction ps as [|p ps IH]; [done|]. rewrite !total_cons. cbn [length].
  destruct p as [v|v a|v]; cbn [weight]; [lia| |lia]. destruct (c' =? a), (c =? a); lia.
Qed.

Lemma step_weight s s' : cell_step attempt s s' → length (c_callers s') = length (c_callers s) ∧
  (total (weight (length (c_callers s)) (c_cell s')) (c_callers s')
   < total (weight (length (c_callers s)) (c_cell s)) (c_callers s))%nat.
Proof using Type.
  intros Hstep. destruct Hstep as [t p p' cell cell' ps Ht Hs]. cbn [c_cell c_callers].
  split; [apply length_insert|]. set (n := length ps).
  pose proof (total_update (weight n cell) ps p' t p Ht) as Hu.
  pose proof (weight_cell n cell cell' (<[t := p']> ps)) as Hc. rewrite length_insert in Hc. fold n in Hc.
  assert ((cell' = cell ∧ weight n cell p' < weight n cell p)%nat ∨
          (weight n cell p' = 0 ∧ n < weight n cell p)%nat) as Hcases.
  { destruct p as [v|v a|v]; cbn in Hs; [| |done].
    - simplify_eq. left. split; [done|]. cbn. rewrite Z.eqb_refl. lia.
    - cbn [weight]. destruct (attempt a v) as [new|]; [|simplify_eq; right; cbn; lia].
      destruct (cell =? a) eqn:E; simplify_eq; [right; cbn; lia|left]. split; [done|]. cbn. rewrite Z.eqb_refl. lia. }
  destruct Hcases as [[-> ?]|[? ?]]; lia.
Qed.

Lemma run_weight n s s' : nsteps (cell_step attempt) n s s' → length (c_callers s') = length (c_callers s) ∧
  (n + total (weight (length (c_callers s)) (c_cell s')) (c_callers s')
   ≤ total (weight (length (c_callers s)) (c_cell s)) (c_callers s))%nat.
Proof using Type.
  induction 1 as [s|n s s1 s' Hs _ [IHl IHt]]; [done|]. destruct (step_weight s s1 Hs) as [Hl Ht].
  rewrite Hl in IHl, IHt. split; [done|lia].
Qed.

Lemma cas_bounded n c0 vals s : nsteps (cell_step attempt) n (mkCell c0 (map Reading vals)) s →
  (n ≤ length vals * (length vals + 2))%nat ∧
  (Forall (λ p, returned p = true) (c_callers s) ∨ ∃ s', cell_step attempt s s').
Proof using Type.
  intros Hr. destruct (run_weight n _ _ Hr) as [Hl Ht]. cbn [c_cell c_callers] in *. rewrite length_map in *. split.
  - assert (total (weight (length vals) c0) (map Reading vals) = length vals * (length vals + 2))%nat as E; [|lia].
    clear. generalize (length vals) at 1 3. intros m. induction vals as [|v vals IH]; [done|].
    cbn [map length]. rewrite total_cons, IH. cbn [weight]. lia.
  - clear Hr Ht Hl. destruct s as [cell ps]. cbn [c_callers].
    destruct (decide (Forall (λ p, returned p = true) ps)) as [|Hn]; [by left|right].
    apply not_Forall_Exists in Hn; [|intros; apply _]. apply Exists_exists in Hn as (p & [t Hp]%list_elem_of_lookup & Hnr).
    assert (∃ r, cas_step attempt cell p = Some r) as [[cell' p'] Hs].
    { destruct p as [v|v a|v]; cbn in *; [eauto| |done]. destruct (attempt a v); [destruct (cell =? a)|]; eauto. }
    eexists. by eapply CellStep.
Qed.
End linearise.

(** The loop and the atomic it stands for in the kernels. *)
Inductive double_atomic : (Z → Z → option Z) → (Z → Z → Z) → Prop :=
  | da_min : double_atomic min_attempt atomicMinDouble
  | da_max : double_atomic max_attempt atomicMaxDouble
  | da_add : double_atomic add_attempt (λ cell val, f64_add val cell).

(** C21: The atomics of doubles are atomic: whatever the interleaving of the reads
    and swaps of the callers, when all have returned the cell holds what the
    calls give one after the other in some order; and they all return, after at
    most [n * (n + 2)] accesses of [n] callers. *)
Theorem double_atomics_linearise attempt atomic c0 vals n s :
  double_atomic attempt atomic → nsteps (cell_step attempt) n (mkCell c0 (map Reading vals)) s →
  (n ≤ length vals * (length vals + 2))%nat ∧
  ((∃ s', cell_step attempt s s') ∨
   ∃ order, order ≡ₚ vals ∧ c_cell s = fold_left atomic order c0).
Proof.
  intros Hd Hr. destruct (cas_bounded attempt n c0 vals s Hr) as [Hn [Hall|Hs]]; (split; [done|]); [right|by left].
  assert (rtc (cell_step attempt) (mkCell c0 (map Reading vals)) s) as Hrtc by (apply rtc_nsteps; eauto).
  destruct (run_linearised attempt c0 vals s Hrtc) as (order & Hperm & Hcell).
  pose proof (run_values attempt _ _ Hrtc) as Hv. cbn [c_callers] in Hv. rewrite map_map, map_id in Hv.
  exists order. split.
  - rewrite Hperm, <- Hv. unfold effects. clear -Hall.
    induction Hall as [|p ps Hp _ IH]; [done|]. cbn [List.filter]. destruct p; try done. cbn. by rewrite IH.
  - rewrite Hcell. assert (∀ c v, at_once attempt c v = atomic c v) as Heq.
    { intros c v. destruct Hd; unfold at_once, min_attempt, max_attempt, add_attempt, atomicMinDouble, atomicMaxDouble; by repeat case_match. }
    clear -Heq. revert c0. induction order as [|v order IH]; intros c0; cbn; [done|]. by rewrite Heq, IH.
Qed.

Lemma double_atomics_linearise_witness :
  let c0 := mkCell F64_ONE [Reading F64_ZERO] in
  nsteps (cell_step min_attempt) 2 c0 (mkCell F64_ZERO [Returned F64_ZERO]) ∧ (2 ≤ 3)%nat.
Proof.
  assert (nsteps (cell_step min_attempt) 2 (mkCell F64_ONE [Reading F64_ZERO]) (mkCell F64_ZERO [Returned F64_ZERO])) as Hr.
  { eapply nsteps_l; [apply (CellStep min_attempt 0 (Reading F64_ZERO) (Trying F64_ZERO F64_ONE)); reflexivity|].
    eapply nsteps_l; [apply (CellStep min_attempt 0 (Trying F64_ZERO F64_ONE) (Returned F64_ZERO)); [reflexivity|vm_compute; reflexivity]|].
    apply nsteps_O. }
  split; [exact Hr|].
  exact (proj1 (double_atomics_linearise min_attempt atomicMinDouble F64_ONE [F64_ZERO] 2 _ da_min Hr)).
Defined.
