(* ===== verification/GpuColumn.v ===== *)
(** * GpuColumn: columns with device memory, and the device paths of the engine

    The CUDA build of [tiered_column.hpp] and of the scans of [compute_mock.cpp]:
    a column may also live in device memory.  A scalar scan of such a column, and
    a GROUP BY of two, run the kernels of [GpuKernels] and [GpuGroup] where the
    bytes are; any other column is borrowed to the host, as in the CPU build, and
    returned to its tier.  The theorems say that the answer does not depend on
    the tier, and that the columns keep their bytes and tiers.  Heat and the
    rebalancing cadence are those of EngineQuery and left out here. *)

From S2P Require Export EngineLoad GpuGroup.

(** ** A column in the CUDA build *)

(** [device_] is the device buffer, or the null pointer. *)
Record DeviceColumn := mkDC { dc_col : TieredColumn; device_ : option (list byte) }.

Section cuda_column.
Variable pid : Z.

Definition cuda_read_to_host (fs : filesys) (c : DeviceColumn) : outcome (list byte) :=
  match tc_tier (dc_col c) with
  | DEVICE => b ← of_option Undefined (device_ c); Ret (take (Z.to_nat (tc_size (dc_col c))) b)
  | _ => read_to_host pid fs (dc_col c)
  end.

Definition cuda_free_current (fs : filesys) (c : DeviceColumn) : filesys * option (list byte) :=
  (free_current pid fs (dc_col c), if decide (tc_tier (dc_col c) = DEVICE) then None else device_ c).

(** [cudaMalloc] and [cudaMemcpy] of the column's size. *)
Definition push_device (size : Z) (b : list byte) : option (list byte) := Some (take (Z.to_nat size) b).

Definition cuda_migrate_to (dest : MemorySpace) (fs : filesys) (c : DeviceColumn) : outcome (DeviceColumn * filesys) :=
  let t := dc_col c in
  if decide (dest = tc_tier t) then Ret (c, fs)
  else
    staged ← cuda_read_to_host fs c;
    let '(fs, dev) := cuda_free_current fs c in
    let t := mkTC (tc_id t) (tc_size t) HOST (tc_serial t) staged in
    match dest with
    | HOST => Ret (mkDC t dev, fs)
    | COLD =>
        fs ← write_cold pid fs t (tc_host t);
        Ret (mkDC (mkTC (tc_id t) (tc_size t) COLD (tc_serial t) []) dev, fs)
    | DEVICE => Ret (mkDC (mkTC (tc_id t) (tc_size t) DEVICE (tc_serial t) []) (push_device (tc_size t) staged), fs)
    | UNIFIED => Crash Aborted
    end.

(** [pin_device]: [false] when the column is unknown. *)
Definition pin_device (id : Z) (s : gmap Z DeviceColumn * filesys) : outcome (bool * (gmap Z DeviceColumn * filesys)) :=
  match s.1 !! id with
  | None => Ret (false, s)
  | Some c => '(c', fs) ← cuda_migrate_to DEVICE s.2 c; Ret (true, (<[id := c']> s.1, fs))
  end.

(** ** Scans and groupings *)

(** What a host reduction and a device reduction of [n] values give. *)
Definition host_scan (ty : MatrixType) (bs : list byte) (n : nat) (pred : MatrixPredicate) (op : MatrixAggOp) (hf : bool) :
    outcome Z :=
  match ty with
  | U32 => if hf then matrix_cpu_reduce_pred (u32s bs) n pred op None else matrix_cpu_reduce_all (u32s bs) n op
  | I64 => if hf then matrix_cpu_reduce_pred_i64 (i64s bs) n pred op None else matrix_cpu_reduce_all_i64 (i64s bs) n op
  | F64 => if hf then matrix_cpu_reduce_pred_f64 (f64s bs) n pred op None else matrix_cpu_reduce_all_f64 (f64s bs) n op
  end.

Definition device_scan (ty : MatrixType) (bs : list byte) (n : nat) (pred : MatrixPredicate) (op : MatrixAggOp) (hf : bool) :
    Z → Prop :=
  match ty with
  | U32 => matrix_gpu_reduce_dev_u32 (u32s bs) n pred op hf
  | I64 => matrix_gpu_reduce_dev_i64 (i64s bs) n pred op hf
  | F64 => matrix_gpu_reduce_dev_f64 (f64s bs) n pred op hf
  end.

(** Borrow a column to the host, use its bytes, return it. *)
Definition on_host {A} (fs : filesys) (c : DeviceColumn) (f : list byte → filesys → outcome (A * filesys)) :
    outcome (A * filesys * DeviceColumn) :=
  let home := tc_tier (dc_col c) in
  '(c1, fs1) ← cuda_migrate_to HOST fs c;
  bs ← of_option Undefined (host_ptr (dc_col c1));
  '(a, fs2) ← f bs fs1;
  '(c2, fs3) ← cuda_migrate_to home fs2 c1;
  Ret (a, fs3, c2).

(** How many values a column of a type holds. *)
Definition rows_in (ty : MatrixType) (c : DeviceColumn) : nat := count_of (type_width ty) (tc_size (dc_col c)).

(** [scan_tiered_column] and its two typed siblings: a result, and the file
    system and the column they leave. *)
Definition cuda_scan (ty : MatrixType) (pred : MatrixPredicate) (op : MatrixAggOp) (hf : bool)
    (fs : filesys) (c : DeviceColumn) (r : Z) (fs' : filesys) (c' : DeviceColumn) : Prop :=
  if decide (tc_tier (dc_col c) = DEVICE) then
    ∃ bs, device_ c = Some bs ∧ device_scan ty bs (rows_in ty c) pred op hf r ∧ fs' = fs ∧ c' = c
  else
    on_host fs c (λ bs fs, r ← host_scan ty bs (rows_in ty c) pred op hf; Ret (r, fs)) = Ret (r, fs', c').

Definition host_groups (ty : MatrixType) (kbs vbs : list byte) (n : nat) (G : Z) (pred : MatrixPredicate) (op : MatrixAggOp)
    (hf : bool) (nulls : option (list Z)) : outcome (list Z) :=
  match ty with
  | U32 => if hf then matrix_cpu_group_reduce_pred (u32s kbs) (u32s vbs) n G op pred nulls
           else matrix_cpu_group_reduce (u32s kbs) (u32s vbs) n G op nulls
  | I64 => tmp ← (if hf then matrix_cpu_group_reduce_i64_pred (u32s kbs) (i64s vbs) n G op pred nulls
                  else matrix_cpu_group_reduce_i64 (u32s kbs) (i64s vbs) n G op nulls);
           Ret (map (encode_result I64) tmp)
  | F64 => if hf then matrix_cpu_group_reduce_f64_pred (u32s kbs) (f64s vbs) n G op pred nulls
           else matrix_cpu_group_reduce_f64 (u32s kbs) (f64s vbs) n G op nulls
  end.

Definition device_groups (ty : MatrixType) (kbs vbs : list byte) (n : nat) (G : Z) (pred : MatrixPredicate)
    (op : MatrixAggOp) (hf : bool) : list Z → Prop :=
  match ty with
  | U32 => matrix_gpu_group_reduce_dev (u32s kbs) (u32s vbs) n G op pred hf
  | I64 => matrix_gpu_group_reduce_dev_i64 (u32s kbs) (i64s vbs) n G op pred hf
  | F64 => matrix_gpu_group_reduce_dev_f64 (u32s kbs) (f64s vbs) n G op pred hf
  end.

(** [grouped_aggregate] and its siblings, [nulls] being what [value_nulls] gives. *)
Definition cuda_group (ty : MatrixType) (G : Z) (pred : MatrixPredicate) (op : MatrixAggOp) (hf : bool)
    (nulls : option (list Z)) (fs : filesys) (kc vc : DeviceColumn)
    (out : list Z) (fs' : filesys) (kc' vc' : DeviceColumn) : Prop :=
  let n := match ty with U32 => rows_in U32 kc | _ => rows_in ty vc end in
  if decide (tc_tier (dc_col kc) = DEVICE ∧ tc_tier (dc_col vc) = DEVICE ∧ nulls = None) then
    ∃ kbs vbs, device_ kc = Some kbs ∧ device_ vc = Some vbs ∧
      device_groups ty kbs vbs n G pred op hf out ∧ fs' = fs ∧ kc' = kc ∧ vc' = vc
  else
    on_host fs kc (λ kbs fs,
      '(out, fs, vc') ← on_host fs vc (λ vbs fs, out ← host_groups ty kbs vbs n G pred op hf nulls; Ret (out, fs));
      Ret ((out, vc'), fs)) = Ret ((out, vc'), fs', kc').

(** ** Migrations keep the bytes *)

Definition cuda_bytes (fs : filesys) (c : DeviceColumn) : list byte :=
  match tc_tier (dc_col c) with DEVICE => default [] (device_ c) | _ => tc_bytes pid fs (dc_col c) end.

Definition cuda_wf (fs : filesys) (c : DeviceColumn) : Prop :=
  match tc_tier (dc_col c) with
  | DEVICE => tc_host (dc_col c) = [] ∧ ∃ bs, device_ c = Some bs ∧ tc_size (dc_col c) = Z.of_nat (length bs)
  | _ => col_wf pid fs (dc_col c) ∧ device_ c = None
  end.

Definition cuda_path (c : DeviceColumn) : string := cold_path pid (dc_col c).

(** What a migration does to the column and to the files. *)
Record cuda_migrated (dest : MemorySpace) (fs : filesys) (c : DeviceColumn) (fs' : filesys) (c' : DeviceColumn) : Prop := {
  cm_tier : tc_tier (dc_col c') = dest;
  cm_id : tc_id (dc_col c') = tc_id (dc_col c);
  cm_size : tc_size (dc_col c') = tc_size (dc_col c);
  cm_serial : tc_serial (dc_col c') = tc_serial (dc_col c);
  cm_wf : cuda_wf fs' c';
  cm_bytes : cuda_bytes fs' c' = cuda_bytes fs c;
  cm_frame : ∀ p, p ≠ cuda_path c → fs_read fs' p = fs_read fs p;
  cm_denied : fs_denied fs' = fs_denied fs;
  cm_room : Z.of_nat (fs_room fs) + (if decide (tc_tier (dc_col c) = COLD) then tc_size (dc_col c) else 0) ≤
            Z.of_nat (fs_room fs') + (if decide (dest = COLD) then tc_size (dc_col c) else 0)
}.

Lemma cuda_read_to_host_wf fs c : cuda_wf fs c → cuda_read_to_host fs c = Ret (cuda_bytes fs c).
Proof.
  unfold cuda_wf, cuda_bytes, cuda_read_to_host. destruct (tc_tier (dc_col c)) eqn:E.
  all: try (intros [Hw _]; by rewrite read_to_host_wf; [unfold tc_bytes; rewrite E|]).
  intros (_ & bs & -> & ->). cbn. rewrite Nat2Z.id. by rewrite take_ge.
Qed.

Lemma cuda_wf_size fs c : cuda_wf fs c → tc_size (dc_col c) = Z.of_nat (length (cuda_bytes fs c)).
Proof.
  unfold cuda_wf, cuda_bytes. destruct (tc_tier (dc_col c)) eqn:E; [intros [H _]; by apply col_wf_size| |intros [H _]; by apply col_wf_size..].
  by intros (_ & bs & -> & ->).
Qed.

(** The host copy every migration passes through. *)
Definition staged (fs : filesys) (c : DeviceColumn) : DeviceColumn :=
  mkDC (mkTC (tc_id (dc_col c)) (tc_size (dc_col c)) HOST (tc_serial (dc_col c)) (cuda_bytes fs c)) None.

Lemma migrate_via_host dest fs c : cuda_wf fs c → dest ≠ tc_tier (dc_col c) →
  let fs1 := free_current pid fs (dc_col c) in
  cuda_migrate_to dest fs c =
    (if decide (dest = HOST) then Ret (staged fs c, fs1) else cuda_migrate_to dest fs1 (staged fs c)) ∧
  (tc_tier (dc_col c) ≠ HOST → cuda_migrated HOST fs c fs1 (staged fs c)).
Proof.
  intros Hwf Hne fs1. pose proof (cuda_wf_size fs c Hwf) as Hsize.
  assert ((if decide (tc_tier (dc_col c) = DEVICE) then None else device_ c) = None) as Hdev.
  { unfold cuda_wf in Hwf. destruct (tc_tier (dc_col c)); cbn; try done; by destruct Hwf. }
  split.
  - unfold cuda_migrate_to at 1. rewrite decide_False by done. rewrite cuda_read_to_host_wf by done.
    cbn [mbind outcome_bind]. unfold cuda_free_current. rewrite Hdev. fold fs1.
    destruct dest; [by rewrite decide_True|rewrite decide_False by done..];
      unfold cuda_migrate_to; rewrite decide_False by done; unfold cuda_free_current, free_current, cuda_read_to_host; cbn;
      by rewrite ?decide_False by done.
  - intros Hh. split; try done.
    + intros p Hp. unfold fs1, free_current. destruct (decide (tc_tier (dc_col c) = COLD)); [|done]. unfold fs_remove, fs_read. cbn.
      rewrite lookup_delete_ne; [done|]. intros <-. by apply Hp.
    + unfold fs1, free_current. by destruct (decide (tc_tier (dc_col c) = COLD)).
    + rewrite (decide_False (P := HOST = COLD)) by done. unfold fs1, free_current. destruct (decide (tc_tier (dc_col c) = COLD)) as [Hc|]; [|lia].
      pose proof (fs_size_read fs (cold_path pid (dc_col c))) as Hfs.
      unfold cuda_bytes, tc_bytes in Hsize. rewrite Hc in Hsize. unfold fs_remove. cbn. lia.
Qed.

(** From the host to a file, as in the CPU build. *)
Lemma migrate_to_cold fs t : tc_tier t = HOST →
  cuda_migrate_to COLD fs (mkDC t None) = ('(t', fs') ← migrate_to pid COLD fs t; Ret (mkDC t' None, fs')).
Proof.
  intros Ht. unfold cuda_migrate_to, migrate_to, cuda_read_to_host, cuda_free_current, read_to_host, free_current.
  cbn [dc_col device_]. rewrite Ht, !decide_False by done. cbn. destruct (write_cold _ _ _ _); done.
Qed.

Lemma migrate_to_device fs t : tc_tier t = HOST →
  cuda_migrate_to DEVICE fs (mkDC t None) =
    Ret (mkDC (mkTC (tc_id t) (tc_size t) DEVICE (tc_serial t) []) (push_device (tc_size t) (tc_host t)), fs).
Proof.
  intros Ht. unfold cuda_migrate_to, cuda_read_to_host, cuda_free_current, read_to_host, free_current.
  cbn [dc_col device_]. rewrite Ht, !decide_False by done. reflexivity.
Qed.

Lemma cuda_migrate_spec dest fs c : cuda_wf fs c → dest ≠ UNIFIED → cuda_path c ∉ fs_denied fs →
  (dest = COLD → tc_tier (dc_col c) ≠ COLD →
    tc_size (dc_col c) ≤ Z.of_nat (fs_room fs + fs_size fs (cuda_path c))) →
  ∃ c' fs', cuda_migrate_to dest fs c = Ret (c', fs') ∧ cuda_migrated dest fs c fs' c'.
Proof.
  intros Hwf Hd Hden Hroom. destruct (decide (dest = tc_tier (dc_col c))) as [->|Hne].
  { exists c, fs. split; [unfold cuda_migrate_to; by rewrite decide_True|]. by split. }
  destruct (migrate_via_host dest fs c Hwf Hne) as [-> Hhost]. destruct (decide (dest = HOST)) as [->|Hdh].
  { do 2 eexists. split; [done|]. by apply Hhost. }
  set (fs1 := free_current pid fs (dc_col c)) in *.
  assert (cuda_migrated HOST fs c fs1 (staged fs c)) as [_ _ _ _ Hw1 Hb1 Hf1 Hden1 Hr1].
  { destruct (decide (tc_tier (dc_col c) = HOST)) as [Hh|]; [|by apply Hhost].
    assert (fs1 = fs) as -> by (unfold fs1, free_current; by rewrite decide_False by congruence).
    assert (staged fs c = c) as ->; [|by rewrite <- Hh in *; split].
    clear Hhost. unfold staged, cuda_bytes, tc_bytes. unfold cuda_wf in Hwf.
    rewrite Hh in *. destruct Hwf as [_ Hd0]. destruct c as [[i sz t se h] d]. cbn in *. by subst. }
  pose proof (cuda_wf_size fs c Hwf) as Hsize. destruct dest; try done.
  - unfold staged. rewrite migrate_to_device by done. do 2 eexists. split; [done|]. unfold push_device. cbn [tc_size tc_host tc_id tc_serial].
    rewrite Hsize, Nat2Z.id, take_ge by done. split; cbn; try done.
    split; [done|]. by exists (cuda_bytes fs c).
  - assert (fs1 = fs) as E by (unfold fs1, free_current; by rewrite decide_False by congruence). rewrite E in *.
    unfold staged. rewrite migrate_to_cold by done. destruct Hw1 as [Hw1 _].
    destruct (migrate_to_spec pid COLD fs (dc_col (staged fs c))) as (t' & fs' & Hm & [Ht Hi Hsz Hse Hw Hb Hf Hdn Hrm]);
      [done|by right|done|intros _ _; by apply Hroom|].
    unfold staged in Hm. cbn [dc_col] in Hm. rewrite Hm. cbn [mbind outcome_bind]. do 2 eexists. split; [done|].
    split; cbn [dc_col]; try done.
    + unfold cuda_wf. cbn [dc_col device_]. by rewrite Ht.
    + unfold cuda_bytes at 1. cbn [dc_col device_]. by rewrite Ht.
    + rewrite (decide_False (P := tc_tier (dc_col c) = COLD)) by congruence.
      rewrite (decide_False (P := tc_tier (dc_col (staged fs c)) = COLD)) in Hrm by done. exact Hrm.
Qed.

(** ** Borrowing leaves no trace *)

(** The column is as it was, up to where its file's bytes lie. *)
Record kept (fs : filesys) (c : DeviceColumn) (fs' : filesys) (c' : DeviceColumn) : Prop := {
  kp_tier : tc_tier (dc_col c') = tc_tier (dc_col c);
  kp_size : tc_size (dc_col c') = tc_size (dc_col c);
  kp_path : cuda_path c' = cuda_path c;
  kp_wf : cuda_wf fs' c';
  kp_bytes : cuda_bytes fs' c' = cuda_bytes fs c;
  kp_denied : fs_denied fs' = fs_denied fs;
  kp_room : (fs_room fs ≤ fs_room fs')%nat
}.

Lemma kept_refl fs c : cuda_wf fs c → kept fs c fs c.
Proof. by split. Qed.

Lemma cuda_frame fs fs' c : fs_read fs' (cuda_path c) = fs_read fs (cuda_path c) → cuda_wf fs c →
  cuda_wf fs' c ∧ cuda_bytes fs' c = cuda_bytes fs c.
Proof.
  unfold cuda_wf, cuda_bytes. intros Hf. destruct (tc_tier (dc_col c)); [| |..]; try done.
  all: by intros [Hw Hd]; destruct (col_wf_frame pid fs fs' (dc_col c) Hf Hw).
Qed.

Lemma not_unified fs c : cuda_wf fs c → tc_tier (dc_col c) ≠ UNIFIED.
Proof. unfold cuda_wf. intros Hw E. rewrite E in Hw. destruct Hw as [Hw _]. unfold col_wf in Hw. by rewrite E in Hw. Qed.

Lemma on_host_spec {A} fs c (f : list byte → filesys → outcome (A * filesys)) (Q : A → filesys → Prop) :
  cuda_wf fs c → cuda_path c ∉ fs_denied fs →
  (∀ fs1, fs_denied fs1 = fs_denied fs → (fs_room fs ≤ fs_room fs1)%nat →
    (∀ p, p ≠ cuda_path c → fs_read fs1 p = fs_read fs p) →
    ∃ a fs2, f (cuda_bytes fs c) fs1 = Ret (a, fs2) ∧ fs_denied fs2 = fs_denied fs1 ∧ (fs_room fs1 ≤ fs_room fs2)%nat ∧ Q a fs2) →
  ∃ a fs2 fs3 c3, on_host fs c f = Ret (a, fs3, c3) ∧ Q a fs2 ∧ kept fs c fs3 c3 ∧
    ∀ p, p ≠ cuda_path c → fs_read fs3 p = fs_read fs2 p.
Proof.
  intros Hwf Hden Hf. unfold on_host.
  destruct (cuda_migrate_spec HOST fs c Hwf ltac:(done) Hden ltac:(done)) as (c1 & fs1 & -> & [Ht Hi Hs Hse Hw Hb Hfr Hd Hr]).
  cbn [mbind outcome_bind]. rewrite (decide_False (P := HOST = COLD)) in Hr by done.
  assert (0 ≤ tc_size (dc_col c)) as Hsz by (rewrite (cuda_wf_size fs c Hwf); lia).
  unfold host_ptr. rewrite decide_True by done. cbn [of_option mbind outcome_bind].
  assert (tc_host (dc_col c1) = cuda_bytes fs c) as -> by (rewrite <- Hb; unfold cuda_bytes, tc_bytes; by rewrite Ht).
  destruct (Hf fs1 Hd) as (a & fs2 & -> & Hd2 & Hr2 & HQ); [destruct (decide _); lia|done|]. cbn [mbind outcome_bind].
  assert (cuda_path c1 = cuda_path c) as Hp by (unfold cuda_path, cold_path; by rewrite Hse).
  assert (cuda_wf fs2 c1 ∧ cuda_bytes fs2 c1 = cuda_bytes fs c) as [Hw2 Hb2].
  { rewrite <- Hb. unfold cuda_wf, cuda_bytes, tc_bytes, col_wf in *. by rewrite Ht in *. }
  destruct (cuda_migrate_spec (tc_tier (dc_col c)) fs2 c1 Hw2) as (c3 & fs3 & -> & [Ht3 Hi3 Hs3 Hse3 Hw3 Hb3 Hfr3 Hd3 Hr3]).
  - by eapply not_unified.
  - by rewrite Hp, Hd2, Hd.
  - intros Hc _. rewrite Hs. rewrite decide_True in Hr by done. lia.
  - cbn [mbind outcome_bind]. exists a, fs2, fs3, c3. split; [done|]. split; [done|]. split.
    + split; try congruence; [unfold cuda_path, cold_path; congruence|].
      rewrite Ht, (decide_False (P := HOST = COLD)), Hs in Hr3 by done. destruct (decide (tc_tier (dc_col c) = COLD)); lia.
    + intros p Hpp. apply Hfr3. by rewrite Hp.
Qed.

(** ** The kernels agree with the host *)

(** Where the device can be compared with the host: a u32 column always, an
    int64 column when no sum can overflow, doubles for MIN and MAX. *)
Definition comparable (ty : MatrixType) (op : MatrixAggOp) (vals : list Z) : Prop :=
  match ty with
  | U32 => True
  | I64 => sum_list_Z (map Z.abs vals) ≤ INT64_MAX
  | F64 => op = AGG_MIN ∨ op = AGG_MAX
  end.

(** Equal, for doubles up to the sign of a zero. *)
Definition same_answer (ty : MatrixType) (r r' : Z) : Prop := r = r' ∨ (ty = F64 ∧ f64_eqb r r' = true).

Lemma length_values ty bs : length (col_values ty bs) = (length bs / type_width ty)%nat.
Proof. destruct ty; cbn [col_values type_width]; unfold u32s, i64s, f64s, words; by rewrite ?length_map, length_seq. Qed.

Lemma rows_bytes ty fs c : cuda_wf fs c → rows_in ty c = length (col_values ty (cuda_bytes fs c)).
Proof.
  intros Hwf. rewrite length_values. unfold rows_in, count_of. rewrite (cuda_wf_size fs c Hwf).
  by rewrite <- Nat2Z.inj_div, Nat2Z.id.
Qed.

Lemma u32s_range bs : Forall in_u32 (u32s bs).
Proof. eapply Forall_impl; [apply words_range|]. intros x Hx. exact Hx. Qed.

Lemma i64s_range bs : Forall in_i64 (i64s bs).
Proof. apply Forall_forall. intros x (y & -> & _)%list_elem_of_fmap. apply i64_range. Qed.

Lemma f64s_range bs : Forall in_u64 (f64s bs).
Proof. eapply Forall_impl; [apply words_range|]. intros x Hx. exact Hx. Qed.

Lemma device_scan_agrees ty bs pred op hf r' :
  Z.of_nat (length (col_values ty bs)) ≤ INT64_MAX → comparable ty op (col_values ty bs) →
  host_scan ty bs (length (col_values ty bs)) pred op hf = Ret r' →
  (∃ r, device_scan ty bs (length (col_values ty bs)) pred op hf r) ∧
  ∀ r, device_scan ty bs (length (col_values ty bs)) pred op hf r → same_answer ty r r'.
Proof.
  intros Hn Hc Hh. unfold INT64_MAX in Hn. destruct ty; cbn [col_values device_scan host_scan comparable] in *.
  - destruct (gpu_reduce_u32_matches_cpu (u32s bs) pred op hf (u32s_range bs)) as [He Ha]; [lia|]. split; [exact He|].
    intros r Hr. left. specialize (Ha r Hr). unfold cpu_reduce_u32 in Ha. rewrite Ha in Hh. by injection Hh.
  - destruct (gpu_reduce_i64_matches_cpu (i64s bs) pred op hf (i64s_range bs)) as [He Ha]; [done|done|]. split; [exact He|].
    intros r Hr. left. specialize (Ha r Hr). unfold cpu_reduce_i64 in Ha. rewrite Ha in Hh. by injection Hh.
  - destruct (gpu_reduce_f64_extremum_matches_cpu (f64s bs) pred op hf Hc (f64s_range bs)) as [He Ha]. split; [exact He|].
    intros r Hr. right. split; [done|]. destruct (Ha r Hr) as (x & Hx & Heq). unfold cpu_reduce_f64 in Hx. rewrite Hx in Hh. by injection Hh as <-.
Qed.

(** C19: Where a column lives does not change what a scan answers, for the aggregates
    that can be compared: any over u32 values, any over int64 values whose absolute
    values sum to no more than INT64_MAX, MIN and MAX over doubles (SUM and COUNT,
    which add up doubles, are left out).  On the host, on disk or in device memory, whatever the interleaving of the kernel's
    threads, the scan then ends with the answer of the host's reducer over the
    column's bytes, for doubles up to the sign of a zero, and the column keeps its
    bytes and its tier. *)
Theorem scan_answer_is_tier_free ty pred op hf fs c r' :
  cuda_wf fs c → cuda_path c ∉ fs_denied fs → tc_size (dc_col c) ≤ INT64_MAX →
  comparable ty op (col_values ty (cuda_bytes fs c)) →
  host_scan ty (cuda_bytes fs c) (rows_in ty c) pred op hf = Ret r' →
  (∃ r fs' c', cuda_scan ty pred op hf fs c r fs' c') ∧
  ∀ r fs' c', cuda_scan ty pred op hf fs c r fs' c' → kept fs c fs' c' ∧ same_answer ty r r'.
Proof.
  intros Hwf Hden Hsz Hc Hh. unfold cuda_scan. destruct (decide _) as [Hdev|Hdev].
  - pose proof Hwf as Hw. unfold cuda_wf in Hw. rewrite Hdev in Hw. destruct Hw as (_ & bs & Hbs & Hlen).
    assert (cuda_bytes fs c = bs) as Hcb by (unfold cuda_bytes; by rewrite Hdev, Hbs).
    rewrite (rows_bytes ty fs c Hwf), Hcb in *.
    destruct (device_scan_agrees ty bs pred op hf r') as [[r Hr] Ha]; [|done..|].
    { rewrite length_values. pose proof (Nat.Div0.div_le_upper_bound (length bs) (type_width ty) (length bs)) as Hd.
      assert (length bs / type_width ty ≤ length bs)%nat by (apply Hd; destruct ty; cbn; lia). lia. }
    split; [by exists r, fs, c, bs|]. intros r2 fs' c' (bs2 & Hb2 & Hr2 & -> & ->). rewrite Hbs in Hb2. injection Hb2 as <-.
    split; [by apply kept_refl|by apply Ha].
  - destruct (on_host_spec fs c (λ bs fs, r ← host_scan ty bs (rows_in ty c) pred op hf; Ret (r, fs)) (λ r _, r = r') Hwf Hden)
      as (r & fs2 & fs3 & c3 & He & -> & Hk & _).
    { intros fs1 _ _ _. exists r', fs1. rewrite Hh. done. }
    rewrite He. split; [by exists r', fs3, c3|]. intros r fs' c' [= <- <- <-]. split; [done|by left].
Qed.

Definition comparable_groups (ty : MatrixType) (op : MatrixAggOp) (pred : MatrixPredicate) (hf : bool) (vals : list Z) : Prop :=
  comparable ty op vals ∧ (ty = F64 → nan_free vals pred hf).

Definition same_groups (ty : MatrixType) (out slots : list Z) : Prop := Forall2 (same_answer ty) out slots.

Lemma same_groups_refl ty out : same_groups ty out out.
Proof. apply Forall_Forall2_diag, Forall_true. intros x. by left. Qed.

Lemma device_groups_agree ty kbs vbs G pred op hf slots :
  length (u32s kbs) = length (col_values ty vbs) → Z.of_nat (length (col_values ty vbs)) ≤ INT64_MAX →
  comparable_groups ty op pred hf (col_values ty vbs) →
  host_groups ty kbs vbs (length (col_values ty vbs)) G pred op hf None = Ret slots →
  (∃ out, device_groups ty kbs vbs (length (col_values ty vbs)) G pred op hf out) ∧
  ∀ out, device_groups ty kbs vbs (length (col_values ty vbs)) G pred op hf out → same_groups ty out slots.
Proof.
  intros Hlen Hn [Hc Hnan] Hh.
  assert (Forall (λ k, 0 ≤ k) (u32s kbs)) as Hk by (eapply Forall_impl; [apply u32s_range|]; intros x [Hx _]; exact Hx).
  destruct ty; cbn [col_values device_groups host_groups comparable] in *.
  - destruct (gpu_group_u32_matches_cpu (u32s kbs) (u32s vbs) G op pred hf Hlen Hk) as [He Ha]. split; [exact He|].
    intros out Ho. specialize (Ha out Ho). unfold cpu_group_u32 in Ha. rewrite Ha in Hh. injection Hh as ->. apply same_groups_refl.
  - destruct (gpu_group_i64_matches_cpu (u32s kbs) (i64s vbs) G op pred hf Hlen Hk (i64s_range vbs) Hn Hc) as [He Ha].
    split; [exact He|]. intros out Ho. destruct (Ha out Ho) as (tmp & Ht & ->). unfold cpu_group_i64 in Ht. rewrite Ht in Hh.
    injection Hh as <-. apply same_groups_refl.
  - destruct (gpu_group_f64_extremum_matches_cpu (u32s kbs) (f64s vbs) G op pred hf Hc Hlen Hk (f64s_range vbs) (Hnan eq_refl)) as [He Ha].
    split; [exact He|]. intros out Ho. destruct (Ha out Ho) as (x & Hx & Heq). unfold cpu_group_f64 in Hx. rewrite Hx in Hh. injection Hh as <-.
    eapply Forall2_impl; [exact Heq|]. intros a b Hab. by right.
Qed.

(** C20: Nor does it change what a GROUP BY answers, under the same restrictions on
    the aggregate and, for doubles, unless a != filter lets a NaN through: with key
    and value columns of as many rows on any tiers, the slots are
    those of the host's grouped reducer over their bytes, for doubles up to the sign
    of a zero, and both columns keep their bytes and their tiers. *)
Theorem group_answer_is_tier_free ty G pred op hf nulls fs kc vc slots :
  cuda_wf fs kc → cuda_wf fs vc → cuda_path kc ∉ fs_denied fs → cuda_path vc ∉ fs_denied fs →
  cuda_path kc ≠ cuda_path vc → rows_in U32 kc = rows_in ty vc → tc_size (dc_col vc) ≤ INT64_MAX →
  comparable_groups ty op pred hf (col_values ty (cuda_bytes fs vc)) →
  host_groups ty (cuda_bytes fs kc) (cuda_bytes fs vc) (rows_in ty vc) G pred op hf nulls = Ret slots →
  (∃ out fs' kc' vc', cuda_group ty G pred op hf nulls fs kc vc out fs' kc' vc') ∧
  ∀ out fs' kc' vc', cuda_group ty G pred op hf nulls fs kc vc out fs' kc' vc' →
    kept fs kc fs' kc' ∧ cuda_wf fs' vc' ∧ cuda_bytes fs' vc' = cuda_bytes fs vc ∧
    tc_tier (dc_col vc') = tc_tier (dc_col vc) ∧ same_groups ty out slots.
Proof.
  intros Hwk Hwv Hdk Hdv Hne Hrows Hsz Hc Hh. unfold cuda_group.
  replace (match ty with U32 => rows_in U32 kc | _ => rows_in ty vc end) with (rows_in ty vc) by by destruct ty.
  destruct (decide _) as [(Hkd & Hvd & ->)|Hdev].
  - pose proof Hwk as Hk. pose proof Hwv as Hv. unfold cuda_wf in Hk, Hv. rewrite Hkd in Hk. rewrite Hvd in Hv.
    destruct Hk as (_ & kbs & Hkb & Hkl), Hv as (_ & vbs & Hvb & Hvl).
    assert (cuda_bytes fs kc = kbs ∧ cuda_bytes fs vc = vbs) as [Ek Ev] by (unfold cuda_bytes; by rewrite Hkd, Hvd, Hkb, Hvb).
    rewrite (rows_bytes U32 fs kc Hwk), (rows_bytes ty fs vc Hwv), Ek, Ev in *.
    destruct (device_groups_agree ty kbs vbs G pred op hf slots Hrows) as [[out Ho] Ha]; [|done..|].
    { rewrite length_values. pose proof (Nat.Div0.div_le_upper_bound (length vbs) (type_width ty) (length vbs)) as Hd.
      assert (length vbs / type_width ty ≤ length vbs)%nat by (apply Hd; destruct ty; cbn; lia). lia. }
    split; [by exists out, fs, kc, vc, kbs, vbs|].
    intros out2 fs' kc' vc' (kb2 & vb2 & Hk2 & Hv2 & Ho2 & -> & -> & ->). rewrite Hkb in Hk2. rewrite Hvb in Hv2. simplify_eq.
    split; [by apply kept_refl|]. split; [done|]. split; [done|]. split; [done|]. by apply Ha.
  - set (f := λ vbs fs, _) in |- *. set (Q := λ (a : list Z * DeviceColumn) fs2, a.1 = slots ∧ cuda_wf fs2 a.2 ∧
      cuda_bytes fs2 a.2 = cuda_bytes fs vc ∧ tc_tier (dc_col a.2) = tc_tier (dc_col vc) ∧ cuda_path a.2 = cuda_path vc).
    destruct (on_host_spec fs kc f Q Hwk Hdk) as ([out vc'] & fs2 & fs3 & kc' & He & (Ho & Hw & Hb & Ht & Hp) & Hkk & Hfr).
    + intros fs1 Hd1 Hr1 Hf1. destruct (cuda_frame fs fs1 vc (Hf1 _ (not_eq_sym Hne)) Hwv) as [Hwv1 Hbv1].
      destruct (on_host_spec fs1 vc (λ vbs fs4, out ← host_groups ty (cuda_bytes fs kc) vbs (rows_in ty vc) G pred op hf nulls; Ret (out, fs4))
        (λ a _, a = slots) Hwv1) as (a & fs2 & fs3 & vc' & He & -> & [Hkt Hks Hkp Hkw Hkb Hkd Hkr] & _).
      * by rewrite Hd1.
      * intros fs2 _ _ _. exists slots, fs2. rewrite Hbv1. by rewrite Hh.
      * exists (slots, vc'), fs3. unfold f. rewrite He. split; [done|]. split; [done|]. split; [done|].
        split_and!; [done|exact Hkw|exact (eq_trans Hkb Hbv1)|done|done].
    + rewrite He. cbn [fst snd] in *. subst out. split; [by exists slots, fs3, kc', vc'|].
      intros out2 fs' kc2 vc2 [= <- <- <- <-]. destruct (cuda_frame fs2 fs3 vc') as [Hw3 Hb3]; [apply Hfr; by rewrite Hp|done|].
      split; [done|]. split; [done|]. split; [by rewrite Hb3|]. split; [done|apply same_groups_refl].
Qed.
End cuda_column.

(** ** Witnesses *)

Definition device_column (id serial : Z) (bs : list byte) : DeviceColumn :=
  mkDC (mkTC id (Z.of_nat (length bs)) DEVICE serial []) (Some bs).

Lemma device_column_wf pid fs id serial bs : cuda_wf pid fs (device_column id serial bs).
Proof. split; [done|]. by exists bs. Qed.

Lemma scan_answer_is_tier_free_witness :
  let fs := mkFS ∅ 100 ∅ in let c := device_column 1 1 (bytes_of U32 [5; 7; 9]) in
  ∃ r fs' c', cuda_scan 1 U32 (mkPred GT 5 0) AGG_SUM true fs c r fs' c' ∧ r = 16.
Proof.
  intros fs c. destruct (scan_answer_is_tier_free 1 U32 (mkPred GT 5 0) AGG_SUM true fs c 16) as [(r & fs' & c' & Hr) Ha].
  - apply device_column_wf.
  - apply not_elem_of_empty.
  - vm_compute. discriminate.
  - exact I.
  - vm_compute. reflexivity.
  - exists r, fs', c'. split; [exact Hr|]. destruct (Ha r fs' c' Hr) as [_ [H|[H _]]]; [exact H|discriminate H].
Defined.

Lemma group_answer_is_tier_free_witness :
  let fs := mkFS ∅ 100 ∅ in
  let kc := device_column 1 1 (bytes_of U32 [0; 1; 0]) in let vc := device_column 2 2 (bytes_of U32 [5; 7; 9]) in
  ∃ out fs' kc' vc', cuda_group 1 U32 2 (mkPred GT 5 0) AGG_SUM true None fs kc vc out fs' kc' vc' ∧ same_groups U32 out [9; 7].
Proof.
  intros fs kc vc.
  destruct (group_answer_is_tier_free 1 U32 2 (mkPred GT 5 0) AGG_SUM true None fs kc vc [9; 7]) as [(out & fs' & kc' & vc' & Ho) Ha].
  - apply device_column_wf.
  - apply device_column_wf.
  - apply not_elem_of_empty.
  - apply not_elem_of_empty.
  - vm_compute. discriminate.
  - vm_compute. reflexivity.
  - vm_compute. discriminate.
  - split; [exact I|discriminate].
  - vm_compute. reflexivity.
  - exists out, fs', kc', vc'. split; [exact Ho|]. apply (Ha out fs' kc' vc' Ho).
Defined.
