(* ===== verification/GpuPages.v ===== *)
(** * GpuPages: the page kernel of [compute_cuda.cuh]

    [matrix_page_kernel] gives each page of the store a block of threads.  A
    thread reads its page's bounds, strides over the page's queries, stores a key
    into the slot its low bits name, and adds its two counts to the counters at
    the end.  [page_step] is one access of one thread, so a run is any
    interleaving; a store or load of an aligned word is one access.  [page_launch]:
    every run ends, within a bound, with exact counters, and a slot keeps its
    value unless some write of the batch left its key there. *)

From S2P Require Export GpuKernels PointStore.

(** ** The page kernel *)

(** Where a thread is: block and thread index until it has read its page's
    bounds; then its loop variable, the page's end and its two counts. *)
Inductive PagePc :=
  | PEntering (page tid : nat)
  | PLooping (j end_ r w : Z)
  | PReads (r w : Z)                       (* at [if (r) atomicAdd(reads, r)] *)
  | PWrites (w : Z)                        (* at [if (w) atomicAdd(writes, w)] *)
  | PExited.

Record PageGrid := mkPages { pg_store : list Z; pg_reads : Z; pg_writes : Z; pg_threads : list PagePc }.

Section page_kernel.
Context (binned : list DatabaseQuery) (offsets : list Z) (blockDim : nat).

(** The slot a key is stored in. *)
Definition slot_of (key : Z) : Z := Z.land key MATRIX_STORE_MASK.

(** The next access of a thread: the store, the counters and where it is then;
    [None] when it has exited and when it would read outside an array. *)
Definition matrix_page_kernel (store : list Z) (reads writes : Z) (p : PagePc) : option (list Z * Z * Z * PagePc) :=
  match p with
  | PEntering page tid =>
      if Z.of_nat page >=? MATRIX_PAGE_COUNT then Some (store, reads, writes, PExited)
      else
        begin ← offsets !! page;
        end_ ← offsets !! S page;
        Some (store, reads, writes, PLooping (u32 (begin + Z.of_nat tid)) end_ 0 0)
  | PLooping j end_ r w =>
      if j <? end_ then
        q ← binned !! Z.to_nat j;
        let slot := Z.to_nat (slot_of (query_id q)) in
        let next := u32 (j + Z.of_nat blockDim) in
        if opcode q =? OP_READ then _ ← store !! slot; Some (store, reads, writes, PLooping next end_ (u32 (r + 1)) w)
        else if opcode q =? OP_WRITE then
          _ ← store !! slot; Some (<[slot := query_id q]> store, reads, writes, PLooping next end_ r (u32 (w + 1)))
        else Some (store, reads, writes, PLooping next end_ r w)
      else Some (store, reads, writes, PReads r w)
  | PReads r w => Some (store, if r =? 0 then reads else atomicAdd reads r, writes, PWrites w)
  | PWrites w => Some (store, reads, if w =? 0 then writes else atomicAdd writes w, PExited)
  | PExited => None
  end.

Inductive page_step : PageGrid → PageGrid → Prop :=
  | PageStep t p p' store reads writes store' reads' writes' ts :
      ts !! t = Some p → matrix_page_kernel store reads writes p = Some (store', reads', writes', p') →
      page_step (mkPages store reads writes ts) (mkPages store' reads' writes' (<[t := p']> ts)).

Definition page_exited (g : PageGrid) : Prop := Forall (λ p, p = PExited) (pg_threads g).

Definition fresh_pages (gridDim : nat) : list PagePc :=
  concat (map (λ b, map (PEntering b) (seq 0 blockDim)) (seq 0 gridDim)).
End page_kernel.

(** ** Which rows a block visits *)

Lemma rows_shift step b n t : rows_from step (b + n) (b + t) ≡ₚ map (Nat.add b) (rows_from step n t).
Proof.
  apply NoDup_Permutation; [apply rows_nodup|apply (NoDup_fmap_2_strong (Nat.add b)); [intros x y _ _; lia|apply rows_nodup]|].
  intros j. rewrite elem_of_rows, list_elem_of_fmap. split.
  - intros [Hj Hm]. exists (j - b)%nat. rewrite elem_of_rows. split; [lia|]. split; [lia|]. by rewrite <- Nat.sub_add_distr.
  - intros (i & -> & [Hi Hm]%elem_of_rows). split; [lia|]. by replace (b + i - (b + t))%nat with (i - t)%nat by lia.
Qed.

Lemma block_covers step b n : (0 < step)%nat →
  concat (map (λ t, rows_from step (b + n) (b + t)) (seq 0 step)) ≡ₚ seq b n.
Proof.
  intros Hs. etrans; [apply concat_map_perm; intros t _; apply rows_shift|].
  rewrite <- map_map, <- concat_map, grid_covers by done. rewrite (fmap_add_seq b 0). by rewrite Nat.add_0_r.
Qed.

Lemma seq_pages (lo : nat → nat) n : lo 0%nat = 0%nat → (∀ p, (lo p ≤ lo (S p))%nat) →
  concat (map (λ p, seq (lo p) (lo (S p) - lo p)) (seq 0 n)) = seq 0 (lo n).
Proof.
  intros H0 Hm. induction n as [|n IH]; [by rewrite H0|].
  rewrite seq_S, map_app, concat_app, IH. cbn [map concat Nat.add]. rewrite app_nil_r.
  replace (lo (S n)) with (lo n + (lo (S n) - lo n))%nat at 2 by (specialize (Hm n); lia). by rewrite seq_app.
Qed.

(** ** One launch of the page kernel *)

Section page_run.
Context (binned : list DatabaseQuery) (offsets : list Z) (tpb n : nat) (lo : nat → nat).
Let pages : nat := Z.to_nat MATRIX_PAGE_COUNT.
Hypothesis Htpb : (0 < tpb)%nat.
Hypothesis Hbinned : (n ≤ length binned)%nat.
Hypothesis Hwidth : Z.of_nat (n + tpb) < 2 ^ 32.
Hypothesis Hlo : lo 0%nat = 0%nat ∧ (∀ p, (lo p ≤ lo (S p))%nat) ∧ lo pages = n.
Hypothesis Hoffsets : ∀ p, (p ≤ pages)%nat → offsets !! p = Some (Z.of_nat (lo p)).

Let at_row (j : nat) : DatabaseQuery := nth j binned zero_query.
Definition is_op (o : Z) (j : nat) : bool := opcode (nth j binned zero_query) =? o.
Definition ops (o : Z) (l : list nat) : nat := length (List.filter (is_op o) l).

(** The rows a thread has still to visit. *)
Definition rem (p : PagePc) : list nat :=
  match p with
  | PEntering page tid => if (page <? pages)%nat then rows_from tpb (lo (S page)) (lo page + tid) else []
  | PLooping j end_ _ _ => rows_from tpb (Z.to_nat end_) (Z.to_nat j)
  | _ => []
  end.

Definition counted_reads (p : PagePc) : Z := match p with PLooping _ _ r _ | PReads r _ => r | _ => 0 end.
Definition counted_writes (p : PagePc) : Z :=
  match p with PLooping _ _ _ w | PReads _ w | PWrites w => w | _ => 0 end.

(** What a thread has still to add to a counter. *)
Definition due_reads (p : PagePc) : nat := Z.to_nat (counted_reads p) + ops OP_READ (rem p).
Definition due_writes (p : PagePc) : nat := Z.to_nat (counted_writes p) + ops OP_WRITE (rem p).

Definition page_todo (p : PagePc) : nat :=
  match p with
  | PEntering _ _ => 4 + length (rem p)
  | PLooping _ _ _ _ => 3 + length (rem p)
  | PReads _ _ => 2
  | PWrites _ => 1
  | PExited => 0
  end.

Record page_pc_ok (p : PagePc) : Prop := {
  pp_counts : 0 ≤ counted_reads p ∧ 0 ≤ counted_writes p;
  pp_reads : (due_reads p ≤ n)%nat;
  pp_writes : (due_writes p ≤ n)%nat;
  pp_shape : match p with
             | PEntering page tid => (tid < tpb)%nat
             | PLooping j end_ _ _ => 0 ≤ j ∧ 0 ≤ end_ ≤ Z.of_nat n
             | _ => True
             end
}.

Lemma ops_perm o l1 l2 : l1 ≡ₚ l2 → ops o l1 = ops o l2.
Proof using All.
  unfold ops. induction 1 as [|x ?? _ IH|x y l|??? _ IH1 _ IH2]; cbn; [done| | |congruence].
  - destruct (is_op o x); cbn; by rewrite IH.
  - by destruct (is_op o x), (is_op o y).
Qed.

Lemma ops_rows o bound i : (ops o (rows_from tpb bound i) ≤ bound)%nat.
Proof using All.
  unfold ops, rows_from. etrans; [apply filter_length_le|]. etrans; [apply filter_length_le|].
  by rewrite length_seq.
Qed.

Lemma lo_le p : (p ≤ pages)%nat → (lo p ≤ n)%nat.
Proof using All.
  destruct Hlo as (_ & Hm & <-). clear -Hm. induction 1 as [|m Hp IH]; [done|]. etrans; [exact IH|apply Hm].
Qed.

Lemma fresh_pc_ok page tid : (tid < tpb)%nat → page_pc_ok (PEntering page tid).
Proof using All.
  intros Ht. assert (∀ o, (ops o (rem (PEntering page tid)) ≤ n)%nat) as Ho.
  { intros o. unfold rem. destruct (Nat.ltb_spec page pages); [|cbn; lia].
    etrans; [apply ops_rows|]. apply lo_le. lia. }
  split; cbn; [done|apply Ho..|done].
Qed.

(** One row of a thread's loop. *)
Lemma rem_next j end_ r w r' w' : 0 ≤ j → j < end_ → end_ ≤ Z.of_nat n →
  rem (PLooping j end_ r w) ≡ₚ Z.to_nat j :: rem (PLooping (u32 (j + Z.of_nat tpb)) end_ r' w').
Proof using All.
  intros Hj Hlt He. cbn [rem]. rewrite u32_small by (unfold in_u32; lia).
  replace (Z.to_nat (j + Z.of_nat tpb)) with (Z.to_nat j + tpb)%nat by lia.
  apply rows_next; [done|lia].
Qed.

Lemma ops_cons o j l : ops o (j :: l) = (Nat.b2n (is_op o j) + ops o l)%nat.
Proof using All. unfold ops. cbn. by destruct (is_op o j). Qed.

Definition id_of (j : nat) : Z := query_id (nth j binned zero_query).
Definition slot_at (j : nat) : nat := Z.to_nat (slot_of (id_of j)).
Definition slots : nat := Z.to_nat MATRIX_STORE_SLOTS.

Lemma slot_in_range j : (slot_at j < slots)%nat.
Proof using All.
  unfold slot_at, slot_of, slots, MATRIX_STORE_MASK, MATRIX_STORE_SLOTS.
  change (65536 - 1) with (Z.ones 16). rewrite Z.land_ones by lia.
  pose proof (Z.mod_pos_bound (id_of j) (2 ^ 16) ltac:(lia)). lia.
Qed.

(** What one access keeps: what is due and what is left move together, and the
    store changes only at the slot of a write that is no longer left. *)
Record kept_by (store : list Z) (reads writes : Z) (p : PagePc) (store' : list Z) (reads' writes' : Z) (p' : PagePc)
    : Prop := {
  kb_ok : page_pc_ok p';
  kb_store : length store' = length store;
  kb_range : in_u64 reads → in_u64 writes → in_u64 reads' ∧ in_u64 writes';
  kb_reads : u64 (reads' + Z.of_nat (due_reads p')) = u64 (reads + Z.of_nat (due_reads p));
  kb_writes : u64 (writes' + Z.of_nat (due_writes p')) = u64 (writes + Z.of_nat (due_writes p));
  kb_todo : (page_todo p' < page_todo p)%nat;
  kb_slots : (store' = store ∧ ∀ j, is_op OP_WRITE j = true → j ∈ rem p → j ∈ rem p') ∨
    ∃ j, (j < n)%nat ∧ is_op OP_WRITE j = true ∧ (∀ i, i ∈ rem p → i = j ∨ i ∈ rem p') ∧
      store' = <[slot_at j := id_of j]> store
}.

(** An access that does not touch the store or the counters. *)
Lemma quiet_keeps store reads writes p p' : page_pc_ok p →
  match p' with PLooping j end_ _ _ => 0 ≤ j ∧ 0 ≤ end_ ≤ Z.of_nat n | PEntering _ _ => False | _ => True end →
  rem p' = rem p → counted_reads p' = counted_reads p → counted_writes p' = counted_writes p →
  (page_todo p' < page_todo p)%nat → kept_by store reads writes p store reads writes p'.
Proof using All.
  intros [Hc Hr Hw _] Hsh Hrem Hcr Hcw Ht. unfold due_reads, due_writes in *.
  split; unfold due_reads, due_writes; rewrite ?Hrem, ?Hcr, ?Hcw; try done.
  - split; unfold due_reads, due_writes; rewrite ?Hrem, ?Hcr, ?Hcw; try done. by destruct p'.
  - left. split; [done|]. by intros j.
Qed.

Lemma page_enter_keeps store reads writes page tid store' reads' writes' p' : page_pc_ok (PEntering page tid) →
  matrix_page_kernel binned offsets tpb store reads writes (PEntering page tid) = Some (store', reads', writes', p') →
  kept_by store reads writes (PEntering page tid) store' reads' writes' p'.
Proof using All.
  intros Hok Hk. pose proof (pp_shape _ Hok) as Hsh. cbn in Hk, Hsh. rewrite Z.geb_leb in Hk.
  destruct (Z.leb_spec MATRIX_PAGE_COUNT (Z.of_nat page)) as [Hp|Hp].
  - injection Hk as <- <- <- <-. apply quiet_keeps; [done|done| |done|done|cbn; lia].
    unfold rem. destruct (Nat.ltb_spec page pages); [unfold pages in *; lia|done].
  - assert (page < pages)%nat as Hpg by (unfold pages; lia).
    rewrite (Hoffsets page), (Hoffsets (S page)) in Hk by lia. injection Hk as <- <- <- <-.
    pose proof (lo_le (S page) ltac:(lia)). pose proof (lo_le page ltac:(lia)).
    assert (rem (PLooping (u32 (Z.of_nat (lo page) + Z.of_nat tid)) (Z.of_nat (lo (S page))) 0 0) = rem (PEntering page tid)) as Hrem.
    { cbn [rem]. destruct (Nat.ltb_spec page pages); [|lia]. rewrite Nat2Z.id, u32_small by (unfold in_u32; lia).
      by rewrite <- Nat2Z.inj_add, Nat2Z.id. }
    apply quiet_keeps; [done| |done..|cbn [page_todo]; rewrite Hrem; lia].
    rewrite u32_small by (unfold in_u32; lia). lia.
Qed.

Lemma page_flush_keeps store reads writes p store' reads' writes' p' : page_pc_ok p →
  (match p with PReads _ _ | PWrites _ => True | _ => False end) →
  matrix_page_kernel binned offsets tpb store reads writes p = Some (store', reads', writes', p') →
  kept_by store reads writes p store' reads' writes' p'.
Proof using All.
  intros [[Hr Hw] Hdr Hdw _] Hp Hk.
  assert (∀ a b, 0 ≤ b → u64 ((if b =? 0 then a else atomicAdd a b) + Z.of_nat (0 + ops OP_READ []))
                 = u64 (a + Z.of_nat (Z.to_nat b + ops OP_READ []))) as Hflush.
  { intros a b Hb. cbn. rewrite Nat.add_0_r, Z2Nat.id, Z.add_0_r by done. destruct (Z.eqb_spec b 0) as [->|]; [by rewrite Z.add_0_r|].
    unfold atomicAdd. apply u64_idem. }
  assert (∀ a b, in_u64 a → in_u64 (if b =? 0 then a else atomicAdd a b)) as Hrange.
  { intros a b Ha. destruct (b =? 0); [done|apply u64_range]. }
  destruct p as [| |r w|w|]; try done; cbn in Hk; injection Hk as <- <- <- <-.
  all: split; [split; cbn in *; unfold due_reads, due_writes in *; cbn in *; lia || done|done|intros; split; auto|try done; apply Hflush; done..|cbn; lia|].
  all: left; split; [done|]; intros j _ Hj; by apply elem_of_nil in Hj.
Qed.

Lemma row_keeps store reads writes j end_ r w store' reads' writes' p' : page_pc_ok (PLooping j end_ r w) →
  length store = slots →
  matrix_page_kernel binned offsets tpb store reads writes (PLooping j end_ r w) = Some (store', reads', writes', p') →
  kept_by store reads writes (PLooping j end_ r w) store' reads' writes' p'.
Proof using All.
  intros Hok Hlen Hk. pose proof Hok as [[Hr Hw] Hdr Hdw [Hj [He0 Hen]]]. cbn in Hk, Hr, Hw.
  destruct (Z.ltb_spec j end_) as [Hlt|Hge].
  2:{ injection Hk as <- <- <- <-. apply quiet_keeps; [done..| |done|done|cbn; lia].
      cbn. by rewrite rows_end by lia. }
  destruct (lookup_lt_is_Some_2 binned (Z.to_nat j)) as [q Hq]; [lia|]. rewrite Hq in Hk. cbn in Hk.
  assert (at_row (Z.to_nat j) = q) as Hat by (by apply nth_lookup_Some).
  destruct (lookup_lt_is_Some_2 store (slot_at (Z.to_nat j))) as [x Hx]; [rewrite Hlen; apply slot_in_range|].
  unfold slot_at, id_of in Hx. fold (at_row (Z.to_nat j)) in Hx. rewrite Hat in Hx. rewrite Hx in Hk. cbn in Hk.
  assert (∀ r' w', rem (PLooping j end_ r w) ≡ₚ Z.to_nat j :: rem (PLooping (u32 (j + Z.of_nat tpb)) end_ r' w')) as Hrem
    by (intros; by apply rem_next).
  assert (is_op OP_READ (Z.to_nat j) = (opcode q =? OP_READ) ∧ is_op OP_WRITE (Z.to_nat j) = (opcode q =? OP_WRITE)) as [Hor How]
    by (unfold is_op; fold (at_row (Z.to_nat j)); by rewrite Hat).
  assert (∀ o r' w', ops o (rem (PLooping j end_ r w)) = (Nat.b2n (is_op o (Z.to_nat j)) + ops o (rem (PLooping (u32 (j + Z.of_nat tpb)) end_ r' w')))%nat) as Hops.
  { intros o r' w'. by rewrite (ops_perm o _ _ (Hrem r' w')), ops_cons. }
  assert (∀ r' w', (page_todo (PLooping (u32 (j + Z.of_nat tpb)) end_ r' w') < page_todo (PLooping j end_ r w))%nat) as Htodo.
  { intros r' w'. cbn [page_todo]. rewrite (Permutation_length (Hrem r' w')). cbn. lia. }
  set (next := u32 (j + Z.of_nat tpb)) in *.
  assert (0 ≤ next) as Hnext by (apply u32_range).
  assert (∀ i r' w', i ∈ rem (PLooping j end_ r w) → i = Z.to_nat j ∨ i ∈ rem (PLooping next end_ r' w')) as Hin.
  { intros i r' w'. rewrite (Hrem r' w'). by rewrite elem_of_cons. }
  assert (∀ r' w' s', 0 ≤ r' → 0 ≤ w' → Z.to_nat r' = (Z.to_nat r + Nat.b2n (opcode q =? OP_READ)%Z)%nat →
    Z.to_nat w' = (Z.to_nat w + Nat.b2n (opcode q =? OP_WRITE)%Z)%nat →
    s' = (if opcode q =? OP_WRITE then <[Z.to_nat (slot_of (query_id q)) := query_id q]> store else store) →
    kept_by store reads writes (PLooping j end_ r w) s' reads writes (PLooping next end_ r' w')) as Hrow.
  { intros r' w' s' Hr0 Hw0 Hr' Hw' ->.
    assert (due_reads (PLooping next end_ r' w') = due_reads (PLooping j end_ r w)) as Hdr'.
    { unfold due_reads. rewrite (Hops OP_READ r' w'), Hor. cbn [counted_reads]. lia. }
    assert (due_writes (PLooping next end_ r' w') = due_writes (PLooping j end_ r w)) as Hdw'.
    { unfold due_writes. rewrite (Hops OP_WRITE r' w'), How. cbn [counted_writes]. lia. }
    split; rewrite ?Hdr', ?Hdw'; [split; rewrite ?Hdr', ?Hdw'; cbn; done || lia| |done|done|done|done|].
    { destruct (opcode q =? OP_WRITE); [apply length_insert|done]. }
    destruct (opcode q =? OP_WRITE) eqn:Ew; [right|left].
    - exists (Z.to_nat j). split; [lia|]. split; [done|]. split; [by intros i; apply Hin|].
      unfold slot_at, id_of. fold (at_row (Z.to_nat j)). by rewrite Hat.
    - split; [done|]. intros i Hi Hri. destruct (Hin i r' w' Hri) as [->|]; [congruence|done]. }
  unfold due_reads, due_writes in Hdr, Hdw. rewrite (Hops OP_READ r w) in Hdr. rewrite (Hops OP_WRITE r w) in Hdw.
  rewrite Hor in Hdr. rewrite How in Hdw. cbn [counted_reads counted_writes] in Hdr, Hdw.
  assert (OP_READ ≠ OP_WRITE) by done.
  destruct (Z.eqb_spec (opcode q) OP_READ) as [Er|Er]; [|destruct (Z.eqb_spec (opcode q) OP_WRITE) as [Ew|Ew]].
  - injection Hk as <- <- <- <-. cbn [Nat.b2n] in Hdr. rewrite u32_small by (unfold in_u32; lia).
    apply Hrow; [lia|lia|cbn; lia| |]; (destruct (Z.eqb_spec (opcode q) OP_WRITE); [congruence|]); [cbn; lia|done].
  - injection Hk as <- <- <- <-. cbn [Nat.b2n] in Hdw. rewrite u32_small by (unfold in_u32; lia).
    apply Hrow; [lia|lia|cbn; lia|cbn; lia|done].
  - injection Hk as <- <- <- <-. apply Hrow; cbn; lia || done.
Qed.

Lemma access_keeps store reads writes p store' reads' writes' p' : page_pc_ok p → length store = slots →
  matrix_page_kernel binned offsets tpb store reads writes p = Some (store', reads', writes', p') →
  kept_by store reads writes p store' reads' writes' p'.
Proof using All.
  intros Hok Hlen Hk. destruct p; [by eapply page_enter_keeps|by eapply row_keeps|by eapply page_flush_keeps..|done].
Qed.

(** A thread that has not exited is never stuck. *)
Lemma access_progress store reads writes p : page_pc_ok p → length store = slots → p ≠ PExited →
  ∃ store' reads' writes' p', matrix_page_kernel binned offsets tpb store reads writes p = Some (store', reads', writes', p').
Proof using All.
  intros Hok Hlen Hne. pose proof (pp_shape _ Hok) as Hsh. destruct p as [page tid|j end_ r w|r w|w|]; cbn; [| |by eauto|by eauto|done].
  - rewrite Z.geb_leb. destruct (Z.leb_spec MATRIX_PAGE_COUNT (Z.of_nat page)); [by eauto|].
    assert (page < pages)%nat by (unfold pages; lia).
    rewrite (Hoffsets page), (Hoffsets (S page)) by lia. cbn. eauto.
  - destruct (Z.ltb_spec j end_); [|by eauto]. destruct (lookup_lt_is_Some_2 binned (Z.to_nat j)) as [q Hq]; [lia|].
    rewrite Hq. cbn. destruct (lookup_lt_is_Some_2 store (slot_at (Z.to_nat j))) as [x Hx]; [rewrite Hlen; apply slot_in_range|].
    unfold slot_at, id_of in Hx. rewrite (nth_lookup_Some _ _ _ _ Hq) in Hx. rewrite Hx. cbn.
    destruct (opcode q =? OP_READ); [by eauto|]. destruct (opcode q =? OP_WRITE); by eauto.
Qed.

(** *** All threads *)

Section grid.
Context (store0 : list Z) (reads0 writes0 : Z).

(** A slot holds its first value as long as every write to it is left, or the
    key of some write to it. *)
Definition slot_claim (ts : list PagePc) (s : nat) (x : Z) : Prop :=
  (store0 !! s = Some x ∧ ∀ j, (j < n)%nat → is_op OP_WRITE j = true → slot_at j = s →
     ∃ t p, ts !! t = Some p ∧ j ∈ rem p) ∨
  ∃ j, (j < n)%nat ∧ is_op OP_WRITE j = true ∧ slot_at j = s ∧ x = id_of j.

Record grid_inv (g : PageGrid) : Prop := {
  gi_pcs : Forall page_pc_ok (pg_threads g);
  gi_len : length (pg_store g) = slots;
  gi_range : in_u64 (pg_reads g) ∧ in_u64 (pg_writes g);
  gi_reads : u64 (pg_reads g + Z.of_nat (total due_reads (pg_threads g))) = u64 (reads0 + Z.of_nat (ops OP_READ (seq 0 n)));
  gi_writes : u64 (pg_writes g + Z.of_nat (total due_writes (pg_threads g))) = u64 (writes0 + Z.of_nat (ops OP_WRITE (seq 0 n)));
  gi_slots s x : pg_store g !! s = Some x → slot_claim (pg_threads g) s x
}.

Lemma due_move (f : PagePc → nat) ts t p p' c c' k : ts !! t = Some p →
  u64 (c' + Z.of_nat (f p')) = u64 (c + Z.of_nat (f p)) → u64 (c + Z.of_nat (total f ts)) = k →
  u64 (c' + Z.of_nat (total f (<[t := p']> ts))) = k.
Proof using All.
  intros Ht Hc <-. pose proof (total_update f ts p' t p Ht) as Hu.
  replace (c' + Z.of_nat (total f (<[t := p']> ts))) with (c' + Z.of_nat (f p') + (Z.of_nat (total f ts) - Z.of_nat (f p))) by lia.
  rewrite <- u64_add_l, Hc, u64_add_l. f_equal. lia.
Qed.

Lemma claim_keeps ts t p p' store store' : ts !! t = Some p → length store = slots →
  (∀ s x, store !! s = Some x → slot_claim ts s x) →
  ((store' = store ∧ ∀ j, is_op OP_WRITE j = true → j ∈ rem p → j ∈ rem p') ∨
    ∃ j, (j < n)%nat ∧ is_op OP_WRITE j = true ∧ (∀ i, i ∈ rem p → i = j ∨ i ∈ rem p') ∧
      store' = <[slot_at j := id_of j]> store) →
  ∀ s x, store' !! s = Some x → slot_claim (<[t := p']> ts) s x.
Proof using All.
  intros Ht Hlen Hcl Hcase.
  assert (∀ s x, (∀ j, is_op OP_WRITE j = true → slot_at j = s → j ∈ rem p → j ∈ rem p') →
    slot_claim ts s x → slot_claim (<[t := p']> ts) s x) as Hmono.
  { intros s x Hrem [[H0 Hl]|Hr]; [left|by right]. split; [done|]. intros j Hj Hw Hs.
    destruct (Hl j Hj Hw Hs) as (u & q & Hu & Hq). destruct (decide (u = t)) as [->|Hne].
    - exists t, p'. rewrite list_lookup_insert_eq by (by eapply lookup_lt_Some). split; [done|]. simplify_eq. eauto.
    - exists u, q. by rewrite list_lookup_insert_ne. }
  destruct Hcase as [[-> Hrem]|(j & Hj & Hw & Hrem & ->)]; intros s x Hx.
  - apply Hmono; eauto.
  - destruct (decide (slot_at j = s)) as [<-|Hne].
    + rewrite list_lookup_insert_eq in Hx by (rewrite Hlen; apply slot_in_range). simplify_eq. right. eauto.
    + rewrite list_lookup_insert_ne in Hx by done. apply Hmono; [|by apply Hcl].
      intros i Hwi Hsi Hi. destruct (Hrem i Hi) as [->|]; [congruence|done].
Qed.

Lemma page_step_keeps g g' : grid_inv g → page_step binned offsets tpb g g' →
  grid_inv g' ∧ (total page_todo (pg_threads g') < total page_todo (pg_threads g))%nat.
Proof using All.
  intros [Hp Hl Hr Hdr Hdw Hs] Hstep. destruct Hstep as [t p p' store reads writes store' reads' writes' ts Ht Hk].
  cbn [pg_store pg_reads pg_writes pg_threads] in *.
  destruct (access_keeps _ _ _ _ _ _ _ _ (Forall_lookup_1 _ _ _ _ Hp Ht) Hl Hk) as [Hok Hlen Hrange Hcr Hcw Htodo Hslots].
  split; [split; cbn|].
  - by apply Forall_insert.
  - congruence.
  - destruct Hr; by apply Hrange.
  - by eapply due_move.
  - by eapply due_move.
  - by eapply claim_keeps.
  - pose proof (total_update page_todo ts p' t p Ht). lia.
Qed.

Lemma page_run_keeps k g g' : grid_inv g → nsteps (page_step binned offsets tpb) k g g' →
  grid_inv g' ∧ (k + total page_todo (pg_threads g') ≤ total page_todo (pg_threads g))%nat.
Proof using All.
  intros Hi Hr. revert Hi. induction Hr as [g|k g g1 g' Hs _ IH]; intros Hi; [done|].
  destruct (page_step_keeps _ _ Hi Hs) as [H1 Ht]. destruct (IH H1) as [H2 Ht2]. split; [done|lia].
Qed.

Lemma page_progress g : grid_inv g → page_exited g ∨ ∃ g', page_step binned offsets tpb g g'.
Proof using All.
  intros [Hp Hl _ _ _ _]. destruct (decide (Forall (λ p, page_todo p = 0%nat) (pg_threads g))) as [H0|H0].
  - left. eapply Forall_impl; [exact H0|]. intros p H. destruct p; done.
  - right. apply not_Forall_Exists in H0; [|intros; apply _]. apply Exists_exists in H0 as (p & [t Ht]%list_elem_of_lookup & Hne).
    destruct (access_progress (pg_store g) (pg_reads g) (pg_writes g) p) as (s' & r' & w' & p' & Hk);
      [by eapply Forall_lookup_1|done|intros ->; by apply Hne|].
    destruct g. eexists. by eapply PageStep.
Qed.

Lemma page_run_ends g : grid_inv g → ∃ g', rtc (page_step binned offsets tpb) g g' ∧ page_exited g'.
Proof using All.
  remember (total page_todo (pg_threads g)) as k eqn:Hk. revert g Hk. induction k as [k IH] using lt_wf_ind. intros g -> Hi.
  destruct (page_progress g Hi) as [|(g1 & Hs)]; [by exists g|].
  destruct (page_step_keeps _ _ Hi Hs) as [H1 Ht]. destruct (IH _ Ht g1 eq_refl H1) as (g' & Hr & He).
  exists g'. split; [by eapply rtc_l|done].
Qed.

(** *** From the launch to the end *)

Lemma rem_fresh m : (m ≤ pages)%nat →
  concat (map rem (fresh_pages tpb m)) ≡ₚ concat (map (λ p, seq (lo p) (lo (S p) - lo p)) (seq 0 m)).
Proof using All.
  induction m as [|m IH]; intros Hm; [done|]. unfold fresh_pages in *.
  rewrite !seq_S, !map_app, !concat_app. cbn [map concat Nat.add]. rewrite !app_nil_r, map_app, concat_app.
  rewrite IH by lia. f_equiv. rewrite map_map, <- (block_covers tpb (lo m) (lo (S m) - lo m)) by done.
  apply concat_map_perm. intros t _. unfold rem. destruct (Nat.ltb_spec m pages); [|lia].
  destruct Hlo as (_ & Hmono & _). by replace (lo m + (lo (S m) - lo m))%nat with (lo (S m)) by (specialize (Hmono m); lia).
Qed.

Lemma fresh_rows : concat (map rem (fresh_pages tpb pages)) ≡ₚ seq 0 n.
Proof using All.
  rewrite rem_fresh by done. destruct Hlo as (H0 & Hm & Hn). by rewrite seq_pages, Hn.
Qed.

Lemma fresh_shape m p : p ∈ fresh_pages tpb m → ∃ page tid, p = PEntering page tid ∧ (tid < tpb)%nat.
Proof using All.
  unfold fresh_pages. intros (b & Hp & Hb)%list_elem_of_In%in_concat.
  apply in_map_iff in Hp as (page & <- & _). apply in_map_iff in Hb as (tid & <- & Ht). apply in_seq in Ht.
  exists page, tid. split; [done|lia].
Qed.

Lemma length_fresh m : length (fresh_pages tpb m) = (m * tpb)%nat.
Proof using All.
  unfold fresh_pages. induction m as [|m IH]; [done|].
  rewrite seq_S, map_app, concat_app, length_app, IH. cbn [map concat Nat.add]. rewrite app_nil_r, length_map, length_seq. lia.
Qed.

Lemma ops_app o l1 l2 : ops o (l1 ++ l2) = (ops o l1 + ops o l2)%nat.
Proof using All. unfold ops. by rewrite List.filter_app, length_app. Qed.

Lemma total_due (f : PagePc → nat) o ts : (∀ p, p ∈ ts → f p = ops o (rem p)) → total f ts = ops o (concat (map rem ts)).
Proof using All.
  induction ts as [|p ts IH]; intros Hf; [done|]. rewrite total_cons. cbn [map concat]. rewrite ops_app.
  rewrite (Hf p) by (by left). by rewrite IH by (intros q Hq; apply Hf; by right).
Qed.

Lemma fresh_due o (f : PagePc → nat) : (∀ page tid, f (PEntering page tid) = ops o (rem (PEntering page tid))) →
  total f (fresh_pages tpb pages) = ops o (seq 0 n).
Proof using All.
  intros Hf. rewrite (total_due f o).
  - apply ops_perm, fresh_rows.
  - intros p (page & tid & -> & _)%fresh_shape. apply Hf.
Qed.

Lemma fresh_page_todo : total page_todo (fresh_pages tpb pages) = (4 * (pages * tpb) + n)%nat.
Proof using All.
  rewrite <- (length_fresh pages). pose proof (Permutation_length fresh_rows) as Hn. rewrite length_seq in Hn. rewrite <- Hn. clear Hn.
  assert (∀ p, p ∈ fresh_pages tpb pages → page_todo p = (4 + length (rem p))%nat) as Hp
    by (intros p (page & tid & -> & _)%fresh_shape; done).
  induction (fresh_pages tpb pages) as [|p ts IH]; [done|]. rewrite total_cons. cbn [map concat length].
  rewrite length_app, (Hp p) by (by left). rewrite IH by (intros q Hq; apply Hp; by right). lia.
Qed.

Definition launched : PageGrid := mkPages store0 reads0 writes0 (fresh_pages tpb pages).

Lemma fresh_inv : length store0 = slots → in_u64 reads0 → in_u64 writes0 → grid_inv launched.
Proof using All.
  intros Hl Hr Hw. split; cbn; [|done|done| | |].
  - apply Forall_forall. intros p (page & tid & -> & Ht)%fresh_shape. by apply fresh_pc_ok.
  - by rewrite (fresh_due OP_READ).
  - by rewrite (fresh_due OP_WRITE).
  - intros s x Hx. left. split; [done|]. intros j Hj _ _.
    assert (j ∈ concat (map rem (fresh_pages tpb pages))) as Hin by (rewrite fresh_rows; apply elem_of_seq; lia).
    apply list_elem_of_In, in_concat in Hin as (l & Hl' & Hj'). apply in_map_iff in Hl' as (p & <- & Hp).
    apply list_elem_of_In, list_elem_of_lookup in Hp as [t Ht]. exists t, p. split; [done|]. by apply list_elem_of_In.
Qed.

(** What a finished launch leaves in a slot. *)
Definition slot_result (s : nat) (x : Z) : Prop :=
  (store0 !! s = Some x ∧ ∀ j, (j < n)%nat → is_op OP_WRITE j = true → slot_at j ≠ s) ∨
  ∃ j, (j < n)%nat ∧ is_op OP_WRITE j = true ∧ slot_at j = s ∧ x = id_of j.

Record page_result (g : PageGrid) : Prop := {
  pr_len : length (pg_store g) = slots;
  pr_range : in_u64 (pg_reads g) ∧ in_u64 (pg_writes g);
  pr_reads : pg_reads g = u64 (reads0 + Z.of_nat (ops OP_READ (seq 0 n)));
  pr_writes : pg_writes g = u64 (writes0 + Z.of_nat (ops OP_WRITE (seq 0 n)));
  pr_slots s x : pg_store g !! s = Some x → slot_result s x
}.

Lemma exited_total_due (f : PagePc → nat) ts : f PExited = 0%nat → Forall (λ p, p = PExited) ts → total f ts = 0%nat.
Proof using All. intros Hf. induction 1 as [|p ts -> _ IH]; [done|]. by rewrite total_cons, Hf, IH. Qed.

Lemma exited_result g : grid_inv g → page_exited g → page_result g.
Proof using All.
  intros [_ Hl Hr Hdr Hdw Hs] He. unfold page_exited in He.
  rewrite exited_total_due, Z.add_0_r, u64_small in Hdr by (done || apply Hr).
  rewrite exited_total_due, Z.add_0_r, u64_small in Hdw by (done || apply Hr).
  split; [done..|]. intros s x Hx. destruct (Hs s x Hx) as [[H0 Hleft]|Hw]; [left|by right]. split; [done|].
  intros j Hj Hw Hsl. destruct (Hleft j Hj Hw Hsl) as (t & p & Ht & Hp).
  rewrite (Forall_lookup_1 _ _ _ _ He Ht) in Hp. by apply elem_of_nil in Hp.
Qed.

(** Every run of the launch ends, after at most four accesses of each thread
    and one for each row, and leaves a [page_result]. *)
Lemma page_launch : length store0 = slots → in_u64 reads0 → in_u64 writes0 →
  (∃ g, rtc (page_step binned offsets tpb) launched g ∧ page_exited g) ∧
  (∀ g, rtc (page_step binned offsets tpb) launched g → page_exited g → page_result g) ∧
  ∀ k g, nsteps (page_step binned offsets tpb) k launched g →
    (k ≤ 4 * (pages * tpb) + n)%nat ∧ (page_exited g ∨ ∃ g', page_step binned offsets tpb g g').
Proof using All.
  intros Hl Hr Hw. pose proof (fresh_inv Hl Hr Hw) as Hi. split; [by apply page_run_ends|]. split.
  - intros g (k & Hk)%rtc_nsteps He. apply exited_result; [|done]. by eapply page_run_keeps.
  - intros k g Hk. destruct (page_run_keeps _ _ _ Hi Hk) as [Hg Ht].
    unfold launched in Ht. cbn [pg_threads] in Ht. rewrite fresh_page_todo in Ht.
    split; [lia|by apply page_progress].
Qed.
End grid.
End page_run.
