(* ===== verification/GpuEngine.v ===== *)
(** * GpuEngine: the GPU engine of [compute_cuda.cuh]

    [CUDAGPUEngine] keeps a flat store of [MATRIX_STORE_SLOTS] words on the
    device.  A batch is binned by page on the host and served by the kernel of
    [GpuPages]; scans and the scan benchmarks launch the kernels of [GpuKernels].
    An operation is a relation: one result for each interleaving.  The theorems
    compare the engine with the CPU's: the same state after a batch, the same
    answer to a scan, the same benchmark counts. *)

From S2P Require Export Counters Pipeline GpuPages.

(** ** The engine *)

Definition PAGE_TPB : nat := 128.

Record CUDAGPUEngine := mkGpu {
  d_store : list Z;
  d_binned : list DatabaseQuery;
  d_offsets : list Z;
  d_reads : Z;
  d_writes : Z;
  d_scan_col : list Z;                     (* the resident column of u32 *)
  d_scan_count : Z;
  gpu_scans : Z;
  gpu_scan_result_sum : Z;
  h_binned : list DatabaseQuery;
  h_offsets : list Z
}.

(** The first [n] rows of a benchmark or resident column: [static_cast<T>(i)]. *)
Definition iota (cast : Z → Z) (n : nat) : list Z := map (λ i, cast (Z.of_nat i)) (seq 0 n).

(** The constructor; what fresh device memory holds is an argument. *)
Definition new_gpu (raw_binned : list DatabaseQuery) (raw_offsets : list Z) : CUDAGPUEngine :=
  mkGpu (replicate (Z.to_nat MATRIX_STORE_SLOTS) 0) raw_binned raw_offsets 0 0
    (iota u32 (Z.to_nat MATRIX_SCAN_COLUMN_SIZE)) 0 0 0
    (replicate (Z.to_nat MATRIX_BATCH_MAX) zero_query) (replicate (S (Z.to_nat MATRIX_PAGE_COUNT)) 0).

(** The device's buffer after the binned batch is copied to it, and the launch. *)
Definition on_device (g : CUDAGPUEngine) (batch binned : list DatabaseQuery) : list DatabaseQuery :=
  take (length batch) binned ++ drop (length batch) (d_binned g).

Definition page_grid (g : CUDAGPUEngine) : PageGrid :=
  mkPages (d_store g) (d_reads g) (d_writes g) (fresh_pages PAGE_TPB (Z.to_nat MATRIX_PAGE_COUNT)).

(** [execute_batch]: the states it may leave, one per interleaving. *)
Definition gpu_execute_batch (batch : list DatabaseQuery) (g g' : CUDAGPUEngine) : Prop :=
  let batch := take (Z.to_nat MATRIX_BATCH_MAX) batch in
  if (length batch =? 0)%nat then g' = g
  else
    ∃ binned offsets fin,
      matrix_bin_by_page batch (h_binned g) (h_offsets g) = Ret (binned, offsets) ∧
      rtc (page_step (on_device g batch binned) offsets PAGE_TPB) (page_grid g) fin ∧
      page_exited fin ∧
      g' = mkGpu (pg_store fin) (on_device g batch binned) offsets (pg_reads fin) (pg_writes fin)
             (d_scan_col g) (d_scan_count g) (gpu_scans g) (gpu_scan_result_sum g) binned offsets.

Definition store_checksum (g : CUDAGPUEngine) : Z := fold_left (λ sum v, u64 (sum + v)) (d_store g) 0.

(** The kernel [execute_scan] launches for an aggregate, and its first result. *)
Definition scan_launch (op : MatrixAggOp) (col : list Z) (threshold : Z) : Kernel * Z :=
  let n := Z.to_nat MATRIX_SCAN_COLUMN_SIZE in
  match op with
  | AGG_SUM => (matrix_sum_kernel_u32 col n threshold, cudaMemset Byte.x00)
  | AGG_MIN => (matrix_min_kernel_u32 col n threshold, cudaMemset Byte.xff)
  | AGG_MAX => (matrix_max_kernel_u32 col n threshold, cudaMemset Byte.x00)
  | _ => (matrix_scan_kernel_u32x4 col (Z.to_nat (MATRIX_SCAN_COLUMN_SIZE / 4)) threshold, cudaMemset Byte.x00)
  end.

(** [execute_scan]: the column number of the query is not read. *)
Definition gpu_execute_scan (q : DatabaseQuery) (g : CUDAGPUEngine) (q' : DatabaseQuery) (g' : CUDAGPUEngine) : Prop :=
  ∃ threshold op c,
    matrix_get_scan_threshold q = Ret threshold ∧ matrix_get_scan_agg_op q = Ret op ∧
    let '(k, init) := scan_launch op (d_scan_col g) threshold in
    launch k BLOCKS TPB init c ∧
    q' = set_transaction_id c q ∧
    g' = mkGpu (d_store g) (d_binned g) (d_offsets g) (d_reads g) (d_writes g) (d_scan_col g) c
           (u64 (gpu_scans g + 1)) (u64 (gpu_scan_result_sum g + c)) (h_binned g) (h_offsets g).

(** [timed_scan] and the four benchmarks: [out_count] of a launch over [n] fresh rows. *)
Definition timed_scan (cast : Z → Z) (n : nat) (kernel : list Z → nat → Kernel) (out_count : Z) : Prop :=
  launch (kernel (iota cast n) n) BLOCKS TPB 0 out_count.

Definition gpu_benchmark_scan (n : nat) (threshold : Z) : Z → Prop :=
  timed_scan u64 n (λ d nn, matrix_scan_kernel d nn threshold).
Definition gpu_benchmark_scan_u32 (n : nat) (threshold : Z) : Z → Prop :=
  timed_scan u32 n (λ d nn, matrix_scan_kernel_u32 d nn threshold).
Definition gpu_benchmark_scan_u32x4 (n : nat) (threshold : Z) : Z → Prop :=
  timed_scan u32 n (λ d nn, matrix_scan_kernel_u32x4 d (nn / 4) threshold).
Definition gpu_benchmark_scan_ipt (n : nat) (threshold : Z) : Z → Prop :=
  timed_scan u32 n (λ d nn, matrix_scan_kernel_ipt 8 d nn threshold).

(** The CPU engine's benchmarks: one counting loop; the vector and the
    items-per-thread ones delegate to the u32 one. *)
Definition cpu_scan_loop (data : list Z) (threshold : Z) : outcome Z :=
  for_loop 0 (length data) (λ i count, v ← rd data i; Ret (u64 (count + Z.b2z (threshold <? v)))) 0.

Definition benchmark_scan (n : nat) (threshold : Z) : outcome Z := cpu_scan_loop (iota u64 n) threshold.
Definition benchmark_scan_u32 (n : nat) (threshold : Z) : outcome Z := cpu_scan_loop (iota u32 n) threshold.

(** ** A batch *)

Record gpu_wf (g : CUDAGPUEngine) : Prop := {
  gw_store : length (d_store g) = slots;
  gw_binned : length (d_binned g) = Z.to_nat MATRIX_BATCH_MAX;
  gw_host : length (h_binned g) = Z.to_nat MATRIX_BATCH_MAX;
  gw_offsets : length (h_offsets g) = S (Z.to_nat MATRIX_PAGE_COUNT);
  gw_counters : in_u64 (d_reads g) ∧ in_u64 (d_writes g)
}.

Lemma new_gpu_wf raw_binned raw_offsets : length raw_binned = Z.to_nat MATRIX_BATCH_MAX → gpu_wf (new_gpu raw_binned raw_offsets).
Proof. intros Hb. split; [apply length_replicate|done|apply length_replicate..|done]. Qed.

Section rows_of_batch.
Context (binned batch : list DatabaseQuery).
Hypothesis Hperm : take (length batch) binned ≡ₚ batch.

Lemma batch_fits : (length batch ≤ length binned)%nat.
Proof using All. pose proof (Permutation_length Hperm) as H. rewrite length_take in H. lia. Qed.

Lemma ops_batch o : Z.of_nat (ops binned o (seq 0 (length batch))) = count_ops o batch.
Proof using All.
  unfold count_ops. rewrite <- (length_filter_perm _ _ _ Hperm).
  rewrite <- (nth_rows_take zero_query) by apply batch_fits. by rewrite length_filter_map.
Qed.

Lemma row_query j : (j < length batch)%nat → nth j binned zero_query ∈ batch.
Proof using All.
  intros Hj. rewrite <- Hperm, <- (nth_rows_take zero_query) by apply batch_fits.
  apply list_elem_of_fmap. exists j. split; [done|]. apply elem_of_seq. lia.
Qed.

Lemma query_row q : q ∈ batch → ∃ j, (j < length batch)%nat ∧ nth j binned zero_query = q.
Proof using All.
  rewrite <- Hperm at 1. rewrite <- (nth_rows_take zero_query) by apply batch_fits.
  intros (j & -> & Hj)%list_elem_of_fmap. apply elem_of_seq in Hj. exists j. split; [lia|done].
Qed.

(** A slot's result, told by the batch's queries. *)
Lemma slot_result_batch store0 s x : slot_result binned (length batch) store0 s x →
  (store0 !! s = Some x ∧ ∀ q, q ∈ batch → opcode q = OP_WRITE → Z.to_nat (slot_of (query_id q)) ≠ s) ∨
  ∃ q, q ∈ batch ∧ opcode q = OP_WRITE ∧ Z.to_nat (slot_of (query_id q)) = s ∧ x = query_id q.
Proof using All.
  intros [[H0 Hno]|(j & Hj & Hw & Hs & ->)]; [left|right].
  - split; [done|]. intros q Hq Hw Hs. destruct (query_row q Hq) as (j & Hj & Hrow).
    apply (Hno j Hj); [unfold is_op|unfold slot_at, id_of]; rewrite Hrow; [by apply Z.eqb_eq|done].
  - exists (nth j binned zero_query). split; [by apply row_query|]. split; [by apply Z.eqb_eq|done].
Qed.
End rows_of_batch.

(** The launch of a batch: binning succeeds, and the kernel's runs are those of
    [page_launch] over the batch, page by page. *)
Lemma batch_launch g batch : gpu_wf g → (length batch ≤ Z.to_nat MATRIX_BATCH_MAX)%nat →
  ∃ binned offsets, matrix_bin_by_page batch (h_binned g) (h_offsets g) = Ret (binned, offsets) ∧
    length binned = length (h_binned g) ∧ length offsets = length (h_offsets g) ∧
    let dev := on_device g batch binned in
    let step := page_step dev offsets PAGE_TPB in
    length dev = Z.to_nat MATRIX_BATCH_MAX ∧ take (length batch) dev ≡ₚ batch ∧
    (∃ fin, rtc step (page_grid g) fin ∧ page_exited fin) ∧
    (∀ fin, rtc step (page_grid g) fin → page_exited fin →
       page_result dev (length batch) (d_store g) (d_reads g) (d_writes g) fin) ∧
    ∀ k s, nsteps step k (page_grid g) s →
      (k ≤ 4 * (Z.to_nat MATRIX_PAGE_COUNT * PAGE_TPB) + length batch)%nat ∧ (page_exited s ∨ ∃ s', step s s').
Proof.
  intros [Hst Hdb Hhb Hho [Hr Hw]] Hmax.
  destruct (binned_batch batch (h_binned g) (h_offsets g)) as (b & o & Hbin & Hlb & Hlo & Hperm & Htot & Hoff); [lia|done|unfold MATRIX_BATCH_MAX in *; lia|].
  exists b, o. split; [done|]. split; [done|]. split; [done|]. intros dev step.
  assert (take (length batch) dev ≡ₚ batch) as Hdev.
  { unfold dev, on_device. rewrite take_app_le, take_take, Nat.min_id by (rewrite length_take; lia). done. }
  split; [unfold dev, on_device; rewrite length_app, length_take, length_drop; lia|]. split; [done|].
  apply (page_launch dev o PAGE_TPB (length batch) (λ p, before_page qpage p batch)); try assumption.
  - by apply Nat.ltb_lt.
  - by apply batch_fits.
  - unfold PAGE_TPB, MATRIX_BATCH_MAX in *. lia.
  - split_and!; [done|intros p; by apply before_page_le; lia|done].
Qed.

(** Whatever the interleaving, a batch ends: the counters are exact, and a slot
    keeps its value unless a write of the batch stores its key there. *)
Lemma gpu_batch_spec g batch0 : gpu_wf g →
  let batch := take (Z.to_nat MATRIX_BATCH_MAX) batch0 in
  (∃ g', gpu_execute_batch batch0 g g') ∧
  ∀ g', gpu_execute_batch batch0 g g' → gpu_wf g' ∧
    d_reads g' = u64 (d_reads g + count_ops OP_READ batch) ∧
    d_writes g' = u64 (d_writes g + count_ops OP_WRITE batch) ∧
    ∀ s x, d_store g' !! s = Some x →
      (d_store g !! s = Some x ∧
        ∀ q, q ∈ batch → opcode q = OP_WRITE → Z.to_nat (slot_of (query_id q)) ≠ s) ∨
      ∃ q, q ∈ batch ∧ opcode q = OP_WRITE ∧ Z.to_nat (slot_of (query_id q)) = s ∧ x = query_id q.
Proof.
  intros Hg batch. pose proof Hg as [Hst Hdb Hhb Hho [Hr Hw]]. unfold gpu_execute_batch. fold batch.
  destruct (Nat.eqb_spec (length batch) 0) as [H0|H0].
  { apply nil_length_inv in H0. rewrite H0. split; [by exists g|]. intros g' ->. split; [done|].
    change (count_ops OP_READ []) with 0. change (count_ops OP_WRITE []) with 0.
    rewrite !Z.add_0_r, !u64_small by done. split; [done|]. split; [done|]. intros s x Hx. left. split; [done|].
    intros q Hq. by apply elem_of_nil in Hq. }
  assert (length batch ≤ Z.to_nat MATRIX_BATCH_MAX)%nat as Hmax by (unfold batch; rewrite length_take; lia).
  destruct (batch_launch g batch Hg Hmax) as (b & o & Hbin & Hlb & Hlo & Hld & Hdev & (fin & Hrun & Hend) & Hres & _).
  split; [by do 4 eexists|]. intros g' (b2 & o2 & fin' & Hbin' & Hrun' & Hend' & ->).
  rewrite Hbin in Hbin'. injection Hbin' as <- <-.
  destruct (Hres fin' Hrun' Hend') as [Hl [Hir Hiw] Hfr Hfw Hsl]. rewrite ops_batch in Hfr, Hfw by done.
  split; [split; [exact Hl|exact Hld|exact (eq_trans Hlb Hhb)|exact (eq_trans Hlo Hho)|by split]|]. split; [exact Hfr|]. split; [exact Hfw|].
  intros s x Hx. by apply (slot_result_batch (on_device g batch b)), Hsl.
Qed.

(** ** The two engines reach the same state *)

(** The flat store holds exactly the bindings of a map whose keys are slots. *)
Record mirrors (m : gmap Z Z) (store : list Z) : Prop := {
  mi_length : length store = slots;
  mi_keys k : k ∈ dom m → 0 ≤ k < MATRIX_STORE_SLOTS;
  mi_slots s : (s < slots)%nat → store !! s = Some (default 0 (m !! Z.of_nat s))
}.

Lemma fresh_mirrors : mirrors ∅ (replicate slots 0).
Proof.
  split; [apply length_replicate|set_solver|]. intros s Hs. rewrite lookup_replicate_2 by done. by rewrite lookup_empty.
Qed.

Lemma slot_of_small k : 0 ≤ k < MATRIX_STORE_SLOTS → slot_of k = k.
Proof.
  unfold slot_of, MATRIX_STORE_MASK, MATRIX_STORE_SLOTS. intros Hk.
  change (65536 - 1) with (Z.ones 16). rewrite Z.land_ones by lia. by apply Z.mod_small.
Qed.

(** Every write of the batch names a slot. *)
Definition slot_keys (batch : list DatabaseQuery) : Prop :=
  ∀ q, q ∈ batch → opcode q = OP_WRITE → 0 ≤ query_id q < MATRIX_STORE_SLOTS.

Lemma exec_queries_lookup l k : ∀ m,
  ((∃ q, q ∈ l ∧ opcode q = OP_WRITE ∧ query_id q = k) → (exec_queries m l).1 !! k = Some k) ∧
  ((∀ q, q ∈ l → opcode q = OP_WRITE → query_id q ≠ k) → (exec_queries m l).1 !! k = m !! k).
Proof.
  assert (OP_READ ≠ OP_WRITE) by done.
  induction l as [|q l IH]; intros m; cbn; [split; [intros (q & Hq & _); by apply elem_of_nil in Hq|done]|].
  assert ((opcode q = OP_WRITE → query_id q = k → (exec_query m q).1 !! k = Some k) ∧
          ((opcode q = OP_WRITE → query_id q ≠ k) → (exec_query m q).1 !! k = m !! k)) as [Hw Ho].
  { unfold exec_query. destruct (Z.eqb_spec (opcode q) OP_READ); [split; [congruence|done]|].
    destruct (Z.eqb_spec (opcode q) OP_WRITE); [|done]. cbn.
    split; [intros _ ->; by rewrite lookup_insert_eq|intros Hne; rewrite lookup_insert_ne; auto]. }
  destruct (exec_query m q) as [m1 q1]. destruct (IH m1) as [IH1 IH2].
  destruct (exec_queries m1 l) as [m2 l2]. cbn in *. split.
  - intros (q' & Hq & Hwq & Hk).
    destruct (decide (Exists (λ x, opcode x = OP_WRITE ∧ query_id x = k) l)) as [He|He].
    + apply Exists_exists in He as (x & Hx & Hwx & Hkx). apply IH1. eauto.
    + rewrite IH2; [apply elem_of_cons in Hq as [->|Hq]; [by apply Hw|]|].
      * destruct He. apply Exists_exists. eauto.
      * intros x Hx Hwx Hkx. destruct He. apply Exists_exists. eauto.
  - intros Hno. rewrite IH2 by (intros x Hx; apply Hno; by right). apply Ho. intros Hwq. apply Hno; [by left|done].
Qed.

Lemma exec_queries_keys l m : slot_keys l → (∀ k, k ∈ dom m → 0 ≤ k < MATRIX_STORE_SLOTS) →
  ∀ k, k ∈ dom (exec_queries m l).1 → 0 ≤ k < MATRIX_STORE_SLOTS.
Proof.
  intros Hl Hm k Hk. destruct (exec_queries_lookup l k m) as [_ Ho].
  destruct (decide (Exists (λ q, opcode q = OP_WRITE ∧ query_id q = k) l)) as [He|He].
  - apply Exists_exists in He as (q & Hq & Hw & <-). by apply Hl.
  - apply Hm. apply elem_of_dom. rewrite <- Ho; [by apply elem_of_dom|].
    intros q Hq Hw Hkq. destruct He. apply Exists_exists. eauto.
Qed.

Lemma batch_mirrors m store store' batch : mirrors m store → slot_keys batch → length store' = slots →
  (∀ s x, store' !! s = Some x →
    (store !! s = Some x ∧ ∀ q, q ∈ batch → opcode q = OP_WRITE → Z.to_nat (slot_of (query_id q)) ≠ s) ∨
    ∃ q, q ∈ batch ∧ opcode q = OP_WRITE ∧ Z.to_nat (slot_of (query_id q)) = s ∧ x = query_id q) →
  mirrors (exec_queries m batch).1 store'.
Proof.
  intros [Hl Hk Hs] Hb Hl' Hst. split; [done|by apply exec_queries_keys|]. intros s Hlt.
  destruct (lookup_lt_is_Some_2 store' s) as [x Hx]; [lia|]. rewrite Hx. f_equal.
  destruct (exec_queries_lookup batch (Z.of_nat s) m) as [Hw Ho]. destruct (Hst s x Hx) as [[H0 Hno]|(q & Hq & Hwq & Hsl & ->)].
  - rewrite Hs in H0 by done. injection H0 as <-. rewrite Ho; [done|].
    intros q Hq Hwq Heq. apply (Hno q Hq Hwq). rewrite slot_of_small by (by apply Hb). lia.
  - specialize (Hb q Hq Hwq). rewrite slot_of_small in Hsl by done. rewrite Hw; [cbn; lia|]. exists q. split_and!; [done|done|lia].
Qed.

Lemma slots_Z : Z.of_nat slots = MATRIX_STORE_SLOTS.
Proof. apply Z2Nat.id. done. Qed.

(** *** The checksum *)

Lemma store_checksum_sum g : store_checksum g = u64 (sum_list_Z (d_store g)).
Proof.
  unfold store_checksum. assert (∀ l a, fold_left (λ s v, u64 (s + v)) l (u64 a) = u64 (a + sum_list_Z l)) as H; [|apply (H _ 0)].
  induction l as [|x l IH]; intros a; cbn [fold_left]; [by cbn; rewrite Z.add_0_r|].
  rewrite u64_add_l, IH. f_equal. cbn. unfold sum_list_Z. lia.
Qed.

Lemma sum_seq_insert (f g : Z → Z) k N v : 0 ≤ k < Z.of_nat N → g k = f k + v → (∀ i, i ≠ k → g i = f i) →
  sum_list_Z (map (λ i, g (Z.of_nat i)) (seq 0 N)) = sum_list_Z (map (λ i, f (Z.of_nat i)) (seq 0 N)) + v.
Proof.
  intros Hk Hg Hne. assert (∀ M, sum_list_Z (map (λ i, g (Z.of_nat i)) (seq 0 M))
    = sum_list_Z (map (λ i, f (Z.of_nat i)) (seq 0 M)) + if k <? Z.of_nat M then v else 0) as H.
  { assert (∀ l1 l2, sum_list_Z (l1 ++ l2) = sum_list_Z l1 + sum_list_Z l2) as Happ
      by (intros l1 l2; unfold sum_list_Z; induction l1 as [|x l1 IH]; cbn; lia).
    induction M as [|M IH]; [destruct (Z.ltb_spec k (Z.of_nat 0)); cbn; lia|].
    rewrite !seq_S, !map_app, !Happ, IH. cbn [map Nat.add]. unfold sum_list_Z at 2 4. cbn [foldr].
    destruct (decide (k = Z.of_nat M)) as [->|Hn].
    - rewrite Hg. destruct (Z.ltb_spec (Z.of_nat M) (Z.of_nat M)), (Z.ltb_spec (Z.of_nat M) (Z.of_nat (S M))); lia.
    - rewrite (Hne (Z.of_nat M)) by done. destruct (Z.ltb_spec k (Z.of_nat M)), (Z.ltb_spec k (Z.of_nat (S M))); lia. }
  rewrite H. destruct (Z.ltb_spec k (Z.of_nat N)); lia.
Qed.

Lemma sum_slots N (m : gmap Z Z) : (∀ k, k ∈ dom m → 0 ≤ k < Z.of_nat N) →
  sum_list_Z (map (λ i, default 0 (m !! Z.of_nat i)) (seq 0 N)) = sum_values (map_to_list m).
Proof.
  induction m as [|k v m Hk IH] using map_ind; intros Hd.
  { rewrite map_to_list_empty. cbn. induction (seq 0 N) as [|i l IHl]; [done|]. cbn [map]. by rewrite lookup_empty. }
  rewrite (sum_values_perm _ _ (map_to_list_insert m k v Hk)). cbn [sum_values foldr].
  rewrite (sum_seq_insert (λ i, default 0 (m !! i)) (λ i, default 0 (<[k := v]> m !! i)) k N v).
  - rewrite IH by (intros i Hi; apply Hd; set_solver). unfold sum_values. lia.
  - apply Hd. set_solver.
  - by rewrite lookup_insert_eq, Hk.
  - intros i Hi. by rewrite lookup_insert_ne.
Qed.

Lemma list_tabulated {A} (f : nat → A) N l : length l = N → (∀ i, (i < N)%nat → l !! i = Some (f i)) → l = map f (seq 0 N).
Proof.
  intros Hl Hf. apply list_eq. intros i. rewrite list_lookup_fmap. destruct (decide (i < N)%nat).
  - rewrite lookup_seq_lt by done. by apply Hf.
  - rewrite lookup_seq_ge by lia. apply lookup_ge_None_2. lia.
Qed.

Lemma mirrors_checksum g kv : kv_wf kv → mirrors (kv_map kv) (d_store g) → store_checksum g = kv_checksum kv.
Proof.
  intros Hwf [Hl Hk Hs]. rewrite store_checksum_sum, checksum_entries. f_equal.
  rewrite (list_tabulated (λ i, default 0 (kv_map kv !! Z.of_nat i)) slots (d_store g) Hl Hs), sum_slots.
  - apply sum_values_perm. unfold kv_map. apply map_to_list_to_map. by apply entries_nodup.
  - intros k Hd. rewrite slots_Z. by apply Hk.
Qed.

(** A map whose keys are slots fits the CPU's table. *)
Lemma slot_map_fits (m : gmap Z Z) : (∀ k, k ∈ dom m → 0 ≤ k < MATRIX_STORE_SLOTS) → fits m.
Proof.
  intros Hm. unfold fits. rewrite <- (size_dom (D:=gset Z)).
  assert (dom m ⊆ list_to_set (C := gset Z) (seqZ 0 MATRIX_STORE_SLOTS)) as Hsub.
  { intros k Hk. apply elem_of_list_to_set, elem_of_seqZ. specialize (Hm k Hk). lia. }
  apply subseteq_size in Hsub. rewrite size_list_to_set in Hsub by apply NoDup_seqZ.
  rewrite length_seqZ in Hsub. revert Hsub. generalize (size (dom m)). intros k Hsub.
  apply (Nat2Z.inj_le) in Hsub. rewrite Z2Nat.id in Hsub by done. done.
Qed.

(** What the two engines report: on the GPU every write counts as committed. *)
Definition same_counters (ps : PointStore) (g : CUDAGPUEngine) : Prop :=
  reads_ ps = d_reads g ∧ writes_ ps = d_writes g ∧ commits_ ps = d_writes g.

(** C18: the two engines reach the same state: when the GPU's store mirrors the
    CPU's table and the batch's writes name slots, every interleaving of the
    131072 threads ends with a store that mirrors the table the CPU leaves, with
    the same checksum, and with counters that have counted the batch.  A key may
    come twice in a page, although the comment over the kernel and
    PRODUCTION_READINESS.md (DM-1b) say that the engines then need not agree:
    every write to a slot stores its key, so two writes of one key race to store
    the same word.  Two keys of one slot would be another matter, and [slot_keys]
    leaves them out.  A store of an aligned 64-bit word is one access. *)
Theorem gpu_batch_matches_cpu wal batch ps g :
  PointStore.ready wal (length batch) ps → Z.of_nat (length (binned_ ps)) = MATRIX_BATCH_MAX →
  length (offsets_ ps) = S (Z.to_nat MATRIX_PAGE_COUNT) →
  gpu_wf g → mirrors (kv_map (kv_ ps)) (d_store g) →
  batch ≠ [] → Z.of_nat (length batch) ≤ MATRIX_BATCH_MAX →
  Forall (λ q, in_u64 (query_id q)) batch → slot_keys batch → same_counters ps g →
  ∃ ps', execute_batch batch ps = Ret ps' ∧ (∃ g', gpu_execute_batch batch g g') ∧
  ∀ g', gpu_execute_batch batch g g' →
    gpu_wf g' ∧ mirrors (kv_map (kv_ ps')) (d_store g') ∧ store_checksum g' = kv_checksum (kv_ ps') ∧
    same_counters ps' g' ∧ d_reads g' = u64 (d_reads g + count_ops OP_READ batch) ∧
    d_writes g' = u64 (d_writes g + count_ops OP_WRITE batch).
Proof.
  intros Hr Hbin Hoff Hg Hm Hne Hmax Hu Hkeys (Hcr & Hcw & Hck).
  destruct (execute_batch_run wal 0 batch ps) as (ps' & He & Hr' & _ & _ & Hmap & _); try done.
  { apply slot_map_fits, exec_queries_keys; [done|]. apply Hm. }
  assert (counters_ok ps) as Hok by (destruct Hg as [_ _ _ _ [? ?]]; unfold counters_ok; by rewrite Hcr, Hcw, Hck).
  destruct (execute_batch_counts batch ps ps' Hok Hmax Hbin Hoff He) as (Hr1 & Hw1 & Hk1 & _).
  exists ps'. split; [done|]. destruct (gpu_batch_spec g batch Hg) as [Hex Hall].
  split; [done|]. intros g' Hg'. destruct (Hall g' Hg') as (Hwf & Hrd & Hwr & Hst).
  rewrite take_ge in Hrd, Hwr, Hst by lia.
  assert (mirrors (kv_map (kv_ ps')) (d_store g')) as Hm'.
  { rewrite Hmap. apply (batch_mirrors _ _ _ _ Hm Hkeys); [apply Hwf|done]. }
  split_and!; try done; [apply mirrors_checksum; [apply Hr'|done]|].
  unfold same_counters. rewrite Hr1, Hw1, Hk1, Hrd, Hwr, Hcr, Hcw, Hck. done.
Qed.

(** ** Scans *)

Lemma scan_size : Z.to_nat MATRIX_SCAN_COLUMN_SIZE = (4 * Z.to_nat (MATRIX_SCAN_COLUMN_SIZE / 4))%nat.
Proof. unfold MATRIX_SCAN_COLUMN_SIZE. change (Z.shiftl 1 24) with (4 * 4194304).
  rewrite Z.mul_comm, Z.div_mul, Z.mul_comm by done. rewrite Z2Nat.inj_mul by done. reflexivity. Qed.

Lemma count_scan n4 col threshold : length col = (4 * n4)%nat →
  launches_to (matrix_scan_kernel_u32x4 col n4 threshold) BLOCKS TPB 0
    (agg_ref AGG_COUNT (select (λ i, threshold <? nth i col 0) col (length col))).
Proof.
  intros Hl. destruct full_grid as [Hb Ht]. rewrite Hl. apply u32x4_launches; [|done..]. by rewrite Hl.
Qed.

Lemma count_scan_launch op col threshold : reads_value op = false → length col = Z.to_nat MATRIX_SCAN_COLUMN_SIZE →
  launches_to (scan_launch op col threshold).1 BLOCKS TPB (scan_launch op col threshold).2
    (agg_ref op (select (λ i, threshold <? nth i col 0) col (length col))).
Proof.
  intros Hop Hl. pose proof (count_scan _ col threshold (eq_trans Hl scan_size)) as H.
  destruct op; try discriminate Hop; exact H.
Qed.

Lemma scan_launches_cpu op col threshold : length col = Z.to_nat MATRIX_SCAN_COLUMN_SIZE →
  ∃ r, matrix_cpu_reduce col (Z.to_nat MATRIX_SCAN_COLUMN_SIZE) threshold op = Ret r ∧
    launches_to (scan_launch op col threshold).1 BLOCKS TPB (scan_launch op col threshold).2 r.
Proof.
  intros Hl. rewrite <- Hl, reduce_threshold. eexists. split; [done|]. destruct full_grid as [Hb Ht].
  destruct (reads_value op) eqn:Hop.
  - unfold scan_launch. rewrite <- Hl.
    destruct op; try discriminate Hop; cbn [fst snd agg_ref];
      [apply sum_launches|apply min_launches|apply max_launches]; exact Hb || exact Ht || apply le_n.
  - by apply count_scan_launch.
Qed.

Section scan.
Context `{!HashOrder Z}.

(** The CPU's scan of the resident column. *)
Lemma scan_query_fixed q e T op r :
  matrix_get_scan_threshold q = Ret T → matrix_get_scan_column_id q = Ret 0 → matrix_get_scan_agg_op q = Ret op →
  matrix_cpu_reduce (scan_column_ e) (Z.to_nat MATRIX_SCAN_COLUMN_SIZE) T op = Ret r →
  scan_query q e = Ret (set_transaction_id r q, set_scans (u64 (scans_ e + 1)) (u64 (scan_result_sum_ e + r)) e).
Proof.
  intros HT Hid Hop. unfold scan_query. rewrite HT, Hid, Hop. generalize (Z.to_nat MATRIX_SCAN_COLUMN_SIZE). intros n Hr.
  cbn [mbind outcome_bind]. unfold execute_scan, mbind, stM_bind. cbn [Z.eqb]. by rewrite Hr.
Qed.

(** What [execute_scan] leaves on the GPU, from what its kernel leaves. *)
Lemma gpu_scan_runs q g T op r :
  matrix_get_scan_threshold q = Ret T → matrix_get_scan_agg_op q = Ret op →
  launches_to (scan_launch op (d_scan_col g) T).1 BLOCKS TPB (scan_launch op (d_scan_col g) T).2 r →
  (∃ g', gpu_execute_scan q g (set_transaction_id r q) g') ∧
  ∀ q' g', gpu_execute_scan q g q' g' → q' = set_transaction_id r q ∧ gpu_scans g' = u64 (gpu_scans g + 1) ∧
    gpu_scan_result_sum g' = u64 (gpu_scan_result_sum g + r) ∧ d_store g' = d_store g.
Proof.
  intros HT Hop [[c Hc] Hall]. pose proof (Hall c Hc) as ->. unfold gpu_execute_scan. split.
  - eexists. exists T, op, r. split; [exact HT|]. split; [exact Hop|].
    destruct (scan_launch op (d_scan_col g) T) as [k init]. split; [exact Hc|]. split; reflexivity.
  - intros q' g' (T' & op' & c' & HT' & Hop' & H). rewrite HT in HT'. rewrite Hop in Hop'.
    injection HT' as <-. injection Hop' as <-.
    destruct (scan_launch op (d_scan_col g) T) as [k init]. destruct H as (Hl & -> & ->).
    rewrite (Hall c' Hl). split_and!; reflexivity.
Qed.

(** A scan of the resident column gives the same answer on both engines, for
    every aggregate and every interleaving, and is counted the same. *)
Theorem gpu_scan_matches_cpu q g e :
  length (payload q) = 32%nat → matrix_get_scan_column_id q = Ret 0 →
  d_scan_col g = scan_column_ e → length (scan_column_ e) = Z.to_nat MATRIX_SCAN_COLUMN_SIZE →
  gpu_scans g = scans_ e → gpu_scan_result_sum g = scan_result_sum_ e →
  ∃ q' e', scan_query q e = Ret (q', e') ∧ (∃ g', gpu_execute_scan q g q' g') ∧
  ∀ q'' g', gpu_execute_scan q g q'' g' →
    q'' = q' ∧ gpu_scans g' = scans_ e' ∧ gpu_scan_result_sum g' = scan_result_sum_ e' ∧ d_store g' = d_store g.
Proof.
  intros Hp Hid Hcol Hlen Hs Hsum.
  destruct (matrix_get_scan_threshold q) as [T|] eqn:HT; [|by unfold matrix_get_scan_threshold, peek in HT; rewrite Hp in HT].
  destruct (matrix_get_scan_agg_op q) as [op|] eqn:Hop;
    [|by unfold matrix_get_scan_agg_op, peek in Hop; rewrite Hp in Hop].
  destruct (scan_launches_cpu op (scan_column_ e) T Hlen) as (r & Hr & Hl). rewrite <- Hcol in Hl.
  destruct (gpu_scan_runs q g T op r HT Hop Hl) as [Hex Hall].
  do 2 eexists. split; [by apply (scan_query_fixed q e T op r)|]. split; [exact Hex|].
  intros q'' g' Hg. destruct (Hall q'' g' Hg) as (-> & -> & -> & ->). rewrite Hs, Hsum. split_and!; reflexivity.
Qed.
End scan.

(** ** Scan benchmarks *)

Lemma length_iota cast n : length (iota cast n) = n.
Proof. unfold iota. by rewrite length_map, length_seq. Qed.

Lemma count_fold (p : nat → bool) l : ∀ a,
  fold_left (λ a k, u64 (a + Z.b2z (p k))) l (u64 a) = u64 (a + Z.of_nat (length (List.filter p l))).
Proof.
  induction l as [|k l IH]; intros a; cbn [fold_left List.filter]; [by rewrite Z.add_0_r|].
  rewrite u64_add_l, IH. f_equal. destruct (p k); cbn [length Z.b2z]; lia.
Qed.

Lemma cpu_scan_loop_count d threshold :
  cpu_scan_loop d threshold = Ret (u64 (Z.of_nat (length (kept d (λ v, threshold <? v) (length d))))).
Proof.
  unfold cpu_scan_loop. rewrite (for_loop_fold (λ a k, u64 (a + Z.b2z (threshold <? nth k d 0)))).
  - pose proof (count_fold (λ k, threshold <? nth k d 0) (seq 0 (length d)) 0) as H. change (u64 0) with 0 in H.
    rewrite H. unfold kept, select. by rewrite length_map.
  - intros k a Hk. by rewrite (rd_total 0) by lia.
Qed.

(** A benchmark has an answer, whatever the interleaving. *)
Definition answers (benchmark : Z → Prop) (c : outcome Z) : Prop :=
  (∃ out, benchmark out) ∧ ∀ out, benchmark out → c = Ret out.

Lemma timed_answers cast n kernel threshold :
  launches_to (kernel (iota cast n) n) BLOCKS TPB 0 (u64 (Z.of_nat (length (kept (iota cast n) (λ v, threshold <? v) n)))) →
  answers (timed_scan cast n kernel) (cpu_scan_loop (iota cast n) threshold).
Proof.
  intros [He Ha]. split; [exact He|]. intros out Ho. rewrite cpu_scan_loop_count, length_iota. by rewrite (Ha out Ho).
Qed.

(** The four GPU scan benchmarks report the CPU's count. *)
Theorem benchmarks_agree n threshold :
  answers (gpu_benchmark_scan n threshold) (benchmark_scan n threshold) ∧
  answers (gpu_benchmark_scan_u32 n threshold) (benchmark_scan_u32 n threshold) ∧
  answers (gpu_benchmark_scan_ipt n threshold) (benchmark_scan_u32 n threshold) ∧
  ((n mod 4 = 0)%nat → answers (gpu_benchmark_scan_u32x4 n threshold) (benchmark_scan_u32 n threshold)).
Proof.
  destruct full_grid as [Hb Ht]. assert (∀ cast, (n ≤ length (iota cast n))%nat) as Hn by (intros; by rewrite length_iota).
  split; [by apply timed_answers, count_launches|]. split; [by apply timed_answers, count_launches|].
  split; [apply timed_answers, ipt_launches; [done|lia|done..]|].
  intros H4. apply timed_answers. assert (n = 4 * (n / 4))%nat as E by (pose proof (Nat.div_mod_eq n 4); lia).
  pose proof (u32x4_launches (iota u32 n) threshold (n / 4) BLOCKS TPB) as H. rewrite <- E in H. by apply H.
Qed.

(** ** A launch always ends *)

(** C22: no run of a batch's kernel blocks or goes on for ever: after at most four
    accesses of each of the 131072 threads and one for each query, all threads
    have exited. *)
Theorem gpu_batch_terminates g batch : gpu_wf g → (length batch ≤ Z.to_nat MATRIX_BATCH_MAX)%nat →
  ∃ binned offsets, matrix_bin_by_page batch (h_binned g) (h_offsets g) = Ret (binned, offsets) ∧
  ∀ k s, nsteps (page_step (on_device g batch binned) offsets PAGE_TPB) k (page_grid g) s →
    (k ≤ 4 * (Z.to_nat MATRIX_PAGE_COUNT * PAGE_TPB) + length batch)%nat ∧
    (page_exited s ∨ ∃ s', page_step (on_device g batch binned) offsets PAGE_TPB s s').
Proof.
  intros Hg Hmax. destruct (batch_launch g batch Hg Hmax) as (b & o & Hbin & _ & _ & _ & _ & _ & _ & Hk).
  exists b, o. split; [exact Hbin|exact Hk].
Qed.

(** ** Witnesses *)

Definition a_gpu : CUDAGPUEngine := new_gpu (replicate (Z.to_nat MATRIX_BATCH_MAX) zero_query) [].

Lemma a_gpu_wf : gpu_wf a_gpu.
Proof. apply new_gpu_wf, length_replicate. Qed.

Lemma gpu_batch_terminates_witness :
  ∃ binned offsets, matrix_bin_by_page [zero_query] (h_binned a_gpu) (h_offsets a_gpu) = Ret (binned, offsets).
Proof.
  destruct (gpu_batch_terminates a_gpu [zero_query] a_gpu_wf) as (b & o & Hb & _); [by apply Nat.leb_le; vm_compute|].
  exists b, o. exact Hb.
Defined.

Lemma gpu_batch_matches_cpu_witness :
  let batch := [mkQuery 70 0 0 OP_WRITE 0 []; mkQuery 3 0 0 OP_READ 0 []; mkQuery 70 0 0 OP_WRITE 0 []] in
  ∃ ps' g', execute_batch batch (open_txn [] false) = Ret ps' ∧ gpu_execute_batch batch a_gpu g' ∧
    store_checksum g' = kv_checksum (kv_ ps') ∧ d_writes g' = 2.
Proof.
  intros batch. destruct (gpu_batch_matches_cpu "wal" batch (open_txn [] false) a_gpu) as (ps' & He & [g' Hg] & Hall).
  - split; [exact (pd_inv _ _ (open_txn_durable [] false))|]. right. split; [apply open_txn_durable|]. cbn. lia.
  - cbn [open_txn with_txn fresh_ps binned_]. rewrite length_replicate. reflexivity.
  - cbn [open_txn with_txn fresh_ps offsets_]. rewrite length_replicate. reflexivity.
  - exact a_gpu_wf.
  - rewrite open_txn_map. exact fresh_mirrors.
  - discriminate.
  - vm_compute. discriminate.
  - repeat constructor; unfold in_u64; cbn; lia.
  - intros q Hq _. repeat (apply elem_of_cons in Hq as [->|Hq]); [vm_compute; split; [discriminate|reflexivity]..|by apply elem_of_nil in Hq].
  - split_and!; reflexivity.
  - destruct (Hall g' Hg) as (_ & _ & Hc & _ & _ & Hw). exists ps', g'.
    split; [exact He|]. split; [exact Hg|]. split; [exact Hc|]. rewrite Hw. reflexivity.
Defined.

Lemma fresh_engine_scans cap col fs pid serial : let e := new_engine cap col fs pid serial in
  scan_column_ e = col ∧ scans_ e = 0 ∧ scan_result_sum_ e = 0.
Proof. done. Qed.

Lemma gpu_scan_matches_cpu_witness :
  let q := mkQuery 1 0 0 OP_SCAN 8 (replicate 32 Byte.x00) in
  let e := new_engine 1000 (d_scan_col a_gpu) (mkFS ∅ 100 ∅) 8 1 in
  ∃ q' e' g', scan_query (HashOrder0 := elements_order) q e = Ret (q', e') ∧ gpu_execute_scan q a_gpu q' g'.
Proof.
  intros q e. destruct (fresh_engine_scans 1000 (d_scan_col a_gpu) (mkFS ∅ 100 ∅) 8 1) as (Hcol & Hs & Hsum).
  destruct (gpu_scan_matches_cpu (HashOrder0 := elements_order) q a_gpu e) as (q' & e' & He & [g' Hg] & _).
  - reflexivity.
  - vm_compute. reflexivity.
  - exact (eq_sym Hcol).
  - unfold e. rewrite Hcol. exact (length_iota u32 (Z.to_nat MATRIX_SCAN_COLUMN_SIZE)).
  - exact (eq_sym Hs).
  - exact (eq_sym Hsum).
  - exists q', e', g'. split; [exact He|exact Hg].
Defined.
