(* ===== verification/Driver.v ===== *)
(** * Driver: the run of [main.cpp]

    The benchmark driver of the CPU build: the placement of the scan column, the
    sweep of batch sizes and the scan benchmark, and the pipeline run: a producer,
    the consumer of point operations and the consumer of scans (both of Pipeline)
    on two rings, and the main thread that stops them and checks the totals.  A
    move is one turn of one thread, with the clock readings it takes; a call of a
    ring is one access (RingBuffer has the finer steps).  A thread that is not at
    work takes no part in a move.  Handoff has the measurement before the run,
    AnalyticsDemo the demonstration after it. *)

From S2P Require Export RingBuffer GpuEngine.

Definition TOTAL_QUERIES : Z := 10000.
Definition RING : Z := 4096.
Definition SCAN_RING : Z := 64.
Definition SCAN_THRESHOLD : Z := MATRIX_SCAN_COLUMN_SIZE / 2.
Definition is_scan (i : Z) : bool := i `mod` SCAN_EVERY =? 0.

Section driver.
Context `{!HashOrder Z}.

(** ** Before the pipeline *)

(** [routing_demo] and the scan column of the run. *)
Definition routing_demo (r : CpuRouter) : outcome (MemorySpace * MemorySpace * CpuRouter) :=
  let '(small_id, r) := place_scan_column (256 * 1024) r in
  let '(large_id, r) := place_scan_column (64 * 1024 * 1024) r in
  small ← home_of small_id r;
  large ← home_of large_id r;
  Ret (small, large, r).

Definition QUERIES_PER_POINT : nat := Z.to_nat 400000.
Definition sweep_sizes : list nat := map Z.to_nat [64; 256; 512; 1024; 2048; 4096; 8192; 16384; 32768; 65536].

Definition sweep_query (i : nat) : DatabaseQuery :=
  mkQuery (Z.of_nat i) 0 0 (if Nat.even i then OP_READ else OP_WRITE) 0 (replicate 32 Byte.x00).

(** [sweep_batch_sizes], without the timing. *)
Definition sweep_batch_sizes {E} `{!ComputeInterface E} (engine : E) : outcome E :=
  let batch := map sweep_query (seq 0 (Z.to_nat MATRIX_BATCH_MAX)) in
  engine ← ci_execute_batch (take 256 batch) engine;
  fold_outcome (λ engine bs,
    for_loop 0 (QUERIES_PER_POINT / bs) (λ _ engine, ci_execute_batch (take bs batch) engine) engine)
    sweep_sizes engine.

Definition scan_sizes : list nat := map (λ k, Z.to_nat (Z.shiftl 1 k)) [16; 18; 20; 22; 24; 26].

(** [scan_benchmark] of the CPU engine: every count against the oracle. *)
Definition scan_benchmark_point (n : nat) : outcome unit :=
  let threshold := Z.of_nat n / 2 in
  let oracle := u64 (Z.of_nat n - 1 - threshold) in
  c64 ← benchmark_scan n threshold;
  c32 ← benchmark_scan_u32 n (u32 threshold);
  c32x4 ← benchmark_scan_u32 n (u32 threshold);
  cipt ← benchmark_scan_u32 n (u32 threshold);
  _ ← assert_ (c64 =? oracle);
  _ ← assert_ (c32 =? oracle);
  _ ← assert_ (c32x4 =? oracle);
  assert_ (cipt =? oracle).

Definition scan_benchmark : outcome unit := fold_outcome (λ _ n, scan_benchmark_point n) scan_sizes tt.

(** The part of [main] before the threads start: the router gets its scan
    column, and the benchmarks run on the CPU engine; [benchmark] is the scan
    benchmark, which keeps no state. *)
Definition boot_with (benchmark : outcome unit) (r : CpuRouter) : outcome (Z * CpuRouter) :=
  let '(scan_col_id, r) := place_scan_column (MATRIX_SCAN_COLUMN_SIZE * 4) r in
  '(_, r) ← routing_demo r;
  s ← sweep_batch_sizes (cpu_ r);
  _ ← benchmark;
  Ret (scan_col_id, mkRouter s (gpu_ r) (cm_ r) (placement_ r)).

Definition boot : CpuRouter → outcome (Z * CpuRouter) := boot_with scan_benchmark.

(** ** The pipeline run *)

Record Drive := mkDrive {
  next_query : Z;                      (* the producer's [i] *)
  pending : option DatabaseQuery;      (* built, not yet on its ring *)
  ring_buffer : ring DatabaseQuery;
  scan_ring : ring DatabaseQuery;
  consumer : Consumer;                 (* with the router both consumers call *)
  scan_col_id : Z;
  scans_processed : Z;
  run_state : bool;
  consumer_gone : bool;
  scan_consumer_gone : bool
}.

Inductive Move :=
  | Produce (stamp_ns : Z)
  | Consume (now start current : Z)
  | Scan
  | Supervise.

Definition after_push (ok : bool) (q : DatabaseQuery) (r s : ring DatabaseQuery) (d : Drive) : Drive :=
  mkDrive (if ok then next_query d + 1 else next_query d) (if ok then None else Some q) r s
    (consumer d) (scan_col_id d) (scans_processed d) (run_state d) (consumer_gone d) (scan_consumer_gone d).

(** The producer: builds its next query, or tries the ring again. *)
Definition produce_move (stamp_ns : Z) (d : Drive) : outcome Drive :=
  let i := next_query d in
  if i <? TOTAL_QUERIES then
    q ← match pending d with Some q => Ret q | None => produce SCAN_THRESHOLD i stamp_ns end;
    if is_scan i then
      '(ok, s) ← try_emplace SCAN_RING (scan_ring d) q; Ret (after_push ok q (ring_buffer d) s d)
    else
      '(ok, r) ← try_emplace RING (ring_buffer d) q; Ret (after_push ok q r (scan_ring d) d)
  else Ret d.

Definition with_consumer (c : Consumer) (r : ring DatabaseQuery) (d : Drive) : Drive :=
  mkDrive (next_query d) (pending d) r (scan_ring d) c (scan_col_id d) (scans_processed d) (run_state d)
    (consumer_gone d) (scan_consumer_gone d).

(** The consumer of point operations: one turn of its loop, or its exit. *)
Definition consume_move (now start current : Z) (d : Drive) : outcome Drive :=
  if consumer_gone d then Ret d
  else if run_state d then
    '(popped, r) ← try_pop RING (ring_buffer d);
    c ← turn (consumer d) (mkTurn popped now start current);
    Ret (with_consumer c r d)
  else Ret (mkDrive (next_query d) (pending d) (ring_buffer d) (scan_ring d) (consumer d) (scan_col_id d)
              (scans_processed d) false true (scan_consumer_gone d)).

Definition with_router (r : CpuRouter) (c : Consumer) : Consumer :=
  mkConsumer (batch c) (batch_start_time c) (latencies_ns c) (total_processed c) r.

(** The consumer of scans: one pop of its loop or of the drain behind it; an
    empty ring ends the drain. *)
Definition scan_move (d : Drive) : outcome Drive :=
  if scan_consumer_gone d then Ret d
  else
    '(popped, s) ← try_pop SCAN_RING (scan_ring d);
    match popped with
    | Some sq =>
        '(_, r) ← route_scan sq (scan_col_id d) (router (consumer d));
        Ret (mkDrive (next_query d) (pending d) (ring_buffer d) s (with_router r (consumer d)) (scan_col_id d)
               (u64 (scans_processed d + 1)) (run_state d) (consumer_gone d) false)
    | None =>
        Ret (mkDrive (next_query d) (pending d) (ring_buffer d) s (consumer d) (scan_col_id d)
               (scans_processed d) (run_state d) (consumer_gone d) (negb (run_state d)))
    end.

Definition expected_scans : Z := Z.of_nat (length (List.filter is_scan (seqZ 0 TOTAL_QUERIES))).
Definition expected_pointops : Z := TOTAL_QUERIES - expected_scans.
Definition expected_scan_sum : Z := u64 (expected_scans * (MATRIX_SCAN_COLUMN_SIZE - 1 - SCAN_THRESHOLD)).

(** The main thread: once the producer is joined, it waits for both counts and
    lowers the flag. *)
Definition drained (d : Drive) : bool :=
  negb ((total_processed (consumer d) <? expected_pointops) || (scans_processed d <? expected_scans)).

Definition supervise_move (d : Drive) : Drive :=
  if (next_query d =? TOTAL_QUERIES) && drained d then
    mkDrive (next_query d) (pending d) (ring_buffer d) (scan_ring d) (consumer d) (scan_col_id d)
      (scans_processed d) false (consumer_gone d) (scan_consumer_gone d)
  else d.

Definition move (d : Drive) (m : Move) : outcome Drive :=
  match m with
  | Produce stamp_ns => produce_move stamp_ns d
  | Consume now start current => consume_move now start current d
  | Scan => scan_move d
  | Supervise => Ret (supervise_move d)
  end.

Definition drive (ms : list Move) (d : Drive) : outcome Drive := fold_outcome move ms d.

Definition joined (d : Drive) : bool := consumer_gone d && scan_consumer_gone d.

(** The run starts with empty rings and all threads at work. *)
Definition start_run (id : Z) (r : CpuRouter) : Drive :=
  mkDrive 0 None (ring_init RING zero_query) (ring_init SCAN_RING zero_query) (fresh_consumer r) id 0 true false false.

(** ** The totals *)

Record Totals := mkTotals {
  tt_reads : Z; tt_writes : Z; tt_applied : Z; tt_scans : Z; tt_scan_sum : Z
}.

(** [reads_base] and its companions, and the deltas at the end. *)
Definition snapshot (r : CpuRouter) : Totals :=
  let s := cpu_ r in
  mkTotals (reads_ (sv_points s)) (writes_ (sv_points s)) (commits_ (sv_points s))
    (scans_ (sv_engine s)) (scan_result_sum_ (sv_engine s)).

Definition since (base now : Totals) : Totals :=
  mkTotals (u64 (tt_reads now - tt_reads base)) (u64 (tt_writes now - tt_writes base))
    (u64 (tt_applied now - tt_applied base)) (u64 (tt_scans now - tt_scans base))
    (u64 (tt_scan_sum now - tt_scan_sum base)).

(** What [main] checks after joining, and reports. *)
Definition report (base : Totals) (d : Drive) : outcome Totals :=
  let processed := u64 (total_processed (consumer d) + scans_processed d) in
  let t := since base (snapshot (router (consumer d))) in
  _ ← assert_ (processed =? TOTAL_QUERIES);
  _ ← assert_ (u64 (tt_reads t + tt_writes t + tt_scans t) =? processed);
  _ ← assert_ (tt_applied t =? tt_writes t);
  _ ← assert_ (tt_scans t =? expected_scans);
  _ ← assert_ (tt_scan_sum t =? expected_scan_sum);
  Ret t.

(** ** The scan benchmark *)

Lemma length_filter_above t n : 0 ≤ t →
  length (List.filter (λ i, t <? Z.of_nat i) (seq 0 n)) = (n - Z.to_nat (t + 1))%nat.
Proof.
  intros Ht. induction n as [|n IH]; [done|]. rewrite seq_S, List.filter_app, length_app, IH. cbn [List.filter Nat.add].
  destruct (Z.ltb_spec t (Z.of_nat n)); cbn [length]; lia.
Qed.

Lemma count_above cast n t : (∀ i, (i < n)%nat → cast (Z.of_nat i) = Z.of_nat i) → 0 ≤ t < Z.of_nat n →
  Z.of_nat (length (kept (iota cast n) (λ v, t <? v) n)) = Z.of_nat n - 1 - t.
Proof.
  intros Hc Ht. unfold kept, select. rewrite length_map.
  rewrite (List.filter_ext_in _ (λ i, t <? Z.of_nat i)).
  - rewrite length_filter_above by lia. lia.
  - intros i Hi. apply in_seq in Hi. unfold iota. rewrite (nth_indep _ 0 (cast (Z.of_nat 0))) by (rewrite length_map, length_seq; lia).
    change (cast (Z.of_nat 0)) with ((λ j, cast (Z.of_nat j)) 0%nat). rewrite map_nth, seq_nth by lia. cbn. by rewrite Hc by lia.
Qed.

Lemma cpu_scan_above cast n t : (∀ i, (i < n)%nat → cast (Z.of_nat i) = Z.of_nat i) → 0 ≤ t < Z.of_nat n →
  Z.of_nat n ≤ 2 ^ 32 → cpu_scan_loop (iota cast n) t = Ret (Z.of_nat n - 1 - t).
Proof.
  intros Hc Ht Hn. rewrite cpu_scan_loop_count, length_iota, (count_above cast n t Hc Ht).
  f_equal. apply u64_small. unfold in_u64. lia.
Qed.

Lemma scan_benchmark_point_passes n : (0 < n)%nat → Z.of_nat n ≤ 2 ^ 32 → scan_benchmark_point n = Ret tt.
Proof.
  intros H0 Hn. unfold scan_benchmark_point, benchmark_scan, benchmark_scan_u32.
  assert (0 ≤ Z.of_nat n / 2 < Z.of_nat n) as Ht by (split; [apply Z.div_pos; lia|apply Z.div_lt; lia]).
  rewrite (u32_small (_ / 2)) by (unfold in_u32; lia).
  rewrite (cpu_scan_above u64) by (done || (intros i Hi; apply u64_small; unfold in_u64; lia)).
  rewrite (cpu_scan_above u32) by (done || (intros i Hi; apply u32_small; unfold in_u32; lia)).
  cbn [mbind outcome_bind]. rewrite u64_small by (unfold in_u64; lia). by rewrite Z.eqb_refl.
Qed.

(** ** The sweep *)

(** The point store of the run: no log, buffers of their size, keys that name slots. *)
Record idle (ps : PointStore) : Prop := {
  id_inv : ps_inv ps;
  id_log : cold_store_ ps = None;
  id_binned : Z.of_nat (length (binned_ ps)) = MATRIX_BATCH_MAX;
  id_offsets : length (offsets_ ps) = S (Z.to_nat MATRIX_PAGE_COUNT);
  id_counters : counters_ok ps;
  id_keys : ∀ k, k ∈ dom (kv_map (kv_ ps)) → 0 ≤ k < MATRIX_STORE_SLOTS
}.

Definition small_ids (l : list DatabaseQuery) : Prop := Forall (λ q, 0 ≤ query_id q < MATRIX_STORE_SLOTS) l.

Lemma small_slot_keys l : small_ids l → slot_keys l.
Proof. unfold small_ids. rewrite Forall_forall. intros H q Hq _. by apply H. Qed.

Lemma small_u64 l : small_ids l → Forall (λ q, in_u64 (query_id q)) l.
Proof. intros H. eapply Forall_impl; [exact H|]. intros q Hq. unfold in_u64, MATRIX_STORE_SLOTS in *. cbn in Hq. lia. Qed.

Lemma idle_ready wal n ps : idle ps → PointStore.ready wal n ps.
Proof. intros [? ? _ _ _ _]. split; [done|by left]. Qed.

Lemma ready_no_log n ps : PointStore.ready "a" n ps → PointStore.ready "b" n ps → cold_store_ ps = None.
Proof.
  intros [_ [?|[[_ [i Ha] _ _ _] _]]] [_ [?|[[_ [j Hb] _ _ _] _]]]; try done. rewrite Ha in Hb. discriminate Hb.
Qed.

Lemma small_fits ps l : idle ps → small_ids l → fits (exec_queries (kv_map (kv_ ps)) l).1.
Proof. intros Hi Hl. apply slot_map_fits, exec_queries_keys; [by apply small_slot_keys|apply Hi]. Qed.

Lemma idle_batch b ps : idle ps → b ≠ [] → Z.of_nat (length b) ≤ MATRIX_BATCH_MAX → small_ids b →
  ∃ ps', execute_batch b ps = Ret ps' ∧ idle ps'.
Proof.
  intros Hi Hne Hmax Hb. pose proof (small_u64 b Hb) as Hu. pose proof (small_fits ps b Hi Hb) as Hf.
  destruct (execute_batch_run "a" 0 b ps (idle_ready _ _ _ Hi) Hne Hmax (id_binned _ Hi) (id_offsets _ Hi) Hu Hf)
    as (ps' & He & Ha & Hbin & Hoff & Hmap & _).
  destruct (execute_batch_run "b" 0 b ps (idle_ready _ _ _ Hi) Hne Hmax (id_binned _ Hi) (id_offsets _ Hi) Hu Hf)
    as (ps2 & He2 & Hb2 & _). rewrite He in He2. injection He2 as <-.
  destruct (execute_batch_counts b ps ps' (id_counters _ Hi) Hmax (id_binned _ Hi) (id_offsets _ Hi) He) as (_ & _ & _ & Hc).
  exists ps'. split; [done|]. split; try done; [apply Ha|by apply (ready_no_log 0)|].
  rewrite Hmap. apply exec_queries_keys; [by apply small_slot_keys|apply Hi].
Qed.

(** A server whose engine is [e] and whose point store is as the run wants it. *)
Definition resting (e : Engine) (s : Server) : Prop := sv_engine s = e ∧ idle (sv_points s).

Lemma resting_batch e s b : resting e s → b ≠ [] → Z.of_nat (length b) ≤ MATRIX_BATCH_MAX → small_ids b →
  ∃ s', ci_execute_batch b s = Ret s' ∧ resting e s'.
Proof.
  intros [He Hi] Hne Hmax Hb. destruct (idle_batch b _ Hi Hne Hmax Hb) as (ps' & Hr & Hi').
  eexists. cbn. rewrite Hr. split; [done|]. by split.
Qed.

Lemma for_loop_keeps {A} (P : A → Prop) body n : ∀ i a,
  (∀ k a, P a → ∃ a', body k a = Ret a' ∧ P a') → P a → ∃ a', for_loop i n body a = Ret a' ∧ P a'.
Proof.
  induction n as [|n IH]; intros i a Hb Ha; [by exists a|]. cbn.
  destruct (Hb i a Ha) as (a1 & -> & H1). cbn. by apply IH.
Qed.

Lemma fold_outcome_keeps {A B} (P : A → Prop) (f : A → B → outcome A) l : ∀ a,
  (∀ x a, x ∈ l → P a → ∃ a', f a x = Ret a' ∧ P a') → P a → ∃ a', fold_outcome f l a = Ret a' ∧ P a'.
Proof.
  induction l as [|x l IH]; intros a Hf Ha; [by exists a|]. cbn.
  destruct (Hf x a) as (a1 & -> & H1); [by left|done|]. cbn. apply IH; [|done]. intros y b Hy. apply Hf. by right.
Qed.

Lemma sweep_batch_slice n : (0 < n)%nat → Z.of_nat n ≤ MATRIX_BATCH_MAX →
  let b := take n (map sweep_query (seq 0 (Z.to_nat MATRIX_BATCH_MAX))) in
  b ≠ [] ∧ Z.of_nat (length b) ≤ MATRIX_BATCH_MAX ∧ small_ids b.
Proof.
  intros H0 Hn b. assert (length b = n) as Hl.
  { unfold b. rewrite length_take, length_map, length_seq. lia. }
  split; [intros E; rewrite E in Hl; cbn in Hl; lia|]. split; [lia|].
  unfold b, small_ids. rewrite firstn_map. apply Forall_map, Forall_take, Forall_forall.
  intros i Hi%elem_of_seq. unfold sweep_query, MATRIX_BATCH_MAX, MATRIX_STORE_SLOTS in *. cbn [query_id]. lia.
Qed.

Lemma scan_benchmark_passes : scan_benchmark = Ret tt.
Proof.
  destruct (fold_outcome_keeps (λ _, True) (λ _ n, scan_benchmark_point n) scan_sizes tt) as ([] & H & _); [|done|exact H].
  intros n _ (k & -> & Hk)%list_elem_of_fmap _. exists tt. split; [|done]. rewrite Z.shiftl_1_l.
  assert (0 < 2 ^ k ≤ 2 ^ 32) as H.
  { split; [apply Z.pow_pos_nonneg|apply Z.pow_le_mono_r]; try lia;
      repeat (apply elem_of_cons in Hk as [->|Hk]; [lia|]); by apply elem_of_nil in Hk. }
  apply scan_benchmark_point_passes; lia.
Qed.

Lemma sweep_sizes_ok bs : bs ∈ sweep_sizes → (0 < bs)%nat ∧ Z.of_nat bs ≤ MATRIX_BATCH_MAX.
Proof.
  intros (z & -> & Hz)%list_elem_of_fmap. unfold MATRIX_BATCH_MAX.
  repeat (apply elem_of_cons in Hz as [->|Hz]; [lia|]). by apply elem_of_nil in Hz.
Qed.

Lemma sweep_runs e s : resting e s → ∃ s', sweep_batch_sizes s = Ret s' ∧ resting e s'.
Proof.
  intros Hs. unfold sweep_batch_sizes.
  destruct (sweep_batch_slice 256) as (H1 & H2 & H3); [lia|unfold MATRIX_BATCH_MAX; lia|].
  destruct (resting_batch e s _ Hs H1 H2 H3) as (s1 & -> & Hs1). cbn [mbind outcome_bind].
  apply fold_outcome_keeps; [|done]. intros bs a Hbs Ha. apply for_loop_keeps; [|done]. intros _ a' Ha'.
  destruct (sweep_sizes_ok bs Hbs) as [Hb0 Hbm]. destruct (sweep_batch_slice bs Hb0 Hbm) as (? & ? & ?). by apply resting_batch.
Qed.

(** Without a GPU both demo columns are placed on the host. *)
Lemma routing_demo_cpu s cm homes :
  routing_demo (mkRouter s None cm homes) = Ret (HOST, HOST, mkRouter s None cm ((homes ++ [HOST]) ++ [HOST])).
Proof.
  unfold routing_demo, home_of. cbn [place_scan_column gpu_ placement_ cpu_ cm_]. rewrite !Nat2Z.id.
  rewrite (lookup_app_l (homes ++ [HOST]) [HOST] (length homes)) by (rewrite length_app; cbn; lia). by rewrite !list_lookup_middle.
Qed.

Lemma bind_of_Ret {A B} (m : outcome A) a (f : A → outcome B) : m = Ret a → (m ≫= f) = f a.
Proof. by intros ->. Qed.

Lemma boot_from benchmark r id r1 x r2 s :
  place_scan_column (MATRIX_SCAN_COLUMN_SIZE * 4) r = (id, r1) → routing_demo r1 = Ret (x, r2) →
  sweep_batch_sizes (cpu_ r2) = Ret s → benchmark = Ret tt →
  boot_with benchmark r = Ret (id, mkRouter s (gpu_ r2) (cm_ r2) (placement_ r2)).
Proof.
  intros H1 H2 H3 H4. unfold boot_with. rewrite H1. etrans; [by apply bind_of_Ret|]. destruct x.
  etrans; [exact (bind_of_Ret _ _ _ H3)|]. exact (bind_of_Ret _ _ _ H4).
Qed.

(** The driver gets as far as its threads: no check of the benchmarks fails, and
    the store is as the run wants it. *)
Lemma boot_runs e ps : idle ps →
  ∃ id s, boot (mkRouter (mkServer e ps) None (mkCostModel (detect false) false) []) =
      Ret (id, mkRouter s None (mkCostModel (detect false) false) [HOST; HOST; HOST]) ∧
    resting e s ∧ id = 0.
Proof.
  intros Hi. destruct (sweep_runs e (mkServer e ps)) as (s & Hs & Hr); [by split|]. exists 0, s.
  split; [|by split]. set (cm := mkCostModel (detect false) false).
  exact (boot_from scan_benchmark (mkRouter (mkServer e ps) None cm []) 0 (mkRouter (mkServer e ps) None cm [HOST]) _ _ s
    eq_refl (routing_demo_cpu (mkServer e ps) cm [HOST]) Hs scan_benchmark_passes).
Qed.
End driver.
