(* ===== verification/DriverRun.v ===== *)
(** * DriverRun: the run of [main.cpp] ends with the totals it checks

    The invariant of the run that Driver describes, the proof that every move
    keeps it and that some move always brings the end nearer, and the theorem:
    no interleaving of the threads loses, repeats or miscounts a query. *)

From S2P Require Export Driver.

(** ** What the producer deals *)

Definition shape (q : DatabaseQuery) : Z * Z := (query_id q, opcode q).
Definition point_op (i : Z) : Z := if i `mod` 2 =? 0 then OP_READ else OP_WRITE.
Definition point_shape (i : Z) : Z * Z := (i, point_op i).

Definition points_below (n : Z) : list (Z * Z) := map point_shape (List.filter (λ i, negb (is_scan i)) (seqZ 0 n)).
Definition scans_below (n : Z) : Z := Z.of_nat (length (List.filter is_scan (seqZ 0 n))).

Definition scan_shape (q : DatabaseQuery) : Prop :=
  matrix_get_scan_threshold q = Ret SCAN_THRESHOLD ∧ matrix_get_scan_column_id q = Ret 0 ∧
  matrix_get_scan_agg_op q = Ret AGG_COUNT.

Lemma seqZ_snoc n : 0 ≤ n → seqZ 0 (n + 1) = seqZ 0 n ++ [n].
Proof. intros Hn. rewrite <- (Z2Nat.id n) by done. replace (Z.of_nat (Z.to_nat n) + 1) with (Z.of_nat (S (Z.to_nat n))) by lia. apply seqZ_S. Qed.

Lemma points_next n : 0 ≤ n → points_below (n + 1) = points_below n ++ (if is_scan n then [] else [point_shape n]).
Proof.
  intros Hn. unfold points_below. rewrite seqZ_snoc, List.filter_app, map_app by done. cbn. by destruct (is_scan n).
Qed.

Lemma scans_next n : 0 ≤ n → scans_below (n + 1) = scans_below n + Z.b2z (is_scan n).
Proof.
  intros Hn. unfold scans_below. rewrite seqZ_snoc, List.filter_app, length_app by done. cbn. destruct (is_scan n); cbn; lia.
Qed.

Lemma points_scans n : 0 ≤ n → Z.of_nat (length (points_below n)) + scans_below n = n.
Proof.
  intros Hn. unfold points_below, scans_below. rewrite length_map.
  rewrite <- Nat2Z.inj_add, Nat.add_comm, List.filter_length, length_seqZ. lia.
Qed.

Lemma scans_mono n m : 0 ≤ n ≤ m → 0 ≤ scans_below n ≤ scans_below m.
Proof.
  intros Hn. unfold scans_below. replace m with (n + (m - n)) by lia. rewrite seqZ_app, List.filter_app, length_app by lia. lia.
Qed.

Lemma ten_scans : expected_scans = 10.
Proof. vm_compute. reflexivity. Qed.

Lemma all_scans : scans_below TOTAL_QUERIES = expected_scans.
Proof. unfold scans_below, expected_scans. reflexivity. Qed.

Lemma scans_total n : 0 ≤ n ≤ TOTAL_QUERIES → 0 ≤ scans_below n ≤ expected_scans.
Proof. intros Hn. rewrite <- all_scans. apply scans_mono. exact Hn. Qed.

Lemma nothing_dealt : points_below 0 = [] ∧ scans_below 0 = 0.
Proof. split; reflexivity. Qed.

Lemma elem_of_points n x : x ∈ points_below n ↔ ∃ i, x = point_shape i ∧ 0 ≤ i < n ∧ is_scan i = false.
Proof.
  unfold points_below. rewrite list_elem_of_fmap. apply exist_proper. intros i.
  by rewrite list_elem_of_In, filter_In, <- list_elem_of_In, elem_of_seqZ, Z.add_0_l, negb_true_iff.
Qed.

Lemma points_small n x : n ≤ TOTAL_QUERIES → x ∈ points_below n → 0 ≤ x.1 < MATRIX_STORE_SLOTS.
Proof.
  intros Hn (i & -> & Hi & _)%elem_of_points. unfold TOTAL_QUERIES, MATRIX_STORE_SLOTS in *. cbn. lia.
Qed.

Lemma shapes_small n l : n ≤ TOTAL_QUERIES → map shape l = points_below n → small_ids l.
Proof.
  intros Hn Hl. apply Forall_forall. intros q Hq. apply (points_small n (shape q) Hn). rewrite <- Hl.
  by apply list_elem_of_fmap_2.
Qed.

Lemma produce_scan i stamp : is_scan i = true → ∃ q, produce SCAN_THRESHOLD i stamp = Ret q ∧ scan_shape q.
Proof.
  intros Hi. unfold produce. unfold is_scan in Hi. rewrite Hi. eexists. split; [reflexivity|].
  split; [|split]; vm_compute; reflexivity.
Qed.

Lemma produce_point i stamp : is_scan i = false → ∃ q, produce SCAN_THRESHOLD i stamp = Ret q ∧ shape q = point_shape i.
Proof. intros Hi. unfold produce. unfold is_scan in Hi. rewrite Hi. by eexists. Qed.

#[local] Opaque scans_below points_below expected_scans.

(** ** The invariant *)

Section run.
Context `{!HashOrder Z}.
Variables (e0 : Engine) (ps0 : PointStore).

Definition per_scan : Z := MATRIX_SCAN_COLUMN_SIZE - 1 - SCAN_THRESHOLD.

(** The engine after [k] scans of the fixed column. *)
Definition scanned (k : Z) (e : Engine) : Prop :=
  scan_column_ e = scan_column_ e0 ∧ scans_ e = u64 (scans_ e0 + k) ∧
  scan_result_sum_ e = u64 (scan_result_sum_ e0 + k * per_scan).

Definition routed (id : Z) (r : CpuRouter) : Prop := gpu_ r = None ∧ home_of id r = Ret HOST.

(** The counters have counted what has left the buffer. *)
Definition tallied (done : list DatabaseQuery) (c : Consumer) : Prop :=
  ∀ served, done = served ++ batch c → counters (points c) = counted (map opcode served) (counters ps0).

Record point_side (d : Drive) (done l : list DatabaseQuery) : Prop := {
  pt_ring : ring_holds RING (ring_buffer d) l;
  pt_tail : tail_ (ring_buffer d) = Z.of_nat (length (done ++ l));
  pt_consuming : ∀ wal, consuming wal (kv_map (kv_ ps0)) done l (consumer d);
  pt_shapes : map shape (done ++ l) = points_below (next_query d);
  pt_tally : tallied done (consumer d)
}.

Record scan_side (d : Drive) (l : list DatabaseQuery) : Prop := {
  sc_ring : ring_holds SCAN_RING (scan_ring d) l;
  sc_tail : tail_ (scan_ring d) = scans_below (next_query d);
  sc_shapes : Forall scan_shape l;
  sc_count : scans_processed d + Z.of_nat (length l) = scans_below (next_query d);
  sc_engine : scanned (scans_processed d) (sv_engine (cpu_ (router (consumer d))));
  sc_routed : routed (scan_col_id d) (router (consumer d))
}.

Record run_inv (d : Drive) : Prop := {
  rn_next : 0 ≤ next_query d ≤ TOTAL_QUERIES;
  rn_pending : ∀ q, pending d = Some q → ∃ stamp, produce SCAN_THRESHOLD (next_query d) stamp = Ret q;
  rn_points : ∃ done l, point_side d done l;
  rn_scans : 0 ≤ scans_processed d ∧ ∃ l, scan_side d l;
  rn_flag : run_state d = false → next_query d = TOTAL_QUERIES ∧ drained d = true;
  rn_gone : (consumer_gone d = true → run_state d = false) ∧ (scan_consumer_gone d = true → run_state d = false)
}.

Lemma ring_cap : ∃ k, 1 ≤ k ≤ 63 ∧ RING = 2 ^ k.
Proof. by exists 12. Qed.
Lemma scan_ring_cap : ∃ k, 1 ≤ k ≤ 63 ∧ SCAN_RING = 2 ^ k.
Proof. by exists 6. Qed.

Lemma done_bound n (done l : list DatabaseQuery) : 0 ≤ n ≤ TOTAL_QUERIES → map shape (done ++ l) = points_below n →
  Z.of_nat (length (done ++ l)) = n - scans_below n.
Proof. intros Hn H. rewrite <- (length_map shape), H. pose proof (points_scans n). lia. Qed.

(** ** The producer keeps it *)

(** A query pushed on the ring is one more to come for the consumer. *)
Lemma consuming_push wal m0 done l q c :
  idle (points c) → (∀ k, k ∈ dom m0 → 0 ≤ k < MATRIX_STORE_SLOTS) → small_ids ((done ++ l) ++ [q]) →
  Z.of_nat (length ((done ++ l) ++ [q])) < 2 ^ 64 →
  consuming wal m0 done l c → consuming wal m0 done (l ++ [q]) c.
Proof.
  intros Hidle Hm Hsm Hlen [H1 H2 H3 H4 H5 H6 H7 H8]. rewrite <- (assoc_L (++)) in Hsm, Hlen.
  split; try done; [by apply idle_ready|by apply slot_map_fits, exec_queries_keys; [apply small_slot_keys|]|by apply small_u64].
Qed.

Hypothesis Hidle0 : idle ps0.

Lemma side_idle d done l : 0 ≤ next_query d ≤ TOTAL_QUERIES → point_side d done l → idle (points (consumer d)).
Proof using Hidle0.
  intros Hn [_ _ Hc Hsh Ht]. pose proof (Hc "a") as [Ha Hbin Hoff _ (served & Hdone & _ & Hmap) _ _ _].
  pose proof (Hc "b") as [Hb _ _ _ _ _ _ _].
  split; [apply Ha| |done|done| |].
  - eapply ready_no_log; [eapply ready_mono; [|exact Ha]|eapply ready_mono; [|exact Hb]]; apply Nat.le_0_l.
  - pose proof (Ht served Hdone) as Hct. pose proof (counted_words (map opcode served) (counters ps0)) as Hw.
    rewrite <- Hct in Hw. exact Hw.
  - rewrite Hmap. apply exec_queries_keys; [|apply Hidle0]. apply small_slot_keys.
    pose proof (shapes_small (next_query d) (done ++ l) (proj2 Hn) Hsh) as Hs. rewrite Hdone in Hs.
    by apply Forall_app in Hs as [[? _]%Forall_app _].
Qed.

Lemma push_point (b : bool) q r d done l : let d' := after_push b q r (scan_ring d) d in
  0 ≤ next_query d < TOTAL_QUERIES → is_scan (next_query d) = false → shape q = point_shape (next_query d) →
  point_side d done l → ring_holds RING r (if b then l ++ [q] else l) →
  tail_ r = tail_ (ring_buffer d) + Z.b2z b → point_side d' done (if b then l ++ [q] else l).
Proof using Hidle0.
  intros d' Hn Hi Hq Hs Hr Ht. pose proof (side_idle d done l ltac:(lia) Hs) as Hidle.
  destruct Hs as [_ Htail Hc Hsh Hta]. destruct b; cbn [Z.b2z] in Ht.
  - assert (map shape (done ++ l ++ [q]) = points_below (next_query d + 1)) as Hsh'.
    { rewrite (assoc_L (++)), map_app, Hsh, points_next, Hi by lia. cbn. by rewrite Hq. }
    split; cbn; try done.
    + rewrite Ht, Htail, (assoc_L (++)), (length_app (done ++ l)). cbn. lia.
    + intros wal. pose proof (done_bound (next_query d + 1) done (l ++ [q]) ltac:(lia) Hsh') as Hb.
      pose proof (scans_total (next_query d + 1) ltac:(lia)). unfold TOTAL_QUERIES in *.
      rewrite (assoc_L (++)) in Hb, Hsh'.
      apply consuming_push; [done|apply Hidle0|by eapply shapes_small; [|exact Hsh']; unfold TOTAL_QUERIES; lia|lia|apply Hc].
  - split; cbn; try done. by rewrite Ht, Z.add_0_r.
Qed.

Lemma push_scan (b : bool) q s d l : let d' := after_push b q (ring_buffer d) s d in
  0 ≤ next_query d → is_scan (next_query d) = true → scan_shape q → scan_side d l →
  ring_holds SCAN_RING s (if b then l ++ [q] else l) → tail_ s = tail_ (scan_ring d) + Z.b2z b →
  scan_side d' (if b then l ++ [q] else l).
Proof.
  intros d' Hn Hi Hq [_ Htail Hsh Hc He Hr] Hring Ht.
  assert (scans_below (next_query d + 1) = scans_below (next_query d) + 1) as Hnext by (rewrite scans_next, Hi by lia; done).
  destruct b; cbn [Z.b2z] in Ht; split; cbn; rewrite ?length_app; cbn; rewrite ?Hnext; try done; try lia.
  apply Forall_app. split; [done|]. by apply Forall_singleton.
Qed.

(** Between two pushes of the other ring the sides only see the counter move. *)
Lemma scan_side_skip b q r d l : is_scan (next_query d) = false → 0 ≤ next_query d → scan_side d l →
  scan_side (after_push b q r (scan_ring d) d) l.
Proof.
  intros Hi Hn [Hr Ht Hsh Hc He Hro]. assert (scans_below (next_query d + 1) = scans_below (next_query d)) as Hnext
    by (rewrite scans_next, Hi by lia; cbn; lia).
  destruct b; split; cbn; rewrite ?Hnext; done.
Qed.

Lemma point_side_skip b q s d done l : is_scan (next_query d) = true → 0 ≤ next_query d → point_side d done l →
  point_side (after_push b q (ring_buffer d) s d) done l.
Proof.
  intros Hi Hn [Hr Ht Hc Hsh Hta]. assert (points_below (next_query d + 1) = points_below (next_query d)) as Hnext
    by (rewrite points_next, Hi by lia; apply app_nil_r).
  destruct b; split; cbn; rewrite ?Hnext; done.
Qed.

(** The query the producer has in hand. *)
Lemma in_hand d stamp : run_inv d → ∃ q,
  match pending d with Some q => Ret q | None => produce SCAN_THRESHOLD (next_query d) stamp end = Ret q ∧
  (∃ stamp', produce SCAN_THRESHOLD (next_query d) stamp' = Ret q) ∧
  if is_scan (next_query d) then scan_shape q else shape q = point_shape (next_query d).
Proof.
  intros Hinv. assert (∀ s, ∃ q, produce SCAN_THRESHOLD (next_query d) s = Ret q ∧
    if is_scan (next_query d) then scan_shape q else shape q = point_shape (next_query d)) as Hp.
  { intros s. destruct (is_scan (next_query d)) eqn:E; [by apply produce_scan|by apply produce_point]. }
  destruct (pending d) as [q|] eqn:E.
  - destruct (rn_pending d Hinv q E) as [s Hs]. destruct (Hp s) as (q' & Hq & Hsh). rewrite Hs in Hq. injection Hq as <-. eauto.
  - destruct (Hp stamp) as (q & Hq & Hsh). eauto.
Qed.

(** How much is on a ring, and whether it has room. *)
Definition load (r : ring DatabaseQuery) : Z := tail_ r - head_ r.

Lemma holds_load cap r l : ring_holds cap r l → load r = Z.of_nat (length l).
Proof. intros [_ _ ? _ _ _]. unfold load. lia. Qed.

(** Whether the next query finds a place on its ring. *)
Definition has_room (d : Drive) : bool :=
  if is_scan (next_query d) then load (scan_ring d) <? SCAN_RING else load (ring_buffer d) <? RING.

Lemma produce_run stamp d : run_inv d → ∃ d', produce_move stamp d = Ret d' ∧ run_inv d' ∧
  (next_query d < TOTAL_QUERIES →
    ∃ q r s, d' = after_push (has_room d) q r s d ∧
      load r = load (ring_buffer d) + (if is_scan (next_query d) then 0 else Z.b2z (has_room d)) ∧
      load s = load (scan_ring d) + (if is_scan (next_query d) then Z.b2z (has_room d) else 0)).
Proof using Hidle0.
  intros Hinv. unfold produce_move. pose proof Hinv as [Hn Hp (done & l & Hpt) (Hsc0 & ls & Hsc) Hflag Hgone].
  destruct (Z.ltb_spec (next_query d) TOTAL_QUERIES) as [Hlt|]; [|exists d; split; [done|]; split; [done|lia]].
  destruct (in_hand d stamp Hinv) as (q & -> & Hq & Hsh). cbn [mbind outcome_bind].
  assert (∀ b r s, (∃ done l, point_side (after_push b q r s d) done l) → (∃ l, scan_side (after_push b q r s d) l) →
    run_inv (after_push b q r s d)) as Hdone.
  { intros b r s Hpts Hscs. split; [destruct b; cbn; lia| |exact Hpts|by split|intros Hr; destruct (Hflag Hr); lia|exact Hgone].
    intros q' Hq'. destruct b; [done|]. injection Hq' as <-. exact Hq. }
  pose proof (scans_total (next_query d) Hn) as Hst. destruct (is_scan (next_query d)) eqn:Ei.
  all: assert (has_room d = if is_scan (next_query d) then load (scan_ring d) <? SCAN_RING else load (ring_buffer d) <? RING)
    as Hroom by done; rewrite Ei in Hroom.
  - destruct (emplace_holds SCAN_RING scan_ring_cap (scan_ring d) ls q (sc_ring _ _ Hsc)) as (s & He & Hs & Hts).
    { rewrite (sc_tail _ _ Hsc). rewrite ten_scans in Hst. lia. }
    rewrite <- (holds_load SCAN_RING (scan_ring d) ls), <- Hroom in He, Hs, Hts by apply Hsc.
    rewrite He. cbn [mbind outcome_bind]. eexists. split; [done|]. split.
    + apply Hdone; [exists done, l; by apply point_side_skip; [|lia|]|eexists; by eapply push_scan; [lia|..]].
    + intros _. exists q, (ring_buffer d), s. split; [done|]. split; [cbn; lia|].
      rewrite (holds_load SCAN_RING s _ Hs), (holds_load SCAN_RING (scan_ring d) ls) by apply Hsc.
      destruct (has_room d); rewrite ?length_app; cbn; lia.
  - destruct (emplace_holds RING ring_cap (ring_buffer d) l q (pt_ring _ _ _ Hpt)) as (r & He & Hr & Htr).
    { rewrite (pt_tail _ _ _ Hpt), (done_bound (next_query d) done l Hn (pt_shapes _ _ _ Hpt)). unfold TOTAL_QUERIES in *. lia. }
    rewrite <- (holds_load RING (ring_buffer d) l), <- Hroom in He, Hr, Htr by apply Hpt.
    rewrite He. cbn [mbind outcome_bind]. eexists. split; [done|]. split.
    + apply Hdone; [exists done; eexists; by eapply push_point; [lia|..]|exists ls; by apply scan_side_skip; [|lia|]].
    + intros _. exists q, r, (scan_ring d). split; [done|]. split; [|cbn; lia].
      rewrite (holds_load RING r _ Hr), (holds_load RING (ring_buffer d) l) by apply Hpt.
      destruct (has_room d); rewrite ?length_app; cbn; lia.
Qed.

(** ** The consumers keep it *)

(** What a turn hands to the engine, and what it leaves alone. *)
Lemma turn_effect wal done todo t c :
  consuming wal (kv_map (kv_ ps0)) done (option_list (incoming t) ++ todo) c → idle (points c) →
  small_ids (done ++ option_list (incoming t)) → tallied done c →
  ∃ c', turn c t = Ret c' ∧ tallied (done ++ option_list (incoming t)) c' ∧
    sv_engine (cpu_ (router c')) = sv_engine (cpu_ (router c)) ∧ gpu_ (router c') = gpu_ (router c) ∧
    placement_ (router c') = placement_ (router c).
Proof.
  intros Hc Hidle Hsm Hta. destruct (gather_run _ _ _ _ _ _ Hc) as (c1 & Hg & Hrt & Htp & Hb & Hlim).
  destruct Hc as [_ _ _ _ (served0 & Hdone & _ & _) _ _ _].
  assert (points c1 = points c) as Hp by (unfold points; by rewrite Hrt).
  assert (tallied (done ++ option_list (incoming t)) c1) as Hta1.
  { intros served Hs. rewrite Hp. apply Hta. rewrite Hb, (assoc_L (++)) in Hs. by apply app_inv_tail in Hs. }
  unfold turn. rewrite Hg. cbn [mbind outcome_bind]. destruct (batch c1) as [|q b] eqn:Eb; [exists c1; by rewrite Hrt|].
  rewrite <- Eb in *. destruct (flush_due t c1); [|exists c1; by rewrite Hrt].
  assert (done ++ option_list (incoming t) = served0 ++ batch c1) as Hall by (by rewrite Hb, Hdone, <- (assoc_L (++))).
  rewrite Hall in Hsm. apply Forall_app in Hsm as [_ Hsm].
  destruct (idle_batch (batch c1) (points c1)) as (ps' & He & _); [by rewrite Hp|by rewrite Eb| |done|].
  { unfold BATCH_SIZE_LIMIT, MATRIX_BATCH_MAX in *. lia. }
  unfold flush. rewrite (route_batch_run _ _ ps' He). cbn [mbind outcome_bind]. eexists. split; [done|].
  split; [|by rewrite <- Hrt]. intros served Hs. cbn [batch] in Hs. rewrite app_nil_r, Hall in Hs. subst served.
  change (counters ps' = counted (map opcode (served0 ++ batch c1)) (counters ps0)).
  rewrite map_app, counted_app, <- (Hta served0 Hdone), <- Hp. rewrite <- Hp in Hidle.
  assert (Z.of_nat (length (batch c1)) ≤ MATRIX_BATCH_MAX) as Hmax by (unfold BATCH_SIZE_LIMIT, MATRIX_BATCH_MAX in *; lia).
  exact (execute_batch_counters _ _ _ (id_counters _ Hidle) Hmax (id_binned _ Hidle) (id_offsets _ Hidle) He).
Qed.

Lemma consume_side now start current d done l : 0 ≤ next_query d ≤ TOTAL_QUERIES → point_side d done l →
  ∃ r c', try_pop RING (ring_buffer d) = Ret (list.head l, r) ∧
    turn (consumer d) (mkTurn (list.head l) now start current) = Ret c' ∧
    point_side (with_consumer c' r d) (done ++ option_list (list.head l)) (list.tail l) ∧
    sv_engine (cpu_ (router c')) = sv_engine (cpu_ (router (consumer d))) ∧
    gpu_ (router c') = gpu_ (router (consumer d)) ∧ placement_ (router c') = placement_ (router (consumer d)).
Proof using Hidle0.
  intros Hn Hs. pose proof (side_idle d done l Hn Hs) as Hidle. destruct Hs as [Hring Htail Hc Hsh Hta].
  pose proof (shapes_small _ _ (proj2 Hn) Hsh) as Hsm.
  assert (option_list (list.head l) ++ list.tail l = l) as Hl by by destruct l.
  destruct (pop_holds RING ring_cap (ring_buffer d) l Hring) as (r & Hpop & Hring' & Ht').
  { rewrite Htail, (done_bound (next_query d)) by done. pose proof (scans_total _ Hn). unfold TOTAL_QUERIES in *. lia. }
  set (t := mkTurn (list.head l) now start current).
  assert (∀ wal, consuming wal (kv_map (kv_ ps0)) done (option_list (incoming t) ++ list.tail l) (consumer d)) as Hc'
    by (intros wal; cbn [t incoming]; rewrite Hl; apply Hc).
  destruct (turn_effect "a" done (list.tail l) t (consumer d) (Hc' "a") Hidle) as (c' & Hrun & Hta' & Hkeep); [|done|].
  { rewrite <- Hl, (assoc_L (++)) in Hsm. by apply Forall_app in Hsm as [? _]. }
  exists r, c'. split; [done|]. split; [done|]. split; [|done]. cbn [t incoming] in Hta'.
  assert ((done ++ option_list (list.head l)) ++ list.tail l = done ++ l) as Hdl by (by rewrite <- (assoc_L (++)), Hl).
  split; cbn; try done; [by rewrite Hdl, Ht'| |by rewrite Hdl].
  intros wal. destruct (turn_run wal _ done (list.tail l) t (consumer d) (Hc' wal)) as (c2 & H2 & Hc2 & _).
  rewrite Hrun in H2. by injection H2 as <-.
Qed.

Lemma total_is d done l : point_side d done l → ∃ served, done = served ++ batch (consumer d) ∧
  total_processed (consumer d) = Z.of_nat (length served).
Proof. intros Hs. pose proof (pt_consuming _ _ _ Hs "a") as [_ _ _ _ (served & ? & ? & _) _ _ _]. by exists served. Qed.

(** A move that leaves the scans and the flags alone. *)
Lemma scan_side_consumer c r d l : scan_side d l →
  sv_engine (cpu_ (router c)) = sv_engine (cpu_ (router (consumer d))) →
  gpu_ (router c) = gpu_ (router (consumer d)) → placement_ (router c) = placement_ (router (consumer d)) →
  scan_side (with_consumer c r d) l.
Proof.
  intros [Hr Ht Hsh Hco He [Hg Hh]] He' Hg' Hp'. split; cbn; try done; [by rewrite He'|].
  split; [by rewrite Hg'|]. unfold home_of in *. by rewrite Hp'.
Qed.

Lemma consumer_run now start current d : run_inv d → ∃ d', consume_move now start current d = Ret d' ∧ run_inv d' ∧
  (run_state d = true → ∃ r c', d' = with_consumer c' r d ∧ (0 < load (ring_buffer d) → load r = load (ring_buffer d) - 1) ∧
    (load (ring_buffer d) = 0 → load r = 0 ∧ turn (consumer d) (mkTurn None now start current) = Ret c')).
Proof using Hidle0.
  intros Hinv. pose proof Hinv as [Hn Hp (done & l & Hpt) (Hsc0 & ls & Hsc) Hflag [Hg1 Hg2]]. unfold consume_move.
  destruct (consumer_gone d) eqn:Eg.
  { exists d. split; [done|]. split; [done|]. intros Hr. by rewrite (Hg1 eq_refl) in Hr. }
  destruct (run_state d) eqn:Er.
  - destruct (consume_side now start current d done l Hn Hpt) as (r & c' & -> & Ht & Hpt' & He & Hg & Hpl).
    cbn [mbind outcome_bind]. rewrite Ht. cbn [mbind outcome_bind]. eexists. split; [done|]. split.
    + split; cbn; try done; [by do 2 eexists|split; [done|]; exists ls; by apply scan_side_consumer|congruence|].
      split; [congruence|]. intros H. rewrite Er. by apply Hg2.
    + intros _. exists r, c'. split; [done|].
      pose proof (holds_load RING _ _ (pt_ring _ _ _ Hpt)) as Hl. pose proof (holds_load RING _ _ (pt_ring _ _ _ Hpt')) as Hl'.
      cbn in Hl'. destruct l as [|q l]; cbn in Hl, Hl', Ht |- *; [|split; lia].
      split; [lia|]. intros _. split; [done|]. exact Ht.
  - eexists. split; [done|]. split; [|done]. split; cbn; [done|done| | |intros _; by apply Hflag|done].
    + exists done, l. by destruct Hpt.
    + split; [done|]. exists ls. by destruct Hsc.
Qed.

(** A scan of the fixed column. *)
Hypothesis Hcolumn : scan_column_ e0 = iota u32 (Z.to_nat MATRIX_SCAN_COLUMN_SIZE).

Lemma fixed_scan : matrix_cpu_reduce (scan_column_ e0) (Z.to_nat MATRIX_SCAN_COLUMN_SIZE) SCAN_THRESHOLD AGG_COUNT = Ret per_scan.
Proof using Hcolumn.
  rewrite Hcolumn. assert (0 ≤ SCAN_THRESHOLD < MATRIX_SCAN_COLUMN_SIZE) as Ht by (vm_compute; split; [discriminate|reflexivity]).
  assert (MATRIX_SCAN_COLUMN_SIZE < 2 ^ 32) as Hmax by (vm_compute; reflexivity). unfold per_scan.
  revert Ht Hmax. generalize SCAN_THRESHOLD, MATRIX_SCAN_COLUMN_SIZE. intros T N Ht Hmax.
  pose proof (reduce_threshold (iota u32 (Z.to_nat N)) T AGG_COUNT) as H. rewrite length_iota in H. rewrite H.
  f_equal. unfold agg_ref. change (select _ _ _) with (kept (iota u32 (Z.to_nat N)) (λ v, T <? v) (Z.to_nat N)).
  rewrite count_above; [|intros i Hi; apply u32_small; unfold in_u32; lia|lia].
  rewrite u64_small by (unfold in_u64; lia). lia.
Qed.

Lemma scan_one q k e : scanned k e → scan_shape q →
  ∃ e', scan_query q e = Ret (set_transaction_id per_scan q, e') ∧ scanned (k + 1) e'.
Proof using Hcolumn.
  intros (Hc & Hs & Hsum) (HT & Hid & Hop). pose proof fixed_scan as Hfix. rewrite <- Hc in Hfix.
  rewrite (scan_query_fixed q e _ _ _ HT Hid Hop Hfix). eexists. split; [done|]. split_and!; cbn; [done| |].
  - rewrite Hs, u64_add_l. f_equal. lia.
  - rewrite Hsum, u64_add_l. f_equal. unfold per_scan. lia.
Qed.

Lemma route_fixed q id k r : routed id r → scanned k (sv_engine (cpu_ r)) → scan_shape q →
  ∃ x e', route_scan q id r =
      Ret (x, mkRouter (mkServer e' (sv_points (cpu_ r))) (gpu_ r) (cm_ r) (placement_ r)) ∧ scanned (k + 1) e'.
Proof using Hcolumn.
  intros [Hg Hh] He Hq. destruct (scan_one q k _ He Hq) as (e' & Hs & He'). exists (set_transaction_id per_scan q), e'.
  split; [|done]. unfold route_scan. rewrite Hh. cbn [mbind outcome_bind]. unfold Tiering.dispatch, goes_to_gpu.
  rewrite bool_decide_false by done. cbn [andb]. unfold on_cpu. cbn [ci_execute_scan cpu_engine]. unfold on_engine.
  by rewrite Hs.
Qed.

Lemma point_side_router d r done l : point_side d done l → sv_points (cpu_ r) = points (consumer d) →
  ∀ s n f, point_side (mkDrive (next_query d) (pending d) (ring_buffer d) s (with_router r (consumer d)) (scan_col_id d) n
    (run_state d) (consumer_gone d) f) done l.
Proof.
  intros [Hr Ht Hc Hsh Hta] Hp s n f. assert (points (with_router r (consumer d)) = points (consumer d)) as Hpp by exact Hp.
  split; [exact Hr|exact Ht| |exact Hsh|].
  - intros wal. destruct (Hc wal) as [H1 H2 H3 H4 H5 H6 H7 H8]. rewrite <- Hpp in H1, H2, H3, H5. by split.
  - intros served Hs. cbn [consumer]. rewrite Hpp. by apply Hta.
Qed.

Lemma scan_run d : run_inv d → ∃ d', scan_move d = Ret d' ∧ run_inv d' ∧
  (scan_consumer_gone d = false →
    next_query d' = next_query d ∧ load (ring_buffer d') = load (ring_buffer d) ∧ batch (consumer d') = batch (consumer d) ∧
    run_state d' = run_state d ∧ consumer_gone d' = consumer_gone d ∧
    if 0 <? load (scan_ring d) then load (scan_ring d') = load (scan_ring d) - 1 ∧ scan_consumer_gone d' = false
    else load (scan_ring d') = load (scan_ring d) ∧ scan_consumer_gone d' = negb (run_state d)).
Proof using Hcolumn.
  intros Hinv. pose proof Hinv as [Hn Hp (done & l & Hpt) (Hsc0 & ls & Hsc) Hflag [Hg1 Hg2]]. unfold scan_move.
  destruct (scan_consumer_gone d) eqn:Eg; [exists d; split; [reflexivity|]; split; [exact Hinv|discriminate]|].
  pose proof Hsc as [Hring Htail Hsh Hcount He Hro]. pose proof (scans_total _ Hn) as Hst. rewrite ten_scans in Hst.
  destruct (pop_holds SCAN_RING scan_ring_cap (scan_ring d) ls Hring) as (s & -> & Hs & Hts); [lia|].
  cbn [mbind outcome_bind]. pose proof (holds_load _ _ _ Hring) as Hl. pose proof (holds_load _ _ _ Hs) as Hl'. rewrite Hl.
  destruct ls as [|q ls]; cbn [list.head list.tail length Z.of_nat] in *.
  - eexists. split; [reflexivity|].
    split; [|intros _; cbn; do 5 (split; [reflexivity|]); split; [exact Hl'|reflexivity]].
    split; cbn; [exact Hn|exact Hp|exists done, l; by destruct Hpt| |exact Hflag|split; [exact Hg1|by destruct (run_state d)]].
    split; [exact Hsc0|]. exists []. split; cbn; [exact Hs|by rewrite Hts|apply Forall_nil_2|exact Hcount|exact He|exact Hro].
  - apply Forall_cons in Hsh as [Hq Hsh]. destruct (route_fixed q _ _ _ Hro He Hq) as (x & e' & -> & He').
    cbn [mbind outcome_bind]. assert (u64 (scans_processed d + 1) = scans_processed d + 1) as Hu by (apply u64_small; unfold in_u64; lia).
    eexists. split; [done|]. rewrite Hu. split.
    + split; cbn [next_query pending scans_processed run_state consumer_gone scan_consumer_gone].
      * done.
      * done.
      * exists done, l. by apply point_side_router.
      * split; [lia|]. exists ls. destruct Hro as [Hro1 Hro2]. split; cbn; [exact Hs|by rewrite Hts|exact Hsh|lia|exact He'|by split].
      * intros Hr. destruct (Hflag Hr) as [Hnext Hdr]. split; [done|]. unfold drained in *. cbn.
        apply negb_true_iff, orb_false_iff in Hdr as [Hd1 Hd2%Z.ltb_ge]. apply negb_true_iff, orb_false_iff. split; [done|].
        apply Z.ltb_ge. lia.
      * by split.
    + intros _. cbn. rewrite (proj2 (Z.ltb_lt _ _)) by lia. do 5 (split; [reflexivity|]). split; [lia|reflexivity].
Qed.

(** ** The end comes nearer *)

Lemma supervise_inv d : run_inv d → run_inv (supervise_move d).
Proof.
  intros Hinv. unfold supervise_move. destruct (_ && _) eqn:E; [|done].
  apply andb_true_iff in E as [E1%Z.eqb_eq E2]. destruct Hinv as [Hn Hp (done & l & Hpt) (Hsc0 & ls & Hsc) Hflag [Hg1 Hg2]].
  split; cbn; [exact Hn|exact Hp|exists done, l; by destruct Hpt|split; [exact Hsc0|]; exists ls; by destruct Hsc|by split|by split].
Qed.

(** Every move succeeds and keeps the invariant. *)
Lemma move_run m d : run_inv d → ∃ d', move d m = Ret d' ∧ run_inv d'.
Proof using Hidle0 Hcolumn.
  intros Hinv. destruct m as [stamp|now start current| |]; cbn [move].
  - destruct (produce_run stamp d Hinv) as (d' & ? & ? & _). by exists d'.
  - destruct (consumer_run now start current d Hinv) as (d' & ? & ? & _). by exists d'.
  - destruct (scan_run d Hinv) as (d' & ? & ? & _). by exists d'.
  - eexists. split; [done|]. by apply supervise_inv.
Qed.

Definition filled (c : Consumer) : bool := match batch c with [] => false | _ => true end.

(** Queries to deal, queries on the rings and in the buffer, threads at work. *)
Definition weight (d : Drive) : Z :=
  4 * (TOTAL_QUERIES - next_query d) + 2 * load (ring_buffer d) + load (scan_ring d) + Z.b2z (filled (consumer d)) +
  Z.b2z (run_state d) + Z.b2z (negb (consumer_gone d)) + Z.b2z (negb (scan_consumer_gone d)).

Lemma b2z_range b : 0 ≤ Z.b2z b ≤ 1.
Proof. destruct b; cbn; lia. Qed.

Lemma loads d : run_inv d → 0 ≤ load (ring_buffer d) ∧ 0 ≤ load (scan_ring d).
Proof.
  intros [_ _ (done & l & Hpt) (_ & ls & Hsc) _ _].
  rewrite (holds_load _ _ _ (pt_ring _ _ _ Hpt)), (holds_load _ _ _ (sc_ring _ _ Hsc)). lia.
Qed.

Lemma weight_pos d : run_inv d → 0 ≤ weight d.
Proof.
  intros Hinv. pose proof (loads d Hinv). pose proof (rn_next d Hinv). unfold weight.
  pose proof (b2z_range (filled (consumer d))). pose proof (b2z_range (run_state d)).
  pose proof (b2z_range (negb (consumer_gone d))). pose proof (b2z_range (negb (scan_consumer_gone d))). lia.
Qed.

Definition nearer (d : Drive) : Prop := ∃ m d', move d m = Ret d' ∧ run_inv d' ∧ weight d' < weight d.

Lemma nearer_produce d : run_inv d → next_query d < TOTAL_QUERIES → has_room d = true → nearer d.
Proof using Hidle0.
  intros Hinv Hn Hroom. destruct (produce_run 0 d Hinv) as (d' & Hm & Hi & Hd). exists (Produce 0), d'.
  split; [done|]. split; [done|]. destruct (Hd Hn) as (q & r & s & -> & Hr & Hs). rewrite Hroom in Hr, Hs |- *.
  unfold weight. cbn [after_push next_query ring_buffer scan_ring consumer run_state consumer_gone scan_consumer_gone].
  destruct (is_scan (next_query d)); cbn [Z.b2z] in Hr, Hs; lia.
Qed.

Lemma consumer_works d : run_inv d → run_state d = true → consumer_gone d = false ∧ scan_consumer_gone d = false.
Proof.
  intros [_ _ _ _ _ [H1 H2]] Hr. rewrite Hr in H1, H2. split; apply not_true_is_false; intros Hg;
    [discriminate (H1 Hg)|discriminate (H2 Hg)].
Qed.

Lemma nearer_consume d : run_inv d → run_state d = true → 0 < load (ring_buffer d) ∨ filled (consumer d) = true → nearer d.
Proof using Hidle0.
  intros Hinv Hr Hwork. pose proof (loads d Hinv) as [Hl _].
  set (late := batch_start_time (consumer d) + TEMPORAL_LIMIT_US * 1000).
  destruct (consumer_run 0 0 late d Hinv) as (d' & Hm & Hi & Hd). exists (Consume 0 0 late), d'.
  split; [done|]. split; [done|]. destruct (Hd Hr) as (r & c' & -> & Hpos & Hzero). unfold weight, with_consumer. cbn.
  pose proof (b2z_range (filled c')). pose proof (b2z_range (filled (consumer d))).
  destruct (decide (0 < load (ring_buffer d))) as [Hp|]; [specialize (Hpos Hp); lia|].
  destruct Hwork as [|Hf]; [lia|]. destruct Hzero as [Hlr Ht]; [lia|].
  assert (batch c' = []) as Hnil by (eapply late_flush; [|exact Ht|]; [done|unfold late; cbn; lia]).
  unfold filled at 1. rewrite Hnil, Hf. cbn. lia.
Qed.

Lemma nearer_scan d : run_inv d → scan_consumer_gone d = false → 0 < load (scan_ring d) ∨ run_state d = false → nearer d.
Proof using Hcolumn.
  intros Hinv Hg Hwork. destruct (scan_run d Hinv) as (d' & Hm & Hi & Hd). exists Scan, d'. split; [done|]. split; [done|].
  destruct (Hd Hg) as (Hn & Hl & Hb & Hr & Hc & Hs). unfold weight, filled. rewrite Hn, Hl, Hb, Hr, Hc, Hg.
  destruct (Z.ltb_spec 0 (load (scan_ring d))).
  - destruct Hs as [-> ->]. lia.
  - destruct Hwork as [|Hrs]; [lia|]. destruct Hs as [-> ->]. rewrite Hrs. cbn. lia.
Qed.

(** With the rings and the buffer empty, everything dealt has been counted. *)
Lemma all_counted d : run_inv d → next_query d = TOTAL_QUERIES → load (ring_buffer d) = 0 → filled (consumer d) = false →
  load (scan_ring d) = 0 → drained d = true.
Proof.
  intros [Hn _ (done & l & Hpt) (_ & ls & Hsc) _ _] Ht Hl Hf Hls.
  rewrite (holds_load _ _ _ (pt_ring _ _ _ Hpt)) in Hl. rewrite (holds_load _ _ _ (sc_ring _ _ Hsc)) in Hls.
  destruct (total_is d done l Hpt) as (served & Hs & Htot).
  assert (batch (consumer d) = []) as Hb by (unfold filled in Hf; by destruct (batch (consumer d))).
  pose proof (done_bound _ done l Hn (pt_shapes _ _ _ Hpt)) as Hlen. rewrite Hs, Hb, !app_nil_r, Ht, length_app in Hlen.
  pose proof (sc_count _ _ Hsc) as Hc. rewrite Ht in Hc. rewrite all_scans in Hc, Hlen.
  unfold drained, expected_pointops. apply negb_true_iff, orb_false_iff. split; apply Z.ltb_ge; lia.
Qed.

Lemma step_nearer d : run_inv d → joined d = false → nearer d.
Proof using Hidle0 Hcolumn.
  intros Hinv Hj. pose proof (loads d Hinv) as [Hl1 Hl2]. destruct (run_state d) eqn:Er.
  - destruct (consumer_works d Hinv Er) as [Hg1 Hg2].
    destruct (decide (0 < load (ring_buffer d))); [by apply nearer_consume; [..|left]|].
    destruct (decide (0 < load (scan_ring d))); [by apply nearer_scan; [..|left]|].
    destruct (decide (next_query d < TOTAL_QUERIES)) as [Hn|].
    { apply nearer_produce; [done..|]. unfold has_room, RING, SCAN_RING. destruct (is_scan _); apply Z.ltb_lt; lia. }
    destruct (filled (consumer d)) eqn:Ef; [by apply nearer_consume; [..|right]|].
    exists Supervise, (supervise_move d). split; [done|]. split; [by apply supervise_inv|].
    pose proof (rn_next d Hinv). assert (next_query d = TOTAL_QUERIES) as Hn by lia. unfold supervise_move.
    assert (drained d = true) as Hd by (apply all_counted; [exact Hinv|exact Hn|lia|exact Ef|lia]).
    rewrite (proj2 (Z.eqb_eq _ _) Hn), Hd. cbn [andb]. unfold weight.
    cbn [next_query ring_buffer scan_ring consumer run_state consumer_gone scan_consumer_gone]. rewrite Er. cbn [Z.b2z]. lia.
  - destruct (scan_consumer_gone d) eqn:Eg; [|by apply nearer_scan; [..|right]].
    assert (consumer_gone d = false) as Ec by (unfold joined in Hj; rewrite Eg, andb_true_r in Hj; done).
    destruct (consumer_run 0 0 0 d Hinv) as (d' & Hm & Hi & _). exists (Consume 0 0 0), d'. split; [done|]. split; [done|].
    cbn [move] in Hm. unfold consume_move in Hm. rewrite Ec, Er in Hm. injection Hm as <-. unfold weight. cbn. rewrite Er, Ec. cbn. lia.
Qed.

Lemma drive_run ms : ∀ d, run_inv d → ∃ d', drive ms d = Ret d' ∧ run_inv d'.
Proof using Hidle0 Hcolumn.
  induction ms as [|m ms IH]; intros d Hd; [by exists d|].
  destruct (move_run m d Hd) as (d1 & Hm & Hd1). unfold drive. cbn. rewrite Hm. by apply IH.
Qed.

Lemma can_finish d : run_inv d → ∃ ms d', drive ms d = Ret d' ∧ joined d' = true.
Proof using Hidle0 Hcolumn.
  intros Hinv. remember (Z.to_nat (weight d)) as n eqn:En. revert d Hinv En.
  induction n as [n IH] using lt_wf_ind. intros d Hinv ->. destruct (joined d) eqn:Ej; [by exists [], d|].
  destruct (step_nearer d Hinv Ej) as (m & d1 & Hm & Hd1 & Hw). pose proof (weight_pos d1 Hd1).
  destruct (IH (Z.to_nat (weight d1)) ltac:(lia) d1 Hd1 eq_refl) as (ms & d' & Hms & Hj').
  exists (m :: ms), d'. split; [|done]. unfold drive. cbn. by rewrite Hm.
Qed.

(** ** The totals *)

Lemma start_inv id r : sv_engine (cpu_ r) = e0 → sv_points (cpu_ r) = ps0 → routed id r → in_u64 (scans_ e0) →
  in_u64 (scan_result_sum_ e0) → run_inv (start_run id r).
Proof using Hidle0.
  intros He Hps Hr Hs1 Hs2. assert (points (fresh_consumer r) = ps0) as Hp by exact Hps. destruct nothing_dealt as [Hn1 Hn2].
  split; [done|done| | |done|done].
  - exists [], []. split; [apply init_holds, ring_cap|done| |by cbn; rewrite Hn1|].
    + change (consumer (start_run id r)) with (fresh_consumer r). intros wal. split.
      * rewrite Hp. apply idle_ready, Hidle0.
      * rewrite Hp. exact (id_binned _ Hidle0).
      * rewrite Hp. exact (id_offsets _ Hidle0).
      * apply Nat.lt_0_succ.
      * exists []. rewrite Hp. split; [reflexivity|]. split; reflexivity.
      * apply (small_fits ps0 [] Hidle0), Forall_nil_2.
      * apply Forall_nil_2.
      * reflexivity.
    + change (consumer (start_run id r)) with (fresh_consumer r).
      intros served Hn. symmetry in Hn. apply app_nil in Hn as [-> _]. rewrite Hp. symmetry. apply counted_nil, Hidle0.
  - split; [done|]. exists []. split; [apply init_holds, scan_ring_cap|by cbn; rewrite Hn2|by apply Forall_nil|by cbn; rewrite Hn2| |done].
    cbn [start_run consumer fresh_consumer router scans_processed]. rewrite He. unfold scanned.
    by rewrite Z.mul_0_l, !Z.add_0_r, !u64_small.
Qed.

(** At the end every query dealt has been served. *)
Record finished_run (d : Drive) (done : list DatabaseQuery) : Prop := {
  fr_shapes : map shape done = points_below TOTAL_QUERIES;
  fr_total : total_processed (consumer d) = expected_pointops;
  fr_scans : scans_processed d = expected_scans;
  fr_counters : counters (points (consumer d)) = counted (map opcode done) (counters ps0);
  fr_map : kv_map (kv_ (points (consumer d))) = (exec_queries (kv_map (kv_ ps0)) done).1;
  fr_engine : scanned expected_scans (sv_engine (cpu_ (router (consumer d))))
}.

Lemma drained_bounds d : drained d = true → expected_pointops ≤ total_processed (consumer d) ∧ expected_scans ≤ scans_processed d.
Proof. unfold drained. intros [H1%Z.ltb_ge H2%Z.ltb_ge]%negb_true_iff%orb_false_iff. lia. Qed.

Lemma joined_finished d : run_inv d → joined d = true → ∃ done, finished_run d done.
Proof.
  intros [Hn _ (done & l & Hpt) (_ & ls & Hsc) Hflag [Hg _]] [Hj _]%andb_true_iff.
  destruct (Hflag (Hg Hj)) as [Ht [Hd1 Hd2]%drained_bounds].
  pose proof (pt_consuming _ _ _ Hpt "a") as [_ _ _ _ (served & Hs & Htot & Hmap) _ _ _].
  pose proof (done_bound _ done l Hn (pt_shapes _ _ _ Hpt)) as Hlen. rewrite Ht, all_scans in Hlen.
  pose proof (sc_count _ _ Hsc) as Hc. rewrite Ht, all_scans in Hc. unfold expected_pointops in Hd1.
  assert (scans_processed d = expected_scans) as Hsc' by lia.
  assert (done = served ∧ l = []) as [-> ->].
  { rewrite Hs, !length_app in Hlen. rewrite Htot in Hd1. destruct (batch (consumer d)), l; cbn in Hlen; try lia.
    split; [rewrite Hs; apply app_nil_r|reflexivity]. }
  pose proof (pt_shapes _ _ _ Hpt) as Hsh. rewrite app_nil_r, Ht in Hsh. exists served. split; [exact Hsh| |exact Hsc'| |exact Hmap|].
  - rewrite Htot. unfold expected_pointops. rewrite app_nil_r in Hlen. lia.
  - exact (pt_tally _ _ _ Hpt served Hs).
  - rewrite <- Hsc'. apply Hsc.
Qed.

End run.

(** ** The theorem *)

(** The point writes of the run: odd numbers, which no scan is. *)
Definition dealt_write (k : Z) : bool := (0 <=? k) && (k <? TOTAL_QUERIES) && negb (k `mod` 2 =? 0).

Definition run_totals : Totals := mkTotals 4990 5000 5000 10 (10 * per_scan).

Lemma run_counts : count_of_op OP_READ (map snd (points_below TOTAL_QUERIES)) = 4990 ∧
  count_of_op OP_WRITE (map snd (points_below TOTAL_QUERIES)) = 5000.
Proof. vm_compute. split; reflexivity. Qed.

Lemma u64_since a n : u64 (u64 (a + n) - a) = u64 n.
Proof. unfold u64. rewrite Zminus_mod_idemp_l. f_equal. lia. Qed.

Lemma expected_sum : u64 (10 * per_scan) = 10 * per_scan ∧ expected_scan_sum = 10 * per_scan.
Proof. split; [vm_compute; reflexivity|]. unfold expected_scan_sum. rewrite ten_scans. vm_compute. reflexivity. Qed.

Lemma finished_report e0 ps0 r d done : sv_engine (cpu_ r) = e0 → sv_points (cpu_ r) = ps0 →
  finished_run e0 ps0 d done → report (snapshot r) d = Ret run_totals.
Proof.
  intros He Hps [Hsh Htot Hsc Hct _ (_ & Hs & Hsum)]. unfold report. rewrite Htot, Hsc.
  assert (map opcode done = map snd (points_below TOTAL_QUERIES)) as Hop by (rewrite <- Hsh, map_map; reflexivity).
  destruct run_counts as [Hr Hw]. rewrite Hop in Hct. unfold counters, counted in Hct. rewrite Hr, Hw in Hct. injection Hct as Hc1 Hc2 Hc3.
  rewrite ten_scans in Hs, Hsum. destruct expected_sum as [Hu Hes].
  assert (since (snapshot r) (snapshot (router (consumer d))) = run_totals) as ->.
  { unfold since, snapshot, run_totals. rewrite He, Hps. cbn [tt_reads tt_writes tt_applied tt_scans tt_scan_sum].
    unfold points in Hc1, Hc2, Hc3. rewrite Hc1, Hc2, Hc3, Hs, Hsum, !u64_since, Hu. reflexivity. }
  rewrite Hes. unfold expected_pointops. rewrite ten_scans. unfold run_totals. cbn [tt_reads tt_writes tt_applied tt_scans tt_scan_sum].
  rewrite Z.eqb_refl. reflexivity.
Qed.

Lemma dealt_write_spec done k : map shape done = points_below TOTAL_QUERIES →
  dealt_write k = true ↔ ∃ q, q ∈ done ∧ opcode q = OP_WRITE ∧ query_id q = k.
Proof.
  intros Hsh. assert ((∃ q, q ∈ done ∧ opcode q = OP_WRITE ∧ query_id q = k) ↔ (k, OP_WRITE) ∈ points_below TOTAL_QUERIES) as ->.
  { rewrite <- Hsh. split.
    - intros (q & Hq & Hw & Hk). apply list_elem_of_fmap. exists q. split; [|exact Hq]. unfold shape. rewrite Hw, Hk. reflexivity.
    - intros (q & Hq & Hin)%list_elem_of_fmap. injection Hq as Hk Hw. eauto. }
  rewrite elem_of_points. unfold dealt_write. rewrite !andb_true_iff, Z.leb_le, Z.ltb_lt, negb_true_iff. split.
  - intros [[H0 Hlt] Hodd]. exists k. unfold point_shape, point_op. rewrite Hodd. split; [reflexivity|]. split; [lia|].
    unfold is_scan, SCAN_EVERY. apply Z.eqb_neq. apply Z.eqb_neq in Hodd. intros Hk. apply Hodd.
    apply Z.mod_divide in Hk as [m ->]; [|discriminate]. replace (m * 1000) with (m * 500 * 2) by lia. apply Z.mod_mul. discriminate.
  - intros (i & Hi & Hin & _). unfold point_shape, point_op in Hi. destruct (i `mod` 2 =? 0) eqn:Eodd; [discriminate Hi|]. injection Hi as ->.
    split; [lia|exact Eodd].
Qed.

Section theorem.
Context `{!HashOrder Z}.

(** C16: The driver does what its checks say, whatever the interleaving of its four
    threads and whatever their clocks read: the benchmarks before the run pass
    their checks; no move of the run fails; from every point the threads can be
    brought to their end; and once they are joined every check of the totals
    passes, every query dealt has been served once, and the store maps every
    odd number below 10000 to itself and is otherwise as it was. *)
Theorem driver_run_exact e ps ms :
  idle ps → scan_column_ e = iota u32 (Z.to_nat MATRIX_SCAN_COLUMN_SIZE) → in_u64 (scans_ e) → in_u64 (scan_result_sum_ e) →
  ∃ id r d, boot (mkRouter (mkServer e ps) None (mkCostModel (detect false) false) []) = Ret (id, r) ∧
    drive ms (start_run id r) = Ret d ∧
    (∃ ms' d', drive ms' d = Ret d' ∧ joined d' = true) ∧
    (joined d = true → report (snapshot r) d = Ret run_totals ∧
      ∀ k, kv_map (kv_ (points (consumer d))) !! k =
        if dealt_write k then Some k else kv_map (kv_ (sv_points (cpu_ r))) !! k).
Proof.
  intros Hi Hcol Hs Hsum. destruct (boot_runs e ps Hi) as (id & s & Hb & [He Hi'] & ->).
  set (r := mkRouter s None (mkCostModel (detect false) false) [HOST; HOST; HOST] : CpuRouter) in *.
  assert (run_inv e (sv_points s) (start_run 0 r)) as Hinv
    by (apply start_inv; [exact Hi'|exact He|reflexivity|split; reflexivity|exact Hs|exact Hsum]).
  destruct (drive_run e (sv_points s) Hi' Hcol ms _ Hinv) as (d & Hd & Hdinv).
  exists 0, r, d. split; [exact Hb|]. split; [exact Hd|].
  split; [exact (can_finish e (sv_points s) Hi' Hcol d Hdinv)|]. intros Hj.
  destruct (joined_finished e (sv_points s) d Hdinv Hj) as [done Hf].
  split; [exact (finished_report e (sv_points s) r d done He eq_refl Hf)|]. intros k. rewrite (fr_map _ _ _ _ Hf).
  pose proof (dealt_write_spec done k (fr_shapes _ _ _ _ Hf)) as Hk.
  destruct (exec_queries_lookup done k (kv_map (kv_ (sv_points s)))) as [Hw Ho]. destruct (dealt_write k).
  - exact (Hw (proj1 Hk eq_refl)).
  - apply Ho. intros q Hq Hop Hid. discriminate (proj2 Hk (ex_intro _ q (conj Hq (conj Hop Hid)))).
Qed.
End theorem.

(** ** Witness *)

Definition no_disk : filesys := mkFS ∅ 100 ∅.

Lemma fresh_idle : idle (fresh_ps no_disk fresh_kv None EmptyString ∅).
Proof.
  destruct fresh_kv_ok as [Hkv Hm]. split; cbn [fresh_ps kv_ key_index_ cold_store_ binned_ offsets_]; rewrite ?Hm.
  - split; cbn [fresh_ps kv_ key_index_]; rewrite ?Hm; [exact Hkv|reflexivity|apply map_Forall_empty].
  - reflexivity.
  - rewrite length_replicate. reflexivity.
  - apply length_replicate.
  - assert (in_u64 0) as H0 by (split; [discriminate|reflexivity]). exact (conj H0 (conj H0 H0)).
  - intros k Hk. rewrite dom_empty_L in Hk. destruct (not_elem_of_empty (C := gset Z) k Hk).
Qed.

Lemma driver_run_exact_witness :
  let e := new_engine 1000 (iota u32 (Z.to_nat MATRIX_SCAN_COLUMN_SIZE)) no_disk 8 1 in
  ∃ id r d, drive (HashOrder0 := elements_order) [Produce 5; Scan; Produce 7; Consume 9 9 9; Supervise] (start_run id r) = Ret d ∧
    ∃ ms' d', drive (HashOrder0 := elements_order) ms' d = Ret d' ∧ joined d' = true.
Proof.
  intros e. destruct (fresh_engine_scans 1000 (iota u32 (Z.to_nat MATRIX_SCAN_COLUMN_SIZE)) no_disk 8 1) as (Hc & Hs & Hsum).
  destruct (driver_run_exact (HashOrder0 := elements_order) e (fresh_ps no_disk fresh_kv None EmptyString ∅)
    [Produce 5; Scan; Produce 7; Consume 9 9 9; Supervise]) as (id & r & d & _ & Hd & (ms' & d' & Hms & Hj) & _).
  - exact fresh_idle.
  - exact Hc.
  - unfold e. rewrite Hs. split; [discriminate|reflexivity].
  - unfold e. rewrite Hsum. split; [discriminate|reflexivity].
  - exists id, r, d. split; [exact Hd|]. exists ms', d'. split; [exact Hms|exact Hj].
Defined.
