(* ===== verification/Handoff.v ===== *)
(** * Handoff: [measure_handoff_latency] of [main.cpp]

    A producer and a consumer play ping-pong over a ring: the producer pushes one
    query and waits until the ring is empty again, the consumer pops it and keeps
    the time it took.  Then the samples are sorted and four percentiles printed.
    As in Driver, a move is one turn of one thread with the clock readings it
    takes, and a call of the ring is one access. *)

From stdpp Require Import sorting.
From S2P Require Export RingBuffer Float64 Driver.


(** ** The percentiles *)

Definition F64_P50 : Z := 0x3FE0000000000000.
Definition F64_P99 : Z := 0x3FEFAE147AE147AE.
Definition F64_P999 : Z := 0x3FEFF7CED916872B.

(** [pct], on the sorted samples: [p * (size - 1)] is computed in doubles and
    truncated to an index. *)
Definition pct (sorted : list Z) (p : Z) : outcome Z :=
  match f64_trunc (f64_mul p (f64_of_Z (u64 (Z.of_nat (length sorted) - 1)))) with
  | Some i => rd sorted (Z.to_nat i)
  | None => Crash Undefined
  end.

Definition back (l : list Z) : outcome Z := match last l with Some x => Ret x | None => Crash Undefined end.

(** What both reports of [main.cpp] print. *)
Definition percentiles (samples : list Z) : outcome (Z * Z * Z * Z) :=
  let sorted := merge_sort Z.le samples in
  p50 ← pct sorted F64_P50;
  p99 ← pct sorted F64_P99;
  p999 ← pct sorted F64_P999;
  max ← back sorted;
  Ret (p50, p99, p999, max).

(** The queue residency of the pipeline run is printed if anything was measured. *)
Definition queue_residency (latencies_ns : list Z) : outcome (option (Z * Z * Z * Z)) :=
  match latencies_ns with
  | [] => Ret None
  | _ => r ← percentiles latencies_ns; Ret (Some r)
  end.

(** ** The two threads *)










(** ** Lemmas: percentiles *)

Definition pct_index (n : nat) (p : Z) : Z :=
  match f64_trunc (f64_mul p (f64_of_Z (u64 (Z.of_nat n - 1)))) with Some i => i | None => -1 end.

(** The indices of [n] samples are in range and in order. *)
Definition indices_ok (n : nat) : bool :=
  (0 <=? pct_index n F64_P50) && (pct_index n F64_P50 <=? pct_index n F64_P99) &&
  (pct_index n F64_P99 <=? pct_index n F64_P999) && (pct_index n F64_P999 <? Z.of_nat n).

Lemma pct_at sorted p : 0 <= pct_index (length sorted) p < Z.of_nat (length sorted) →
  ∃ x, pct sorted p = Ret x ∧ sorted !! Z.to_nat (pct_index (length sorted) p) = Some x.
Proof.
  unfold pct, pct_index. destruct (f64_trunc _) as [i|]; [|lia]. intros H.
  destruct (lookup_lt_is_Some_2 sorted (Z.to_nat i)) as [x Hx]; [lia|]. exists x. split; [by apply rd_lookup|done].
Qed.

Lemma sorted_lookup (l : list Z) i j x y : StronglySorted Z.le l → l !! i = Some x → l !! j = Some y → (i ≤ j)%nat → x <= y.
Proof.
  intros Hs Hi Hj Hij. destruct (decide (i = j)) as [->|Hne]; [rewrite Hi in Hj; injection Hj as ->; lia|].
  apply (StronglySorted_app_1_elem_of Z.le (take j l) (drop j l) x y).
  - by rewrite take_drop.
  - apply list_elem_of_lookup. exists i. by rewrite lookup_take_lt by lia.
  - apply list_elem_of_lookup. exists 0%nat. by rewrite lookup_drop, Nat.add_0_r.
Qed.

Lemma percentiles_run samples : indices_ok (length samples) = true →
  ∃ p50 p99 p999 max, percentiles samples = Ret (p50, p99, p999, max) ∧
    p50 <= p99 <= p999 ∧ p999 <= max ∧ max ∈ samples ∧ p50 ∈ samples ∧ ∀ x, x ∈ samples → x <= max.
Proof.
  unfold indices_ok. rewrite !andb_true_iff, !Z.leb_le, Z.ltb_lt. intros [[[H1 H2] H3] H4].
  set (sorted := merge_sort Z.le samples). pose proof (merge_sort_Permutation Z.le samples) as Hperm.
  assert (StronglySorted Z.le sorted) as Hs by (apply StronglySorted_merge_sort; apply _).
  fold sorted in Hperm. assert (length sorted = length samples) as Hl by by apply Permutation_length.
  rewrite <- Hl in H1, H2, H3, H4.
  destruct (pct_at sorted F64_P50) as (a & Ha & La); [lia|]. destruct (pct_at sorted F64_P99) as (b & Hb & Lb); [lia|].
  destruct (pct_at sorted F64_P999) as (c & Hc & Lc); [lia|].
  destruct (last sorted) as [d|] eqn:Hd; [|apply last_None, (f_equal length) in Hd; cbn [length] in Hd; lia].
  exists a, b, c, d. unfold percentiles. fold sorted. rewrite Ha, Hb, Hc. unfold back. rewrite Hd. cbn. split; [done|].
  rewrite last_lookup in Hd. assert (∀ i x, sorted !! i = Some x → x <= d) as Hmax.
  { intros i x Hi. eapply sorted_lookup; [exact Hs|exact Hi|exact Hd|]. apply lookup_lt_Some in Hi. lia. }
  split; [split; [apply (sorted_lookup _ _ _ _ _ Hs La Lb)|apply (sorted_lookup _ _ _ _ _ Hs Lb Lc)]; lia|].
  split; [by eapply Hmax|].
  assert (∀ i x, sorted !! i = Some x → x ∈ samples) as Hin by (intros i x Hi; rewrite <- Hperm; by eapply list_elem_of_lookup_2).
  split; [by eapply Hin|]. split; [by eapply Hin|]. intros x Hx. rewrite <- Hperm in Hx.
  apply list_elem_of_lookup in Hx as [i Hi]. by eapply Hmax.
Qed.

(** ** Lemmas: a run *)
















Lemma residency_indices n : Z.of_nat n = expected_pointops → indices_ok n = true.
Proof. intros H. unfold indices_ok, pct_index. rewrite H. vm_compute. reflexivity. Qed.

(** ** Theorems *)


(** The queue residency of a finished pipeline run is defined. *)
Theorem residency_reported latencies : Z.of_nat (length latencies) = expected_pointops →
  ∃ p50 p99 p999 max, queue_residency latencies = Ret (Some (p50, p99, p999, max)) ∧ p50 <= p99 <= p999 ∧ p999 <= max.
Proof.
  intros H. destruct (percentiles_run latencies (residency_indices _ H)) as (a & b & c & d & E & H1 & H2 & _).
  exists a, b, c, d. split; [|exact (conj H1 H2)]. unfold queue_residency. rewrite E. destruct latencies; [|exact eq_refl].
  exfalso. revert H. vm_compute. discriminate.
Qed.
