(* ===== verification/AnalyticsDemo.v ===== *)
(** * AnalyticsDemo: [analytical_query_demo] of [main.cpp]

    The demonstration the driver ends with: three columns in memory for two, a
    grouped query, a workload that makes two of the columns hot, and a query of
    the third.  It checks itself: against oracles computed from the vectors, and
    where the columns went.  The number of rows is a parameter. *)

From S2P Require Export EngineCorrect.

Section demo.
Context `{!HashOrder Z}.

Definition DEMO_ROWS : nat := Z.to_nat (Z.shiftl 1 20).
Definition DEMO_GROUPS : Z := 4.
Definition DEMO_THRESHOLD : Z := 500.

(** The vectors. *)
Definition demo_keys (n : nat) : list Z := map (λ i, u32 (i mod DEMO_GROUPS)) (seqZ 0 (Z.of_nat n)).
Definition demo_values (n : nat) : list Z := map (λ i, u32 (i mod 1000)) (seqZ 0 (Z.of_nat n)).

(** The oracles: the scan of the vectors, row by row. *)
Definition oracle_row (row : Z * Z) (acc : list Z * Z) : list Z * Z :=
  let '(key, v) := row in
  let '(groups, sum) := acc in
  (if DEMO_THRESHOLD <? v then alter (λ g, u64 (g + v)) (Z.to_nat key) groups else groups, u64 (sum + v)).

Definition demo_oracle (n : nat) : list Z * Z :=
  foldl (λ acc row, oracle_row row acc) (replicate (Z.to_nat DEMO_GROUPS) 0, 0) (combine (demo_keys n) (demo_values n)).

Definition count_of (col : Z) : MatrixQuery :=
  mkMQ col AGG_COUNT false 0 GT 0 0 0 F64_ZERO F64_ZERO false 0 0 0 0.

Definition sum_of (col : Z) : MatrixQuery :=
  mkMQ col AGG_SUM false 0 GT 0 0 0 F64_ZERO F64_ZERO false 0 0 0 0.

Definition demo_grouped : MatrixQuery :=
  mkMQ 2 AGG_SUM true DEMO_THRESHOLD GT 0 0 0 F64_ZERO F64_ZERO true 1 DEMO_GROUPS 0 0.

Definition demo_load (n : nat) (e : Engine) : outcome Engine :=
  e ← load_scan_column 1 (demo_keys n) e;
  e ← load_scan_column 2 (demo_values n) e;
  load_scan_column 3 (demo_values n) e.

(** The hot workload; the answers are not looked at. *)
Definition demo_heat (ns : Z) (e : Engine) : outcome Engine :=
  for_loop 0 16 (λ _ e,
    '(_, e) ← execute_query (count_of 1) ns e;
    '(_, e) ← execute_query (count_of 2) ns e;
    Ret e) e.

Definition demo_tiers (e : Engine) : outcome unit :=
  t3 ← column_tier 3 e;
  _ ← assert_ (bool_decide (t3 = COLD));
  t1 ← column_tier 1 e;
  t2 ← column_tier 2 e;
  assert_ (bool_decide (t1 = HOST) && bool_decide (t2 = HOST)).

(** [e] is the engine that [demo] starts as, with room for two of the columns;
    every query takes [ns]. *)
Definition analytical_query_demo (n : nat) (ns : Z) (e : Engine) : outcome (list Z * list Z * Engine) :=
  let '(g_oracle, vb_sum) := demo_oracle n in
  e ← demo_load n e;
  '((_, groups), e) ← execute_query demo_grouped ns e;
  _ ← assert_ (bool_decide (groups = g_oracle));
  e ← demo_heat ns e;
  _ ← demo_tiers e;
  '((_, scalar), e) ← execute_query (sum_of 3) ns e;
  _ ← assert_ (bool_decide (length scalar = 1%nat) && (nth 0 scalar 0 =? vb_sum));
  Ret (groups, scalar, e).

Definition demo_engine (n : nat) (fs : filesys) (pid serial : Z) : Engine :=
  new_engine (2 * (Z.of_nat n * 4)) [] fs pid serial.

End demo.

(** ** The demonstration passes

    Its checks hold, on fewer rows than [DEMO_ROWS]: every column is a few bytes
    of the tables, and the column that was not asked for is on disk. *)
Example demo_passes :
  match analytical_query_demo (HashOrder0 := elements_order) 512 1000 (demo_engine 512 (mkFS ∅ 4000 ∅) 7 1) with
  | Ret (groups, scalar, e) =>
      groups = [1012; 1515; 1518; 1521] ∧ scalar = [130816] ∧ column_tier 3 e = Ret COLD
  | Crash _ => False
  end.
Proof. vm_compute. repeat split. Qed.
